(* ===== verification/_CoqProject ===== *)
-Q . S2P
Prelude.v
Errors.v
Futures.v
StateErr.v
Heapq.v
PyVal.v
PyInt.v
Config.v
Worker.v
Protocol.v
Json.v
JsonProps.v
Reassembly.v
Stream.v
StreamProps.v
Transport.v
TransportProps.v
TransportBind.v
Terminal.v
Scheduler.v
Broker.v
BrokerStep.v
BrokerInv.v
BrokerRefine.v
BrokerFrame.v
BrokerProps.v
BrokerSettle.v
Lifecycle.v
LifecycleInv.v
LifecycleProps.v
Pool.v
PoolProps.v
PoolWorkers.v
PoolSafety.v
PoolLiveness.v
PoolTrack.v
RawRunner.v
Processes.v
RemoteFuture.v
Client.v
ClientConnect.v
Serialization.v
ClientInv.v
ClientProps.v
ClientQueues.v
ClientCallbacks.v
ClientCalls.v
Handshake.v
Fork.v
Composition.v
Node.v
NodeInv.v
NodeProps.v
