(* ===== verification/Prelude.v ===== *)
(** * Deadpool: a verification library

    Deadpool runs Python calls in a pool of worker processes, in the same program
    ([_pool.py]) or behind a server that many client programs share ([remote/]). This
    library models both in Rocq, from the source, and proves what makes them correct.
    The paths below are those under [src/deadpool/].

    ** The program and the files that model it

    A call travels like this: [DeadpoolClient.submit] serializes it and queues a
    SUBMIT message; the sender thread cuts the message into frames and writes them to
    a socket; the reader of the server reassembles them; [DeadpoolServer] admits the
    request, schedules it fairly among its principals and hands it to its local pool;
    a supervisor thread of the pool gives it to a worker process; the outcome takes
    the way back, is acknowledged by the client and ends a [RemoteFuture].

    - Foundations. [Prelude]: results, dictionaries in insertion order, labelled
      transition systems ([steps], [steps_invariant]), hint databases and tactics.
      [Errors]: the exception classes of the program with [isinstance], and the
      certainties a [RemoteExecutorError] carries ([remote/errors.py]). [Futures]: the
      states of a [concurrent.futures.Future]. [StateErr]: method bodies as state
      transformers that may raise, with [respects] (a relation between the first and
      the last state) and [triple]. [PyVal]: the dynamically typed values the code
      inspects, binary64 floats, UTF-8. [PyInt]: [int(text)] and [str(n)]. [Heapq]: the
      interface of [heapq], an instance included.
    - [Config]: the dataclasses and validators of [remote/config.py].
    - [Worker]: [remote/serializer.py] and [remote/_worker.py], what runs in a worker.
    - The wire protocol, [remote/_protocol.py]. [Protocol]: message kinds, control
      validation, chunking, frames. [Json], [JsonProps]: the JSON text of headers with
      the two hooks the code gives the standard library. [Reassembly]:
      [MessageReader._accept]. [Stream], [StreamProps]: [_send_exact], [_recv_exact],
      [send_message] and [MessageReader.receive] over a socket.
    - [Transport], [TransportProps], [TransportBind]: [remote/_transport.py] and the part
      of [DeadpoolServer._initialize] that binds the listeners.
    - The server, [remote/server.py]. [Terminal]: its validators and the fitting of
      descriptors into a frame. [Scheduler]: [remote/_scheduler.py]. [Broker]: the
      state of the server and one definition per critical section or handler.
      [BrokerStep]: these as events of a transition system. [BrokerInv]: an abstract
      broker that says what may change, and its invariants. [BrokerFrame],
      [BrokerRefine]: the code makes only the changes of the abstract broker.
      [BrokerProps]: the consequences, and runs that reach every part. [BrokerSettle]:
      the future of a job, once done, ends its record. [Lifecycle]: the threads in
      [start], [serve_forever], [wait_ready] and [shutdown] and the two the server starts
      for itself, over the state of [Broker]. [LifecycleInv]: the stages of a server's
      life. [LifecycleProps]: who waits is released, no pool is left behind.
    - The local pool, [_pool.py]. [Pool]: submitters, the runner thread, one supervisor
      per job and shutdown, each stretch between two waits an operation. [PoolProps],
      [PoolWorkers], [PoolSafety], [PoolLiveness], [PoolTrack]: its invariants, who holds
      which worker, what is safe, when it can move, which futures a step can touch.
      [RawRunner]: the process side,
      [raw_runner2]. [Processes]: counters, process IDs, signals to process trees.
    - The server with its pool. [Node]: the two as one system over shared futures; the
      body of [_submit_future] between them, and the claim of a request
      ([_claim_dispatch]) as the hook the supervisor calls. [NodeInv]: what keeps the two
      copies of a future equal. [NodeProps]: no request is lost between them, only
      claimed ones run, outcomes arrive, the whole can move.
    - The client, [remote/client.py] and [remote/_future.py]. [RemoteFuture]: one future.
      [Client]: its threads (submitters, sender, receiver, completion lane, callback
      dispatcher, callers, shutdown), each with a program counter. [ClientConnect]:
      [_connect] and the calls of the application. [Serialization]: the serializer
      lane. [Fork]: a client in a child process. [ClientInv] is the invariant,
      [ClientProps], [ClientQueues], [ClientCallbacks], [ClientCalls] the properties.
    - Both ends. [Handshake]: the server's answer to a HELLO and what the client makes of
      it. [Composition]: request IDs across the two, and a run of both.

    ** How state and operations correspond

    An object is a record with a field per attribute that matters; objects that are
    shared live in heaps (lists) of the state and are referred to by index, so that
    aliasing is kept: a request of the broker is one entry of [br_request_heap],
    whichever table it is found through. A method that runs under a lock is one
    function from state to state and result; exceptions keep the changes made before
    them. Where two components share objects, each has its copy in its own model and the
    composed step ([Node]) applies what one does to the other's copy as events of the
    other. A method that waits in its middle is cut there, and the program counter of
    its thread says where it stands. What the environment decides (the clock, whether
    a send fails, what another process does) is an argument of the event, or a function
    of the number of calls made. Interleavings are then the sequences of events, and
    the invariants hold after every one of them. Identifiers from [uuid4] and random
    tokens are arguments too, with their freshness a condition of the event.

    ** What the theorems show

    - Server: [broker_refines], [outcome_final], [submitted_at_most_once],
      [resubmission_idempotent], [reservations_exact], [capacity_bounded],
      [queue_exact], [job_is_the_submission].
    - Starting and stopping it: [life_refines] (the threads do what the events of
      [BrokerStep] allow), [start_outcome], [startup_decides], [stop_releases] (which
      rests on [shutdown_deadline_ends]), [no_pool_left]. They assume that threads can be
      started; the examples of [LifeDemo] show what happens when one cannot.
    - Local pool: [pool_workers_bounded], [worker_exclusive], [join_exact],
      [raw_runner_in_order].
    - Server and pool: [node_refines] (a step of the two is a run of each, so what holds
      of either holds here), [request_never_lost], [sent_only_claimed],
      [outcome_delivered], [node_progress]. They rest on [done_job_settles] of the
      server and on [own_step_tracks], [job_kept] and [pool_progress] of the pool.
    - Client: [unavailable_never_sent], [no_future_left_behind], [callbacks_called_once],
      [waiters_released], [local_cancel_never_sent], [client_queues_bounded],
      [serialization_slots_exact], [connect_outcome].
    - Wire: [message_crosses] (what one end sends the other receives, through JSON text,
      frames and a socket that cuts the bytes as it likes), [receive_contained]
      (whatever a peer sends, memory and exceptions are bounded), [header_roundtrip],
      [interleaved_delivery], [validate_json_spec].
    - Transport: [no_descriptor_lost], [unlink_guarded] (for every kernel: other processes
      may change the files before any call, and any call may fail),
      [bind_close_roundtrip], [bind_unix_outcome].
    - Both ends: [handshake_agreement], [concurrent_submission_refused].
    - Parts: [pop_served_in_turn], [fit_search_longest], [RemoteLimits_init_spec],
      [execute_opaque_outcome].

    Some theorems say what goes wrong: [concurrent_submission_refused],
    [unpicklable_job_wedges_pool], [min_workers_zero_stalls],
    [unpicklable_value_not_answered], [completion_lane_deadlock], [start_after_stop],
    [unstarted_thread_leaves_pool], [pool_shutdown_raises], [reset_undone],
    [pid_callback_twice], [other_wire_welcomed], [fork_once], and the last case of
    [connect_outcome].

    ** Bounds and fuel

    Integers are unbounded where Python's are. Floats are binary64 ([SpecFloat] with
    53 bits). The prefix of a frame has fields of 8 and 32 bits, checked when it is
    packed. Recursion that is not structural has fuel, and a theorem that it is enough:
    the method resolution order goes eight classes deep and [mro_ends_at_root] reaches
    the root; the JSON scanner has the length of the text, of which every level takes a
    character; [receive_message] has one turn per sixteen bytes, the size of a prefix,
    and [message_crosses] gives the number; the loop of [_recv_exact] has one turn per
    missing byte; the loop of [_send_exact] ends once the clock has passed the
    deadline ([send_loop_ends]); the search for the longest text halves its interval
    ([fit_search_longest]).

    ** Parameters

    Code outside the repository is a parameter with the behaviour its documentation
    states: pickle and the functions of the user, SHA-256, the text of floats in JSON
    ([FloatText]), the Unicode tables ([UnicodeData]), sockets, clock and [select]
    ([World]), the file system ([Kernel]), psutil ([System]), the authenticator and the
    authorizer. Every property with hypotheses has a witness in which they hold.

    ** Not modelled

    [TLS] beyond the exceptions and waits it causes: certificates are what the
    authenticator reads. The memory and the pipes of worker processes: a job comes with
    what happens when it runs, and the text of tracebacks is the environment's. Logging.
    The start of threads, except in [Lifecycle]: elsewhere a thread is there from the
    start, and so is the pool in [Node], which [_initialize] ensures before the
    dispatcher runs. The value of an [__exit__] and the forwarding properties.
    The package files [__init__.py] only import and export names. *)
From stdpp Require Export base tactics numbers list list_numbers gmap fin_maps
  strings sorting.
From stdpp Require Import options.

Declare Scope deadpool_scope.
Delimit Scope deadpool_scope with dp.
#[global] Open Scope Z_scope.

(** ** Hint databases of the development *)
Create HintDb deadpool discriminated.
Create HintDb dict discriminated.
Create Rewrite HintDb deadpool.
Create Rewrite HintDb dict.

(** ** Fallible computations *)

(** A Python call either returns or raises; [E] is the type of exceptions. *)
Inductive result (E A : Type) : Type :=
  | Ok (a : A)
  | Err (e : E).
Arguments Ok {E A} a.
Arguments Err {E A} e.

#[export] Instance result_ret {E} : MRet (result E) := λ A a, Ok a.
#[export] Instance result_bind {E} : MBind (result E) := λ A B f m,
  match m with Ok a => f a | Err e => Err e end.
#[export] Instance result_fmap {E} : FMap (result E) := λ A B f m,
  match m with Ok a => Ok (f a) | Err e => Err e end.

#[export] Instance result_eq_dec {E A} `{EqDecision E, EqDecision A} :
  EqDecision (result E A).
Proof. solve_decision. Defined.

Definition is_Ok {E A} (r : result E A) : bool :=
  match r with Ok _ => true | Err _ => false end.

(** [raise_if b e] is the guard [if b: raise e]. *)
Definition raise_if {E} (b : bool) (e : E) : result E unit :=
  if b then Err e else Ok tt.

(** [res_forM f l] runs [f] on every element of [l], in order, and stops at the
    first exception: a [for] loop whose body only validates. *)
Fixpoint res_forM {E A} (f : A → result E unit) (l : list A) : result E unit :=
  match l with
  | [] => Ok tt
  | x :: l' => match f x with Ok _ => res_forM f l' | Err e => Err e end
  end.

Lemma bind_Ok {E A B} (m : result E A) (f : A → result E B) b :
  (m ≫= f) = Ok b ↔ ∃ a, m = Ok a ∧ f a = Ok b.
Proof. destruct m; simpl; naive_solver. Qed.

Lemma raise_if_Ok {E} (b : bool) (e : E) u : raise_if b e = Ok u ↔ b = false.
Proof. destruct b, u; simpl; naive_solver. Qed.

Lemma raise_if_false {E} (b : bool) (e : E) : b = false → raise_if b e = Ok tt.
Proof. by intros ->. Qed.

Lemma res_forM_Ok {E A} (f : A → result E unit) l u :
  res_forM f l = Ok u ↔ Forall (λ x, f x = Ok tt) l.
Proof.
  destruct u. induction l as [|x l IH]; simpl; [by split|].
  rewrite Forall_cons, <- IH. destruct (f x) as [[]|]; naive_solver.
Qed.
#[export] Hint Rewrite @bind_Ok @raise_if_Ok @res_forM_Ok : deadpool.

(** ** Dictionaries

    A Python [dict] (and a [defaultdict]) iterates in insertion order, and the
    code relies on that order in its loops, so a dictionary is an association
    list: [dict_set] replaces in place or appends, [dict_del] removes. *)
Section Dict.
Context {K : Type} `{EqDecision K} {V : Type}.

Fixpoint dict_get (d : list (K * V)) (k : K) : option V :=
  match d with
  | [] => None
  | (k', v) :: d' => if decide (k = k') then Some v else dict_get d' k
  end.

Fixpoint dict_set (d : list (K * V)) (k : K) (v : V) : list (K * V) :=
  match d with
  | [] => [(k, v)]
  | (k', v') :: d' =>
      if decide (k = k') then (k, v) :: d' else (k', v') :: dict_set d' k v
  end.

Fixpoint dict_del (d : list (K * V)) (k : K) : list (K * V) :=
  match d with
  | [] => []
  | (k', v') :: d' =>
      if decide (k = k') then d' else (k', v') :: dict_del d' k
  end.

Definition dict_mem (d : list (K * V)) (k : K) : bool :=
  match dict_get d k with Some _ => true | None => false end.

Definition dict_wf (d : list (K * V)) : Prop := NoDup d.*1.

Lemma dict_get_Some_elem d k v : dict_get d k = Some v → (k, v) ∈ d.
Proof.
  induction d as [|[k' v'] d IH]; csimpl; [done|].
  case_decide; intros; simplify_eq; [by left|right; auto].
Qed.

Lemma dict_get_Some_key d k v : dict_get d k = Some v → k ∈ d.*1.
Proof.
  intros ?%dict_get_Some_elem. apply list_elem_of_fmap. by exists (k, v).
Qed.

Lemma dict_get_None d k : dict_get d k = None ↔ k ∉ d.*1.
Proof.
  induction d as [|[k' v'] d IH]; csimpl; [set_solver|].
  rewrite not_elem_of_cons. case_decide; naive_solver.
Qed.

Lemma dict_get_elem d k v : dict_wf d → (k, v) ∈ d → dict_get d k = Some v.
Proof.
  unfold dict_wf. induction d as [|[k' v'] d IH]; csimpl; intros Hnd Hin.
  { by apply not_elem_of_nil in Hin. }
  apply NoDup_cons in Hnd as [Hk Hnd].
  apply elem_of_cons in Hin as [|Hin]; simplify_eq; [by rewrite decide_True|].
  rewrite decide_False; auto. intros ->. apply Hk.
  apply list_elem_of_fmap. by exists (k', v).
Qed.

Lemma dict_get_set_eq d k v : dict_get (dict_set d k v) k = Some v.
Proof.
  induction d as [|[k' v'] d IH]; csimpl; [by rewrite decide_True|].
  case_decide; csimpl; [by rewrite decide_True|by rewrite decide_False].
Qed.

Lemma dict_get_set_ne d k k' v :
  k ≠ k' → dict_get (dict_set d k v) k' = dict_get d k'.
Proof.
  intros Hne. induction d as [|[k1 v1] d IH]; csimpl.
  { by rewrite decide_False. }
  destruct (decide (k = k1)) as [->|]; csimpl.
  - by rewrite !(decide_False (P := k' = k1)).
  - case_decide; auto.
Qed.

Lemma dict_get_set d k k' v :
  dict_get (dict_set d k v) k' = if decide (k = k') then Some v else dict_get d k'.
Proof. case_decide; subst; [apply dict_get_set_eq|by apply dict_get_set_ne]. Qed.

Lemma dict_get_del_ne d k k' :
  k ≠ k' → dict_get (dict_del d k) k' = dict_get d k'.
Proof.
  intros Hne. induction d as [|[k1 v1] d IH]; csimpl; [done|].
  destruct (decide (k = k1)) as [->|]; csimpl.
  - by rewrite decide_False.
  - case_decide; auto.
Qed.

Lemma filter_ne_id (l : list K) k : k ∉ l → filter (.≠ k) l = l.
Proof.
  induction l as [|k' l IH]; [done|]. rewrite not_elem_of_cons. intros [??].
  rewrite filter_cons, decide_True by done. by rewrite IH.
Qed.

Lemma dict_keys_del d k : dict_wf d → (dict_del d k).*1 ≡ₚ filter (.≠ k) d.*1.
Proof.
  unfold dict_wf. induction d as [|[k' v'] d IH]; csimpl; [done|].
  intros [Hk Hnd]%NoDup_cons. rewrite filter_cons.
  destruct (decide (k = k')) as [->|].
  - rewrite decide_False by naive_solver. csimpl.
    by rewrite filter_ne_id.
  - rewrite decide_True by naive_solver. csimpl. by rewrite IH.
Qed.

Lemma dict_get_del_eq d k : dict_wf d → dict_get (dict_del d k) k = None.
Proof.
  intros Hwf. apply dict_get_None. rewrite (dict_keys_del d k Hwf).
  rewrite list_elem_of_filter. naive_solver.
Qed.

Lemma dict_get_del d k k' :
  dict_wf d →
  dict_get (dict_del d k) k' = if decide (k = k') then None else dict_get d k'.
Proof.
  intros. case_decide; subst; [by apply dict_get_del_eq|by apply dict_get_del_ne].
Qed.

Lemma dict_del_wf d k : dict_wf d → dict_wf (dict_del d k).
Proof.
  intros Hwf. unfold dict_wf. rewrite (dict_keys_del d k Hwf).
  by apply NoDup_filter.
Qed.

Lemma dict_keys_set_old d k v :
  k ∈ d.*1 → (dict_set d k v).*1 = d.*1.
Proof.
  induction d as [|[k' v'] d IH]; csimpl; [by intros ?%not_elem_of_nil|].
  rewrite elem_of_cons. case_decide; subst; csimpl; [done|].
  intros [?|?]; [done|]. by rewrite IH.
Qed.

Lemma dict_set_new d k v : k ∉ d.*1 → dict_set d k v = d ++ [(k, v)].
Proof.
  induction d as [|[k' v'] d IH]; csimpl; [done|].
  rewrite not_elem_of_cons. intros [??]. rewrite decide_False by done.
  by rewrite IH.
Qed.

Lemma dict_keys_set d k v :
  (dict_set d k v).*1 = if decide (k ∈ d.*1) then d.*1 else d.*1 ++ [k].
Proof.
  case_decide; [by apply dict_keys_set_old|].
  rewrite dict_set_new by done. by rewrite fmap_app.
Qed.

Lemma dict_set_wf d k v : dict_wf d → dict_wf (dict_set d k v).
Proof.
  unfold dict_wf. intros Hnd.
  destruct (decide (k ∈ d.*1)) as [Hk|Hk].
  { by rewrite dict_keys_set_old. }
  rewrite dict_set_new, fmap_app by done. csimpl. apply NoDup_app. split_and!; [done| |apply NoDup_singleton].
  intros x Hx ->%list_elem_of_singleton. done.
Qed.

Lemma dict_wf_nil : dict_wf [].
Proof. apply NoDup_nil_2. Qed.

(** Rewriting one entry moves its value out of a permutation of the rest. *)
Lemma dict_get_Permutation d k v :
  dict_wf d → dict_get d k = Some v → d ≡ₚ (k, v) :: dict_del d k.
Proof.
  induction d as [|[k' v'] d IH]; csimpl; [done|]. unfold dict_wf in *.
  intros [Hk Hnd]%NoDup_cons. case_decide; intros; simplify_eq; [done|].
  rewrite (IH Hnd) at 1 by done. by rewrite Permutation_swap.
Qed.

Lemma dict_set_Permutation d k v :
  dict_wf d → dict_set d k v ≡ₚ (k, v) :: dict_del d k.
Proof.
  induction d as [|[k' v'] d IH]; csimpl; [done|]. unfold dict_wf in *.
  intros [Hk Hnd]%NoDup_cons. case_decide; [done|].
  rewrite (IH Hnd). by rewrite Permutation_swap.
Qed.

Lemma dict_del_None d k : dict_get d k = None → dict_del d k = d.
Proof.
  induction d as [|[k' v'] d IH]; csimpl; [done|].
  case_decide; [done|]. intros. by rewrite IH.
Qed.

Lemma dict_del_subseteq d k : dict_del d k ⊆ d.
Proof.
  induction d as [|[k' v] d IH]; simpl; [done|]. case_decide; [by apply list_subseteq_cons|].
  by apply list_subseteq_skip.
Qed.
End Dict.

#[export] Hint Resolve dict_set_wf dict_del_wf dict_wf_nil : dict.
#[export] Hint Rewrite @dict_get_set_eq : dict.

(** ** Lists *)

(** [list_del x l] is Python's [l.remove(x)]: it drops the first occurrence and
    raises [ValueError] (here: [None]) when there is none. *)
Fixpoint list_del {A} `{EqDecision A} (x : A) (l : list A) : option (list A) :=
  match l with
  | [] => None
  | y :: l' => if decide (x = y) then Some l' else (y ::.) <$> list_del x l'
  end.

Lemma list_del_Permutation {A} `{EqDecision A} (x : A) l l' :
  list_del x l = Some l' → l ≡ₚ x :: l'.
Proof.
  revert l'. induction l as [|y l IH]; simpl; [done|]. intros l'.
  case_decide; intros; simplify_eq; [done|].
  destruct (list_del x l) as [l1|] eqn:E; simplify_eq/=.
  rewrite (IH l1) by done. by rewrite Permutation_swap.
Qed.

Lemma list_del_None {A} `{EqDecision A} (x : A) l : list_del x l = None ↔ x ∉ l.
Proof.
  induction l as [|y l IH]; simpl; [set_solver|].
  rewrite not_elem_of_cons. case_decide; [naive_solver|].
  destruct (list_del x l); naive_solver.
Qed.

Lemma list_del_Some {A} `{EqDecision A} (x : A) l : x ∈ l → is_Some (list_del x l).
Proof.
  intros Hx. destruct (list_del x l) eqn:E; [by eexists|].
  by apply list_del_None in E.
Qed.

Lemma elem_of_concat {A} (x : A) ls : x ∈ concat ls ↔ ∃ l, x ∈ l ∧ l ∈ ls.
Proof.
  induction ls as [|l ls IH]; csimpl; [set_solver|].
  rewrite elem_of_app, IH. setoid_rewrite elem_of_cons. naive_solver.
Qed.

(** ** Sums *)

Lemma Zsum_Permutation (l1 l2 : list Z) :
  l1 ≡ₚ l2 → foldr Z.add 0 l1 = foldr Z.add 0 l2.
Proof. induction 1; simpl; lia. Qed.

Lemma Zsum_app (l1 l2 : list Z) :
  foldr Z.add 0 (l1 ++ l2) = foldr Z.add 0 l1 + foldr Z.add 0 l2.
Proof. induction l1; simpl; lia. Qed.

(** ** Sums and updates over the objects of a heap *)

Definition zcount {A} (p : A → bool) (l : list A) : Z :=
  foldr Z.add 0 ((λ x, if p x then 1 else 0) <$> l).
Definition zsum {A} (g : A → Z) (l : list A) : Z := foldr Z.add 0 (g <$> l).

Lemma zsum_app {A} (g : A → Z) l1 l2 : zsum g (l1 ++ l2) = zsum g l1 + zsum g l2.
Proof. unfold zsum. by rewrite fmap_app, Zsum_app. Qed.

Lemma zsum_alter {A} `{Inhabited A} (g : A → Z) f i l :
  (i < length l)%nat → zsum g (alter f i l) = zsum g l - g (l !!! i) + g (f (l !!! i)).
Proof.
  unfold zsum. revert i. induction l as [|x l IH]; intros [|i] Hi; cbn [length] in Hi; try lia.
  - change (alter f 0%nat (x :: l)) with (f x :: l). csimpl. cbn [foldr].
    change ((x :: l) !!! 0%nat) with x. lia.
  - change (alter f (S i) (x :: l)) with (x :: alter f i l). csimpl. cbn [foldr].
    change ((x :: l) !!! S i) with (l !!! i). rewrite IH by lia. lia.
Qed.

Lemma zsum_alter_same {A} (g : A → Z) f i l :
  (∀ x, g (f x) = g x) → zsum g (alter f i l) = zsum g l.
Proof.
  intros Hf. unfold zsum. revert i. induction l as [|x l IH]; intros [|i]; try done.
  - change (alter f 0%nat (x :: l)) with (f x :: l). csimpl. cbn [foldr]. by rewrite Hf.
  - change (alter f (S i) (x :: l)) with (x :: alter f i l). csimpl. cbn [foldr]. by rewrite IH.
Qed.

Lemma alter_beyond {A} (f : A → A) i (l : list A) : (length l ≤ i)%nat → alter f i l = l.
Proof.
  revert i. induction l as [|x l IH]; intros [|i] Hi; cbn [length] in Hi; try done; [lia|].
  change (x :: alter f i l = x :: l). f_equal. apply IH. lia.
Qed.

Lemma zsum_nonneg {A} (g : A → Z) l : (∀ x, 0 ≤ g x) → 0 ≤ zsum g l.
Proof. intros Hg. unfold zsum. induction l as [|x l IH]; csimpl; cbn [foldr]; [lia|]. specialize (Hg x). lia. Qed.

(** ** The heaps after an update *)

Lemma lookup_total_snoc {A} `{Inhabited A} (l : list A) x j :
  (j < length l)%nat → (l ++ [x]) !!! j = l !!! j.
Proof. intros. by apply lookup_total_app_l. Qed.

Lemma lookup_total_last {A} `{Inhabited A} (l : list A) x : (l ++ [x]) !!! length l = x.
Proof. by rewrite list_lookup_total_middle. Qed.

Lemma zsum_Permutation {A} (g : A → Z) l l' : l ≡ₚ l' → zsum g l = zsum g l'.
Proof. intros H. apply Zsum_Permutation. by rewrite H. Qed.

Lemma zsum_ext {A} (g g' : A → Z) l : (∀ x, x ∈ l → g x = g' x) → zsum g l = zsum g' l.
Proof.
  intros H. unfold zsum. f_equal. apply list_fmap_ext. intros i x Hx.
  apply H. by eapply list_elem_of_lookup_2.
Qed.

Lemma zsum_cons {A} (g : A → Z) x l : zsum g (x :: l) = g x + zsum g l.
Proof. done. Qed.

Lemma zsum_single {A} (g : A → Z) x : zsum g [x] = g x.
Proof. unfold zsum. simpl. lia. Qed.

(** ** Transition sequences *)
Section Star.
Context {S L : Type} (R : S → L → S → Prop).

(** [steps s ls s'] runs the labels [ls] from [s] to [s']. *)
Inductive steps : S → list L → S → Prop :=
  | steps_nil s : steps s [] s
  | steps_cons s l s1 ls s2 : R s l s1 → steps s1 ls s2 → steps s (l :: ls) s2.

Lemma steps_app s l1 s1 l2 s2 :
  steps s l1 s1 → steps s1 l2 s2 → steps s (l1 ++ l2) s2.
Proof. induction 1; simpl; eauto using steps. Qed.

(** Rule induction for an invariant: kept by every step, hence by every run. *)
Lemma steps_invariant (P : S → Prop) s ls s' :
  (∀ s l s', P s → R s l s' → P s') → P s → steps s ls s' → P s'.
Proof. intros Hstep HP. induction 1; eauto. Qed.

(** The same for a relation between the first and the last state. *)
Lemma steps_preorder (Q : S → S → Prop) `{!PreOrder Q} s ls s' :
  (∀ s l s', R s l s' → Q s s') → steps s ls s' → Q s s'.
Proof.
  intros Hstep. induction 1 as [s|s l s1 ls s2 H1 H2 IH]; [reflexivity|].
  transitivity s1; [by eapply Hstep|done].
Qed.
End Star.

(** ** Tactics *)

(** Turn a successful chain of monadic guards into its conditions. *)
Ltac res_inv :=
  repeat match goal with
  | H : Ok _ = Ok _ |- _ => injection H as H; simplify_eq
  | H : Err _ = Ok _ |- _ => discriminate H
  | H : Ok _ = Err _ |- _ => discriminate H
  | H : (_ ≫= _) = Ok _ |- _ => apply bind_Ok in H as (? & ? & H)
  | H : raise_if _ _ = Ok _ |- _ => apply raise_if_Ok in H
  | H : (_ || _) = false |- _ => apply orb_false_iff in H as [? ?]
  | H : (_ && _) = true |- _ => apply andb_true_iff in H as [? ?]
  | H : negb _ = false |- _ => apply negb_false_iff in H
  | H : negb _ = true |- _ => apply negb_true_iff in H
  | x : unit |- _ => destruct x
  end.

(** Reflect boolean comparisons of integers into propositions. *)
Ltac zbool :=
  repeat match goal with
  | H : (_ <? _) = true |- _ => apply Z.ltb_lt in H
  | H : (_ <? _) = false |- _ => apply Z.ltb_ge in H
  | H : (_ <=? _) = true |- _ => apply Z.leb_le in H
  | H : (_ <=? _) = false |- _ => apply Z.leb_gt in H
  | H : (_ =? _) = true |- _ => apply Z.eqb_eq in H
  | H : (_ =? _) = false |- _ => apply Z.eqb_neq in H
  | H : (_ >? _) = true |- _ => rewrite Z.gtb_ltb in H
  | H : (_ >? _) = false |- _ => rewrite Z.gtb_ltb in H
  | H : (_ >=? _) = true |- _ => rewrite Z.geb_leb in H
  | H : (_ >=? _) = false |- _ => rewrite Z.geb_leb in H
  end.
