(* ===== verification/Errors.v ===== *)
(** * Errors: the failure taxonomy ([remote/errors.py], exception classes of [_pool.py])

    Every exception class the code raises or catches, with its superclass, so
    that an [except C:] clause is [isinstance]; and [RemoteExecutorError] with
    the acceptance and execution certainty it carries to the application. *)
From S2P Require Import Prelude.

(** ** Exception classes *)

(** Built-in classes and those of the standard library, then the classes of
    [_pool.py] and [serializer.py], then those of [remote/errors.py]. *)
Inductive exn_class :=
  | BaseException | KeyboardInterrupt | Exception_
  | AttributeError | OverflowError | EOFError | LookupError | IndexError | KeyError
  | OSError | BrokenPipeError | FileExistsError | FileNotFoundError | PermissionError
  | ConnectionRefusedError | TimeoutError_
  | RuntimeError | RecursionError | TypeError
  | ValueError | UnicodeEncodeError | UnicodeDecodeError | JSONDecodeError
  | PicklingError | StructError | QueueFull | QueueEmpty
  | FuturesCancelledError | InvalidStateError
  | PoolTimeoutError | ProcessError | PoolClosed | SerializationLimitError
  | RemoteExecutorError | RemoteExecutorUnavailable | RemoteAuthenticationError
  | RemoteCompatibilityError | RemoteQueueFull | RemoteSubmissionTimeout
  | SubmissionOutcomeUnknown | RemoteQueueTimeout | RemoteTaskError
  | RemoteResultEncodingError | RemoteResultTooLarge
  | RemoteCancellationOutcomeUnknown | RemoteForkedProcessError
  | RemoteProcessError | RemoteCancelledError | RemoteConnectionLost
  | RemoteServerRestarted | RemoteProtocolError | RemoteResultLost.

#[export] Instance exn_class_eq_dec : EqDecision exn_class.
Proof. solve_decision. Defined.

(** The superclass each [class C(D):] statement names. The timeout class of the
    pool derives from [concurrent.futures.TimeoutError], which is the built-in
    [TimeoutError]. *)
Definition superclass (c : exn_class) : option exn_class :=
  match c with
  | BaseException => None
  | KeyboardInterrupt | Exception_ => Some BaseException
  | AttributeError | OverflowError | EOFError | LookupError | OSError
  | RuntimeError | TypeError | ValueError | PicklingError | StructError | QueueFull | QueueEmpty
  | FuturesCancelledError | InvalidStateError | ProcessError | PoolClosed
  | RemoteExecutorError => Some Exception_
  | IndexError | KeyError => Some LookupError
  | BrokenPipeError | FileExistsError | FileNotFoundError | PermissionError
  | ConnectionRefusedError | TimeoutError_ => Some OSError
  | RecursionError => Some RuntimeError
  | UnicodeEncodeError | UnicodeDecodeError | JSONDecodeError
  | SerializationLimitError => Some ValueError
  | PoolTimeoutError => Some TimeoutError_
  | RemoteExecutorUnavailable | RemoteAuthenticationError | RemoteQueueFull
  | SubmissionOutcomeUnknown | RemoteQueueTimeout | RemoteTaskError
  | RemoteCancellationOutcomeUnknown | RemoteForkedProcessError
  | RemoteProcessError | RemoteCancelledError | RemoteConnectionLost
  | RemoteProtocolError | RemoteResultLost => Some RemoteExecutorError
  | RemoteCompatibilityError => Some RemoteAuthenticationError
  | RemoteSubmissionTimeout => Some RemoteQueueFull
  | RemoteResultEncodingError | RemoteResultTooLarge => Some RemoteTaskError
  | RemoteServerRestarted => Some RemoteConnectionLost
  end.

(** The method resolution order of a class; the hierarchy has depth five. *)
Fixpoint mro_fuel (n : nat) (c : exn_class) : list exn_class :=
  match n with
  | O => [c]
  | S n' => c :: match superclass c with Some d => mro_fuel n' d | None => [] end
  end.
Definition mro (c : exn_class) : list exn_class := mro_fuel 8 c.

(** [isinstance(e, d)] for an instance [e] of class [c]. *)
Definition subclass (c d : exn_class) : bool := bool_decide (d ∈ mro c).

(** An exception value: its class and the fixed part of its message. *)
Record exn := Raise { exn_of : exn_class; exn_msg : string }.

#[export] Instance exn_eq_dec : EqDecision exn.
Proof. solve_decision. Defined.

Definition isinstance (e : exn) (d : exn_class) : bool := subclass (exn_of e) d.

(** ** Certainties *)

Inductive AcceptanceCertainty := NOT_ACCEPTED | ACCEPTED | ACCEPTANCE_UNKNOWN.
Inductive ExecutionCertainty := NOT_STARTED | MAY_HAVE_RUN | COMPLETED.

#[export] Instance AcceptanceCertainty_eq_dec : EqDecision AcceptanceCertainty.
Proof. solve_decision. Defined.
#[export] Instance ExecutionCertainty_eq_dec : EqDecision ExecutionCertainty.
Proof. solve_decision. Defined.

(** The attribute a class statement itself assigns. *)
Definition own_default_acceptance (c : exn_class) : option AcceptanceCertainty :=
  match c with
  | RemoteExecutorError => Some ACCEPTANCE_UNKNOWN
  | RemoteExecutorUnavailable | RemoteAuthenticationError | RemoteQueueFull =>
      Some NOT_ACCEPTED
  | RemoteQueueTimeout | RemoteTaskError | RemoteProcessError
  | RemoteCancelledError | RemoteResultLost => Some ACCEPTED
  | _ => None
  end.

Definition own_default_execution (c : exn_class) : option ExecutionCertainty :=
  match c with
  | RemoteExecutorError => Some MAY_HAVE_RUN
  | RemoteExecutorUnavailable | RemoteAuthenticationError | RemoteQueueFull
  | RemoteQueueTimeout | RemoteCancelledError => Some NOT_STARTED
  | RemoteTaskError | RemoteResultLost => Some COMPLETED
  | RemoteProcessError => Some MAY_HAVE_RUN
  | _ => None
  end.

(** Attribute lookup through the method resolution order. *)
Definition class_attr {A} (own : exn_class → option A) (c : exn_class) : option A :=
  head (omap own (mro c)).

Definition default_acceptance := class_attr own_default_acceptance.
Definition default_execution := class_attr own_default_execution.

(** [AcceptanceCertainty(value)] for a string argument. *)
Definition acceptance_of_value (s : string) : result exn AcceptanceCertainty :=
  if decide (s = "not_accepted"%string) then Ok NOT_ACCEPTED
  else if decide (s = "accepted"%string) then Ok ACCEPTED
  else if decide (s = "unknown"%string) then Ok ACCEPTANCE_UNKNOWN
  else Err (Raise ValueError "not a valid AcceptanceCertainty").

Definition execution_of_value (s : string) : result exn ExecutionCertainty :=
  if decide (s = "not_started"%string) then Ok NOT_STARTED
  else if decide (s = "may_have_run"%string) then Ok MAY_HAVE_RUN
  else if decide (s = "completed"%string) then Ok COMPLETED
  else Err (Raise ValueError "not a valid ExecutionCertainty").

(** A keyword argument of type [Certainty | str | None]. *)
Inductive certainty_arg (A : Type) :=
  | ArgNone | ArgMember (a : A) | ArgStr (s : string).
Arguments ArgNone {A}. Arguments ArgMember {A} a. Arguments ArgStr {A} s.

(** [Certainty(arg or default)]: [None] and the empty string are falsy. *)
Definition resolve_certainty {A} (of_value : string → result exn A)
    (arg : certainty_arg A) (default : A) : result exn A :=
  match arg with
  | ArgNone => Ok default
  | ArgMember a => Ok a
  | ArgStr s => if decide (s = ""%string) then Ok default else of_value s
  end.

Record remote_error := {
  re_class : exn_class;
  re_message : string;
  re_request_id : option (list N);
  re_acceptance : AcceptanceCertainty;
  re_execution : ExecutionCertainty }.

(** [RemoteExecutorError.__init__], run for the subclass [c]. The two defaults
    always exist for a remote class ([remote_defaults_defined]). *)
Definition remote_executor_error_init (c : exn_class) (message : string)
    (request_id : option (list N))
    (acc : certainty_arg AcceptanceCertainty)
    (exe : certainty_arg ExecutionCertainty) : result exn remote_error :=
  match default_acceptance c, default_execution c with
  | Some da, Some de =>
      a ← resolve_certainty acceptance_of_value acc da;
      x ← resolve_certainty execution_of_value exe de;
      Ok {| re_class := c; re_message := message; re_request_id := request_id;
            re_acceptance := a; re_execution := x |}
  | _, _ => Err (Raise AttributeError "default certainty")
  end.

(** ** Theorems *)

Lemma remote_defaults_defined c :
  subclass c RemoteExecutorError = true →
  is_Some (default_acceptance c) ∧ is_Some (default_execution c).
Proof. destruct c; vm_compute; intros; split; eauto; discriminate. Qed.

(** Reaching the fuel of [mro] would drop superclasses; it is never reached. *)
Lemma mro_ends_at_root c : last (mro c) = Some BaseException.
Proof. by destruct c. Qed.

(** Retry safety of the taxonomy. *)
Theorem remote_error_defaults_consistent c msg rid :
  subclass c RemoteExecutorError = true →
  ∃ e, remote_executor_error_init c msg rid ArgNone ArgNone = Ok e ∧
       isinstance (Raise (re_class e) msg) RemoteExecutorError = true ∧
       (re_acceptance e = NOT_ACCEPTED → re_execution e = NOT_STARTED) ∧
       (re_execution e = COMPLETED → re_acceptance e = ACCEPTED) ∧
       (re_acceptance e = ACCEPTANCE_UNKNOWN → re_execution e = MAY_HAVE_RUN).
Proof.
  intros H. destruct c; try (vm_compute in H; discriminate H);
    (eexists; split; [vm_compute; reflexivity|]; split; [by vm_compute|]; cbn; repeat split; intros; done).
Qed.

Lemma remote_error_defaults_consistent_witness :
  ∃ e, remote_executor_error_init RemoteSubmissionTimeout "full" None ArgNone ArgNone = Ok e
       ∧ isinstance (Raise (re_class e) "full") RemoteExecutorError = true ∧
       (re_acceptance e = NOT_ACCEPTED → re_execution e = NOT_STARTED) ∧
       (re_execution e = COMPLETED → re_acceptance e = ACCEPTED) ∧
       (re_acceptance e = ACCEPTANCE_UNKNOWN → re_execution e = MAY_HAVE_RUN).
Proof. apply remote_error_defaults_consistent. reflexivity. Defined.
