(* ===== verification/Futures.v ===== *)
(** * Futures: the states of [concurrent.futures.Future]

    The pool, the broker and the client hold futures of their own classes; all three
    inherit the state machine of the standard library. *)
From S2P Require Import Prelude.

Module FutureState.
Inductive t := PENDING | RUNNING | CANCELLED | CANCELLED_AND_NOTIFIED | FINISHED.
#[export] Instance t_eq_dec : EqDecision t.
Proof. solve_decision. Defined.

Definition done (s : t) : bool :=
  match s with PENDING | RUNNING => false | _ => true end.
End FutureState.
Export (hints) FutureState.
