(* ===== verification/StateErr.v ===== *)
(** * StateErr: Python methods as state transformers that may raise

    A method body is a function from the state to the state it leaves behind and
    the value it returns or the exception it raises: an exception does not undo
    the changes made before it. [respects] and [triple] are the two ways the
    development reasons about such bodies. *)
From S2P Require Import Prelude Errors.

Definition ST (S A : Type) : Type := S → S * result exn A.

#[export] Instance ST_ret {S} : MRet (ST S) := λ A a s, (s, Ok a).
#[export] Instance ST_bind {S} : MBind (ST S) := λ A B f m s,
  match m s with
  | (s', Ok a) => f a s'
  | (s', Err e) => (s', Err e)
  end.

Section Ops.
Context {S : Type}.

Definition gets {A} (f : S → A) : ST S A := λ s, (s, Ok (f s)).
Definition modify (f : S → S) : ST S unit := λ s, (f s, Ok tt).
Definition raise {A} (e : exn) : ST S A := λ s, (s, Err e).
Definition skip : ST S unit := mret tt.
(** A pure computation that may raise. *)
Definition lift {A} (r : result exn A) : ST S A := λ s, (s, r).
(** An exception of the body is logged and dropped. *)
Definition swallow (m : ST S unit) : ST S unit := λ s, ((m s).1, Ok tt).
(** A [for] loop. *)
Fixpoint for_each {A} (l : list A) (f : A → ST S unit) : ST S unit :=
  match l with
  | [] => skip
  | x :: l' => _ ← f x; for_each l' f
  end.

(** ** Preorders kept by a body

    [respects R m]: [m] relates its first state to its last, however it ends. An
    invariant [P] is the preorder [λ s s', P s → P s']. *)
Definition respects (R : S → S → Prop) {A} (m : ST S A) : Prop := ∀ s, R s (m s).1.

Section Respects.
Context (R : S → S → Prop) `{!PreOrder R}.

Lemma respects_ret {A} (a : A) : respects R (mret a).
Proof. intros s. reflexivity. Qed.
Lemma respects_skip : respects R skip.
Proof. intros s. reflexivity. Qed.
Lemma respects_gets {A} (f : S → A) : respects R (gets f).
Proof. intros s. reflexivity. Qed.
Lemma respects_raise {A} e : respects R (raise (A := A) e).
Proof. intros s. reflexivity. Qed.
Lemma respects_lift {A} (r : result exn A) : respects R (lift r).
Proof. intros s. reflexivity. Qed.
Lemma respects_modify f : (∀ s, R s (f s)) → respects R (modify f).
Proof. intros H s. apply H. Qed.
Lemma respects_bind {A B} (m : ST S A) (f : A → ST S B) :
  respects R m → (∀ a, respects R (f a)) → respects R (m ≫= f).
Proof.
  intros Hm Hf s. unfold mbind, ST_bind. specialize (Hm s).
  destruct (m s) as [s' [a|e]]; simpl in *; [|done].
  etransitivity; [exact Hm|apply Hf].
Qed.
Lemma respects_swallow m : respects R m → respects R (swallow m).
Proof. intros H s. apply H. Qed.
Lemma respects_for_each {A} (l : list A) f :
  (∀ x, respects R (f x)) → respects R (for_each l f).
Proof.
  intros H. induction l as [|x l IH]; simpl; [apply respects_skip|].
  apply respects_bind; [apply H|done].
Qed.
End Respects.

(** ** Running a body one change at a time *)

(** The state stays a composition of named changes. *)
Lemma run_gets {A B} (f : S → A) (k : A → ST S B) s : (gets f ≫= k) s = k (f s) s.
Proof. done. Qed.
Lemma run_modify {B} (f : S → S) (k : unit → ST S B) s : (modify f ≫= k) s = k tt (f s).
Proof. done. Qed.
Lemma run_skip {B} (k : unit → ST S B) s : (skip ≫= k) s = k tt s.
Proof. done. Qed.
Lemma run_last (f : S → S) s : modify f s = (f s, Ok tt).
Proof. done. Qed.
Lemma run_assoc {A B C} (m : ST S A) (k : A → ST S B) (k' : B → ST S C) s :
  ((m ≫= k) ≫= k') s = (m ≫= (λ a, k a ≫= k')) s.
Proof. unfold mbind, ST_bind. by destruct (m s) as [s' []]. Qed.

(** ** Triples *)

(** [triple P m Q]: from a state in [P], [m] ends in a state and with a result
    (a value or an exception) in [Q]. *)
Definition triple {A} (P : S → Prop) (m : ST S A) (Q : S → result exn A → Prop) : Prop :=
  ∀ s, P s → Q (m s).1 (m s).2.

(** The same when the body does not raise. *)
Definition triple_ok {A} (P : S → Prop) (m : ST S A) (Q : A → S → Prop) : Prop :=
  triple P m (λ s r, ∃ a, r = Ok a ∧ Q a s).

Lemma triple_bind {A B} P (m : ST S A) (f : A → ST S B) Q R :
  triple P m (λ s r, match r with Ok a => Q a s | Err e => R s (Err e) end) →
  (∀ a, triple (Q a) (f a) R) → triple P (m ≫= f) R.
Proof.
  intros Hm Hf s Hs. unfold mbind, ST_bind. specialize (Hm s Hs).
  destruct (m s) as [s' [a|e]]; simpl in *; [by apply Hf|done].
Qed.

Lemma triple_ok_bind {A B} P (m : ST S A) (f : A → ST S B) Q R :
  triple_ok P m Q → (∀ a, triple_ok (Q a) (f a) R) → triple_ok P (m ≫= f) R.
Proof.
  intros Hm Hf s Hs. unfold mbind, ST_bind. destruct (Hm s Hs) as (a & Ha & Hq).
  destruct (m s) as [s' r]; simpl in *; subst. by apply Hf.
Qed.

Lemma triple_weaken {A} P P' (m : ST S A) Q Q' :
  triple P m Q → (∀ s, P' s → P s) → (∀ s r, Q s r → Q' s r) → triple P' m Q'.
Proof. intros H HP HQ s Hs. by apply HQ, H, HP. Qed.
End Ops.

(** Splits a [respects] goal along the structure of the body. *)
Ltac respects_step :=
  match goal with
  | |- respects _ (mbind _ _) => apply respects_bind; [try typeclasses eauto| |intros ?]
  | |- respects _ (for_each _ _) => apply respects_for_each; [try typeclasses eauto|intros ?]
  | |- respects _ (swallow _) => apply respects_swallow
  | |- respects _ (mret _) => apply respects_ret; try typeclasses eauto
  | |- respects _ skip => apply respects_skip; try typeclasses eauto
  | |- respects _ (gets _) => apply respects_gets; try typeclasses eauto
  | |- respects _ (raise _) => apply respects_raise; try typeclasses eauto
  | |- respects _ (lift _) => apply respects_lift; try typeclasses eauto
  | |- respects _ (if ?b then _ else _) => destruct b
  | |- respects _ (match ?b with _ => _ end) => destruct b
  end.

(** Runs a body one change at a time. *)
Ltac run_body :=
  repeat first [rewrite run_gets|rewrite run_modify|rewrite run_skip|rewrite run_last
    |rewrite run_assoc].
