(* ===== verification/Heapq.v ===== *)
(** * Heapq: the priority-queue interface the program relies on

    [_scheduler.py] keeps its priorities in a list handled by [heapq] and
    [_pool.py] keeps its jobs in a [queue.PriorityQueue], which is a [heapq]
    list behind a lock. Both only push, pop, rebuild, and read element 0, so
    the clients are proved against the class [HeapQ]. The documented behaviour
    of [heapq] ("heap[0] is always the smallest element", "pop returns the
    smallest item") is the law set; [sorted_heapq], the list kept in order, is
    the executable implementation that discharges it. *)
From S2P Require Import Prelude.

Class HeapQ (A : Type) (R : relation A) := {
  heappush : list A → A → list A;
  heappop : list A → option (A * list A);
  heapify : list A → list A;
  is_heap : list A → Prop;
  heap_nil : is_heap [];
  heap_head_min : ∀ x h y, is_heap (x :: h) → y ∈ h → R x y;
  heappush_heap : ∀ h x, is_heap h → is_heap (heappush h x);
  heappush_perm : ∀ h x, is_heap h → heappush h x ≡ₚ x :: h;
  heappop_nil : heappop [] = None;
  heappop_cons : ∀ x h, is_heap (x :: h) →
    ∃ h', heappop (x :: h) = Some (x, h') ∧ is_heap h' ∧ h' ≡ₚ h;
  heapify_heap : ∀ l, is_heap (heapify l);
  heapify_perm : ∀ l, heapify l ≡ₚ l }.

(** ** The list kept in order *)
Section Sorted.
Context {A : Type} (R : relation A) `{!RelDecision R, !PreOrder R, !Total R}.

Definition sorted_push (h : list A) (x : A) : list A := merge_sort R (x :: h).
Definition sorted_pop (h : list A) : option (A * list A) :=
  match h with [] => None | x :: h' => Some (x, h') end.

#[refine] Instance sorted_heapq : HeapQ A R := {|
  heappush := sorted_push;
  heappop := sorted_pop;
  heapify := merge_sort R;
  is_heap := StronglySorted R |}.
Proof.
  - constructor.
  - intros x h y [_ Hx]%StronglySorted_inv Hy. by eapply Forall_forall in Hx.
  - intros. apply StronglySorted_merge_sort; apply _.
  - intros. apply merge_sort_Permutation.
  - done.
  - intros x h [??]%StronglySorted_inv. by exists h.
  - intros. apply StronglySorted_merge_sort; apply _.
  - intros. apply merge_sort_Permutation.
Defined.
End Sorted.

(** ** Consequences of the laws *)
Section Laws.
Context {A : Type} {R : relation A} `{!HeapQ A R, !Reflexive R}.

Lemma heap_min_of_perm (h l : list A) x h' :
  is_heap h → h = x :: h' → h ≡ₚ l → ∀ y, y ∈ l → R x y.
Proof.
  intros Hh -> Hp y Hy. rewrite <- Hp in Hy.
  apply elem_of_cons in Hy as [->|Hy]; [done|by eapply heap_head_min].
Qed.

Lemma heap_nonempty (h l : list A) :
  h ≡ₚ l → l ≠ [] → ∃ x h', h = x :: h'.
Proof.
  intros Hp Hl. destruct h as [|x h']; [|by eauto].
  by apply Permutation_nil_l in Hp.
Qed.

(** A new minimum is pushed to the front: the heap of a heap plus a smallest
    element starts with it, up to antisymmetry of the order. *)
Lemma heappush_head `{!AntiSymm (=) R} (h : list A) x y h' :
  is_heap h → heappush h x = y :: h' → (∀ z, z ∈ h → R x z) → y = x.
Proof.
  intros Hh E Hx. pose proof (heappush_perm h x Hh) as Hp. rewrite E in Hp.
  assert (Hy : y ∈ x :: h) by (rewrite <- Hp; left).
  apply elem_of_cons in Hy as [|Hy]; [done|].
  apply (anti_symm R); [|by apply Hx].
  pose proof (heappush_heap h x Hh) as Hh'. rewrite E in Hh'.
  apply (heap_min_of_perm _ _ _ _ Hh' eq_refl Hp x). left.
Qed.
End Laws.
