(* ===== verification/PyVal.v ===== *)
(** * PyVal: the Python values the code inspects

    Strings as sequences of code points with their UTF-8 encoding, IEEE floats,
    and the dynamically typed values that reach the program as configuration,
    keyword arguments or decoded JSON, with the [isinstance] tests and
    comparisons the validators use. *)
From Stdlib Require Export Strings.Byte SpecFloat.
From Stdlib Require Import Ascii.
From S2P Require Import Prelude Errors.

(** ** Strings and bytes *)

(** A Python [str] is a sequence of code points, surrogates included. *)
Notation pystr := (list N).
Notation bytes := (list Byte.byte).

Definition py (s : string) : pystr :=
  N_of_ascii <$> String.list_ascii_of_string s.

Lemma py_inj x y : py x = py y → x = y.
Proof.
  intros H. apply (f_equal (fmap Ascii.ascii_of_N)) in H. unfold py in H. rewrite <- !list_fmap_compose in H.
  rewrite !(list_fmap_ext (Ascii.ascii_of_N ∘ Ascii.N_of_ascii) id) in H
    by (intros i a _; apply Ascii.ascii_N_embedding).
  rewrite !list_fmap_id in H. rewrite <- (String.string_of_list_ascii_of_string x), H.
  apply String.string_of_list_ascii_of_string.
Qed.

#[export] Instance byte_eq_dec : EqDecision Byte.byte := Byte.byte_eq_dec.

Definition n2b (n : N) : Byte.byte := default x00 (Byte.of_N (n mod 256)).
Notation b2n := Byte.to_N.

Lemma b2n_n2b n : (n < 256)%N → b2n (n2b n) = n.
Proof.
  intros Hn. unfold n2b. rewrite N.mod_small by done.
  destruct (Byte.of_N n) as [b|] eqn:E; csimpl; [by apply Byte.to_of_N|].
  apply Byte.of_N_None_iff in E. lia.
Qed.

Lemma n2b_b2n b : n2b (b2n b) = b.
Proof.
  unfold n2b. rewrite N.mod_small by (pose proof (Byte.to_N_bounded b); lia).
  by rewrite Byte.of_to_N.
Qed.

(** [str.startswith] and [str.rsplit(":", 1)]. *)
Fixpoint startswith (s prefix : pystr) {struct prefix} : bool :=
  match prefix, s with
  | [], _ => true
  | _, [] => false
  | c :: p', d :: s' => bool_decide (c = d) && startswith s' p'
  end.

Lemma startswith_app s p : startswith s p = true ↔ ∃ t, s = p ++ t.
Proof.
  revert s. induction p as [|c p IH]; intros s; simpl.
  { split; [intros _; by exists s|done]. }
  destruct s as [|d s]; [split; [done|by intros [??]]|].
  rewrite andb_true_iff, bool_decide_eq_true, IH. split.
  - intros [-> [t ->]]. by exists t.
  - intros [t [= -> ->]]. split; [done|by exists t].
Qed.

Definition colon : N := 58.

(** The text after the last [sep], when there is one: [s.rsplit(sep, 1)[1]]. *)
Fixpoint after_last (sep : N) (s : pystr) : option pystr :=
  match s with
  | [] => None
  | c :: s' =>
      match after_last sep s' with
      | Some t => Some t
      | None => if decide (c = sep) then Some s' else None
      end
  end.

(** ** UTF-8 *)

Definition is_surrogate (c : N) : bool := (0xD800 <=? c)%N && (c <=? 0xDFFF)%N.
(** Code points that have a UTF-8 encoding. *)
Definition is_scalar (c : N) : bool := (c <? 0x110000)%N && negb (is_surrogate c).

Definition utf8_char (c : N) : bytes :=
  if (c <? 0x80)%N then [n2b c]
  else if (c <? 0x800)%N then [n2b (0xC0 + c / 64); n2b (0x80 + c mod 64)]
  else if (c <? 0x10000)%N then
    [n2b (0xE0 + c / 4096); n2b (0x80 + (c / 64) mod 64); n2b (0x80 + c mod 64)]
  else
    [n2b (0xF0 + c / 262144); n2b (0x80 + (c / 4096) mod 64);
     n2b (0x80 + (c / 64) mod 64); n2b (0x80 + c mod 64)].

(** [s.encode("utf-8")]: a surrogate raises [UnicodeEncodeError]. *)
Fixpoint utf8_encode (s : pystr) : result exn bytes :=
  match s with
  | [] => Ok []
  | c :: s' =>
      if is_scalar c then t ← utf8_encode s'; Ok (utf8_char c ++ t)
      else Err (Raise UnicodeEncodeError "surrogates not allowed")
  end.

Definition hex_digit (n : N) : N := if (n <? 10)%N then (48 + n)%N else (87 + n)%N.
Definition hex4 (c : N) : pystr :=
  [hex_digit (c / 4096 mod 16); hex_digit (c / 256 mod 16);
   hex_digit (c / 16 mod 16); hex_digit (c mod 16)]%N.

(** [errors="backslashreplace"]: a surrogate becomes the six characters
    [\udxxx]. *)
Definition backslashreplace (s : pystr) : pystr :=
  s ≫= λ c, if is_scalar c then [c] else [92; 117]%N ++ hex4 c.

Definition in_range (lo hi : N) (b : Byte.byte) : bool :=
  (lo <=? b2n b)%N && (b2n b <=? hi)%N.
Definition is_cont : Byte.byte → bool := in_range 0x80 0xBF.

(** One decoding step of the UTF-8 codec: a code point and the rest, or the
    input after the maximal ill-formed prefix. *)
Inductive utf8_step := UChar (c : N) (rest : bytes) | UBad (rest : bytes).

Definition second_range (n0 : N) : N * N :=
  if (n0 =? 0xE0)%N then (0xA0, 0xBF)%N
  else if (n0 =? 0xED)%N then (0x80, 0x9F)%N
  else if (n0 =? 0xF0)%N then (0x90, 0xBF)%N
  else if (n0 =? 0xF4)%N then (0x80, 0x8F)%N
  else (0x80, 0xBF)%N.

Definition utf8_step_of (b0 : Byte.byte) (rest : bytes) : utf8_step :=
  let n0 := b2n b0 in
  let '(lo, hi) := second_range n0 in
  if (n0 <? 0x80)%N then UChar n0 rest
  else if in_range 0xC2 0xDF b0 then
    match rest with
    | b1 :: r1 =>
        if is_cont b1 then UChar ((n0 - 0xC0) * 64 + (b2n b1 - 0x80))%N r1
        else UBad rest
    | [] => UBad []
    end
  else if in_range 0xE0 0xEF b0 then
    match rest with
    | b1 :: r1 =>
        if in_range lo hi b1 then
          match r1 with
          | b2 :: r2 =>
              if is_cont b2 then
                UChar ((n0 - 0xE0) * 4096 + (b2n b1 - 0x80) * 64 + (b2n b2 - 0x80))%N r2
              else UBad r1
          | [] => UBad []
          end
        else UBad rest
    | [] => UBad []
    end
  else if in_range 0xF0 0xF4 b0 then
    match rest with
    | b1 :: r1 =>
        if in_range lo hi b1 then
          match r1 with
          | b2 :: r2 =>
              if is_cont b2 then
                match r2 with
                | b3 :: r3 =>
                    if is_cont b3 then
                      UChar ((n0 - 0xF0) * 262144 + (b2n b1 - 0x80) * 4096
                             + (b2n b2 - 0x80) * 64 + (b2n b3 - 0x80))%N r3
                    else UBad r2
                | [] => UBad []
                end
              else UBad r1
          | [] => UBad []
          end
        else UBad rest
    | [] => UBad []
    end
  else UBad rest.

(** [decode("utf-8", errors="ignore")] and the strict decoder; every step
    consumes a byte, so the length of the input is enough fuel. *)
Fixpoint utf8_decode_ignore_fuel (n : nat) (b : bytes) : pystr :=
  match n, b with
  | S n', b0 :: rest =>
      match utf8_step_of b0 rest with
      | UChar c r => c :: utf8_decode_ignore_fuel n' r
      | UBad r => utf8_decode_ignore_fuel n' r
      end
  | _, _ => []
  end.
Definition utf8_decode_ignore (b : bytes) : pystr := utf8_decode_ignore_fuel (length b) b.

Fixpoint utf8_decode_fuel (n : nat) (b : bytes) : result exn pystr :=
  match n, b with
  | S n', b0 :: rest =>
      match utf8_step_of b0 rest with
      | UChar c r => s ← utf8_decode_fuel n' r; Ok (c :: s)
      | UBad r => Err (Raise UnicodeDecodeError "invalid byte")
      end
  | _, _ => Ok []
  end.
Definition utf8_decode (b : bytes) : result exn pystr := utf8_decode_fuel (length b) b.

(** ** Floats *)

Notation pyfloat := spec_float.
Definition fzero : pyfloat := S754_zero false.
Definition isfinite_float (f : pyfloat) : bool :=
  match f with S754_infinity _ | S754_nan => false | _ => true end.

(** [float(n)]: rounds to nearest even; too large an integer raises. *)
Definition float_of_int (z : Z) : result exn pyfloat :=
  let f := binary_normalize 53 1024 z 0 false in
  if isfinite_float f then Ok f
  else Err (Raise OverflowError "int too large to convert to float").

(** [int(f)] truncates towards zero. *)
Definition int_of_float (f : pyfloat) : result exn Z :=
  match f with
  | S754_zero _ => Ok 0
  | S754_infinity _ => Err (Raise OverflowError "cannot convert float infinity to integer")
  | S754_nan => Err (Raise ValueError "cannot convert float NaN to integer")
  | S754_finite s m e =>
      let a := if 0 <=? e then Z.pos m * 2 ^ e else Z.pos m / 2 ^ (- e) in
      Ok (if s then - a else a)
  end.

Definition fadd (x y : pyfloat) : pyfloat := SFadd 53 1024 x y.
Definition fsub (x y : pyfloat) : pyfloat := SFsub 53 1024 x y.

(** [min(x, y)]: the second argument only when it is smaller. *)
Definition fmin (x y : pyfloat) : pyfloat := if SFltb y x then y else x.

(** ** Dynamically typed values *)

(** [POther] is an instance of a class that is none of the others: a tuple, a
    [bytes] object, ... *)
#[warnings="-register-all"]
Inductive pyval :=
  | PNone
  | PBool (b : bool)
  | PInt (z : Z)
  | PFloat (f : pyfloat)
  | PStr (s : pystr)
  | PList (l : list pyval)
  | PDict (d : list (pyval * pyval))
  | POther (tag : N).

Section PyvalInd.
Context (Q : pyval → Prop).
Hypothesis HNone : Q PNone.
Hypothesis HBool : ∀ b, Q (PBool b).
Hypothesis HInt : ∀ z, Q (PInt z).
Hypothesis HFloat : ∀ f, Q (PFloat f).
Hypothesis HStr : ∀ s, Q (PStr s).
Hypothesis HList : ∀ l, Forall Q l → Q (PList l).
Hypothesis HDict : ∀ d, Forall (λ kv, Q kv.1 ∧ Q kv.2) d → Q (PDict d).
Hypothesis HOther : ∀ n, Q (POther n).

Fixpoint pyval_ind' (v : pyval) : Q v :=
  match v with
  | PNone => HNone
  | PBool b => HBool b
  | PInt z => HInt z
  | PFloat f => HFloat f
  | PStr s => HStr s
  | PList l =>
      HList l ((fix go l : Forall Q l :=
                  match l with
                  | [] => Forall_nil_2 _
                  | x :: l' => Forall_cons_2 _ _ _ (pyval_ind' x) (go l')
                  end) l)
  | PDict d =>
      HDict d ((fix go d : Forall (λ kv, Q kv.1 ∧ Q kv.2) d :=
                  match d with
                  | [] => Forall_nil_2 _
                  | (k, x) :: d' =>
                      Forall_cons_2 _ (k, x) _
                        (conj (pyval_ind' k) (pyval_ind' x)) (go d')
                  end) d)
  | POther n => HOther n
  end.
End PyvalInd.

(** [isinstance] tests; [bool] is a subclass of [int]. *)
Definition is_bool (v : pyval) : bool := match v with PBool _ => true | _ => false end.
Definition is_int (v : pyval) : bool :=
  match v with PBool _ | PInt _ => true | _ => false end.
Definition is_float (v : pyval) : bool := match v with PFloat _ => true | _ => false end.
Definition is_num (v : pyval) : bool := is_int v || is_float v.
Definition is_str (v : pyval) : bool := match v with PStr _ => true | _ => false end.
Definition is_list (v : pyval) : bool := match v with PList _ => true | _ => false end.
Definition is_dict (v : pyval) : bool := match v with PDict _ => true | _ => false end.
Definition is_none (v : pyval) : bool := match v with PNone => true | _ => false end.

(** An [int] that is not a [bool], read as an integer. *)
Definition as_int (v : pyval) : option Z :=
  match v with PInt z => Some z | _ => None end.
Definition as_str (v : pyval) : option pystr :=
  match v with PStr s => Some s | _ => None end.

(** Numeric value of an [int] or [bool]. *)
Definition int_value (v : pyval) : Z :=
  match v with PInt z => z | PBool b => Z.b2z b | _ => 0 end.

(** [v < 0], [v <= 0] on numbers; on other values the tests are guarded. *)
Definition lt_zero (v : pyval) : bool :=
  match v with PFloat f => SFltb f fzero | _ => int_value v <? 0 end.
Definition le_zero (v : pyval) : bool :=
  match v with PFloat f => SFleb f fzero | _ => int_value v <=? 0 end.

(** [math.isfinite(v)] converts an integer to a float first. *)
Definition isfinite (v : pyval) : result exn bool :=
  match v with
  | PFloat f => Ok (isfinite_float f)
  | PInt _ | PBool _ => _ ← float_of_int (int_value v); Ok true
  | _ => Err (Raise TypeError "must be real number")
  end.

(** [float(v)] for a number. *)
Definition to_float (v : pyval) : result exn pyfloat :=
  match v with
  | PFloat f => Ok f
  | PInt _ | PBool _ => float_of_int (int_value v)
  | _ => Err (Raise TypeError "float() argument must be a number")
  end.

(** [bool(v)]. *)
Definition py_truthy (v : pyval) : bool :=
  match v with
  | PNone => false
  | PBool b => b
  | PInt z => negb (z =? 0)
  | PFloat f => negb (SFeqb f fzero)
  | PStr s => negb (bool_decide (s = []))
  | PList l => match l with [] => false | _ => true end
  | PDict d => match d with [] => false | _ => true end
  | POther _ => true
  end.

(** [isinstance(v, bool) or not isinstance(v, (int, float)) or
    not math.isfinite(v) or v < 0], evaluated left to right. *)
Definition bad_duration (strict : bool) (v : pyval) : result exn bool :=
  if is_bool v || negb (is_num v) then Ok true
  else f ← isfinite v;
       Ok (negb f || if strict then le_zero v else lt_zero v).

(** Looking a string key up in a dictionary: [d.get(key)]. Keys that are not
    strings never equal a string. *)
Fixpoint pd_get (d : list (pyval * pyval)) (k : pystr) : option pyval :=
  match d with
  | [] => None
  | (PStr k', v) :: d' => if decide (k = k') then Some v else pd_get d' k
  | _ :: d' => pd_get d' k
  end.

(** [d.get(key)] and [d.get(key, default)]. *)
Definition get (d : list (pyval * pyval)) (k : string) : pyval :=
  default PNone (pd_get d (py k)).
Definition get_or (d : list (pyval * pyval)) (k : string) (v : pyval) : pyval :=
  default v (pd_get d (py k)).

(** A dictionary display with literal string keys. *)
Definition mkdict (kvs : list (string * pyval)) : list (pyval * pyval) :=
  (λ kv, (PStr (py kv.1), kv.2)) <$> kvs.

(** [set(d) == {names}]: exactly these string keys, in any order. *)
Definition keys_are (d : list (pyval * pyval)) (names : list string) : bool :=
  forallb (λ n, match pd_get d (py n) with Some _ => true | None => false end) names
  && forallb (λ kv, match kv.1 with
                    | PStr k => bool_decide (k ∈ py <$> names)
                    | _ => false
                    end) d.

(** ** UTF-8 lemmas *)

Lemma in_range_n2b lo hi k :
  (k < 256)%N → in_range lo hi (n2b k) = (lo <=? k)%N && (k <=? hi)%N.
Proof. intros. unfold in_range. by rewrite b2n_n2b. Qed.

#[local] Ltac Zify.zify_post_hook ::= Z.to_euclidean_division_equations.

(** Decide the boolean comparisons of a decoding step, left to right. *)
#[local] Ltac step_tests :=
  repeat first
    [ rewrite b2n_n2b by lia
    | rewrite in_range_n2b by lia
    | match goal with
      | |- context [(?a <? ?b)%N] =>
          first [ rewrite (proj2 (N.ltb_lt a b)) by lia
                | rewrite (proj2 (N.ltb_ge a b)) by lia ]
      | |- context [(?a <=? ?b)%N] =>
          first [ rewrite (proj2 (N.leb_le a b)) by lia
                | rewrite (proj2 (N.leb_gt a b)) by lia ]
      end; cbn [andb orb negb] ].

Lemma is_scalar_spec c :
  is_scalar c = true ↔ (c < 0x110000 ∧ (c < 0xD800 ∨ 0xDFFF < c))%N.
Proof.
  unfold is_scalar, is_surrogate.
  destruct (N.ltb_spec c 0x110000), (N.leb_spec 0xD800 c), (N.leb_spec c 0xDFFF);
    simpl; split; try done; lia.
Qed.

Lemma second_range_ok k k1 :
  (0x80 <= k1 <= 0xBF →
   (k ≠ 0xE0 ∨ 0xA0 <= k1) → (k ≠ 0xED ∨ k1 <= 0x9F) →
   (k ≠ 0xF0 ∨ 0x90 <= k1) → (k ≠ 0xF4 ∨ k1 <= 0x8F) →
   (second_range k).1 <= k1 <= (second_range k).2)%N.
Proof.
  intros H ????. unfold second_range.
  repeat match goal with
  | |- context [(?a =? ?b)%N] => destruct (N.eqb_spec a b); [simpl; lia|]
  end. simpl. lia.
Qed.

Lemma utf8_step_char1 c rest :
  (c < 0x80)%N → utf8_step_of (n2b c) rest = UChar c rest.
Proof.
  intros Hc. unfold utf8_step_of. destruct (second_range _) as [lo hi].
  by step_tests.
Qed.

Lemma utf8_step_char2 c rest :
  (0x80 <= c < 0x800)%N →
  utf8_step_of (n2b (0xC0 + c / 64)) (n2b (0x80 + c mod 64) :: rest) = UChar c rest.
Proof.
  intros Hc. unfold utf8_step_of, is_cont. destruct (second_range _) as [lo hi].
  step_tests. f_equal. lia.
Qed.

Lemma utf8_step_char3 c rest :
  (0x800 <= c < 0x10000)%N → is_scalar c = true →
  utf8_step_of (n2b (0xE0 + c / 4096))
    (n2b (0x80 + (c / 64) mod 64) :: n2b (0x80 + c mod 64) :: rest) = UChar c rest.
Proof.
  intros Hc Hs%is_scalar_spec. unfold utf8_step_of, is_cont.
  pose proof (second_range_ok (0xE0 + c / 4096) (0x80 + (c / 64) mod 64)) as Hr.
  rewrite b2n_n2b by lia. destruct (second_range _) as [lo hi]. simpl in Hr.
  assert (lo <= 0x80 + (c / 64) mod 64 <= hi)%N by (apply Hr; lia).
  step_tests. f_equal. lia.
Qed.

Lemma utf8_step_char4 c rest :
  (0x10000 <= c < 0x110000)%N →
  utf8_step_of (n2b (0xF0 + c / 262144))
    (n2b (0x80 + (c / 4096) mod 64) :: n2b (0x80 + (c / 64) mod 64)
     :: n2b (0x80 + c mod 64) :: rest) = UChar c rest.
Proof.
  intros Hc. unfold utf8_step_of, is_cont.
  pose proof (second_range_ok (0xF0 + c / 262144) (0x80 + (c / 4096) mod 64)) as Hr.
  rewrite b2n_n2b by lia. destruct (second_range _) as [lo hi]. simpl in Hr.
  assert (lo <= 0x80 + (c / 4096) mod 64 <= hi)%N by (apply Hr; lia).
  step_tests. f_equal. lia.
Qed.

(** A character decodes to itself, and an incomplete one to nothing. *)
Lemma utf8_char_decode c :
  is_scalar c = true →
  ∃ b0 bs, utf8_char c = b0 :: bs ∧
    (∀ rest, utf8_step_of b0 (bs ++ rest) = UChar c rest) ∧
    (∀ k, (k < length bs)%nat → utf8_step_of b0 (take k bs) = UBad []).
Proof.
  intros Hs. pose proof Hs as Hc. apply is_scalar_spec in Hc. unfold utf8_char.
  destruct (N.ltb_spec c 0x80); [|destruct (N.ltb_spec c 0x800);
    [|destruct (N.ltb_spec c 0x10000)]]; eexists _, _; (split; [reflexivity|split]).
  - intros rest. by apply utf8_step_char1.
  - simpl. lia.
  - intros rest. by apply utf8_step_char2.
  - intros [|k] Hk; simpl in *; [|lia]. unfold utf8_step_of.
    destruct (second_range _). by step_tests.
  - intros rest. by apply utf8_step_char3.
  - intros [|[|k]] Hk; simpl in *; [..|lia].
    + unfold utf8_step_of. destruct (second_range _). by step_tests.
    + pose proof (utf8_step_char3 c [] ltac:(lia) Hs) as E. revert E.
      unfold utf8_step_of. destruct (second_range _) as [lo hi].
      step_tests. by destruct (_ && _).
  - intros rest. apply utf8_step_char4. lia.
  - intros [|[|[|k]]] Hk; simpl in *; [..|lia].
    + unfold utf8_step_of. destruct (second_range _). by step_tests.
    + pose proof (utf8_step_char4 c [] ltac:(lia)) as E. revert E.
      unfold utf8_step_of. destruct (second_range _) as [lo hi].
      step_tests. by destruct (_ && _).
    + pose proof (utf8_step_char4 c [] ltac:(lia)) as E. revert E.
      unfold utf8_step_of. destruct (second_range _) as [lo hi].
      step_tests. destruct (_ && _); [|done]. by destruct (is_cont _).
Qed.

Lemma utf8_encode_cons c s b :
  utf8_encode (c :: s) = Ok b ↔
  is_scalar c = true ∧ ∃ b', utf8_encode s = Ok b' ∧ b = utf8_char c ++ b'.
Proof.
  simpl. destruct (is_scalar c); [|naive_solver]. rewrite bind_Ok. naive_solver.
Qed.

Lemma utf8_encode_app s t bs bt :
  utf8_encode s = Ok bs → utf8_encode t = Ok bt → utf8_encode (s ++ t) = Ok (bs ++ bt).
Proof.
  revert bs. induction s as [|c s IH]; intros bs.
  { intros [= <-]. done. }
  rewrite utf8_encode_cons. intros (Hc & b' & Hb & ->) Ht.
  rewrite <- app_comm_cons. apply utf8_encode_cons. split; [done|].
  exists (b' ++ bt). by rewrite (IH b' Hb Ht), app_assoc.
Qed.

(** Decoding the UTF-8 encoding of a string gives the string back. *)
Lemma utf8_roundtrip s b : utf8_encode s = Ok b → utf8_decode b = Ok s.
Proof.
  unfold utf8_decode. intros Hb.
  assert (H : ∀ n, (length b ≤ n)%nat → utf8_decode_fuel n b = Ok s); [|by apply H].
  revert b Hb. induction s as [|c s IH]; intros b.
  { intros [= <-] [|n] _; done. }
  rewrite utf8_encode_cons. intros (Hc & b' & Hb & ->) n Hn.
  destruct (utf8_char_decode c Hc) as (b0 & bs & E & Hstep & _). rewrite E in *.
  destruct n as [|n]; simpl in *; [lia|]. rewrite length_app in Hn. rewrite Hstep.
  rewrite (IH b' Hb n) by lia. done.
Qed.

(** Cutting an encoding at [n] bytes and decoding with [errors="ignore"] keeps the
    longest prefix of whole characters that fits. *)
Lemma utf8_decode_ignore_take s b n :
  utf8_encode s = Ok b →
  ∃ s1 s2 b1, s = s1 ++ s2 ∧ utf8_decode_ignore (take n b) = s1 ∧
    utf8_encode s1 = Ok b1 ∧ (length b1 ≤ n)%nat ∧ b1 = take (length b1) b ∧
    match s2 with
    | [] => True
    | c :: _ => (n < length b1 + length (utf8_char c))%nat
    end.
Proof.
  unfold utf8_decode_ignore. generalize (Nat.le_refl (length (take n b))).
  generalize (length (take n b)) at 2 3 as fuel. revert b n.
  induction s as [|c s IH]; intros b n fuel Hfuel.
  { intros [= <-]. exists [], [], []. rewrite take_nil.
    split_and!; [done|by destruct fuel|done|simpl; lia|done|done]. }
  rewrite utf8_encode_cons. intros (Hc & b' & Hb & ->).
  destruct (utf8_char_decode c Hc) as (b0 & bs & E & Hstep & Hbad).
  destruct (decide (n < length (utf8_char c))%nat) as [Hn|Hn].
  - exists [], (c :: s), []. split_and!; try done; [|simpl; lia].
    rewrite E in *. destruct n as [|n]; [by destruct fuel|]. simpl in *.
    destruct fuel as [|fuel]; [lia|].
    simpl. rewrite take_app_le by lia. rewrite Hbad by lia. by destruct fuel.
  - assert (Ht : take n (utf8_char c ++ b') = utf8_char c ++ take (n - length (utf8_char c)) b').
    { rewrite take_app, take_ge by lia. done. }
    rewrite Ht, length_app in Hfuel.
    destruct fuel as [|fuel]; [rewrite E in Hfuel; simpl in Hfuel; lia|].
    destruct (IH b' (n - length (utf8_char c))%nat fuel) as (s1&s2&b1&->&Hd&He&Hl&Hp&Hs2);
      [rewrite E in *; simpl in *; lia|done|].
    exists (c :: s1), s2, (utf8_char c ++ b1). rewrite Ht.
    remember (n - length (utf8_char c))%nat as m eqn:Em. split_and!.
    + done.
    + rewrite E. simpl. rewrite Hstep. by rewrite Hd.
    + apply utf8_encode_cons. eauto.
    + rewrite length_app. lia.
    + rewrite length_app, take_app_add. by f_equal.
    + destruct s2; [done|]. rewrite length_app. lia.
Qed.

