(* ===== verification/PyInt.v ===== *)
(** * PyInt: [int(text)] and [str(number)]

    The integer literals the built-in [int] accepts: optional white space around
    them, a sign, decimal digits of any script with single underscores between
    them, and at most 4300 digits. The two Unicode tables the interpreter consults
    are the class [UnicodeData]. *)
From stdpp Require Import pretty.
From S2P Require Import Prelude Errors PyVal.

(** [str.isspace] and [unicodedata.decimal] of one character. *)
Class UnicodeData := {
  uni_space : N → bool;
  uni_decimal : N → option Z }.

(** The tables restricted to ASCII. *)
Definition ascii_data : UnicodeData := {|
  uni_space := λ c, ((9 <=? c) && (c <=? 13))%N || ((28 <=? c) && (c <=? 32))%N;
  uni_decimal := λ c, if ((48 <=? c) && (c <=? 57))%N then Some (Z.of_N c - 48) else None |}.

Definition c_underscore : N := 95.
Definition c_plus : N := 43.
Definition c_minus : N := 45.
Definition MAX_STR_DIGITS : Z := 4300.

Section Int.
Context {U : UnicodeData}.

Fixpoint lstrip (s : pystr) : pystr :=
  match s with
  | c :: s' => if uni_space c then lstrip s' else s
  | [] => []
  end.
Definition strip (s : pystr) : pystr := rev (lstrip (rev (lstrip s))).

(** The digits, most significant first; [prev] tells that the last character was a
    digit, so that an underscore may follow. *)
Fixpoint digits (prev : bool) (s : pystr) : option (list Z) :=
  match s with
  | [] => if prev then Some [] else None
  | c :: s' =>
      if (c =? c_underscore)%N then if prev then digits false s' else None
      else match uni_decimal c with
           | Some d => (d ::.) <$> digits true s'
           | None => None
           end
  end.

Definition of_digits (ds : list Z) : Z := foldl (λ n d, 10 * n + d) 0 ds.

Definition int_error : exn := Raise ValueError "invalid literal for int() with base 10".

Definition int_of_str (s : pystr) : result exn Z :=
  let '(sign, body) :=
    match strip s with
    | c :: t => if (c =? c_minus)%N then (-1, t) else if (c =? c_plus)%N then (1, t)
                else (1, c :: t)
    | [] => (1, [])
    end in
  match digits false body with
  | None => Err int_error
  | Some ds =>
      if MAX_STR_DIGITS <? Z.of_nat (length ds)
      then Err (Raise ValueError "Exceeds the limit for integer string conversion")
      else Ok (sign * of_digits ds)
  end.
End Int.

(** [str(n)] of an integer. *)
Definition str_of_int (z : Z) : pystr := py (pretty z).

(** ** The decimal digits [str] writes *)

Definition digit (d : Z) : N := (48 + Z.to_N d)%N.
Definition decimal (zs : list Z) : Prop := Forall (λ d, 0 ≤ d < 10) zs.

Lemma of_digits_snoc zs d : of_digits (zs ++ [d]) = 10 * of_digits zs + d.
Proof. unfold of_digits. by rewrite foldl_app. Qed.

(** [str] of a number writes its decimal digits, without leading zeros. *)
Lemma pretty_go x : ∃ zs, decimal zs ∧ of_digits zs = Z.of_N x ∧ (zs = [] ↔ x = 0%N) ∧
  (∀ zs', zs ≠ 0 :: zs') ∧
  (∀ k, (Z.of_N x < 10 ^ Z.of_nat k) → (length zs ≤ k)%nat) ∧
  ∀ s, py (pretty_N_go x s) = (digit <$> zs) ++ py s.
Proof.
  induction (N.lt_wf_0 x) as [x _ IH]. destruct (decide (x = 0)%N) as [->|Hx].
  { exists []. split_and!; try done; [by apply Forall_nil_2|intros k _; cbn; lia]. }
  destruct (IH (x / 10)%N) as (zs & Hz & Hv & Hn & Hh & Hl & Hs); [apply N.div_lt; lia|].
  pose proof (N.mod_lt x 10 ltac:(lia)) as Hm. pose proof (N.div_mod x 10 ltac:(lia)) as Hdm.
  remember (x mod 10)%N as r eqn:Er. remember (x / 10)%N as q eqn:Eq.
  exists (zs ++ [Z.of_N r]). split_and!.
  - apply Forall_app. split; [done|]. apply Forall_singleton. cbn beta. lia.
  - rewrite of_digits_snoc, Hv. lia.
  - split; [by intros [_ ?]%app_eq_nil|done].
  - destruct zs as [|z zs]; [|intros zs' [= -> _]; by apply (Hh zs)].
    intros zs' [= E _]. assert (q = 0%N) by by apply Hn. lia.
  - intros [|k] Hk; [cbn in Hk; lia|]. rewrite length_app. cbn. enough (length zs ≤ k)%nat by lia.
    apply Hl. rewrite Nat2Z.inj_succ, Z.pow_succ_r in Hk by lia. lia.
  - intros s. rewrite pretty_N_go_step, <- Er, <- Eq by lia. rewrite Hs, fmap_app, <- app_assoc. f_equal.
    unfold py. cbn. f_equal. unfold digit.
    assert (∀ d : N, (d < 10)%N → Ascii.N_of_ascii (pretty_N_char d) = (48 + d)%N) as Hc.
    { intros d Hd. assert (d = 0 ∨ d = 1 ∨ d = 2 ∨ d = 3 ∨ d = 4 ∨ d = 5 ∨ d = 6 ∨ d = 7 ∨ d = 8 ∨ d = 9)%N by lia.
      by destruct_or!; subst. }
    rewrite Hc by done. lia.
Qed.

Lemma str_of_int_decimal n :
  0 ≤ n → ∃ zs, str_of_int n = digit <$> zs ∧ decimal zs ∧ zs ≠ [] ∧ of_digits zs = n ∧
    (∀ d zs', zs = d :: zs' → d = 0 → zs' = []) ∧
    ∀ k, n < 10 ^ Z.of_nat k → 0 < Z.of_nat k → (length zs ≤ k)%nat.
Proof.
  intros Hn. destruct n as [|p|p]; [|destruct (pretty_go (N.pos p)) as (zs & Hz & Hv & Hne & Hh & Hl & Hs)|lia].
  - exists [0]. split_and!; try done; [by apply Forall_singleton|by intros ?? [= _ <-]|intros k _ ?; cbn; lia].
  - exists zs. split_and!; try done.
    + change (str_of_int (Z.pos p)) with (py (pretty_N_go (N.pos p) "")). rewrite Hs. apply app_nil_r.
    + intros ->. by destruct Hne as [Hne _]; specialize (Hne eq_refl).
    + intros d zs' -> ->. by destruct (Hh zs').
    + intros k Hk _. by apply Hl.
Qed.

(** A negative number has its minus sign first. *)
Lemma str_of_int_neg n : n < 0 → str_of_int n = c_minus :: str_of_int (- n).
Proof. by destruct n. Qed.

Example int_of_str_plain : int_of_str (U := ascii_data) (py " -1_234 ") = Ok (-1234).
Proof. reflexivity. Qed.
Example int_of_str_bad : int_of_str (U := ascii_data) (py "1__2") = Err int_error.
Proof. reflexivity. Qed.
