(* ===== verification/Config.v ===== *)
(** * Config: validated addressing and resource policy ([remote/config.py])

    The dataclasses of the file with their [__post_init__] validators run on
    dynamically typed arguments, and [RemoteLimits], the bounds every other
    component of the remote executor reads. [limits_ok] is what a constructed
    [RemoteLimits] guarantees to them. *)
From S2P Require Import Prelude Errors PyVal.

(** ** Validators *)

(** [_positive_int]. *)
Definition positive_int (value : pyval) : result exn unit :=
  if is_bool value || negb (is_int value) then Err (Raise TypeError "must be an integer")
  else raise_if (le_zero value) (Raise ValueError "must be greater than zero").

(** [_positive]: [math.isfinite] is only reached for a value above zero. *)
Definition positive_ (value : pyval) : result exn unit :=
  if is_bool value || negb (is_num value) then Err (Raise TypeError "must be numeric")
  else if le_zero value then
    Err (Raise ValueError "must be finite and greater than zero")
  else f ← isfinite value;
       raise_if (negb f) (Raise ValueError "must be finite and greater than zero").

(** ** TLS contexts *)

(** What the code reads of an [ssl.SSLContext]. *)
Record ssl_context := {
  verify_required : bool;      (* verify_mode == ssl.CERT_REQUIRED *)
  check_hostname : bool;
  minimum_version : Z }.

(** [ssl.TLSVersion.TLSv1_2]. *)
Definition TLSv1_2 : Z := 771.

Definition validate_client_tls (context : ssl_context) : result exn unit :=
  _ ← raise_if (negb (verify_required context) || negb (check_hostname context))
        (Raise ValueError "TCP client TLS must verify certificates and hostnames");
  raise_if (minimum_version context <? TLSv1_2)
    (Raise ValueError "TCP client TLS must require TLS 1.2 or newer").

Definition validate_server_tls (context : ssl_context) : result exn unit :=
  _ ← raise_if (negb (verify_required context))
        (Raise ValueError "TCP server TLS must require client certificates");
  raise_if (minimum_version context <? TLSv1_2)
    (Raise ValueError "TCP server TLS must require TLS 1.2 or newer").

(** ** Addresses and listeners *)

Definition insecure_loopback_hosts : list pystr := [py "127.0.0.1"].

Record UnixAddress := {
  ua_path : pystr;
  ua_connect_timeout : pyval }.

Definition UnixAddress_post_init (a : UnixAddress) : result exn unit :=
  positive_ (ua_connect_timeout a).

Record TcpAddress := {
  ta_host : pystr;
  ta_port : pyval;
  ta_ssl_context : option ssl_context;
  ta_server_hostname : option pystr;
  ta_insecure : bool;
  ta_connect_timeout : pyval }.

(** The port check both TCP dataclasses start with. *)
Definition check_port (port : pyval) : result exn unit :=
  if is_bool port || negb (is_int port) then
    Err (Raise TypeError "port must be an integer")
  else raise_if (negb ((0 <=? int_value port) && (int_value port <=? 65535)))
         (Raise ValueError "port must be between 0 and 65535").

(** The TLS-or-loopback policy both TCP dataclasses end with. *)
Definition check_tcp_security (validate : ssl_context → result exn unit)
    (ctx : option ssl_context) (insecure : bool) (host : pystr) (refusal : string)
    : result exn unit :=
  _ ← raise_if (match ctx with None => negb insecure | Some _ => false end)
        (Raise ValueError "TCP requires ssl_context or explicit insecure=True");
  _ ← match ctx with Some c => validate c | None => Ok tt end;
  raise_if (insecure && negb (bool_decide (host ∈ insecure_loopback_hosts)))
    (Raise ValueError refusal).

Definition TcpAddress_post_init (a : TcpAddress) : result exn unit :=
  _ ← check_port (ta_port a);
  _ ← positive_ (ta_connect_timeout a);
  check_tcp_security validate_client_tls (ta_ssl_context a) (ta_insecure a) (ta_host a)
    "insecure TCP addresses are restricted to loopback".

Record UnixListener := {
  ul_path : pystr;
  ul_mode : pyval;
  ul_owner_uid : pyval;
  ul_owner_gid : pyval;
  ul_backlog : pyval;
  ul_stale_policy : pystr;
  ul_optional : bool }.

(** The loop body over [owner_uid] and [owner_gid]. *)
Definition check_owner (value : pyval) : result exn unit :=
  raise_if (negb (is_none value)
            && (is_bool value || negb (is_int value) || lt_zero value))
    (Raise ValueError "must be a non-negative integer or None").

Definition UnixListener_post_init (a : UnixListener) : result exn unit :=
  _ ← raise_if (negb (bool_decide (ul_stale_policy a ∈ [py "error"; py "force_unlink"])))
        (Raise ValueError "stale_policy must be 'error' or 'force_unlink'");
  _ ← raise_if (is_bool (ul_mode a) || negb (is_int (ul_mode a)))
        (Raise TypeError "mode must be an integer");
  _ ← raise_if (negb ((0 <=? int_value (ul_mode a)) && (int_value (ul_mode a) <=? 0x1ff)))
        (Raise ValueError "mode must be a permission mode");
  _ ← positive_int (ul_backlog a);
  res_forM check_owner [ul_owner_uid a; ul_owner_gid a].

Record TcpListener := {
  tl_host : pystr;
  tl_port : pyval;
  tl_ssl_context : option ssl_context;
  tl_insecure : bool;
  tl_backlog : pyval;
  tl_keepalive : bool;
  tl_optional : bool }.

Definition TcpListener_post_init (a : TcpListener) : result exn unit :=
  _ ← check_port (tl_port a);
  _ ← positive_int (tl_backlog a);
  check_tcp_security validate_server_tls (tl_ssl_context a) (tl_insecure a) (tl_host a)
    "insecure TCP listeners are restricted to loopback".

(** ** RemoteLimits *)

(** The dataclass, over the type [I] of its integer fields and [D] of its three
    durations: arguments are [RawLimits], a constructed value is [RemoteLimits]. *)
Record LimitsOf (I D : Type) := mkLimits {
  max_control_bytes : I;
  max_frame_payload_bytes : I;
  max_message_bytes : I;
  max_invocation_bytes : I;
  max_result_bytes : I;
  max_metadata_bytes : I;
  max_chunks : I;
  max_incomplete_messages : I;
  max_unauthenticated_connections : I;
  max_connections_global : I;
  max_connections_per_principal : I;
  max_pending_per_session : I;
  max_pending_per_principal : I;
  max_pending_global : I;
  max_retained_outcomes_per_session : I;
  max_retained_outcomes_global : I;
  max_retained_outcome_bytes_per_session : I;
  max_retained_outcome_bytes_global : I;
  max_staged_tasks : I;
  outbound_queue_size : I;
  inbound_queue_size : I;
  callback_queue_size : I;
  completion_workers : I;
  control_timeout : D;
  handshake_timeout : D;
  partial_frame_timeout : D }.
Arguments mkLimits {I D}.
Arguments max_control_bytes {I D}. Arguments max_frame_payload_bytes {I D}.
Arguments max_message_bytes {I D}. Arguments max_invocation_bytes {I D}.
Arguments max_result_bytes {I D}. Arguments max_metadata_bytes {I D}.
Arguments max_chunks {I D}. Arguments max_incomplete_messages {I D}.
Arguments max_unauthenticated_connections {I D}.
Arguments max_connections_global {I D}. Arguments max_connections_per_principal {I D}.
Arguments max_pending_per_session {I D}. Arguments max_pending_per_principal {I D}.
Arguments max_pending_global {I D}.
Arguments max_retained_outcomes_per_session {I D}.
Arguments max_retained_outcomes_global {I D}.
Arguments max_retained_outcome_bytes_per_session {I D}.
Arguments max_retained_outcome_bytes_global {I D}.
Arguments max_staged_tasks {I D}. Arguments outbound_queue_size {I D}.
Arguments inbound_queue_size {I D}. Arguments callback_queue_size {I D}.
Arguments completion_workers {I D}. Arguments control_timeout {I D}.
Arguments handshake_timeout {I D}. Arguments partial_frame_timeout {I D}.

Notation RawLimits := (LimitsOf pyval pyval).
Notation RemoteLimits := (LimitsOf Z pyfloat).

(** [fields(self)] in declaration order: the integer fields, then the durations. *)
Definition int_fields {I D} (l : LimitsOf I D) : list I :=
  [max_control_bytes l; max_frame_payload_bytes l; max_message_bytes l;
   max_invocation_bytes l; max_result_bytes l; max_metadata_bytes l; max_chunks l;
   max_incomplete_messages l; max_unauthenticated_connections l;
   max_connections_global l; max_connections_per_principal l;
   max_pending_per_session l; max_pending_per_principal l; max_pending_global l;
   max_retained_outcomes_per_session l; max_retained_outcomes_global l;
   max_retained_outcome_bytes_per_session l; max_retained_outcome_bytes_global l;
   max_staged_tasks l; outbound_queue_size l; inbound_queue_size l;
   callback_queue_size l; completion_workers l].

Definition duration_fields {I D} (l : LimitsOf I D) : list D :=
  [control_timeout l; handshake_timeout l; partial_frame_timeout l].

Definition limits_map {I D I' D'} (f : I → I') (g : D → D') (l : LimitsOf I D)
    : LimitsOf I' D' :=
  mkLimits
    (f (max_control_bytes l)) (f (max_frame_payload_bytes l)) (f (max_message_bytes l))
    (f (max_invocation_bytes l)) (f (max_result_bytes l)) (f (max_metadata_bytes l))
    (f (max_chunks l)) (f (max_incomplete_messages l))
    (f (max_unauthenticated_connections l)) (f (max_connections_global l))
    (f (max_connections_per_principal l)) (f (max_pending_per_session l))
    (f (max_pending_per_principal l)) (f (max_pending_global l))
    (f (max_retained_outcomes_per_session l)) (f (max_retained_outcomes_global l))
    (f (max_retained_outcome_bytes_per_session l))
    (f (max_retained_outcome_bytes_global l))
    (f (max_staged_tasks l)) (f (outbound_queue_size l)) (f (inbound_queue_size l))
    (f (callback_queue_size l)) (f (completion_workers l))
    (g (control_timeout l)) (g (handshake_timeout l)) (g (partial_frame_timeout l)).

(** The defaults of the class statement. *)
Definition default_limits : RawLimits :=
  limits_map PInt (λ n, PFloat (binary_normalize 53 1024 n 0 false))
    (mkLimits
       (64 * 1024) (1024 * 1024) (64 * 1024 * 1024) (32 * 1024 * 1024)
       (32 * 1024 * 1024) (16 * 1024) 256 16 64 256 64 1024 2048 4096 64 1024
       (256 * 1024 * 1024) (1024 * 1024 * 1024) 128 1024 1024 1024 4
       5 5 10).

(** The comparisons at the end of [__post_init__], on the integer values. *)
Definition cross_checks (l : LimitsOf Z unit) : result exn unit :=
  _ ← raise_if (max_frame_payload_bytes l >? max_message_bytes l)
        (Raise ValueError "max_frame_payload_bytes cannot exceed max_message_bytes");
  _ ← raise_if (max_invocation_bytes l >? max_message_bytes l)
        (Raise ValueError "max_invocation_bytes cannot exceed max_message_bytes");
  _ ← raise_if (max_result_bytes l >? max_message_bytes l)
        (Raise ValueError "max_result_bytes cannot exceed max_message_bytes");
  _ ← raise_if (max_frame_payload_bytes l * max_chunks l <? max_message_bytes l)
        (Raise ValueError "max_chunks cannot represent max_message_bytes");
  _ ← raise_if (max_connections_per_principal l >? max_connections_global l)
        (Raise ValueError "max_connections_per_principal cannot exceed max_connections_global");
  _ ← raise_if (max_pending_per_principal l >? max_pending_global l)
        (Raise ValueError "max_pending_per_principal cannot exceed max_pending_global");
  _ ← raise_if (max_retained_outcomes_per_session l >? max_retained_outcomes_global l)
        (Raise ValueError "per-session retained outcome count cannot exceed the global count");
  raise_if (max_retained_outcome_bytes_per_session l
            >? max_retained_outcome_bytes_global l)
    (Raise ValueError "per-session retained outcome bytes cannot exceed the global bytes").

Definition RemoteLimits_post_init (l : RawLimits) : result exn unit :=
  _ ← res_forM positive_int (int_fields l);
  _ ← res_forM positive_ (duration_fields l);
  cross_checks (limits_map int_value (λ _, tt) l).

(** The limits as the other components read them. *)
Definition typed_limits (l : RawLimits) : RemoteLimits :=
  limits_map int_value
    (λ v, match to_float v with Ok f => f | Err _ => S754_nan end) l.

Definition RemoteLimits_init (l : RawLimits) : result exn RemoteLimits :=
  _ ← RemoteLimits_post_init l; Ok (typed_limits l).

(** ** What the validators guarantee *)

(** A number that [_positive] accepts. *)
Definition positive_duration (v : pyval) : Prop :=
  match v with
  | PInt z => 0 < z ∧ is_Ok (float_of_int z) = true
  | PFloat f => isfinite_float f = true ∧ SFleb f fzero = false
  | _ => False
  end.

Record limits_ok (l : RemoteLimits) : Prop := {
  lok_positive : Forall (λ z, 0 < z) (int_fields l);
  lok_durations : Forall (λ f, isfinite_float f = true) (duration_fields l);
  lok_frame : max_frame_payload_bytes l ≤ max_message_bytes l;
  lok_invocation : max_invocation_bytes l ≤ max_message_bytes l;
  lok_result : max_result_bytes l ≤ max_message_bytes l;
  lok_chunks : max_message_bytes l ≤ max_frame_payload_bytes l * max_chunks l;
  lok_connections : max_connections_per_principal l ≤ max_connections_global l;
  lok_pending : max_pending_per_principal l ≤ max_pending_global l;
  lok_outcomes : max_retained_outcomes_per_session l ≤ max_retained_outcomes_global l;
  lok_outcome_bytes : max_retained_outcome_bytes_per_session l
                      ≤ max_retained_outcome_bytes_global l }.

(** ** Lemmas *)

Lemma positive_int_Ok v : positive_int v = Ok tt ↔ ∃ z, v = PInt z ∧ 0 < z.
Proof.
  unfold positive_int. split.
  - destruct v; simpl; try done. rewrite raise_if_Ok, Z.leb_gt. eauto.
  - intros (z & -> & Hz). simpl. by rewrite raise_if_Ok, Z.leb_gt.
Qed.

Lemma positive_Ok v : positive_ v = Ok tt ↔ positive_duration v.
Proof.
  unfold positive_. destruct v as [|b|z|f| | | |]; simpl; try (split; [done|tauto]).
  - destruct (Z.leb_spec z 0); [split; [done|lia]|].
    destruct (float_of_int z); simpl; [|split; [done|by intros [_ ?]]].
    naive_solver.
  - destruct (SFleb f fzero); [split; [done|by intros [_ ?]]|].
    rewrite raise_if_Ok, negb_false_iff. naive_solver.
Qed.

Lemma cross_checks_Ok l :
  cross_checks l = Ok tt ↔
  max_frame_payload_bytes l ≤ max_message_bytes l ∧
  max_invocation_bytes l ≤ max_message_bytes l ∧
  max_result_bytes l ≤ max_message_bytes l ∧
  max_message_bytes l ≤ max_frame_payload_bytes l * max_chunks l ∧
  max_connections_per_principal l ≤ max_connections_global l ∧
  max_pending_per_principal l ≤ max_pending_global l ∧
  max_retained_outcomes_per_session l ≤ max_retained_outcomes_global l ∧
  max_retained_outcome_bytes_per_session l ≤ max_retained_outcome_bytes_global l.
Proof.
  unfold cross_checks. split.
  - intros H. res_inv. zbool. lia.
  - intros (?&?&?&?&?&?&?&?).
    repeat (rewrite raise_if_false; [simpl|first [apply Z.ltb_ge|rewrite Z.gtb_ltb; apply Z.ltb_ge]; done]).
    done.
Qed.

Lemma typed_durations_finite l :
  Forall positive_duration (duration_fields l) →
  Forall (λ f, isfinite_float f = true) (duration_fields (typed_limits l)).
Proof.
  assert (H : ∀ v, positive_duration v →
    isfinite_float (match to_float v with Ok f => f | Err _ => S754_nan end) = true).
  { intros [| |z|f| | | |]; simpl; try done; [|by intros [??]].
    intros [_ H]. unfold float_of_int in *.
    destruct (isfinite_float _) eqn:E; [done|by simpl in H]. }
  intros Hd. repeat (apply Forall_cons in Hd as [? Hd]).
  repeat constructor; by apply H.
Qed.

Lemma typed_ints_positive l :
  Forall (λ v, ∃ z, v = PInt z ∧ 0 < z) (int_fields l) →
  Forall (λ z, 0 < z) (int_fields (typed_limits l)).
Proof.
  change (int_fields (typed_limits l)) with (int_value <$> int_fields l).
  rewrite Forall_fmap. intros H. eapply Forall_impl; [exact H|].
  by intros v (z & -> & Hz).
Qed.

(** What a successful construction established. *)
Lemma RemoteLimits_init_Ok raw l :
  RemoteLimits_init raw = Ok l →
  limits_ok l ∧ l = typed_limits raw ∧
  Forall (λ v, ∃ z, v = PInt z ∧ 0 < z) (int_fields raw) ∧
  Forall positive_duration (duration_fields raw).
Proof.
  unfold RemoteLimits_init, RemoteLimits_post_init.
  intros H. apply bind_Ok in H as ([] & H & [= <-]).
  apply bind_Ok in H as ([] & Hi & H). apply bind_Ok in H as ([] & Hd & Hc).
  apply res_forM_Ok in Hi, Hd. apply cross_checks_Ok in Hc as (?&?&?&?&?&?&?&?).
  assert (Hi' : Forall (λ v, ∃ z, v = PInt z ∧ 0 < z) (int_fields raw))
    by (eapply Forall_impl; [exact Hi|intros v; apply positive_int_Ok]).
  assert (Hd' : Forall positive_duration (duration_fields raw))
    by (eapply Forall_impl; [exact Hd|intros v; apply positive_Ok]).
  split; [|done]. split; try done.
  - by apply typed_ints_positive.
  - by apply typed_durations_finite.
Qed.

(** ** Properties *)

(** C31: constructing [RemoteLimits] succeeds exactly when every integer field is a
    positive [int] (not a [bool]), every duration is finite and above zero, and
    the eight cross-field bounds hold; the value then satisfies [limits_ok]. *)
Theorem RemoteLimits_init_spec raw l :
  RemoteLimits_init raw = Ok l ↔
  l = typed_limits raw ∧ limits_ok l ∧
  Forall (λ v, ∃ z, v = PInt z ∧ 0 < z) (int_fields raw) ∧
  Forall positive_duration (duration_fields raw).
Proof.
  split.
  - intros (? & -> & ? & ?)%RemoteLimits_init_Ok. done.
  - unfold RemoteLimits_init, RemoteLimits_post_init. intros (-> & [] & Hi & Hd).
    assert (E1 : res_forM positive_int (int_fields raw) = Ok tt)
      by (apply res_forM_Ok; eapply Forall_impl; [exact Hi|intros v; apply positive_int_Ok]).
    assert (E2 : res_forM positive_ (duration_fields raw) = Ok tt)
      by (apply res_forM_Ok; eapply Forall_impl; [exact Hd|intros v; apply positive_Ok]).
    assert (E3 : cross_checks (limits_map int_value (λ _, tt) raw) = Ok tt)
      by (apply cross_checks_Ok; split_and!; assumption).
    apply bind_Ok. exists tt. split; [|done].
    apply bind_Ok. exists tt. split; [done|].
    apply bind_Ok. exists tt. by split.
Qed.

(** The defaults of the class construct. *)
Definition default_remote_limits : RemoteLimits := typed_limits default_limits.

Lemma default_limits_init : RemoteLimits_init default_limits = Ok default_remote_limits.
Proof. vm_compute. reflexivity. Qed.

Lemma default_limits_ok : limits_ok default_remote_limits.
Proof. exact (proj1 (RemoteLimits_init_Ok default_limits _ default_limits_init)). Qed.

(** An address or listener without a TLS context is only constructed for the
    IPv4 loopback host with an explicit [insecure=True]; with a context, the
    context requires peer certificates and TLS 1.2. *)
Theorem tcp_endpoints_secure :
  (∀ a, TcpAddress_post_init a = Ok tt →
    match ta_ssl_context a with
    | None => ta_insecure a = true ∧ ta_host a = py "127.0.0.1"
    | Some c => verify_required c = true ∧ check_hostname c = true ∧
                TLSv1_2 ≤ minimum_version c
    end ∧ ∃ z, (ta_port a = PInt z) ∧ 0 ≤ z ≤ 65535) ∧
  (∀ a, TcpListener_post_init a = Ok tt →
    match tl_ssl_context a with
    | None => tl_insecure a = true ∧ tl_host a = py "127.0.0.1"
    | Some c => verify_required c = true ∧ TLSv1_2 ≤ minimum_version c
    end ∧ ∃ z, (tl_port a = PInt z) ∧ 0 ≤ z ≤ 65535).
Proof.
  assert (Hport : ∀ p u, check_port p = Ok u → ∃ z, p = PInt z ∧ 0 ≤ z ≤ 65535).
  { intros p u. unfold check_port. destruct p; simpl; try done.
    intros H. res_inv. zbool. eauto. }
  assert (Hloop : ∀ (i : bool) h,
    i && negb (bool_decide (h ∈ insecure_loopback_hosts)) = false →
    negb i = false → i = true ∧ h = py "127.0.0.1").
  { intros [] h; [|done]. simpl. rewrite negb_false_iff, bool_decide_eq_true.
    intros ->%list_elem_of_singleton. done. }
  split; intros a H.
  - unfold TcpAddress_post_init, check_tcp_security in H.
    apply bind_Ok in H as (? & Hp%Hport & H). apply bind_Ok in H as (? & _ & H).
    split; [|done]. apply bind_Ok in H as (? & H1%raise_if_Ok & H).
    apply bind_Ok in H as (? & H2 & H%raise_if_Ok).
    destruct (ta_ssl_context a) as [c|]; [|by auto].
    unfold validate_client_tls in H2. res_inv. zbool. done.
  - unfold TcpListener_post_init, check_tcp_security in H.
    apply bind_Ok in H as (? & Hp%Hport & H). apply bind_Ok in H as (? & _ & H).
    split; [|done]. apply bind_Ok in H as (? & H1%raise_if_Ok & H).
    apply bind_Ok in H as (? & H2 & H%raise_if_Ok).
    destruct (tl_ssl_context a) as [c|]; [|by auto].
    unfold validate_server_tls in H2. res_inv. zbool. done.
Qed.

(** A loopback address without TLS, and the same one elsewhere. *)
Lemma tcp_endpoints_secure_witness :
  TcpAddress_post_init {| ta_host := py "127.0.0.1"; ta_port := PInt 80;
    ta_ssl_context := None; ta_server_hostname := None; ta_insecure := true;
    ta_connect_timeout := PInt 5 |} = Ok tt ∧
  ∃ z : Z, (PInt 80 = PInt z) ∧ 0 ≤ z ≤ 65535.
Proof.
  assert (H : TcpAddress_post_init {| ta_host := py "127.0.0.1"; ta_port := PInt 80;
    ta_ssl_context := None; ta_server_hostname := None; ta_insecure := true;
    ta_connect_timeout := PInt 5 |} = Ok tt) by (vm_compute; reflexivity).
  split; [exact H|]. exact (proj2 (proj1 tcp_endpoints_secure _ H)).
Defined.
