(* ===== verification/Worker.v ===== *)
(** * Worker: serialization under a limit and the worker entry point
    ([remote/serializer.py], [remote/_worker.py])

    [LimitedWriter] is the pickle target that refuses bytes above its limit;
    [execute_opaque] runs one invocation inside the worker process and turns
    every way it can end into a [WorkerOutcome]. The pickle implementation, the
    user's functions, [repr] and [traceback] are parameters. *)
From S2P Require Import Prelude Errors PyVal.

(** ** [_LimitedWriter] *)

Record LimitedWriter := mkWriter { limit : Z; buffer : bytes }.

Definition LimitedWriter_init (lim : Z) : result exn LimitedWriter :=
  if lim <? 0 then Err (Raise ValueError "serialization limit must be non-negative")
  else Ok (mkWriter lim []).

(** [write] returns the number of bytes taken. *)
Definition write (w : LimitedWriter) (chunk : bytes) : result exn (Z * LimitedWriter) :=
  let size := Z.of_nat (length chunk) in
  if Z.of_nat (length (buffer w)) + size >? limit w then
    Err (Raise SerializationLimitError "serialized payload exceeds the limit")
  else Ok (size, mkWriter (limit w) (buffer w ++ chunk)).

(** A pickler hands its output to [write] chunk by chunk, and may itself raise
    after some of them. *)
Fixpoint write_all (w : LimitedWriter) (chunks : list bytes) (stop : option exn)
    : result exn LimitedWriter :=
  match chunks with
  | [] => match stop with None => Ok w | Some e => Err e end
  | c :: cs => '(_, w') ← write w c; write_all w' cs stop
  end.

Section Pickle.
Context {Obj : Type}.
(** The chunks [pickle.Pickler(writer, protocol).dump(value)] writes, and the
    exception that ends it when [value] cannot be pickled. *)
Context (pickler_output : Obj → list bytes * option exn).

(** [PickleSerializer.dumps]. *)
Definition pickle_dumps (value : Obj) (lim : Z) : result exn bytes :=
  writer ← LimitedWriter_init lim;
  let '(chunks, stop) := pickler_output value in
  w ← write_all writer chunks stop;
  Ok (buffer w).
End Pickle.

(** ** [WorkerOutcome] *)

Inductive outcome_kind := K_result | K_task_error | K_result_encoding_failed
  | K_result_too_large.

#[export] Instance outcome_kind_eq_dec : EqDecision outcome_kind.
Proof. solve_decision. Defined.

Record Descriptor := {
  d_module : option pystr;
  d_type : option pystr;
  d_message : option pystr;
  d_traceback : option pystr;
  d_serialization_error : option pystr }.

Record WorkerOutcome := mkOutcome {
  kind : outcome_kind;
  payload : bytes;
  descriptor : option Descriptor }.

Inductive mode := Callable | Registered | OtherMode.

(** ** [execute_opaque] *)
Section Execute.
Context {Obj : Type}.
(** An exception raised by user code or pickle is an object: [Exc]. *)
Context {Exc : Type} (exc_obj : Exc → Obj).
(** [isinstance(error, SerializationLimitError)]. *)
Context (is_limit_error : Exc → bool).
(** The exceptions this function raises itself. *)
Context (raise_lookup raise_value : Exc).

(** The serializer given to the worker. *)
Context (loads : bytes → result Exc Obj) (dumps : Obj → Z → result Exc bytes).
(** Unpacking the decoded invocation, and calling the function. *)
Context (unpack3 : Obj → result Exc (Obj * Obj * Obj)).
Context (unpack2 : Obj → result Exc (Obj * Obj)).
Context (call : Obj → Obj → Obj → result Exc Obj).
(** [type(v).__module__], [type(v).__qualname__], [repr(v)] and the text of
    [traceback.format_exception]. *)
Context (type_module type_qualname : Obj → pystr) (repr : Obj → result Exc pystr).
Context (format_exception : Exc → pystr).

(** [_safe_repr]. *)
Definition safe_repr (value : Obj) : pystr :=
  match repr value with
  | Ok r => take 4096 r
  | Err _ => [60%N] ++ type_module value ++ [46%N] ++ type_qualname value ++ [62%N]
  end.

(** [_describe_exception]. *)
Definition describe_exception (error : Exc) : Descriptor :=
  {| d_module := Some (type_module (exc_obj error));
     d_type := Some (type_qualname (exc_obj error));
     d_message := Some (safe_repr (exc_obj error));
     d_traceback := Some (format_exception error);
     d_serialization_error := None |}.

Definition with_serialization_error (d : Descriptor) (s : pystr) : Descriptor :=
  {| d with d_serialization_error := Some s |}.

(** The first [try] block: materialize the call and run it. *)
Definition run_invocation (m : mode) (invocation : bytes) (operation : option pystr)
    (registry : option (list (pystr * Obj))) : result Exc Obj :=
  match m with
  | Callable =>
      o ← loads invocation;
      '(fn, args, kwargs) ← unpack3 o;
      call fn args kwargs
  | Registered =>
      match registry, operation with
      | Some r, Some op =>
          match dict_get r op with
          | Some fn =>
              o ← loads invocation;
              '(args, kwargs) ← unpack2 o;
              call fn args kwargs
          | None => Err raise_lookup
          end
      | _, _ => Err raise_lookup
      end
  | OtherMode => Err raise_value
  end.

Definition execute_opaque (m : mode) (invocation : bytes) (operation : option pystr)
    (registry : option (list (pystr * Obj))) (max_result_bytes : Z) : WorkerOutcome :=
  match run_invocation m invocation operation registry with
  | Err error =>
      let d := describe_exception error in
      match dumps (exc_obj error) max_result_bytes with
      | Ok p => mkOutcome K_task_error p (Some d)
      | Err serialization_error =>
          mkOutcome K_task_error []
            (Some (with_serialization_error d (safe_repr (exc_obj serialization_error))))
      end
  | Ok result =>
      match dumps result max_result_bytes with
      | Ok p => mkOutcome K_result p None
      | Err error =>
          if is_limit_error error then
            mkOutcome K_result_too_large []
              (Some {| d_module := None; d_type := None;
                       d_message := Some (safe_repr (exc_obj error));
                       d_traceback := None; d_serialization_error := None |})
          else mkOutcome K_result_encoding_failed [] (Some (describe_exception error))
      end
  end.

End Execute.

(** ** The writer's bound *)

Lemma write_all_spec w chunks stop w' :
  Z.of_nat (length (buffer w)) ≤ limit w →
  write_all w chunks stop = Ok w' →
  stop = None ∧ limit w' = limit w ∧ buffer w' = buffer w ++ concat chunks ∧
  Z.of_nat (length (buffer w')) ≤ limit w'.
Proof.
  revert w. induction chunks as [|c cs IH]; intros w Hw; simpl.
  - destruct stop; [done|]. intros [= <-]. by rewrite app_nil_r.
  - rewrite bind_Ok. intros ([n w1] & Hc & Hcs). unfold write in Hc.
    destruct (_ >? _) eqn:Hgt; [done|]. injection Hc as <- <-. zbool.
    destruct (IH (mkWriter (limit w) (buffer w ++ c))) as (-> & -> & -> & Hb);
      [simpl; rewrite length_app; lia|done|].
    simpl in *. rewrite <- !app_assoc in *. done.
Qed.

Lemma write_all_too_big w chunks stop :
  limit w < Z.of_nat (length (buffer w ++ concat chunks)) →
  Z.of_nat (length (buffer w)) ≤ limit w →
  write_all w chunks stop
  = Err (Raise SerializationLimitError "serialized payload exceeds the limit").
Proof.
  revert w. induction chunks as [|c cs IH]; intros w Hlt Hw; simpl in *.
  - rewrite app_nil_r in Hlt. lia.
  - unfold write. destruct (_ >? _) eqn:Hgt; [done|]. zbool. simpl.
    apply IH; simpl; [by rewrite <- app_assoc|rewrite length_app; lia].
Qed.

Lemma write_all_fits w chunks :
  Z.of_nat (length (buffer w ++ concat chunks)) ≤ limit w →
  write_all w chunks None = Ok (mkWriter (limit w) (buffer w ++ concat chunks)).
Proof.
  revert w. induction chunks as [|c cs IH]; intros w Hle; simpl in *.
  - rewrite app_nil_r. by destruct w.
  - unfold write. destruct (_ >? _) eqn:Hgt.
    + zbool. rewrite !length_app in Hle. lia.
    + simpl. rewrite IH; simpl; by rewrite <- app_assoc.
Qed.

(** [PickleSerializer.dumps] returns the whole pickle when it fits the limit and
    raises [SerializationLimitError] exactly when it does not (whatever the pickler
    would have raised later); no result is ever longer than the limit. *)
Theorem pickle_dumps_limit {Obj} (out : Obj → list bytes * option exn) v lim :
  0 ≤ lim →
  let total := concat (out v).1 in
  (Z.of_nat (length total) ≤ lim → (out v).2 = None →
     pickle_dumps out v lim = Ok total) ∧
  (lim < Z.of_nat (length total) →
     pickle_dumps out v lim
     = Err (Raise SerializationLimitError "serialized payload exceeds the limit")) ∧
  ∀ b, pickle_dumps out v lim = Ok b → b = total ∧ Z.of_nat (length b) ≤ lim.
Proof.
  intros Hlim total. unfold pickle_dumps, LimitedWriter_init.
  destruct (Z.ltb_spec lim 0); [lia|]. subst total. simpl.
  destruct (out v) as [chunks stop]; simpl. split_and!.
  - intros Hfit ->. by rewrite write_all_fits.
  - intros Hbig. by rewrite write_all_too_big.
  - intros b. rewrite bind_Ok. intros (w & Hw & [= <-]).
    apply write_all_spec in Hw as (_ & Hl & Hb & Hle); [|done].
    split; [done|]. by rewrite Hl in Hle.
Qed.

Lemma pickle_dumps_limit_witness :
  pickle_dumps (λ n : nat, ([repeat x00 n; [x2e]], None)) 3%nat 4
  = Ok [x00; x00; x00; x2e].
Proof.
  apply (pickle_dumps_limit (λ n : nat, ([repeat x00 n; [x2e]], None)) 3%nat 4).
  - lia.
  - simpl. lia.
  - reflexivity.
Defined.
