(* ===== verification/Protocol.v ===== *)
(** * Protocol: control headers and frames ([remote/_protocol.py], first part)

    Message kinds, the validation of control data, the chunking arithmetic, the
    16-byte frame prefix and the frames [send_message] writes. [json.dumps] and
    [json.loads] are the class [JsonText]; SHA-256 and UUIDs are arguments. *)
From S2P Require Import Prelude Errors PyVal Config.

Definition protocol_error (msg : string) : exn := Raise RemoteProtocolError msg.

(** A JSON object or any other [dict] with keys of any type. *)
Notation pydict := (list (pyval * pyval)).

(** ** Constants *)

Definition MAGIC : bytes := [x44; x50; x52; x31].
Definition MAJOR : Z := 1.
Definition MINOR : Z := 0.
Definition FLAG_CHUNKED : Z := 1.
Definition MAX_JSON_DEPTH : Z := 12.
Definition PREFIX_SIZE : Z := 16.

Inductive MessageType :=
  | HELLO | WELCOME | HANDSHAKE_REJECTED | PING | PONG | GOAWAY | PROTOCOL_ERROR
  | SUBMIT | ACCEPTED_ | REJECTED | RUNNING_
  | RESULT | TASK_ERROR | TIMED_OUT | CANCELLED_ | WORKER_LOST_
  | RESULT_ENCODING_FAILED_ | RESULT_TOO_LARGE_ | RESULT_ACK | QUEUE_TIMED_OUT_
  | CANCEL_REQUEST | CANCEL_RESPONSE | STATUS_REQUEST | STATUS_RESPONSE
  | STATS_REQUEST | STATS_RESPONSE | CANCEL_GROUP | CANCEL_GROUP_RESPONSE
  | CLOSE_SESSION | CLOSE_SESSION_RESPONSE.

#[export] Instance MessageType_eq_dec : EqDecision MessageType.
Proof. solve_decision. Defined.

(** [int(kind)]. *)
Definition kind_code (k : MessageType) : Z :=
  match k with
  | HELLO => 1 | WELCOME => 2 | HANDSHAKE_REJECTED => 3 | PING => 4 | PONG => 5
  | GOAWAY => 6 | PROTOCOL_ERROR => 7 | SUBMIT => 10 | ACCEPTED_ => 11
  | REJECTED => 12 | RUNNING_ => 13 | RESULT => 20 | TASK_ERROR => 21
  | TIMED_OUT => 22 | CANCELLED_ => 23 | WORKER_LOST_ => 24
  | RESULT_ENCODING_FAILED_ => 25 | RESULT_TOO_LARGE_ => 26 | RESULT_ACK => 27
  | QUEUE_TIMED_OUT_ => 28 | CANCEL_REQUEST => 30 | CANCEL_RESPONSE => 31
  | STATUS_REQUEST => 32 | STATUS_RESPONSE => 33 | STATS_REQUEST => 34
  | STATS_RESPONSE => 35 | CANCEL_GROUP => 36 | CANCEL_GROUP_RESPONSE => 37
  | CLOSE_SESSION => 38 | CLOSE_SESSION_RESPONSE => 39
  end.

Definition all_kinds : list MessageType :=
  [HELLO; WELCOME; HANDSHAKE_REJECTED; PING; PONG; GOAWAY; PROTOCOL_ERROR; SUBMIT;
   ACCEPTED_; REJECTED; RUNNING_; RESULT; TASK_ERROR; TIMED_OUT; CANCELLED_;
   WORKER_LOST_; RESULT_ENCODING_FAILED_; RESULT_TOO_LARGE_; RESULT_ACK;
   QUEUE_TIMED_OUT_; CANCEL_REQUEST; CANCEL_RESPONSE; STATUS_REQUEST;
   STATUS_RESPONSE; STATS_REQUEST; STATS_RESPONSE; CANCEL_GROUP;
   CANCEL_GROUP_RESPONSE; CLOSE_SESSION; CLOSE_SESSION_RESPONSE].

(** [MessageType(code)]. *)
Definition kind_of_code (code : Z) : result exn MessageType :=
  match list_find (λ k, kind_code k = code) all_kinds with
  | Some (_, k) => Ok k
  | None => Err (protocol_error "unknown message type")
  end.

Record Message := mkMessage {
  m_kind : MessageType;
  m_control : pydict;
  m_payload : bytes }.

(** ** Wire limits *)

Definition WIRE_LIMIT_FIELDS : list string :=
  ["max_control_bytes"; "max_frame_payload_bytes"; "max_message_bytes";
   "max_metadata_bytes"; "max_chunks"]%string.

Definition wire_limits (l : RemoteLimits) : pydict :=
  mkdict [("max_control_bytes", PInt (max_control_bytes l));
          ("max_frame_payload_bytes", PInt (max_frame_payload_bytes l));
          ("max_message_bytes", PInt (max_message_bytes l));
          ("max_metadata_bytes", PInt (max_metadata_bytes l));
          ("max_chunks", PInt (max_chunks l))]%string.

Definition validate_wire_limits (value : pyval) : result exn pydict :=
  match value with
  | PDict d =>
      _ ← raise_if (negb (keys_are d WIRE_LIMIT_FIELDS))
            (protocol_error "wire limits have invalid fields");
      _ ← res_forM (λ kv, raise_if (is_bool kv.2 || negb (is_int kv.2) || le_zero kv.2)
                            (protocol_error "wire limit must be a positive integer")) d;
      Ok d
  | _ => Err (protocol_error "wire limits have invalid fields")
  end.

(** [d == _wire_limits(limits)], for validated fields. *)
Definition same_wire_limits (limits : RemoteLimits) (d : pydict) : bool :=
  forallb (λ kv, match kv.1, kv.2 with
                 | PStr k, PInt z =>
                     match pd_get d k with Some (PInt z') => z =? z' | _ => false end
                 | _, _ => false
                 end) (wire_limits limits).

(** ** Control data *)

(** The state of the lexical scan of [_validate_json_nesting]. *)
Record scan := mkScan { sc_depth : Z; sc_in_string : bool; sc_escaped : bool }.

Definition c_quote : N := 34.
Definition c_backslash : N := 92.
Definition is_open (c : N) : bool := (c =? 91)%N || (c =? 123)%N.
Definition is_close (c : N) : bool := (c =? 93)%N || (c =? 125)%N.

Definition scan_char (st : scan) (character : N) : result exn scan :=
  let '(mkScan depth in_string escaped) := st in
  if in_string then
    if escaped then Ok (mkScan depth true false)
    else if (character =? c_backslash)%N then Ok (mkScan depth true true)
    else if (character =? c_quote)%N then Ok (mkScan depth false escaped)
    else Ok st
  else if (character =? c_quote)%N then Ok (mkScan depth true escaped)
  else if is_open character then
    if depth + 1 >? MAX_JSON_DEPTH + 1 then
      Err (protocol_error "control JSON is too deeply nested")
    else Ok (mkScan (depth + 1) in_string escaped)
  else if is_close character then Ok (mkScan (depth - 1) in_string escaped)
  else Ok st.

Fixpoint scan_text (st : scan) (text : pystr) : result exn scan :=
  match text with
  | [] => Ok st
  | c :: t => st' ← scan_char st c; scan_text st' t
  end.

Definition validate_json_nesting (text : pystr) : result exn unit :=
  _ ← scan_text (mkScan 0 false false) text; Ok tt.

(** [_validate_json]. The length of a string is that of its UTF-8 encoding, and
    encoding a surrogate raises [UnicodeEncodeError]. *)
Fixpoint validate_json (limits : RemoteLimits) (depth : Z) (value : pyval)
    : result exn unit :=
  if depth >? MAX_JSON_DEPTH then
    Err (protocol_error "control JSON is too deeply nested")
  else
    match value with
    | PStr s =>
        b ← utf8_encode s;
        raise_if (Z.of_nat (length b) >? max_metadata_bytes limits)
          (protocol_error "control string exceeds metadata limit")
    | PBool _ | PNone => Ok tt
    | PInt z =>
        raise_if (negb ((- 2 ^ 63 <=? z) && (z <? 2 ^ 63)))
          (protocol_error "control integer exceeds signed 64-bit range")
    | PFloat f =>
        raise_if (negb (isfinite_float f)) (protocol_error "control number must be finite")
    | PList l =>
        if Z.of_nat (length l) >? 1024 then
          Err (protocol_error "control list is too large")
        else
          (fix go l :=
             match l with
             | [] => Ok tt
             | x :: l' => _ ← validate_json limits (depth + 1) x; go l'
             end) l
    | PDict d =>
        if Z.of_nat (length d) >? 128 then
          Err (protocol_error "control object has too many keys")
        else
          (fix go d :=
             match d with
             | [] => Ok tt
             | (k, x) :: d' =>
                 if negb (is_str k) then
                   Err (protocol_error "control object keys must be strings")
                 else
                   _ ← validate_json limits (depth + 1) k;
                   _ ← validate_json limits (depth + 1) x;
                   go d'
             end) d
    | POther _ => Err (protocol_error "unsupported control value")
    end.

(** What [json] offers: [json_text] is [json.dumps(..., ensure_ascii=True,
    allow_nan=False, separators=(",", ":"), sort_keys=True)] of a validated value,
    an ASCII string, and [json_value] is [json.loads] with the hooks of
    [_json_loads], which raises [ValueError] on malformed text, on a duplicate key
    and on a non-finite constant. *)
Class JsonText := {
  json_text : pyval → pystr;
  json_value : pystr → result exn pyval }.

Section Protocol.
Context {J : JsonText}.

(** [.encode("ascii")] of an ASCII text. *)
Definition ascii_encode (s : pystr) : bytes := n2b <$> s.

(** [_json_dumps]. *)
Definition json_dumps (value : pydict) (limits : RemoteLimits) : result exn bytes :=
  _ ← validate_json limits 0 (PDict value);
  let payload := ascii_encode (json_text (PDict value)) in
  _ ← raise_if (Z.of_nat (length payload) >? max_control_bytes limits)
        (protocol_error "control header exceeds configured limit");
  Ok payload.

(** [_json_loads]: decoding and parsing errors become protocol errors; the
    validation of the parsed value runs outside the [try]. *)
Definition json_loads (data : bytes) (limits : RemoteLimits) : result exn pydict :=
  let parsed :=
    text ← utf8_decode data;
    _ ← validate_json_nesting text;
    json_value text in
  value ← match parsed with
          | Ok v => Ok v
          | Err e =>
              if isinstance e ValueError || isinstance e RecursionError
              then Err (protocol_error "invalid control JSON")
              else Err e
          end;
  _ ← validate_json limits 0 value;
  match value with
  | PDict d => Ok d
  | _ => Err (protocol_error "control header must be a JSON object")
  end.

(** [_message_chunk_count]; [//] is the floor division. *)
Definition message_chunk_count (payload_size : Z) (limits : RemoteLimits)
    : result exn Z :=
  _ ← raise_if ((payload_size <? 0) || (payload_size >? max_message_bytes limits))
        (protocol_error "message payload exceeds configured limit");
  let count := Z.max 1 ((payload_size + max_frame_payload_bytes limits - 1)
                        / max_frame_payload_bytes limits) in
  _ ← raise_if (count >? max_chunks limits)
        (protocol_error "message requires too many chunks");
  Ok count.

(** The dictionary [_encode_frame_control] builds. *)
Definition frame_header (message_id : pystr) (index count total : Z) (digest : pystr)
    (control : pyval) : pydict :=
  mkdict [("message_id", PStr message_id); ("index", PInt index); ("count", PInt count);
          ("total", PInt total); ("digest", PStr digest); ("control", control)]%string.

Definition encode_frame_control (message_id : pystr) (index count total : Z)
    (digest : pystr) (control : pyval) (limits : RemoteLimits) : result exn bytes :=
  json_dumps (frame_header message_id index count total digest control) limits.

(** [validate_control]: a client-side check, made before [send_message]. *)
Definition validate_control (control : pydict) (limits : RemoteLimits)
    : result exn unit :=
  _ ← json_dumps control limits; Ok tt.

Definition zeros (n : nat) : pystr := repeat 48%N n.

Definition validate_message_control (control : pydict) (payload_size : Z)
    (limits : RemoteLimits) : result exn unit :=
  count ← message_chunk_count payload_size limits;
  _ ← encode_frame_control (zeros 32) 0 count payload_size (zeros 64) (PDict control)
        limits;
  Ok tt.

(** ** Frames *)

(** Big-endian unsigned integers of [struct.pack("!I")] and ["B"]. *)
Definition pack_u8 (z : Z) : bytes := [n2b (Z.to_N z)].
Definition pack_u32 (z : Z) : bytes :=
  [n2b (Z.to_N (z / 2 ^ 24)); n2b (Z.to_N (z / 2 ^ 16)); n2b (Z.to_N (z / 2 ^ 8));
   n2b (Z.to_N z)].

(** [struct.pack] raises [struct.error] outside the range of a field. *)
Definition pack_prefix (major minor kind flags control_len payload_len : Z)
    : result exn bytes :=
  let u8 z := (0 <=? z) && (z <? 2 ^ 8) in
  let u32 z := (0 <=? z) && (z <? 2 ^ 32) in
  if u8 major && u8 minor && u8 kind && u8 flags && u32 control_len && u32 payload_len
  then Ok (MAGIC ++ pack_u8 major ++ pack_u8 minor ++ pack_u8 kind ++ pack_u8 flags
           ++ pack_u32 control_len ++ pack_u32 payload_len)
  else Err (Raise Exception_ "struct.error").

Definition b2z (b : Byte.byte) : Z := Z.of_N (b2n b).
Definition unpack_u32 (b3 b2 b1 b0 : Byte.byte) : Z :=
  b2z b3 * 2 ^ 24 + b2z b2 * 2 ^ 16 + b2z b1 * 2 ^ 8 + b2z b0.

Record prefix := mkPrefix {
  pf_magic : bytes; pf_major : Z; pf_minor : Z; pf_kind : Z; pf_flags : Z;
  pf_control_len : Z; pf_payload_len : Z }.

(** [_PREFIX.unpack] of exactly [PREFIX_SIZE] bytes. *)
Definition unpack_prefix (data : bytes) : result exn prefix :=
  match data with
  | [m0; m1; m2; m3; ma; mi; k; f; c3; c2; c1; c0; p3; p2; p1; p0] =>
      Ok (mkPrefix [m0; m1; m2; m3] (b2z ma) (b2z mi) (b2z k) (b2z f)
            (unpack_u32 c3 c2 c1 c0) (unpack_u32 p3 p2 p1 p0))
  | _ => Err (Raise Exception_ "struct.error")
  end.

Record frame := mkFrame {
  fr_prefix : bytes; fr_control : bytes; fr_chunk : bytes }.

(** [payload[start : start + frame_size]]. *)
Definition chunk_of (payload : bytes) (frame_size index : Z) : bytes :=
  take (Z.to_nat frame_size) (drop (Z.to_nat (index * frame_size)) payload).

(** One iteration of the loop of [send_message]. *)
Definition message_frame (m : Message) (limits : RemoteLimits) (message_id digest : pystr)
    (count index : Z) : result exn frame :=
  let payload := m_payload m in
  let chunk := chunk_of payload (max_frame_payload_bytes limits) index in
  control ← encode_frame_control message_id index count (Z.of_nat (length payload))
              digest (if index =? 0 then PDict (m_control m) else PNone) limits;
  prefix ← pack_prefix MAJOR MINOR (kind_code (m_kind m))
             (if count >? 1 then FLAG_CHUNKED else 0)
             (Z.of_nat (length control)) (Z.of_nat (length chunk));
  Ok (mkFrame prefix control chunk).

(** The frames already written when the loop stops, and the exception that stopped
    it: an encoding error at a later frame leaves the earlier ones on the wire. *)
Fixpoint message_frames (m : Message) (limits : RemoteLimits)
    (message_id digest : pystr) (count : Z) (indices : list Z)
    : list frame * result exn unit :=
  match indices with
  | [] => ([], Ok tt)
  | i :: rest =>
      match message_frame m limits message_id digest count i with
      | Err e => ([], Err e)
      | Ok f => let '(fs, r) := message_frames m limits message_id digest count rest in
                (f :: fs, r)
      end
  end.

(** [send_message]: the bytes written, given the fresh [uuid4().hex] and the
    SHA-256 digest of the payload. *)
Definition send_message (sha256_hex : bytes → pystr) (message_id : pystr) (m : Message)
    (limits : RemoteLimits) : list frame * result exn unit :=
  match message_chunk_count (Z.of_nat (length (m_payload m))) limits with
  | Err e => ([], Err e)
  | Ok count =>
      message_frames m limits message_id (sha256_hex (m_payload m)) count (seqZ 0 count)
  end.

Definition frame_bytes (f : frame) : bytes :=
  fr_prefix f ++ fr_control f ++ fr_chunk f.
End Protocol.

(** ** Lemmas *)

Lemma b2z_n2b z : 0 ≤ z → b2z (n2b (Z.to_N z)) = z mod 256.
Proof.
  intros Hz. unfold b2z, n2b.
  assert (H : (Z.to_N z mod 256 < 256)%N) by (apply N.mod_lt; lia).
  pose proof (b2n_n2b (Z.to_N z mod 256) H) as Hb. unfold n2b in Hb.
  rewrite (N.mod_small (Z.to_N z mod 256) 256) in Hb by done. rewrite Hb.
  by rewrite N2Z.inj_mod, Z2N.id.
Qed.

Lemma unpack_pack_u32 z :
  0 ≤ z < 2 ^ 32 →
  unpack_u32 (n2b (Z.to_N (z / 2 ^ 24))) (n2b (Z.to_N (z / 2 ^ 16)))
    (n2b (Z.to_N (z / 2 ^ 8))) (n2b (Z.to_N z)) = z.
Proof.
  intros Hz. unfold unpack_u32. rewrite !b2z_n2b by (try apply Z.div_pos; lia).
  rewrite (Z.mod_small (z / 2 ^ 24)) by
    (split; [apply Z.div_pos; lia|apply Z.div_lt_upper_bound; lia]).
  replace (z / 2 ^ 24) with (z / 2 ^ 16 / 256) by (rewrite Z.div_div by lia; done).
  replace (z / 2 ^ 16) with (z / 2 ^ 8 / 256) by (rewrite Z.div_div by lia; done).
  change (2 ^ 8) with 256.
  pose proof (Z.div_mod z 256). pose proof (Z.div_mod (z / 256) 256).
  pose proof (Z.div_mod (z / 256 / 256) 256). lia.
Qed.

(** [struct.unpack] inverts [struct.pack]. *)
Lemma unpack_pack major minor kind flags cl pl b :
  pack_prefix major minor kind flags cl pl = Ok b →
  unpack_prefix b = Ok (mkPrefix MAGIC major minor kind flags cl pl) ∧
  Z.of_nat (length b) = PREFIX_SIZE.
Proof.
  unfold pack_prefix. destruct (_ && _) eqn:H; [|done]. intros [= <-]. split; [|done].
  repeat match goal with H : (_ && _) = true |- _ => apply andb_true_iff in H as [? ?] end.
  zbool. unfold MAGIC, pack_u8, pack_u32. cbn [app unpack_prefix].
  rewrite !unpack_pack_u32, !b2z_n2b, !Z.mod_small by lia. done.
Qed.

Lemma pack_prefix_total major minor kind flags cl pl :
  0 ≤ major < 2 ^ 8 → 0 ≤ minor < 2 ^ 8 → 0 ≤ kind < 2 ^ 8 → 0 ≤ flags < 2 ^ 8 →
  0 ≤ cl < 2 ^ 32 → 0 ≤ pl < 2 ^ 32 →
  is_Ok (pack_prefix major minor kind flags cl pl) = true.
Proof.
  intros. unfold pack_prefix.
  rewrite !(proj2 (andb_true_iff _ _)) by
    (repeat (apply andb_true_iff; split); rewrite ?Z.leb_le, ?Z.ltb_lt; lia).
  done.
Qed.

(** ** A declarative reading of [_validate_json] *)

(** [sub_at v d w]: [w] occurs [d] containers deep in [v]; keys count. *)
Inductive sub_at : pyval → Z → pyval → Prop :=
  | sub_here v : sub_at v 0 v
  | sub_item l x d w : x ∈ l → sub_at x d w → sub_at (PList l) (d + 1) w
  | sub_key dd k x d w : (k, x) ∈ dd → sub_at k d w → sub_at (PDict dd) (d + 1) w
  | sub_val dd k x d w : (k, x) ∈ dd → sub_at x d w → sub_at (PDict dd) (d + 1) w.

(** The bounds on one node. *)
Definition node_ok (limits : RemoteLimits) (v : pyval) : Prop :=
  match v with
  | PStr s => ∃ b, utf8_encode s = Ok b ∧ Z.of_nat (length b) ≤ max_metadata_bytes limits
  | PBool _ | PNone => True
  | PInt z => - 2 ^ 63 ≤ z < 2 ^ 63
  | PFloat f => isfinite_float f = true
  | PList l => Z.of_nat (length l) ≤ 1024
  | PDict d => Z.of_nat (length d) ≤ 128 ∧ Forall (λ kv, is_str kv.1 = true) d
  | POther _ => False
  end.

Definition json_ok (limits : RemoteLimits) (depth : Z) (v : pyval) : Prop :=
  ∀ d w, sub_at v d w → depth + d ≤ MAX_JSON_DEPTH ∧ node_ok limits w.

Lemma validate_json_list limits depth l :
  validate_json limits depth (PList l) = Ok tt ↔
  depth ≤ MAX_JSON_DEPTH ∧ node_ok limits (PList l) ∧
  Forall (λ x, validate_json limits (depth + 1) x = Ok tt) l.
Proof.
  simpl. rewrite !Z.gtb_ltb. destruct (Z.ltb_spec MAX_JSON_DEPTH depth); [naive_solver lia|].
  destruct (Z.ltb_spec 1024 (Z.of_nat (length l))); [naive_solver lia|].
  rewrite <- (res_forM_Ok (λ x, validate_json limits (depth + 1) x) l tt).
  assert (E : (fix go l := match l with
             | [] => Ok tt
             | x :: l' => _ ← validate_json limits (depth + 1) x; go l'
             end) l = res_forM (λ x, validate_json limits (depth + 1) x) l).
  { clear. induction l as [|x l IH]; [done|]. cbn [res_forM]. rewrite <- IH.
    by destruct (validate_json limits (depth + 1) x). }
  rewrite E. naive_solver.
Qed.

Lemma validate_json_dict limits depth dd :
  validate_json limits depth (PDict dd) = Ok tt ↔
  depth ≤ MAX_JSON_DEPTH ∧ node_ok limits (PDict dd) ∧
  Forall (λ kv, validate_json limits (depth + 1) kv.1 = Ok tt ∧
                validate_json limits (depth + 1) kv.2 = Ok tt) dd.
Proof.
  simpl. rewrite !Z.gtb_ltb. destruct (Z.ltb_spec MAX_JSON_DEPTH depth); [naive_solver lia|].
  destruct (Z.ltb_spec 128 (Z.of_nat (length dd))) as [|Hlen]; [naive_solver lia|].
  transitivity (Forall (λ kv, is_str kv.1 = true) dd ∧
    Forall (λ kv, validate_json limits (depth + 1) kv.1 = Ok tt ∧
                  validate_json limits (depth + 1) kv.2 = Ok tt) dd); [|naive_solver].
  clear Hlen. induction dd as [|[k x] dd IH]; [by split|].
  rewrite !Forall_cons. cbn [fst snd].
  destruct (is_str k); cbn [negb]; [|naive_solver].
  rewrite !bind_Ok. setoid_rewrite bind_Ok. split.
  - intros ([] & Hk & [] & Hx & Hr). apply IH in Hr. naive_solver.
  - intros ((_ & ?) & (? & ?) & ?). exists tt. split; [done|]. exists tt. split; [done|].
    by apply IH.
Qed.

Lemma json_ok_list limits depth l :
  json_ok limits depth (PList l) ↔
  depth ≤ MAX_JSON_DEPTH ∧ node_ok limits (PList l) ∧ Forall (json_ok limits (depth + 1)) l.
Proof.
  split.
  - intros H. destruct (H 0 (PList l) (sub_here _)) as [H0 Hn]. split_and!; [lia|done|].
    apply Forall_forall. intros x Hx d w Hs.
    destruct (H (d + 1) w) as [? ?]; [by eapply sub_item|]. split; [lia|done].
  - intros (Hd & Hn & Hl) d w Hs. inversion Hs; subst; [split; [lia|done]|].
    rewrite Forall_forall in Hl. edestruct Hl as [? ?]; [done..|]. split; [lia|done].
Qed.

Lemma json_ok_dict limits depth dd :
  json_ok limits depth (PDict dd) ↔
  depth ≤ MAX_JSON_DEPTH ∧ node_ok limits (PDict dd) ∧
  Forall (λ kv, json_ok limits (depth + 1) kv.1 ∧ json_ok limits (depth + 1) kv.2) dd.
Proof.
  split.
  - intros H. destruct (H 0 (PDict dd) (sub_here _)) as [H0 Hn]. split_and!; [lia|done|].
    apply Forall_forall. intros [k x] Hx. split; intros d w Hs.
    + destruct (H (d + 1) w) as [? ?]; [by eapply sub_key|]. split; [lia|done].
    + destruct (H (d + 1) w) as [? ?]; [by eapply sub_val|]. split; [lia|done].
  - intros (Hd & Hn & Hl) d w Hs. rewrite Forall_forall in Hl.
    inversion Hs as [|????? |? k x ?? Hin Hk|? k x ?? Hin Hk]; subst; [split; [lia|done]| |].
    + destruct (Hl _ Hin) as [Hk' _]. destruct (Hk' _ _ Hk). split; [lia|done].
    + destruct (Hl _ Hin) as [_ Hk']. destruct (Hk' _ _ Hk). split; [lia|done].
Qed.

Lemma json_ok_leaf limits depth v :
  is_list v = false → is_dict v = false →
  json_ok limits depth v ↔ depth ≤ MAX_JSON_DEPTH ∧ node_ok limits v.
Proof.
  intros H1 H2. split.
  - intros H. destruct (H 0 v (sub_here _)). split; [lia|done].
  - intros [Hd Hn] d w Hs. inversion Hs; subst; try done. split; [lia|done].
Qed.

Lemma validate_json_leaf limits depth v :
  is_list v = false → is_dict v = false →
  validate_json limits depth v = Ok tt ↔ depth ≤ MAX_JSON_DEPTH ∧ node_ok limits v.
Proof.
  intros H1 H2. rewrite <- (Z.ltb_ge MAX_JSON_DEPTH depth), <- Z.gtb_ltb.
  destruct v; try done; simpl; destruct (depth >? MAX_JSON_DEPTH); try naive_solver.
  - rewrite raise_if_Ok, negb_false_iff, andb_true_iff, Z.leb_le, Z.ltb_lt. naive_solver.
  - rewrite raise_if_Ok, negb_false_iff. naive_solver.
  - rewrite bind_Ok. setoid_rewrite raise_if_Ok. setoid_rewrite Z.gtb_ltb.
    setoid_rewrite Z.ltb_ge. naive_solver.
Qed.

(** ** Properties *)

(** C29: [_validate_json] accepts exactly the values in which every node, keys
    included, lies at most twelve containers deep and meets its own bound (string
    bytes, 64-bit integers, finite floats, container sizes, string keys). *)
Theorem validate_json_spec limits depth v :
  validate_json limits depth v = Ok tt ↔ json_ok limits depth v.
Proof.
  revert depth. induction v as [| | | | |l IH|dd IH|] using pyval_ind'; intros depth;
    try (rewrite validate_json_leaf, json_ok_leaf by done; done).
  - rewrite validate_json_list, json_ok_list. do 2 f_equiv.
    rewrite !Forall_forall. rewrite Forall_forall in IH. split; intros H x Hx; by apply IH, H.
  - rewrite validate_json_dict, json_ok_dict. do 2 f_equiv.
    rewrite !Forall_forall. rewrite Forall_forall in IH.
    split; intros H x Hx; destruct (H x Hx), (IH x Hx) as [IHk IHv];
      (split; [by apply IHk|by apply IHv]).
Qed.

(** [MessageType(code)] inverts [int(kind)]: a wire code is read as a kind exactly
    when it is that kind's code, and every code fits the one-byte field. *)
Theorem kind_of_code_spec code k :
  (kind_of_code code = Ok k ↔ kind_code k = code) ∧ 0 ≤ kind_code k < 2 ^ 8.
Proof.
  split; [|destruct k; simpl; lia]. unfold kind_of_code. split.
  - destruct (list_find _ all_kinds) as [[i k']|] eqn:E; [|done]. intros [= ->].
    by apply list_find_Some in E as (_ & ? & _).
  - intros <-. by destruct k.
Qed.

(** For limits that were validated, every payload up to [max_message_bytes] has a
    chunk count: the least number of frames that hold it, at least one and never
    more than [max_chunks]; a longer payload is refused. *)
Theorem message_chunk_count_spec limits n :
  limits_ok limits → 0 ≤ n →
  (n ≤ max_message_bytes limits →
   ∃ c, message_chunk_count n limits = Ok c ∧ 1 ≤ c ≤ max_chunks limits ∧
        n ≤ c * max_frame_payload_bytes limits ∧
        (1 < c → (c - 1) * max_frame_payload_bytes limits < n)) ∧
  (max_message_bytes limits < n →
   message_chunk_count n limits
   = Err (protocol_error "message payload exceeds configured limit")).
Proof.
  intros [Hpos _ _ _ _ Hchunks _ _ _ _] Hn. unfold message_chunk_count.
  do 7 (apply Forall_cons in Hpos as [? Hpos]). clear Hpos.
  set (s := max_frame_payload_bytes limits) in *.
  rewrite (Z.gtb_ltb n), (proj2 (Z.ltb_ge n 0)) by lia. split; intros H'.
  - rewrite (proj2 (Z.ltb_ge (max_message_bytes limits) n)) by lia.
    cbn [orb raise_if mbind result_bind].
    pose proof (Z.div_mod (n + s - 1) s ltac:(lia)) as Hdm.
    pose proof (Z.mod_pos_bound (n + s - 1) s ltac:(lia)) as Hmod.
    set (q := (n + s - 1) / s) in *. set (r := (n + s - 1) mod s) in *.
    assert (Hq : q ≤ max_chunks limits) by nia.
    exists (Z.max 1 q). rewrite raise_if_false by (rewrite Z.gtb_ltb, Z.ltb_ge; lia).
    split_and!; [done|lia|lia|nia|nia].
  - rewrite (proj2 (Z.ltb_lt (max_message_bytes limits) n)) by lia. done.
Qed.

Lemma message_chunk_count_spec_witness :
  ∃ c, message_chunk_count (3 * 1024 * 1024) default_remote_limits = Ok c ∧ 1 ≤ c ≤ 256.
Proof.
  destruct (proj1 (message_chunk_count_spec default_remote_limits (3 * 1024 * 1024)
    default_limits_ok ltac:(lia))) as (c & H & Hc & _); [by vm_compute|].
  exists c. split; [exact H|exact Hc].
Defined.
