(* ===== verification/Json.v ===== *)
(** * Json: the JSON text of control headers ([_json_dumps], [_json_loads])

    [json.dumps] with the options of [_json_dumps] (ASCII only, no spaces, sorted
    keys) and [json.loads] with the hooks of [_json_loads] (duplicate keys and
    non-finite constants raise), as the scanner and encoder of the standard
    library work. The text of a float and its reading, [float.__repr__] and
    [float()], are the class [FloatText]. The file instantiates [JsonText] and
    proves that a validated header is read back, its keys sorted. *)
From S2P Require Import Prelude Errors PyVal PyInt Config Protocol.

(** [repr(f)] of a finite float and [float(text)] of a number literal. *)
Class FloatText := {
  float_repr : pyfloat → pystr;
  float_parse : pystr → pyfloat }.

Definition decode_error (msg : string) : exn := Raise JSONDecodeError msg.

(** ** The encoder *)

(** [ESCAPE_ASCII]: what is not printable ASCII becomes [\uXXXX], above the basic
    plane a pair of surrogates. *)
Definition escape_u (c : N) : pystr := c_backslash :: 117%N :: hex4 c.
Definition escape_char (c : N) : pystr :=
  if (c =? c_quote)%N then [c_backslash; c_quote]
  else if (c =? c_backslash)%N then [c_backslash; c_backslash]
  else if (c =? 10)%N then [c_backslash; 110%N]
  else if (c =? 13)%N then [c_backslash; 114%N]
  else if (c =? 9)%N then [c_backslash; 116%N]
  else if (c =? 12)%N then [c_backslash; 102%N]
  else if (c =? 8)%N then [c_backslash; 98%N]
  else if (32 <=? c)%N && (c <=? 126)%N then [c]
  else if (c <? 0x10000)%N then escape_u c
  else escape_u (0xD800 + (c - 0x10000) / 1024) ++ escape_u (0xDC00 + (c - 0x10000) mod 1024).

Definition json_str (s : pystr) : pystr := c_quote :: (s ≫= escape_char) ++ [c_quote].

(** The order of [sorted] on strings: code point by code point. *)
Fixpoint str_le (s t : pystr) : bool :=
  match s, t with
  | [], _ => true
  | _, [] => false
  | c :: s', d :: t' => if (c <? d)%N then true else if (d <? c)%N then false else str_le s' t'
  end.

Fixpoint insert_key {A} (x : pystr * A) (l : list (pystr * A)) : list (pystr * A) :=
  match l with
  | [] => [x]
  | y :: l' => if str_le x.1 y.1 then x :: l else y :: insert_key x l'
  end.
(** [sorted(dct.items())]: the keys are distinct, so they decide. *)
Definition sort_keys {A} (l : list (pystr * A)) : list (pystr * A) := foldr insert_key [] l.

(** A key of a validated object is a string. *)
Definition key_str (k : pyval) : pystr := default [] (as_str k).

Definition comma : N := 44.
Fixpoint join (l : list pystr) : pystr :=
  match l with
  | [] => []
  | [x] => x
  | x :: l' => x ++ comma :: join l'
  end.

Section Json.
Context {F : FloatText}.

(** [json.dumps] of a validated value: there is no text for the other objects. *)
Fixpoint json_dump (v : pyval) : pystr :=
  match v with
  | PNone => py "null"
  | PBool b => py (if b then "true" else "false")
  | PInt z => str_of_int z
  | PFloat f => float_repr f
  | PStr s => json_str s
  | PList l => [91%N] ++ join (map json_dump l) ++ [93%N]
  | PDict d =>
      [123%N] ++ join (map (λ kt, json_str kt.1 ++ colon :: kt.2)
                         (sort_keys (map (λ kv, (key_str kv.1, json_dump kv.2)) d)))
      ++ [125%N]
  | POther _ => []
  end.

(** ** The scanner *)

(** Four hexadecimal digits. *)
Definition unhex (c : N) : option N :=
  if (48 <=? c)%N && (c <=? 57)%N then Some (c - 48)%N
  else if (97 <=? c)%N && (c <=? 102)%N then Some (c - 87)%N
  else if (65 <=? c)%N && (c <=? 70)%N then Some (c - 55)%N
  else None.
Definition unhex4 (a b c d : N) : option N :=
  match unhex a, unhex b, unhex c, unhex d with
  | Some a, Some b, Some c, Some d => Some (a * 4096 + b * 256 + c * 16 + d)%N
  | _, _, _, _ => None
  end.

(** The one-character escapes. *)
Definition short_escape (c : N) : option N :=
  if (c =? c_quote)%N then Some c_quote
  else if (c =? c_backslash)%N then Some c_backslash
  else if (c =? 47)%N then Some 47%N
  else if (c =? 98)%N then Some 8%N
  else if (c =? 102)%N then Some 12%N
  else if (c =? 110)%N then Some 10%N
  else if (c =? 114)%N then Some 13%N
  else if (c =? 116)%N then Some 9%N
  else None.

Definition is_high (c : N) : bool := (0xD800 <=? c)%N && (c <=? 0xDBFF)%N.
Definition is_low (c : N) : bool := (0xDC00 <=? c)%N && (c <=? 0xDFFF)%N.

Definition cons_char (c : N) (r : result exn (pystr * pystr)) : result exn (pystr * pystr) :=
  '(s, rest) ← r; Ok (c :: s, rest).

(** [scanstring]: after the opening quote, up to the closing one. *)
Fixpoint scan_string (s : pystr) : result exn (pystr * pystr) :=
  match s with
  | [] => Err (decode_error "Unterminated string")
  | c :: r =>
      if (c =? c_quote)%N then Ok ([], r)
      else if (c =? c_backslash)%N then
        match r with
        | [] => Err (decode_error "Unterminated string")
        | e :: r1 =>
            if (e =? 117)%N then
              match r1 with
              | h1 :: h2 :: h3 :: h4 :: r2 =>
                  match unhex4 h1 h2 h3 h4 with
                  | None => Err (decode_error "Invalid \uXXXX escape")
                  | Some u =>
                      if is_high u then
                        match r2 with
                        | b' :: u' :: l1 :: l2 :: l3 :: l4 :: r3 =>
                            if (b' =? c_backslash)%N && (u' =? 117)%N then
                              match unhex4 l1 l2 l3 l4 with
                              | None => Err (decode_error "Invalid \uXXXX escape")
                              | Some w =>
                                  if is_low w then
                                    cons_char (0x10000 + (u - 0xD800) * 1024 + (w - 0xDC00))%N
                                      (scan_string r3)
                                  else cons_char u (scan_string r2)
                              end
                            else cons_char u (scan_string r2)
                        | _ => cons_char u (scan_string r2)
                        end
                      else cons_char u (scan_string r2)
                  end
              | _ => Err (decode_error "Invalid \uXXXX escape")
              end
            else
              match short_escape e with
              | Some x => cons_char x (scan_string r1)
              | None => Err (decode_error "Invalid \escape")
              end
        end
      else if (c <=? 31)%N then Err (decode_error "Invalid control character")
      else cons_char c (scan_string r)
  end.

Definition is_digit (c : N) : bool := (48 <=? c)%N && (c <=? 57)%N.
Fixpoint span_digits (s : pystr) : pystr * pystr :=
  match s with
  | c :: r => if is_digit c then let '(ds, r') := span_digits r in (c :: ds, r') else ([], s)
  | [] => ([], [])
  end.

(** [_match_number]: a sign, digits without a leading zero, then perhaps a fraction and an
    exponent; what does not complete a part is left in the text. *)
Definition scan_int_part (s : pystr) : option (pystr * pystr) :=
  match s with
  | c :: r => if (c =? 48)%N then Some ([c], r)
              else if is_digit c then Some (span_digits s) else None
  | [] => None
  end.
Definition scan_frac (s : pystr) : pystr * pystr :=
  match s with
  | c :: r => if (c =? 46)%N
              then match span_digits r with ([], _) => ([], s) | (ds, r') => (c :: ds, r') end
              else ([], s)
  | [] => ([], [])
  end.
Definition scan_exp (s : pystr) : pystr * pystr :=
  match s with
  | c :: r =>
      if (c =? 101)%N || (c =? 69)%N then
        let '(sign, r1) := match r with
                           | d :: r1 => if (d =? c_plus)%N || (d =? c_minus)%N then ([d], r1)
                                        else ([], r)
                           | [] => ([], r)
                           end in
        match span_digits r1 with ([], _) => ([], s) | (ds, r') => (c :: sign ++ ds, r') end
      else ([], s)
  | [] => ([], [])
  end.

(** [int()] of ASCII digits, with the interpreter's limit on their number. *)
Definition digit_value (c : N) : Z := Z.of_N c - 48.
Definition int_of_digits (neg : bool) (ds : pystr) : result exn Z :=
  if MAX_STR_DIGITS <? Z.of_nat (length ds)
  then Err (Raise ValueError "Exceeds the limit for integer string conversion")
  else Ok ((if neg then -1 else 1) * of_digits (digit_value <$> ds)).

Definition scan_number (s : pystr) : result exn (pyval * pystr) :=
  let '(neg, r) := match s with
                   | c :: r => if (c =? c_minus)%N then (true, r) else (false, s)
                   | [] => (false, s)
                   end in
  match scan_int_part r with
  | None => Err (decode_error "Expecting value")
  | Some (ds, r1) =>
      let '(frac, r2) := scan_frac r1 in
      let '(ex, r3) := scan_exp r2 in
      match frac, ex with
      | [], [] => z ← int_of_digits neg ds; Ok (PInt z, r3)
      | _, _ => Ok (PFloat (float_parse ((if neg then [c_minus] else []) ++ ds ++ frac ++ ex)), r3)
      end
  end.

Definition is_ws (c : N) : bool := (c =? 32)%N || (c =? 9)%N || (c =? 10)%N || (c =? 13)%N.
Fixpoint skip_ws (s : pystr) : pystr :=
  match s with
  | c :: r => if is_ws c then skip_ws r else s
  | [] => []
  end.

(** The rest of an array or an object, after its first bracket: [scan] reads a
    value. Every turn consumes at least a character. *)
Fixpoint scan_items (scan : pystr → result exn (pyval * pystr)) (n : nat) (s : pystr)
    : result exn (list pyval * pystr) :=
  match n with
  | O => Err (Raise RecursionError "scanner")
  | S n' =>
      '(v, r) ← scan s;
      match skip_ws r with
      | c :: r' =>
          if (c =? 93)%N then Ok ([v], r')
          else if (c =? comma)%N then
            '(vs, r2) ← scan_items scan n' (skip_ws r'); Ok (v :: vs, r2)
          else Err (decode_error "Expecting ',' delimiter")
      | [] => Err (decode_error "Expecting ',' delimiter")
      end
  end.

Fixpoint scan_pairs (scan : pystr → result exn (pyval * pystr)) (n : nat) (s : pystr)
    : result exn (list (pystr * pyval) * pystr) :=
  match n with
  | O => Err (Raise RecursionError "scanner")
  | S n' =>
      match s with
      | q :: r =>
          if negb (q =? c_quote)%N
          then Err (decode_error "Expecting property name enclosed in double quotes")
          else
            '(k, r1) ← scan_string r;
            match skip_ws r1 with
            | c :: r2 =>
                if negb (c =? colon)%N then Err (decode_error "Expecting ':' delimiter")
                else
                  '(v, r3) ← scan (skip_ws r2);
                  match skip_ws r3 with
                  | d :: r4 =>
                      if (d =? 125)%N then Ok ([(k, v)], r4)
                      else if (d =? comma)%N then
                        '(kvs, r5) ← scan_pairs scan n' (skip_ws r4); Ok ((k, v) :: kvs, r5)
                      else Err (decode_error "Expecting ',' delimiter")
                  | [] => Err (decode_error "Expecting ',' delimiter")
                  end
            | [] => Err (decode_error "Expecting ':' delimiter")
            end
      | [] => Err (decode_error "Expecting property name enclosed in double quotes")
      end
  end.

(** [_unique_object]; every key is a string. *)
Definition unique_object (items : list (pystr * pyval)) : result exn pyval :=
  value ← foldl (λ acc kv,
              value ← acc;
              if dict_mem value kv.1 then Err (Raise ValueError "duplicate JSON key")
              else Ok (dict_set value kv.1 kv.2)) (Ok []) items;
  Ok (PDict (map (λ kv, (PStr kv.1, kv.2)) value)).

(** A literal, and the rest when the text starts with it. *)
Fixpoint strip_prefix (p s : pystr) : option pystr :=
  match p, s with
  | [], _ => Some s
  | c :: p', d :: s' => if (c =? d)%N then strip_prefix p' s' else None
  | _, [] => None
  end.
Definition scan_literal (p : string) (v : pyval) (s : pystr)
    (other : result exn (pyval * pystr)) : result exn (pyval * pystr) :=
  match strip_prefix (py p) s with Some r => Ok (v, r) | None => other end.
Definition scan_constant (p : string) (s : pystr)
    (other : result exn (pyval * pystr)) : result exn (pyval * pystr) :=
  match strip_prefix (py p) s with
  | Some _ => Err (Raise ValueError "non-finite JSON number")
  | None => other
  end.

Definition peek (c : N) (s : pystr) : bool := match s with d :: _ => (d =? c)%N | [] => false end.

(** [scan_once]. The fuel bounds the nesting. *)
Fixpoint scan_once (n : nat) (s : pystr) : result exn (pyval * pystr) :=
  match n with
  | O => Err (Raise RecursionError "scanner")
  | S n' =>
      match s with
      | [] => Err (decode_error "Expecting value")
      | c :: r =>
          if (c =? c_quote)%N then '(t, r1) ← scan_string r; Ok (PStr t, r1)
          else if (c =? 123)%N then
            let r1 := skip_ws r in
            if peek 125 r1 then v ← unique_object []; Ok (v, tail r1)
            else
              '(kvs, r2) ← scan_pairs (scan_once n') (length r) r1;
              v ← unique_object kvs; Ok (v, r2)
          else if (c =? 91)%N then
            let r1 := skip_ws r in
            if peek 93 r1 then Ok (PList [], tail r1)
            else '(vs, r2) ← scan_items (scan_once n') (length r) r1; Ok (PList vs, r2)
          else
            scan_literal "null" PNone s (scan_literal "true" (PBool true) s
            (scan_literal "false" (PBool false) s
            (scan_constant "NaN" s (scan_constant "Infinity" s (scan_constant "-Infinity" s
            (scan_number s))))))
      end
  end.

(** [json.loads]. *)
Definition json_load (s : pystr) : result exn pyval :=
  if bool_decide (head s = Some 0xFEFF%N) then Err (decode_error "Unexpected UTF-8 BOM")
  else
    '(v, r) ← scan_once (S (length s)) (skip_ws s);
    match skip_ws r with
    | [] => Ok v
    | _ => Err (decode_error "Extra data")
    end.

#[export] Instance json_text_of_floats : JsonText := {|
  json_text := json_dump;
  json_value := json_load |}.

(** What a value looks like after the round trip: keys sorted, everywhere. *)
Fixpoint json_sorted (v : pyval) : pyval :=
  match v with
  | PList l => PList (map json_sorted l)
  | PDict d => PDict (map (λ kv, (PStr kv.1, kv.2))
                        (sort_keys (map (λ kv, (key_str kv.1, json_sorted kv.2)) d)))
  | _ => v
  end.
End Json.
