(* ===== verification/JsonProps.v ===== *)
(** * JsonProps: what [_json_dumps] writes, [_json_loads] reads

    Strings, numbers and containers are read back one after the other; then the
    text is shown to pass the checks [_json_loads] makes before and after parsing.
    The last part bounds what a malformed header can raise. *)
From S2P Require Import Prelude Errors PyVal PyInt Config Protocol Json.

(** ** Reading strings back *)

Lemma unhex_hex n : (n < 16)%N → unhex (hex_digit n) = Some n.
Proof.
  intros H. unfold hex_digit, unhex. destruct (N.ltb_spec n 10).
  - rewrite (proj2 (N.leb_le 48 _)), (proj2 (N.leb_le _ 57)) by lia. cbn. f_equal. lia.
  - rewrite (proj2 (N.leb_gt (87 + n) 57)), andb_false_r by lia.
    rewrite (proj2 (N.leb_le 97 _)), (proj2 (N.leb_le _ 102)) by lia. cbn. f_equal. lia.
Qed.

Lemma unhex4_hex4 c :
  (c < 0x10000)%N → ∃ a b d e, hex4 c = [a; b; d; e] ∧ unhex4 a b d e = Some c.
Proof.
  intros H. do 4 eexists. split; [reflexivity|]. unfold unhex4.
  rewrite !unhex_hex by (apply N.mod_lt; lia). f_equal.
  pose proof (N.div_mod c 16 ltac:(lia)). pose proof (N.div_mod (c / 16) 16 ltac:(lia)).
  pose proof (N.div_mod (c / 16 / 16) 16 ltac:(lia)).
  replace (c / 256)%N with (c / 16 / 16)%N by (rewrite N.Div0.div_div; done).
  replace (c / 4096)%N with (c / 16 / 16 / 16)%N by (rewrite !N.Div0.div_div; done).
  assert (c / 16 / 16 / 16 < 16)%N by (rewrite !N.Div0.div_div; apply N.Div0.div_lt_upper_bound; lia).
  rewrite (N.mod_small (c / 16 / 16 / 16)) by done. lia.
Qed.

(** A character that is not the first half of a pair. *)
Lemma scan_escape_u c t :
  (c < 0x10000)%N → is_high c = false →
  scan_string (escape_u c ++ t) = cons_char c (scan_string t).
Proof.
  intros H Hh. unfold escape_u. destruct (unhex4_hex4 c H) as (a & b & d & e & -> & E).
  cbn. by rewrite E, Hh.
Qed.

Lemma scan_escape_pair c t :
  (0x10000 ≤ c < 0x110000)%N →
  scan_string (escape_u (0xD800 + (c - 0x10000) / 1024)
               ++ escape_u (0xDC00 + (c - 0x10000) mod 1024) ++ t)
  = cons_char c (scan_string t).
Proof.
  intros H. pose proof (N.mod_lt (c - 0x10000) 1024 ltac:(lia)) as Hm.
  pose proof (N.div_mod (c - 0x10000) 1024 ltac:(lia)) as Hd.
  assert ((c - 0x10000) / 1024 < 1024)%N as Hq by (apply N.Div0.div_lt_upper_bound; lia).
  remember ((c - 0x10000) / 1024)%N as q eqn:Eq. remember ((c - 0x10000) mod 1024)%N as m eqn:Em.
  unfold escape_u. destruct (unhex4_hex4 (0xD800 + q)%N ltac:(lia)) as (a & b & d & e & -> & E).
  destruct (unhex4_hex4 (0xDC00 + m)%N ltac:(lia)) as (a' & b' & d' & e' & -> & E').
  cbn [app scan_string]. change ((c_backslash =? c_quote)%N) with false.
  change ((c_backslash =? c_backslash)%N) with true. change ((117 =? 117)%N) with true. cbn iota.
  rewrite E. assert (is_high (0xD800 + q) = true) as ->.
  { unfold is_high. apply andb_true_iff. rewrite !N.leb_le. lia. }
  cbn [andb]. rewrite E'. assert (is_low (0xDC00 + m) = true) as ->.
  { unfold is_low. apply andb_true_iff. rewrite !N.leb_le. lia. }
  f_equal. lia.
Qed.

Lemma scan_escape c t :
  is_scalar c = true → scan_string (escape_char c ++ t) = cons_char c (scan_string t).
Proof.
  intros Hc. unfold escape_char.
  repeat (match goal with |- context [(c =? ?k)%N] => destruct (N.eqb_spec c k); [by subst|] end).
  destruct ((32 <=? c)%N && (c <=? 126)%N) eqn:Hp.
  - apply andb_true_iff in Hp as [H1 H2]. apply N.leb_le in H1, H2. cbn [app scan_string].
    rewrite !(proj2 (N.eqb_neq c _)) by done. by rewrite (proj2 (N.leb_gt c 31)) by lia.
  - unfold is_scalar, is_surrogate in Hc. apply andb_true_iff in Hc as [H1 H2].
    apply N.ltb_lt in H1. apply negb_true_iff, andb_false_iff in H2. rewrite !N.leb_gt in H2.
    destruct (N.ltb_spec c 0x10000) as [Hl|Hl].
    + apply scan_escape_u; [done|]. unfold is_high. apply andb_false_iff. rewrite !N.leb_gt. lia.
    + rewrite <- app_assoc. apply scan_escape_pair. lia.
Qed.

(** A string without surrogates: what UTF-8 can encode. *)
Definition scalars (s : pystr) : Prop := Forall (λ c, is_scalar c = true) s.

Lemma scan_json_str s r : scalars s → scan_string ((s ≫= escape_char) ++ c_quote :: r) = Ok (s, r).
Proof.
  induction 1 as [|c s Hc _ IH]; [done|].
  change ((c :: s) ≫= escape_char) with (escape_char c ++ (s ≫= escape_char)).
  by rewrite <- app_assoc, scan_escape, IH by done.
Qed.

(** ** Reading numbers back *)

(** What follows a value: the end, or a character that closes or separates. *)
Definition ends (r : pystr) : Prop :=
  match r with [] => True | c :: _ => c = comma ∨ c = 93%N ∨ c = 125%N end.

Lemma is_digit_digit d : 0 ≤ d < 10 → is_digit (digit d) = true.
Proof. intros H. unfold is_digit, digit. apply andb_true_iff. rewrite !N.leb_le. lia. Qed.

Definition no_digit (r : pystr) : Prop := match r with [] => True | c :: _ => is_digit c = false end.

Lemma span_decimal zs r : decimal zs → no_digit r → span_digits ((digit <$> zs) ++ r) = (digit <$> zs, r).
Proof.
  intros Hz Hr. induction Hz as [|d zs Hd _ IH].
  - by destruct r as [|c r]; [|cbn; rewrite Hr].
  - rewrite fmap_cons. cbn [app span_digits]. by rewrite is_digit_digit, IH.
Qed.

Lemma scan_int_part_decimal zs r :
  decimal zs → zs ≠ [] → (∀ d zs', zs = d :: zs' → d = 0 → zs' = []) → no_digit r →
  scan_int_part ((digit <$> zs) ++ r) = Some (digit <$> zs, r).
Proof.
  intros Hz Hne Hh Hr. destruct zs as [|d zs]; [done|]. pose proof Hz as [Hd _]%Forall_cons.
  rewrite fmap_cons. cbn [app scan_int_part]. destruct (N.eqb_spec (digit d) 48) as [E|_].
  - assert (d = 0) by (unfold digit in E; lia). subst d. by rewrite (Hh 0 zs eq_refl eq_refl).
  - rewrite is_digit_digit by done. change (digit d :: (digit <$> zs) ++ r) with ((digit <$> d :: zs) ++ r).
    by rewrite span_decimal by done.
Qed.

Lemma digit_values zs : decimal zs → digit_value <$> (digit <$> zs) = zs.
Proof.
  induction 1 as [|d zs Hd _ IH]; [done|]. rewrite !fmap_cons. rewrite IH. f_equal.
  unfold digit_value, digit. lia.
Qed.

Lemma ends_number r : ends r → no_digit r ∧ scan_frac r = ([], r) ∧ scan_exp r = ([], r).
Proof. by destruct r as [|c r]; [|intros [->|[->| ->]]]. Qed.

(** The sign is taken off, since a digit is not a minus. *)
Lemma scan_number_sign (neg : bool) zs r :
  decimal zs → zs ≠ [] →
  match (if neg then [c_minus] else []) ++ (digit <$> zs) ++ r with
  | c :: r' => if (c =? c_minus)%N then (true, r')
               else (false, (if neg then [c_minus] else []) ++ (digit <$> zs) ++ r)
  | [] => (false, (if neg then [c_minus] else []) ++ (digit <$> zs) ++ r)
  end = (neg, (digit <$> zs) ++ r).
Proof.
  intros Hz Hne. destruct neg; [done|]. destruct zs as [|d zs]; [done|].
  cbn [fmap list_fmap app]. pose proof Hz as [Hd _]%Forall_cons.
  by rewrite (proj2 (N.eqb_neq (digit d) c_minus)) by (unfold digit, c_minus; lia).
Qed.

Lemma str_of_int_text z :
  - 2 ^ 63 ≤ z < 2 ^ 63 → ∃ (neg : bool) zs, str_of_int z = (if neg then [c_minus] else []) ++ (digit <$> zs) ∧
    decimal zs ∧ zs ≠ [] ∧ (∀ d zs', zs = d :: zs' → d = 0 → zs' = []) ∧
    z = (if neg then -1 else 1) * of_digits zs ∧ (length zs ≤ 19)%nat.
Proof.
  intros Hz. destruct (Z.ltb_spec z 0) as [Hn|Hn].
  - destruct (str_of_int_decimal (- z) ltac:(lia)) as (zs & E & ? & ? & ? & ? & Hl).
    exists true, zs. rewrite str_of_int_neg, E by done. split_and!; try done; [lia|]. apply Hl; lia.
  - destruct (str_of_int_decimal z ltac:(lia)) as (zs & E & ? & ? & ? & ? & Hl).
    exists false, zs. rewrite E. split_and!; try done; [lia|]. apply Hl; lia.
Qed.

Section JsonProofs.
Context {F : FloatText}.

Lemma scan_number_int z r :
  - 2 ^ 63 ≤ z < 2 ^ 63 → ends r → scan_number (str_of_int z ++ r) = Ok (PInt z, r).
Proof.
  intros Hz Hr. destruct (str_of_int_text z Hz) as (neg & zs & -> & Hd & Hne & Hh & Hv & Hl).
  destruct (ends_number r Hr) as (Hn & Hf & He).
  unfold scan_number. rewrite <- app_assoc, scan_number_sign by done.
  rewrite scan_int_part_decimal, Hf, He by done.
  unfold int_of_digits. rewrite length_fmap, (proj2 (Z.ltb_ge MAX_STR_DIGITS _)), digit_values
    by (done || unfold MAX_STR_DIGITS; lia).
  cbn [mbind result_bind]. by rewrite <- Hv.
Qed.

(** The text [repr] gives a finite float: a number literal with a fraction or an
    exponent, which [float()] reads as the same float. *)
Record float_reads (f : pyfloat) : Prop := {
  fr_parse : float_parse (float_repr f) = f;
  fr_text : ∃ (neg : bool) zs fs (esign : pystr) es,
    float_repr f = (if neg then [c_minus] else []) ++ (digit <$> zs)
      ++ (if fs is [] then [] else 46%N :: (digit <$> fs))
      ++ (if es is [] then [] else 101%N :: esign ++ (digit <$> es)) ∧
    decimal zs ∧ zs ≠ [] ∧ (∀ d zs', zs = d :: zs' → d = 0 → zs' = []) ∧
    decimal fs ∧ decimal es ∧ (esign = [] ∨ esign = [c_plus] ∨ esign = [c_minus]) ∧
    (fs ≠ [] ∨ es ≠ []) }.

Definition frac_text (fs : list Z) : pystr := if fs is [] then [] else 46%N :: (digit <$> fs).
Definition exp_text (esign : pystr) (es : list Z) : pystr :=
  if es is [] then [] else 101%N :: esign ++ (digit <$> es).

Lemma exp_text_scan esign es r :
  decimal es → (esign = [] ∨ esign = [c_plus] ∨ esign = [c_minus]) → ends r →
  no_digit (exp_text esign es ++ r) ∧ scan_frac (exp_text esign es ++ r) = ([], exp_text esign es ++ r) ∧
  scan_exp (exp_text esign es ++ r) = (exp_text esign es, r).
Proof.
  intros Hd Hs Hr. destruct (ends_number r Hr) as (Hn & Hf & He).
  destruct es as [|e es]; [by split_and!|]. split_and!; [done|done|].
  unfold exp_text. cbn [app scan_exp]. change ((101 =? 101)%N || (101 =? 69)%N) with true. cbn iota.
  rewrite <- app_assoc.
  assert (match esign ++ (digit <$> e :: es) ++ r with
          | d :: r1 => if (d =? c_plus)%N || (d =? c_minus)%N then ([d], r1)
                       else ([], esign ++ (digit <$> e :: es) ++ r)
          | [] => ([], esign ++ (digit <$> e :: es) ++ r)
          end = (esign, (digit <$> e :: es) ++ r)) as ->.
  { destruct Hs as [->|[->| ->]]; [|done..]. cbn [fmap list_fmap app].
    pose proof Hd as [He' _]%Forall_cons.
    by rewrite !(proj2 (N.eqb_neq (digit e) _)) by (unfold digit, c_plus, c_minus; lia). }
  by rewrite span_decimal by done.
Qed.

Lemma scan_number_float f r :
  float_reads f → ends r → scan_number (float_repr f ++ r) = Ok (PFloat f, r).
Proof.
  intros [Hp (neg & zs & fs & esign & es & E & Hd & Hne & Hh & Hfs & Hes & Hs & Hsome)] Hr.
  fold (frac_text fs) in E. fold (exp_text esign es) in E.
  destruct (exp_text_scan esign es r Hes Hs Hr) as (Hn & Hf & He).
  assert (Er : float_repr f ++ r = (if neg then [c_minus] else []) ++ (digit <$> zs) ++ frac_text fs ++ exp_text esign es ++ r)
    by (rewrite E; by rewrite <- !app_assoc).
  rewrite Er. unfold scan_number. rewrite scan_number_sign by done.
  rewrite scan_int_part_decimal; try done; [|by destruct fs].
  assert (scan_frac (frac_text fs ++ exp_text esign es ++ r) = (frac_text fs, exp_text esign es ++ r)) as ->.
  { destruct fs as [|z fs]; [done|]. unfold frac_text. cbn [app scan_frac]. change (46 =? 46)%N with true. cbn iota.
    by rewrite span_decimal by done. }
  rewrite He. replace ((if neg then [c_minus] else []) ++ (digit <$> zs) ++ frac_text fs ++ exp_text esign es)
    with (float_repr f). rewrite Hp. destruct fs, es; naive_solver.
Qed.
End JsonProofs.

(** ** Sorting *)

Lemma insert_key_perm {A} (x : pystr * A) l : insert_key x l ≡ₚ x :: l.
Proof.
  induction l as [|y l IH]; [done|]. cbn. case_match; [done|]. rewrite IH. apply perm_swap.
Qed.

Lemma sort_keys_perm {A} (l : list (pystr * A)) : sort_keys l ≡ₚ l.
Proof. induction l as [|x l IH]; [done|]. cbn. by rewrite insert_key_perm, IH. Qed.

(** Sorting looks at the keys only. *)
Lemma insert_key_map {A B} (f : A → B) x l :
  insert_key (x.1, f x.2) (map (λ kv, (kv.1, f kv.2)) l) = map (λ kv, (kv.1, f kv.2)) (insert_key x l).
Proof. induction l as [|y l IH]; [done|]. cbn. case_match; [done|]. cbn. by rewrite IH. Qed.

Lemma sort_keys_map {A B} (f : A → B) l :
  sort_keys (map (λ kv, (kv.1, f kv.2)) l) = map (λ kv, (kv.1, f kv.2)) (sort_keys l).
Proof. induction l as [|x l IH]; [done|]. unfold sort_keys in *. cbn [map foldr]. by rewrite IH, <- insert_key_map. Qed.

(** ** Reading values back *)

Lemma join_cons_app x l r :
  join (x :: l) ++ r = x ++ (if l is [] then r else comma :: join l ++ r).
Proof. destruct l; [done|]. cbn [join]. by rewrite <- app_assoc. Qed.

Lemma join_elem x l : x ∈ l → (length x ≤ length (join l))%nat.
Proof.
  induction l as [|y l IH]; intros Hx; [by apply elem_of_nil in Hx|].
  assert (join (y :: l) = y ++ (if l is [] then [] else comma :: join l)) as ->
    by (pose proof (join_cons_app y l []) as E; rewrite app_nil_r in E; rewrite E; by destruct l; rewrite ?app_nil_r).
  rewrite length_app. apply elem_of_cons in Hx as [->|Hx]; [lia|]. specialize (IH Hx).
  destruct l; [by apply elem_of_nil in Hx|]. cbn [length]. lia.
Qed.

Lemma join_length l : Forall (λ x, x ≠ []) l → (length l ≤ length (join l))%nat.
Proof.
  induction 1 as [|x l Hx _ IH]; [done|]. destruct x as [|c x]; [done|].
  destruct l as [|y l]; [cbn; lia|].
  change (join ((c :: x) :: y :: l)) with ((c :: x) ++ comma :: join (y :: l)).
  rewrite length_app. cbn [length] in *. lia.
Qed.

Section Values.
Context {F : FloatText}.

(** What JSON can carry: 64-bit integers, floats whose text reads back, strings without
    surrogates, objects whose keys are such strings, once each. *)
#[warnings="-register-all"]
Inductive readable : pyval → Prop :=
  | rd_none : readable PNone
  | rd_bool b : readable (PBool b)
  | rd_int z : - 2 ^ 63 ≤ z < 2 ^ 63 → readable (PInt z)
  | rd_float f : float_reads f → readable (PFloat f)
  | rd_str s : scalars s → readable (PStr s)
  | rd_list l : Forall readable l → readable (PList l)
  | rd_dict d :
      Forall (λ kv, (∃ k, kv.1 = PStr k ∧ scalars k) ∧ readable kv.2) d → NoDup d.*1 →
      readable (PDict d).

(** The first character of a value: none of these. *)
Definition starts (t : pystr) : Prop :=
  ∃ c t', t = c :: t' ∧ is_ws c = false ∧ c ≠ 93%N ∧ (c < 128)%N.

Lemma starts_skip t r : starts t → skip_ws (t ++ r) = t ++ r ∧ t ≠ [].
Proof. intros (c & t' & -> & Hw & _). cbn. by rewrite Hw. Qed.

Lemma digit_starts d t : 0 ≤ d < 10 → starts (digit d :: t).
Proof.
  intros Hd. exists (digit d), t. split; [done|].
  split; [|split; unfold digit; lia]. unfold is_ws. rewrite !orb_false_iff, !N.eqb_neq. unfold digit. lia.
Qed.

(** A literal is not read where the text starts differently. *)
Definition differs (p : string) (i : nat) (d : N) : Prop :=
  ∃ c, py p !! i = Some c ∧ (c =? d)%N = false.
Lemma literal_ne p v d s o : differs p 0 d → scan_literal p v (d :: s) o = o.
Proof.
  intros (c & E & H). unfold scan_literal. destruct (py p) as [|? p']; [done|]. injection E as ->.
  cbn. by rewrite H.
Qed.
Lemma constant_ne p d s o : differs p 0 d → scan_constant p (d :: s) o = o.
Proof.
  intros (c & E & H). unfold scan_constant. destruct (py p) as [|? p']; [done|]. injection E as ->.
  cbn. by rewrite H.
Qed.
Lemma constant_ne_second p d d' s o : differs p 1 d' → scan_constant p (d :: d' :: s) o = o.
Proof.
  intros (c & E & H). unfold scan_constant. destruct (py p) as [|? [|? p']]; try done. injection E as ->.
  cbn. rewrite H. by destruct (_ =? d)%N.
Qed.

(** The scanner takes text that starts like a number for one. *)
Lemma scan_once_number n (neg : bool) zs t :
  decimal zs → zs ≠ [] →
  let s := (if neg then [c_minus] else []) ++ (digit <$> zs) ++ t in
  scan_once (S n) s = scan_number s ∧ starts s.
Proof.
  intros Hd Hne. destruct zs as [|z zs]; [done|]. apply Forall_cons in Hd as [Hz _].
  rewrite fmap_cons. cbn [app].
  assert (∀ k, (k <? 48)%N || (57 <? k)%N = true → (k =? digit z)%N = false ∧ (digit z =? k)%N = false) as Hk.
  { intros k. rewrite orb_true_iff, !N.ltb_lt, !N.eqb_neq. unfold digit. lia. }
  destruct neg; cbn [app]; split.
  - cbn [scan_once]. change (c_minus =? c_quote)%N with false. change (c_minus =? 123)%N with false.
    change (c_minus =? 91)%N with false. cbn iota. rewrite !literal_ne by by eexists.
    rewrite 2!constant_ne by by eexists.
    by rewrite constant_ne_second by (eexists; split; [done|by apply Hk]).
  - by eexists c_minus, _.
  - cbn [scan_once]. rewrite (proj2 (Hk c_quote eq_refl)), (proj2 (Hk 123%N eq_refl)), (proj2 (Hk 91%N eq_refl)).
    rewrite !literal_ne by (eexists; split; [done|by apply Hk]).
    by rewrite !constant_ne by (eexists; split; [done|by apply Hk]).
  - by apply digit_starts.
Qed.

Lemma scan_once_int n z r :
  - 2 ^ 63 ≤ z < 2 ^ 63 → ends r →
  scan_once (S n) (str_of_int z ++ r) = Ok (PInt z, r) ∧ starts (str_of_int z).
Proof.
  intros Hz Hr. rewrite <- (scan_number_int z r Hz Hr).
  destruct (str_of_int_text z Hz) as (neg & zs & -> & Hd & Hne & _). rewrite <- app_assoc. split.
  - by apply scan_once_number.
  - pose proof (scan_once_number n neg zs [] Hd Hne) as [_ Hs]. by rewrite app_nil_r in Hs.
Qed.

Lemma scan_once_float n f r :
  float_reads f → ends r →
  scan_once (S n) (float_repr f ++ r) = Ok (PFloat f, r) ∧ starts (float_repr f).
Proof.
  intros Hf Hr. rewrite <- (scan_number_float f r Hf Hr).
  destruct Hf as [_ (neg & zs & fs & esign & es & -> & Hd & Hne & _)].
  split; [rewrite <- !app_assoc|]; by apply (scan_once_number n neg zs _ Hd Hne).
Qed.

Lemma readable_starts v : readable v → starts (json_dump v).
Proof.
  intros [| |z Hz|f Hf|s Hs|l Hl|d Hd Hn]; cbn; try by eexists _, _.
  - destruct b; by eexists _, _.
  - by apply (scan_once_int 0 z [] Hz I).
  - by apply (scan_once_float 0 f [] Hf I).
Qed.

(** A scanner that reads the text of [v] wherever it is followed by an end. *)
Definition reads (scan : pystr → result exn (pyval * pystr)) (v : pyval) : Prop :=
  ∀ r, ends r → scan (json_dump v ++ r) = Ok (json_sorted v, r).

Lemma scan_items_reads scan n l r :
  l ≠ [] → (length l ≤ n)%nat → Forall (λ v, reads scan v ∧ starts (json_dump v)) l →
  scan_items scan n (join (map json_dump l) ++ 93%N :: r) = Ok (map json_sorted l, r).
Proof.
  intros Hne Hn H. revert n Hn Hne. induction H as [|v l [Hv Hs] Hl IH]; intros n Hn Hne; [done|].
  destruct n as [|n]; [cbn in Hn; lia|]. cbn [map]. rewrite join_cons_app. cbn [scan_items].
  destruct l as [|w l].
  - cbn [map]. rewrite Hv by by right; left. done.
  - rewrite Hv by by left. cbn [map mbind result_bind skip_ws]. change (is_ws comma) with false.
    cbn iota. change (comma =? 93)%N with false. change (comma =? comma)%N with true. cbn iota.
    pose proof Hl as [[_ Hw] _]%Forall_cons.
    assert (Hsk : skip_ws (join (json_dump w :: map json_dump l) ++ 93%N :: r) =
            join (json_dump w :: map json_dump l) ++ 93%N :: r) by (rewrite join_cons_app; by apply starts_skip).
    rewrite Hsk. change (json_dump w :: map json_dump l) with (map json_dump (w :: l)).
    rewrite IH by (done || cbn in *; lia). done.
Qed.

Definition pair_text (kt : pystr * pystr) : pystr := json_str kt.1 ++ colon :: kt.2.

Lemma scan_pairs_reads scan n (l : list (pystr * pyval)) r :
  l ≠ [] → (length l ≤ n)%nat →
  Forall (λ kv, scalars kv.1 ∧ reads scan kv.2 ∧ starts (json_dump kv.2)) l →
  scan_pairs scan n (join (map (λ kv, pair_text (kv.1, json_dump kv.2)) l) ++ 125%N :: r)
  = Ok (map (λ kv, (kv.1, json_sorted kv.2)) l, r).
Proof.
  intros Hne Hn H. revert n Hn Hne.
  induction H as [|[k v] l (Hk & Hv & Hs) Hl IH]; intros n Hn Hne; [done|].
  destruct n as [|n]; [cbn in Hn; lia|]. cbn [map fst snd] in *. rewrite join_cons_app.
  unfold pair_text at 1, json_str. cbn [fst snd app]. rewrite <- !app_assoc. cbn [scan_pairs app].
  change (negb (c_quote =? c_quote)%N) with false. cbn iota.
  rewrite scan_json_str by done. cbn [mbind result_bind skip_ws]. change (is_ws colon) with false.
  cbn iota. change (negb (colon =? colon)%N) with false. cbn iota.
  rewrite (proj1 (starts_skip (json_dump v) _ Hs)).
  destruct l as [|[k' w] l].
  - cbn [map]. rewrite Hv by by right; right. done.
  - rewrite Hv by by left. cbn [map mbind result_bind skip_ws]. change (is_ws comma) with false.
    cbn iota. change (comma =? 125)%N with false. change (comma =? comma)%N with true. cbn iota.
    cbn [fst snd].
    assert (Hsk : ∀ q, skip_ws (join (pair_text (k', json_dump w) :: q) ++ 125%N :: r) =
            join (pair_text (k', json_dump w) :: q) ++ 125%N :: r) by (intros q; by rewrite join_cons_app).
    rewrite Hsk. cbn [map fst snd] in IH. rewrite IH by (done || cbn in *; lia). done.
Qed.

Lemma unique_object_fresh (items : list (pystr * pyval)) :
  NoDup items.*1 → unique_object items = Ok (PDict (map (λ kv, (PStr kv.1, kv.2)) items)).
Proof.
  intros H. unfold unique_object.
  enough (∀ d, NoDup (d ++ items).*1 → foldl (λ acc kv, value ← acc;
      if dict_mem value kv.1 then Err (Raise ValueError "duplicate JSON key")
      else Ok (dict_set value kv.1 kv.2)) (Ok d) items = Ok (d ++ items)) as -> by done.
  clear H. induction items as [|[k v] items IH]; intros d Hd; cbn [foldl]; [by rewrite app_nil_r|].
  assert (k ∉ d.*1) as Hk.
  { rewrite fmap_app in Hd. apply NoDup_app in Hd as (_ & Hd & _). intros Hk. apply (Hd _ Hk). by left. }
  cbn [mbind result_bind fst snd]. unfold dict_mem. rewrite (proj2 (dict_get_None d k) Hk).
  cbn. rewrite dict_set_new by done. rewrite IH; [by rewrite <- app_assoc|by rewrite <- app_assoc].
Qed.

(** The pairs of an object, as the encoder sees them. *)
Definition pairs_of (d : pydict) : list (pystr * pyval) := sort_keys (map (λ kv, (key_str kv.1, kv.2)) d).

Lemma pairs_of_map {A} (f : pyval → A) d :
  sort_keys (map (λ kv, (key_str kv.1, f kv.2)) d) = map (λ kv, (kv.1, f kv.2)) (pairs_of d).
Proof. unfold pairs_of. rewrite <- sort_keys_map. f_equal. rewrite map_map. done. Qed.

Lemma string_keys d :
  Forall (λ kv, (∃ k, kv.1 = PStr k ∧ scalars k) ∧ readable kv.2) d →
  d = map (λ kv, (PStr kv.1, kv.2)) (map (λ kv, (key_str kv.1, kv.2)) d).
Proof.
  induction 1 as [|[k v] d [(s & E & _) _] _ IH]; [done|]. cbn in E. subst k. cbn [map fst snd key_str as_str default].
  by rewrite <- IH.
Qed.

Lemma pairs_of_ok d :
  Forall (λ kv, (∃ k, kv.1 = PStr k ∧ scalars k) ∧ readable kv.2) d → NoDup d.*1 →
  NoDup (pairs_of d).*1 ∧ Forall (λ kv, scalars kv.1 ∧ (PStr kv.1, kv.2) ∈ d) (pairs_of d).
Proof.
  intros Hd Hn. pose proof (string_keys d Hd) as E. unfold pairs_of. rewrite sort_keys_perm.
  revert E. generalize (map (λ kv, (key_str kv.1, kv.2)) d) as items. intros items ->. split.
  - apply (NoDup_fmap_1 PStr). rewrite <- list_fmap_compose.
    by change (map ?f items) with (f <$> items) in Hn; rewrite <- list_fmap_compose in Hn.
  - rewrite Forall_map in Hd. apply Forall_forall. intros [k v] Hin.
    rewrite Forall_forall in Hd. destruct (Hd _ Hin) as [(s & [= <-] & Hs) _]. split; [done|].
    change (map ?f items) with (f <$> items). apply list_elem_of_fmap. by exists (k, v).
Qed.

Lemma json_dump_dict d :
  json_dump (PDict d) = [123%N] ++ join (map (λ kv, pair_text (kv.1, json_dump kv.2)) (pairs_of d)) ++ [125%N].
Proof. cbn [json_dump]. rewrite pairs_of_map, map_map. done. Qed.

Lemma json_sorted_dict d :
  json_sorted (PDict d) = PDict (map (λ kv, (PStr kv.1, kv.2)) (map (λ kv, (kv.1, json_sorted kv.2)) (pairs_of d))).
Proof. cbn [json_sorted]. by rewrite pairs_of_map. Qed.

(** An array and an object are read when their parts are. *)
Lemma reads_list n l :
  Forall (λ v, reads (scan_once n) v ∧ starts (json_dump v)) l → reads (scan_once (S n)) (PList l).
Proof.
  intros Hin r Hr. cbn [json_dump json_sorted]. destruct l as [|v l]; [done|].
  assert (Hlen : (length (v :: l) ≤ length (join (map json_dump (v :: l))))%nat).
  { rewrite <- (length_map json_dump (v :: l)). apply join_length. apply Forall_map. eapply Forall_impl; [exact Hin|].
    by intros x [_ (c & t & -> & _)]. }
  rewrite <- !app_assoc. cbn [app scan_once].
  assert (Hsk : skip_ws (join (map json_dump (v :: l)) ++ 93%N :: r) = join (map json_dump (v :: l)) ++ 93%N :: r ∧
    peek 93 (join (map json_dump (v :: l)) ++ 93%N :: r) = false).
  { pose proof Hin as [[_ Hs] _]%Forall_cons. cbn [map]. rewrite join_cons_app. split; [by apply starts_skip|].
    destruct Hs as (c & t & -> & _ & Hc & _). by apply N.eqb_neq. }
  destruct Hsk as [Hsk Hc]. rewrite Hsk, Hc. change (91 =? c_quote)%N with false.
  change (91 =? 123)%N with false. change (91 =? 91)%N with true. cbn iota zeta.
  rewrite scan_items_reads; [done|done| |done]. rewrite length_app. lia.
Qed.

Lemma reads_dict n d :
  NoDup (pairs_of d).*1 →
  Forall (λ kv, scalars kv.1 ∧ reads (scan_once n) kv.2 ∧ starts (json_dump kv.2)) (pairs_of d) →
  reads (scan_once (S n)) (PDict d).
Proof.
  intros Hk Hall r Hr. rewrite json_sorted_dict, json_dump_dict.
  rewrite <- !app_assoc. cbn [app scan_once].
  change (123 =? c_quote)%N with false. change (123 =? 123)%N with true. cbn iota.
  destruct (pairs_of d) as [|[k v] items] eqn:Ep; [done|].
  assert (Hlen : (length ((k, v) :: items) ≤
    length (join (map (λ kv, pair_text (kv.1, json_dump kv.2)) ((k, v) :: items))))%nat).
  { rewrite <- (length_map (λ kv, pair_text (kv.1, json_dump kv.2))). apply join_length, Forall_map, Forall_forall.
    by intros [k' v'] _. }
  assert (Hsk : skip_ws (join (map (λ kv, pair_text (kv.1, json_dump kv.2)) ((k, v) :: items)) ++ 125%N :: r)
    = join (map (λ kv, pair_text (kv.1, json_dump kv.2)) ((k, v) :: items)) ++ 125%N :: r ∧
    peek 125 (join (map (λ kv, pair_text (kv.1, json_dump kv.2)) ((k, v) :: items)) ++ 125%N :: r) = false).
  { cbn [map]. by rewrite join_cons_app. }
  destruct Hsk as [Hsk Hc]. cbn zeta. rewrite Hsk, Hc.
  rewrite scan_pairs_reads; [|done|rewrite length_app; lia|done].
  cbn [mbind result_bind]. rewrite unique_object_fresh; [done|].
  change (map ?f ?l) with (f <$> l). by rewrite <- list_fmap_compose.
Qed.

(** The text of a part is no longer than that of the whole. *)
Lemma item_shorter x l : x ∈ l → (length (json_dump x) < length (json_dump (PList l)))%nat.
Proof.
  intros Hx. cbn [json_dump]. rewrite !length_app. cbn [length].
  enough (length (json_dump x) ≤ length (join (map json_dump l)))%nat by lia.
  apply join_elem. change (map json_dump l) with (json_dump <$> l). by apply list_elem_of_fmap_2.
Qed.

Lemma value_shorter k v d : (k, v) ∈ pairs_of d → (length (json_dump v) < length (json_dump (PDict d)))%nat.
Proof.
  intros Hkv. rewrite json_dump_dict, !length_app. cbn [length].
  assert (Hl : (length (pair_text (k, json_dump v)) ≤
          length (join (map (λ kv, pair_text (kv.1, json_dump kv.2)) (pairs_of d))))%nat).
  { apply join_elem. change (map ?f ?l) with (f <$> l).
    by apply (list_elem_of_fmap_2 (λ kv, pair_text (kv.1, json_dump kv.2)) _ (k, v)). }
  unfold pair_text in *. rewrite !length_app in *. cbn [length fst snd] in *. lia.
Qed.

(** The whole scanner: every readable value is read back, sorted, whatever follows it. *)
Lemma scan_once_reads v n : readable v → (length (json_dump v) < n)%nat → reads (scan_once n) v.
Proof.
  revert n. induction v as [|b|z|f|s|l IH|d IH|tag] using pyval_ind'; intros n Hv Hn;
    (destruct n as [|n]; [lia|]); inversion Hv as [|?|? Hz|? Hf|? Hs|? Hl|? Hd Hnd]; subst.
  - by intros r Hr.
  - intros r Hr. by destruct b.
  - intros r Hr. by apply scan_once_int.
  - intros r Hr. by apply scan_once_float.
  - intros r Hr. cbn [json_dump json_sorted]. unfold json_str. cbn [app scan_once].
    change (c_quote =? c_quote)%N with true. cbn iota. rewrite <- app_assoc. cbn [app]. by rewrite scan_json_str.
  - apply reads_list, Forall_forall. intros x Hx. rewrite Forall_forall in IH, Hl.
    split; [|by apply readable_starts, Hl]. apply IH; [done|by apply Hl|]. pose proof (item_shorter x l Hx). lia.
  - destruct (pairs_of_ok d Hd Hnd) as [Hk Hp]. apply reads_dict; [done|]. apply Forall_forall. intros [k v] Hkv.
    destruct (proj1 (Forall_forall _ _) Hp _ Hkv) as [Hs Hin].
    destruct (proj1 (Forall_forall _ _) IH _ Hin) as [_ IHv].
    destruct (proj1 (Forall_forall _ _) Hd _ Hin) as [_ Hr'].
    split_and!; [done| |by apply readable_starts]. apply IHv; [done|].
    pose proof (value_shorter k v d Hkv). cbn [snd] in *. lia.
Qed.

Theorem json_load_dump v : readable v → json_load (json_dump v) = Ok (json_sorted v).
Proof.
  intros Hv. pose proof (readable_starts v Hv) as Hs. destruct (starts_skip _ [] Hs) as [Hsk _].
  rewrite app_nil_r in Hsk. destruct Hs as (c & t & E & _ & _ & Hc). unfold json_load.
  rewrite bool_decide_eq_false_2 by (rewrite E; cbn; intros [= ->]; done).
  pose proof (scan_once_reads v (S (length (json_dump v))) Hv ltac:(lia) [] I) as Hr.
  rewrite app_nil_r in Hr. by rewrite Hsk, Hr.
Qed.

(** ** The text is ASCII and nests no deeper than the value *)

Definition ascii (s : pystr) : Prop := Forall (λ c, (c < 128)%N) s.

Lemma ascii_py s : ascii (py s) ↔ forallb (λ c, (c <? 128)%N) (py s) = true.
Proof. unfold ascii. rewrite forallb_forall, Forall_forall. setoid_rewrite N.ltb_lt. by setoid_rewrite list_elem_of_In. Qed.

Lemma ascii_decode t : ascii t → utf8_decode (ascii_encode t) = Ok t.
Proof.
  intros Ht. apply utf8_roundtrip. unfold ascii_encode. induction Ht as [|c t Hc _ IH]; [done|].
  apply utf8_encode_cons. split.
  - unfold is_scalar, is_surrogate. apply andb_true_iff. rewrite negb_true_iff, andb_false_iff, N.ltb_lt, !N.leb_gt. lia.
  - exists (n2b <$> t). split; [done|]. unfold utf8_char. by rewrite (proj2 (N.ltb_lt c 0x80)).
Qed.

(** [quiet t]: the scan of [_validate_json_nesting] leaves [t] as it entered it, outside of
    strings, without a bracket; and [t] is ASCII. *)
Definition quiet_char (c : N) : bool :=
  negb (is_open c) && negb (is_close c) && negb (c =? c_quote)%N && (c <? 128)%N.
Definition quiet (t : pystr) : Prop := Forall (λ c, quiet_char c = true) t.

Lemma quiet_scan t z r : quiet t → scan_text (mkScan z false false) (t ++ r) = scan_text (mkScan z false false) r.
Proof.
  induction 1 as [|c t Hc _ IH]; [done|]. unfold quiet_char in Hc. rewrite !andb_true_iff, !negb_true_iff in Hc.
  destruct Hc as [[[H1 H2] H3] _]. cbn [app scan_text scan_char]. by rewrite H3, H1, H2.
Qed.

Lemma quiet_ascii t : quiet t → ascii t.
Proof.
  intros Ht. eapply Forall_impl; [exact Ht|]. intros c Hc. unfold quiet_char in Hc. rewrite !andb_true_iff in Hc.
  destruct Hc as [_ Hc]. by apply N.ltb_lt.
Qed.

Lemma quiet_digits zs : decimal zs → quiet (digit <$> zs).
Proof.
  intros Hz. apply Forall_fmap. eapply Forall_impl; [exact Hz|]. intros d Hd. cbn in *.
  assert (d = 0 ∨ d = 1 ∨ d = 2 ∨ d = 3 ∨ d = 4 ∨ d = 5 ∨ d = 6 ∨ d = 7 ∨ d = 8 ∨ d = 9) by lia.
  by destruct_or!; subst.
Qed.

Lemma quiet_int z : - 2 ^ 63 ≤ z < 2 ^ 63 → quiet (str_of_int z).
Proof.
  intros Hz. destruct (str_of_int_text z Hz) as (neg & zs & -> & Hd & _). apply Forall_app.
  split; [destruct neg; by repeat constructor|by apply quiet_digits].
Qed.

Lemma quiet_float f : float_reads f → quiet (float_repr f).
Proof.
  intros [_ (neg & zs & fs & esign & es & -> & Hd & _ & _ & Hf & He & Hs & _)].
  repeat (apply Forall_app; split); [destruct neg; by repeat constructor|by apply quiet_digits| |].
  - destruct fs; [constructor|]. apply Forall_cons. split; [done|by apply quiet_digits].
  - destruct es; [constructor|]. apply Forall_cons. split; [done|]. apply Forall_app.
    split; [destruct Hs as [->|[->| ->]]; by repeat constructor|by apply quiet_digits].
Qed.

(** Inside a string every escape sequence is skipped whole. *)
Lemma scan_plain z c r :
  (c =? c_backslash)%N = false → (c =? c_quote)%N = false →
  scan_text (mkScan z true false) (c :: r) = scan_text (mkScan z true false) r.
Proof. intros H1 H2. cbn [scan_text scan_char]. by rewrite H1, H2. Qed.

Lemma hex4_quiet c z r :
  scan_text (mkScan z true false) (escape_u c ++ r) = scan_text (mkScan z true false) r ∧ ascii (escape_u c).
Proof.
  assert (Hh : ∀ n, (n < 16)%N → (hex_digit n =? c_backslash)%N = false ∧ (hex_digit n =? c_quote)%N = false ∧ (hex_digit n < 128)%N).
  { intros n Hn. unfold hex_digit. rewrite !N.eqb_neq. unfold c_backslash, c_quote. destruct (N.ltb_spec n 10); lia. }
  assert (Hm : ∀ x, (x mod 16 < 16)%N) by (intros; apply N.mod_lt; lia).
  unfold escape_u, hex4. split.
  - transitivity (scan_text (mkScan z true false)
      (hex_digit (c / 4096 mod 16) :: hex_digit (c / 256 mod 16) :: hex_digit (c / 16 mod 16) :: hex_digit (c mod 16) :: r)%N);
      [done|].
    by rewrite !scan_plain by apply Hh, Hm.
  - repeat (apply Forall_cons; split); try done; by apply Hh, Hm.
Qed.

Lemma escape_quiet c z r :
  scan_text (mkScan z true false) (escape_char c ++ r) = scan_text (mkScan z true false) r ∧ ascii (escape_char c).
Proof.
  unfold escape_char.
  repeat (match goal with |- context [(c =? ?k)%N] => destruct (N.eqb_spec c k); [by repeat constructor|] end).
  destruct ((32 <=? c)%N && (c <=? 126)%N) eqn:Hp.
  - apply andb_true_iff in Hp as [H1 H2]. apply N.leb_le in H1, H2. split.
    + by apply scan_plain; apply N.eqb_neq.
    + constructor; [lia|constructor].
  - destruct (c <? 0x10000)%N; [apply hex4_quiet|]. split.
    + rewrite <- app_assoc. by rewrite !(proj1 (hex4_quiet _ _ _)).
    + apply Forall_app. split; by apply (hex4_quiet _ z r).
Qed.

Lemma json_str_quiet s z r :
  scan_text (mkScan z false false) (json_str s ++ r) = scan_text (mkScan z false false) r ∧ ascii (json_str s).
Proof.
  assert (H : scan_text (mkScan z true false) ((s ≫= escape_char) ++ c_quote :: r) = scan_text (mkScan z false false) r
    ∧ ascii (s ≫= escape_char)).
  { induction s as [|c s [IH1 IH2]]; [by split; [|constructor]|].
    change ((c :: s) ≫= escape_char) with (escape_char c ++ (s ≫= escape_char)). split.
    - rewrite <- app_assoc. by rewrite (proj1 (escape_quiet _ _ _)), IH1.
    - apply Forall_app. split; [by apply (escape_quiet c z r)|done]. }
  destruct H as [H1 H2]. unfold json_str. split.
  - cbn [app scan_text scan_char]. rewrite <- app_assoc. exact H1.
  - apply Forall_cons. split; [done|]. apply Forall_app. split; [done|]. by repeat constructor.
Qed.

Lemma join_quiet l z r :
  Forall (λ t, ∀ r, scan_text (mkScan z false false) (t ++ r) = scan_text (mkScan z false false) r ∧ ascii t) l →
  scan_text (mkScan z false false) (join l ++ r) = scan_text (mkScan z false false) r ∧ ascii (join l).
Proof.
  induction 1 as [|t l Ht _ [IH1 IH2]]; [by split; [|constructor]|]. split.
  - rewrite join_cons_app, (proj1 (Ht _)). destruct l; [done|]. exact IH1.
  - destruct l as [|t' l]; [by apply (Ht [])|]. change (join (t :: t' :: l)) with (t ++ comma :: join (t' :: l)).
    apply Forall_app. split; [by apply (Ht [])|]. by apply Forall_cons.
Qed.

(** A bracketed text one level down. *)
Lemma bracket_quiet z o c t r :
  is_open o = true → is_close c = true → is_open c = false → (o =? c_quote)%N = false → (c =? c_quote)%N = false →
  z + 1 ≤ MAX_JSON_DEPTH + 1 →
  (∀ r, scan_text (mkScan (z + 1) false false) (t ++ r) = scan_text (mkScan (z + 1) false false) r) →
  scan_text (mkScan z false false) (([o] ++ t ++ [c]) ++ r) = scan_text (mkScan z false false) r.
Proof.
  intros Ho Hc Hco Hoq Hcq Hz Ht. rewrite <- !app_assoc. cbn [app scan_text scan_char]. rewrite Hoq, Ho.
  rewrite Z.gtb_ltb, (proj2 (Z.ltb_ge _ _)) by lia. cbn [mbind result_bind]. rewrite Ht.
  cbn [scan_text scan_char]. rewrite Hcq, Hco, Hc. cbn [mbind result_bind]. by replace (z + 1 - 1) with z by lia.
Qed.

Lemma json_dump_quiet limits v depth r :
  readable v → validate_json limits depth v = Ok tt → 0 ≤ depth →
  scan_text (mkScan depth false false) (json_dump v ++ r) = scan_text (mkScan depth false false) r ∧ ascii (json_dump v).
Proof.
  revert depth r. induction v as [|b|z|f|s|l IH|d IH|tag] using pyval_ind'; intros depth r Hv Hval Hd;
    inversion Hv as [|?|? Hz|? Hf|? Hs|? Hl|? Hr Hnd]; subst; cbn [json_dump].
  - split; [apply quiet_scan|apply quiet_ascii]; by repeat constructor.
  - split; [apply quiet_scan|apply quiet_ascii]; destruct b; by repeat constructor.
  - split; [apply quiet_scan|apply quiet_ascii]; by apply quiet_int.
  - split; [apply quiet_scan|apply quiet_ascii]; by apply quiet_float.
  - apply json_str_quiet.
  - apply validate_json_list in Hval as (Hmax & _ & Hval).
    assert (Ht : ∀ r, scan_text (mkScan (depth + 1) false false) (join (map json_dump l) ++ r) =
                      scan_text (mkScan (depth + 1) false false) r ∧ ascii (join (map json_dump l))).
    { intros r'. apply join_quiet, Forall_map, Forall_forall. intros x Hx r2. rewrite Forall_forall in IH, Hl, Hval.
      apply IH; [done|by apply Hl|by apply Hval|lia]. }
    split; [apply bracket_quiet; try done; [lia|intros r'; apply Ht]|].
    apply Forall_cons. split; [done|]. apply Forall_app. split; [by apply (Ht [])|by repeat constructor].
  - change ([123%N] ++ ?t ++ [125%N]) with ([123%N] ++ t ++ [125%N]).
    rewrite pairs_of_map, map_map. apply validate_json_dict in Hval as (Hmax & _ & Hval).
    destruct (pairs_of_ok d Hr Hnd) as [_ Hp].
    assert (Ht : ∀ r, scan_text (mkScan (depth + 1) false false) (join (map (λ kv, pair_text (kv.1, json_dump kv.2)) (pairs_of d)) ++ r) =
                      scan_text (mkScan (depth + 1) false false) r ∧
                      ascii (join (map (λ kv, pair_text (kv.1, json_dump kv.2)) (pairs_of d)))).
    { intros r'. apply join_quiet, Forall_map, Forall_forall. intros [k v] Hkv r2.
      destruct (proj1 (Forall_forall _ _) Hp _ Hkv) as [_ Hin].
      destruct (proj1 (Forall_forall _ _) IH _ Hin) as [_ IHv].
      destruct (proj1 (Forall_forall _ _) Hr _ Hin) as [_ Hrv].
      destruct (proj1 (Forall_forall _ _) Hval _ Hin) as [_ Hvv].
      unfold pair_text. cbn [fst snd] in *. rewrite <- app_assoc, (proj1 (json_str_quiet _ _ _)).
      cbn [app scan_text scan_char]. destruct (IHv (depth + 1) r2 Hrv Hvv ltac:(lia)) as [H1 H2].
      split; [exact H1|]. apply Forall_app. split; [by apply (json_str_quiet k 0 [])|by apply Forall_cons]. }
    split; [apply bracket_quiet; try done; [lia|intros r'; apply Ht]|].
    apply Forall_cons. split; [done|]. apply Forall_app. split; [by apply (Ht [])|by repeat constructor].
Qed.

(** ** From the validator to the text and back *)

Lemma json_dumps_Ok d limits b :
  json_dumps d limits = Ok b →
  validate_json limits 0 (PDict d) = Ok tt ∧ b = ascii_encode (json_text (PDict d)).
Proof.
  unfold json_dumps. intros ([] & Hv & H)%bind_Ok. by apply bind_Ok in H as (? & _ & [= <-]).
Qed.

(** What the validator does not look at: an object has each key once, as every [dict], and a
    float has a text that reads back. *)
Definition sound_node (v : pyval) : Prop :=
  match v with PFloat f => float_reads f | PDict d => NoDup d.*1 | _ => True end.
Definition sound (v : pyval) : Prop := ∀ d w, sub_at v d w → sound_node w.

Lemma sound_list l : sound (PList l) → Forall sound l.
Proof. intros H. apply Forall_forall. intros x Hx d w Hw. eapply H. by eapply sub_item. Qed.

Lemma sound_dict dd : sound (PDict dd) → NoDup dd.*1 ∧ Forall (λ kv, sound kv.2) dd.
Proof.
  intros H. split; [exact (H 0 _ (sub_here _))|]. apply Forall_forall. intros [k x] Hx d w Hw.
  eapply H. by eapply sub_val.
Qed.

Lemma utf8_scalars s b : utf8_encode s = Ok b → scalars s.
Proof.
  revert b. induction s as [|c s IH]; intros b; [constructor|].
  rewrite utf8_encode_cons. intros (Hc & b' & Hb & _). constructor; [done|by eapply IH].
Qed.

Lemma validate_str limits depth s : validate_json limits depth (PStr s) = Ok tt → scalars s.
Proof. intros H%validate_json_leaf; [|done..]. destruct H as (_ & b & Hb & _). by eapply utf8_scalars. Qed.

Lemma validated_readable limits depth v : validate_json limits depth v = Ok tt → sound v → readable v.
Proof.
  revert depth. induction v as [|b|z|f|s|l IH|d IH|tag] using pyval_ind'; intros depth Hv Hs.
  - constructor.
  - constructor.
  - apply validate_json_leaf in Hv as [_ Hv]; [|done..]. by constructor.
  - constructor. exact (Hs 0 _ (sub_here _)).
  - constructor. by eapply validate_str.
  - apply validate_json_list in Hv as (_ & _ & Hv). apply sound_list in Hs. constructor.
    apply Forall_forall. intros x Hx. rewrite Forall_forall in IH, Hv, Hs. by eapply IH; [|apply Hv|apply Hs].
  - apply validate_json_dict in Hv as (_ & [_ Hk] & Hv). apply sound_dict in Hs as [Hn Hs]. constructor; [|done].
    apply Forall_forall. intros [k x] Hx. rewrite !Forall_forall in IH, Hv, Hs, Hk.
    destruct (IH _ Hx) as [_ IHx], (Hv _ Hx) as [Hvk Hvx]. split; [|by eapply IHx; [|apply (Hs _ Hx)]].
    specialize (Hk _ Hx). destruct k as [| | | |k| | |]; try done. exists k. split; [done|by eapply validate_str].
  - apply validate_json_leaf in Hv as [_ []]; done.
Qed.

(** Sorting keys does not change what the validator sees. *)
Lemma validate_sorted limits depth v :
  readable v → validate_json limits depth v = Ok tt → validate_json limits depth (json_sorted v) = Ok tt.
Proof.
  revert depth. induction v as [|b|z|f|s|l IH|d IH|tag] using pyval_ind'; intros depth Hr Hv; try done;
    inversion Hr as [|?|?|?|?|? Hl|? Hd Hnd]; subst.
  - cbn [json_sorted]. apply validate_json_list in Hv as (Hm & Hn & Hv). apply validate_json_list.
    split_and!; [done|by cbn in *; rewrite length_map|]. apply Forall_map, Forall_forall. intros x Hx.
    rewrite Forall_forall in IH, Hv, Hl. by apply IH; [|apply Hl|apply Hv].
  - rewrite json_sorted_dict. apply validate_json_dict in Hv as (Hm & [Hn _] & Hv).
    destruct (pairs_of_ok d Hd Hnd) as [_ Hp].
    apply validate_json_dict. rewrite map_map. split_and!; [done| |].
    + split; [|apply Forall_map, Forall_forall; by intros].
      rewrite length_map. unfold pairs_of. rewrite (Permutation_length (sort_keys_perm _)), length_map. exact Hn.
    + apply Forall_map, Forall_forall. intros [k x] Hkx. cbn [fst snd].
      destruct (proj1 (Forall_forall _ _) Hp _ Hkx) as [_ Hin].
      destruct (proj1 (Forall_forall _ _) IH _ Hin) as [_ IHx].
      destruct (proj1 (Forall_forall _ _) Hd _ Hin) as [_ Hrx].
      destruct (proj1 (Forall_forall _ _) Hv _ Hin) as [Hvk Hvx]. split; [done|by apply IHx].
Qed.

(** [_json_loads] reads back what [_json_dumps] writes: the same header with the keys
    of every object sorted, for every header the encoder accepts. *)
Theorem header_roundtrip limits d b :
  json_dumps d limits = Ok b → sound (PDict d) →
  ∃ d', json_sorted (PDict d) = PDict d' ∧ json_loads b limits = Ok d'.
Proof.
  intros (Hv & Hb)%json_dumps_Ok Hs. subst b. rewrite json_sorted_dict. eexists. split; [done|].
  pose proof (validated_readable limits 0 _ Hv Hs) as Hr.
  pose proof (json_dump_quiet limits (PDict d) 0 [] Hr Hv ltac:(lia)) as [Hq Ha]. rewrite app_nil_r in Hq.
  unfold json_loads. change (json_text (PDict d)) with (json_dump (PDict d)). rewrite ascii_decode by done.
  cbn [mbind result_bind]. unfold validate_json_nesting. rewrite Hq. cbn [scan_text mbind result_bind].
  change (json_value (json_dump (PDict d))) with (json_load (json_dump (PDict d))).
  rewrite json_load_dump by done. cbn [mbind result_bind].
  rewrite (validate_sorted limits 0 _ Hr Hv). cbn [mbind result_bind]. by rewrite json_sorted_dict.
Qed.
End Values.

(** ** What a malformed header raises *)

(** The exceptions [_json_loads] turns into protocol errors. *)
Definition scanner_error (e : exn) : Prop := isinstance e ValueError = true ∨ isinstance e RecursionError = true.
(** [raises P r]: if [r] is an exception, it is one of [P]. *)
Definition raises {A} (P : exn → Prop) (r : result exn A) : Prop := ∀ e, r = Err e → P e.
Lemma raises_ok {A} (P : exn → Prop) (a : A) : raises P (Ok a).
Proof. done. Qed.
Lemma raises_err {A} (P : exn → Prop) e : P e → raises (A := A) P (Err e).
Proof. by intros H ? [= <-]. Qed.
Lemma raises_bind {A B} (P : exn → Prop) (r : result exn A) (k : A → result exn B) :
  raises P r → (∀ a, r = Ok a → raises P (k a)) → raises P (r ≫= k).
Proof. destruct r as [a|e0]; intros H1 H2 e; cbn; [by apply H2|]. intros [= <-]. by apply H1. Qed.

Lemma raises_impl {A} (P Q : exn → Prop) (r : result exn A) : raises P r → (∀ e, P e → Q e) → raises Q r.
Proof. intros H1 H2 e He. by apply H2, H1. Qed.

Ltac scans := apply raises_err; ((by left) || (by right)).

Lemma cons_char_raises c r : raises scanner_error r → raises scanner_error (cons_char c r).
Proof. intros H. apply raises_bind; [done|]. by intros [s rest] _. Qed.

Lemma scan_string_raises s : raises scanner_error (scan_string s).
Proof.
  enough (∀ n s, (length s ≤ n)%nat → raises scanner_error (scan_string s)) as H by by eapply H.
  clear s. induction n as [|n IH]; intros s Hs; destruct s as [|c s]; cbn [length] in Hs; try lia; [scans..|].
  cbn [scan_string]. case_match; [done|]. case_match.
  - destruct s as [|e s]; [scans|]. cbn [length] in *. case_match.
    + do 4 (destruct s as [|? s]; [scans|]; cbn [length] in *).
      case_match; [|scans]. case_match; [|apply cons_char_raises, IH; lia].
      do 6 (destruct s as [|? s]; [apply cons_char_raises, IH; cbn [length]; lia|]; cbn [length] in *).
      case_match; [|apply cons_char_raises, IH; cbn [length]; lia].
      case_match; [|scans]. case_match; apply cons_char_raises, IH; cbn [length]; lia.
    + case_match; [apply cons_char_raises, IH; lia|scans].
  - case_match; [scans|]. apply cons_char_raises, IH. lia.
Qed.

Section Raises.
Context {F : FloatText}.
Lemma scan_number_raises s : raises scanner_error (scan_number s).
Proof.
  unfold scan_number. repeat (case_match; try done); try scans; unfold int_of_digits;
    (apply raises_bind; [case_match; [scans|done]|done]).
Qed.

Lemma scan_items_raises scan n s :
  (∀ t, raises scanner_error (scan t)) → raises scanner_error (scan_items scan n s).
Proof.
  intros H. revert s. induction n as [|n IH]; intros s; cbn [scan_items]; [scans|].
  apply raises_bind; [done|]. intros [v r] _. case_match; [scans|]. case_match; [done|]. case_match; [|scans].
  apply raises_bind; [done|]. by intros [] _.
Qed.

Lemma scan_pairs_raises scan n s :
  (∀ t, raises scanner_error (scan t)) → raises scanner_error (scan_pairs scan n s).
Proof.
  intros H. revert s. induction n as [|n IH]; intros s; cbn [scan_pairs]; [scans|].
  case_match; [scans|]. case_match; [scans|]. apply raises_bind; [apply scan_string_raises|]. intros [k r] _.
  case_match; [scans|]. case_match; [scans|]. apply raises_bind; [done|]. intros [v r'] _.
  case_match; [scans|]. case_match; [done|]. case_match; [|scans].
  apply raises_bind; [done|]. by intros [] _.
Qed.

Lemma unique_object_raises items : raises scanner_error (unique_object items).
Proof.
  unfold unique_object. apply raises_bind; [|done].
  enough (∀ acc, raises scanner_error acc → raises scanner_error (foldl (λ acc kv, value ← acc;
      if dict_mem value kv.1 then Err (Raise ValueError "duplicate JSON key")
      else Ok (dict_set value kv.1 kv.2)) acc items)) as H by by apply H.
  induction items as [|kv items IH]; intros acc Hacc; [done|]. cbn [foldl]. apply IH.
  apply raises_bind; [done|]. intros value _. case_match; [scans|done].
Qed.

Lemma scan_once_raises n s : raises scanner_error (scan_once n s).
Proof.
  revert s. induction n as [|n IH]; intros s; cbn [scan_once]; [scans|].
  case_match; [scans|]. case_match; [apply raises_bind; [apply scan_string_raises|by intros [] _]|].
  case_match.
  { cbn zeta. case_match; [done|]. apply raises_bind; [by apply scan_pairs_raises|]. intros [] _.
    apply raises_bind; [apply unique_object_raises|done]. }
  case_match.
  { cbn zeta. case_match; [done|]. apply raises_bind; [by apply scan_items_raises|]. by intros [] _. }
  unfold scan_literal, scan_constant. repeat (case_match; [done || scans|]). apply scan_number_raises.
Qed.

Lemma json_load_raises s : raises scanner_error (json_load s).
Proof.
  unfold json_load. case_match; [scans|]. apply raises_bind; [apply scan_once_raises|]. intros [v r] _.
  case_match; [done|scans].
Qed.

Definition header_error (e : exn) : Prop := exn_of e = RemoteProtocolError ∨ exn_of e = UnicodeEncodeError.
Ltac protocol := apply raises_err; by left.

Lemma utf8_encode_raises s : raises header_error (utf8_encode s).
Proof.
  induction s as [|c s IH]; cbn [utf8_encode]; [done|]. case_match; [|apply raises_err; by right].
  by apply raises_bind.
Qed.
Lemma raise_if_raises (P : exn → Prop) b e : P e → raises P (raise_if b e).
Proof. intros H. destruct b; [by apply raises_err|done]. Qed.

Lemma validate_json_raises limits depth v : raises header_error (validate_json limits depth v).
Proof.
  revert depth. induction v as [|b|z|f|s|l IH|d IH|tag] using pyval_ind'; intros depth; cbn [validate_json];
    (case_match; [protocol|]); try done; try (apply raise_if_raises; by left); [| | |protocol].
  - apply raises_bind; [apply utf8_encode_raises|]. intros b _. apply raise_if_raises. by left.
  - case_match; [protocol|]. clear -IH. induction IH as [|x l Hx _ IHl]; [done|].
    apply raises_bind; [apply Hx|]. intros [] _. apply IHl.
  - case_match; [protocol|]. clear -IH. induction IH as [|[k x] l [Hk Hx] _ IHl]; [done|].
    case_match; [protocol|]. apply raises_bind; [apply Hk|]. intros [] _. apply raises_bind; [apply Hx|].
    intros [] _. apply IHl.
Qed.

Lemma validate_json_nesting_raises t : raises (λ e, exn_of e = RemoteProtocolError) (validate_json_nesting t).
Proof.
  unfold validate_json_nesting. apply raises_bind; [|done]. generalize (mkScan 0 false false).
  induction t as [|c t IH]; intros st; cbn [scan_text]; [done|]. apply raises_bind; [|intros; apply IH].
  unfold scan_char. destruct st. repeat (case_match; try done). by apply raises_err.
Qed.

Lemma utf8_decode_raises b : raises (λ e, exn_of e = UnicodeDecodeError) (utf8_decode b).
Proof.
  unfold utf8_decode. generalize (length b) as n. intros n. revert b. induction n as [|n IH]; intros b; [by destruct b|].
  cbn [utf8_decode_fuel]. destruct b; [done|]. case_match; [|by apply raises_err]. by apply raises_bind.
Qed.

(** Whatever bytes a peer sends as a control header, [_json_loads] raises nothing but a
    protocol error, or the [UnicodeEncodeError] of a string with a lone surrogate, which the
    validator meets outside of the [try]. *)
Theorem json_loads_raises b limits : raises header_error (json_loads b limits).
Proof.
  unfold json_loads. apply raises_bind.
  - set (parsed := text ← _; _).
    assert (raises (λ e, scanner_error e ∨ exn_of e = RemoteProtocolError) parsed) as H.
    { apply raises_bind. { eapply raises_impl; [apply utf8_decode_raises|]. intros [c m] [= ->]. by left; left. }
      intros t _. apply raises_bind. { eapply raises_impl; [apply validate_json_nesting_raises|]. auto. }
      intros [] _. eapply raises_impl; [apply json_load_raises|]. auto. }
    destruct parsed as [v|e]; [done|]. destruct (H e eq_refl) as [[He|He]|He].
    + rewrite He. protocol.
    + rewrite He, orb_true_r. protocol.
    + case_match; [protocol|]. apply raises_err. by left.
  - intros v _. apply raises_bind; [apply validate_json_raises|]. intros [] _. case_match; try protocol. done.
Qed.
End Raises.

(** ** A header with every kind of value *)

Module JsonDemo.
(** The float 1.5 and its text. *)
Definition one_and_a_half : pyfloat := S754_finite false 6755399441055744 (-52).
#[export] Instance floats : FloatText := {|
  float_repr := λ _, py "1.5";
  float_parse := λ _, one_and_a_half |}.

Definition control : pydict := mkdict
  [("request_id", PStr (py "c:1")); ("name", PStr [233; 0x1F600; 34]%N); ("age", PFloat one_and_a_half);
   ("delta", PInt (-12)); ("flags", PList [PBool true; PNone; PDict []])]%string.

Lemma reads_back : float_reads one_and_a_half.
Proof.
  split; [done|]. exists false, [1], [5], [], []. split_and!; try done; try by repeat constructor.
  all: try by left.
  by intros d zs' [= <- <-].
Qed.
End JsonDemo.
#[local] Existing Instance JsonDemo.floats.

Lemma sound_leaf {F : FloatText} v : is_list v = false → is_dict v = false → sound_node v → sound v.
Proof. intros H1 H2 H d w Hs. by inversion Hs; subst. Qed.

Lemma demo_sound : sound (PDict JsonDemo.control).
Proof.
  assert (Hk : ∀ s, sound (PStr s)) by (intros; by apply sound_leaf).
  intros d w Hs. inversion Hs as [|????? |???? ? Hin Hs'|???? ? Hin Hs']; subst.
  - change (NoDup (PStr <$> [py "request_id"; py "name"; py "age"; py "delta"; py "flags"])).
    apply NoDup_fmap_2; [by intros ? ? [= ->]|]. by apply (bool_decide_unpack _).
  - repeat (apply elem_of_cons in Hin as [[= -> ->]|Hin]; [by apply (Hk _ _ _ Hs')|]). by apply elem_of_nil in Hin.
  - repeat (apply elem_of_cons in Hin as [[= -> ->]|Hin]).
    + by apply (Hk _ _ _ Hs').
    + by apply (Hk _ _ _ Hs').
    + revert Hs'. apply sound_leaf; [done..|]. apply JsonDemo.reads_back.
    + revert Hs'. by apply sound_leaf.
    + inversion Hs' as [|? x ? ? Hx Hs''| |]; subst; [done|].
      repeat (apply elem_of_cons in Hx as [->|Hx]).
      * revert Hs''. by apply sound_leaf.
      * revert Hs''. by apply sound_leaf.
      * inversion Hs'' as [| |????? Hin'|????? Hin']; subst; [apply NoDup_nil_2|by apply elem_of_nil in Hin'..].
      * by apply elem_of_nil in Hx.
    + by apply elem_of_nil in Hin.
Qed.

Lemma header_roundtrip_witness :
  ∃ d', json_sorted (PDict JsonDemo.control) = PDict d' ∧
    json_loads (match json_dumps JsonDemo.control default_remote_limits with Ok b => b | Err _ => [] end)
      default_remote_limits = Ok d'.
Proof. apply (header_roundtrip default_remote_limits JsonDemo.control); [by vm_compute|apply demo_sound]. Defined.
