(* ===== verification/Reassembly.v ===== *)
(** * Reassembly: [MessageReader] ([remote/_protocol.py], second part)

    The reader keeps one [_Chunks] per incomplete message and accepts frames of
    several messages in any interleaving. [accept] is the whole of [_accept]: it
    returns the reader after the call also when the call raises, because the
    code mutates the reader before some of its checks. *)
From S2P Require Import Prelude Errors PyVal Config Protocol.

(** ** State *)

Record Chunks := mkChunks {
  ck_kind : MessageType;
  ck_control : pydict;
  ck_count : Z;
  ck_total : Z;
  ck_digest : pystr;
  ck_next_index : Z;
  ck_parts : list bytes;
  ck_received : Z }.

Record MessageReader := mkReader {
  rd_limits : RemoteLimits;
  rd_messages : list (pystr * Chunks);
  rd_incomplete_bytes : Z }.

Definition reader_init (limits : RemoteLimits) : MessageReader := mkReader limits [] 0.

(** ** The checked header *)

Record header := mkHeader {
  h_id : pystr; h_index : Z; h_count : Z; h_total : Z; h_digest : pystr;
  h_control : pyval }.

Definition required_fields : list string :=
  ["message_id"; "index"; "count"; "total"; "digest"; "control"]%string.

(** The checks of [_accept] that read only the header, in its order. *)
Definition parse_header (limits : RemoteLimits) (hd : pydict) : result exn header :=
  _ ← raise_if (negb (keys_are hd required_fields))
        (protocol_error "invalid chunk control fields");
  match get hd "message_id" with
  | PStr message_id =>
    _ ← raise_if (64 <? Z.of_nat (length message_id)) (protocol_error "invalid message ID");
    match get hd "index", get hd "count", get hd "total" with
    | PInt index, PInt count, PInt total =>
      _ ← raise_if ((count <? 1) || (count >? max_chunks limits)
                    || negb ((0 <=? index) && (index <? count)))
            (protocol_error "invalid chunk index/count");
      _ ← raise_if ((total <? 0) || (total >? max_message_bytes limits))
            (protocol_error "declared message payload is too large");
      match get hd "digest" with
      | PStr digest =>
        _ ← raise_if (negb (Z.of_nat (length digest) =? 64))
              (protocol_error "invalid payload digest");
        Ok (mkHeader message_id index count total digest (get hd "control"))
      | _ => Err (protocol_error "invalid payload digest")
      end
    | _, _, _ => Err (protocol_error "chunk indices and lengths must be integers")
    end
  | _ => Err (protocol_error "invalid message ID")
  end.

(** The existing or fresh [_Chunks] of the message: a fresh one is stored. *)
Definition find_chunks (r : MessageReader) (kind : MessageType) (h : header)
    : result exn (Chunks * MessageReader) :=
  match dict_get (rd_messages r) (h_id h) with
  | None =>
      match h_control h with
      | PDict control =>
          _ ← raise_if (negb (h_index h =? 0))
                (protocol_error "chunk sequence must start at index zero");
          _ ← raise_if (Z.of_nat (length (rd_messages r))
                        >=? max_incomplete_messages (rd_limits r))
                (protocol_error "too many incomplete messages");
          let state := mkChunks kind control (h_count h) (h_total h) (h_digest h) 0 [] 0 in
          Ok (state, mkReader (rd_limits r)
                       (dict_set (rd_messages r) (h_id h) state) (rd_incomplete_bytes r))
      | _ => Err (protocol_error "chunk sequence must start at index zero")
      end
  | Some state =>
      _ ← raise_if (negb (bool_decide (ck_kind state = kind))
                    || negb (ck_count state =? h_count h)
                    || negb (ck_total state =? h_total h)
                    || negb (bool_decide (ck_digest state = h_digest h))
                    || negb (is_none (h_control h)))
            (protocol_error "conflicting chunk metadata");
      Ok (state, r)
  end.

(** The state after one more payload. *)
Definition add_part (st : Chunks) (payload : bytes) : Chunks :=
  mkChunks (ck_kind st) (ck_control st) (ck_count st) (ck_total st) (ck_digest st)
    (ck_next_index st + 1) (ck_parts st ++ [payload])
    (ck_received st + Z.of_nat (length payload)).

Section Reader.
(** [hashlib.sha256(_).hexdigest()]. *)
Context (sha256_hex : bytes → pystr).

Definition accept (r : MessageReader) (kind : MessageType) (hd : pydict)
    (payload : bytes) : MessageReader * result exn (option Message) :=
  match parse_header (rd_limits r) hd with
  | Err e => (r, Err e)
  | Ok h =>
    match find_chunks r kind h with
    | Err e => (r, Err e)
    | Ok (state, r1) =>
      if negb (h_index h =? ck_next_index state) then
        (r1, Err (protocol_error "duplicate or out-of-order chunk"))
      else if rd_incomplete_bytes r1 + Z.of_nat (length payload)
              >? max_message_bytes (rd_limits r1) then
        (r1, Err (protocol_error "aggregate incomplete payload is too large"))
      else
        let state' := add_part state payload in
        let r2 := mkReader (rd_limits r1)
                    (dict_set (rd_messages r1) (h_id h) state')
                    (rd_incomplete_bytes r1 + Z.of_nat (length payload)) in
        if ck_received state' >? ck_total state' then
          (r2, Err (protocol_error "chunk sequence exceeds declared total"))
        else if negb (h_index h + 1 =? h_count h) then (r2, Ok None)
        else
          let r3 := mkReader (rd_limits r2) (dict_del (rd_messages r2) (h_id h))
                      (rd_incomplete_bytes r2 - ck_received state') in
          if negb (ck_received state' =? ck_total state') then
            (r3, Err (protocol_error
                        "chunk sequence length does not match declared total"))
          else
            let complete := concat (ck_parts state') in
            if negb (bool_decide (sha256_hex complete = ck_digest state')) then
              (r3, Err (protocol_error "message payload digest mismatch"))
            else (r3, Ok (Some (mkMessage kind (ck_control state') complete)))
    end
  end.

(** A frame as the reader sees it after decoding the control header. *)
Record wire_frame := mkWire { wf_kind : MessageType; wf_header : pydict; wf_chunk : bytes }.

(** The loop of [receive] over decoded frames: messages come out as they complete,
    and the first exception ends the connection. *)
Fixpoint accept_all (r : MessageReader) (fs : list wire_frame)
    : MessageReader * list Message * result exn unit :=
  match fs with
  | [] => (r, [], Ok tt)
  | f :: fs' =>
      match accept r (wf_kind f) (wf_header f) (wf_chunk f) with
      | (r', Err e) => (r', [], Err e)
      | (r', Ok None) => accept_all r' fs'
      | (r', Ok (Some m)) =>
          let '(r2, ms, res) := accept_all r' fs' in (r2, m :: ms, res)
      end
  end.

(** ** The bounded-memory invariant *)

Definition buffered (ms : list (pystr * Chunks)) : Z :=
  foldr Z.add 0 ((λ ic, ck_received ic.2) <$> ms).

Record chunks_wf (st : Chunks) : Prop := {
  cwf_received : ck_received st = Z.of_nat (length (concat (ck_parts st)));
  cwf_index : ck_next_index st = Z.of_nat (length (ck_parts st)) }.

Record reader_wf (r : MessageReader) : Prop := {
  rwf_dict : dict_wf (rd_messages r);
  rwf_chunks : ∀ id st, dict_get (rd_messages r) id = Some st → chunks_wf st;
  rwf_bytes : rd_incomplete_bytes r = buffered (rd_messages r);
  rwf_bytes_bound : rd_incomplete_bytes r ≤ Z.max 0 (max_message_bytes (rd_limits r));
  rwf_count : Z.of_nat (length (rd_messages r))
              ≤ Z.max 0 (max_incomplete_messages (rd_limits r)) }.

Lemma reader_init_wf limits : reader_wf (reader_init limits).
Proof. split; simpl; try done; try lia. apply dict_wf_nil. Qed.

Lemma buffered_perm ms ms' : ms ≡ₚ ms' → buffered ms = buffered ms'.
Proof. intros H. apply Zsum_Permutation. by rewrite H. Qed.

Lemma buffered_cons id st ms : buffered ((id, st) :: ms) = ck_received st + buffered ms.
Proof. done. Qed.

Lemma buffered_set ms id st :
  dict_wf ms →
  buffered (dict_set ms id st)
  = buffered ms + ck_received st
    - match dict_get ms id with Some st0 => ck_received st0 | None => 0 end.
Proof.
  intros Hwf. rewrite (buffered_perm _ _ (dict_set_Permutation ms id st Hwf)).
  rewrite buffered_cons. destruct (dict_get ms id) as [st0|] eqn:E.
  - rewrite (buffered_perm _ _ (dict_get_Permutation ms id st0 Hwf E)).
    rewrite buffered_cons. lia.
  - rewrite (dict_del_None _ _ E). lia.
Qed.

Lemma buffered_del ms id st :
  dict_wf ms → dict_get ms id = Some st →
  buffered (dict_del ms id) = buffered ms - ck_received st.
Proof.
  intros Hwf E. rewrite (buffered_perm _ _ (dict_get_Permutation ms id st Hwf E)).
  rewrite buffered_cons. lia.
Qed.

Lemma length_dict_set (ms : list (pystr * Chunks)) id st :
  length (dict_set ms id st)
  = (length ms + match dict_get ms id with Some _ => 0 | None => 1 end)%nat.
Proof.
  destruct (dict_get ms id) eqn:E.
  - rewrite <- (length_fmap fst), dict_keys_set_old by (by eapply dict_get_Some_key).
    rewrite length_fmap. lia.
  - rewrite dict_set_new by (by apply dict_get_None). by rewrite length_app.
Qed.

Lemma length_dict_del (ms : list (pystr * Chunks)) id :
  (length (dict_del ms id) ≤ length ms)%nat.
Proof. induction ms as [|[k v] ms IH]; simpl; [done|]. case_decide; simpl; lia. Qed.

Lemma chunks_wf_nonneg st : chunks_wf st → 0 ≤ ck_received st.
Proof. intros []. lia. Qed.

Lemma find_chunks_wf r kind h st r1 :
  reader_wf r → find_chunks r kind h = Ok (st, r1) →
  reader_wf r1 ∧ chunks_wf st ∧ dict_get (rd_messages r1) (h_id h) = Some st ∧
  rd_limits r1 = rd_limits r.
Proof.
  intros Hr. unfold find_chunks.
  destruct (dict_get (rd_messages r) (h_id h)) as [st0|] eqn:E.
  - intros H. res_inv. split_and!; [done|by eapply rwf_chunks|done|done].
  - destruct (h_control h); try done. intros H. res_inv. zbool.
    assert (Hst : chunks_wf (mkChunks kind d (h_count h) (h_total h) (h_digest h) 0 [] 0))
      by done.
    split_and!; simpl; [|done|apply dict_get_set_eq|done]. split; simpl.
    + apply dict_set_wf, Hr.
    + intros id st. rewrite dict_get_set. case_decide; [naive_solver|by apply rwf_chunks].
    + rewrite buffered_set, E by apply Hr. simpl. rewrite (rwf_bytes r Hr). lia.
    + apply Hr.
    + rewrite length_dict_set, E. lia.
Qed.

Lemma add_part_wf st payload : chunks_wf st → chunks_wf (add_part st payload).
Proof.
  intros [H1 H2]. split; simpl.
  - rewrite concat_app, length_app. simpl. rewrite app_nil_r. lia.
  - rewrite length_app. simpl. lia.
Qed.

(** Storing a longer state and dropping a finished one. *)
Lemma reader_store_wf r id st payload :
  reader_wf r → dict_get (rd_messages r) id = Some st → chunks_wf st →
  rd_incomplete_bytes r + Z.of_nat (length payload) ≤ max_message_bytes (rd_limits r) →
  reader_wf (mkReader (rd_limits r) (dict_set (rd_messages r) id (add_part st payload))
               (rd_incomplete_bytes r + Z.of_nat (length payload))).
Proof.
  intros Hr E Hst Hb. split; simpl.
  - apply dict_set_wf, Hr.
  - intros id' st'. rewrite dict_get_set.
    case_decide; [intros [= <-]; by apply add_part_wf|by apply rwf_chunks].
  - rewrite buffered_set, E by apply Hr. simpl. rewrite (rwf_bytes r Hr). lia.
  - lia.
  - rewrite length_dict_set, E. pose proof (rwf_count r Hr). lia.
Qed.

Lemma reader_drop_wf r id st :
  reader_wf r → dict_get (rd_messages r) id = Some st →
  reader_wf (mkReader (rd_limits r) (dict_del (rd_messages r) id)
               (rd_incomplete_bytes r - ck_received st)).
Proof.
  intros Hr E. pose proof (chunks_wf_nonneg st (rwf_chunks r Hr _ _ E)). split; simpl.
  - apply dict_del_wf, Hr.
  - intros id' st'. rewrite dict_get_del by apply Hr.
    case_decide; [done|by apply rwf_chunks].
  - rewrite (buffered_del _ _ _ (rwf_dict r Hr) E), (rwf_bytes r Hr). lia.
  - pose proof (rwf_bytes_bound r Hr). lia.
  - pose proof (length_dict_del (rd_messages r) id). pose proof (rwf_count r Hr). lia.
Qed.

Lemma accept_wf r kind hd payload r' res :
  reader_wf r → accept r kind hd payload = (r', res) →
  reader_wf r' ∧ rd_limits r' = rd_limits r.
Proof.
  intros Hr. unfold accept.
  destruct (parse_header (rd_limits r) hd) as [h|e]; [|by intros [= <- <-]].
  destruct (find_chunks r kind h) as [[st r1]|e] eqn:F; [|by intros [= <- <-]].
  destruct (find_chunks_wf r kind h st r1 Hr F) as (Hr1 & Hst & Hg & Hl).
  destruct (negb (h_index h =? ck_next_index st)); [by intros [= <- <-]|].
  destruct (_ >? max_message_bytes _) eqn:Hb; [by intros [= <- <-]|]. zbool.
  pose proof (reader_store_wf r1 (h_id h) st payload Hr1 Hg Hst ltac:(lia)) as Hr2.
  destruct (_ >? ck_total _); [by intros [= <- <-]|].
  destruct (negb (h_index h + 1 =? h_count h)); [by intros [= <- <-]|].
  pose proof (reader_drop_wf _ (h_id h) (add_part st payload) Hr2
                (dict_get_set_eq _ _ _)) as Hr3.
  destruct (negb _); [by intros [= <- <-]|].
  destruct (negb (bool_decide _)); by intros [= <- <-].
Qed.

(** ** Delivery *)

(** What one message looks like on the wire, as [send_message] frames it. *)
Definition sent_frame (limits : RemoteLimits) (id : pystr) (m : Message) (count i : Z)
    : wire_frame :=
  mkWire (m_kind m)
    (frame_header id i count (Z.of_nat (length (m_payload m)))
       (sha256_hex (m_payload m)) (if i =? 0 then PDict (m_control m) else PNone))
    (chunk_of (m_payload m) (max_frame_payload_bytes limits) i).

(** The number of frames of [m]. *)
Definition frame_count (limits : RemoteLimits) (m : Message) : Z :=
  Z.max 1 ((Z.of_nat (length (m_payload m)) + max_frame_payload_bytes limits - 1)
           / max_frame_payload_bytes limits).

(** The [_Chunks] of [m] after its first [n] frames. *)
Definition chunks_after (limits : RemoteLimits) (m : Message) (n : Z) : Chunks :=
  let parts := chunk_of (m_payload m) (max_frame_payload_bytes limits) <$> seqZ 0 n in
  mkChunks (m_kind m) (m_control m) (frame_count limits m)
    (Z.of_nat (length (m_payload m))) (sha256_hex (m_payload m)) n parts
    (Z.of_nat (length (concat parts))).

(** A message the sender may send and the reader will take, by itself. *)
Record sendable (limits : RemoteLimits) (id : pystr) (m : Message) : Prop := {
  sd_id : (length id ≤ 64)%nat;
  sd_total : Z.of_nat (length (m_payload m)) ≤ max_message_bytes limits;
  sd_digest : length (sha256_hex (m_payload m)) = 64%nat }.

Lemma frame_header_get id i c t d ctl :
  keys_are (frame_header id i c t d ctl) required_fields = true ∧
  get (frame_header id i c t d ctl) "message_id" = PStr id ∧
  get (frame_header id i c t d ctl) "index" = PInt i ∧
  get (frame_header id i c t d ctl) "count" = PInt c ∧
  get (frame_header id i c t d ctl) "total" = PInt t ∧
  get (frame_header id i c t d ctl) "digest" = PStr d ∧
  get (frame_header id i c t d ctl) "control" = ctl.
Proof. by split_and!. Qed.

Lemma parse_sent_header limits id m i :
  sendable limits id m → frame_count limits m ≤ max_chunks limits →
  0 ≤ i < frame_count limits m →
  parse_header limits (wf_header (sent_frame limits id m (frame_count limits m) i))
  = Ok (mkHeader id i (frame_count limits m) (Z.of_nat (length (m_payload m)))
          (sha256_hex (m_payload m)) (if i =? 0 then PDict (m_control m) else PNone)).
Proof.
  intros [Hid Htot Hdig] Hc Hi. unfold parse_header. cbn [wf_header sent_frame].
  destruct (frame_header_get id i (frame_count limits m)
    (Z.of_nat (length (m_payload m))) (sha256_hex (m_payload m))
    (if i =? 0 then PDict (m_control m) else PNone)) as (-> & -> & -> & -> & -> & -> & ->).
  rewrite (raise_if_false (64 <? _)) by (apply Z.ltb_ge; lia).
  rewrite (raise_if_false ((_ <? 1) || _ || _)) by
    (rewrite !orb_false_iff, negb_false_iff, andb_true_iff, Z.gtb_ltb, !Z.ltb_ge,
      Z.leb_le, Z.ltb_lt; lia).
  rewrite (raise_if_false ((_ <? 0) || _)) by
    (rewrite orb_false_iff, Z.gtb_ltb, !Z.ltb_ge; lia).
  rewrite (raise_if_false (negb (_ =? 64))) by (by rewrite Hdig).
  done.
Qed.

(** Slicing: the first [n] chunks are the first [n * size] bytes. *)
Lemma concat_chunks payload size n :
  0 < size → 0 ≤ n →
  concat (chunk_of payload size <$> seqZ 0 n) = take (Z.to_nat (n * size)) payload.
Proof.
  intros Hs. revert n. apply natlike_ind; [done|]. intros n Hn IH.
  unfold Z.succ. rewrite seqZ_app, fmap_app, concat_app, IH by lia. simpl.
  rewrite app_nil_r. unfold chunk_of.
  replace (Z.to_nat ((n + 1) * size)) with (Z.to_nat (n * size) + Z.to_nat size)%nat by lia.
  by rewrite take_take_drop.
Qed.

Lemma frame_count_bounds limits m :
  0 < max_frame_payload_bytes limits →
  1 ≤ frame_count limits m ∧
  Z.of_nat (length (m_payload m)) ≤ frame_count limits m * max_frame_payload_bytes limits.
Proof.
  intros Hs. unfold frame_count. set (n := Z.of_nat _). set (s := max_frame_payload_bytes _) in *.
  assert (n ≤ (n + s - 1) / s * s).
  { pose proof (Z.div_mod (n + s - 1) s). pose proof (Z.mod_pos_bound (n + s - 1) s). nia. }
  split; [lia|]. nia.
Qed.

Lemma chunks_after_all limits m :
  0 < max_frame_payload_bytes limits →
  concat (ck_parts (chunks_after limits m (frame_count limits m))) = m_payload m.
Proof.
  intros Hs. destruct (frame_count_bounds limits m Hs). simpl.
  rewrite concat_chunks by lia. apply take_ge. lia.
Qed.

Lemma chunks_after_S limits m n :
  0 ≤ n →
  add_part (chunks_after limits m n) (chunk_of (m_payload m) (max_frame_payload_bytes limits) n)
  = chunks_after limits m (n + 1).
Proof.
  intros Hn. unfold add_part, chunks_after. simpl.
  rewrite seqZ_app, fmap_app, concat_app, length_app by lia. simpl.
  rewrite app_nil_r, !Z.add_0_l. f_equal. lia.
Qed.

Lemma chunks_after_received limits m n :
  0 < max_frame_payload_bytes limits → 0 ≤ n →
  0 ≤ ck_received (chunks_after limits m n) ≤ Z.of_nat (length (m_payload m)).
Proof. intros Hs Hn. simpl. rewrite concat_chunks, length_take by lia. lia. Qed.

(** ** Interleaved messages

    A cursor is a message being sent and the index of its next frame. Several
    senders share the reader: their frames arrive in any interleaving. *)
Record cursor := mkCursor { cu_id : pystr; cu_msg : Message; cu_next : Z }.

Definition advance (c : cursor) : cursor := mkCursor (cu_id c) (cu_msg c) (cu_next c + 1).

Inductive interleaves (limits : RemoteLimits) : list cursor → list wire_frame → Prop :=
  | il_done cs :
      Forall (λ c, cu_next c = frame_count limits (cu_msg c)) cs → interleaves limits cs []
  | il_send cs1 c cs2 fs :
      cu_next c < frame_count limits (cu_msg c) →
      interleaves limits (cs1 ++ advance c :: cs2) fs →
      interleaves limits (cs1 ++ c :: cs2)
        (sent_frame limits (cu_id c) (cu_msg c) (frame_count limits (cu_msg c)) (cu_next c)
         :: fs).

(** What the reader holds for a cursor: the incomplete messages only. *)
Definition live1 (limits : RemoteLimits) (c : cursor) : list (pystr * Chunks) :=
  if (0 <? cu_next c) && (cu_next c <? frame_count limits (cu_msg c))
  then [(cu_id c, chunks_after limits (cu_msg c) (cu_next c))] else [].

Definition live (limits : RemoteLimits) (cs : list cursor) : list (pystr * Chunks) :=
  concat (live1 limits <$> cs).

Definition payload_sum (cs : list cursor) : Z :=
  foldr Z.add 0 ((λ c, Z.of_nat (length (m_payload (cu_msg c)))) <$> cs).

(** Cursors the reader can serve together. *)
Record servable (limits : RemoteLimits) (cs : list cursor) : Prop := {
  sv_size : 0 < max_frame_payload_bytes limits;
  sv_ids : NoDup (cu_id <$> cs);
  sv_each : Forall (λ c, 0 ≤ cu_next c ∧ sendable limits (cu_id c) (cu_msg c) ∧
                         frame_count limits (cu_msg c) ≤ max_chunks limits) cs;
  sv_count : Z.of_nat (length cs) ≤ max_incomplete_messages limits;
  sv_bytes : payload_sum cs ≤ max_message_bytes limits }.

Lemma servable_perm limits cs cs' : cs ≡ₚ cs' → servable limits cs → servable limits cs'.
Proof.
  intros H [? Hn He Hc Hb]. split; [done| | | |].
  - by rewrite <- H.
  - by rewrite <- H.
  - by rewrite <- H.
  - unfold payload_sum. by rewrite <- (Zsum_Permutation _ _ (fmap_Permutation _ _ _ H)).
Qed.

Lemma servable_advance limits c cs : servable limits (c :: cs) → servable limits (advance c :: cs).
Proof.
  intros [? Hn He Hc Hb]. split; try done.
  apply Forall_cons in He as [(? & ? & ?) ?]. apply Forall_cons. split; [|done].
  split_and!; simpl; [lia|done|done].
Qed.

Lemma live_perm limits cs cs' : cs ≡ₚ cs' → live limits cs ≡ₚ live limits cs'.
Proof.
  intros H. unfold live. induction H; csimpl; [done|by apply Permutation_app_head| |by etrans].
  apply Permutation_app_swap_app.
Qed.

Lemma live_bounds limits cs :
  servable limits cs →
  (length (live limits cs) ≤ length cs)%nat ∧ buffered (live limits cs) ≤ payload_sum cs.
Proof.
  intros [Hs _ He _ _]. induction He as [|c cs (Hn & _) _ [IH1 IH2]]; [done|].
  unfold live in *. csimpl. rewrite length_app. unfold buffered, payload_sum in *. csimpl.
  rewrite fmap_app, Zsum_app.
  assert (live1 limits c = [] ∨ live1 limits c =
    [(cu_id c, chunks_after limits (cu_msg c) (cu_next c))]) as Hc
    by (unfold live1; destruct (_ && _); auto).
  pose proof (chunks_after_received limits (cu_msg c) (cu_next c) Hs Hn) as Hr.
  revert Hr Hc. generalize (chunks_after limits (cu_msg c) (cu_next c)) as st. intros st Hr Hc.
  destruct Hc as [-> | ->]; csimpl; cbn [foldr length app]; split; lia.
Qed.

Lemma live_ids limits cs : (live limits cs).*1 ⊆ cu_id <$> cs.
Proof.
  intros id. unfold live. rewrite list_elem_of_fmap. intros ([i st] & -> & H).
  apply elem_of_concat in H as (l & H1 & H2). apply list_elem_of_fmap in H2 as (c & -> & Hc).
  unfold live1 in H1. destruct (_ && _); [|by apply elem_of_nil in H1].
  apply list_elem_of_singleton in H1 as [= -> ->]. apply list_elem_of_fmap. eauto.
Qed.

Definition sent_header (limits : RemoteLimits) (id : pystr) (m : Message) (i : Z) : header :=
  mkHeader id i (frame_count limits m) (Z.of_nat (length (m_payload m)))
    (sha256_hex (m_payload m)) (if i =? 0 then PDict (m_control m) else PNone).

Lemma find_sent limits r id m n rest :
  rd_limits r = limits → reader_wf r → 0 ≤ n < frame_count limits m →
  rd_messages r ≡ₚ live1 limits (mkCursor id m n) ++ rest → id ∉ rest.*1 →
  Z.of_nat (length rest) < max_incomplete_messages limits →
  ∃ r1, find_chunks r (m_kind m) (sent_header limits id m n)
        = Ok (chunks_after limits m n, r1) ∧
        rd_messages r1 ≡ₚ (id, chunks_after limits m n) :: rest ∧
        rd_incomplete_bytes r1 = rd_incomplete_bytes r.
Proof.
  intros <- Hr Hn Hm Hid Hc. unfold find_chunks, live1 in *. simpl in *.
  destruct (decide (n = 0)) as [->|Hne].
  - simpl in Hm. assert (dict_get (rd_messages r) id = None) as E.
    { apply dict_get_None. by rewrite Hm. }
    rewrite E. simpl. rewrite raise_if_false.
    + eexists. split; [done|]. simpl. split; [|done].
      rewrite dict_set_new by (by apply dict_get_None). rewrite Hm. by rewrite (comm app).
    + rewrite Z.geb_leb, Z.leb_gt, Hm. done.
  - rewrite (proj2 (Z.ltb_lt 0 n)), (proj2 (Z.ltb_lt n _)) in Hm by lia. simpl in Hm.
    assert (dict_get (rd_messages r) id = Some (chunks_after (rd_limits r) m n)) as E.
    { apply dict_get_elem; [apply Hr|]. rewrite Hm. left. }
    rewrite E. simpl. rewrite !bool_decide_true, !Z.eqb_refl by done. simpl.
    rewrite (proj2 (Z.eqb_neq n 0)) by done. simpl. by eexists.
Qed.

(** One frame of a served message: the reader moves from one cursor position to the
    next, and delivers exactly at the last frame. *)
Lemma servable_tail limits c cs : servable limits (c :: cs) → servable limits cs.
Proof.
  intros [? H1 H2 H3 H4]. split; [done| | | |].
  - by apply NoDup_cons in H1 as [].
  - by apply Forall_cons in H2 as [].
  - simpl in H3. lia.
  - unfold payload_sum in *. revert H4. csimpl. cbn [foldr]. lia.
Qed.

(** One entry of a dictionary replaced, and dropped. *)
Lemma entry_replaced {K} `{EqDecision K} {V} (d : list (K * V)) k v v' l :
  dict_wf d → d ≡ₚ (k, v) :: l →
  dict_set d k v' ≡ₚ (k, v') :: l ∧ dict_del (dict_set d k v') k ≡ₚ l.
Proof.
  intros Hd Hl.
  assert (Hdel : dict_del d k ≡ₚ l).
  { apply (Permutation_cons_inv (a := (k, v))). rewrite <- Hl. symmetry.
    apply dict_get_Permutation; [done|]. apply dict_get_elem; [done|]. rewrite Hl. by left. }
  assert (Hset : dict_set d k v' ≡ₚ (k, v') :: l) by (rewrite dict_set_Permutation by done; by rewrite Hdel).
  split; [done|]. apply (Permutation_cons_inv (a := (k, v'))). rewrite <- Hset. symmetry.
  apply dict_get_Permutation; [by apply dict_set_wf|apply dict_get_set_eq].
Qed.

(** What a reader holds of a message after one more chunk. *)
Lemma chunks_after_next limits m n :
  0 ≤ n →
  ck_received (chunks_after limits m (n + 1))
  = ck_received (chunks_after limits m n)
    + Z.of_nat (length (chunk_of (m_payload m) (max_frame_payload_bytes limits) n)).
Proof. intros Hn. by rewrite <- (chunks_after_S limits m n Hn). Qed.

(** The cursor that moves on is live until its last frame is sent. *)
Lemma live_advance limits id m n cs :
  0 ≤ n < frame_count limits m →
  live limits (advance (mkCursor id m n) :: cs)
  = if n + 1 =? frame_count limits m then live limits cs
    else (id, chunks_after limits m (n + 1)) :: live limits cs.
Proof.
  intros Hn. unfold live, advance, live1. csimpl. cbn [cu_id cu_msg cu_next].
  rewrite (proj2 (Z.ltb_lt 0 (n + 1))) by lia. cbn [andb].
  destruct (Z.eqb_spec (n + 1) (frame_count limits m)) as [->|Hne]; [by rewrite Z.ltb_irrefl|].
  by rewrite (proj2 (Z.ltb_lt (n + 1) _)) by lia.
Qed.

Lemma accept_sent limits r c cs :
  rd_limits r = limits → reader_wf r → servable limits (c :: cs) →
  cu_next c < frame_count limits (cu_msg c) →
  rd_messages r ≡ₚ live limits (c :: cs) →
  let f := sent_frame limits (cu_id c) (cu_msg c) (frame_count limits (cu_msg c))
             (cu_next c) in
  ∃ r', accept r (wf_kind f) (wf_header f) (wf_chunk f)
        = (r', Ok (if cu_next c + 1 =? frame_count limits (cu_msg c)
                   then Some (cu_msg c) else None)) ∧
        rd_messages r' ≡ₚ live limits (advance c :: cs).
Proof.
  intros Hlims Hr Hs Hlt Hm f. destruct c as [id m n]. simpl in Hlt.
  pose proof (sv_size _ _ Hs) as Hsz.
  pose proof (sv_each _ _ Hs) as [(Hn & Hsend & Hchunks) _]%Forall_cons. simpl in Hn, Hsend, Hchunks.
  pose proof (sv_ids _ _ Hs) as [Hid _]%NoDup_cons.
  assert (Hid' : id ∉ (live limits cs).*1) by (intros H; by apply Hid, (live_ids limits)).
  destruct (live_bounds limits cs (servable_tail _ _ _ Hs)) as [Hl1 Hl2].
  pose proof (sv_count _ _ Hs) as Hcnt. cbn [length] in Hcnt.
  pose proof (sv_bytes _ _ Hs) as Hby. revert Hby. unfold payload_sum. csimpl. cbn [foldr].
  fold (payload_sum cs). intros Hby.
  destruct (find_sent limits r id m n (live limits cs) Hlims Hr) as (r1 & Hf & Hm1 & Hb1);
    [lia|done|done|lia|].
  destruct (find_chunks_wf _ _ _ _ _ Hr Hf) as (Hr1 & Hst & Hg & Hlim). simpl in Hg.
  unfold accept. cbn [f wf_kind wf_header wf_chunk cu_id cu_msg cu_next].
  rewrite Hlims.
  pose proof (parse_sent_header limits id m n Hsend Hchunks ltac:(lia)) as Hp.
  cbn [wf_header sent_frame] in Hp. cbn [wf_header sent_frame wf_kind wf_chunk]. rewrite Hp.
  change (mkHeader _ _ _ _ _ _) with (sent_header limits id m n).
  rewrite Hf. cbn [h_index sent_header chunks_after ck_next_index].
  rewrite Z.eqb_refl. cbn [negb].
  pose proof (chunks_after_S limits m n Hn) as HS.
  pose proof (chunks_after_received limits m n Hsz Hn) as Hrn.
  pose proof (chunks_after_received limits m (n + 1) Hsz ltac:(lia)) as HrS.
  pose proof (chunks_after_next limits m n Hn) as HrSn.
  assert (Hbr1 : rd_incomplete_bytes r1
                 = ck_received (chunks_after limits m n) + buffered (live limits cs)).
  { rewrite (rwf_bytes r1 Hr1), (buffered_perm _ _ Hm1). by rewrite buffered_cons. }
  rewrite Hlim, Hlims.
  replace (_ >? max_message_bytes limits) with false by
    (symmetry; rewrite Z.gtb_ltb, Z.ltb_ge; cbn [cu_msg] in Hby; lia).
  rewrite HS. cbn [rd_limits rd_messages h_count h_id sent_header].
  destruct (entry_replaced _ _ _ (chunks_after limits m (n + 1)) _ (rwf_dict r1 Hr1) Hm1) as [Hset Hdel].
  replace (ck_received (chunks_after limits m (n + 1)) >? _) with false by
    (symmetry; rewrite Z.gtb_ltb, Z.ltb_ge; cbn [ck_total chunks_after]; lia).
  rewrite live_advance by lia.
  destruct (Z.eqb_spec (n + 1) (frame_count limits m)) as [Heq|Hne]; cbn [negb];
    [|eexists; by split].
  rewrite Heq in *. pose proof (chunks_after_all limits m Hsz) as Hall.
  cbn [ck_parts chunks_after] in Hall. cbn [ck_received ck_total ck_parts chunks_after].
  rewrite Hall, Z.eqb_refl. cbn [negb ck_digest ck_control].
  rewrite bool_decide_true by done. cbn [negb]. eexists. split; [by destruct m|done].
Qed.

Definition pending (limits : RemoteLimits) (cs : list cursor) : list Message :=
  cu_msg <$> filter (λ c, cu_next c < frame_count limits (cu_msg c)) cs.

Lemma live_done limits cs :
  Forall (λ c, cu_next c = frame_count limits (cu_msg c)) cs →
  live limits cs = [] ∧ pending limits cs = [].
Proof.
  unfold live, pending. induction 1 as [|c cs Hc _ [IH1 IH2]]; [done|]. csimpl.
  rewrite filter_cons_False by lia. rewrite IH1, IH2. unfold live1.
  by rewrite (proj2 (Z.ltb_ge (cu_next c) _)), andb_false_r by lia.
Qed.

(** Before the first frame the reader holds nothing and everything is pending. *)
Lemma live_fresh limits cs :
  0 < max_frame_payload_bytes limits → Forall (λ c, cu_next c = 0) cs →
  live limits cs = [] ∧ pending limits cs = cu_msg <$> cs.
Proof.
  intros Hs. unfold live, pending. induction 1 as [|c cs Hc _ [IH1 IH2]]; [done|].
  destruct (frame_count_bounds limits (cu_msg c) Hs).
  rewrite filter_cons_True by lia. csimpl. rewrite IH1, IH2. unfold live1. by rewrite Hc.
Qed.

Lemma interleaves_delivered limits cs fs :
  interleaves limits cs fs → ∀ r,
  rd_limits r = limits → reader_wf r → servable limits cs →
  rd_messages r ≡ₚ live limits cs →
  ∃ r' out, accept_all r fs = (r', out, Ok tt) ∧
            out ≡ₚ pending limits cs ∧ rd_messages r' = [] ∧ rd_incomplete_bytes r' = 0.
Proof.
  induction 1 as [cs Hd|cs1 c cs2 fs Hlt _ IH]; intros r Hl Hr Hs Hm.
  - destruct (live_done limits cs Hd) as [HL HP]. rewrite HL in Hm.
    apply symmetry, Permutation_nil_l in Hm. exists r, []. rewrite HP.
    split_and!; [done|done|done|]. by rewrite (rwf_bytes r Hr), <- Hm.
  - assert (Hp : ∀ c', cs1 ++ c' :: cs2 ≡ₚ c' :: cs1 ++ cs2)
      by (intros; by rewrite Permutation_middle).
    destruct (accept_sent limits r c (cs1 ++ cs2) Hl Hr) as (r1 & Ha & Hm1).
    { by apply (servable_perm _ _ _ (Hp c)). }
    { done. }
    { by rewrite Hm, (live_perm _ _ _ (Hp c)). }
    destruct (accept_wf _ _ _ _ _ _ Hr Ha) as [Hr1 Hl1].
    destruct (IH r1) as (r2 & out & Hrun & Hout & He & Hb); [congruence|done| | |].
    { apply (servable_perm _ _ _ (symmetry (Hp (advance c)))), servable_advance.
      by apply (servable_perm _ _ _ (Hp c)). }
    { by rewrite Hm1, (live_perm _ _ _ (Hp (advance c))). }
    assert (Hpend : ∀ c', pending limits (cs1 ++ c' :: cs2)
                          ≡ₚ pending limits [c'] ++ pending limits (cs1 ++ cs2)).
    { intros c'. unfold pending. rewrite <- fmap_app, <- filter_app. by rewrite Hp. }
    rewrite Hpend in Hout. cbn [accept_all]. rewrite Ha.
    assert (pending limits [c] = [cu_msg c]) as Hc
      by (unfold pending; by rewrite filter_cons_True by lia).
    destruct (Z.eqb_spec (cu_next c + 1) (frame_count limits (cu_msg c))) as [Heq|Hne].
    + assert (pending limits [advance c] = []) as Hc'
        by (unfold pending; rewrite filter_cons_False by (simpl; lia); done).
      rewrite Hrun. exists r2, (cu_msg c :: out). split_and!; [done| |done|done].
      by rewrite Hpend, Hc, Hout, Hc'.
    + assert (pending limits [advance c] = [cu_msg c]) as Hc'
        by (unfold pending; rewrite filter_cons_True by (simpl; lia); done).
      exists r2, out. split_and!; [done| |done|done]. by rewrite Hpend, Hc, Hout, Hc'.
Qed.

Lemma accept_all_wf r fs r' out res :
  reader_wf r → accept_all r fs = (r', out, res) →
  reader_wf r' ∧ rd_limits r' = rd_limits r.
Proof.
  revert r r' out res. induction fs as [|f fs IH]; intros r r' out res Hr H.
  - by injection H as <- <- <-.
  - cbn [accept_all] in H. destruct (accept r _ _ _) as [r1 res1] eqn:Ha.
    destruct (accept_wf _ _ _ _ _ _ Hr Ha) as [Hr1 Hl1].
    destruct res1 as [[m|]|e].
    + destruct (accept_all r1 fs) as [[r2 ms] res2] eqn:Hrest.
      destruct (IH _ _ _ _ Hr1 Hrest) as [? ?]. injection H as <- <- <-. split; [done|congruence].
    + destruct (IH _ _ _ _ Hr1 H) as [? ?]. split; [done|congruence].
    + by injection H as <- <- <-.
Qed.

(** The digest of every delivered message is that of its declared header, and its
    size the declared total. *)
Lemma accept_delivers r kind hd payload r' m :
  reader_wf r → accept r kind hd payload = (r', Ok (Some m)) →
  ∃ h, parse_header (rd_limits r) hd = Ok h ∧ m_kind m = kind ∧
       sha256_hex (m_payload m) = h_digest h ∧
       Z.of_nat (length (m_payload m)) = h_total h.
Proof.
  intros Hr. unfold accept.
  destruct (parse_header (rd_limits r) hd) as [h|]; [|done].
  destruct (find_chunks r kind h) as [[st r1]|] eqn:F; [|done].
  destruct (find_chunks_wf r kind h st r1 Hr F) as (Hr1 & Hst & Hg & Hl).
  assert (ck_digest st = h_digest h ∧ ck_total st = h_total h) as [Hd Ht].
  { revert F. unfold find_chunks. destruct (dict_get (rd_messages r) (h_id h)) as [st0|].
    - intros F. res_inv. zbool. by split; [eapply bool_decide_eq_true|].
    - destruct (h_control h); try done. intros F. by res_inv. }
  repeat (case_match; try done). intros [= <- <-]. exists h. split_and!; try done.
  - simpl in *. res_inv. rewrite <- Hd. by eapply bool_decide_eq_true.
  - simpl in *. res_inv. zbool. rewrite <- Ht. destruct (add_part_wf st payload Hst) as [Hrec _].
    simpl in Hrec. lia.
Qed.
End Reader.

(** ** Properties *)


(** Two messages on a connection with two-byte frames. *)
Definition demo_sha (_ : bytes) : pystr := zeros 64.
Definition demo_limits : RemoteLimits :=
  {| default_remote_limits with
       max_frame_payload_bytes := 2; max_message_bytes := 512;
       max_invocation_bytes := 512; max_result_bytes := 512 |}.

Lemma demo_limits_ok : limits_ok demo_limits.
Proof. split; try (by vm_compute); by repeat constructor. Qed.
Definition demo_a : cursor := mkCursor (py "a") (mkMessage SUBMIT [] [x01; x02; x03]) 0.
Definition demo_b : cursor := mkCursor (py "b") (mkMessage PING [] []) 0.
Definition demo_frame (c : cursor) (n : Z) : wire_frame :=
  sent_frame demo_sha demo_limits (cu_id c) (cu_msg c)
    (frame_count demo_limits (cu_msg c)) n.


(** ** What [send_message] writes *)
Section Sender.
Context {J : JsonText} (sha256_hex : bytes → pystr).

(** The bound every frame meets, and the prefix that announces it. *)
Record frame_ok (limits : RemoteLimits) (kind : MessageType) (count : Z) (f : frame)
    : Prop := {
  fo_prefix : unpack_prefix (fr_prefix f)
    = Ok (mkPrefix MAGIC MAJOR MINOR (kind_code kind)
            (if count >? 1 then FLAG_CHUNKED else 0)
            (Z.of_nat (length (fr_control f))) (Z.of_nat (length (fr_chunk f))));
  fo_prefix_size : Z.of_nat (length (fr_prefix f)) = PREFIX_SIZE;
  fo_control : Z.of_nat (length (fr_control f)) ≤ max_control_bytes limits;
  fo_chunk : Z.of_nat (length (fr_chunk f)) ≤ max_frame_payload_bytes limits }.

Lemma json_dumps_bound d limits b :
  json_dumps d limits = Ok b →
  b = ascii_encode (json_text (PDict d)) ∧
  Z.of_nat (length b) ≤ max_control_bytes limits.
Proof.
  unfold json_dumps. intros (? & _ & Hd)%bind_Ok. apply bind_Ok in Hd as (? & Hb & [= <-]).
  apply raise_if_Ok in Hb. by zbool.
Qed.

Lemma message_chunk_count_Ok n limits c :
  message_chunk_count n limits = Ok c →
  c = Z.max 1 ((n + max_frame_payload_bytes limits - 1) / max_frame_payload_bytes limits).
Proof.
  unfold message_chunk_count. intros (? & _ & H)%bind_Ok. by apply bind_Ok in H as (? & _ & [= <-]).
Qed.

Lemma message_frame_ok limits m id digest count i f :
  0 < max_frame_payload_bytes limits →
  message_frame m limits id digest count i = Ok f →
  frame_ok limits (m_kind m) count f ∧
  fr_chunk f = chunk_of (m_payload m) (max_frame_payload_bytes limits) i ∧
  fr_control f = ascii_encode (json_text (PDict
    (frame_header id i count (Z.of_nat (length (m_payload m))) digest
       (if i =? 0 then PDict (m_control m) else PNone)))).
Proof.
  intros Hs. unfold message_frame. intros H. apply bind_Ok in H as (c & Hc & H).
  apply bind_Ok in H as (p & Hp & [= <-]). apply json_dumps_bound in Hc as [-> Hb].
  destruct (unpack_pack _ _ _ _ _ _ _ Hp) as [Hu Hl]. split; [|done].
  split; try done. simpl. unfold chunk_of. rewrite length_take. lia.
Qed.

Lemma message_frames_ok limits m id digest count is_ fs :
  0 < max_frame_payload_bytes limits →
  message_frames m limits id digest count is_ = (fs, Ok tt) →
  Forall2 (λ i f, frame_ok limits (m_kind m) count f ∧
                  fr_chunk f = chunk_of (m_payload m) (max_frame_payload_bytes limits) i ∧
                  fr_control f = ascii_encode (json_text (PDict
                    (frame_header id i count (Z.of_nat (length (m_payload m))) digest
                       (if i =? 0 then PDict (m_control m) else PNone))))) is_ fs.
Proof.
  intros Hs. revert fs. induction is_ as [|i is_ IH]; intros fs H.
  - injection H as <-. constructor.
  - cbn [message_frames] in H. destruct (message_frame _ _ _ _ _ _) as [f|] eqn:Hf; [|done].
    destruct (message_frames _ _ _ _ _ is_) as [fs' r] eqn:Hr. injection H as <- ->.
    constructor; [by apply message_frame_ok|by apply IH].
Qed.

(** When [send_message] returns, it has written one frame per chunk: the chunks
    put together are the payload, the control headers are the ones a reader expects
    for this message, and every frame is announced by a 16-byte prefix that unpacks
    to its kind and sizes, within the configured bounds. *)
Theorem send_message_writes limits id m fs :
  limits_ok limits →
  send_message sha256_hex id m limits = (fs, Ok tt) →
  concat (fr_chunk <$> fs) = m_payload m ∧
  Forall (frame_ok limits (m_kind m) (frame_count limits m)) fs ∧
  fr_control <$> fs
  = (λ i, ascii_encode (json_text (PDict
       (wf_header (sent_frame sha256_hex limits id m (frame_count limits m) i)))))
    <$> seqZ 0 (frame_count limits m).
Proof.
  intros Hl. unfold send_message.
  assert (Hs : 0 < max_frame_payload_bytes limits).
  { destruct Hl as [Hpos _ _ _ _ _ _ _ _ _].
    do 2 (apply Forall_cons in Hpos as [? Hpos]). done. }
  destruct (message_chunk_count _ _) as [c|] eqn:Hc; [|done].
  apply message_chunk_count_Ok in Hc as ->. fold (frame_count limits m). destruct (frame_count_bounds limits m Hs) as [Hc1 Hc2].
  intros H%message_frames_ok; [|done]. split_and!.
  - transitivity (concat (chunk_of (m_payload m) (max_frame_payload_bytes limits)
                          <$> seqZ 0 (frame_count limits m))).
    + f_equal. clear Hc1 Hc2. induction H as [|i f is_ fs' (_ & Hf & _) _ IH]; [done|].
      csimpl. by rewrite Hf, IH.
    + rewrite concat_chunks by lia. apply take_ge. lia.
  - clear Hc1 Hc2. induction H as [|i f is_ fs' (? & _ & _) _ IH]; by constructor.
  - clear Hc1 Hc2. induction H as [|i f is_ fs' (_ & _ & Hf) _ IH]; [done|].
    csimpl. by rewrite Hf, IH.
Qed.
End Sender.

(** A header text of the right shape: the witness only needs its length. *)
#[local] Instance demo_json : JsonText :=
  {| json_text := λ _, py "{}"; json_value := λ _, Ok (PDict []) |}.

Lemma send_message_writes_witness :
  let m := mkMessage SUBMIT [] [x01; x02; x03] in
  concat (fr_chunk <$> (send_message demo_sha (py "a") m demo_limits).1) = m_payload m.
Proof.
  intros m. destruct (send_message demo_sha (py "a") m demo_limits) as [fs r] eqn:E.
  assert (r = Ok tt) as -> by (vm_compute in E; by injection E).
  exact (proj1 (send_message_writes demo_sha demo_limits (py "a") m fs demo_limits_ok E)).
Defined.

(** Whatever frames a peer sends, the reader never holds more payload than
    [max_message_bytes] nor more incomplete messages than the limit, and its byte
    counter is exactly the payload it holds, also after an exception. *)
Theorem reader_memory_bounded sha256_hex limits fs r out res :
  limits_ok limits →
  accept_all sha256_hex (reader_init limits) fs = (r, out, res) →
  rd_incomplete_bytes r
  = Z.of_nat (length (concat ((λ ic, concat (ck_parts ic.2)) <$> rd_messages r))) ∧
  rd_incomplete_bytes r ≤ max_message_bytes limits ∧
  Z.of_nat (length (rd_messages r)) ≤ max_incomplete_messages limits.
Proof.
  intros Hl H.
  destruct (accept_all_wf _ _ _ _ _ _ (reader_init_wf limits) H) as [[Hd Hc Hb Hbb Hn] Hlim].
  rewrite Hlim in *. simpl in *. destruct Hl as [Hpos _ _ _ _ _ _ _ _ _].
  repeat (apply Forall_cons in Hpos as [? Hpos]).
  split_and!; [|lia|lia]. rewrite Hb. clear - Hd Hc. unfold buffered.
  induction (rd_messages r) as [|[id st] ms IH]; [done|]. csimpl. cbn [foldr concat].
  rewrite length_app, IH.
  - destruct (Hc id st) as [-> _]; [by simpl; rewrite decide_True|]. lia.
  - by apply NoDup_cons in Hd as [].
  - intros id' st' Hg. apply (Hc id'). simpl. case_decide as Hk; [|done]. subst.
    apply NoDup_cons in Hd as [Hni _]. by apply dict_get_Some_key in Hg.
Qed.

Lemma reader_memory_bounded_witness :
  let '(r, _, _) := accept_all (λ _, zeros 64) (reader_init default_remote_limits)
       [mkWire PING (frame_header (py "x") 0 2 9 (zeros 64) (PDict [])) [x01; x02]] in
  rd_incomplete_bytes r ≤ max_message_bytes default_remote_limits ∧
  rd_incomplete_bytes r = 2.
Proof.
  destruct (accept_all _ _ _) as [[r out] res] eqn:E.
  destruct (reader_memory_bounded (λ _, zeros 64) default_remote_limits _ _ _ _
              default_limits_ok E) as (_ & Hb & _).
  split; [exact Hb|]. vm_compute in E. injection E as <- _ _. reflexivity.
Defined.

(** Integrity. Along any run, a delivered payload has the length and the SHA-256
    digest that its frames declared, and the kind of its frames. *)
Theorem delivered_payload_authentic sha256_hex limits fs r out res f r' m :
  accept_all sha256_hex (reader_init limits) fs = (r, out, res) →
  accept sha256_hex r (wf_kind f) (wf_header f) (wf_chunk f) = (r', Ok (Some m)) →
  get (wf_header f) "digest" = PStr (sha256_hex (m_payload m)) ∧
  get (wf_header f) "total" = PInt (Z.of_nat (length (m_payload m))) ∧
  m_kind m = wf_kind f.
Proof.
  intros Hrun Ha.
  destruct (accept_all_wf _ _ _ _ _ _ (reader_init_wf limits) Hrun) as [Hwf _].
  destruct (accept_delivers _ _ _ _ _ _ _ Hwf Ha) as (h & Hp & Hk & Hd & Ht).
  unfold parse_header in Hp. rewrite Hd, Ht.
  apply bind_Ok in Hp as (_ & _ & Hp). destruct (get (wf_header f) "message_id"); try done.
  apply bind_Ok in Hp as (_ & _ & Hp).
  destruct (get (wf_header f) "index"); try done. destruct (get (wf_header f) "count"); try done.
  destruct (get (wf_header f) "total"); try done.
  apply bind_Ok in Hp as (_ & _ & Hp). apply bind_Ok in Hp as (_ & _ & Hp).
  destruct (get (wf_header f) "digest"); try done.
  apply bind_Ok in Hp as (_ & _ & [= <-]). done.
Qed.

Lemma delivered_payload_authentic_witness :
  let f := mkWire PING (frame_header (py "x") 0 1 2 (zeros 64) (PDict [])) [x01; x02] in
  get (wf_header f) "digest" = PStr (zeros 64) ∧
  get (wf_header f) "total" = PInt 2.
Proof.
  pose (m := mkMessage PING [] [x01; x02]).
  destruct (delivered_payload_authentic (λ _, zeros 64) default_remote_limits []
              (reader_init default_remote_limits) [] (Ok tt)
              (mkWire PING (frame_header (py "x") 0 1 2 (zeros 64) (PDict [])) [x01; x02])
              (reader_init default_remote_limits) m) as (H1 & H2 & _);
    [reflexivity|vm_compute; reflexivity|]. split; [exact H1|exact H2].
Defined.
