(* ===== verification/Stream.v ===== *)
(** * Stream: frames over a socket ([remote/_protocol.py], third part)

    [_send_exact], [_recv_exact], [_socket_readable], [_bounded_timeout], the
    socket part of [send_message] and [MessageReader.receive]. The socket, the
    clock and [select] are the world: a function for each call, of the number of
    calls made before, so that a property of every world holds whatever the
    network, the peer and the scheduler do. Bytes that the peer wrote and that
    were not read yet are [wi_in], the bytes written [wi_out]. *)
From S2P Require Import Prelude Errors PyVal Config Protocol Reassembly.

(** ** The world *)

(** What [sock.send] does: it takes some bytes, or the TLS layer wants to wait. *)
Inductive sent := Sent (n : nat) | SSLWantRead | SSLWantWrite | SendFails (e : exn).

Record World := {
  w_clock : nat → pyfloat;               (** [time.monotonic()] *)
  w_select : nat → result exn bool;      (** [select.select] on one socket *)
  w_pending : nat → bool;                (** [sock.pending()]; [false] without TLS *)
  w_recv : nat → result exn nat;         (** how much [recv_into] takes, or its exception *)
  w_send : nat → sent }.

Record Wire := mkWireState {
  wi_in : bytes;
  wi_out : bytes;
  wi_tick : nat;
  wi_allocated : list Z;                 (** the sizes of the buffers made, latest first *)
  wi_reader : MessageReader }.

(** A call on the connection: [None] is a loop that did not end within its fuel. *)
Definition IO (A : Type) : Type := Wire → Wire * option (result exn A).
#[export] Instance IO_ret : MRet IO := λ A a s, (s, Some (Ok a)).
#[export] Instance IO_bind : MBind IO := λ A B f m s,
  match m s with
  | (s', Some (Ok a)) => f a s'
  | (s', Some (Err e)) => (s', Some (Err e))
  | (s', None) => (s', None)
  end.
Definition io_raise {A} (e : exn) : IO A := λ s, (s, Some (Err e)).
Definition io_lift {A} (r : result exn A) : IO A := λ s, (s, Some r).
Definition io_spin {A} : IO A := λ s, (s, None).
Definition io_gets {A} (f : Wire → A) : IO A := λ s, (s, Some (Ok (f s))).
Definition io_modify (f : Wire → Wire) : IO unit := λ s, (f s, Some (Ok tt)).

Definition timeout_error (msg : string) : exn := Raise TimeoutError_ msg.

Definition set_in (b : bytes) (s : Wire) : Wire := {| s with wi_in := b |}.
Definition set_out (b : bytes) (s : Wire) : Wire := {| s with wi_out := b |}.
Definition set_reader (r : MessageReader) (s : Wire) : Wire := {| s with wi_reader := r |}.
Definition add_allocated (z : Z) (s : Wire) : Wire := {| s with wi_allocated := z :: wi_allocated s |}.

(** The number of the call. *)
Definition tick : IO nat := λ s, ({| s with wi_tick := S (wi_tick s) |}, Some (Ok (wi_tick s))).

Section IO.
Context (w : World).

Definition monotonic : IO pyfloat := n ← tick; mret (w_clock w n).
Definition select : IO bool := n ← tick; io_lift (w_select w n).
Definition pending_ : IO bool := n ← tick; mret (w_pending w n).

(** [recv_into(view)] of a nonempty view: blocks until there is something, takes at least a
    byte and at most what fits, and returns 0 at the end of the stream. *)
Definition recv_into (room : nat) : IO bytes :=
  n ← tick;
  k ← io_lift (w_recv w n);
  b ← io_gets wi_in;
  let k := Nat.max 1 (k `min` room) in
  _ ← io_modify (set_in (drop k b));
  mret (take k b).

(** [send(view)]: the number of bytes taken. *)
Definition send_some (view : bytes) : IO sent :=
  n ← tick;
  match w_send w n with
  | Sent k =>
      let k := k `min` length view in
      _ ← io_modify (λ s, set_out (wi_out s ++ take k view) s);
      mret (Sent k)
  | a => mret a
  end%nat.

(** [deadline - time.monotonic()]. *)
Definition remaining_until (deadline : pyfloat) : IO pyfloat := t ← monotonic; mret (fsub deadline t).

Definition bounded_timeout (timeout : pyfloat) (deadline : option pyfloat) : IO pyfloat :=
  match deadline with
  | None => mret timeout
  | Some d =>
      remaining ← remaining_until d;
      if SFleb remaining fzero then io_raise (timeout_error "remote handshake timed out")
      else mret (fmin timeout remaining)
  end.

Definition socket_readable : IO bool :=
  p ← pending_; if (p : bool) then mret true else select.

(** The loop of [_send_exact]: [rest] is [view[sent:]]. *)
Fixpoint send_loop (fuel : nat) (deadline : pyfloat) (rest : bytes) : IO unit :=
  match rest with
  | [] => mret tt
  | _ :: _ =>
      match fuel with
      | O => io_spin
      | S fuel' =>
          remaining ← remaining_until deadline;
          if SFleb remaining fzero then io_raise (timeout_error "remote frame write timed out")
          else
            writable ← select;
            if negb writable then io_raise (timeout_error "remote frame write timed out")
            else
              answer ← send_some rest;
              match answer with
              | Sent O => io_raise (Raise EOFError "connection closed during frame write")
              | Sent n => send_loop fuel' deadline (drop n rest)
              | SSLWantRead =>
                  readable ← select;
                  if negb readable then io_raise (timeout_error "remote TLS frame write timed out")
                  else send_loop fuel' deadline rest
              | SSLWantWrite => send_loop fuel' deadline rest
              | SendFails e => io_raise e
              end
      end
  end.

Definition send_exact (fuel : nat) (data : bytes) (timeout : pyfloat) : IO unit :=
  t ← monotonic; send_loop fuel (fadd t timeout) data.

(** The wait before a [recv_into]: none for the first bytes of an idle connection; the deadline
    starts with the first wait. *)
Definition recv_wait (timeout : pyfloat) (idle : bool) (deadline : option pyfloat) : IO (option pyfloat) :=
  if idle then mret deadline
  else
    d ← match deadline with
        | Some d => mret d
        | None => t ← monotonic; mret (fadd t timeout)
        end;
    remaining ← remaining_until d;
    if SFleb remaining fzero then io_raise (timeout_error "partial remote frame timed out")
    else
      readable ← socket_readable;
      if negb readable then io_raise (timeout_error "partial remote frame timed out")
      else mret (Some d).

(** The loop of [_recv_exact]: [received] is what the buffer holds, [missing] the bytes it
    lacks; every turn receives at least one. *)
Fixpoint recv_loop (fuel : nat) (timeout : pyfloat) (allow_idle : bool) (deadline : option pyfloat)
    (received : bytes) (missing : nat) : IO bytes :=
  match missing with
  | O => mret received
  | S _ =>
      match fuel with
      | O => io_spin
      | S fuel' =>
          deadline ← recv_wait timeout (allow_idle && bool_decide (received = [])) deadline;
          chunk ← recv_into missing;
          match chunk with
          | [] => io_raise (Raise EOFError "connection closed during frame")
          | _ :: _ =>
              deadline ← match deadline with
                         | Some d => mret (Some d)
                         | None => t ← monotonic; mret (Some (fadd t timeout))
                         end;
              recv_loop fuel' timeout allow_idle deadline (received ++ chunk) (missing - length chunk)
          end
      end
  end.

Definition recv_exact (size : Z) (timeout : pyfloat) (allow_idle : bool) : IO bytes :=
  _ ← io_modify (add_allocated size);
  recv_loop (Z.to_nat size) timeout allow_idle None [] (Z.to_nat size).

(** ** Messages *)
Context {J : JsonText} (sha256_hex : bytes → pystr).

(** One turn of the loop of [send_message]. *)
Definition send_frame (fuel : nat) (limits : RemoteLimits) (f : frame) : IO unit :=
  _ ← send_exact fuel (fr_prefix f) (partial_frame_timeout limits);
  _ ← send_exact fuel (fr_control f) (partial_frame_timeout limits);
  match fr_chunk f with
  | [] => mret tt
  | _ => send_exact fuel (fr_chunk f) (partial_frame_timeout limits)
  end.

Fixpoint send_frames (fuel : nat) (limits : RemoteLimits) (m : Message) (message_id digest : pystr)
    (count : Z) (indices : list Z) : IO unit :=
  match indices with
  | [] => mret tt
  | i :: rest =>
      f ← io_lift (message_frame m limits message_id digest count i);
      _ ← send_frame fuel limits f;
      send_frames fuel limits m message_id digest count rest
  end.

Definition send_message_on (fuel : nat) (message_id : pystr) (m : Message) (limits : RemoteLimits) : IO unit :=
  count ← io_lift (message_chunk_count (Z.of_nat (length (m_payload m))) limits);
  send_frames fuel limits m message_id (sha256_hex (m_payload m)) count (seqZ 0 count).

(** The checks of [receive] on a prefix. *)
Definition check_prefix (limits : RemoteLimits) (p : prefix) : result exn MessageType :=
  _ ← raise_if (negb (bool_decide (pf_magic p = MAGIC))) (protocol_error "invalid protocol magic");
  _ ← raise_if (negb (pf_major p =? MAJOR) || (pf_minor p >? MINOR)) (protocol_error "unsupported protocol version");
  _ ← raise_if (negb (Z.land (pf_flags p) (Z.lnot FLAG_CHUNKED) =? 0)) (protocol_error "unknown mandatory frame flags");
  _ ← raise_if (pf_control_len p >? max_control_bytes limits) (protocol_error "declared control header is too large");
  _ ← raise_if (pf_payload_len p >? max_frame_payload_bytes limits) (protocol_error "declared frame payload is too large");
  kind_of_code (pf_kind p).

(** [self._accept]. *)
Definition io_accept (kind : MessageType) (hd : pydict) (payload : bytes) : IO (option Message) :=
  λ s, let '(r, res) := accept sha256_hex (wi_reader s) kind hd payload in (set_reader r s, Some res).

(** One turn of the loop of [receive]. *)
Definition receive_frame (deadline : option pyfloat) : IO (option Message) :=
  limits ← io_gets (λ s, rd_limits (wi_reader s));
  timeout ← bounded_timeout (partial_frame_timeout limits) deadline;
  raw ← recv_exact PREFIX_SIZE timeout true;
  p ← io_lift (unpack_prefix raw);
  kind ← io_lift (check_prefix limits p);
  timeout ← bounded_timeout (partial_frame_timeout limits) deadline;
  control ← recv_exact (pf_control_len p) timeout false;
  hd ← io_lift (json_loads control limits);
  timeout ← bounded_timeout (partial_frame_timeout limits) deadline;
  payload ← recv_exact (pf_payload_len p) timeout false;
  io_accept kind hd payload.

(** [MessageReader.receive]. *)
Fixpoint receive_message (fuel : nat) (deadline : option pyfloat) : IO Message :=
  match fuel with
  | O => io_spin
  | S fuel' =>
      complete ← receive_frame deadline;
      match complete with
      | Some m => mret m
      | None => receive_message fuel' deadline
      end
  end.
End IO.
