(* ===== verification/StreamProps.v ===== *)
(** * StreamProps: what crosses a connection

    Every world: the loops end, what is read is what was written, cut at the
    right places, and the errors are the world's own or the protocol's. *)
From S2P Require Import Prelude Errors PyVal PyInt Config Protocol Json JsonProps Reassembly Stream.

(** ** Running a body on the wire *)

Lemma io_bind_inv {A B} (m : IO A) (f : A → IO B) s s' res :
  (m ≫= f) s = (s', res) →
  (∃ s1 a, m s = (s1, Some (Ok a)) ∧ f a s1 = (s', res)) ∨
  (∃ e, m s = (s', Some (Err e)) ∧ res = Some (Err e)) ∨
  (m s = (s', None) ∧ res = None).
Proof.
  unfold mbind, IO_bind. destruct (m s) as [s1 [[a|e]|]]; intros H; simplify_eq; eauto 10.
Qed.

Lemma io_bind_ok {A B} (m : IO A) (f : A → IO B) s s1 a : m s = (s1, Some (Ok a)) → (m ≫= f) s = f a s1.
Proof. unfold mbind, IO_bind. by intros ->. Qed.

(** Only the clock moved. *)
Record still (s s' : Wire) : Prop := {
  st_in : wi_in s' = wi_in s; st_out : wi_out s' = wi_out s;
  st_alloc : wi_allocated s' = wi_allocated s; st_reader : wi_reader s' = wi_reader s }.
#[export] Instance still_preorder : PreOrder still.
Proof. split; [by split|]. intros ??? [] []. by split; etrans. Qed.

Section Wire.
Context (w : World).

(** An exception the world made, or a deadline that passed. *)
Definition fault (e : exn) : Prop :=
  (∃ n, w_select w n = Err e) ∨ (∃ n, w_recv w n = Err e) ∨ (∃ n, w_send w n = SendFails e) ∨
  exn_of e = TimeoutError_.

(** [waits m]: [m] touches nothing but the clock, returns, and raises faults only. *)
Definition waits {A} (m : IO A) : Prop := ∀ s s' res, m s = (s', res) →
  still s s' ∧ match res with None => False | Some (Ok _) => True | Some (Err e) => fault e end.

Lemma waits_ret {A} (a : A) : waits (mret a).
Proof. by intros s s' res [= <- <-]. Qed.
Lemma waits_timeout {A} msg : waits (A := A) (io_raise (timeout_error msg)).
Proof. intros s s' res [= <- <-]. split; [done|]. by right; right; right. Qed.
Lemma waits_bind {A B} (m : IO A) (f : A → IO B) : waits m → (∀ a, waits (f a)) → waits (m ≫= f).
Proof.
  intros Hm Hf s s' res [(s1 & a & E & H)|[(e & E & ->)|[E ->]]]%io_bind_inv; apply Hm in E as [Hs Hr]; [|done|done].
  destruct (Hf _ _ _ _ H) as [Hs' Hr']. split; [by etrans|done].
Qed.
Lemma waits_if {A} (b : bool) (m m' : IO A) : waits m → waits m' → waits (if b then m else m').
Proof. by destruct b. Qed.
Lemma waits_clock : waits (monotonic w).
Proof. by intros s s' res [= <- <-]. Qed.
Lemma waits_pending : waits (pending_ w).
Proof. by intros s s' res [= <- <-]. Qed.
Lemma waits_select : waits (select w).
Proof.
  intros s s' res [= <- <-]. split; [done|]. destruct (w_select w _) eqn:E; [done|]. left. by eexists.
Qed.
#[local] Hint Resolve waits_ret waits_timeout waits_bind waits_if waits_clock waits_pending waits_select : core.

Lemma waits_remaining d : waits (remaining_until w d).
Proof. unfold remaining_until. auto. Qed.
#[local] Hint Resolve waits_remaining : core.
Lemma waits_bounded t d : waits (bounded_timeout w t d).
Proof. unfold bounded_timeout. destruct d; auto. Qed.
Lemma waits_readable : waits (socket_readable w).
Proof. unfold socket_readable. auto. Qed.
#[local] Hint Resolve waits_readable : core.
Lemma waits_recv t idle d : waits (recv_wait w t idle d).
Proof. unfold recv_wait. destruct d; auto 10. Qed.

(** ** Receiving *)

Lemma recv_into_spec room s s' res :
  (0 < room)%nat → recv_into w room s = (s', res) →
  match res with
  | None => False
  | Some (Err e) => still s s' ∧ fault e
  | Some (Ok chunk) => ∃ k, (0 < k ≤ room)%nat ∧ chunk = take k (wi_in s) ∧ wi_in s' = drop k (wi_in s) ∧
      wi_out s' = wi_out s ∧ wi_allocated s' = wi_allocated s ∧ wi_reader s' = wi_reader s
  end.
Proof.
  intros Hroom. unfold recv_into, tick, io_lift, mbind, IO_bind. cbn. destruct (w_recv w (wi_tick s)) as [k|e] eqn:E.
  - intros [= <- <-]. exists (Nat.max 1 (k `min` room)). cbn. split_and!; try done; lia.
  - intros [= <- <-]. split; [done|]. right. left. by eexists.
Qed.

Definition eof (e : exn) : Prop := exn_of e = EOFError.

(** What [_recv_exact] does to the stream, whatever the world: it returns the next bytes, or
    it raises, having taken fewer. *)
Record received_ok (size : nat) (got : bytes) (s s' : Wire) (res : option (result exn bytes)) : Prop := {
  rc_out : wi_out s' = wi_out s;
  rc_alloc : wi_allocated s' = wi_allocated s;
  rc_reader : wi_reader s' = wi_reader s;
  rc_res : match res with
           | None => False
           | Some (Ok d) => (size ≤ length (wi_in s))%nat ∧ d = got ++ take size (wi_in s) ∧
                            wi_in s' = drop size (wi_in s)
           | Some (Err e) => (∃ k, (k < size)%nat ∧ wi_in s' = drop k (wi_in s)) ∧
                             (fault e ∨ eof e ∧ (length (wi_in s) < size)%nat)
           end }.

Lemma received_still size got s s1 s' res :
  still s s1 → received_ok size got s1 s' res → received_ok size got s s' res.
Proof. intros [Hi Ho Ha Hr] [Ho' Ha' Hr' H]. split; try congruence. by rewrite Hi in H. Qed.

Lemma received_error size got s s' e :
  (0 < size)%nat → still s s' → fault e → received_ok size got s s' (Some (Err e)).
Proof. intros Hsz [Hi Ho Ha Hr] He. split; try done. split; [|by left]. exists 0%nat. split; [lia|]. by rewrite Hi. Qed.

Lemma recv_loop_spec fuel missing t idle d got s s' res :
  (missing ≤ fuel)%nat → recv_loop w fuel t idle d got missing s = (s', res) →
  received_ok missing got s s' res.
Proof.
  revert missing d got s. induction fuel as [|fuel IH]; intros missing d got s Hf.
  { assert (missing = 0)%nat as -> by lia. intros [= <- <-]. split; try done. cbn. split; [lia|]. by rewrite app_nil_r. }
  destruct missing as [|missing].
  { intros [= <- <-]. split; try done. cbn. split; [lia|]. by rewrite app_nil_r. }
  cbn [recv_loop]. intros [(s1 & d1 & E & H)|[(e & E & ->)|[E ->]]]%io_bind_inv; apply waits_recv in E as [Hs Hr];
    [|by apply received_error; [lia|..]|done].
  apply (received_still _ _ _ s1); [done|]. clear s Hs Hr d.
  apply io_bind_inv in H as [(s2 & chunk & E & H)|[(e & E & ->)|[E ->]]]; apply recv_into_spec in E; try lia; try done;
    [|by destruct E; apply received_error; [lia|..]].
  destruct E as (k & Hk & -> & Hi & Ho & Ha & Hrd).
  destruct (take k (wi_in s1)) as [|c chunk] eqn:Ec.
  { injection H as <- <-. assert (wi_in s1 = []) as Hnil by (destruct (wi_in s1), k; done || lia).
    split; try done. cbn. split; [exists 0%nat; split; [lia|]; by rewrite Hi, Hnil, drop_nil|].
    right. split; [done|]. rewrite Hnil. cbn. lia. }
  assert (∃ s3 d3, still s2 s3 ∧ recv_loop w fuel t idle d3 (got ++ c :: chunk) (S missing - length (c :: chunk)) s3 = (s', res))
    as (s3 & d3 & [Hi3 Ho3 Ha3 Hr3] & H').
  { destruct d1 as [d1|]; [by exists s2, (Some d1)|]. apply io_bind_inv in H as [(s3 & d3 & E & H)|[(e & E & ->)|[E ->]]].
    - exists s3, d3. split; [|done]. revert E. by intros [= <- <-].
    - done.
    - done. }
  assert (Hlen : length (c :: chunk) = (k `min` length (wi_in s1))%nat) by (rewrite <- Ec; by rewrite length_take).
  assert (Hdrop : wi_in s3 = drop (length (c :: chunk)) (wi_in s1)).
  { rewrite Hi3, Hi, Hlen. destruct (decide (k ≤ length (wi_in s1))%nat); [by rewrite Nat.min_l by lia|].
    rewrite Nat.min_r by lia. by rewrite !drop_ge by lia. }
  assert (Htake : c :: chunk = take (length (c :: chunk)) (wi_in s1)).
  { rewrite Hlen, <- Ec.
    destruct (decide (k ≤ length (wi_in s1))%nat); [by rewrite Nat.min_l by lia|].
    rewrite Nat.min_r by lia. by rewrite !take_ge by lia. }
  set (n := length (c :: chunk)) in *. assert (Hn : (0 < n ≤ S missing)%nat) by (unfold n in *; cbn in *; lia).
  apply IH in H' as [Hb1 Hb2 Hb3 Hb]; [|lia]. split; try congruence.
  rewrite Hdrop in Hb. destruct res as [[b|e]|]; [| |done].
  - destruct Hb as (Hl & -> & Hi'). rewrite length_drop in Hl. split; [lia|]. split.
    + rewrite Htake, <- app_assoc. f_equal.
      rewrite <- (take_drop n (take (S missing) (wi_in s1))), take_take, Nat.min_l by lia. f_equal.
      rewrite skipn_firstn_comm. done.
    + rewrite Hi', drop_drop. f_equal. lia.
  - destruct Hb as [(k' & Hk' & Hi') He]. split.
    + exists (n + k')%nat. split; [lia|]. by rewrite Hi', drop_drop.
    + destruct He as [He|[He Hl]]; [by left|right]. split; [done|]. rewrite length_drop in Hl. lia.
Qed.

Lemma recv_exact_spec size t idle s s' res :
  0 ≤ size → recv_exact w size t idle s = (s', res) →
  received_ok (Z.to_nat size) [] (add_allocated size s) s' res.
Proof. intros _ H. by apply recv_loop_spec in H. Qed.

(** ** Sending *)

Lemma send_some_spec view s s' res :
  send_some w view s = (s', res) →
  match res with
  | Some (Ok (Sent k)) => (k ≤ length view)%nat ∧ wi_out s' = wi_out s ++ take k view ∧ wi_in s' = wi_in s ∧
      wi_reader s' = wi_reader s
  | Some (Ok (SendFails e)) => still s s' ∧ fault e
  | Some (Ok _) => still s s'
  | _ => False
  end.
Proof.
  unfold send_some, tick, mbind, IO_bind. destruct (w_send w (wi_tick s)) as [n| | |e] eqn:Ew; intros [= <- <-].
  - split_and!; [lia|done..].
  - done.
  - done.
  - split; [done|]. right; right; left. by eexists.
Qed.

(** What [_send_exact] puts on the wire: all of it when it returns, else a prefix. *)
Record sent_ok (rest : bytes) (s s' : Wire) (res : option (result exn unit)) : Prop := {
  sn_in : wi_in s' = wi_in s;
  sn_reader : wi_reader s' = wi_reader s;
  sn_out : ∃ k, (k ≤ length rest)%nat ∧ wi_out s' = wi_out s ++ take k rest ∧
    match res with
    | Some (Ok _) => k = length rest
    | Some (Err e) => fault e ∨ eof e
    | None => True
    end }.

Lemma sent_still rest s s1 s' res : still s s1 → sent_ok rest s1 s' res → sent_ok rest s s' res.
Proof. intros [Hi Ho Ha Hr] [Hi' Hr' H]. split; try congruence. by rewrite Ho in H. Qed.

Lemma sent_error rest s s' e : still s s' → fault e ∨ eof e → sent_ok rest s s' (Some (Err e)).
Proof. intros [Hi Ho Ha Hr] He. split; try done. exists 0%nat. rewrite app_nil_r. by split_and!; [lia|..]. Qed.

Lemma timeout_fault msg : fault (timeout_error msg).
Proof. by right; right; right. Qed.

Lemma send_loop_spec fuel d rest s s' res : send_loop w fuel d rest s = (s', res) → sent_ok rest s s' res.
Proof.
  revert rest s. induction fuel as [|fuel IH]; intros rest s; cbn [send_loop]; (destruct rest as [|b rest];
    [by intros [= <- <-]; split; [..|exists 0%nat; rewrite app_nil_r]|]).
  { intros [= <- <-]. split; try done. exists 0%nat. rewrite app_nil_r. by split_and!; [lia|..]. }
  intros [(s1 & r & E & H)|[(e & E & ->)|[E ->]]]%io_bind_inv; apply waits_remaining in E as [Hs1 He];
    [|by apply sent_error; auto|done].
  apply (sent_still _ _ s1); [done|]. clear s Hs1 He. destruct (SFleb r fzero).
  { injection H as <- <-. apply sent_error; [done|]. left. apply timeout_fault. }
  apply io_bind_inv in H as [(s2 & wr & E & H)|[(e & E & ->)|[E ->]]]; apply waits_select in E as [Hs2 He2];
    [|by apply sent_error; auto|done].
  apply (sent_still _ _ s2); [done|]. clear s1 r Hs2 He2. destruct wr; cbn [negb] in H.
  2: { injection H as <- <-. apply sent_error; [done|]. left. apply timeout_fault. }
  apply io_bind_inv in H as [(s3 & a & E & H)|[(e & E & ->)|[E ->]]]; apply send_some_spec in E; [|done..].
  destruct a as [n| | |e].
  - destruct E as (Hn & Ho & Hi & Hr). destruct n as [|n].
    { injection H as <- <-. split; try congruence. exists 0%nat. split_and!; [lia|done|]. by right. }
    apply IH in H as [Hi' Hr' (k & Hk & Ho' & Hres)]. rewrite length_drop in Hk. split; try congruence.
    exists (S n + k)%nat. split_and!; [lia| |].
    + rewrite Ho', Ho, <- app_assoc. f_equal. by rewrite take_take_drop.
    + destruct res as [[?|?]|]; [|done..]. rewrite Hres, length_drop. lia.
  - apply (sent_still _ _ s3); [done|].
    apply io_bind_inv in H as [(s4 & rd & E' & H)|[(e & E' & ->)|[E' ->]]]; apply waits_select in E' as [Hs4 He4];
      [|by apply sent_error; auto|done].
    apply (sent_still _ _ s4); [done|]. destruct rd; cbn [negb] in H; [by apply IH|].
    injection H as <- <-. apply sent_error; [done|]. left. apply timeout_fault.
  - apply (sent_still _ _ s3); [done|]. by apply IH.
  - injection H as <- <-. destruct E. apply sent_error; auto.
Qed.

Lemma send_exact_spec fuel data t s s' res : send_exact w fuel data t s = (s', res) → sent_ok data s s' res.
Proof.
  unfold send_exact. intros [(s1 & r & E & H)|[(e & E & ->)|[E ->]]]%io_bind_inv; apply waits_clock in E as [Hs1 He];
    [|by apply sent_error; auto|done].
  apply (sent_still _ _ s1); [done|]. by eapply send_loop_spec.
Qed.

(** The sender does not spin for ever: every turn reads the clock, so that it ends, one way or
    another, once the clock has passed the deadline. *)
Definition ticked (s : Wire) : Wire := {| s with wi_tick := S (wi_tick s) |}.

Lemma remaining_run d s : remaining_until w d s = (ticked s, Some (Ok (fsub d (w_clock w (wi_tick s))))).
Proof. done. Qed.
Lemma select_run s : select w s = (ticked s, Some (w_select w (wi_tick s))).
Proof. done. Qed.
Lemma send_some_tick view s : wi_tick (send_some w view s).1 = S (wi_tick s).
Proof. unfold send_some, tick, mbind, IO_bind. by destruct (w_send w (wi_tick s)). Qed.

Lemma send_loop_ends fuel d rest s s' :
  (∀ n, (wi_tick s + fuel ≤ n)%nat → SFleb (fsub d (w_clock w n)) fzero = true) →
  send_loop w (S fuel) d rest s = (s', None) → False.
Proof.
  revert rest s. induction fuel as [|fuel IH]; intros rest s Hd; (destruct rest as [|b rest]; [done|]);
    [|remember (S fuel) as f eqn:Ef]; cbn [send_loop]; rewrite (io_bind_ok _ _ _ _ _ (remaining_run _ _)).
  { by rewrite Hd by lia. }
  destruct (SFleb _ fzero); [done|].
  assert (Hnext : ∀ s1 rest1, (wi_tick s < wi_tick s1)%nat → send_loop w f d rest1 s1 = (s', None) → False).
  { intros s1 rest1 Ht. apply IH. intros n Hn. apply Hd. lia. }
  intros [(s2 & wr & E & H)|[(e & E & [=])|[E _]]]%io_bind_inv; [|by rewrite select_run in E].
  rewrite select_run in E. injection E as <- Ew. destruct wr; [cbn [negb] in H|done].
  apply io_bind_inv in H as [(s3 & a & E & H)|[(e & E & [=])|[E _]]]; [|by apply send_some_spec in E].
  pose proof (send_some_tick (b :: rest) (ticked (ticked s))) as Ht. rewrite E in Ht. cbn in Ht.
  destruct a as [[|n]| | |e].
  - done.
  - apply Hnext in H; [done|lia].
  - apply io_bind_inv in H as [(s4 & rd & E' & H)|[(e & E' & [=])|[E' _]]]; [|by rewrite select_run in E'].
    rewrite select_run in E'. injection E' as <- _. destruct rd; [cbn [negb] in H|done].
    apply Hnext in H; [done|cbn; lia].
  - apply Hnext in H; [done|lia].
  - done.
Qed.

(** ** What a peer can do to a reader *)

Context {F : FloatText} (sha256_hex : bytes → pystr) (limits : RemoteLimits).

(** [_accept] raises protocol errors only. *)
#[local] Ltac protocol_raises :=
  repeat first [apply raises_ok | by apply raises_err
               | (apply raises_bind; [by apply raise_if_raises|intros _ _]) | case_match].

Lemma accept_raises r kind hd payload :
  raises (λ e, exn_of e = RemoteProtocolError) (accept sha256_hex r kind hd payload).2.
Proof.
  assert (Hp : raises (λ e, exn_of e = RemoteProtocolError) (parse_header (rd_limits r) hd))
    by (unfold parse_header; protocol_raises).
  assert (Hf : ∀ h, raises (λ e, exn_of e = RemoteProtocolError) (find_chunks r kind h))
    by (intros h; unfold find_chunks; protocol_raises).
  unfold accept. destruct (parse_header _ _) as [h|e]; [|by apply raises_err, Hp].
  specialize (Hf h). destruct (find_chunks _ _ _) as [[st r1]|e]; [|by apply raises_err, Hf]. protocol_raises.
Qed.

(** The largest buffer a frame needs. *)
Definition frame_buffer : Z := Z.max PREFIX_SIZE (Z.max (max_control_bytes limits) (max_frame_payload_bytes limits)).

(** The exceptions [receive] may raise: the world's, the end of the stream, the protocol's. *)
Definition peer_error (e : exn) : Prop := fault e ∨ eof e ∨ header_error e.

(** What a step of the reader may change: it consumes input and makes bounded buffers. *)
Record reads_on (s s' : Wire) : Prop := {
  ro_in : ∃ k, wi_in s' = drop k (wi_in s);
  ro_out : wi_out s' = wi_out s;
  ro_alloc : ∃ zs, wi_allocated s' = zs ++ wi_allocated s ∧ Forall (λ z, z ≤ frame_buffer) zs;
  ro_limits : rd_limits (wi_reader s') = rd_limits (wi_reader s);
  ro_wf : reader_wf (wi_reader s) → reader_wf (wi_reader s') }.

#[local] Instance reads_on_preorder : PreOrder reads_on.
Proof.
  split.
  - intros s. split; try done; [by exists 0%nat|by exists []].
  - intros s1 s2 s3 [(k1 & H1) Ho1 (z1 & Ha1 & Hz1) Hl1 Hw1] [(k2 & H2) Ho2 (z2 & Ha2 & Hz2) Hl2 Hw2].
    split; [|congruence| |congruence|auto].
    + exists (k1 + k2)%nat. by rewrite H2, H1, drop_drop.
    + exists (z2 ++ z1). rewrite Ha2, Ha1, app_assoc. split; [done|]. by apply Forall_app.
Qed.

Lemma still_reads s s' : still s s' → reads_on s s'.
Proof.
  intros [Hi Ho Ha Hr]. split; try done; [exists 0%nat; by rewrite Hi|exists []; by rewrite Ha|by rewrite Hr|by rewrite Hr].
Qed.

Definition ready (s : Wire) : Prop := rd_limits (wi_reader s) = limits ∧ reader_wf (wi_reader s).
Lemma reads_ready s s' : reads_on s s' → ready s → ready s'.
Proof. intros H [Hl Hw]. split; [by rewrite (ro_limits _ _ H)|by apply (ro_wf _ _ H)]. Qed.
(** [careful n m]: [m] returns, stays within the bounds, raises peer errors only, and has taken
    at least [n] bytes when it returns a value. *)
Definition careful {A} (n : nat) (m : IO A) : Prop := ∀ s s' res,
  ready s → m s = (s', res) →
  reads_on s s' ∧
  match res with
  | None => False
  | Some (Ok _) => (length (wi_in s') + n ≤ length (wi_in s))%nat
  | Some (Err e) => peer_error e
  end.

Lemma careful_waits {A} (m : IO A) : waits m → careful 0 m.
Proof.
  intros Hm s s' res _ H. apply Hm in H as [Hs Hr]. split; [by apply still_reads|].
  destruct res as [[?|?]|]; [by rewrite (st_in _ _ Hs); lia|by left|done].
Qed.
Lemma careful_bind {A B} n1 n2 (m : IO A) (f : A → IO B) :
  careful n1 m → (∀ a, careful n2 (f a)) → careful (n1 + n2) (m ≫= f).
Proof.
  intros Hm Hf s s' res Hl [(s1 & a & E & H)|[(e & E & ->)|[E ->]]]%io_bind_inv; apply Hm in E as [Hs Hr]; try done.
  apply Hf in H as [Hs' Hr']; [|by eapply reads_ready]. split; [by etrans|].
  destruct res as [[?|?]|]; [lia|done..].
Qed.
Lemma careful_lift {A B} n (r : result exn A) (f : A → IO B) :
  raises peer_error r → (∀ a, r = Ok a → careful n (f a)) → careful n (io_lift r ≫= f).
Proof.
  intros Hr Hf s s' res Hl. destruct r as [a|e]; [by apply Hf|]. intros [= <- <-]. split; [done|by apply Hr].
Qed.

Lemma careful_recv_bind {A} n size t idle (f : bytes → IO A) :
  0 ≤ size ≤ frame_buffer → (∀ d, Z.of_nat (length d) = size → careful n (f d)) →
  careful (Z.to_nat size + n) (recv_exact w size t idle ≫= f).
Proof.
  intros Hsz Hf.
  assert (Hrecv : ∀ s s' res, ready s → recv_exact w size t idle s = (s', res) →
    reads_on s s' ∧ match res with
                    | None => False
                    | Some (Ok d) => Z.of_nat (length d) = size ∧ (length (wi_in s') + Z.to_nat size ≤ length (wi_in s))%nat
                    | Some (Err e) => peer_error e
                    end).
  { intros s s' res Hl H. apply recv_exact_spec in H as [Ho Ha Hr H]; [|lia]. split.
    - split; [|done| |by rewrite Hr|by rewrite Hr].
      + destruct res as [[d|e]|]; [|by destruct H as [(k & _ & ?) _]; exists k|done]. destruct H as (_ & _ & ?). by eexists.
      + exists [size]. split; [done|]. constructor; [lia|done].
    - destruct res as [[d|e]|]; [| |done].
      + destruct H as (Hlen & -> & ->). cbn [app]. cbn in Hlen |- *. rewrite length_take, length_drop. lia.
      + destruct H as [_ [He|[He _]]]; [by left|by right; left]. }
  intros s s' res Hl [(s1 & d & E & H)|[(e & E & ->)|[E ->]]]%io_bind_inv;
    destruct (Hrecv _ _ _ Hl E) as [Hs Hr]; try done. destruct Hr as [Hd Hlen].
  apply Hf in H as [Hs' Hr']; [|done|by eapply reads_ready]. split; [by etrans|].
  destruct res as [[?|?]|]; [lia|done..].
Qed.

Lemma careful_weaken {A} n n' (m : IO A) : careful n' m → (n ≤ n')%nat → careful n m.
Proof.
  intros Hm Hn s s' res Hr H. destruct (Hm _ _ _ Hr H) as [Hs Hres]. split; [done|].
  destruct res as [[?|?]|]; [lia|done..].
Qed.

Lemma prefix_lengths raw p :
  unpack_prefix raw = Ok p → 0 ≤ pf_control_len p ∧ 0 ≤ pf_payload_len p.
Proof.
  intros H. do 17 (destruct raw as [|? raw]; try done). injection H as <-. cbn. unfold unpack_u32, b2z. lia.
Qed.

Lemma unpack_prefix_ok raw : length raw = 16%nat → is_Ok (unpack_prefix raw) = true.
Proof. intros H. do 17 (destruct raw as [|? raw]; try done). Qed.

Lemma check_prefix_raises p : raises (λ e, exn_of e = RemoteProtocolError) (check_prefix limits p).
Proof.
  unfold check_prefix. repeat (apply raises_bind; [by apply raise_if_raises|intros _ _]).
  unfold kind_of_code. case_match; [by case_match|by apply raises_err].
Qed.

Lemma check_prefix_Ok p kind :
  check_prefix limits p = Ok kind →
  pf_control_len p ≤ max_control_bytes limits ∧ pf_payload_len p ≤ max_frame_payload_bytes limits.
Proof.
  unfold check_prefix. intros H. do 3 apply bind_Ok in H as (_ & _ & H).
  apply bind_Ok in H as (_ & H1%raise_if_Ok & H). apply bind_Ok in H as (_ & H2%raise_if_Ok & _).
  rewrite Z.gtb_ltb, Z.ltb_ge in H1, H2. lia.
Qed.

Lemma careful_accept kind hd payload : careful 0 (io_accept sha256_hex kind hd payload).
Proof.
  intros s s' res [Hl Hw]. unfold io_accept. destruct (accept _ _ _ _ _) as [r res'] eqn:E. intros [= <- <-].
  pose proof (accept_raises (wi_reader s) kind hd payload) as He. rewrite E in He.
  destruct (accept_wf _ _ _ _ _ _ _ Hw E) as [Hw' Hl']. split.
  - split; try done; [by exists 0%nat|by exists []].
  - destruct res' as [?|e]; [by cbn; lia|]. right. right. left. by apply He.
Qed.

(** A turn of [receive]: a frame that was read took its prefix at least. *)
Lemma careful_frame deadline : careful 16 (receive_frame w sha256_hex deadline).
Proof.
  intros s s' res Hready H. unfold receive_frame in H. rewrite (io_bind_ok _ _ s s _ eq_refl) in H.
  rewrite (proj1 Hready) in H. revert Hready H. apply (λ H : careful 16 _, H s s' res).
  apply (careful_bind 0 16); [apply careful_waits, waits_bounded|]. intros t1.
  apply (careful_recv_bind 0); [unfold frame_buffer, PREFIX_SIZE; lia|]. intros raw Hraw.
  apply careful_lift.
  { intros e He. pose proof (unpack_prefix_ok raw) as Hu. rewrite He in Hu. unfold PREFIX_SIZE in Hraw.
    specialize (Hu ltac:(lia)). done. }
  intros p Hp. destruct (prefix_lengths _ _ Hp) as [H1 H2].
  apply careful_lift. { eapply raises_impl; [apply check_prefix_raises|]. intros e He. by right; right; left. }
  intros kind (H3 & H4)%check_prefix_Ok. apply (careful_bind 0 0); [apply careful_waits, waits_bounded|]. intros t2.
  eapply careful_weaken; [|apply Nat.le_0_l].
  apply (careful_recv_bind 0); [unfold frame_buffer; lia|]. intros control _.
  apply careful_lift. { eapply raises_impl; [apply json_loads_raises|]. intros e He. by right; right. }
  intros hd _. apply (careful_bind 0 0); [apply careful_waits, waits_bounded|]. intros t3.
  eapply careful_weaken; [|apply Nat.le_0_l].
  apply (careful_recv_bind 0); [unfold frame_buffer; lia|]. intros payload _. apply careful_accept.
Qed.

Lemma receive_message_spec fuel deadline s s' res :
  ready s → receive_message w sha256_hex fuel deadline s = (s', res) →
  reads_on s s' ∧
  match res with
  | None => (16 * fuel ≤ length (wi_in s))%nat
  | Some (Ok _) => True
  | Some (Err e) => peer_error e
  end.
Proof.
  revert s. induction fuel as [|fuel IH]; intros s Hr; cbn [receive_message].
  { intros [= <- <-]. split; [done|]. lia. }
  intros [(s1 & m & E & H)|[(e & E & ->)|[E ->]]]%io_bind_inv;
    destruct (careful_frame deadline _ _ _ Hr E) as [Hs Hres]; try done.
  destruct m as [m|]; [by injection H as <- <-|].
  apply IH in H as [Hs' Hr']; [|by eapply reads_ready]. split; [by etrans|].
  destruct res as [[?|?]|]; [done..|]. lia.
Qed.

(** ** A message that was sent is the message received *)

(** [tries m s Q]: from [s], [m] ends in a fault of the world or in a state and value of [Q]. *)
Definition tries {A} (m : IO A) (s : Wire) (Q : A → Wire → Prop) : Prop := ∀ s' res, m s = (s', res) →
  (∃ e, res = Some (Err e) ∧ fault e) ∨ (∃ a, res = Some (Ok a) ∧ Q a s').

Lemma tries_bind {A B} (m : IO A) (f : A → IO B) s Q R :
  tries m s Q → (∀ a s1, Q a s1 → tries (f a) s1 R) → tries (m ≫= f) s R.
Proof.
  intros Hm Hf s' res [(s1 & a & E & H)|[(e & E & ->)|[E ->]]]%io_bind_inv;
    destruct (Hm _ _ E) as [(e' & [=] & He)|(a' & [=] & HQ)]; subst.
  - by eapply Hf.
  - left. by eexists.
Qed.
Lemma tries_waits {A} (m : IO A) s : waits m → tries m s (λ _ s', still s s').
Proof.
  intros Hm s' res H. apply Hm in H as [Hs Hr]. destruct res as [[a|e]|]; [right|left|done]; by eexists.
Qed.
Lemma tries_lift {A B} (r : result exn A) a (f : A → IO B) s R :
  r = Ok a → tries (f a) s R → tries (io_lift r ≫= f) s R.
Proof. by intros ->. Qed.

(** Reading what is there. *)
Record past (rest : bytes) (s s' : Wire) : Prop := {
  pa_in : wi_in s' = rest; pa_out : wi_out s' = wi_out s; pa_reader : wi_reader s' = wi_reader s }.

Lemma tries_recv d rest size t idle s :
  wi_in s = d ++ rest → size = Z.of_nat (length d) →
  tries (recv_exact w size t idle) s (λ a s', a = d ∧ past rest s s').
Proof.
  intros Hin -> s' res H. apply recv_exact_spec in H as [Ho _ Hr H]; [|lia]. rewrite Nat2Z.id in H. cbn in *.
  rewrite Hin in H. destruct res as [[b|e]|]; [right|left|done].
  - destruct H as (_ & -> & Hi). rewrite take_app_length in *. rewrite drop_app_length in Hi.
    eexists. split; [done|]. split; [done|]. by split.
  - destruct H as [_ [He|[_ Hl]]]; [by eexists|]. rewrite length_app in Hl. lia.
Qed.

(** The header of a frame, its keys sorted, is read like the header itself. *)
Definition sorted_dict (d : pydict) : pydict := match json_sorted (PDict d) with PDict d' => d' | _ => [] end.
Definition sorted_message (m : Message) : Message := mkMessage (m_kind m) (sorted_dict (m_control m)) (m_payload m).

Lemma sorted_dict_spec d : json_sorted (PDict d) = PDict (sorted_dict d).
Proof. done. Qed.

Lemma parse_sorted l id i c t dg ctl :
  ∃ d', json_sorted (PDict (frame_header id i c t dg ctl)) = PDict d' ∧
    parse_header l d' = parse_header l (frame_header id i c t dg (json_sorted ctl)).
Proof. eexists. split; [reflexivity|]. reflexivity. Qed.

Lemma sound_header id i c t dg ctl : sound ctl → sound (PDict (frame_header id i c t dg ctl)).
Proof.
  intros Hctl. assert (Hk : ∀ v, is_list v = false → is_dict v = false → sound_node v → sound v) by apply sound_leaf.
  intros d v Hs. inversion Hs as [|????? |???? ? Hin Hs'|???? ? Hin Hs']; subst.
  - change (NoDup (PStr <$> [py "message_id"; py "index"; py "count"; py "total"; py "digest"; py "control"])).
    apply NoDup_fmap_2; [by intros ? ? [= ->]|]. by apply (bool_decide_unpack _).
  - repeat (apply elem_of_cons in Hin as [[= -> ->]|Hin]; [revert Hs'; by apply Hk|]).
    by apply elem_of_nil in Hin.
  - repeat (apply elem_of_cons in Hin as [[= -> ->]|Hin]; [revert Hs'; by (apply Hctl || apply Hk)|]).
    by apply elem_of_nil in Hin.
Qed.

Lemma accept_ext r kind hd hd' payload :
  parse_header (rd_limits r) hd = parse_header (rd_limits r) hd' →
  accept sha256_hex r kind hd payload = accept sha256_hex r kind hd' payload.
Proof. unfold accept. by intros ->. Qed.

Lemma past_still rest s s1 s2 : past rest s s1 → still s1 s2 → past rest s s2.
Proof. intros [] []. split; congruence. Qed.
Lemma past_trans rest rest' s s1 s2 : past rest s s1 → past rest' s1 s2 → past rest' s s2.
Proof. intros [] []. split; congruence. Qed.

Lemma kind_of_kind_code k : kind_of_code (kind_code k) = Ok k.
Proof. by destruct k. Qed.

(** One frame: the reader accepts it as if it had been handed over. *)
Lemma tries_frame m id i f rest deadline s r' c :
  0 < max_frame_payload_bytes limits → sound (PDict (m_control m)) →
  message_frame m limits id (sha256_hex (m_payload m)) (frame_count limits m) i = Ok f →
  rd_limits (wi_reader s) = limits → wi_in s = frame_bytes f ++ rest →
  accept sha256_hex (wi_reader s) (m_kind m)
    (wf_header (sent_frame sha256_hex limits id (sorted_message m) (frame_count limits m) i)) (fr_chunk f) = (r', Ok c) →
  tries (receive_frame w sha256_hex deadline) s
    (λ c' s', c' = c ∧ wi_in s' = rest ∧ wi_out s' = wi_out s ∧ wi_reader s' = r').
Proof.
  intros Hsz Hsound Hf Hl Hin Hacc. destruct (message_frame_ok _ _ _ _ _ _ _ Hsz Hf) as ([Hp Hps Hc Hch] & _ & _).
  assert (Hj : json_dumps (frame_header id i (frame_count limits m) (Z.of_nat (length (m_payload m)))
    (sha256_hex (m_payload m)) (if i =? 0 then PDict (m_control m) else PNone)) limits = Ok (fr_control f)).
  { unfold message_frame in Hf. apply bind_Ok in Hf as (ctl & Hd & Hf). by apply bind_Ok in Hf as (? & _ & [= <-]). }
  destruct (header_roundtrip limits _ _ Hj) as (d' & Hd' & Hloads).
  { apply sound_header. destruct (i =? 0); [done|]. by apply sound_leaf. }
  destruct (parse_sorted limits id i (frame_count limits m) (Z.of_nat (length (m_payload m)))
    (sha256_hex (m_payload m)) (if i =? 0 then PDict (m_control m) else PNone)) as (d2 & Hd2 & Hparse).
  assert (d2 = d') as -> by congruence.
  unfold receive_frame.
  assert (Hg : tries (io_gets (λ s, rd_limits (wi_reader s))) s (λ l s1, l = limits ∧ s1 = s)).
  { intros s' res [= <- <-]. right. by eexists. }
  eapply tries_bind; [exact Hg|]. intros ? ? [-> ->]. unfold frame_bytes in Hin. rewrite <- !app_assoc in Hin.
  eapply tries_bind; [apply tries_waits, waits_bounded|]. intros t1 s1 Hs1.
  eapply tries_bind; [eapply tries_recv; [by rewrite (st_in _ _ Hs1), Hin|by rewrite Hps]|]. intros raw s2 [-> Hs2].
  eapply tries_lift; [exact Hp|]. eapply tries_lift.
  { unfold check_prefix. cbn [pf_magic pf_major pf_minor pf_flags pf_control_len pf_payload_len pf_kind].
    rewrite bool_decide_true by done. cbn [negb raise_if mbind result_bind].
    rewrite !raise_if_false; [apply kind_of_kind_code|..]; try done; try (rewrite Z.gtb_ltb, Z.ltb_ge; lia).
    by destruct (_ >? 1). }
  cbn [pf_control_len pf_payload_len].
  eapply tries_bind; [apply tries_waits, waits_bounded|]. intros t2 s3 Hs3.
  eapply tries_bind; [eapply tries_recv; [by rewrite (st_in _ _ Hs3), (pa_in _ _ _ Hs2)|done]|]. intros ctl s4 [-> Hs4].
  eapply tries_lift; [exact Hloads|].
  eapply tries_bind; [apply tries_waits, waits_bounded|]. intros t3 s5 Hs5.
  eapply tries_bind; [eapply tries_recv; [by rewrite (st_in _ _ Hs5), (pa_in _ _ _ Hs4)|done]|]. intros pl s6 [-> Hs6].
  assert (Hr6 : wi_reader s6 = wi_reader s).
  { rewrite (pa_reader _ _ _ Hs6), (st_reader _ _ Hs5), (pa_reader _ _ _ Hs4), (st_reader _ _ Hs3),
      (pa_reader _ _ _ Hs2), (st_reader _ _ Hs1). done. }
  assert (Ho6 : wi_out s6 = wi_out s).
  { rewrite (pa_out _ _ _ Hs6), (st_out _ _ Hs5), (pa_out _ _ _ Hs4), (st_out _ _ Hs3),
      (pa_out _ _ _ Hs2), (st_out _ _ Hs1). done. }
  intros s' res. unfold io_accept. rewrite Hr6.
  rewrite (accept_ext _ _ d' (wf_header (sent_frame sha256_hex limits id (sorted_message m) (frame_count limits m) i))).
  - rewrite Hacc. intros [= <- <-]. right. eexists. split; [done|]. split; [done|]. cbn.
    split; [by rewrite (pa_in _ _ _ Hs6)|done].
  - rewrite Hl, Hparse. cbn [wf_header sent_frame sorted_message m_payload m_control].
    by destruct (i =? 0).
Qed.

(** The frames that are left, and then the message. *)
Lemma tries_message m id fs n rest deadline s fuel :
  let m' := sorted_message m in
  servable sha256_hex limits [mkCursor id m' 0] → sound (PDict (m_control m)) →
  0 ≤ n < frame_count limits m →
  message_frames m limits id (sha256_hex (m_payload m)) (frame_count limits m) (seqZ n (frame_count limits m - n)) = (fs, Ok tt) →
  ready s → rd_messages (wi_reader s) ≡ₚ live sha256_hex limits [mkCursor id m' n] →
  wi_in s = concat (frame_bytes <$> fs) ++ rest → (length fs ≤ fuel)%nat →
  tries (receive_message w sha256_hex fuel deadline) s
    (λ a s', a = m' ∧ wi_in s' = rest ∧ wi_out s' = wi_out s ∧ wi_reader s' = reader_init limits).
Proof.
  intros m' Hsv Hsound. revert fs n s. induction fuel as [|fuel IH]; intros fs n s Hn Hfs [Hl Hw] Hm Hin Hfuel.
  { rewrite seqZ_cons in Hfs by lia. cbn [message_frames] in Hfs. destruct (message_frame _ _ _ _ _ _); [|done].
    destruct (message_frames _ _ _ _ _ _). injection Hfs as <- _. cbn in Hfuel. lia. }
  rewrite seqZ_cons in Hfs by lia. cbn [message_frames] in Hfs.
  destruct (message_frame _ _ _ _ _ n) as [f|] eqn:Hf; [|done].
  destruct (message_frames _ _ _ _ _ (seqZ (Z.succ n) _)) as [fs' r'] eqn:Hfs'. injection Hfs as <- ->.
  cbn [fmap list_fmap concat] in Hin. rewrite <- app_assoc in Hin.
  destruct (message_frame_ok _ _ _ _ _ _ _ (sv_size _ _ _ Hsv) Hf) as (_ & Hchunk & _).
  assert (Hsv' : servable sha256_hex limits [mkCursor id m' n]).
  { destruct Hsv as [? H1 H2 H3 H4]. split; try done. apply Forall_singleton in H2 as (_ & ? & ?).
    apply Forall_singleton. cbn [cu_next cu_id cu_msg] in *. split_and!; [lia|done..]. }
  destruct (accept_sent sha256_hex limits (wi_reader s) (mkCursor id m' n) [] Hl Hw Hsv') as (r & Hacc & Hm');
    [change (n < frame_count limits m); lia|done|].
  cbn [cu_msg cu_id cu_next wf_kind wf_chunk sent_frame m' sorted_message m_kind m_payload] in Hacc.
  cbn [receive_message]. eapply tries_bind.
  { eapply (tries_frame m id n f (concat (frame_bytes <$> fs') ++ rest) deadline s r); try done; [apply (sv_size _ _ _ Hsv)|].
    rewrite Hchunk. exact Hacc. }
  intros c s1 (-> & Hin1 & Ho1 & Hr1). destruct (accept_wf _ _ _ _ _ _ _ Hw Hacc) as [Hw1 Hl1].
  change (frame_count limits (sorted_message m)) with (frame_count limits m) in *.
  change (frame_count limits m') with (frame_count limits m).
  destruct (Z.eqb_spec (n + 1) (frame_count limits m)) as [He|Hne].
  - intros s' res H. injection H as <- <-. right. eexists. split; [done|]. split_and!; [done| |done|].
    + rewrite Hin1. rewrite seqZ_nil in Hfs' by lia. by injection Hfs' as <-.
    + rewrite Hr1. rewrite Hl in Hl1. destruct r as [l ms b]. cbn [rd_limits] in Hl1. subst l. unfold reader_init.
      cbn [rd_messages] in Hm'. assert (ms = []) as ->.
      { apply Permutation_nil_r. rewrite Hm'. unfold live, live1, advance. cbn [fmap list_fmap concat cu_next cu_msg].
        change (frame_count limits m') with (frame_count limits m). by rewrite He, Z.ltb_irrefl, andb_false_r. }
      f_equal. exact (rwf_bytes _ Hw1).
  - intros s' res H. change (Z.succ n) with (n + 1) in Hfs'.
    replace (Z.pred (frame_count limits m - n)) with (frame_count limits m - (n + 1)) in Hfs' by lia.
    eapply (IH fs' (n + 1) s1) in H; try done; [|lia| |by rewrite Hr1|cbn in Hfuel; lia].
    + by rewrite Ho1 in H.
    + split; [by rewrite Hr1, Hl1|by rewrite Hr1].
Qed.

Lemma send_exact_out fuel data t s s' :
  send_exact w fuel data t s = (s', Some (Ok tt)) → wi_out s' = wi_out s ++ data.
Proof. intros H. apply send_exact_spec in H as [_ _ (k & _ & Ho & ->)]. by rewrite firstn_all in Ho. Qed.

Lemma send_frames_out fuel m id digest count is_ s s' :
  send_frames w fuel limits m id digest count is_ s = (s', Some (Ok tt)) →
  ∃ fs, message_frames m limits id digest count is_ = (fs, Ok tt) ∧
        wi_out s' = wi_out s ++ concat (frame_bytes <$> fs).
Proof.
  revert s. induction is_ as [|i is_ IH]; intros s; cbn [send_frames message_frames].
  { intros [= <-]. exists []. split; [done|]. cbn. by rewrite app_nil_r. }
  intros [(s1 & f & E & H)|[(e & _ & [=])|[_ [=]]]]%io_bind_inv.
  unfold io_lift in E. injection E as <- Hf. rewrite Hf.
  apply io_bind_inv in H as [(s2 & [] & E & H)|[(e & _ & [=])|[_ [=]]]].
  apply IH in H as (fs & -> & Ho). exists (f :: fs). split; [done|].
  cbn [fmap list_fmap concat]. rewrite Ho, app_assoc. f_equal.
  unfold send_frame in E. apply io_bind_inv in E as [(s3 & [] & E1 & E)|[(e & _ & [=])|[_ [=]]]].
  apply io_bind_inv in E as [(s4 & [] & E2 & E)|[(e & _ & [=])|[_ [=]]]].
  apply send_exact_out in E1, E2. unfold frame_bytes.
  destruct (fr_chunk f) eqn:Ec; [injection E as <-|apply send_exact_out in E; rewrite E];
    rewrite E2, E1, <- ?app_assoc, ?app_nil_r; done.
Qed.

Lemma send_message_out fuel id m s s' :
  send_message_on w sha256_hex fuel id m limits s = (s', Some (Ok tt)) →
  ∃ fs, send_message sha256_hex id m limits = (fs, Ok tt) ∧ wi_out s' = wi_out s ++ concat (frame_bytes <$> fs).
Proof.
  unfold send_message_on, send_message. intros [(s1 & c & E & H)|[(e & _ & [=])|[_ [=]]]]%io_bind_inv.
  unfold io_lift in E. injection E as <- Hc. rewrite Hc. by apply send_frames_out in H.
Qed.
End Wire.

Lemma message_frames_length {J : JsonText} m limits id digest count is_ fs r :
  message_frames m limits id digest count is_ = (fs, r) → (length fs ≤ length is_)%nat.
Proof.
  revert fs r. induction is_ as [|i is_ IH]; intros fs r; cbn [message_frames]; [by intros [= <- <-]|].
  destruct (message_frame _ _ _ _ _ _); [|intros [= <- <-]; cbn; lia].
  destruct (message_frames _ _ _ _ _ is_) as [fs' r'] eqn:E. intros [= <- <-]. specialize (IH _ _ eq_refl). cbn. lia.
Qed.

Section Props.
Context {F : FloatText} (sha256_hex : bytes → pystr).

(** A message alone on its connection is servable when [send_message] took it. *)
Lemma sendable_servable limits id m fs :
  limits_ok limits → (length id ≤ 64)%nat → length (sha256_hex (m_payload m)) = 64%nat →
  send_message sha256_hex id m limits = (fs, Ok tt) →
  servable sha256_hex limits [mkCursor id (sorted_message m) 0] ∧
  message_frames m limits id (sha256_hex (m_payload m)) (frame_count limits m) (seqZ 0 (frame_count limits m - 0)) = (fs, Ok tt) ∧
  frame_count limits m ≤ max_chunks limits ∧ 0 < frame_count limits m.
Proof.
  intros Hok Hid Hsha. unfold send_message.
  destruct (message_chunk_count _ _) as [c|] eqn:Hc; [|done].
  pose proof (message_chunk_count_Ok _ _ _ Hc) as Hcount.
  change (c = frame_count limits m) in Hcount. subst c. intros Hfs.
  pose proof (lok_positive _ Hok) as Hpos. repeat (apply Forall_cons in Hpos as [? Hpos]).
  destruct (message_chunk_count_spec limits (Z.of_nat (length (m_payload m))) Hok ltac:(lia)) as [Hle Hgt].
  assert (Hsize : Z.of_nat (length (m_payload m)) ≤ max_message_bytes limits).
  { destruct (Z.le_gt_cases (Z.of_nat (length (m_payload m))) (max_message_bytes limits)); [done|].
    rewrite Hgt in Hc by lia. done. }
  destruct (Hle Hsize) as (c & Hc' & Hb & _). rewrite Hc in Hc'. injection Hc' as <-.
  split_and!; [|by rewrite Z.sub_0_r|lia|lia]. split; [done| | | |].
  - apply NoDup_singleton.
  - apply Forall_singleton. split_and!; [done|by split|]. change (frame_count limits m ≤ max_chunks limits). lia.
  - cbn. lia.
  - unfold payload_sum. cbn. lia.
Qed.

(** C33: A message crosses a connection. When [send_message] returns, whatever the sender's
    socket did, a reader that meets the bytes, whatever its own socket, its clock and the
    cutting of the bytes into packets do, either raises what the world made it raise (a failed
    call, a deadline that passed) or returns the message, its control keys sorted, has read
    none of the bytes after it, and holds nothing back. *)
Theorem message_crosses limits w1 w2 fuel1 fuel2 id m s1 s1' s2 s2' rest deadline res :
  limits_ok limits → (length id ≤ 64)%nat → length (sha256_hex (m_payload m)) = 64%nat →
  sound (PDict (m_control m)) →
  send_message_on w1 sha256_hex fuel1 id m limits s1 = (s1', Some (Ok tt)) → wi_out s1 = [] →
  wi_in s2 = wi_out s1' ++ rest → wi_reader s2 = reader_init limits → max_chunks limits ≤ Z.of_nat fuel2 →
  receive_message w2 sha256_hex fuel2 deadline s2 = (s2', res) →
  (∃ e, res = Some (Err e) ∧ fault w2 e) ∨
  (res = Some (Ok (sorted_message m)) ∧ wi_in s2' = rest ∧ wi_reader s2' = reader_init limits).
Proof.
  intros Hok Hid Hsha Hsound Hsend Ho Hin Hr Hfuel Hrecv.
  apply send_message_out in Hsend as (fs & Hfs & Ho'). rewrite Ho in Ho'. rewrite Ho' in Hin. cbn [app] in Hin.
  destruct (sendable_servable limits id m fs Hok Hid Hsha Hfs) as (Hsv & Hfr & Hc1 & Hc2).
  assert (Ht : tries w2 (receive_message w2 sha256_hex fuel2 deadline) s2
    (λ a s', a = sorted_message m ∧ wi_in s' = rest ∧ wi_out s' = wi_out s2 ∧ wi_reader s' = reader_init limits)).
  { apply (tries_message w2 sha256_hex limits m id fs 0); try done.
    - split; rewrite Hr; [done|apply reader_init_wf].
    - rewrite Hr. cbn [rd_messages reader_init]. 
      destruct (live_fresh sha256_hex limits [mkCursor id (sorted_message m) 0] (sv_size _ _ _ Hsv)) as [-> _];
        [by apply Forall_singleton|done].
    - apply message_frames_length in Hfr. rewrite length_seqZ in Hfr. lia. }
  destruct (Ht _ _ Hrecv) as [Hf|(a & -> & -> & Hi & _ & Hr')]; [by left|by right].
Qed.

(** C34: What a peer can do to a reader. Whatever bytes it sends and whatever the world does,
    [receive] returns (with a turn for every sixteen bytes), it never makes a buffer larger
    than the limits allow whatever sizes the peer declares, it never holds more payload than
    [max_message_bytes], and it raises only what the world raised, [EOFError], or one of the
    two classes [_connection_loop] reports to the peer. *)
Theorem receive_contained limits w fuel deadline s s' res :
  limits_ok limits → rd_limits (wi_reader s) = limits → reader_wf (wi_reader s) →
  receive_message w sha256_hex fuel deadline s = (s', res) →
  ((length (wi_in s) < 16 * fuel)%nat → res ≠ None) ∧
  (∃ zs, wi_allocated s' = zs ++ wi_allocated s ∧ Forall (λ z, z ≤ frame_buffer limits) zs) ∧
  rd_incomplete_bytes (wi_reader s') ≤ max_message_bytes limits ∧
  (∀ e, res = Some (Err e) → fault w e ∨ exn_of e = EOFError ∨ exn_of e = RemoteProtocolError ∨ exn_of e = UnicodeEncodeError).
Proof.
  intros Hok Hl Hw H.
  destruct (receive_message_spec w sha256_hex limits fuel deadline s s' res (conj Hl Hw) H) as [Hro Hres].
  pose proof (lok_positive _ Hok) as Hpos. repeat (apply Forall_cons in Hpos as [? Hpos]).
  split_and!.
  - intros Hlen ->. lia.
  - apply Hro.
  - destruct (ro_wf _ _ _ Hro Hw) as [_ _ _ Hb _]. rewrite (ro_limits _ _ _ Hro), Hl in Hb. lia.
  - by intros e ->.
Qed.
End Props.

(** ** A connection in small pieces *)

#[local] Existing Instance JsonDemo.floats.

Module StreamDemo.
(** A TLS sender that wants to wait now and then and takes five bytes at a time. *)
Definition sender : World := {|
  w_clock := λ _, fzero; w_select := λ _, Ok true; w_pending := λ _, false; w_recv := λ _, Ok 1%nat;
  w_send := λ n, if Nat.eqb (n mod 7) 0 then SSLWantRead else if Nat.eqb (n mod 7) 1 then SSLWantWrite else Sent 5 |}.

(** A receiver that gets three bytes at a time. *)
Definition receiver : World := {|
  w_clock := λ _, fzero; w_select := λ _, Ok true; w_pending := λ n, Nat.eqb (n mod 2) 0; w_recv := λ _, Ok 3%nat;
  w_send := λ _, Sent 1 |}.

Definition message : Message := mkMessage SUBMIT JsonDemo.control [x01; x02; x03].
Definition idle : Wire := mkWireState [] [] 0 [] (reader_init demo_limits).
Definition after_send : Wire := (send_message_on sender demo_sha 1000 (py "a") message demo_limits idle).1.
Definition arrived : Wire := {| idle with wi_in := wi_out after_send ++ [x09] |}.
Definition fuel : nat := Z.to_nat (max_chunks demo_limits).
Definition received : Wire * option (result exn Message) := receive_message receiver demo_sha fuel None arrived.
End StreamDemo.

Lemma message_crosses_witness :
  StreamDemo.received.2 = Some (Ok (sorted_message StreamDemo.message)) ∧ wi_in StreamDemo.received.1 = [x09] ∧
  wi_reader StreamDemo.received.1 = reader_init demo_limits.
Proof.
  unfold StreamDemo.received.
  destruct (receive_message StreamDemo.receiver demo_sha StreamDemo.fuel None StreamDemo.arrived) as [s2' res] eqn:E.
  cbn [fst snd].
  destruct (message_crosses demo_sha demo_limits StreamDemo.sender StreamDemo.receiver 1000 StreamDemo.fuel
    (py "a") StreamDemo.message StreamDemo.idle StreamDemo.after_send StreamDemo.arrived s2'
    [x09] None res) as [(e & He & _)|H]; [..|exact H].
  - apply demo_limits_ok.
  - vm_compute; lia.
  - done.
  - apply demo_sound.
  - by vm_compute.
  - done.
  - done.
  - done.
  - unfold StreamDemo.fuel. rewrite Z2Nat.id; [done|by vm_compute].
  - exact E.
  - exfalso. subst res. vm_compute in E. discriminate.
Defined.

(** A peer that announces a payload of four gigabytes. *)
Lemma receive_contained_witness :
  let s := {| StreamDemo.idle with wi_in :=
    MAGIC ++ [x01; x00; x01; x00] ++ [x00; x00; x00; x02] ++ [xff; xff; xff; xff] |} in
  let '(s', res) := receive_message StreamDemo.receiver demo_sha 2 None s in
  res = Some (Err (protocol_error "declared frame payload is too large")) ∧ wi_allocated s' = [PREFIX_SIZE] ∧
  rd_incomplete_bytes (wi_reader s') ≤ max_message_bytes demo_limits.
Proof.
  intros s. destruct (receive_message StreamDemo.receiver demo_sha 2 None s) as [s' res] eqn:E.
  destruct (receive_contained demo_sha demo_limits StreamDemo.receiver 2 None s s' res) as (_ & _ & H & _);
    [apply demo_limits_ok|done|apply reader_init_wf|done|].
  split_and!; [| |exact H]; vm_compute in E; by injection E as <- <-.
Defined.
