(* ===== verification/Transport.v ===== *)
(** * Transport: listeners and their socket files ([remote/_transport.py])

    The file system, the sockets of the process and its umask are one state. Every
    system call is a step at which other processes may first change the files and
    which may fail for reasons of its own: the class [Kernel] says how, per call,
    so that a theorem about every kernel holds under every interleaving with other
    processes and every error. [os_trace] records the calls that matter, the
    latest first. *)
From stdpp Require Import gmap.
From S2P Require Import Prelude Errors StateErr PyVal Config.

(** ** Files and sockets *)

(** What a path names; a symbolic link may or may not lead to something. *)
Inductive file_kind := FSocket | FDir | FLink (resolves_to_dir exists_ : bool) | FOther.
#[export] Instance file_kind_eq_dec : EqDecision file_kind.
Proof. solve_decision. Defined.

(** [st_dev] and [st_ino] together. *)
Notation identity := (Z * Z)%type.

Record entry := mkEntry { e_kind : file_kind; e_id : identity; e_mode : Z; e_uid : Z; e_gid : Z }.
Notation path := pystr.
Notation files := (gmap path entry).

(** A socket of this process: the inode it is bound to, if any, and whether it listens. *)
Record sock := mkSock { so_bound : option identity; so_listening : bool }.

(** The calls the theorems speak of, with what they found. *)
Inductive call :=
  | CLstat (p : path) (found : option entry)
  | CConnect (p : path) (accepted : bool)
  | CUnlink (p : path) (removed : option entry)
  | CBind (p : path) (id : identity)
  | CPoolShutdown.

Record Os := mkOs {
  os_files : files;
  os_socks : gmap nat sock;
  os_next : nat;
  os_umask : Z;
  os_tick : nat;
  os_trace : list call }.

Definition set_files (f : files → files) (s : Os) : Os := {| s with os_files := f (os_files s) |}.
Definition set_socks (f : gmap nat sock → gmap nat sock) (s : Os) : Os := {| s with os_socks := f (os_socks s) |}.
Definition set_umask (m : Z) (s : Os) : Os := {| s with os_umask := m |}.
Definition add_trace (c : call) (s : Os) : Os := {| s with os_trace := c :: os_trace s |}.

(** What the rest of the machine does at the n-th call. *)
Class Kernel := {
  k_other : nat → files → files;          (** other processes, before the call *)
  k_fail : nat → option exn;              (** the call fails *)
  k_fresh : nat → identity;               (** the inode of a new file *)
  k_listens : nat → identity → bool;      (** another process listens on the inode *)
  k_uid : Z; k_gid : Z;
  k_sockname : nat → pystr * Z;
  k_parent : path → path }.               (** [path.parent] *)

(** [try: ... except ...] and [try: ... finally: ...]. *)
Definition catch {S A} (m : ST S A) (h : exn → ST S A) : ST S A := λ s,
  match m s with (s', Err e) => h e s' | r => r end.
Definition finally {S A} (m : ST S A) (f : ST S unit) : ST S A := λ s,
  let '(s1, r) := m s in
  match f s1 with (s2, Ok _) => (s2, r) | (s2, Err e) => (s2, Err e) end.

Section Transport.
Context {K : Kernel}.
Notation M := (ST Os).

(** Entering the kernel: what others did, then perhaps an error. *)
Definition enter : M nat := λ s,
  let n := os_tick s in
  ({| s with os_files := k_other n (os_files s); os_tick := S n |},
   match k_fail n with Some e => Err e | None => Ok n end).

Definition file_at (p : path) : M (option entry) := gets (λ s, os_files s !! p).
Definition not_found : exn := Raise FileNotFoundError "no such file or directory".

(** ** System calls *)

Definition lstat (p : path) : M entry :=
  _ ← enter;
  e ← file_at p;
  _ ← modify (add_trace (CLstat p e));
  match e with Some e => mret e | None => raise not_found end.

(** [path.exists()] follows a link, [path.is_symlink()] does not. *)
Definition exists_path (p : path) : M bool :=
  _ ← enter;
  e ← file_at p;
  mret match e with Some e => match e_kind e with FLink _ b => b | _ => true end | None => false end.
Definition is_symlink (p : path) : M bool :=
  _ ← enter;
  e ← file_at p;
  mret match e with Some e => match e_kind e with FLink _ _ => true | _ => false end | None => false end.

(** [Path.mkdir(mode, parents=True, exist_ok=True)]. *)
Definition mkdir (p : path) (mode : Z) : M unit :=
  n ← enter;
  e ← file_at p;
  match e with
  | Some e =>
      match e_kind e with
      | FDir | FLink true _ => skip
      | _ => raise (Raise FileExistsError "file exists")
      end
  | None =>
      mask ← gets os_umask;
      modify (set_files (<[p := mkEntry FDir (k_fresh n) (Z.land mode (Z.lnot mask)) k_uid k_gid]>))
  end.

Definition unlink (p : path) : M unit :=
  _ ← enter;
  e ← file_at p;
  _ ← modify (add_trace (CUnlink p e));
  match e with
  | None => raise not_found
  | Some e => if bool_decide (e_kind e = FDir) then raise (Raise OSError "is a directory")
              else modify (set_files (delete p))
  end.

Definition update_file (p : path) (f : entry → entry) : M unit :=
  _ ← enter;
  e ← file_at p;
  match e with Some _ => modify (set_files (alter f p)) | None => raise not_found end.
Definition chown (p : path) (uid gid : Z) : M unit :=
  update_file p (λ e, mkEntry (e_kind e) (e_id e) (e_mode e)
    (if uid =? -1 then e_uid e else uid) (if gid =? -1 then e_gid e else gid)).
Definition chmod (p : path) (mode : Z) : M unit :=
  update_file p (λ e, mkEntry (e_kind e) (e_id e) mode (e_uid e) (e_gid e)).

(** [socket.socket()]: a new descriptor. *)
Definition socket : M nat :=
  _ ← enter;
  fd ← gets os_next;
  _ ← modify (λ s, {| s with os_next := S fd; os_socks := <[fd := mkSock None false]> (os_socks s) |});
  mret fd.
(** [sock.close()] gives the descriptor up, also when it raises. *)
Definition close_socket (fd : nat) : M unit := _ ← modify (set_socks (delete fd)); _ ← enter; skip.
(** [settimeout], [setsockopt], a TLS handshake: they may fail and change nothing here. *)
Definition opaque_call : M unit := _ ← enter; skip.

(** Whether something listens on the inode: this process or another. *)
Definition listening (n : nat) (s : Os) (id : identity) : bool :=
  k_listens n id || bool_decide (map_Exists (λ _ k, so_bound k = Some id ∧ so_listening k = true) (os_socks s)).

Definition connect_path (p : path) : M unit :=
  n ← catch enter (λ e, _ ← modify (add_trace (CConnect p false)); raise e);
  s ← gets id;
  let accepted := match os_files s !! p with
                  | Some e => bool_decide (e_kind e = FSocket) && listening n s (e_id e)
                  | None => false
                  end in
  _ ← modify (add_trace (CConnect p accepted));
  if accepted then skip
  else match os_files s !! p with
       | None => raise not_found
       | Some _ => raise (Raise ConnectionRefusedError "connection refused")
       end.

(** [bind] creates the file, with the permissions the umask leaves. *)
Definition bind_path (fd : nat) (p : path) : M unit :=
  n ← enter;
  e ← file_at p;
  match e with
  | Some _ => raise (Raise OSError "address already in use")
  | None =>
      mask ← gets os_umask;
      _ ← modify (set_files (<[p := mkEntry FSocket (k_fresh n) (Z.land 0x1ff (Z.lnot mask)) k_uid k_gid]>));
      _ ← modify (set_socks (alter (λ _, mkSock (Some (k_fresh n)) false) fd));
      modify (add_trace (CBind p (k_fresh n)))
  end.
Definition listen (fd : nat) : M unit :=
  _ ← enter; modify (set_socks (alter (λ k, mkSock (so_bound k) true) fd)).

(** ** The module *)

(** [BoundListener]; the address of a TCP listener is what [getsockname] says. *)
Inductive Listener := OnUnix (c : UnixListener) | OnTcp (c : TcpListener).
Definition optional (l : Listener) : bool := match l with OnUnix c => ul_optional c | OnTcp c => tl_optional c end.
Record BoundListener := mkBound {
  bl_config : Listener; bl_socket : nat; bl_address : path + (pystr * Z); bl_identity : option identity }.

(** [_unlink_if_identity]. *)
Definition unlink_if_identity (p : path) (current : entry) (identity : identity) : M bool :=
  if bool_decide (e_id current = identity) then _ ← unlink p; mret true else mret false.

(** [try: current = path.lstat() except FileNotFoundError: ... else: _unlink_if_identity]. *)
Definition lstat_opt (p : path) : M (option entry) :=
  catch (e ← lstat p; mret (Some e))
    (λ e, if isinstance e FileNotFoundError then mret None else raise e).
Definition unlink_own (p : path) (identity : identity) : M unit :=
  current ← lstat_opt p;
  match (current : option entry) with
  | Some current => _ ← unlink_if_identity p current identity; skip
  | None => skip
  end.

(** [BoundListener.close]. *)
Definition close_listener (b : BoundListener) : M unit :=
  finally (close_socket (bl_socket b))
    match bl_config b, bl_identity b with
    | OnUnix c, Some identity => unlink_own (ul_path c) identity
    | _, _ => skip
    end.

(** [_unix_socket_is_live]. *)
Definition probe_dead (e : exn) : bool :=
  isinstance e ConnectionRefusedError || isinstance e FileNotFoundError || isinstance e TimeoutError_.
Definition unix_socket_is_live (p : path) : M bool :=
  probe ← socket;
  finally
    (catch (_ ← connect_path p; mret true)
       (λ e, if probe_dead e then mret false else raise e))
    (close_socket probe).

Definition address_in_use : exn := Raise OSError "address already in use".

(** The bits [0o022]. *)
Definition group_or_world_writable : Z := 18.

(** [_validate_unix_directory]. *)
Definition validate_unix_directory (p : path) : M unit :=
  info ← lstat p;
  if negb (bool_decide (e_kind info = FDir)) then
    raise (Raise ValueError "Unix socket directory must be a real directory")
  else if negb (Z.land (e_mode info) group_or_world_writable =? 0) then
    raise (Raise PermissionError "Unix socket directory must not be group/world writable")
  else if negb (bool_decide (e_uid info ∈ [0; k_uid])) then
    raise (Raise PermissionError "Unix socket directory has an untrusted owner")
  else skip.

(** The first [if] of [_bind_unix]: what is at the path is removed, or the listener refused. *)
Definition clear_stale (c : UnixListener) : M unit :=
  let p := ul_path c in
  info ← lstat p;
  if negb (bool_decide (e_kind info = FSocket)) then
    raise (Raise ValueError "refusing unexpected Unix socket path type")
  else if negb (bool_decide (ul_stale_policy c = py "force_unlink")) then
    raise (Raise FileExistsError "file exists")
  else
    live ← unix_socket_is_live p;
    if live : bool then raise (Raise OSError "Unix socket is already live")
    else
      live ← unix_socket_is_live p;
      if live : bool then raise address_in_use
      else
        current ← lstat_opt p;
        match (current : option entry) with
        | None => skip
        | Some current =>
            removed ← unlink_if_identity p current (e_id info);
            if removed : bool then skip else raise address_in_use
        end.

(** [with _umask(mask): m]. *)
Definition with_umask {A} (mask : Z) (m : M A) : M A :=
  previous ← gets os_umask;
  _ ← modify (set_umask mask);
  finally m (modify (set_umask previous)).

Definition owner_arg (v : pyval) : Z := match v with PNone => -1 | _ => int_value v end.

(** After the identity is known: ownership, permissions, [listen]. *)
Definition publish_listener (c : UnixListener) (fd : nat) (identity : identity) : M BoundListener :=
  let p := ul_path c in
  _ ← (if is_none (ul_owner_uid c) && is_none (ul_owner_gid c) then skip
       else chown p (owner_arg (ul_owner_uid c)) (owner_arg (ul_owner_gid c)));
  _ ← chmod p (int_value (ul_mode c));
  _ ← listen fd;
  mret (mkBound (OnUnix c) fd (inl p) (Some identity)).

(** The umask [0o077] leaves the owner's permissions. *)
Definition private_umask : Z := 63.
Definition directory_mode : Z := 448.

(** The [try] of [_bind_unix] with its handler: what failed closes the socket, and removes the
    file once its identity is known. *)
Definition bind_at (c : UnixListener) : M BoundListener :=
  let p := ul_path c in
  fd ← socket;
  bound ← catch (_ ← with_umask private_umask (bind_path fd p); lstat p)
            (λ e, _ ← close_socket fd; raise e);
  catch (publish_listener c fd (e_id bound))
    (λ e, _ ← close_socket fd; _ ← unlink_own p (e_id bound); raise e).

Definition bind_unix (c : UnixListener) : M BoundListener :=
  let p := ul_path c in
  _ ← mkdir (k_parent p) directory_mode;
  _ ← validate_unix_directory (k_parent p);
  there ← exists_path p;
  there ← (if there : bool then mret true else is_symlink p);
  _ ← (if there : bool then clear_stale c else skip);
  bind_at c.

(** [_bind_tcp]. *)
Definition bind_tcp (c : TcpListener) : M BoundListener :=
  fd ← socket;
  catch
    (_ ← opaque_call;
     _ ← (if tl_keepalive c then opaque_call else skip);
     _ ← opaque_call;
     _ ← listen fd;
     n ← enter;
     mret (mkBound (OnTcp c) fd (inr (k_sockname n)) None))
    (λ e, _ ← close_socket fd; raise e).

Definition bind_listener (l : Listener) : M BoundListener :=
  match l with OnUnix c => bind_unix c | OnTcp c => bind_tcp c end.

(** [connect_address]; [tls] tells that the address has a context. *)
Definition connect_unix (p : path) : M nat :=
  fd ← socket;
  _ ← opaque_call;
  catch (_ ← connect_path p; mret fd) (λ e, _ ← close_socket fd; raise e).
Definition connect_tcp (tls : bool) : M nat :=
  fd ← socket;
  _ ← catch opaque_call (λ e, _ ← close_socket fd; raise e);
  if tls then catch (_ ← opaque_call; mret fd) (λ e, _ ← close_socket fd; raise e) else mret fd.

(** [accept_socket] and [prepare_accepted_socket]. *)
Definition accept_socket : M nat := socket.
Definition prepare_accepted_socket (b : BoundListener) (fd : nat) : M nat :=
  _ ← opaque_call;
  match bl_config b with
  | OnTcp c => if tl_ssl_context c is Some _
               then catch (_ ← opaque_call; mret fd) (λ e, _ ← close_socket fd; raise e)
               else mret fd
  | _ => mret fd
  end.

(** ** Who is at the other end ([peer_info]) *)

(** What the accepted socket answers; [None] where it has no such option or method. *)
Record PeerAnswers := {
  pa_getsockopt : option (result exn (list Z));
  pa_getpeercert : option (result exn pyval);
  pa_getpeername : result exn pyval }.
Record PeerInfo := mkPeerInfo {
  pi_transport : pystr; pi_address : pyval; pi_uid : option Z; pi_gid : option Z; pi_pid : option Z;
  pi_certificate : pyval }.

(** [struct.unpack("3i", raw)] on a little-endian machine. *)
Definition signed32 (z : Z) : Z := if z <? 2 ^ 31 then z else z - 2 ^ 32.
Definition unpack_3i (raw : list Z) : result exn (Z * Z * Z) :=
  match raw with
  | [a0; a1; a2; a3; b0; b1; b2; b3; c0; c1; c2; c3] =>
      let word x0 x1 x2 x3 := signed32 (x0 + 2 ^ 8 * x1 + 2 ^ 16 * x2 + 2 ^ 24 * x3) in
      Ok (word a0 a1 a2 a3, word b0 b1 b2 b3, word c0 c1 c2 c3)
  | _ => Err (Raise StructError "unpack requires a buffer of 12 bytes")
  end.

Definition peer_info (sock : PeerAnswers) (transport : pystr) : result exn PeerInfo :=
  creds ← match (if bool_decide (transport = py "unix") then pa_getsockopt sock else None) with
          | Some raw => raw ← raw; '(pid, uid, gid) ← unpack_3i raw; Ok (Some pid, Some uid, Some gid)
          | None => Ok (None, None, None)
          end;
  let '(pid, uid, gid) := creds in
  certificate ← match pa_getpeercert sock with
                | Some (Ok c) => Ok (if py_truthy c then c else PNone)
                | Some (Err e) => if isinstance e ValueError || isinstance e OSError then Ok PNone else Err e
                | None => Ok PNone
                end;
  address ← match pa_getpeername sock with
            | Ok a => Ok a
            | Err e => if isinstance e OSError then Ok PNone else Err e
            end;
  Ok (mkPeerInfo transport address uid gid pid certificate).

(** ** The server's listeners ([_initialize], [_discard_startup_resources]) *)

(** The loop over the listeners, and the exception that ended it. *)
Fixpoint bind_loop (ls : list Listener) (bound : list BoundListener) : M (list BoundListener * option exn) :=
  match ls with
  | [] => mret (bound, None)
  | l :: ls' =>
      r ← catch (b ← bind_listener l; mret (inl b)) (λ e, mret (inr e));
      match (r : BoundListener + exn) with
      | inl b => bind_loop ls' (bound ++ [b])
      | inr e => if optional l then bind_loop ls' bound else mret (bound, Some e)
      end
  end.

(** The pool is shut down whether the listeners close or not. *)
Definition pool_shutdown : M unit := _ ← modify (add_trace CPoolShutdown); opaque_call.
Definition discard_startup_resources (bound : list BoundListener) : M unit :=
  _ ← for_each bound (λ b, swallow (close_listener b));
  swallow pool_shutdown.

Definition bind_listeners (ls : list Listener) : M (list BoundListener) :=
  '(bound, failed) ← bind_loop ls [];
  let failed := match failed with
                | Some e => Some e
                | None => if bool_decide (bound = []) then Some (Raise OSError "no listeners could be bound") else None
                end in
  match failed with
  | Some e => _ ← discard_startup_resources bound; raise e
  | None => mret bound
  end.
End Transport.
