(* ===== verification/TransportProps.v ===== *)
(** * TransportProps: descriptors, files and the sockets they belong to

    For every kernel: no descriptor is lost when binding fails, and a file is
    removed only right after it was seen to be the one that is meant. For a machine
    that leaves the files alone: what binding does in each case, and that closing
    undoes it. *)
From stdpp Require Import gmap.
From S2P Require Import Prelude Errors StateErr PyVal Config Transport.

Section Any.
Context {K : Kernel}.

(** ** Descriptors *)

(** The same sockets and the same umask. *)
Record same_fds (s s' : Os) : Prop := { sf_socks : os_socks s' = os_socks s; sf_umask : os_umask s' = os_umask s; sf_next : os_next s' = os_next s }.
#[export] Instance same_fds_preorder : PreOrder same_fds.
Proof. split; [by split|]. intros ??? [] []. by split; etrans. Qed.

(** The same, but for one descriptor. *)
Record but (fd : nat) (s s' : Os) : Prop := {
  bt_socks : delete fd (os_socks s') = delete fd (os_socks s); bt_umask : os_umask s' = os_umask s; bt_next : os_next s' = os_next s }.
#[export] Instance but_preorder fd : PreOrder (but fd).
Proof. split; [by split|]. intros ??? [] []. by split; etrans. Qed.
Lemma same_but fd s s' : same_fds s s' → but fd s s'.
Proof. intros [H ??]. split; [by rewrite H|done|done]. Qed.

Lemma enter_same : respects same_fds enter.
Proof. by intros s. Qed.
Lemma catch_respects {A} (R : Os → Os → Prop) `{!PreOrder R} (m : ST Os A) h :
  respects R m → (∀ e, respects R (h e)) → respects R (catch m h).
Proof.
  intros Hm Hh s. specialize (Hm s). unfold catch. destruct (m s) as [s' [a|e]]; [done|].
  by etrans; [exact Hm|apply Hh].
Qed.
Lemma finally_respects {A} (R : Os → Os → Prop) `{!PreOrder R} (m : ST Os A) f :
  respects R m → respects R f → respects R (finally m f).
Proof.
  intros Hm Hf s. specialize (Hm s). unfold finally. destruct (m s) as [s' r]. specialize (Hf s').
  destruct (f s') as [s2 [?|?]]; by etrans.
Qed.

(** A body of calls that keep the descriptors keeps them: first what is known, then structure. *)
Create HintDb fds.
Ltac same_step :=
  first [solve [auto with fds] | respects_step | apply enter_same | (apply respects_modify; by split)
        | (apply catch_respects; [typeclasses eauto| |intros ?])
        | (apply finally_respects; [typeclasses eauto| |])].
Ltac same := repeat same_step.

Lemma lstat_same p : respects same_fds (lstat p).
Proof. unfold lstat, file_at. same. Qed.
Lemma exists_same p : respects same_fds (exists_path p).
Proof. unfold exists_path, file_at. same. Qed.
Lemma is_symlink_same p : respects same_fds (is_symlink p).
Proof. unfold is_symlink, file_at. same. Qed.
Lemma mkdir_same p mode : respects same_fds (mkdir p mode).
Proof. unfold mkdir, file_at. same. Qed.
Lemma unlink_same p : respects same_fds (unlink p).
Proof. unfold unlink, file_at. same. Qed.
Lemma update_same p f : respects same_fds (update_file p f).
Proof. unfold update_file, file_at. same. Qed.
Lemma opaque_same : respects same_fds opaque_call.
Proof. unfold opaque_call. same. Qed.
Lemma connect_same p : respects same_fds (connect_path p).
Proof. unfold connect_path. same. Qed.
#[local] Hint Resolve lstat_same exists_same is_symlink_same mkdir_same unlink_same update_same opaque_same connect_same : fds.
Lemma lstat_opt_same p : respects same_fds (lstat_opt p).
Proof. unfold lstat_opt. same. Qed.
Lemma unlink_if_same p e i : respects same_fds (unlink_if_identity p e i).
Proof. unfold unlink_if_identity. same. Qed.
#[local] Hint Resolve lstat_opt_same unlink_if_same : fds.
Lemma unlink_own_same p i : respects same_fds (unlink_own p i).
Proof. unfold unlink_own. same. Qed.
Lemma validate_same p : respects same_fds (validate_unix_directory p).
Proof. unfold validate_unix_directory. same. Qed.
#[local] Hint Resolve unlink_own_same validate_same : fds.

(** Descriptors are numbered upwards. *)
Definition fresh_fds (s : Os) : Prop := ∀ fd, (os_next s ≤ fd)%nat → os_socks s !! fd = None.

(** [gives m fd_of]: [m] opens one descriptor and returns it, or none; the umask is kept. *)
Definition gives {A} (m : ST Os A) (fd_of : A → nat) : Prop := ∀ s, fresh_fds s →
  let '(s', r) := m s in
  fresh_fds s' ∧ os_umask s' = os_umask s ∧
  match r with
  | Ok a => os_socks s !! fd_of a = None ∧ delete (fd_of a) (os_socks s') = os_socks s
  | Err _ => os_socks s' = os_socks s
  end.

(** [uses fd m]: [m] touches that descriptor only, and gives it up when it fails. *)
Definition uses {A} (fd : nat) (m : ST Os A) : Prop := ∀ s,
  but fd s (m s).1 ∧ (∀ e, (m s).2 = Err e → os_socks (m s).1 !! fd = None).

Lemma respects_close fd : respects (but fd) (close_socket fd) .
Proof.
  unfold close_socket. same; try (intros s; apply same_but, enter_same).
  apply respects_modify. intros s. split; [|done|done]. cbn. by rewrite delete_delete_eq.
Qed.

Lemma closed_after fd s : os_socks (close_socket fd s).1 !! fd = None.
Proof.
  unfold close_socket, modify, mbind, ST_bind, enter. cbn. destruct (k_fail _); cbn; by rewrite lookup_delete_eq.
Qed.

Lemma same_uses fd {A} (m : ST Os A) : respects same_fds m → respects (but fd) m.
Proof. intros H s. apply same_but, H. Qed.

(** The usual handler: close, perhaps more, and raise again. *)
Lemma uses_catch {A} fd (m : ST Os A) (more : ST Os unit) :
  respects (but fd) m → respects same_fds more →
  uses fd (catch m (λ e, _ ← close_socket fd; _ ← more; raise e)).
Proof.
  intros Hm Hmore s. specialize (Hm s). unfold catch. destruct (m s) as [s1 [a|e]] eqn:E; [by split; [|intros e]|].
  cbn [fst snd] in *. unfold mbind, ST_bind. pose proof (respects_close fd s1) as Hc. pose proof (closed_after fd s1) as Hn.
  destruct (close_socket fd s1) as [s2 [[]|e2]]; cbn [fst snd] in *; [|by split; [etrans|]].
  pose proof (Hmore s2) as H3. destruct (more s2) as [s3 [[]|e3]]; unfold raise; cbn [fst snd] in *;
    (split; [etrans; [exact Hm|]; etrans; [exact Hc|]; by apply same_but|]; intros; by rewrite (sf_socks _ _ H3)).
Qed.

(** [socket()] makes the next descriptor; a body that keeps to it leaves the others alone. *)
Lemma socket_spec s :
  fresh_fds s →
  let '(s1, r) := socket s in
  match r with
  | Ok fd => os_socks s !! fd = None ∧
      ∀ s2, but fd s1 s2 → fresh_fds s2 ∧ os_umask s2 = os_umask s ∧ delete fd (os_socks s2) = os_socks s
  | Err _ => same_fds s s1
  end.
Proof.
  intros Hs. unfold socket, mbind, ST_bind, enter, gets, modify, mret, ST_ret. cbn.
  destruct (k_fail _); [done|]. cbn. assert (Hnone : os_socks s !! os_next s = None) by (apply Hs; lia).
  split; [done|]. intros s2 [Hb Hu Hn]. cbn in *.
  assert (Hd : delete (os_next s) (os_socks s2) = os_socks s) by (rewrite Hb; by rewrite delete_insert_id by done).
  split_and!; [|done|done]. intros fd Hfd. rewrite Hn in Hfd.
  destruct (decide (fd = os_next s)) as [->|Hne]; [lia|].
  assert (Hl : os_socks s !! fd = None) by (apply Hs; lia). rewrite <- Hd in Hl.
  by rewrite lookup_delete_ne in Hl by congruence.
Qed.

Lemma gives_open {A} (m : nat → ST Os A) (fd_of : A → nat) :
  (∀ fd, uses fd (m fd)) → (∀ fd s s' a, m fd s = (s', Ok a) → fd_of a = fd) →
  gives (fd ← socket; m fd) fd_of.
Proof.
  intros Hm Hfd s Hs. pose proof (socket_spec s Hs) as H. unfold mbind, ST_bind.
  destruct (socket s) as [s1 [fd|e]]; [|destruct H as [H1 H2 H3]; cbn [fst]; split_and!; [intros fd; rewrite H1, H3; apply Hs|done|done]].
  destruct H as [Hnone H]. destruct (Hm fd s1) as [Hb He]. destruct (m fd s1) as [s2 r] eqn:E. cbn [fst snd] in *.
  destruct (H s2 Hb) as (Hf & Hu & Hd). split_and!; [done|done|]. destruct r as [a|e].
  - by rewrite (Hfd _ _ _ _ E).
  - rewrite <- Hd. by rewrite delete_id by by eapply He.
Qed.

(** The sockets and the umask are as before, though probes may have come and gone. *)
Definition tidy (s s' : Os) : Prop :=
  fresh_fds s → fresh_fds s' ∧ os_socks s' = os_socks s ∧ os_umask s' = os_umask s.
#[local] Instance tidy_preorder : PreOrder tidy.
Proof.
  split; [by intros s H|]. intros s1 s2 s3 H1 H2 H. destruct (H1 H) as (H3 & ? & ?), (H2 H3) as (? & ? & ?).
  by split_and!; [|etrans..].
Qed.
Lemma same_tidy {A} (m : ST Os A) : respects same_fds m → respects tidy m.
Proof.
  intros Hm s Hs. destruct (Hm s) as [H1 H2 H3]. split_and!; [|done|done]. intros fd. rewrite H1, H3. apply Hs.
Qed.

Lemma gives_seq {A B} (m : ST Os A) (f : A → ST Os B) fd_of :
  respects tidy m → (∀ a, gives (f a) fd_of) → gives (m ≫= f) fd_of.
Proof.
  intros Hm Hf s Hs. unfold mbind, ST_bind. specialize (Hm s Hs). destruct (m s) as [s1 [a|e]]; cbn [fst] in Hm; destruct Hm as (H1 & H2 & H3).
  - specialize (Hf a s1 H1). destruct (f a s1) as [s2 [b|e]]; rewrite H2, H3 in Hf; exact Hf.
  - by split_and!.
Qed.

Lemma uses_bind {A B} fd (m : ST Os A) (f : A → ST Os B) :
  uses fd m → (∀ a, uses fd (f a)) → uses fd (m ≫= f).
Proof.
  intros Hm Hf s. destruct (Hm s) as [H1 H2]. unfold mbind, ST_bind. destruct (m s) as [s1 [a|e]]; cbn [fst snd] in *.
  - destruct (Hf a s1) as [H3 H4]. split; [by etrans|done].
  - split; [done|]. intros e' [= <-]. by apply (H2 e).
Qed.

Lemma uses_catch_close {A} fd (m : ST Os A) :
  respects (but fd) m → uses fd (catch m (λ e, _ ← close_socket fd; raise e)).
Proof.
  intros Hm s. pose proof (uses_catch fd m skip Hm (respects_skip _) s) as H. unfold catch in *.
  destruct (m s) as [s1 [a|e]]; [done|]. revert H. unfold mbind, ST_bind, skip, mret, ST_ret.
  by destruct (close_socket fd s1) as [s2 [[]|e2]].
Qed.

Lemma with_umask_but {A} fd mask (m : ST Os A) : respects (but fd) m → respects (but fd) (with_umask mask m).
Proof.
  intros Hm s. unfold with_umask, finally, gets, modify, mbind, ST_bind. cbn.
  specialize (Hm (set_umask mask s)). destruct (m (set_umask mask s)) as [s1 r]. cbn in *. destruct Hm as [H1 H2 H3].
  by split.
Qed.

Lemma listen_but fd : respects (but fd) (listen fd).
Proof.
  unfold listen. apply respects_bind; [typeclasses eauto|apply same_uses, enter_same|]. intros n.
  apply respects_modify. intros s. split; [|done|done]. cbn. by rewrite delete_alter_eq.
Qed.

Lemma bind_path_but fd p : respects (but fd) (bind_path fd p).
Proof.
  unfold bind_path, file_at. repeat first [solve [apply same_uses, enter_same] | apply listen_but | respects_step];
    apply respects_modify; intros s; split; try done. cbn. by rewrite delete_alter_eq.
Qed.
#[local] Hint Resolve listen_but bind_path_but : fds.

Lemma chown_same p u g : respects same_fds (chown p u g).
Proof. apply update_same. Qed.
Lemma chmod_same p m : respects same_fds (chmod p m).
Proof. apply update_same. Qed.
#[local] Hint Resolve chown_same chmod_same : fds.

Lemma publish_but c fd i : respects (but fd) (publish_listener c fd i).
Proof.
  unfold publish_listener. repeat first [solve [auto with fds] | solve [apply same_uses; auto with fds] | respects_step].
Qed.

Lemma probe_tidy {A} (m : nat → ST Os A) :
  (∀ fd, respects same_fds (m fd)) → respects tidy (fd ← socket; finally (m fd) (close_socket fd)).
Proof.
  intros Hm s Hs. pose proof (socket_spec s Hs) as H. unfold mbind, ST_bind.
  destruct (socket s) as [s1 [fd|e]]; [|destruct H as [H1 H2 H3]; cbn [fst]; split_and!; [intros fd; rewrite H1, H3; apply Hs|done|done]].
  destruct H as [Hnone H]. unfold finally. pose proof (Hm fd s1) as H1. destruct (m fd s1) as [s2 r]. cbn [fst] in H1.
  pose proof (respects_close fd s2) as H2. pose proof (closed_after fd s2) as H3.
  destruct (close_socket fd s2) as [s3 [?|?]]; cbn [fst] in *;
    (destruct (H s3) as (Hf & Hu & Hd); [etrans; [by apply same_but|done]|];
     split_and!; [done| |done]; rewrite <- Hd; by rewrite delete_id).
Qed.

Lemma live_tidy p : respects tidy (unix_socket_is_live p).
Proof. apply (probe_tidy (λ _, catch _ _)). intros _. same. Qed.

Lemma clear_stale_tidy c : respects tidy (clear_stale c).
Proof.
  unfold clear_stale. repeat first [apply live_tidy | solve [apply same_tidy; auto with fds] | respects_step].
Qed.

(** A handler that always raises does not return a value. *)
Definition never {A} (m : ST Os A) : Prop := ∀ s s' a, m s ≠ (s', Ok a).
Lemma never_raise {A} e : never (A := A) (raise e).
Proof. done. Qed.
Lemma never_bind {A B} (m : ST Os A) (f : A → ST Os B) : (∀ a, never (f a)) → never (m ≫= f).
Proof. intros Hf s s' b. unfold mbind, ST_bind. destruct (m s) as [s1 [a|e]]; [apply Hf|done]. Qed.
Lemma catch_Ok {A} (m : ST Os A) h s s' a :
  (∀ e, never (h e)) → catch m h s = (s', Ok a) → m s = (s', Ok a).
Proof. intros Hh. unfold catch. destruct (m s) as [s1 [b|e]]; [done|]. intros H. by apply Hh in H. Qed.
#[local] Hint Resolve never_raise never_bind : fds.
Lemma st_bind_inv {A B} (m : ST Os A) (f : A → ST Os B) s s' b :
  (m ≫= f) s = (s', Ok b) → ∃ s1 a, m s = (s1, Ok a) ∧ f a s1 = (s', Ok b).
Proof. unfold mbind, ST_bind. destruct (m s) as [s1 [a|e]]; [eauto|done]. Qed.

Lemma bind_at_gives c : gives (bind_at c) bl_socket.
Proof.
  unfold bind_at. apply gives_open.
  - intros fd. apply uses_bind.
    + apply uses_catch_close. apply respects_bind; [typeclasses eauto|by apply with_umask_but; auto with fds|].
      intros _. apply same_uses. auto with fds.
    + intros bound. apply (uses_catch fd); [apply publish_but|auto with fds].
  - intros fd s s' b (s1 & bound & _ & H)%st_bind_inv. apply catch_Ok in H; [|auto 6 with fds].
    unfold publish_listener in H. do 3 apply st_bind_inv in H as (? & ? & _ & H). by injection H as _ <-.
Qed.

Lemma bind_tcp_gives c : gives (bind_tcp c) bl_socket.
Proof.
  unfold bind_tcp. apply gives_open.
  - intros fd. apply uses_catch_close.
    repeat first [solve [auto with fds] | solve [apply same_uses; auto with fds] | solve [apply same_uses, enter_same] | respects_step].
  - intros fd s s' b H. apply catch_Ok in H; [|auto 6 with fds].
    do 5 apply st_bind_inv in H as (? & ? & _ & H). by injection H as _ <-.
Qed.

Lemma bind_listener_gives l : gives (bind_listener l) bl_socket.
Proof.
  destruct l as [c|c]; [|apply bind_tcp_gives]. cbn. unfold bind_unix.
  apply gives_seq; [apply same_tidy; apply mkdir_same|intros _].
  apply gives_seq; [apply same_tidy; apply validate_same|intros _].
  apply gives_seq; [apply same_tidy; apply exists_same|intros there].
  apply gives_seq; [destruct there; [apply respects_ret; typeclasses eauto|apply same_tidy; apply is_symlink_same]|intros there'].
  apply gives_seq; [destruct there'; [apply clear_stale_tidy|apply respects_skip; typeclasses eauto]|intros _].
  apply bind_at_gives.
Qed.

(** ** Closing, and a list of listeners *)

Lemma close_listener_but b : respects (but (bl_socket b)) (close_listener b).
Proof.
  unfold close_listener. apply finally_respects; [typeclasses eauto|apply respects_close|].
  apply same_uses. repeat case_match; auto with fds; same.
Qed.

Lemma close_listener_closed b s : os_socks (close_listener b s).1 !! bl_socket b = None.
Proof.
  unfold close_listener, finally. pose proof (closed_after (bl_socket b) s) as Hc.
  destruct (close_socket (bl_socket b) s) as [s1 r]. cbn [fst] in Hc.
  set (f := match bl_config b with OnUnix _ => _ | OnTcp _ => _ end).
  assert (Hf : respects same_fds f) by (unfold f; repeat case_match; auto with fds; same).
  specialize (Hf s1). destruct (f s1) as [s2 [?|?]]; cbn [fst] in *; by rewrite (sf_socks _ _ Hf).
Qed.

(** The sockets of the listeners bound so far, on top of those there were before. *)
Definition closed_all (bs : list BoundListener) (socks : gmap nat sock) : gmap nat sock :=
  foldr (λ b m, delete (bl_socket b) m) socks bs.

Definition holds (socks0 : gmap nat sock) (umask : Z) (bs : list BoundListener) (s : Os) : Prop :=
  fresh_fds s ∧ closed_all bs (os_socks s) = socks0 ∧ os_umask s = umask ∧
  Forall (λ b, socks0 !! bl_socket b = None) bs.

Lemma closed_all_snoc bs b socks : closed_all (bs ++ [b]) socks = closed_all bs (delete (bl_socket b) socks).
Proof. unfold closed_all. by rewrite foldr_app. Qed.

Lemma closed_all_delete bs fd socks : closed_all bs (delete fd socks) = delete fd (closed_all bs socks).
Proof.
  unfold closed_all. induction bs as [|b bs IH]; [done|]. cbn [foldr]. rewrite IH. apply delete_delete.
Qed.

Lemma bind_loop_holds ls bs socks0 umask s s' bs' failed :
  holds socks0 umask bs s → bind_loop ls bs s = (s', Ok (bs', failed)) → holds socks0 umask bs' s'.
Proof.
  revert bs s. induction ls as [|l ls IH]; intros bs s Hh; cbn [bind_loop]; [by intros [= <- <- _]|].
  intros (s1 & r & E & H)%st_bind_inv. destruct Hh as (Hf & Hc & Hu & Hn).
  pose proof (bind_listener_gives l s Hf) as Hg. unfold catch, mbind, ST_bind in E.
  destruct (bind_listener l s) as [s2 [b|e]]; injection E as <- <-; destruct Hg as (Hf2 & Hu2 & Hg).
  - destruct Hg as [Hg1 Hg2]. apply IH in H; [done|]. split_and!; [done| |congruence|].
    + rewrite closed_all_snoc, Hg2. done.
    + apply Forall_app. split; [done|]. apply Forall_singleton. rewrite <- Hc.
      clear -Hg1. induction bs as [|b' bs IH]; [done|]. cbn.
      destruct (decide (bl_socket b' = bl_socket b)) as [->|]; [apply lookup_delete_eq|by rewrite lookup_delete_ne].
  - assert (Hh2 : holds socks0 umask bs s2) by (split_and!; [done|by rewrite Hg|congruence|done]).
    destruct (optional l); [by apply IH in H|]. by injection H as <- <- _.
Qed.

Lemma discard_closes bs socks0 umask s :
  holds socks0 umask bs s → os_socks (discard_startup_resources bs s).1 = socks0 ∧
  os_umask (discard_startup_resources bs s).1 = umask.
Proof.
  intros (_ & Hc & Hu & _).
  assert (Hloop : ∀ bs s, closed_all bs (os_socks s) = socks0 → os_umask s = umask →
    let s' := (for_each bs (λ b, swallow (close_listener b)) s).1 in os_socks s' = socks0 ∧ os_umask s' = umask ∧
    (for_each bs (λ b, swallow (close_listener b)) s).2 = Ok tt).
  { clear. intros bs. induction bs as [|b bs IH]; intros s Hc Hu; [done|].
    cbn [for_each]. unfold mbind, ST_bind, swallow at 1 3 5.
    pose proof (close_listener_but b s) as [Hb1 Hb2 _]. pose proof (close_listener_closed b s) as Hb3.
    apply IH; [|congruence]. change (delete (bl_socket b) (closed_all bs (os_socks s)) = socks0) in Hc. rewrite <- closed_all_delete, <- Hb1 in Hc. by rewrite delete_id in Hc. }
  destruct (Hloop bs s Hc Hu) as (H1 & H2 & H3). unfold discard_startup_resources, mbind, ST_bind.
  destruct (for_each bs _ s) as [s1 r]. cbn in H1, H2, H3. subst r.
  assert (Hp : respects same_fds (swallow pool_shutdown)).
  { unfold pool_shutdown. same. }
  destruct (Hp s1) as [H4 H5 _]. by rewrite H4, H5.
Qed.

Lemma bind_loop_returns ls bs s : ∃ s' x, bind_loop ls bs s = (s', Ok x).
Proof.
  revert bs s. induction ls as [|l ls IH]; intros bs s; cbn [bind_loop]; [by do 2 eexists|].
  unfold catch, mbind, ST_bind, mret, ST_ret. destruct (bind_listener l s) as [s1 [b|e]]; [apply IH|].
  destruct (optional l); [apply IH|]. by do 2 eexists.
Qed.

(** ** What is removed *)

Definition no_unlink (new : list call) : Prop := ∀ q x, CUnlink q x ∉ new.

Lemma no_unlink_nil : no_unlink [].
Proof. intros q x. apply not_elem_of_nil. Qed.
Lemma no_unlink_app l1 l2 : no_unlink l1 → no_unlink l2 → no_unlink (l1 ++ l2).
Proof. intros H1 H2 q x [H|H]%elem_of_app; [by eapply H1|by eapply H2]. Qed.
Lemma no_unlink_one c : (∀ q x, c ≠ CUnlink q x) → no_unlink [c].
Proof. intros H q x Hin%list_elem_of_singleton. by eapply H. Qed.
#[local] Hint Resolve no_unlink_nil no_unlink_app : fds.

Lemma lstat_log p s s' r :
  lstat p s = (s', r) →
  (∃ f, os_trace s' = [CLstat p f] ++ os_trace s ∧ r = match f with Some e => Ok e | None => Err not_found end) ∨
  (os_trace s' = os_trace s ∧ ∃ e, r = Err e).
Proof.
  unfold lstat, file_at, enter, gets, modify, mbind, ST_bind. destruct (k_fail _) as [e|].
  - intros [= <- <-]. right. by split; [|exists e].
  - cbn. destruct (_ !! p) as [e|]; intros [= <- <-]; left; by eexists.
Qed.

Lemma lstat_opt_log p s s' r :
  lstat_opt p s = (s', r) →
  ∃ new, os_trace s' = new ++ os_trace s ∧ no_unlink new ∧ (∀ e, r = Ok (Some e) → new = [CLstat p (Some e)]).
Proof.
  unfold lstat_opt, catch, mbind, ST_bind, mret, ST_ret, raise. destruct (lstat p s) as [s1 r1] eqn:E.
  destruct (lstat_log _ _ _ _ E) as [([e|] & Ht & ->)|[Ht [e ->]]]; intros H.
  - injection H as <- <-. exists [CLstat p (Some e)]. split_and!; [done|by apply no_unlink_one|by intros e' [= <-]].
  - injection H as <- <-. exists [CLstat p None]. split_and!; [done|by apply no_unlink_one|done].
  - exists []. destruct (isinstance e FileNotFoundError); injection H as <- <-; by split_and!; [|auto with fds|].
Qed.

Lemma unlink_log p s s' r :
  unlink p s = (s', r) → (∃ x, os_trace s' = [CUnlink p x] ++ os_trace s) ∨ os_trace s' = os_trace s.
Proof.
  unfold unlink, file_at, enter, gets, modify, raise, mbind, ST_bind. destruct (k_fail _) as [e|].
  - intros [= <- <-]. by right.
  - cbn. intros H. left. exists (k_other (os_tick s) (os_files s) !! p). destruct (_ !! p) as [e|]; [destruct (bool_decide _)|]; by injection H as <- <-.
Qed.

Lemma unlink_if_log p current i s s' r :
  unlink_if_identity p current i s = (s', r) →
  os_trace s' = os_trace s ∨ e_id current = i ∧ ∃ x, os_trace s' = [CUnlink p x] ++ os_trace s.
Proof.
  unfold unlink_if_identity. case_bool_decide as Hi; [|by intros [= <- <-]; left].
  unfold mbind, ST_bind. destruct (unlink p s) as [s1 r1] eqn:E. intros H.
  assert (s1 = s') as -> by (destruct r1; by injection H).
  destruct (unlink_log _ _ _ _ E) as [Hx|Hx]; [by right|by left].
Qed.

Lemma connect_log p s s' r :
  connect_path p s = (s', r) →
  ∃ b, os_trace s' = [CConnect p b] ++ os_trace s ∧ (b = true ↔ r = Ok tt).
Proof.
  unfold connect_path, catch, enter, gets, modify, raise, mbind, ST_bind. cbn. destruct (k_fail _) as [e|].
  - intros [= <- <-]. by exists false.
  - cbn. destruct (match k_other _ _ !! p with Some _ => _ | None => _ end) eqn:Ea.
    + intros [= <- <-]. by exists true.
    + exists false. destruct (k_other _ _ !! p); injection H as <- <-; done.
Qed.

Lemma close_socket_log fd s : os_trace (close_socket fd s).1 = os_trace s.
Proof. unfold close_socket, modify, mbind, ST_bind, enter. cbn. by destruct (k_fail _). Qed.
Lemma socket_log s : os_trace (socket s).1 = os_trace s.
Proof. unfold socket, gets, modify, mbind, ST_bind, enter. cbn. by destruct (k_fail _). Qed.

Lemma live_log p s s' r :
  unix_socket_is_live p s = (s', r) →
  ∃ new, os_trace s' = new ++ os_trace s ∧ no_unlink new ∧ (r = Ok false → new = [CConnect p false]).
Proof.
  unfold unix_socket_is_live. unfold mbind at 1, ST_bind at 1.
  pose proof (socket_log s) as Hs. destruct (socket s) as [s1 [fd|e]]; cbn [fst] in Hs.
  2: { intros [= <- <-]. exists []. by split_and!; [|auto with fds|]. }
  unfold finally, catch, mbind, ST_bind, mret, ST_ret, raise. destruct (connect_path p s1) as [s2 r2] eqn:E.
  destruct (connect_log _ _ _ _ E) as (b & Ht & Hb). intros H. exists [CConnect p b].
  assert (os_trace s' = [CConnect p b] ++ os_trace s ∧ (r = Ok false → r2 ≠ Ok tt)) as [Ht' Hr].
  { pose proof (close_socket_log fd s2) as Hc. rewrite Ht, Hs in Hc.
    destruct r2 as [[]|e]; [|destruct (probe_dead e)]; destruct (close_socket fd s2) as [s3 [[]|e3]];
      injection H as <- <-; by split. }
  split_and!; [done|by apply no_unlink_one|]. intros Hfalse. destruct b; [|done]. by destruct (Hr Hfalse); apply Hb.
Qed.

(** The file that is removed in place of a stale socket. *)
Lemma clear_stale_log c s s' r :
  clear_stale c s = (s', r) →
  ∃ new, os_trace s' = new ++ os_trace s ∧ ∀ q x, CUnlink q x ∈ new →
    ∃ e0 e1, new = [CUnlink q x; CLstat q (Some e1); CConnect q false; CConnect q false; CLstat q (Some e0)] ∧
      q = ul_path c ∧ e_kind e0 = FSocket ∧ e_id e1 = e_id e0 ∧ ul_stale_policy c = py "force_unlink".
Proof.
  unfold clear_stale. unfold mbind at 1, ST_bind at 1. destruct (lstat (ul_path c) s) as [s1 r1] eqn:E1.
  assert (Hno : ∀ new : list call, no_unlink new → ∀ q x, CUnlink q x ∈ new → ∃ e0 e1,
    new = [CUnlink q x; CLstat q (Some e1); CConnect q false; CConnect q false; CLstat q (Some e0)] ∧
      q = ul_path c ∧ e_kind e0 = FSocket ∧ e_id e1 = e_id e0 ∧ ul_stale_policy c = py "force_unlink")
    by (intros new Hn q x Hin; by destruct (Hn q x)).
  destruct (lstat_log _ _ _ _ E1) as [([e0|] & Ht1 & ->)|[Ht1 [e ->]]].
  2: { intros [= <- <-]. exists [CLstat (ul_path c) None]. split; [done|]. apply Hno. by apply no_unlink_one. }
  2: { intros [= <- <-]. exists []. split; [done|]. apply Hno. auto with fds. }
  assert (H1 : no_unlink [CLstat (ul_path c) (Some e0)]) by by apply no_unlink_one.
  case_bool_decide as Hk; cbn [negb]; [|intros [= <- <-]; eexists; split; [done|by apply Hno]].
  case_bool_decide as Hpol; cbn [negb]; [|intros [= <- <-]; eexists; split; [done|by apply Hno]].
  unfold mbind at 1, ST_bind at 1. destruct (unix_socket_is_live (ul_path c) s1) as [s2 r2] eqn:E2.
  destruct (live_log _ _ _ _ E2) as (n2 & Ht2 & Hn2 & Hf2). rewrite Ht1, app_assoc in Ht2.
  destruct r2 as [[]|e]; [intros [= <- <-]; eexists; split; [done|apply Hno; auto with fds]| |
    intros [= <- <-]; eexists; split; [done|apply Hno; auto with fds]].
  rewrite (Hf2 eq_refl) in *. clear n2 Hf2.
  unfold mbind at 1, ST_bind at 1. destruct (unix_socket_is_live (ul_path c) s2) as [s3 r3] eqn:E3.
  destruct (live_log _ _ _ _ E3) as (n3 & Ht3 & Hn3 & Hf3). rewrite Ht2, app_assoc in Ht3.
  destruct r3 as [[]|e]; [intros [= <- <-]; eexists; split; [done|apply Hno; auto with fds]| |
    intros [= <- <-]; eexists; split; [done|apply Hno; auto with fds]].
  rewrite (Hf3 eq_refl) in *. clear n3 Hf3.
  unfold mbind at 1, ST_bind at 1. destruct (lstat_opt (ul_path c) s3) as [s4 r4] eqn:E4.
  destruct (lstat_opt_log _ _ _ _ E4) as (n4 & Ht4 & Hn4 & Hf4). rewrite Ht3, app_assoc in Ht4.
  destruct r4 as [[e1|]|e]; [|intros [= <- <-]; eexists; (split; [done|apply Hno; auto with fds])..].
  rewrite (Hf4 e1 eq_refl) in *. clear n4 Hf4.
  unfold mbind, ST_bind. destruct (unlink_if_identity (ul_path c) e1 (e_id e0) s4) as [s5 r5] eqn:E5. intros H.
  assert (s5 = s') as -> by (destruct r5 as [[]|]; by injection H).
  destruct (unlink_if_log _ _ _ _ _ _ E5) as [Ht5|[Hid (x & Ht5)]].
  - eexists. split; [by rewrite Ht5|apply Hno; auto with fds].
  - rewrite Ht4, app_assoc in Ht5. eexists. split; [exact Ht5|]. intros q y Hin. cbn [app] in Hin |- *.
    assert (CUnlink q y = CUnlink (ul_path c) x) as [= -> ->] by by repeat (apply elem_of_cons in Hin as [Hin|Hin]; [|]); try done; apply elem_of_nil in Hin.
    by exists e0, e1.
Qed.

(** What is removed when a listener closes, or fails after it was bound. *)
Lemma unlink_own_log p i s s' r :
  unlink_own p i s = (s', r) →
  ∃ new, os_trace s' = new ++ os_trace s ∧ ∀ q x, CUnlink q x ∈ new →
    ∃ e, new = [CUnlink q x; CLstat q (Some e)] ∧ q = p ∧ e_id e = i.
Proof.
  unfold unlink_own. unfold mbind at 1, ST_bind at 1. destruct (lstat_opt p s) as [s1 r1] eqn:E1.
  destruct (lstat_opt_log _ _ _ _ E1) as (n1 & Ht1 & Hn1 & Hf1).
  destruct r1 as [[e|]|e]; [|intros [= <- <-]; exists n1; split; [done|intros q x Hin; by destruct (Hn1 q x)]..].
  rewrite (Hf1 e eq_refl) in *. clear n1 Hf1. unfold mbind, ST_bind.
  destruct (unlink_if_identity p e i s1) as [s2 r2] eqn:E2. intros H.
  assert (s2 = s') as -> by (destruct r2; by injection H).
  destruct (unlink_if_log _ _ _ _ _ _ E2) as [Ht2|[Hid (x & Ht2)]].
  - eexists. split; [by rewrite Ht2|]. intros q x Hin. by destruct (Hn1 q x).
  - rewrite Ht1, app_assoc in Ht2. eexists. split; [exact Ht2|]. intros q y Hin. cbn [app] in Hin |- *.
    exists e. apply elem_of_cons in Hin as [[= -> ->]|Hin]; [done|]. by destruct (Hn1 q y).
Qed.

(** ** Starting and unlinking *)

Lemma discard_loop bs s : ∃ s1, for_each bs (λ b, swallow (close_listener b)) s = (s1, Ok tt).
Proof.
  revert s. induction bs as [|b bs IH]; intros s; [by exists s|]. cbn [for_each]. unfold mbind, ST_bind, swallow at 1.
  apply IH.
Qed.
Lemma discard_last bs s : head (os_trace (discard_startup_resources bs s).1) = Some CPoolShutdown.
Proof.
  unfold discard_startup_resources, mbind, ST_bind. destruct (discard_loop bs s) as [s1 ->].
  unfold swallow, pool_shutdown, opaque_call, modify, skip, mbind, ST_bind, enter. cbn. by destruct (k_fail _).
Qed.
Lemma discard_raise bs (e : exn) s :
  (_ ← discard_startup_resources bs; raise (A := list BoundListener) e) s = ((discard_startup_resources bs s).1, Err e).
Proof.
  unfold discard_startup_resources, mbind, ST_bind. by destruct (discard_loop bs s) as [s1 ->].
Qed.

(** C38: Whatever other processes do and whichever call fails, binding a list of listeners
    loses no descriptor: when it raises, the sockets are those there were before and the
    last thing done was to shut the pool down; when it returns, there is a listener, each
    has a descriptor of its own, and without those the sockets are those there were
    before, as they are again when the start is cancelled. The umask is kept. *)
Theorem no_descriptor_lost ls s s' r :
  fresh_fds s → bind_listeners ls s = (s', r) →
  os_umask s' = os_umask s ∧
  match r with
  | Ok bs => bs ≠ [] ∧ Forall (λ b, os_socks s !! bl_socket b = None) bs ∧
             closed_all bs (os_socks s') = os_socks s ∧
             os_socks (discard_startup_resources bs s').1 = os_socks s
  | Err _ => os_socks s' = os_socks s ∧ head (os_trace s') = Some CPoolShutdown
  end.
Proof.
  intros Hf. destruct (bind_loop_returns ls [] s) as (s1 & [bs failed] & E).
  assert (H1 : holds (os_socks s) (os_umask s) bs s1)
    by (eapply bind_loop_holds; [|exact E]; by split_and!).
  destruct (discard_closes _ _ _ _ H1) as [H2 H3].
  unfold bind_listeners. unfold mbind at 1, ST_bind at 1. rewrite E.
  destruct (match failed with Some e => Some e | None => _ end) as [e|] eqn:Ef.
  - rewrite discard_raise. intros [= <- <-]. split_and!; [done|done|apply discard_last].
  - intros [= <- <-]. destruct failed; [done|]. case_bool_decide; [done|].
    destruct H1 as (_ & Hc & Hu & Hn). by split_and!.
Qed.

(** Calls that are not logged. *)
Definition quiet (s s' : Os) : Prop := os_trace s' = os_trace s.
#[local] Instance quiet_preorder : PreOrder quiet.
Proof. split; [done|]. intros ??? H1 H2. by unfold quiet; rewrite H2. Qed.
Lemma publish_quiet c fd i : respects quiet (publish_listener c fd i).
Proof.
  unfold publish_listener, chown, chmod, update_file, listen, file_at.
  repeat first [respects_step | (intros s; unfold enter; done) | (apply respects_modify; done)].
Qed.

Lemma bind_umask_log fd p s s' r :
  with_umask private_umask (bind_path fd p) s = (s', r) →
  r = Ok tt ∧ (∃ i, os_trace s' = [CBind p i] ++ os_trace s) ∨ (∃ e, r = Err e) ∧ os_trace s' = os_trace s.
Proof.
  unfold with_umask, finally, bind_path, file_at, enter, gets, modify, raise, mbind, ST_bind. cbn.
  destruct (k_fail _) as [e|]; [intros [= <- <-]; right; by split; [eexists|]|]. cbn.
  destruct (_ !! p); intros [= <- <-]; [right; by split; [eexists|]|left; by split; [|eexists]].
Qed.

Lemma bind_lstat_log fd p s s' r :
  (_ ← with_umask private_umask (bind_path fd p); lstat p) s = (s', r) →
  match r with
  | Ok e0 => ∃ i, os_trace s' = [CLstat p (Some e0); CBind p i] ++ os_trace s
  | Err _ => ∃ new, os_trace s' = new ++ os_trace s ∧ no_unlink new
  end.
Proof.
  unfold mbind, ST_bind. destruct (with_umask _ _ s) as [s1 r1] eqn:E1.
  destruct (bind_umask_log _ _ _ _ _ E1) as [[-> [i H1]]|[[e ->] H1]].
  2: { intros [= <- <-]. exists []. by split; [|auto with fds]. }
  assert (Hb : no_unlink [CBind p i]) by by apply no_unlink_one. intros E2.
  destruct (lstat_log _ _ _ _ E2) as [([e0|] & H2 & ->)|[H2 [e ->]]]; rewrite H2, H1.
  - by exists i.
  - exists ([CLstat p None] ++ [CBind p i]). split; [done|]. apply no_unlink_app; [|done]. by apply no_unlink_one.
  - by exists [CBind p i].
Qed.

(** The handler that closes the descriptor and raises again. *)
Lemma close_raise_log {A} fd (e : exn) s :
  os_trace ((_ ← close_socket fd; raise (A := A) e) s).1 = os_trace s ∧
  ∃ e', ((_ ← close_socket fd; raise (A := A) e) s).2 = Err e'.
Proof.
  unfold mbind, ST_bind. pose proof (close_socket_log fd s) as H. destruct (close_socket fd s) as [s1 [[]|e']]; by split; [|eexists].
Qed.

Lemma bind_at_log c s s' r :
  bind_at c s = (s', r) → ∃ new, os_trace s' = new ++ os_trace s ∧
    ∀ q x, CUnlink q x ∈ new → ∃ i e0 e,
      new = [CUnlink q x; CLstat q (Some e); CLstat q (Some e0); CBind q i] ∧ q = ul_path c ∧ e_id e = e_id e0.
Proof.
  unfold bind_at. unfold mbind at 1, ST_bind at 1. pose proof (socket_log s) as Hs.
  destruct (socket s) as [s1 [fd|e]]; cbn [fst] in Hs; [|intros [= <- <-]; exists []; by split; [|intros q x ?%not_elem_of_nil]].
  unfold mbind at 1, ST_bind at 1, catch at 1.
  destruct ((_ ← with_umask private_umask _; lstat _) s1) as [s2 r2] eqn:E2. apply bind_lstat_log in E2.
  rewrite Hs in E2. destruct r2 as [e0|e]; cycle 1.
  { destruct E2 as (new & H2 & Hn). destruct (@close_raise_log entry fd e s2) as [Hc [e' He]].
    destruct ((_ ← close_socket fd; raise e) s2) as [s3 r3]. cbn in Hc, He. subst r3. intros [= <- <-].
    exists new. split; [by rewrite Hc|]. intros q x Hin. by destruct (Hn q x). }
  destruct E2 as (i & H2). unfold catch. pose proof (publish_quiet c fd (e_id e0) s2) as H3.
  destruct (publish_listener c fd (e_id e0) s2) as [s3 [b|e]]; unfold quiet in H3; cbn [fst] in H3; rewrite H2 in H3.
  { intros [= <- <-]. eexists. split; [exact H3|]. intros q x Hin. by repeat (apply elem_of_cons in Hin as [Hin|Hin]; [done|]); apply elem_of_nil in Hin. }
  pose proof (close_socket_log fd s3) as H4. unfold mbind at 1, ST_bind at 1.
  assert (Hno : no_unlink [CLstat (ul_path c) (Some e0); CBind (ul_path c) i]).
  { apply (no_unlink_app [_] [_]); by apply no_unlink_one. }
  destruct (close_socket fd s3) as [s4 [[]|e4]]; cbn [fst] in H4; rewrite H3 in H4; cycle 1.
  { intros [= <- <-]. eexists. split; [exact H4|]. intros q x Hin. by destruct (Hno q x). }
  unfold mbind at 1, ST_bind at 1. destruct (unlink_own (ul_path c) (e_id e0) s4) as [s5 r5] eqn:E5.
  destruct (unlink_own_log _ _ _ _ _ E5) as (new & H5 & Hu). rewrite H4, app_assoc in H5.
  intros H. assert (s5 = s') as -> by (destruct r5; by injection H). eexists. split; [exact H5|].
  intros q x [Hin|Hin]%elem_of_app; [|by destruct (Hno q x)]. destruct (Hu q x Hin) as (e' & -> & -> & He). by exists i, e0, e'.
Qed.

Lemma close_listener_log b s s' r :
  close_listener b s = (s', r) → ∃ new, os_trace s' = new ++ os_trace s ∧
    ∀ q x, CUnlink q x ∈ new → ∃ c e,
      new = [CUnlink q x; CLstat q (Some e)] ∧ bl_config b = OnUnix c ∧ q = ul_path c ∧ bl_identity b = Some (e_id e).
Proof.
  unfold close_listener, finally. pose proof (close_socket_log (bl_socket b) s) as Hc.
  destruct (close_socket (bl_socket b) s) as [s1 r1]. cbn [fst] in Hc.
  set (f := match bl_config b with OnUnix _ => _ | OnTcp _ => _ end).
  destruct (f s1) as [s2 r2] eqn:E. intros H. assert (s2 = s') as -> by (destruct r2; by injection H).
  unfold f in E. clear f. rewrite <- Hc.
  assert (Hskip : skip s1 = (s', r2) → ∃ new, os_trace s' = new ++ os_trace s1 ∧ no_unlink new).
  { intros [= <- _]. exists []. by split; [|auto with fds]. }
  destruct (bl_config b) as [c|c] eqn:Ec; [destruct (bl_identity b) as [i|] eqn:Ei|];
    [|destruct (Hskip E) as (new & Ht & Hn); exists new; split; [done|]; intros q x Hin; by destruct (Hn q x)..].
  destruct (unlink_own_log _ _ _ _ _ E) as (new & Ht & Hu). exists new. split; [done|].
  intros q x Hin. destruct (Hu q x Hin) as (e & -> & -> & He). exists c, e. by rewrite He.
Qed.

(** C39: Whatever other processes do, a socket file is removed on three occasions only.
    Clearing a stale socket: the policy is [force_unlink], the path named a socket, two
    connections failed, and right before the removal the path still named that inode.
    Closing a listener: right before the removal the path named the inode of the
    listener. Failing to bind: right before it, the inode found when the socket was made. *)
Theorem unlink_guarded (c : UnixListener) (b : BoundListener) (s : Os) :
  (∀ s' r, clear_stale c s = (s', r) → ∃ new, os_trace s' = new ++ os_trace s ∧
     ∀ q x, CUnlink q x ∈ new → ∃ e0 e1,
       new = [CUnlink q x; CLstat q (Some e1); CConnect q false; CConnect q false; CLstat q (Some e0)] ∧
       q = ul_path c ∧ e_kind e0 = FSocket ∧ e_id e1 = e_id e0 ∧ ul_stale_policy c = py "force_unlink") ∧
  (∀ s' r, close_listener b s = (s', r) → ∃ new, os_trace s' = new ++ os_trace s ∧
     ∀ q x, CUnlink q x ∈ new → ∃ c e,
       new = [CUnlink q x; CLstat q (Some e)] ∧ bl_config b = OnUnix c ∧ q = ul_path c ∧
       bl_identity b = Some (e_id e)) ∧
  (∀ s' r, bind_at c s = (s', r) → ∃ new, os_trace s' = new ++ os_trace s ∧
     ∀ q x, CUnlink q x ∈ new → ∃ i e0 e,
       new = [CUnlink q x; CLstat q (Some e); CLstat q (Some e0); CBind q i] ∧
       q = ul_path c ∧ e_id e = e_id e0).
Proof. split_and!; intros s' r; [apply clear_stale_log|apply close_listener_log|apply bind_at_log]. Qed.
End Any.

(** ** A machine with faults *)

(** The second listener cannot listen, and meanwhile another process takes a file away. *)
Module FaultDemo.
Definition run_dir : entry := mkEntry FDir (1, 1) 448 1000 1000.
Definition dir_path : pystr := py "/run/pool".
Definition sock_path : pystr := py "/run/pool/a.sock".
Definition unix_listener : UnixListener :=
  {| ul_path := sock_path; ul_mode := PInt 384; ul_owner_uid := PNone; ul_owner_gid := PNone;
     ul_backlog := PInt 128; ul_stale_policy := py "force_unlink"; ul_optional := false |}.
Definition tcp_listener : TcpListener :=
  {| tl_host := py "127.0.0.1"; tl_port := PInt 0; tl_ssl_context := None; tl_insecure := true;
     tl_backlog := PInt 128; tl_keepalive := false; tl_optional := false |}.
Definition machine (fail_at : nat) : Kernel := {|
  k_other n f := if bool_decide (n = 19%nat) then delete sock_path f else f;
  k_fail n := if bool_decide (n = fail_at) then Some (Raise OSError "refused") else None;
  k_fresh n := (1, Z.of_nat n + 100);
  k_listens _ _ := false;
  k_uid := 1000; k_gid := 1000;
  k_sockname _ := (py "127.0.0.1", 40000);
  k_parent _ := dir_path |}.
Definition before : Os :=
  mkOs {[ dir_path := run_dir; sock_path := mkEntry FSocket (1, 2) 384 1000 1000 ]}
    {[ 7%nat := mkSock None false ]} 8 18 0 [].
Definition started (fail_at : nat) := bind_listeners (K := machine fail_at) [OnUnix unix_listener; OnTcp tcp_listener] before.

Lemma before_fresh : fresh_fds before.
Proof. intros fd Hfd. cbn in *. rewrite lookup_singleton_ne; [done|lia]. Qed.

Lemma no_descriptor_lost_witness :
  (started 21).2 = Err (Raise OSError "refused") ∧ os_socks (started 21).1 = os_socks before ∧
  ∃ bs, (started 100).2 = Ok bs ∧ length bs = 2%nat ∧ closed_all bs (os_socks (started 100).1) = os_socks before.
Proof.
  split; [by vm_compute|]. split.
  - assert (E : started 21 = ((started 21).1, Err (Raise OSError "refused"))) by by vm_compute.
    exact (proj1 (proj2 (no_descriptor_lost (K := machine 21) [OnUnix unix_listener; OnTcp tcp_listener] before _ _ before_fresh E))).
  - destruct (started 100).2 as [bs|e] eqn:E; [|by vm_compute in E]. exists bs.
    assert (E' : started 100 = ((started 100).1, Ok bs)) by (rewrite <- E; by destruct (started 100)).
    split; [done|]. split; [vm_compute in E; by injection E as <-|].
    exact (proj1 (proj2 (proj2 (proj2 (no_descriptor_lost (K := machine 100) [OnUnix unix_listener; OnTcp tcp_listener] before _ _ before_fresh E'))))).
Defined.
End FaultDemo.
