(* ===== verification/TransportBind.v ===== *)
(** * TransportBind: what binding and closing do

    On a machine where no other process touches the files and no call fails. *)
From stdpp Require Import gmap.
From S2P Require Import Prelude Errors StateErr PyVal Config Transport TransportProps.

(** ** A machine that leaves the files alone *)

Section Quiet.
Context {K : Kernel}.
Context (Hother : ∀ n f, k_other n f = f) (Hfail : ∀ n, k_fail n = None) (Hsteady : ∀ n m i, k_listens n i = k_listens m i).

(** Only the clock and the log moved. *)
Record calm (s s' : Os) : Prop := {
  cm_files : os_files s' = os_files s; cm_socks : os_socks s' = os_socks s; cm_umask : os_umask s' = os_umask s;
  cm_next : (os_next s ≤ os_next s')%nat }.
#[local] Instance calm_preorder : PreOrder calm.
Proof. split; [by split|]. intros ??? [] []. split; [by etrans..|lia]. Qed.

Lemma st_bind_ok {A B} (m : ST Os A) (f : A → ST Os B) s s1 a : m s = (s1, Ok a) → (m ≫= f) s = f a s1.
Proof. unfold mbind, ST_bind. by intros ->. Qed.
Lemma st_bind_err {A B} (m : ST Os A) (f : A → ST Os B) s s1 e : m s = (s1, Err e) → (m ≫= f) s = (s1, Err e).
Proof. unfold mbind, ST_bind. by intros ->. Qed.

Lemma enter_run s : enter s = ({| s with os_tick := S (os_tick s) |}, Ok (os_tick s)).
Proof. unfold enter. by rewrite Hfail, Hother. Qed.

(** [ends m s r]: from [s], [m] returns or raises [r] and leaves files and sockets alone. *)
Definition ends {A} (m : ST Os A) (s : Os) (r : result exn A) : Prop := ∃ s', m s = (s', r) ∧ calm s s'.

Lemma ends_bind {A B} (m : ST Os A) (f : A → ST Os B) s a r :
  ends m s (Ok a) → (∀ s', calm s s' → ends (f a) s' r) → ends (m ≫= f) s r.
Proof.
  intros (s1 & E & H1) Hf. destruct (Hf s1 H1) as (s2 & E2 & H2). exists s2. split; [|by etrans].
  by rewrite (st_bind_ok _ _ _ _ _ E).
Qed.
Lemma ends_raise {A B} (m : ST Os A) (f : A → ST Os B) s e : ends m s (Err e) → ends (m ≫= f) s (Err e).
Proof. intros (s1 & E & H1). exists s1. split; [|done]. by apply st_bind_err. Qed.
Lemma ends_now {A} (m : ST Os A) s s' r : m s = (s', r) → calm s s' → ends m s r.
Proof. intros. by exists s'. Qed.

Lemma lstat_ends p s : ends (lstat p) s (match os_files s !! p with Some e => Ok e | None => Err not_found end).
Proof.
  unfold lstat. destruct (os_files s !! p) as [e|] eqn:E; (eapply ends_now;
    [rewrite (st_bind_ok _ _ _ _ _ (enter_run s)); unfold file_at, gets, modify, mbind, ST_bind; cbn; rewrite E; reflexivity
    |by split; cbn]).
Qed.

Lemma exists_ends p s : ends (exists_path p) s (Ok (match os_files s !! p with
  Some e => match e_kind e with FLink _ b => b | _ => true end | None => false end)).
Proof. unfold exists_path. eapply ends_now; [by rewrite (st_bind_ok _ _ _ _ _ (enter_run s))|by split; cbn]. Qed.
Lemma is_symlink_ends p s : ends (is_symlink p) s (Ok (match os_files s !! p with
  Some e => match e_kind e with FLink _ _ => true | _ => false end | None => false end)).
Proof. unfold is_symlink. eapply ends_now; [by rewrite (st_bind_ok _ _ _ _ _ (enter_run s))|by split; cbn]. Qed.

Lemma mkdir_ends p mode s e : os_files s !! p = Some e → e_kind e = FDir → ends (mkdir p mode) s (Ok tt).
Proof.
  intros He Hk. unfold mkdir. eapply ends_now.
  - rewrite (st_bind_ok _ _ _ _ _ (enter_run s)). unfold file_at, gets, mbind, ST_bind. cbn. by rewrite He, Hk.
  - by split; cbn.
Qed.

(** A directory sockets may be put in. *)
Definition trusted (e : entry) : Prop :=
  e_kind e = FDir ∧ Z.land (e_mode e) group_or_world_writable = 0 ∧ e_uid e ∈ [0; k_uid].

Lemma validate_ends p s e :
  os_files s !! p = Some e → trusted e → ends (validate_unix_directory p) s (Ok tt).
Proof.
  intros He (Hk & Hm & Hu). unfold validate_unix_directory. eapply ends_bind.
  { pose proof (lstat_ends p s) as H. by rewrite He in H. }
  intros s' _. rewrite !bool_decide_true by done. rewrite Hm. by eexists.
Qed.

(** Whether something listens does not depend on when it is asked, nor on probes. *)
Lemma listening_probe n m s s' fd id :
  os_socks s' = <[fd := mkSock None false]> (os_socks s) → os_socks s !! fd = None →
  listening n s' id = listening m s id.
Proof.
  intros E Hfd. unfold listening. rewrite (Hsteady n m), E. f_equal. apply bool_decide_ext. split.
  - intros (fd' & k & H & Hb & Hl). destruct (decide (fd' = fd)) as [->|].
    + rewrite lookup_insert_eq in H. injection H as <-. done.
    + rewrite lookup_insert_ne in H by done. by exists fd', k.
  - intros (fd' & k & H & Hb & Hl). exists fd', k. split; [|done].
    rewrite lookup_insert_ne; [done|]. intros ->. by rewrite Hfd in H.
Qed.

(** The probe tells whether the path is a socket something listens on. *)
Definition live (s : Os) (e : entry) : bool := bool_decide (e_kind e = FSocket) && listening 0 s (e_id e).

Lemma live_ends p s e :
  fresh_fds s → os_files s !! p = Some e → ends (unix_socket_is_live p) s (Ok (live s e)).
Proof.
  intros Hf He. unfold unix_socket_is_live, socket.
  set (s1 := {| s with os_tick := S (os_tick s); os_next := S (os_next s);
                       os_socks := <[os_next s := mkSock None false]> (os_socks s) |}).
  assert (Hnone : os_socks s !! os_next s = None) by (apply Hf; lia).
  assert (E : (_ ← enter; fd ← gets os_next; _ ← modify (λ s, {| s with os_next := S fd; os_socks := <[fd := mkSock None false]> (os_socks s) |}); mret fd) s
    = (s1, Ok (os_next s))) by (rewrite (st_bind_ok _ _ _ _ _ (enter_run s)); done).
  unfold ends. rewrite (st_bind_ok _ _ _ _ _ E).
  assert (Hl : ∀ n, listening n {| s1 with os_tick := S (os_tick s1) |} (e_id e) = listening 0 s (e_id e))
    by (intros n; by eapply listening_probe).
  unfold finally, catch, connect_path, catch, close_socket, mbind, ST_bind, gets, modify, mret, ST_ret, raise, skip.
  rewrite enter_run. cbn -[listening enter probe_dead]. rewrite He. rewrite Hl. unfold live.
  destruct (bool_decide (e_kind e = FSocket) && listening 0 s (e_id e)); cbn -[listening enter probe_dead].
  - rewrite enter_run. eexists. split; [done|]. split; cbn; [done|by rewrite delete_insert_id|done|lia].
  - assert (probe_dead (Raise ConnectionRefusedError "connection refused") = true) as -> by (by vm_compute).
    cbn -[enter]. rewrite enter_run. eexists. split; [done|]. split; cbn; [done|by rewrite delete_insert_id|done|lia].
Qed.

Lemma calm_fresh s s' : calm s s' → fresh_fds s → fresh_fds s'.
Proof. intros [_ Hs _ Hn] Hf fd Hfd. rewrite Hs. apply Hf. lia. Qed.
Lemma calm_live s s' e : calm s s' → live s' e = live s e.
Proof. intros [_ Hs _ _]. unfold live, listening. by rewrite Hs. Qed.

(** What [_bind_unix] makes of what it finds at the path. *)
Definition refusal (c : UnixListener) (s : Os) (e : entry) : option exn :=
  if negb (bool_decide (e_kind e = FSocket)) then Some (Raise ValueError "refusing unexpected Unix socket path type")
  else if negb (bool_decide (ul_stale_policy c = py "force_unlink")) then Some (Raise FileExistsError "file exists")
  else if live s e then Some (Raise OSError "Unix socket is already live")
  else None.

Lemma clear_stale_refused c s e x :
  fresh_fds s → os_files s !! ul_path c = Some e → refusal c s e = Some x → ends (clear_stale c) s (Err x).
Proof.
  intros Hf He Hx. unfold clear_stale, refusal in *. eapply ends_bind.
  { pose proof (lstat_ends (ul_path c) s) as H. by rewrite He in H. }
  intros s1 H1. destruct (negb _); [injection Hx as <-; by eexists|].
  destruct (negb _); [injection Hx as <-; by eexists|].
  eapply ends_bind; [eapply live_ends; [by eapply calm_fresh|by rewrite (cm_files _ _ H1)]|].
  intros s2 _. rewrite (calm_live _ _ _ H1). destruct (live s e); [|done]. injection Hx as <-. by eexists.
Qed.

Lemma clear_stale_run c s e :
  fresh_fds s → os_files s !! ul_path c = Some e → refusal c s e = None →
  ∃ s', clear_stale c s = (s', Ok tt) ∧ os_files s' = delete (ul_path c) (os_files s) ∧
    os_socks s' = os_socks s ∧ os_umask s' = os_umask s ∧ (os_next s ≤ os_next s')%nat.
Proof.
  intros Hf He Hx. unfold refusal in Hx. case_bool_decide as Hk; [|done]. case_bool_decide as Hp; [|done].
  cbn [negb] in Hx. destruct (live s e) eqn:Hl; [done|]. unfold clear_stale.
  destruct (lstat_ends (ul_path c) s) as (s1 & E1 & H1). rewrite He in E1.
  rewrite (st_bind_ok _ _ _ _ _ E1), !bool_decide_true by done. cbn [negb].
  assert (He1 : os_files s1 !! ul_path c = Some e) by (by rewrite (cm_files _ _ H1)).
  destruct (live_ends (ul_path c) s1 e) as (s2 & E2 & H2); [by eapply calm_fresh|done|].
  rewrite (calm_live _ _ _ H1), Hl in E2. rewrite (st_bind_ok _ _ _ _ _ E2). assert (H12 : calm s s2) by (by etrans).
  assert (He2 : os_files s2 !! ul_path c = Some e) by (by rewrite (cm_files _ _ H12)).
  destruct (live_ends (ul_path c) s2 e) as (s3 & E3 & H3); [by eapply calm_fresh|done|].
  rewrite (calm_live _ _ _ H12), Hl in E3. rewrite (st_bind_ok _ _ _ _ _ E3). assert (H13 : calm s s3) by (by etrans).
  assert (He3 : os_files s3 !! ul_path c = Some e) by (by rewrite (cm_files _ _ H13)).
  destruct (lstat_ends (ul_path c) s3) as (s4 & E4 & H4). rewrite He3 in E4. assert (H14 : calm s s4) by (by etrans).
  assert (E4' : lstat_opt (ul_path c) s3 = (s4, Ok (Some e))).
  { unfold lstat_opt, catch. by rewrite (st_bind_ok _ _ _ _ _ E4). }
  rewrite (st_bind_ok _ _ _ _ _ E4'). unfold unlink_if_identity. rewrite bool_decide_true by done.
  assert (E5 : ∃ s5, unlink (ul_path c) s4 = (s5, Ok tt) ∧ os_files s5 = delete (ul_path c) (os_files s4) ∧
    os_socks s5 = os_socks s4 ∧ os_umask s5 = os_umask s4 ∧ os_next s5 = os_next s4).
  { unfold unlink. rewrite (st_bind_ok _ _ _ _ _ (enter_run s4)). unfold file_at, gets, modify, mbind, ST_bind. cbn.
    rewrite (cm_files _ _ H14), He. rewrite bool_decide_false by (by rewrite Hk). by eexists. }
  destruct E5 as (s5 & E5 & Hf5 & Hs5 & Hu5 & Hn5). exists s5. split.
  - unfold mbind, ST_bind. by rewrite E5.
  - destruct H14 as [Hf4 Hs4 Hu4 Hn4]. split_and!; [by rewrite Hf5, Hf4|congruence|congruence|lia].
Qed.

(** The file of a listener that was bound. *)
Definition owner (v : pyval) (default : Z) : Z := if owner_arg v =? -1 then default else owner_arg v.
Definition listener_file (c : UnixListener) (id : identity) : entry :=
  mkEntry FSocket id (int_value (ul_mode c)) (owner (ul_owner_uid c) k_uid) (owner (ul_owner_gid c) k_gid).

Lemma update_run p f e s :
  os_files s !! p = Some e →
  ∃ s', update_file p f s = (s', Ok tt) ∧ os_files s' = <[p := f e]> (os_files s) ∧ os_socks s' = os_socks s ∧
    os_umask s' = os_umask s ∧ os_next s' = os_next s.
Proof.
  intros He. unfold update_file. rewrite (st_bind_ok _ _ _ _ _ (enter_run s)).
  unfold file_at, gets, modify, mbind, ST_bind. cbn. rewrite He. eexists. split; [done|]. cbn. split; [|done].
  by apply alter_insert_alt || (rewrite <- (insert_id (os_files s) p e) at 1 by done; by rewrite alter_insert_eq).
Qed.

Lemma publish_run c fd id s mode :
  os_files s !! ul_path c = Some (mkEntry FSocket id mode k_uid k_gid) →
  ∃ s', publish_listener c fd id s = (s', Ok (mkBound (OnUnix c) fd (inl (ul_path c)) (Some id))) ∧
    os_files s' = <[ul_path c := listener_file c id]> (os_files s) ∧
    os_socks s' = alter (λ k, mkSock (so_bound k) true) fd (os_socks s) ∧ os_umask s' = os_umask s ∧ os_next s' = os_next s.
Proof.
  intros He. unfold publish_listener.
  assert (H1 : ∃ s1, (if is_none (ul_owner_uid c) && is_none (ul_owner_gid c) then skip
       else chown (ul_path c) (owner_arg (ul_owner_uid c)) (owner_arg (ul_owner_gid c))) s = (s1, Ok tt) ∧
    os_files s1 = <[ul_path c := mkEntry FSocket id mode (owner (ul_owner_uid c) k_uid) (owner (ul_owner_gid c) k_gid)]> (os_files s) ∧
    os_socks s1 = os_socks s ∧ os_umask s1 = os_umask s ∧ os_next s1 = os_next s).
  { destruct (is_none (ul_owner_uid c) && is_none (ul_owner_gid c)) eqn:En.
    - exists s. split; [done|]. split; [|done]. apply andb_true_iff in En as [E1 E2].
      destruct (ul_owner_uid c), (ul_owner_gid c); try done. symmetry. by apply insert_id.
    - destruct (update_run (ul_path c) (λ e, mkEntry (e_kind e) (e_id e) (e_mode e)
        (owner (ul_owner_uid c) (e_uid e)) (owner (ul_owner_gid c) (e_gid e))) _ s He) as (s1 & E & H). by exists s1. }
  destruct H1 as (s1 & E1 & Hf1 & Hs1 & Hu1 & Hn1). rewrite (st_bind_ok _ _ _ _ _ E1).
  destruct (update_run (ul_path c) (λ e, mkEntry (e_kind e) (e_id e) (int_value (ul_mode c)) (e_uid e) (e_gid e))
    (mkEntry FSocket id mode (owner (ul_owner_uid c) k_uid) (owner (ul_owner_gid c) k_gid)) s1) as (s2 & E2 & Hf2 & Hs2 & Hu2 & Hn2).
  { by rewrite Hf1, lookup_insert_eq. }
  unfold chmod. rewrite (st_bind_ok _ _ _ _ _ E2). unfold listen. unfold mbind at 1 2, ST_bind at 1 2. rewrite enter_run.
  eexists. split; [done|]. cbn. rewrite Hf2, Hf1, insert_insert_eq, Hs2, Hs1, Hu2, Hu1, Hn2, Hn1. done.
Qed.

Lemma bind_at_run c s :
  fresh_fds s → os_files s !! ul_path c = None →
  ∃ s' id, bind_at c s = (s', Ok (mkBound (OnUnix c) (os_next s) (inl (ul_path c)) (Some id))) ∧
    os_files s' = <[ul_path c := listener_file c id]> (os_files s) ∧
    os_socks s' = <[os_next s := mkSock (Some id) true]> (os_socks s) ∧ os_umask s' = os_umask s ∧ (os_next s < os_next s')%nat.
Proof.
  intros Hf He. unfold bind_at.
  set (s1 := {| s with os_tick := S (os_tick s); os_next := S (os_next s);
                       os_socks := <[os_next s := mkSock None false]> (os_socks s) |}).
  assert (E : socket s = (s1, Ok (os_next s))).
  { unfold socket. by rewrite (st_bind_ok _ _ _ _ _ (enter_run s)). }
  rewrite (st_bind_ok _ _ _ _ _ E).
  set (id := k_fresh (os_tick s1)). set (e1 := mkEntry FSocket id (Z.land 0x1ff (Z.lnot private_umask)) k_uid k_gid).
  assert (E2 : ∃ s2, (_ ← with_umask private_umask (bind_path (os_next s) (ul_path c)); lstat (ul_path c)) s1 = (s2, Ok e1) ∧
    os_files s2 = <[ul_path c := e1]> (os_files s) ∧ os_socks s2 = <[os_next s := mkSock (Some id) false]> (os_socks s) ∧
    os_umask s2 = os_umask s ∧ (os_next s < os_next s2)%nat).
  { assert (Eb : ∃ s2, with_umask private_umask (bind_path (os_next s) (ul_path c)) s1 = (s2, Ok tt) ∧
      os_files s2 = <[ul_path c := e1]> (os_files s) ∧ os_socks s2 = <[os_next s := mkSock (Some id) false]> (os_socks s) ∧
      os_umask s2 = os_umask s ∧ os_next s2 = S (os_next s)).
    { unfold with_umask, finally, bind_path, file_at, gets, modify, mbind, ST_bind. rewrite enter_run. cbn. rewrite He.
      eexists. split; [done|]. cbn. split_and!; try done. by rewrite alter_insert_eq. }
    destruct Eb as (s2 & Eb & Hf2 & Hs2 & Hu2 & Hn2). rewrite (st_bind_ok _ _ _ _ _ Eb).
    destruct (lstat_ends (ul_path c) s2) as (s3 & E3 & [Hf3 Hs3 Hu3 Hn3]).
    rewrite Hf2, lookup_insert_eq in E3. exists s3. split; [exact E3|]. rewrite Hf3, Hs3, Hu3. by split_and!; [..|lia]. }
  destruct E2 as (s2 & E2 & Hf2 & Hs2 & Hu2 & Hn2).
  assert (Hcatch : ∀ (A : Type) (m : ST Os A) h t t' a, m t = (t', Ok a) → catch m h t = (t', Ok a))
    by (intros A m h t t' a H; unfold catch; by rewrite H).
  rewrite (st_bind_ok _ _ _ _ _ (Hcatch _ _ _ _ _ _ E2)).
  destruct (publish_run c (os_next s) id s2 (Z.land 0x1ff (Z.lnot private_umask))) as (s3 & E3 & Hf3 & Hs3 & Hu3 & Hn3).
  { by rewrite Hf2, lookup_insert_eq. }
  exists s3, id. split; [by apply Hcatch|].
  rewrite Hf3, Hf2, insert_insert_eq, Hs3, Hs2, alter_insert_eq, Hu3, Hu2. split_and!; [done..|lia].
Qed.

(** ** What binding does *)

(** The path is free, or what is there is in the way. *)
Lemma bind_unix_start c s d :
  os_files s !! k_parent (ul_path c) = Some d → trusted d →
  ∃ s1, calm s s1 ∧
    bind_unix c s = ((_ ← (if os_files s !! ul_path c is Some _ then clear_stale c else skip); bind_at c) s1).
Proof.
  intros Hd Ht. unfold bind_unix.
  destruct (mkdir_ends (k_parent (ul_path c)) directory_mode s d Hd (proj1 Ht)) as (s1 & E1 & H1).
  rewrite (st_bind_ok _ _ _ _ _ E1).
  destruct (validate_ends (k_parent (ul_path c)) s1 d) as (s2 & E2 & H2); [by rewrite (cm_files _ _ H1)|done|].
  rewrite (st_bind_ok _ _ _ _ _ E2). assert (H12 : calm s s2) by (by etrans).
  destruct (exists_ends (ul_path c) s2) as (s3 & E3 & H3). rewrite (st_bind_ok _ _ _ _ _ E3).
  assert (H13 : calm s s3) by (by etrans). rewrite (cm_files _ _ H12).
  assert (H4 : ∃ s4, calm s s4 ∧
    (if match os_files s !! ul_path c with Some e => match e_kind e with FLink _ b => b | _ => true end | None => false end
     then mret true else is_symlink (ul_path c)) s3 = (s4, Ok (if os_files s !! ul_path c is Some _ then true else false))).
  { destruct (is_symlink_ends (ul_path c) s3) as (s4 & E4 & H4). rewrite (cm_files _ _ H13) in E4.
    assert (H14 : calm s s4) by (by etrans).
    destruct (os_files s !! ul_path c) as [e|]; [|by exists s4].
    destruct (e_kind e) as [| |? [|]|] eqn:Ek; rewrite ?Ek in E4; first [by exists s4|by exists s3]. }
  destruct H4 as (s4 & H14 & E4). rewrite (st_bind_ok _ _ _ _ _ E4). exists s4. split; [done|].
  by destruct (os_files s !! ul_path c).
Qed.

(** Closing a listener that was bound. *)
Lemma unlink_run p e s :
  os_files s !! p = Some e → e_kind e ≠ FDir →
  ∃ s', unlink p s = (s', Ok tt) ∧ os_files s' = delete p (os_files s) ∧ os_socks s' = os_socks s ∧ os_umask s' = os_umask s.
Proof.
  intros He Hk. unfold unlink. rewrite (st_bind_ok _ _ _ _ _ (enter_run s)).
  unfold file_at, gets, modify, mbind, ST_bind. cbn. rewrite He, bool_decide_false by done. by eexists.
Qed.

Lemma lstat_opt_ends p s : ends (lstat_opt p) s (Ok (os_files s !! p)).
Proof.
  destruct (lstat_ends p s) as (s1 & E & H1). exists s1. split; [|done]. unfold lstat_opt, catch, mbind, ST_bind.
  rewrite E. destruct (os_files s !! p); [done|]. by vm_compute (isinstance not_found FileNotFoundError).
Qed.

Definition still (i : identity) (e : option entry) : bool :=
  match e with Some e => bool_decide (e_id e = i) | None => false end.

Lemma close_run c fd id a s :
  (∀ e, os_files s !! ul_path c = Some e → e_id e = id → e_kind e ≠ FDir) →
  ∃ s', close_listener (mkBound (OnUnix c) fd a (Some id)) s = (s', Ok tt) ∧
    os_files s' = (if still id (os_files s !! ul_path c) then delete (ul_path c) (os_files s) else os_files s) ∧
    os_socks s' = delete fd (os_socks s) ∧ os_umask s' = os_umask s.
Proof.
  intros Hd. unfold close_listener, finally. cbn [bl_socket bl_config bl_identity].
  assert (E1 : ∃ s1, close_socket fd s = (s1, Ok tt) ∧ os_files s1 = os_files s ∧ os_socks s1 = delete fd (os_socks s) ∧ os_umask s1 = os_umask s).
  { unfold close_socket, modify, mbind, ST_bind. rewrite enter_run. by eexists. }
  destruct E1 as (s1 & -> & Hf1 & <- & <-). rewrite <- Hf1.
  unfold unlink_own. destruct (lstat_opt_ends (ul_path c) s1) as (s2 & E2 & [Hf Hs Hu _]).
  rewrite (st_bind_ok _ _ _ _ _ E2).
  destruct (os_files s1 !! ul_path c) as [e|] eqn:He; [|exists s2; by rewrite Hf, Hs, Hu].
  cbn [still]. unfold unlink_if_identity. case_bool_decide as Hid; [|exists s2; by rewrite Hf, Hs, Hu].
  destruct (unlink_run (ul_path c) e s2) as (s3 & E3 & Hf3 & Hs3 & Hu3); [by rewrite Hf|apply Hd; congruence|].
  exists s3. unfold mbind, ST_bind. rewrite E3. by rewrite Hf3, Hs3, Hu3, Hf, Hs, Hu.
Qed.

(** When binding succeeds: the path is free, or holds a stale socket under [force_unlink]. *)
Definition bindable (c : UnixListener) (s : Os) : Prop := ∀ e, os_files s !! ul_path c = Some e → refusal c s e = None.

Lemma bind_unix_run c s d :
  fresh_fds s → os_files s !! k_parent (ul_path c) = Some d → trusted d → bindable c s →
  ∃ s' fd id, bind_unix c s = (s', Ok (mkBound (OnUnix c) fd (inl (ul_path c)) (Some id))) ∧
    os_files s' = <[ul_path c := listener_file c id]> (os_files s) ∧
    os_socks s !! fd = None ∧ os_socks s' = <[fd := mkSock (Some id) true]> (os_socks s) ∧
    os_umask s' = os_umask s.
Proof.
  intros Hf Hd Ht Hb. destruct (bind_unix_start c s d Hd Ht) as (s1 & H1 & ->).
  assert (H2 : ∃ s2, (if os_files s !! ul_path c is Some _ then clear_stale c else skip) s1 = (s2, Ok tt) ∧
    os_files s2 = delete (ul_path c) (os_files s) ∧ os_socks s2 = os_socks s ∧ os_umask s2 = os_umask s ∧
    (os_next s ≤ os_next s2)%nat).
  { destruct H1 as [Hf1 Hs1 Hu1 Hn1] eqn:E. clear E. destruct (os_files s !! ul_path c) as [e|] eqn:He.
    - destruct (clear_stale_run c s1 e) as (s2 & E2 & Hf2 & Hs2 & Hu2 & Hn2).
      + intros fd Hfd. rewrite Hs1. apply Hf. lia.
      + by rewrite Hf1.
      + rewrite <- (Hb e He). unfold refusal. by rewrite (calm_live s s1 e) by (by split).
      + exists s2. rewrite E2, Hf2, Hs2, Hu2, Hf1, Hs1, Hu1. split_and!; [done..|lia].
    - exists s1. split; [done|]. rewrite Hf1, delete_id by done. done. }
  destruct H2 as (s2 & E2 & Hf2 & Hs2 & Hu2 & Hn2). rewrite (st_bind_ok _ _ _ _ _ E2).
  assert (Hfresh : fresh_fds s2) by (intros fd Hfd; rewrite Hs2; apply Hf; lia).
  destruct (bind_at_run c s2) as (s3 & id & E3 & Hf3 & Hs3 & Hu3 & _); [done|by rewrite Hf2, lookup_delete_eq|].
  exists s3, (os_next s2), id. split; [done|]. rewrite Hf3, Hf2, insert_delete_eq, Hs3, Hu3, Hs2, Hu2.
  split_and!; [done| |done..]. rewrite <- Hs2. apply Hfresh. lia.
Qed.

(** Binding a Unix listener under a trusted directory either refuses, by what is at the
    path (not a socket, a policy that forbids replacing it, a live socket), and changes
    nothing, or listens on a new socket whose file has the mode and the owner of the
    configuration, having replaced nothing but a stale socket. *)
Theorem bind_unix_outcome c s d :
  fresh_fds s → os_files s !! k_parent (ul_path c) = Some d → trusted d →
  match os_files s !! ul_path c ≫= refusal c s with
  | Some x => ∃ s', bind_unix c s = (s', Err x) ∧ os_files s' = os_files s ∧ os_socks s' = os_socks s
  | None => ∃ s' fd id, bind_unix c s = (s', Ok (mkBound (OnUnix c) fd (inl (ul_path c)) (Some id))) ∧
      os_files s' = <[ul_path c := listener_file c id]> (os_files s) ∧
      os_socks s !! fd = None ∧ os_socks s' = <[fd := mkSock (Some id) true]> (os_socks s)
  end.
Proof.
  intros Hf Hd Ht. destruct (_ ≫= _) as [x|] eqn:Hx.
  - apply bind_Some in Hx as (e & He & Hx). destruct (bind_unix_start c s d Hd Ht) as (s1 & H1 & ->).
    rewrite He. destruct (clear_stale_refused c s1 e x) as (s2 & E & H2).
    + by eapply calm_fresh.
    + by rewrite (cm_files _ _ H1).
    + unfold refusal. by rewrite (calm_live s s1 e H1).
    + exists s2. rewrite (st_bind_err _ _ _ _ _ E). assert (calm s s2) as [] by (by etrans). done.
  - destruct (bind_unix_run c s d Hf Hd Ht) as (s' & fd & id & H).
    + intros e He. by rewrite He in Hx.
    + exists s', fd, id. by destruct H as (? & ? & ? & ? & _).
Qed.

(** A listener that was bound and is closed leaves the files and sockets there were
    before, but for the stale socket it replaced; when another file has come to its path
    in between, that file stays. *)
Theorem bind_close_roundtrip c s d :
  fresh_fds s → os_files s !! k_parent (ul_path c) = Some d → trusted d → bindable c s →
  ∃ s1 b id, bind_unix c s = (s1, Ok b) ∧ bl_identity b = Some id ∧
    (∃ s2, close_listener b s1 = (s2, Ok tt) ∧ os_files s2 = delete (ul_path c) (os_files s) ∧
       os_socks s2 = os_socks s ∧ os_umask s2 = os_umask s) ∧
    (∀ e, e_id e ≠ id → ∃ s2, close_listener b (set_files <[ul_path c := e]> s1) = (s2, Ok tt) ∧
       os_files s2 = <[ul_path c := e]> (os_files s) ∧ os_socks s2 = os_socks s).
Proof.
  intros Hf Hd Ht Hb. destruct (bind_unix_run c s d Hf Hd Ht Hb) as (s1 & fd & id & E & Hf1 & Hn & Hs1 & Hu1).
  exists s1, (mkBound (OnUnix c) fd (inl (ul_path c)) (Some id)), id. split_and!; [done|done| |].
  - destruct (close_run c fd id (inl (ul_path c)) s1) as (s2 & E2 & Hf2 & Hs2 & Hu2).
    { intros e. rewrite Hf1, lookup_insert_eq. by intros [= <-]. }
    exists s2. rewrite Hf2, Hs2, Hu2, Hs1, Hu1, Hf1, lookup_insert_eq. cbn [still listener_file e_id].
    rewrite bool_decide_true by done. by rewrite delete_insert_eq, delete_insert_id.
  - intros e He. destruct (close_run c fd id (inl (ul_path c)) (set_files <[ul_path c := e]> s1)) as (s2 & E2 & Hf2 & Hs2 & _).
    { intros e'. cbn. rewrite lookup_insert_eq. by intros [= <-]. }
    exists s2. rewrite Hf2, Hs2. cbn. rewrite Hf1, lookup_insert_eq. cbn [still]. rewrite bool_decide_false by done.
    by rewrite insert_insert_eq, Hs1, delete_insert_id.
Qed.
End Quiet.

(** ** A stale socket of an earlier run *)
Module BindDemo.
Import FaultDemo.
Definition calm_machine : Kernel := {|
  k_other n f := f; k_fail n := None; k_fresh n := (1, Z.of_nat n + 100); k_listens _ _ := false;
  k_uid := 1000; k_gid := 1000; k_sockname _ := (py "127.0.0.1", 40000); k_parent _ := dir_path |}.
Lemma run_dir_trusted : trusted (K := calm_machine) run_dir.
Proof. split_and!; [done|by vm_compute|]. cbn. set_solver. Qed.
Lemma stale_bindable : bindable (K := calm_machine) unix_listener before.
Proof. intros e. vm_compute. by intros [= <-]. Qed.

Lemma bind_unix_outcome_witness :
  ∃ s' fd id, bind_unix (K := calm_machine) unix_listener before = (s', Ok (mkBound (OnUnix unix_listener) fd (inl sock_path) (Some id))) ∧
    os_files s' = <[sock_path := mkEntry FSocket id 384 1000 1000]> (os_files before).
Proof.
  destruct (bind_unix_outcome (K := calm_machine) (λ _ _, eq_refl) (λ _, eq_refl) (λ _ _ _, eq_refl)
    unix_listener before run_dir before_fresh eq_refl run_dir_trusted) as (s' & fd & id & E & Hf & _).
  exists s', fd, id. split; [exact E|exact Hf].
Defined.

Lemma bind_close_roundtrip_witness :
  ∃ s1 b s2, bind_unix (K := calm_machine) unix_listener before = (s1, Ok b) ∧
    close_listener (K := calm_machine) b s1 = (s2, Ok tt) ∧
    os_files s2 = delete sock_path (os_files before) ∧ os_socks s2 = os_socks before.
Proof.
  destruct (bind_close_roundtrip (K := calm_machine) (λ _ _, eq_refl) (λ _, eq_refl) (λ _ _ _, eq_refl)
    unix_listener before run_dir before_fresh eq_refl run_dir_trusted stale_bindable)
    as (s1 & b & id & E & _ & (s2 & Hs) & _).
  exists s1, b, s2. destruct Hs as (H1 & H2 & H3 & _). split; [exact E|]. split; [exact H1|]. split; [exact H2|exact H3].
Defined.
End BindDemo.
