(* ===== verification/Terminal.v ===== *)
(** * Terminal: values the broker checks and fits into frames
    ([remote/server.py], module functions)

    The validators of [server.py] for peer values, the UTF-8 truncation of
    diagnostic text and the search for the descriptor that still fits a frame. *)
From S2P Require Import Prelude Errors PyVal Config Worker Protocol.

(** ** Validators *)

(** [_finite_nonnegative] and [_optional_finite_nonnegative]. *)
Definition finite_nonnegative (value : pyval) : result exn pyfloat :=
  bad ← bad_duration false value;
  _ ← raise_if bad (protocol_error "must be finite and non-negative");
  to_float value.

Definition optional_finite_nonnegative (value : pyval) : result exn (option pyfloat) :=
  if is_none value then Ok None else f ← finite_nonnegative value; Ok (Some f).

(** [_validate_shutdown_deadline]. *)
Definition validate_shutdown_deadline (value : pyval) : result exn (option pyfloat) :=
  if is_none value then Ok None
  else bad ← bad_duration false value;
       _ ← raise_if bad (Raise ValueError "deadline must be finite and non-negative");
       f ← to_float value; Ok (Some f).

(** [_validate_hello]: the fields are present, then checked one by one. *)
Definition hello_required : list string :=
  ["versions"; "client_instance_id"; "serializer"; "serializer_protocol"; "python";
   "capabilities"; "max_result_bytes"; "wire"; "wire_limits"]%string.

Definition has_key (d : pydict) (n : string) : bool :=
  match pd_get d (py n) with Some _ => true | None => false end.

Definition plain_int (v : pyval) : bool := is_int v && negb (is_bool v).

Definition int_pair (v : pyval) : bool :=
  match v with
  | PList l => Z.of_nat (length l) =? 2
  | _ => false
  end && match v with PList l => forallb plain_int l | _ => false end.

Definition nonempty_str (v : pyval) : bool :=
  match v with PStr s => negb (bool_decide (s = [])) | _ => false end.

Definition positive_plain_int (v : pyval) : bool :=
  negb (is_bool v || negb (is_int v) || le_zero v).

Definition validate_hello (hello : pydict) : result exn unit :=
  _ ← raise_if (negb (forallb (has_key hello) hello_required))
        (protocol_error "HELLO is missing required fields");
  _ ← raise_if (negb match get hello "versions" with
                     | PList vs => forallb int_pair vs
                     | _ => false
                     end)
        (protocol_error "HELLO versions must be integer pairs");
  _ ← raise_if (negb (int_pair (get hello "python")))
        (protocol_error "HELLO python version must be an integer pair");
  _ ← raise_if (negb match get hello "capabilities" with
                     | PList l => forallb is_str l
                     | _ => false
                     end)
        (protocol_error "HELLO capabilities must be strings");
  _ ← res_forM (λ name, raise_if (negb (nonempty_str (get hello name)))
                          (protocol_error "HELLO field must be a non-empty string"))
        ["client_instance_id"; "serializer"; "wire"]%string;
  _ ← raise_if (128 <? match get hello "client_instance_id" with
                       | PStr s => Z.of_nat (length s)
                       | _ => 0
                       end)
        (protocol_error "HELLO client instance ID is too long");
  _ ← raise_if (is_bool (get hello "serializer_protocol")
                || negb (is_str (get hello "serializer_protocol")
                         || is_int (get hello "serializer_protocol")))
        (protocol_error "HELLO serializer protocol is invalid");
  _ ← validate_wire_limits (get hello "wire_limits");
  raise_if (negb (positive_plain_int (get hello "max_result_bytes")))
    (protocol_error "client result limit must be a positive integer").

(** ** [_truncate_utf8] *)

(** [value.encode("utf-8", errors="backslashreplace")] never fails: see
    [encode_replace_Ok]. *)
Definition encode_replace (value : pystr) : bytes :=
  match utf8_encode (backslashreplace value) with Ok b => b | Err _ => [] end.

Definition marker : pystr := py "...[truncated]".

(** [s[:n]], where a negative [n] counts from the end. *)
Definition slice_to {A} (s : list A) (n : Z) : list A :=
  take (Z.to_nat (if n <? 0 then Z.of_nat (length s) + n else n)) s.

Definition truncate_utf8 (value : pystr) (lim : Z) : pystr :=
  let encoded := encode_replace value in
  if Z.of_nat (length encoded) <=? lim then backslashreplace value
  else if lim <=? Z.of_nat (length marker) then slice_to marker lim
  else utf8_decode_ignore (slice_to encoded (lim - Z.of_nat (length marker))) ++ marker.

(** ** [_fit_terminal_descriptor] *)

(** A descriptor dictionary: field names to text, in insertion order. *)
Notation fields := (list (string * pystr)).

Definition field_of (d : Descriptor) (name : string) : option pystr :=
  if decide (name = "module"%string) then d_module d
  else if decide (name = "type"%string) then d_type d
  else if decide (name = "message"%string) then d_message d
  else if decide (name = "serialization_error"%string) then d_serialization_error d
  else if decide (name = "traceback"%string) then d_traceback d
  else None.

Definition field_names : list string :=
  ["module"; "type"; "message"; "serialization_error"; "traceback"]%string.

(** The order in which fields are emptied. *)
Definition removal_order : list string :=
  ["traceback"; "serialization_error"; "message"; "type"; "module"]%string.

Definition fields_dict (fs : fields) : pydict :=
  mkdict ((λ nv, (nv.1, PStr nv.2)) <$> fs).

(** [{"request_id": request_id, **control}]. *)
Definition with_request_id (request_id : pystr) (control : pydict) : pydict :=
  (PStr (py "request_id"), PStr request_id) :: control.

Section Fit.
Context {J : JsonText}.
Context (limits : RemoteLimits).

(** [_terminal_descriptor_fits]: only protocol errors mean "no". *)
Definition terminal_descriptor_fits (request_id : pystr) (fs : fields)
    (payload_size : Z) : result exn bool :=
  match validate_message_control (with_request_id request_id (fields_dict fs))
          payload_size limits with
  | Ok _ => Ok true
  | Err e => if isinstance e RemoteProtocolError then Ok false else Err e
  end.

(** The [while low <= high] loop; [fits] is [_terminal_descriptor_fits] with the
    candidate in place. *)
Fixpoint fit_search (fuel : nat) (fits : pystr → result exn bool) (original : pystr)
    (low high : Z) (best : pystr) : result exn pystr :=
  match fuel with
  | O => Ok best
  | S fuel' =>
      if low <=? high then
        let middle := (low + high) / 2 in
        let candidate := truncate_utf8 original middle in
        ok ← fits candidate;
        if (ok : bool) then fit_search fuel' fits original (middle + 1) high candidate
        else fit_search fuel' fits original low (middle - 1) best
      else Ok best
  end.

(** The range shrinks at every step. *)
Definition search_fuel (low high : Z) : nat := Z.to_nat (high - low + 1).

Definition bounded_fields (d : Descriptor) : fields :=
  omap (λ name, (λ v, (name, truncate_utf8 v (max_metadata_bytes limits)))
                <$> field_of d name) field_names.

(** The [for] loop: empty the fields in turn until the frame is valid, then restore
    the longest prefix of the last one. [original.encode("utf-8")] is of a
    truncated, hence encodable, string. *)
Fixpoint fit_removing (request_id : pystr) (payload_size : Z) (names : list string)
    (bounded : fields) : result exn fields :=
  match names with
  | [] => Ok []
  | name :: rest =>
      match dict_get bounded name with
      | None => fit_removing request_id payload_size rest bounded
      | Some original =>
          ok ← terminal_descriptor_fits request_id (dict_set bounded name []) payload_size;
          if negb ok then
            fit_removing request_id payload_size rest (dict_set bounded name [])
          else
            encoded ← utf8_encode original;
            let high := Z.of_nat (length encoded) in
            best ← fit_search (search_fuel 0 high)
                     (λ c, terminal_descriptor_fits request_id (dict_set bounded name c)
                             payload_size)
                     original 0 high [];
            Ok (dict_set bounded name best)
      end
  end.

Definition fit_terminal_descriptor (request_id : pystr) (d : Descriptor)
    (payload_size : Z) : result exn fields :=
  let bounded := bounded_fields d in
  ok ← terminal_descriptor_fits request_id bounded payload_size;
  if (ok : bool) then Ok bounded
  else fit_removing request_id payload_size removal_order bounded.
End Fit.

(** ** Lemmas *)

Lemma hex_digit_scalar n : is_scalar (hex_digit (n mod 16)) = true.
Proof.
  assert (n mod 16 < 16)%N by (apply N.mod_lt; lia).
  apply is_scalar_spec. unfold hex_digit. destruct (N.ltb_spec (n mod 16) 10); lia.
Qed.

(** Replacing surrogates leaves encodable characters only. *)
Lemma backslashreplace_scalar s : Forall (λ c, is_scalar c = true) (backslashreplace s).
Proof.
  unfold backslashreplace. apply Forall_bind, Forall_forall. intros c _.
  unfold compose. destruct (is_scalar c) eqn:E; [by constructor|].
  unfold hex4. repeat (constructor; [first [done|apply hex_digit_scalar]|]). constructor.
Qed.

Lemma utf8_encode_scalar s :
  Forall (λ c, is_scalar c = true) s → ∃ b, utf8_encode s = Ok b.
Proof.
  induction 1 as [|c s Hc _ [b IH]]; [by eexists|]. simpl. rewrite Hc, IH. by eexists.
Qed.

Lemma encode_replace_Ok s : utf8_encode (backslashreplace s) = Ok (encode_replace s).
Proof.
  unfold encode_replace.
  destruct (utf8_encode_scalar _ (backslashreplace_scalar s)) as [b Hb]. by rewrite Hb.
Qed.

Lemma marker_encoded : utf8_encode marker = Ok (n2b <$> marker).
Proof. reflexivity. Qed.

Lemma slice_marker lim :
  0 ≤ lim → lim ≤ Z.of_nat (length marker) →
  ∃ b, utf8_encode (slice_to marker lim) = Ok b ∧ Z.of_nat (length b) = lim.
Proof.
  intros H0 H1. unfold slice_to. rewrite (proj2 (Z.ltb_ge lim 0)) by done.
  assert (H : ∀ n, (n ≤ length marker)%nat →
    ∃ b, utf8_encode (take n marker) = Ok b ∧ length b = n).
  { intros n Hn. simpl in Hn. do 15 (destruct n as [|n]; [by eexists|]). lia. }
  destruct (H (Z.to_nat lim)) as (b & Hb & Hl); [lia|]. exists b. split; [done|lia].
Qed.

Lemma utf8_char_length c : (1 ≤ length (utf8_char c) ≤ 4)%nat.
Proof. unfold utf8_char. repeat case_match; simpl; lia. Qed.

(** What truncation keeps. *)
Lemma truncate_utf8_cases s lim :
  0 ≤ lim →
  ∃ b, utf8_encode (truncate_utf8 s lim) = Ok b ∧ Z.of_nat (length b) ≤ lim ∧
  (Z.of_nat (length (encode_replace s)) ≤ lim → truncate_utf8 s lim = backslashreplace s) ∧
  (lim < Z.of_nat (length (encode_replace s)) → Z.of_nat (length marker) < lim →
   ∃ p rest, backslashreplace s = p ++ rest ∧ truncate_utf8 s lim = p ++ marker ∧
             lim - 3 ≤ Z.of_nat (length b)).
Proof.
  intros Hlim. pose proof (encode_replace_Ok s) as He. unfold truncate_utf8.
  destruct (Z.leb_spec (Z.of_nat (length (encode_replace s))) lim) as [Hfit|Hbig].
  { exists (encode_replace s). split_and!; [done|done|done|lia]. }
  destruct (Z.leb_spec lim (Z.of_nat (length marker))) as [Hm|Hm].
  { destruct (slice_marker lim Hlim Hm) as (b & Hb & Hl).
    exists b. split_and!; [done|lia|lia|lia]. }
  unfold slice_to. rewrite (proj2 (Z.ltb_ge _ 0)) by lia.
  set (n := Z.to_nat (lim - Z.of_nat (length marker))).
  destruct (utf8_decode_ignore_take _ _ n He) as (s1 & s2 & b1 & Hs & -> & Hb1 & Hl & Hp & Hs2).
  exists (b1 ++ (n2b <$> marker)).
  assert (Hlen : length (b1 ++ (n2b <$> marker)) = (length b1 + length marker)%nat)
    by (by rewrite length_app, length_fmap).
  split_and!; [by apply utf8_encode_app|rewrite Hlen; lia|lia|].
  intros _ _. exists s1, s2. split_and!; [done|done|]. rewrite Hlen.
  destruct s2 as [|c s2].
  - rewrite app_nil_r in Hs. rewrite Hs in He. rewrite Hb1 in He. injection He as He.
    rewrite <- He in Hbig. lia.
  - pose proof (utf8_char_length c). lia.
Qed.

(** ** The binary search *)
Section Search.
Context (fits : pystr → result exn bool) (original : pystr).

Lemma fit_search_step fuel low high best :
  fit_search (S fuel) fits original low high best
  = if low <=? high then
      ok ← fits (truncate_utf8 original ((low + high) / 2));
      if (ok : bool)
      then fit_search fuel fits original ((low + high) / 2 + 1) high
             (truncate_utf8 original ((low + high) / 2))
      else fit_search fuel fits original low ((low + high) / 2 - 1) best
    else Ok best.
Proof. done. Qed.

Lemma middle_bounds low high : low ≤ high → low ≤ (low + high) / 2 ≤ high.
Proof.
  intros. split; [apply Z.div_le_lower_bound; lia|apply Z.div_le_upper_bound; lia].
Qed.

Lemma fit_search_empty n low high best :
  high < low → fit_search n fits original low high best = Ok best.
Proof.
  intros H. destruct n; [done|]. rewrite fit_search_step.
  by rewrite (proj2 (Z.leb_gt low high)).
Qed.

(** Fuel above the size of the range is never used up. *)
Lemma fit_search_fuel n1 n2 low high best :
  (search_fuel low high ≤ n1)%nat → (search_fuel low high ≤ n2)%nat →
  fit_search n1 fits original low high best = fit_search n2 fits original low high best.
Proof.
  unfold search_fuel. revert n2 low high best.
  induction n1 as [|n1 IH]; intros n2 low high best H1 H2;
    (destruct (Z.leb_spec low high) as [Hle|Hgt]; [|by rewrite !fit_search_empty]); [lia|].
  destruct n2 as [|n2]; [lia|]. rewrite !fit_search_step, (proj2 (Z.leb_le low high)) by done.
  pose proof (middle_bounds low high Hle).
  destruct (fits _) as [[]|]; simpl; [apply IH; lia|apply IH; lia|done].
Qed.

(** The result is the initial one or a candidate that fits. *)
Lemma fit_search_fits n low high best r :
  fits best = Ok true → fit_search n fits original low high best = Ok r →
  fits r = Ok true ∧ (r = best ∨ ∃ m, low ≤ m ≤ high ∧ r = truncate_utf8 original m).
Proof.
  revert low high best. induction n as [|n IH]; intros low high best Hb H.
  { injection H as <-. auto. }
  rewrite fit_search_step in H.
  destruct (Z.leb_spec low high) as [Hle|]; [|injection H as <-; auto].
  pose proof (middle_bounds low high Hle).
  apply bind_Ok in H as (ok & Hok & H). destruct ok.
  - destruct (IH _ _ _ Hok H) as [Hr [->|(m & ? & ->)]]; (split; [done|right; eexists; split; [|done]; lia]).
  - destruct (IH _ _ _ Hb H) as [Hr [->|(m & ? & ->)]]; (split; [done|]); [by left|right].
    eexists; split; [|done]; lia.
Qed.

(** With a monotone test, every candidate above the result fails. *)
Lemma fit_search_maximal n low high best r :
  low - 1 ≤ high → (search_fuel low high ≤ n)%nat →
  (∀ c, ∃ b, fits c = Ok b) →
  (∀ m m', low ≤ m ≤ m' → m' ≤ high → fits (truncate_utf8 original m') = Ok true →
     fits (truncate_utf8 original m) = Ok true) →
  fit_search n fits original low high best = Ok r →
  ∃ k, low - 1 ≤ k ≤ high ∧
    r = (if decide (k = low - 1) then best else truncate_utf8 original k) ∧
    (∀ m, low ≤ m ≤ k → fits (truncate_utf8 original m) = Ok true) ∧
    (∀ m, k < m ≤ high → fits (truncate_utf8 original m) = Ok false).
Proof.
  unfold search_fuel. revert low high best.
  induction n as [|n IH]; intros low high best Hlh Hn Htot Hmono H;
    (destruct (Z.leb_spec low high) as [Hle|Hgt];
      [|rewrite fit_search_empty in H by done; injection H as <-]).
  - lia.
  - exists (low - 1). rewrite decide_True by done. split_and!; [lia|lia|done|intros; lia..].
  - rewrite fit_search_step, (proj2 (Z.leb_le low high)) in H by done.
    pose proof (middle_bounds low high Hle) as Hm.
    set (mid := (low + high) / 2) in *. apply bind_Ok in H as ([] & Hok & H).
    + destruct (IH (mid + 1) high (truncate_utf8 original mid)) as (k & Hk & -> & H1 & H2);
        [lia|lia|done|intros m m' ?; apply Hmono; lia|done|].
      exists k. split_and!; [lia|lia| | |done].
      * rewrite (decide_False (P := k = low - 1)) by lia.
        case_decide; [|done]. by replace k with mid by lia.
      * intros m Hlm. destruct (decide (m ≤ mid)); [|apply H1; lia].
        apply (Hmono m mid); [lia|lia|done].
    + destruct (IH low (mid - 1) best) as (k & Hk & -> & H1 & H2);
        [lia|lia|done|intros m m' ? ?; apply Hmono; lia|done|].
      exists k. split_and!; [lia|lia|done|done|].
      intros m Hkm. destruct (decide (m ≤ mid - 1)); [apply H2; lia|].
      destruct (Htot (truncate_utf8 original m)) as [[] Hb]; [|done].
      rewrite (Hmono mid m) in Hok; [done|lia|lia|done].
  - exists (low - 1). rewrite decide_True by done. split_and!; [lia|lia|done|intros; lia..].
Qed.
End Search.

Lemma terminal_fits_bool {J : JsonText} limits rid fs size b :
  terminal_descriptor_fits limits rid fs size = Ok b →
  b = is_Ok (validate_message_control (with_request_id rid (fields_dict fs)) size limits).
Proof.
  unfold terminal_descriptor_fits. destruct (validate_message_control _ _ _); simpl.
  - by intros [= <-].
  - case_match; by intros [= <-].
Qed.

Lemma bounded_fields_wf limits d :
  dict_wf (bounded_fields limits d) ∧
  (bounded_fields limits d).*1 = filter (λ n, is_Some (field_of d n)) field_names.
Proof.
  assert (H : (bounded_fields limits d).*1 = filter (λ n, is_Some (field_of d n)) field_names).
  { unfold bounded_fields. induction field_names as [|n ns IH]; [done|].
    csimpl. destruct (field_of d n) eqn:E; csimpl.
    - rewrite filter_cons_True by eauto. by rewrite IH.
    - rewrite filter_cons_False by (intros [? ?]; congruence). done. }
  split; [|done]. unfold dict_wf. rewrite H. apply NoDup_filter.
  apply (bool_decide_unpack _). by vm_compute.
Qed.

Lemma fit_removing_fits {J : JsonText} limits rid size names bounded fs :
  fit_removing limits rid size names bounded = Ok fs →
  fs = [] ∨ terminal_descriptor_fits limits rid fs size = Ok true.
Proof.
  revert bounded. induction names as [|n names IH]; intros bounded; simpl.
  - intros [= <-]. by left.
  - destruct (dict_get bounded n) as [original|]; [|apply IH].
    intros (ok & Hok & H)%bind_Ok. destruct ok; simpl in H; [|by eapply IH].
    apply bind_Ok in H as (enc & _ & H). apply bind_Ok in H as (best & Hbest & [= <-]).
    right. by apply (fit_search_fits _ _ _ _ _ _ _ Hok) in Hbest as [? _].
Qed.

(** ** No other exception *)

Definition encodable (s : pystr) : Prop := ∃ b, utf8_encode s = Ok b.

Definition protocol_only {A} (r : result exn A) : Prop :=
  ∀ e, r = Err e → isinstance e RemoteProtocolError = true.

Lemma protocol_only_Ok {A} (a : A) : protocol_only (Ok a).
Proof. done. Qed.
Lemma protocol_only_err {A} msg : protocol_only (A := A) (Err (protocol_error msg)).
Proof. by intros e [= <-]. Qed.
Lemma protocol_only_raise b msg : protocol_only (raise_if b (protocol_error msg)).
Proof. destruct b; [apply protocol_only_err|done]. Qed.
Lemma protocol_only_bind {A B} (m : result exn A) (f : A → result exn B) :
  protocol_only m → (∀ a, m = Ok a → protocol_only (f a)) → protocol_only (m ≫= f).
Proof. intros Hm Hf e. destruct m; simpl; [by apply Hf|]. intros [= <-]. by apply Hm. Qed.
#[local] Hint Resolve protocol_only_Ok protocol_only_err protocol_only_raise
  protocol_only_bind : deadpool.

(** Every string in a value has an encoding. *)
Definition encodable_value (v : pyval) : Prop :=
  ∀ d w, sub_at v d w → match w with PStr s => encodable s | _ => True end.

Lemma encodable_dict d :
  Forall (λ kv, encodable_value kv.1 ∧ encodable_value kv.2) d → encodable_value (PDict d).
Proof.
  rewrite Forall_forall. intros H i w Hs.
  inversion Hs as [|????? |? k x ?? Hin Hk|? k x ?? Hin Hk]; subst; [done| |];
    destruct (H _ Hin) as [H1 H2]; [by eapply H1|by eapply H2].
Qed.

Lemma encodable_str s : encodable s → encodable_value (PStr s).
Proof. intros H d w Hs. by inversion Hs. Qed.
Lemma encodable_int z : encodable_value (PInt z).
Proof. intros d w Hs. by inversion Hs. Qed.

Lemma encodable_py s : is_Ok (utf8_encode (py s)) = true → encodable_value (PStr (py s)).
Proof. intros H. apply encodable_str. destruct (utf8_encode (py s)) eqn:E; [by eexists|done]. Qed.
#[local] Hint Resolve encodable_str encodable_int encodable_py : deadpool.
#[local] Hint Extern 1 (is_Ok _ = true) => reflexivity : deadpool.
#[local] Hint Extern 1 (encodable (zeros _)) => eexists; reflexivity : deadpool.

Lemma validate_json_protocol_only limits depth v :
  encodable_value v → protocol_only (validate_json limits depth v).
Proof.
  revert depth. induction v as [| | | |s|l IH|dd IH|] using pyval_ind'; intros depth Hv;
    simpl; (case_match; [auto with deadpool|]); auto with deadpool.
  - destruct (Hv 0 _ (sub_here _)) as [b ->]. simpl. auto with deadpool.
  - case_match; [auto with deadpool|]. 
    assert (Hl : Forall encodable_value l).
    { apply Forall_forall. intros x Hx d w Hs. apply (Hv (d + 1)). by eapply sub_item. }
    clear -IH Hl. induction l as [|x l IHl]; [done|].
    apply Forall_cons in IH as [IHx IH]. apply Forall_cons in Hl as [Hx Hl].
    apply protocol_only_bind; [by apply IHx|intros _ _; by apply IHl].
  - case_match; [auto with deadpool|].
    assert (Hl : Forall (λ kv, encodable_value kv.1 ∧ encodable_value kv.2) dd).
    { apply Forall_forall. intros [k x] Hx. split; intros d w Hs; apply (Hv (d + 1));
        [by eapply sub_key|by eapply sub_val]. }
    clear -IH Hl. induction dd as [|[k x] dd IHd]; [done|].
    apply Forall_cons in IH as [[IHk IHx] IH]. apply Forall_cons in Hl as [[Hk Hx] Hl].
    case_match; [auto with deadpool|].
    apply protocol_only_bind; [by apply IHk|intros _ _].
    apply protocol_only_bind; [by apply IHx|intros _ _; by apply IHd].
Qed.

Lemma terminal_fits_Ok {J : JsonText} limits rid fs size :
  encodable rid → Forall (λ nv, is_Ok (utf8_encode (py nv.1)) = true ∧ encodable nv.2) fs →
  ∃ b, terminal_descriptor_fits limits rid fs size = Ok b.
Proof.
  intros Hrid Hfs. unfold terminal_descriptor_fits.
  destruct (validate_message_control _ _ _) as [|e] eqn:E; [by eexists|].
  assert (Hp : isinstance e RemoteProtocolError = true); [|rewrite Hp; by eexists].
  revert e E. change (protocol_only
    (validate_message_control (with_request_id rid (fields_dict fs)) size limits)).
  unfold validate_message_control, message_chunk_count, encode_frame_control, json_dumps.
  apply protocol_only_bind; [auto with deadpool|intros count _].
  apply protocol_only_bind; [|auto with deadpool].
  apply protocol_only_bind; [|intros _ _; apply protocol_only_bind; auto with deadpool].
  apply validate_json_protocol_only, encodable_dict.
  repeat (apply Forall_cons; split; [split; cbn [fst snd]; auto with deadpool|]); [|constructor].
  cbn [snd]. apply encodable_dict. apply Forall_cons.
  split; [split; cbn [fst snd]; auto with deadpool|].
  unfold fields_dict, mkdict. rewrite !Forall_fmap. eapply Forall_impl; [exact Hfs|].
  intros [n v] [Hn Hv]. split; cbn [fst snd]; auto with deadpool.
Qed.

Lemma encodable_nil : encodable [].
Proof. by eexists. Qed.
Lemma truncate_encodable s lim : 0 ≤ lim → encodable (truncate_utf8 s lim).
Proof. intros H. destruct (truncate_utf8_cases s lim H) as (b & Hb & _). by exists b. Qed.

Notation fields_ok :=
  (Forall (λ nv : string * pystr, is_Ok (utf8_encode (py nv.1)) = true ∧ encodable nv.2)).

Lemma fields_ok_set fs n v :
  fields_ok fs → is_Ok (utf8_encode (py n)) = true → encodable v → fields_ok (dict_set fs n v).
Proof.
  intros H Hn Hv. induction H as [|[n' v'] fs [Hn' Hv'] H IH]; simpl.
  - by repeat constructor.
  - case_decide; by repeat constructor.
Qed.

Lemma fields_ok_get fs n v :
  fields_ok fs → dict_get fs n = Some v → encodable v ∧ is_Ok (utf8_encode (py n)) = true.
Proof.
  intros H Hg. apply dict_get_Some_elem in Hg. rewrite Forall_forall in H.
  by destruct (H _ Hg).
Qed.

Lemma bounded_fields_ok limits d :
  0 ≤ max_metadata_bytes limits → fields_ok (bounded_fields limits d).
Proof.
  intros Hm. apply Forall_forall. intros [n v]. unfold bounded_fields.
  rewrite list_elem_of_omap. intros (n' & Hn & Hf). 
  destruct (field_of d n') as [t|]; [|done]. injection Hf as -> <-. split.
  - revert n Hn. apply Forall_forall. by repeat constructor.
  - by apply truncate_encodable.
Qed.

Lemma fit_search_total n fits original low high best :
  0 ≤ low → encodable best → (∀ c, encodable c → ∃ b, fits c = Ok b) →
  ∃ r, fit_search n fits original low high best = Ok r ∧ encodable r.
Proof.
  intros Hlow Hb Hfits. revert low high best Hlow Hb.
  induction n as [|n IH]; intros low high best Hlow Hb; [by eexists|].
  rewrite fit_search_step. destruct (Z.leb_spec low high) as [Hle|]; [|by eexists].
  pose proof (middle_bounds low high Hle).
  assert (Henc : encodable (truncate_utf8 original ((low + high) / 2)))
    by (apply truncate_encodable; lia).
  destruct (Hfits _ Henc) as [[] ->]; simpl; apply IH; auto; lia.
Qed.

Lemma fit_removing_total {J : JsonText} limits rid size names bounded :
  encodable rid → fields_ok bounded →
  ∃ fs, fit_removing limits rid size names bounded = Ok fs.
Proof.
  intros Hrid. revert bounded. induction names as [|n names IH]; intros bounded Hb; simpl.
  { by eexists. }
  destruct (dict_get bounded n) as [original|] eqn:Hg; [|by apply IH].
  destruct (fields_ok_get _ _ _ Hb Hg) as [[enc Henc] Hn].
  assert (Hfits : ∀ c, encodable c → ∃ b,
    terminal_descriptor_fits limits rid (dict_set bounded n c) size = Ok b).
  { intros c Hc. apply terminal_fits_Ok; [done|]. by apply fields_ok_set. }
  destruct (Hfits [] encodable_nil) as [[] ->]; simpl.
  - rewrite Henc. simpl.
    destruct (fit_search_total (search_fuel 0 (Z.of_nat (length enc)))
      (λ c, terminal_descriptor_fits limits rid (dict_set bounded n c) size)
      original 0 (Z.of_nat (length enc)) []) as (r & -> & _); [done|apply encodable_nil|done|].
    by eexists.
  - apply IH. apply fields_ok_set; [done|done|apply encodable_nil].
Qed.

(** ** Numbers that are accepted *)

Lemma binary_normalize_sign z f n :
  0 ≤ z → binary_normalize 53 1024 z 0 false = f → int_of_float f = Ok n → 0 ≤ n.
Proof.
  intros Hz Hf. assert (Hs : match f with S754_finite true _ _ => False | _ => True end).
  { subst f. unfold binary_normalize, binary_round, binary_round_aux.
    destruct z; [done| |lia]. repeat case_match; done. }
  destruct f as [| | |[] m e]; simpl; try done; [by intros [= <-]|].
  intros [= <-]. destruct (0 <=? e) eqn:E; zbool.
  - pose proof (Z.pow_nonneg 2 e). lia.
  - apply Z.div_pos; [lia|]. apply Z.pow_pos_nonneg; lia.
Qed.

(** [int(_finite_nonnegative(value))] is not negative. *)
Lemma finite_nonnegative_int v f n :
  finite_nonnegative v = Ok f → int_of_float f = Ok n → 0 ≤ n.
Proof.
  unfold finite_nonnegative, bad_duration. intros (bad & Hbad & H)%bind_Ok Hn.
  apply bind_Ok in H as (u & ->%raise_if_Ok & Hf). destruct v; try done; simpl in *.
  - unfold float_of_int in *. destruct (isfinite_float _); [|done]. simpl in Hbad.
    injection Hbad as Hz. injection Hf as Hf. zbool. by eapply binary_normalize_sign.
  - injection Hf as ->. destruct f as [| | |[] m e]; try done; simpl in Hn.
    + by injection Hn as <-.
    + injection Hn as <-. destruct (0 <=? e) eqn:E; zbool.
      * pose proof (Z.pow_nonneg 2 e). lia.
      * apply Z.div_pos; [lia|]. apply Z.pow_pos_nonneg; lia.
Qed.

(** ** Properties *)

(** [_truncate_utf8] returns text that encodes to at most [limit] bytes for every
    string, surrogates included: the whole text when it fits, and otherwise a prefix
    of whole characters followed by the marker, at most three bytes short. *)
Theorem truncate_utf8_bounded s lim :
  0 ≤ lim →
  ∃ b, utf8_encode (truncate_utf8 s lim) = Ok b ∧ Z.of_nat (length b) ≤ lim ∧
  (Z.of_nat (length (encode_replace s)) ≤ lim → truncate_utf8 s lim = backslashreplace s) ∧
  (lim < Z.of_nat (length (encode_replace s)) → Z.of_nat (length marker) < lim →
   ∃ p rest, backslashreplace s = p ++ rest ∧ truncate_utf8 s lim = p ++ marker ∧
             lim - 3 ≤ Z.of_nat (length b)).
Proof. apply truncate_utf8_cases. Qed.

(** Nine two-byte characters cut at 17 bytes: one of them fits before the marker. *)
Lemma truncate_utf8_bounded_witness :
  truncate_utf8 (repeat 233%N 9) 17 = [233%N] ++ marker ∧
  ∃ b, utf8_encode (truncate_utf8 (repeat 233%N 9) 17) = Ok b ∧ Z.of_nat (length b) ≤ 17.
Proof.
  split; [vm_compute; reflexivity|].
  destruct (truncate_utf8_bounded (repeat 233%N 9) 17 ltac:(lia)) as (b & Hb & Hl & _).
  exists b. split; [exact Hb|exact Hl].
Defined.

(** [_fit_terminal_descriptor] always returns, whatever text the descriptor
    holds, and the control data it returns passes the frame check of the sender
    (or it is empty): a terminal outcome is never lost to an oversized diagnostic. *)
Theorem fit_terminal_descriptor_fits {J : JsonText} limits rid d size :
  limits_ok limits → encodable rid →
  ∃ fs, fit_terminal_descriptor limits rid d size = Ok fs ∧
    (fs = [] ∨ validate_message_control (with_request_id rid (fields_dict fs)) size limits
               = Ok tt).
Proof.
  intros Hl Hrid. unfold fit_terminal_descriptor.
  assert (Hb : fields_ok (bounded_fields limits d)).
  { apply bounded_fields_ok. destruct Hl as [Hpos _ _ _ _ _ _ _ _ _].
    do 6 (apply Forall_cons in Hpos as [? Hpos]). lia. }
  assert (Hfits : ∀ fs, terminal_descriptor_fits limits rid fs size = Ok true →
    validate_message_control (with_request_id rid (fields_dict fs)) size limits = Ok tt).
  { intros fs Hfs. apply terminal_fits_bool in Hfs. by destruct (validate_message_control _ _ _) as [[]|]. }
  destruct (terminal_fits_Ok limits rid _ size Hrid Hb) as [[] E]; rewrite E.
  { eexists. split; [reflexivity|]. right. by apply Hfits. }
  destruct (fit_removing_total limits rid size removal_order _ Hrid Hb) as [fs Hfs].
  exists fs. split; [done|]. apply fit_removing_fits in Hfs as [->|?]; eauto.
Qed.

(** With this [json.dumps], whose output for a frame is 512 bytes plus twice the
    message, a long message is cut to what the frame takes. *)
#[local] Instance demo_text : JsonText :=
  {| json_text := λ v, match v with
                       | PDict d => match get d "control" with
                                    | PDict c => match get c "message" with
                                                 | PStr m => repeat 97%N (512 + 2 * length m)
                                                 | _ => []
                                                 end
                                    | _ => []
                                    end
                       | _ => []
                       end;
     json_value := λ _, Ok PNone |}.

Lemma fit_terminal_descriptor_fits_witness :
  ∃ fs, fit_terminal_descriptor {| default_remote_limits with max_control_bytes := 600 |}
          (py "c:1") {| d_module := None; d_type := None; d_message := Some (repeat 98%N 100);
                        d_traceback := None; d_serialization_error := None |} 0 = Ok fs ∧
        (length fs = 1)%nat.
Proof.
  destruct (fit_terminal_descriptor_fits {| default_remote_limits with max_control_bytes := 600 |}
    (py "c:1") {| d_module := None; d_type := None; d_message := Some (repeat 98%N 100);
                  d_traceback := None; d_serialization_error := None |} 0) as (fs & Hfs & _).
  - split; try (vm_compute; congruence); by repeat constructor.
  - by eexists.
  - exists fs. split; [exact Hfs|]. vm_compute in Hfs. injection Hfs as <-. reflexivity.
Defined.


