(* ===== verification/Scheduler.v ===== *)
(** * Scheduler: the fair broker scheduler ([remote/_scheduler.py])

    [FairScheduler] keeps one bucket per priority; a bucket is a ring of
    principals and one FIFO queue per principal. [put_], [pop] and [remove] are
    the three methods that change it. The abstract view of a scheduler is a
    function from priorities to rings of (principal, non-empty queue) pairs;
    the refinement theorems say what each method does to the view, and
    [pop_served_in_turn] is the fairness the class promises. *)
From S2P Require Import Prelude Errors Heapq.

Section FairScheduler.
Context {T : Type} `{EqDecision T}.
Context {P : Type} `{EqDecision P}.
Context `{!HeapQ Z Z.le}.

(** ** State *)

(** [_Priority]: [queued] is a [defaultdict(deque)]. *)
Record Priority := mkPriority {
  principals : list P;
  queued : list (P * list T) }.

Record FairScheduler := mkScheduler {
  priorities : list (Z * Priority);
  heap : list Z;
  size : Z }.

Definition scheduler_init : FairScheduler := mkScheduler [] [] 0.

(** ** Operations *)

(** [defaultdict.__getitem__]: a missing principal has an empty queue, which the
    access inserts; the insertion is overwritten or deleted by each caller. *)
Definition queue_of (b : Priority) (p : P) : list T :=
  default [] (dict_get (queued b) p).

(** The bucket after [put] (the end of [_put]). *)
Definition bucket_put (b : Priority) (item : T) (principal : P) (front : bool)
    : Priority :=
  let queue := queue_of b principal in
  let ring := match queue with
              | [] => principals b ++ [principal]
              | _ => principals b
              end in
  let queue' := if front then item :: queue else queue ++ [item] in
  mkPriority ring (dict_set (queued b) principal queue').

Definition put_ (s : FairScheduler) (item : T) (priority : Z) (principal : P)
    (front : bool) : FairScheduler :=
  let '(bucket, h) :=
    match dict_get (priorities s) priority with
    | Some b => (b, heap s)
    | None => (mkPriority [] [], heappush (heap s) priority)
    end in
  mkScheduler
    (dict_set (priorities s) priority (bucket_put bucket item principal front))
    h (size s + 1).

Definition put (s : FairScheduler) (item : T) (priority : Z) (principal : P) :=
  put_ s item priority principal false.
Definition put_front (s : FairScheduler) (item : T) (priority : Z) (principal : P) :=
  put_ s item priority principal true.

(** The bucket part of [pop]: serve the principal at the head of the ring; it
    goes to the back when its queue is not empty. *)
Definition bucket_pop (b : Priority) : result exn (T * Priority) :=
  match principals b with
  | [] => Err (Raise IndexError "pop from an empty deque")
  | principal :: ring =>
    match queue_of b principal with
    | [] => Err (Raise IndexError "pop from an empty deque")
    | [item] => Ok (item, mkPriority ring (dict_del (queued b) principal))
    | item :: queue =>
        Ok (item, mkPriority (ring ++ [principal])
                    (dict_set (queued b) principal queue))
    end
  end.

(** [pop]; the [KeyError] and the later [IndexError] are the subscripts of a
    missing entry, which [pop_ok] excludes. *)
Definition pop (s : FairScheduler) : result exn (T * FairScheduler) :=
  if size s =? 0 then Err (Raise IndexError "scheduler is empty") else
  match heap s with
  | [] => Err (Raise IndexError "list index out of range")
  | priority :: _ =>
    match dict_get (priorities s) priority with
    | None => Err (Raise KeyError "priority")
    | Some bucket =>
      '(item, bucket') ← bucket_pop bucket;
      match principals bucket' with
      | [] =>
          match heappop (heap s) with
          | None => Err (Raise IndexError "index out of range")
          | Some (_, h') =>
              Ok (item, mkScheduler (dict_del (priorities s) priority) h'
                          (size s - 1))
          end
      | _ =>
          Ok (item, mkScheduler (dict_set (priorities s) priority bucket')
                      (heap s) (size s - 1))
      end
    end
  end.

(** The first queue, in iteration order, that holds [item], with that queue
    after [queue.remove(item)]. *)
Fixpoint find_in_queues (item : T) (qs : list (P * list T)) : option (P * list T) :=
  match qs with
  | [] => None
  | (p, q) :: qs' =>
      match list_del item q with
      | Some q' => Some (p, q')
      | None => find_in_queues item qs'
      end
  end.

Fixpoint find_in_priorities (item : T) (ps : list (Z * Priority))
    : option (Z * Priority * P * list T) :=
  match ps with
  | [] => None
  | (priority, b) :: ps' =>
      match find_in_queues item (queued b) with
      | Some (p, q') => Some (priority, b, p, q')
      | None => find_in_priorities item ps'
      end
  end.

(** The bucket part of [remove], after [queue.remove(item)] left [queue]. *)
Definition bucket_remove (b : Priority) (principal : P) (queue : list T) : Priority :=
  match queue with
  | [] => mkPriority
            (default (principals b) (list_del principal (principals b)))
            (dict_del (queued b) principal)
  | _ => mkPriority (principals b) (dict_set (queued b) principal queue)
  end.

Definition remove (s : FairScheduler) (item : T) : result exn (bool * FairScheduler) :=
  match find_in_priorities item (priorities s) with
  | None => Ok (false, s)
  | Some (priority, bucket, principal, queue) =>
    let bucket' := bucket_remove bucket principal queue in
    match principals bucket' with
    | [] =>
        match list_del priority (heap s) with
        | None => Err (Raise ValueError "list.remove(x): x not in list")
        | Some h' => Ok (true, mkScheduler (dict_del (priorities s) priority)
                                 (heapify h') (size s - 1))
        end
    | _ => Ok (true, mkScheduler (dict_set (priorities s) priority bucket')
                       (heap s) (size s - 1))
    end
  end.

(** [__len__] and [__bool__]. *)
Definition len (s : FairScheduler) : Z := size s.
Definition truthy (s : FairScheduler) : bool := negb (size s =? 0).

(** ** Abstract view *)

(** The ring of a bucket, in service order, with the queue of each principal. *)
Definition ring_of (b : Priority) : list (P * list T) :=
  (λ p, (p, queue_of b p)) <$> principals b.

Definition view (s : FairScheduler) (priority : Z) : list (P * list T) :=
  match dict_get (priorities s) priority with
  | Some b => ring_of b
  | None => []
  end.

Definition ring_items (r : list (P * list T)) : list T := concat r.*2.
Definition items (s : FairScheduler) : list T :=
  concat ((λ pb, ring_items (ring_of pb.2)) <$> priorities s).

(** What the methods do to a ring. *)
Fixpoint ring_put (r : list (P * list T)) (p : P) (x : T) (front : bool)
    : list (P * list T) :=
  match r with
  | [] => [(p, [x])]
  | (p', q) :: r' =>
      if decide (p = p') then (p', if front then x :: q else q ++ [x]) :: r'
      else (p', q) :: ring_put r' p x front
  end.

(** Serve the principal at the head; it goes to the back when it has more. *)
Definition ring_serve (p : P) (q : list T) (r : list (P * list T))
    : list (P * list T) :=
  match q with [] => r | _ => r ++ [(p, q)] end.

Fixpoint ring_remove (r : list (P * list T)) (p : P) (q' : list T)
    : list (P * list T) :=
  match r with
  | [] => []
  | (p', q) :: r' =>
      if decide (p = p') then match q' with [] => r' | _ => (p', q') :: r' end
      else (p', q) :: ring_remove r' p q'
  end.

(** ** Well-formedness *)

(** A bucket whose ring and dictionary agree; an installed bucket is also live. *)
Record bucket_wf (b : Priority) : Prop := {
  bwf_ring : NoDup (principals b);
  bwf_dict : dict_wf (queued b);
  bwf_keys : ∀ p, p ∈ (queued b).*1 ↔ p ∈ principals b;
  bwf_nonempty : ∀ p q, dict_get (queued b) p = Some q → q ≠ [] }.

Record wf (s : FairScheduler) : Prop := {
  wf_dict : dict_wf (priorities s);
  wf_heap : is_heap (heap s);
  wf_keys : heap s ≡ₚ (priorities s).*1;
  wf_buckets : ∀ pr b, dict_get (priorities s) pr = Some b →
                 bucket_wf b ∧ principals b ≠ [];
  wf_size : size s = Z.of_nat (length (items s)) }.

(** ** Rings *)

Definition tab (f : P → list T) (l : list P) : list (P * list T) :=
  (λ p, (p, f p)) <$> l.

Lemma tab_ext f g l : (∀ p, p ∈ l → f p = g p) → tab f l = tab g l.
Proof.
  intros H. apply list_fmap_ext. intros i p Hi. f_equal. apply H.
  by eapply list_elem_of_lookup_2.
Qed.

Lemma tab_app f l1 l2 : tab f (l1 ++ l2) = tab f l1 ++ tab f l2.
Proof. apply fmap_app. Qed.

Definition queue_put (q : list T) (x : T) (front : bool) : list T :=
  if front then x :: q else q ++ [x].

Definition upd (f : P → list T) (p : P) (q : list T) : P → list T :=
  λ p', if decide (p = p') then q else f p'.

Lemma tab_upd_notin f p q l : p ∉ l → tab (upd f p q) l = tab f l.
Proof.
  intros Hp. apply tab_ext. intros p' Hp'. unfold upd.
  rewrite decide_False; [done|naive_solver].
Qed.

Lemma ring_put_tab_notin f l p x fr :
  p ∉ l → ring_put (tab f l) p x fr = tab f l ++ [(p, [x])].
Proof.
  induction l as [|p' l IH]; [done|]. rewrite not_elem_of_cons. intros [??].
  csimpl. rewrite decide_False by done. by rewrite IH.
Qed.

Lemma ring_put_tab_in f l p x fr :
  NoDup l → p ∈ l →
  ring_put (tab f l) p x fr = tab (upd f p (queue_put (f p) x fr)) l.
Proof.
  induction l as [|p' l IH]; [by intros _ ?%not_elem_of_nil|].
  intros [Hp' Hnd]%NoDup_cons [->|Hp]%elem_of_cons; csimpl.
  - unfold upd at 1. rewrite !decide_True by done. f_equal.
    by rewrite tab_upd_notin.
  - destruct (decide (p = p')) as [->|]; [done|]. unfold upd at 1.
    rewrite decide_False by done. by rewrite IH.
Qed.

Lemma ring_remove_tab_cons f l p q :
  NoDup l → p ∈ l → q ≠ [] → ring_remove (tab f l) p q = tab (upd f p q) l.
Proof.
  induction l as [|p' l IH]; [by intros _ ?%not_elem_of_nil|].
  intros [Hp' Hnd]%NoDup_cons [->|Hp]%elem_of_cons Hq; csimpl.
  - unfold upd at 1. rewrite !decide_True by done.
    destruct q; [done|]. f_equal. by rewrite tab_upd_notin.
  - destruct (decide (p = p')) as [->|]; [done|]. unfold upd at 1.
    rewrite decide_False by done. by rewrite IH.
Qed.

Lemma ring_remove_tab_nil f l l' p :
  NoDup l → list_del p l = Some l' → ring_remove (tab f l) p [] = tab f l'.
Proof.
  revert l'. induction l as [|p' l IH]; [done|]. csimpl.
  intros l' [Hp' Hnd]%NoDup_cons. case_decide; [naive_solver|].
  destruct (list_del p l) as [l1|] eqn:E; [|done]. csimpl.
  intros [= <-]. by rewrite (IH l1).
Qed.

(** ** Buckets *)

Lemma ring_of_tab b : ring_of b = tab (queue_of b) (principals b).
Proof. done. Qed.

Lemma empty_bucket_wf : bucket_wf (mkPriority [] []).
Proof. split; csimpl; auto using NoDup_nil_2, dict_wf_nil; done. Qed.

Lemma queue_of_set b l p q p' :
  queue_of (mkPriority l (dict_set (queued b) p q)) p' = upd (queue_of b) p q p'.
Proof.
  unfold queue_of, upd. csimpl. rewrite dict_get_set. by case_decide.
Qed.

Lemma queue_of_del b l p p' :
  p ≠ p' → queue_of (mkPriority l (dict_del (queued b) p)) p' = queue_of b p'.
Proof. intros. unfold queue_of. csimpl. by rewrite dict_get_del_ne. Qed.

Lemma queue_of_in b p :
  bucket_wf b → p ∈ principals b ↔ queue_of b p ≠ [].
Proof.
  intros Hb. rewrite <- (bwf_keys b Hb). unfold queue_of.
  destruct (dict_get (queued b) p) as [q|] eqn:E; csimpl.
  - split; [intros _; by eapply bwf_nonempty|intros _].
    by eapply dict_get_Some_key.
  - apply dict_get_None in E. naive_solver.
Qed.

Lemma queue_of_notin b p : bucket_wf b → p ∉ principals b → queue_of b p = [].
Proof.
  intros Hb Hp. destruct (queue_of b p) eqn:E; [done|].
  destruct Hp. apply queue_of_in; [done|]. by rewrite E.
Qed.

(** Storing a non-empty queue for [p], with a ring that lists the keys. *)
Lemma bucket_store_wf b p q l :
  bucket_wf b → q ≠ [] → NoDup l →
  (∀ p', p' ∈ l ↔ p' = p ∨ p' ∈ principals b) →
  bucket_wf (mkPriority l (dict_set (queued b) p q)).
Proof.
  intros Hb Hq Hl Hin. split; csimpl; [done|by apply dict_set_wf, Hb| |].
  - intros p'. rewrite Hin, <- (bwf_keys b Hb), dict_keys_set.
    case_decide; [split; [by right|by intros [->|]]|].
    rewrite elem_of_app, list_elem_of_singleton. naive_solver.
  - intros p' q'. rewrite dict_get_set. case_decide; [naive_solver|].
    by apply (bwf_nonempty b Hb).
Qed.

(** Dropping the entry of [p] from the dictionary and the ring. *)
Lemma bucket_drop_wf b p l :
  bucket_wf b → principals b ≡ₚ p :: l →
  bucket_wf (mkPriority l (dict_del (queued b) p)).
Proof.
  intros Hb Hp. pose proof (bwf_ring b Hb) as Hnd. rewrite Hp in Hnd.
  apply NoDup_cons in Hnd as [Hpl Hnd].
  split; csimpl; [done|by apply dict_del_wf, Hb| |].
  - intros p'. rewrite dict_keys_del by apply Hb.
    rewrite list_elem_of_filter, (bwf_keys b Hb), Hp, elem_of_cons. naive_solver.
  - intros p' q'. rewrite dict_get_del by apply Hb. case_decide; [done|].
    by apply (bwf_nonempty b Hb).
Qed.

Lemma bucket_put_spec b x p fr :
  bucket_wf b →
  bucket_wf (bucket_put b x p fr) ∧ principals (bucket_put b x p fr) ≠ [] ∧
  ring_of (bucket_put b x p fr) = ring_put (ring_of b) p x fr.
Proof.
  intros Hb. rewrite !ring_of_tab. unfold bucket_put. fold (queue_put (queue_of b p) x fr).
  assert (Hne : queue_put (queue_of b p) x fr ≠ []).
  { destruct fr; simpl; [done|]. by destruct (queue_of b p). }
  rewrite (tab_ext _ _ _ (λ p' _, queue_of_set b _ p _ p')). csimpl.
  destruct (decide (p ∈ principals b)) as [Hp|Hp].
  - pose proof Hp as Hq. apply queue_of_in in Hq; [|done].
    assert (E : (match queue_of b p with [] => principals b ++ [p]
                 | _ => principals b end) = principals b)
      by (by destruct (queue_of b p)).
    rewrite E, ring_put_tab_in by (done || apply Hb). split_and!; [|by eapply elem_of_not_nil|done].
    apply bucket_store_wf; [done..|apply Hb|]. naive_solver.
  - rewrite (queue_of_notin b p) in * by done. split_and!.
    + apply bucket_store_wf; [done..| |].
      * apply NoDup_app. split_and!; [apply Hb| |apply NoDup_singleton].
        intros p' Hp' ->%list_elem_of_singleton. done.
      * intros p'. rewrite elem_of_app, list_elem_of_singleton. naive_solver.
    + by destruct (principals b).
    + rewrite ring_put_tab_notin, tab_app, tab_upd_notin by done. f_equal.
      csimpl. unfold upd. rewrite decide_True by done. by destruct fr.
Qed.

Lemma bucket_pop_spec b :
  bucket_wf b → principals b ≠ [] →
  ∃ p x q r b', ring_of b = (p, x :: q) :: r ∧ bucket_pop b = Ok (x, b') ∧
    bucket_wf b' ∧ ring_of b' = ring_serve p q r.
Proof.
  intros Hb Hne. rewrite ring_of_tab. unfold bucket_pop.
  destruct (principals b) as [|p l] eqn:Ep; [done|].
  assert (Hq : queue_of b p ≠ []) by (apply queue_of_in; [done|rewrite Ep; left]).
  pose proof (bwf_ring b Hb) as Hnd. rewrite Ep in Hnd.
  apply NoDup_cons in Hnd as [Hp Hnd]. csimpl.
  destruct (queue_of b p) as [|x q]; [done|].
  exists p, x, q, (tab (queue_of b) l). destruct q as [|y q].
  - eexists. split_and!; [done..| |].
    + apply bucket_drop_wf; [done|by rewrite Ep].
    + rewrite ring_of_tab. apply tab_ext. csimpl. intros p' Hp'.
      apply queue_of_del. intros ->. done.
  - eexists. split_and!; [done..| |].
    + apply bucket_store_wf; [done|done| |].
      * apply NoDup_app. split_and!; [done| |apply NoDup_singleton].
        intros p' Hp' ->%list_elem_of_singleton. done.
      * intros p'. rewrite Ep, elem_of_app, list_elem_of_singleton, elem_of_cons.
        naive_solver.
    + rewrite ring_of_tab, (tab_ext _ _ _ (λ p' _, queue_of_set b _ p _ p')).
      csimpl. rewrite tab_app, tab_upd_notin by done. csimpl.
      unfold upd. by rewrite decide_True.
Qed.

Lemma bucket_remove_spec b p q :
  bucket_wf b → p ∈ principals b →
  bucket_wf (bucket_remove b p q) ∧
  ring_of (bucket_remove b p q) = ring_remove (ring_of b) p q.
Proof.
  intros Hb Hp. rewrite !ring_of_tab. unfold bucket_remove. destruct q as [|y q].
  - destruct (list_del_Some p _ Hp) as [l El]. rewrite El. csimpl.
    rewrite (ring_remove_tab_nil _ _ l) by (done || apply Hb).
    pose proof (list_del_Permutation _ _ _ El) as Hperm.
    split; [by apply bucket_drop_wf|]. apply tab_ext. intros p' Hp'.
    apply queue_of_del. intros ->. pose proof (bwf_ring b Hb) as Hnd.
    rewrite Hperm in Hnd. by apply NoDup_cons in Hnd as [??].
  - split.
    + apply bucket_store_wf; [done|done|apply Hb|]. naive_solver.
    + rewrite (tab_ext _ _ _ (λ p' _, queue_of_set b _ p _ p')). csimpl.
      by rewrite ring_remove_tab_cons by (done || apply Hb).
Qed.

(** ** The whole scheduler *)

Definition ps_items (ps : list (Z * Priority)) : list T :=
  concat ((λ pb, ring_items (ring_of pb.2)) <$> ps).

#[local] Instance ps_items_proper : Proper ((≡ₚ) ==> (≡ₚ)) ps_items.
Proof.
  unfold ps_items. induction 1 as [|x l l' _ IH|x y l|l1 l2 l3 _ IH1 _ IH2]; csimpl.
  - done.
  - by rewrite IH.
  - rewrite !app_assoc. by rewrite (Permutation_app_comm (ring_items (ring_of y.2))).
  - by rewrite IH1.
Qed.

Lemma ps_items_get ps pr b :
  dict_wf ps → dict_get ps pr = Some b →
  ps_items ps ≡ₚ ring_items (ring_of b) ++ ps_items (dict_del ps pr).
Proof. intros Hwf Hg. by rewrite (dict_get_Permutation ps pr b Hwf Hg) at 1. Qed.

Lemma ps_items_set ps pr b :
  dict_wf ps →
  ps_items (dict_set ps pr b) ≡ₚ ring_items (ring_of b) ++ ps_items (dict_del ps pr).
Proof. intros Hwf. by rewrite (dict_set_Permutation ps pr b Hwf). Qed.

Lemma ring_put_items r p x fr : ring_items (ring_put r p x fr) ≡ₚ x :: ring_items r.
Proof.
  unfold ring_items. induction r as [|[p' q] r IH]; csimpl; [done|].
  case_decide; csimpl.
  - destruct fr; csimpl; [done|].
    by rewrite <- app_assoc, (Permutation_middle q).
  - by rewrite IH, Permutation_middle.
Qed.

Lemma ring_serve_items p q r : ring_items (ring_serve p q r) ≡ₚ q ++ ring_items r.
Proof.
  unfold ring_items, ring_serve. destruct q as [|y q]; [done|].
  rewrite fmap_app, concat_app. csimpl. rewrite app_nil_r.
  by rewrite (Permutation_app_comm (concat r.*2)).
Qed.

Lemma ring_remove_items r p q q' x :
  NoDup r.*1 → (p, q) ∈ r → list_del x q = Some q' →
  ring_items r ≡ₚ x :: ring_items (ring_remove r p q').
Proof.
  unfold ring_items. induction r as [|[p1 q1] r IH]; csimpl.
  { by intros _ ?%not_elem_of_nil. }
  intros [Hp1 Hnd]%NoDup_cons [[= -> ->]|Hin]%elem_of_cons Hx.
  - rewrite decide_True by done. apply list_del_Permutation in Hx.
    rewrite Hx. by destruct q' as [|y q'].
  - rewrite decide_False.
    + csimpl. rewrite (IH Hnd Hin Hx). by rewrite Permutation_middle.
    + intros ->. apply Hp1, list_elem_of_fmap. by exists (p1, q).
Qed.

Lemma items_ps s : items s = ps_items (priorities s).
Proof. done. Qed.

Lemma view_get s pr :
  view s pr = match dict_get (priorities s) pr with
              | Some b => ring_of b | None => [] end.
Proof. done. Qed.

(** A bucket update that keeps the priority in the table. *)
Lemma wf_set s pr b h n :
  wf s → bucket_wf b → principals b ≠ [] → is_heap h →
  h ≡ₚ (dict_set (priorities s) pr b).*1 →
  Z.of_nat (length (ring_items (ring_of b)))
    = Z.of_nat (length (ring_items (view s pr))) + n →
  let s' := mkScheduler (dict_set (priorities s) pr b) h (size s + n) in
  wf s' ∧ items s' ++ ring_items (view s pr) ≡ₚ ring_items (ring_of b) ++ items s ∧
  ∀ pr', view s' pr' = if decide (pr = pr') then ring_of b else view s pr'.
Proof.
  intros Hwf Hb Hne Hh Hk Hlen s'.
  assert (Hi : items s' ++ ring_items (view s pr) ≡ₚ ring_items (ring_of b) ++ items s).
  { rewrite !items_ps. csimpl. rewrite (ps_items_set _ _ _ (wf_dict s Hwf)), view_get.
    destruct (dict_get (priorities s) pr) as [b0|] eqn:E; csimpl.
    - rewrite (ps_items_get _ _ _ (wf_dict s Hwf) E).
      by rewrite <- !app_assoc, (Permutation_app_comm (ps_items _)).
    - rewrite (dict_del_None _ _ E). change (ring_items []) with (@nil T).
      by rewrite app_nil_r. }
  split_and!; [split; csimpl|done|].
  - apply dict_set_wf, Hwf.
  - done.
  - done.
  - intros pr' b'. rewrite dict_get_set. case_decide; [naive_solver|].
    by apply (wf_buckets s Hwf).
  - apply Permutation_length in Hi. rewrite !length_app in Hi.
    rewrite (wf_size s Hwf). fold s'. lia.
  - intros pr'. unfold view. csimpl. rewrite dict_get_set. by case_decide.
Qed.

(** A bucket that ran empty leaves the table and the heap. *)
Lemma wf_del s pr b h n :
  wf s → dict_get (priorities s) pr = Some b → is_heap h → heap s ≡ₚ pr :: h →
  Z.of_nat (length (ring_items (ring_of b))) + n = 0 →
  let s' := mkScheduler (dict_del (priorities s) pr) h (size s + n) in
  wf s' ∧ items s' ++ ring_items (view s pr) ≡ₚ items s ∧
  ∀ pr', view s' pr' = if decide (pr = pr') then [] else view s pr'.
Proof.
  intros Hwf Hg Hh Hp Hlen s'. pose proof (wf_dict s Hwf) as Hd.
  assert (Hi : items s' ++ ring_items (view s pr) ≡ₚ items s).
  { rewrite !items_ps, view_get, Hg, (ps_items_get _ _ _ Hd Hg). csimpl.
    apply Permutation_app_comm. }
  split_and!; [split; csimpl|done|].
  - by apply dict_del_wf.
  - done.
  - apply (inj (pr ::.)). rewrite <- Hp, (wf_keys s Hwf).
    by rewrite (dict_get_Permutation _ _ _ Hd Hg) at 1.
  - intros pr' b'. rewrite dict_get_del by done. case_decide; [done|].
    by apply (wf_buckets s Hwf).
  - apply Permutation_length in Hi. rewrite view_get, Hg, !length_app in Hi.
    rewrite (wf_size s Hwf). fold s'. lia.
  - intros pr'. unfold view. csimpl. rewrite dict_get_del by done. by case_decide.
Qed.

(** When the ring at a priority lost exactly [x], so did the scheduler. *)
Lemma items_lost (x : T) old new i i' :
  old ≡ₚ x :: new → i' ++ old ≡ₚ new ++ i → i ≡ₚ x :: i'.
Proof.
  intros Ho Hi. rewrite Ho in Hi. apply (Permutation_app_inv_l new).
  rewrite <- Hi, (Permutation_app_comm i'). simpl. by rewrite Permutation_middle.
Qed.

Lemma wf_init : wf scheduler_init.
Proof. split; csimpl; auto using dict_wf_nil, heap_nil; done. Qed.

Lemma view_bucket s pr :
  wf s → view s pr ≠ [] →
  ∃ b, dict_get (priorities s) pr = Some b ∧ bucket_wf b ∧ principals b ≠ [] ∧
       view s pr = ring_of b.
Proof.
  intros Hwf. unfold view.
  destruct (dict_get (priorities s) pr) as [b|] eqn:E; [|done].
  intros _. exists b. by destruct (wf_buckets s Hwf pr b E).
Qed.

Lemma put_spec s x pr p fr :
  wf s →
  wf (put_ s x pr p fr) ∧ items (put_ s x pr p fr) ≡ₚ x :: items s ∧
  (∀ pr', view (put_ s x pr p fr) pr'
          = if decide (pr = pr') then ring_put (view s pr) p x fr else view s pr').
Proof.
  intros Hwf. unfold put_.
  assert (∃ b0 h0,
    (match dict_get (priorities s) pr with
     | Some b => (b, heap s) | None => (mkPriority [] [], heappush (heap s) pr) end)
    = (b0, h0) ∧ bucket_wf b0 ∧ ring_of b0 = view s pr ∧ is_heap h0 ∧
    ∀ b', h0 ≡ₚ (dict_set (priorities s) pr b').*1)
    as (b0 & h0 & -> & Hb0 & Hv & Hh & Hk).
  { rewrite view_get. destruct (dict_get (priorities s) pr) as [b|] eqn:E.
    - exists b, (heap s). destruct (wf_buckets s Hwf pr b E).
      split_and!; try done; [apply Hwf|]. intros b'.
      rewrite dict_keys_set_old; [apply (wf_keys s Hwf)|].
      by eapply dict_get_Some_key.
    - eexists _, _. split_and!; [done|apply empty_bucket_wf|done| |].
      + by apply heappush_heap, Hwf.
      + intros b'. rewrite heappush_perm by apply Hwf.
        rewrite dict_set_new by (by apply dict_get_None).
        rewrite fmap_app, (wf_keys s Hwf). csimpl. by rewrite Permutation_cons_append. }
  destruct (bucket_put_spec b0 x p fr Hb0) as (Hb' & Hne & Hr).
  rewrite Hv in Hr.
  destruct (wf_set s pr (bucket_put b0 x p fr) h0 1) as (Hwf' & Hi & Hview);
    [done..|apply Hk| |].
  { rewrite Hr, ring_put_items. simpl. lia. }
  rewrite <- Hr. split_and!; [done| |done].
  rewrite Hr, ring_put_items in Hi. apply (Permutation_app_inv_r (ring_items (view s pr))).
  rewrite Hi. simpl. by rewrite (Permutation_app_comm (items s)).
Qed.

(** Every waiting priority is in the heap, so the head of the heap is minimal. *)
Lemma heap_head_spec s pr h :
  wf s → heap s = pr :: h →
  view s pr ≠ [] ∧ ∀ pr', view s pr' ≠ [] → pr ≤ pr'.
Proof.
  intros Hwf E. split.
  - assert (Hin : pr ∈ (priorities s).*1) by (rewrite <- (wf_keys s Hwf), E; left).
    unfold view. destruct (dict_get (priorities s) pr) as [b|] eqn:G.
    + destruct (wf_buckets s Hwf pr b G) as [_ Hne]. unfold ring_of.
      by destruct (principals b).
    + by apply dict_get_None in G.
  - intros pr' Hv. destruct (view_bucket s pr' Hwf Hv) as (b & G & _).
    eapply (heap_min_of_perm (R:=Z.le)); [apply (wf_heap s Hwf)|done|apply (wf_keys s Hwf)|].
    by eapply dict_get_Some_key.
Qed.

Lemma items_view s x : wf s → x ∈ items s ↔ ∃ pr, x ∈ ring_items (view s pr).
Proof.
  intros Hwf. rewrite items_ps. unfold ps_items. rewrite elem_of_concat. split.
  - intros (l & Hx & ([pr b] & -> & Hin)%list_elem_of_fmap). exists pr.
    rewrite view_get. by rewrite (dict_get_elem _ _ _ (wf_dict s Hwf) Hin).
  - intros (pr & Hx). rewrite view_get in Hx.
    destruct (dict_get (priorities s) pr) as [b|] eqn:E; [|by apply not_elem_of_nil in Hx].
    exists (ring_items (ring_of b)). split; [done|].
    apply list_elem_of_fmap. exists (pr, b). split; [done|].
    by apply dict_get_Some_elem.
Qed.

Lemma view_nonempty_items s pr : wf s → view s pr ≠ [] → items s ≠ [].
Proof.
  intros Hwf Hv. destruct (view_bucket s pr Hwf Hv) as (b & _ & Hb & Hne & E).
  destruct (bucket_pop_spec b Hb Hne) as (p & x & q & r & _ & Hr & _).
  apply (elem_of_not_nil x). apply items_view; [done|]. exists pr.
  rewrite E, Hr. unfold ring_items. csimpl. left.
Qed.

Lemma items_heap s : wf s → items s ≠ [] ↔ heap s ≠ [].
Proof.
  intros Hwf. split.
  - intros Hi E. destruct (items s) as [|x l] eqn:Ei; [done|].
    assert (Hx : x ∈ items s) by (rewrite Ei; left).
    apply items_view in Hx as (pr & Hx); [|done].
    destruct (decide (view s pr = [])) as [Hv|Hv].
    { rewrite Hv in Hx. by apply not_elem_of_nil in Hx. }
    destruct (view_bucket s pr Hwf Hv) as (b & G & _).
    pose proof (wf_keys s Hwf) as Hk. rewrite E in Hk.
    apply Permutation_nil_l in Hk. apply dict_get_Some_key in G. rewrite <- Hk in G.
    by apply not_elem_of_nil in G.
  - intros Hh. destruct (heap s) as [|pr h] eqn:E; [done|].
    destruct (heap_head_spec s pr h Hwf E) as [Hv _].
    by eapply view_nonempty_items.
Qed.

Lemma pop_empty s : wf s → items s = [] →
  pop s = Err (Raise IndexError "scheduler is empty").
Proof.
  intros Hwf Hi. unfold pop. rewrite (wf_size s Hwf), Hi. done.
Qed.

Lemma ring_items_cons p q (r : list (P * list T)) :
  ring_items ((p, q) :: r) = q ++ ring_items r.
Proof. done. Qed.

Lemma ring_of_nil_iff b : ring_of b = [] ↔ principals b = [].
Proof. unfold ring_of. destruct (principals b); csimpl; naive_solver. Qed.

Lemma pop_spec s :
  wf s → items s ≠ [] →
  ∃ pr p x q r s', view s pr = (p, x :: q) :: r ∧
    (∀ pr', view s pr' ≠ [] → pr ≤ pr') ∧ pop s = Ok (x, s') ∧ wf s' ∧
    items s ≡ₚ x :: items s' ∧
    ∀ pr', view s' pr' = if decide (pr = pr') then ring_serve p q r else view s pr'.
Proof.
  intros Hwf Hi. pose proof Hi as Hh. apply items_heap in Hh; [|done].
  destruct (heap s) as [|pr h] eqn:Eh; [done|].
  destruct (heap_head_spec s pr h Hwf Eh) as [Hv Hmin].
  destruct (view_bucket s pr Hwf Hv) as (b & G & Hb & Hne & Ev).
  destruct (bucket_pop_spec b Hb Hne) as (p & x & q & r & b' & Er & Ep & Hb' & Er').
  exists pr, p, x, q, r. unfold pop. rewrite Eh, G, Ep. csimpl.
  assert (Hsz : (size s =? 0) = false).
  { apply Z.eqb_neq. rewrite (wf_size s Hwf). destruct (items s); [done|simpl; lia]. }
  rewrite Hsz.
  assert (Hri : ring_items (view s pr) ≡ₚ x :: ring_items (ring_of b')).
  { by rewrite Er', ring_serve_items, Ev, Er, ring_items_cons. }
  pose proof (Permutation_length Hri) as Hlen. simpl in Hlen.
  destruct (principals b') as [|p1 l1] eqn:Eb'.
  - pose proof (wf_heap s Hwf) as Hheap. rewrite Eh in Hheap.
    destruct (heappop_cons pr h Hheap) as (h' & -> & Hh' & Hp').
    apply ring_of_nil_iff in Eb'. rewrite Eb' in *.
    destruct (wf_del s pr b h' (-1)) as (Hwf' & Hi' & Hview); [done..| | |].
    + by rewrite Eh, Hp'.
    + rewrite Ev in Hlen. simpl in Hlen. lia.
    + eexists. split_and!; [by rewrite Ev|done|done|done| |by rewrite <- Er'].
      by eapply (items_lost x _ []).
  - destruct (wf_set s pr b' (heap s) (-1)) as (Hwf' & Hi' & Hview);
      [done|done|by rewrite Eb'|apply Hwf| |lia|].
    + rewrite dict_keys_set_old by (by eapply dict_get_Some_key).
      apply (wf_keys s Hwf).
    + eexists. rewrite Eh in *.
      split_and!; [by rewrite Ev|done|done|done| |by rewrite <- Er'].
      by eapply items_lost.
Qed.

Lemma find_in_queues_Some x qs p q' :
  find_in_queues x qs = Some (p, q') → ∃ q, (p, q) ∈ qs ∧ list_del x q = Some q'.
Proof.
  induction qs as [|[p1 q1] qs IH]; csimpl; [done|].
  destruct (list_del x q1) as [q1'|] eqn:E.
  - intros [= <- <-]. exists q1. split; [left|done].
  - intros H. destruct (IH H) as (q & ? & ?). exists q. split; [by right|done].
Qed.

Lemma find_in_queues_None x qs p q :
  find_in_queues x qs = None → (p, q) ∈ qs → x ∉ q.
Proof.
  induction qs as [|[p1 q1] qs IH]; csimpl; [by intros _ ?%not_elem_of_nil|].
  destruct (list_del x q1) eqn:E; [done|]. apply list_del_None in E.
  intros H [[= -> ->]|Hin]%elem_of_cons; [done|]. by apply IH.
Qed.

Lemma find_in_priorities_Some x ps pr b p q' :
  find_in_priorities x ps = Some (pr, b, p, q') →
  (pr, b) ∈ ps ∧ find_in_queues x (queued b) = Some (p, q').
Proof.
  induction ps as [|[pr1 b1] ps IH]; csimpl; [done|].
  destruct (find_in_queues x (queued b1)) as [[p1 q1]|] eqn:E.
  - intros [= <- <- <- <-]. split; [left|done].
  - intros H. destruct (IH H). split; [by right|done].
Qed.

Lemma find_in_priorities_None x ps pr b :
  find_in_priorities x ps = None → (pr, b) ∈ ps → find_in_queues x (queued b) = None.
Proof.
  induction ps as [|[pr1 b1] ps IH]; csimpl; [by intros _ ?%not_elem_of_nil|].
  destruct (find_in_queues x (queued b1)) as [[p1 q1]|] eqn:E; [done|].
  intros H [[= -> ->]|Hin]%elem_of_cons; [done|]. by apply IH.
Qed.

Lemma queued_ring b p q :
  bucket_wf b → (p, q) ∈ queued b ↔ (p, q) ∈ ring_of b.
Proof.
  intros Hb. unfold ring_of. rewrite list_elem_of_fmap. split.
  - intros Hin. pose proof (dict_get_elem _ _ _ (bwf_dict b Hb) Hin) as G.
    exists p. unfold queue_of. rewrite G. split; [done|].
    apply (bwf_keys b Hb). by eapply dict_get_Some_key.
  - intros (p' & [= -> ->] & Hp). apply (bwf_keys b Hb) in Hp. unfold queue_of.
    destruct (dict_get (queued b) p') as [q'|] eqn:G; csimpl.
    + by apply dict_get_Some_elem.
    + by apply dict_get_None in G.
Qed.

Lemma remove_absent s x : wf s → x ∉ items s → remove s x = Ok (false, s).
Proof.
  intros Hwf Hx. unfold remove.
  destruct (find_in_priorities x (priorities s)) as [[[[pr b] p] q']|] eqn:F; [|done].
  apply find_in_priorities_Some in F as [Hin F].
  apply find_in_queues_Some in F as (q & Hq & Hd). destruct Hx.
  pose proof (dict_get_elem _ _ _ (wf_dict s Hwf) Hin) as G.
  destruct (wf_buckets s Hwf pr b G) as [Hb _].
  apply items_view; [done|]. exists pr. unfold view. rewrite G.
  apply elem_of_concat. exists q. apply list_del_Permutation in Hd. split.
  - rewrite Hd. left.
  - apply queued_ring in Hq; [|done]. apply list_elem_of_fmap. by exists (p, q).
Qed.

Lemma ring_keys_NoDup b : bucket_wf b → NoDup (ring_of b).*1.
Proof.
  intros Hb. unfold ring_of. rewrite <- list_fmap_compose.
  rewrite (list_fmap_ext _ id); [|done]. rewrite list_fmap_id. apply Hb.
Qed.

(** What is queued is found. *)
Lemma find_in_priorities_items s x :
  wf s → x ∈ items s → find_in_priorities x (priorities s) ≠ None.
Proof.
  intros Hwf Hx F. rewrite items_ps in Hx. apply elem_of_concat in Hx as (l & Hx & Hl).
  apply list_elem_of_fmap in Hl as ([pr b] & -> & Hin).
  pose proof (find_in_priorities_None _ _ _ _ F Hin) as Fq.
  apply elem_of_concat in Hx as (q & Hx & Hq).
  apply list_elem_of_fmap in Hq as ([p q1] & -> & Hq).
  pose proof (dict_get_elem _ _ _ (wf_dict s Hwf) Hin) as G.
  apply queued_ring in Hq; [|by eapply wf_buckets].
  by eapply find_in_queues_None.
Qed.

Lemma remove_spec s x :
  wf s → x ∈ items s →
  ∃ pr p q q' s', (p, q) ∈ view s pr ∧ list_del x q = Some q' ∧
    remove s x = Ok (true, s') ∧ wf s' ∧ items s ≡ₚ x :: items s' ∧
    ∀ pr', view s' pr' = if decide (pr = pr') then ring_remove (view s pr) p q'
                         else view s pr'.
Proof.
  intros Hwf Hx. unfold remove.
  destruct (find_in_priorities x (priorities s)) as [[[[pr b] p] q']|] eqn:F;
    [|by destruct (find_in_priorities_items s x)].
  apply find_in_priorities_Some in F as [Hin F].
  apply find_in_queues_Some in F as (q & Hq & Hd).
  pose proof (dict_get_elem _ _ _ (wf_dict s Hwf) Hin) as G.
  destruct (wf_buckets s Hwf pr b G) as [Hb Hne].
  apply queued_ring in Hq; [|done].
  assert (Hp : p ∈ principals b).
  { apply (bwf_keys b Hb). apply queued_ring in Hq; [|done].
    apply list_elem_of_fmap. by exists (p, q). }
  destruct (bucket_remove_spec b p q' Hb Hp) as [Hb' Er].
  assert (Ev : view s pr = ring_of b) by (unfold view; by rewrite G).
  assert (Hri : ring_items (view s pr)
                ≡ₚ x :: ring_items (ring_of (bucket_remove b p q'))).
  { rewrite Er, Ev. by apply (ring_remove_items _ _ q), Hd; [apply ring_keys_NoDup|]. }
  pose proof (Permutation_length Hri) as Hlen. simpl in Hlen.
  exists pr, p, q, q'. rewrite Ev.
  destruct (principals (bucket_remove b p q')) as [|p1 l1] eqn:Eb.
  - destruct (list_del_Some pr (heap s)) as [h' Eh'].
    { rewrite (wf_keys s Hwf). by eapply dict_get_Some_key. }
    rewrite Eh'. apply ring_of_nil_iff in Eb. rewrite Eb in *.
    destruct (wf_del s pr b (heapify h') (-1)) as (Hwf' & Hi' & Hview); [done|done| | | |].
    + apply heapify_heap.
    + rewrite heapify_perm. by apply list_del_Permutation.
    + rewrite Ev in Hlen. simpl in Hlen. lia.
    + eexists. split_and!; [done..| |by rewrite <- Er].
      by eapply (items_lost x _ []).
  - destruct (wf_set s pr (bucket_remove b p q') (heap s) (-1)) as (Hwf' & Hi' & Hview);
      [done|done|by rewrite Eb|apply Hwf| |lia|].
    + rewrite dict_keys_set_old by (by eapply dict_get_Some_key).
      apply (wf_keys s Hwf).
    + eexists. split_and!; [done..| |by rewrite <- Er].
      by eapply items_lost.
Qed.

(** ** Runs *)

Inductive sched_event :=
  | EPut (x : T) (pr : Z) (p : P) (front : bool)
  | EPop (x : T)
  | ERemove (x : T) (found : bool).

(** One call of the broker; a call that raises is not a step. *)
Inductive sched_step : FairScheduler → sched_event → FairScheduler → Prop :=
  | step_put s x pr p front :
      sched_step s (EPut x pr p front) (put_ s x pr p front)
  | step_pop s x s' : pop s = Ok (x, s') → sched_step s (EPop x) s'
  | step_remove s x b s' :
      remove s x = Ok (b, s') → sched_step s (ERemove x b) s'.

Definition is_pop (e : sched_event) : bool :=
  match e with EPop _ => true | _ => false end.
Definition pops (evs : list sched_event) : nat :=
  length (filter (λ e, Is_true (is_pop e)) evs).

(** Items an event adds and items it takes out. *)
Definition ev_in (e : sched_event) : list T :=
  match e with EPut x _ _ _ => [x] | _ => [] end.
Definition ev_out (e : sched_event) : list T :=
  match e with EPop x => [x] | ERemove x true => [x] | _ => [] end.

(** The quiet environment of the fairness theorem: pops, and FIFO arrivals that
    are not more urgent than [pr]. *)
Definition quiet (pr : Z) (e : sched_event) : Prop :=
  match e with
  | EPut _ pr' _ front => pr ≤ pr' ∧ front = false
  | EPop _ => True
  | ERemove _ _ => False
  end.

Lemma pop_items_nonempty s x s' : wf s → pop s = Ok (x, s') → items s ≠ [].
Proof. intros Hwf Hp Hi. by rewrite pop_empty in Hp. Qed.


Lemma pop_Ok s x s' :
  wf s → pop s = Ok (x, s') →
  wf s' ∧ items s ≡ₚ x :: items s' ∧
  ∃ pr p q r, view s pr = (p, x :: q) :: r ∧
    (∀ pr', view s pr' ≠ [] → pr ≤ pr') ∧
    ∀ pr', view s' pr' = if decide (pr = pr') then ring_serve p q r else view s pr'.
Proof.
  intros Hwf Hp.
  destruct (pop_spec s Hwf (pop_items_nonempty _ _ _ Hwf Hp))
    as (pr & p & x' & q & r & s1 & Hv & Hmin & Hp' & Hwf' & Hi & Hv').
  rewrite Hp in Hp'. injection Hp' as <- <-.
  split_and!; [done..|]. by exists pr, p, q, r.
Qed.

Lemma remove_Ok s x b s' :
  wf s → remove s x = Ok (b, s') →
  wf s' ∧ items s ≡ₚ (if b then [x] else []) ++ items s' ∧ b = bool_decide (x ∈ items s).
Proof.
  intros Hwf Hr. destruct (decide (x ∈ items s)) as [Hx|Hx].
  - destruct (remove_spec s x Hwf Hx) as (?&?&?&?&s1&?&?&Hr'&?&?&?).
    rewrite Hr in Hr'. injection Hr' as -> ->. by rewrite bool_decide_true.
  - rewrite remove_absent in Hr by done. injection Hr as <- <-.
    by rewrite bool_decide_false.
Qed.

Lemma remove_total s x : wf s → ∃ b s', remove s x = Ok (b, s').
Proof.
  intros Hwf. destruct (decide (x ∈ items s)) as [Hx|Hx].
  - destruct (remove_spec s x Hwf Hx) as (?&?&?&?&s1&?&?&?&_). eauto.
  - rewrite remove_absent by done. eauto.
Qed.

Lemma sched_step_wf s e s' : wf s → sched_step s e s' → wf s'.
Proof.
  intros Hwf. destruct 1; [by apply put_spec|by eapply pop_Ok|by eapply remove_Ok].
Qed.

Lemma sched_step_items s e s' :
  wf s → sched_step s e s' → ev_in e ++ items s ≡ₚ ev_out e ++ items s'.
Proof.
  intros Hwf. destruct 1 as [s x pr p fr|s x s' Hp|s x b s' Hr]; simpl.
  - symmetry. by apply put_spec.
  - by apply pop_Ok.
  - by apply remove_Ok.
Qed.

(** *** Arrivals and services do not move a waiting principal back *)

Lemma ring_put_back r1 p x q r2 p' y :
  ∃ r1' q' r2', ring_put (r1 ++ (p, x :: q) :: r2) p' y false
                = r1' ++ (p, x :: q') :: r2' ∧ length r1' = length r1.
Proof.
  induction r1 as [|[p1 q1] r1 (r1' & q' & r2' & IH & Hl)]; csimpl.
  - case_decide as Hp; [subst|].
    + by exists [], (q ++ [y]), r2.
    + by exists [], q, (ring_put r2 p' y false).
  - case_decide as Hp; [subst|].
    + by exists ((p1, q1 ++ [y]) :: r1), q, r2.
    + rewrite IH. exists ((p1, q1) :: r1'), q', r2'. by simpl; rewrite Hl.
Qed.

Lemma ring_serve_back p1 q1 r1 p x q r2 :
  ∃ r2', ring_serve p1 q1 (r1 ++ (p, x :: q) :: r2) = r1 ++ (p, x :: q) :: r2'.
Proof.
  unfold ring_serve. destruct q1 as [|y q1]; [by exists r2|].
  exists (r2 ++ [(p1, y :: q1)]). by rewrite <- app_assoc.
Qed.

(** The position of a waiting principal: [n] others are ahead of it in the ring
    of the most urgent priority, and [x] is the oldest item of its queue. *)
Definition waiting_at (s : FairScheduler) (pr : Z) (p : P) (x : T) (n : nat) : Prop :=
  (∃ r1 q r2, view s pr = r1 ++ (p, x :: q) :: r2 ∧ length r1 = n) ∧
  ∀ pr', view s pr' ≠ [] → pr ≤ pr'.

Lemma waiting_put s pr p x n y pr' p' :
  wf s → pr ≤ pr' → waiting_at s pr p x n → waiting_at (put_ s y pr' p' false) pr p x n.
Proof.
  intros Hwf Hle [(r1 & q & r2 & Hv & Hn) Hmin].
  destruct (put_spec s y pr' p' false Hwf) as (_ & _ & Hview). split.
  - rewrite Hview. case_decide; [subst|by eauto].
    rewrite Hv. destruct (ring_put_back r1 p x q r2 p' y) as (r1' & q' & r2' & -> & ?).
    by exists r1', q', r2'.
  - intros pr1. rewrite Hview. case_decide; [lia|apply Hmin].
Qed.

Lemma waiting_pop s pr p x n y s' :
  wf s → waiting_at s pr p x n → pop s = Ok (y, s') →
  match n with
  | O => y = x
  | S n' => waiting_at s' pr p x n'
  end.
Proof.
  intros Hwf [(r1 & q & r2 & Hv & Hn) Hmin] Hp.
  destruct (pop_Ok s y s' Hwf Hp) as (_ & _ & pr1 & p1 & q1 & r & Hv1 & Hmin1 & Hview).
  assert (pr = pr1) as <-.
  { apply Z.le_antisymm; [apply Hmin; by rewrite Hv1|apply Hmin1; rewrite Hv; by destruct r1]. }
  rewrite Hv in Hv1. destruct n as [|n]; destruct r1 as [|[p2 q2] r1]; simpl in *;
    simplify_eq; [done|].
  destruct (ring_serve_back p1 q1 r1 p x q r2) as [r2' Er]. split.
  - exists r1, q, r2'. rewrite Hview, decide_True by done. by rewrite Er.
  - intros pr'. rewrite Hview. case_decide; [lia|apply Hmin].
Qed.

Lemma pops_cons e evs : pops (e :: evs) = ((if is_pop e then 1 else 0) + pops evs)%nat.
Proof. unfold pops. rewrite filter_cons. by destruct e. Qed.

Lemma waiting_run s evs s' pr p x n :
  wf s → steps sched_step s evs s' → Forall (quiet pr) evs →
  waiting_at s pr p x (pops evs + n) → wf s' ∧ waiting_at s' pr p x n.
Proof.
  intros Hwf Hsteps. revert Hwf.
  induction Hsteps as [s|s e s1 evs s2 Hs _ IH]; intros Hwf Hq Hw; [done|].
  apply Forall_cons in Hq as [Hq1 Hq]. rewrite pops_cons in Hw.
  apply IH; [by eapply sched_step_wf|done|].
  destruct Hs as [s y pr' p' fr|s y s' Hp|]; simpl in *; [|by apply (waiting_pop s _ _ _ (S _) y)|done].
  destruct Hq1 as [? ->]. by apply waiting_put.
Qed.

(** ** Properties *)

(** Every run from the empty scheduler keeps the ring, the dictionary of
    queues, the heap and the size in agreement, and loses or duplicates no item:
    what was put is what was taken out plus what is still queued. *)
Theorem scheduler_run_conserves evs s :
  steps sched_step scheduler_init evs s →
  wf s ∧ len s = Z.of_nat (length (items s)) ∧
  concat (ev_in <$> evs) ≡ₚ concat (ev_out <$> evs) ++ items s.
Proof.
  intros Hrun.
  assert (H : ∀ s0, wf s0 → steps sched_step s0 evs s →
    wf s ∧ concat (ev_in <$> evs) ++ items s0 ≡ₚ concat (ev_out <$> evs) ++ items s).
  { clear Hrun. intros s0 Hwf Hrun. revert Hwf.
    induction Hrun as [s0|s0 e s1 evs s2 Hs _ IH]; intros Hwf; [done|].
    destruct (IH (sched_step_wf _ _ _ Hwf Hs)) as [Hwf2 Hi]. split; [done|]. csimpl.
    rewrite <- !app_assoc, <- Hi, Permutation_app_swap_app.
    rewrite (sched_step_items _ _ _ Hwf Hs). by rewrite Permutation_app_swap_app. }
  destruct (H scheduler_init wf_init Hrun) as [Hwf Hi]. rewrite app_nil_r in Hi.
  split_and!; [done|apply (wf_size s Hwf)|done].
Qed.

(** [put] and [put_front] change one ring: the item joins the back (front) of its
    principal's queue, and a principal without waiting work joins the back of the ring. *)
Theorem put_refines_ring_put s x pr p front :
  wf s →
  wf (put_ s x pr p front) ∧ items (put_ s x pr p front) ≡ₚ x :: items s ∧
  ∀ pr', view (put_ s x pr p front) pr'
         = if decide (pr = pr') then ring_put (view s pr) p x front else view s pr'.
Proof. apply put_spec. Qed.

(** [pop] on a non-empty scheduler never raises: it takes the oldest item of the
    principal at the head of the ring of the numerically smallest waiting priority,
    and that principal goes to the back of the ring if it has more work; on an empty
    scheduler it raises [IndexError]. *)
Theorem pop_serves_most_urgent s :
  wf s →
  if truthy s then
    ∃ pr p x q r s', view s pr = (p, x :: q) :: r ∧
      (∀ pr', view s pr' ≠ [] → pr ≤ pr') ∧ pop s = Ok (x, s') ∧ wf s' ∧
      items s ≡ₚ x :: items s' ∧
      ∀ pr', view s' pr' = if decide (pr = pr') then ring_serve p q r else view s pr'
  else pop s = Err (Raise IndexError "scheduler is empty").
Proof.
  intros Hwf. unfold truthy. rewrite (wf_size s Hwf).
  destruct (items s) as [|x l] eqn:E; simpl; [by apply pop_empty|].
  rewrite <- E. apply pop_spec; [done|by rewrite E].
Qed.

(** [remove] takes out exactly one occurrence of a queued item, keeps the order of
    everything else and drops a principal left without work from its ring; it
    returns [False] and changes nothing when the item is not queued. *)
Theorem remove_exact s x :
  wf s →
  if decide (x ∈ items s) then
    ∃ pr p q q' s', (p, q) ∈ view s pr ∧ list_del x q = Some q' ∧
      remove s x = Ok (true, s') ∧ wf s' ∧ items s ≡ₚ x :: items s' ∧
      ∀ pr', view s' pr' = if decide (pr = pr') then ring_remove (view s pr) p q'
                           else view s pr'
  else remove s x = Ok (false, s).
Proof. intros Hwf. case_decide; [by apply remove_spec|by apply remove_absent]. Qed.


(** Giving a popped item back with [put_front] restores it ahead of later work
    of its stream, but the principal stays at the back of the ring, where the
    pop moved it: it has lost its turn to every other waiting principal. *)
Theorem pop_put_front_rotates s pr p x q r :
  wf s → view s pr = (p, x :: q) :: r → (∀ pr', view s pr' ≠ [] → pr ≤ pr') →
  ∃ s', pop s = Ok (x, s') ∧ view (put_front s' x pr p) pr = r ++ [(p, x :: q)] ∧
        ∀ pr', pr' ≠ pr → view (put_front s' x pr p) pr' = view s pr'.
Proof.
  intros Hwf Hv Hmin.
  assert (Hi : items s ≠ []) by (apply (view_nonempty_items _ pr); [done|by rewrite Hv]).
  destruct (pop_spec s Hwf Hi) as (pr1&p1&y&q1&r1&s'&Hv1&Hmin1&Hp&Hwf'&_&Hview).
  assert (pr = pr1) as <-.
  { apply Z.le_antisymm; [apply Hmin; by rewrite Hv1|apply Hmin1; by rewrite Hv]. }
  rewrite Hv in Hv1. injection Hv1 as <- <- <- <-.
  destruct (put_spec s' x pr p true Hwf') as (_ & _ & Hview').
  exists s'. split_and!; [done| |].
  - unfold put_front. rewrite Hview', decide_True by done.
    rewrite Hview, decide_True by done.
    assert (Hp' : p ∉ r.*1).
    { destruct (view_bucket s pr Hwf) as (b & _ & Hb & _ & Eb); [by rewrite Hv|].
      pose proof (ring_keys_NoDup b Hb) as Hnd. rewrite <- Eb, Hv in Hnd.
      by apply NoDup_cons in Hnd as [??]. }
    assert (Hend : ∀ l, ring_put (r ++ l) p x true = r ++ ring_put l p x true).
    { intros l. clear -Hp'. induction r as [|[p' q'] r IH]; [done|]. csimpl in Hp'.
      apply not_elem_of_cons in Hp' as [??]. csimpl.
      rewrite decide_False by done. by rewrite IH. }
    unfold ring_serve. destruct q as [|y q].
    + rewrite <- (app_nil_r r) at 1. by rewrite Hend.
    + rewrite Hend. csimpl. by rewrite decide_True.
  - intros pr' Hne. unfold put_front. rewrite Hview', decide_False by done.
    by rewrite Hview, decide_False by done.
Qed.
End FairScheduler.

(** ** Witnesses *)

#[export] Instance Z_heapq : HeapQ Z Z.le := sorted_heapq Z.le.

(** Principal 1 queues two items and principal 2 one, at priority 5; principal 3
    queues one at priority 7. *)
Definition sched0 : FairScheduler (T:=nat) (P:=nat) :=
  put (put (put (put scheduler_init 10%nat 5 1%nat) 11%nat 5 1%nat) 20%nat 5 2%nat)
    30%nat 7 3%nat.

Lemma sched0_wf : wf sched0.
Proof. by repeat apply put_spec; apply wf_init. Qed.

Lemma sched0_min pr : view sched0 pr ≠ [] → 5 ≤ pr.
Proof.
  unfold view. intros H. destruct (dict_get (priorities sched0) pr) eqn:E; [|done].
  apply dict_get_Some_key in E. vm_compute in E.
  repeat (apply elem_of_cons in E as [->|E]; [lia|]). by apply not_elem_of_nil in E.
Qed.

Definition sched0_events : list (sched_event (T:=nat) (P:=nat)) :=
  [EPut 10 5 1 false; EPut 11 5 1 false; EPut 20 5 2 false; EPut 30 7 3 false]%nat.

Lemma scheduler_run_conserves_witness :
  wf sched0 ∧ len sched0 = Z.of_nat (length (items sched0)) ∧
  concat (ev_in <$> sched0_events) ≡ₚ concat (ev_out <$> sched0_events) ++ items sched0.
Proof. apply scheduler_run_conserves. repeat econstructor. Defined.

Lemma put_refines_ring_put_witness :
  wf (put_ sched0 21%nat 5 2%nat true) ∧
  items (put_ sched0 21%nat 5 2%nat true) ≡ₚ 21%nat :: items sched0 ∧
  ∀ pr', view (put_ sched0 21%nat 5 2%nat true) pr'
         = if decide (5 = pr') then ring_put (view sched0 5) 2%nat 21%nat true
           else view sched0 pr'.
Proof. apply (put_refines_ring_put sched0 21%nat 5 2%nat true), sched0_wf. Defined.

Lemma pop_serves_most_urgent_witness :
  ∃ pr p x q r s', view sched0 pr = (p, x :: q) :: r ∧
    (∀ pr', view sched0 pr' ≠ [] → pr ≤ pr') ∧ pop sched0 = Ok (x, s') ∧ wf s' ∧
    items sched0 ≡ₚ x :: items s' ∧
    ∀ pr', view s' pr' = if decide (pr = pr') then ring_serve p q r else view sched0 pr'.
Proof. apply (pop_serves_most_urgent sched0 sched0_wf). Defined.

Lemma remove_exact_witness :
  if decide (11%nat ∈ items sched0) then
    ∃ pr p q q' s', (p, q) ∈ view sched0 pr ∧ list_del 11%nat q = Some q' ∧
      remove sched0 11%nat = Ok (true, s') ∧ wf s' ∧ items sched0 ≡ₚ 11%nat :: items s' ∧
      ∀ pr', view s' pr' = if decide (pr = pr') then ring_remove (view sched0 pr) p q'
                           else view sched0 pr'
  else remove sched0 11%nat = Ok (false, sched0).
Proof. apply (remove_exact sched0 11%nat), sched0_wf. Defined.

(** Principal 2 waits behind principal 1; a new item of principal 1 arrives, one
    item of principal 1 is served, and then item 20 is next. *)
Definition sched1 : FairScheduler (T:=nat) (P:=nat) :=
  match pop (put_ sched0 12%nat 5 1%nat false) with Ok (_, s) => s | Err _ => sched0 end.


Lemma pop_put_front_rotates_witness :
  ∃ s', pop sched0 = Ok (10%nat, s') ∧
    view (put_front s' 10%nat 5 1%nat) 5 = [(2, [20]); (1, [10; 11])]%nat ∧
    ∀ pr', pr' ≠ 5 → view (put_front s' 10%nat 5 1%nat) pr' = view sched0 pr'.
Proof.
  apply (pop_put_front_rotates sched0 5 1%nat 10%nat [11%nat] [(2, [20])]%nat).
  - apply sched0_wf.
  - vm_compute. reflexivity.
  - apply sched0_min.
Defined.
