(* ===== verification/Broker.v ===== *)
(** * Broker: the state and the operations of [DeadpoolServer] ([remote/server.py])

    The broker is one object shared by the dispatcher thread, one thread per
    connection, the writer threads, the worker callbacks of the local pool and the
    shutdown thread. Everything it owns is guarded by one re-entrant lock, so the
    model is the sequence of the critical sections: each operation below is one
    [with self._condition] block (or the code between two of them), a body in the
    monad [ST Broker] that keeps its changes when it raises.

    Objects compared by identity ([_Request], [_Session], [_ServerConnection],
    local futures) live in heaps and are named by their position; the heaps only
    grow. Waiting and notifying have no state: a wake-up is the environment
    choosing the next critical section ([BrokerStep.v]). *)
From S2P Require Import Prelude Errors Futures StateErr Heapq PyVal PyInt Config Worker.
From S2P Require Import Protocol Reassembly Scheduler Terminal.

Module ServerState.
Inductive t := CREATED | STARTING | RUNNING | DRAINING | STOPPING | STOPPED.
#[export] Instance t_eq_dec : EqDecision t.
Proof. solve_decision. Defined.
End ServerState.
Export (hints) ServerState.

Module RequestState.
Inductive t :=
  | ACCEPTED_QUEUED | RUNNING | SUCCEEDED | TASK_FAILED | EXECUTION_TIMED_OUT
  | CANCELLED | QUEUE_TIMED_OUT | WORKER_LOST | RESULT_ENCODING_FAILED | RESULT_TOO_LARGE.
#[export] Instance t_eq_dec : EqDecision t.
Proof. solve_decision. Defined.

(** The value of the string enumeration. *)
Definition value (s : t) : pyval :=
  PStr (py match s with
           | ACCEPTED_QUEUED => "ACCEPTED_QUEUED" | RUNNING => "RUNNING"
           | SUCCEEDED => "SUCCEEDED" | TASK_FAILED => "TASK_FAILED"
           | EXECUTION_TIMED_OUT => "EXECUTION_TIMED_OUT" | CANCELLED => "CANCELLED"
           | QUEUE_TIMED_OUT => "QUEUE_TIMED_OUT" | WORKER_LOST => "WORKER_LOST"
           | RESULT_ENCODING_FAILED => "RESULT_ENCODING_FAILED"
           | RESULT_TOO_LARGE => "RESULT_TOO_LARGE"
           end%string).

(** [state in _TERMINAL]. *)
Definition terminal (s : t) : bool :=
  match s with ACCEPTED_QUEUED | RUNNING => false | _ => true end.
End RequestState.
Export (hints) RequestState.

(** ** Objects *)

(** [_Request]. *)
Record Request := mkRequest {
  rq_request_id : pystr;
  rq_digest : pystr;
  rq_principal : pystr;
  rq_session_id : pystr;
  rq_connection : nat;
  rq_mode : pystr;
  rq_operation : pyval;
  rq_payload : bytes;
  rq_priority : Z;
  rq_execution_timeout : option pyfloat;
  rq_queue_deadline : option pyfloat;
  rq_group_id : pyval;
  rq_max_result_bytes : Z;
  rq_reserved_result_bytes : Z;
  rq_state : RequestState.t;
  rq_local_future : option nat;
  rq_terminal_kind : option MessageType;
  rq_terminal_payload : bytes;
  rq_terminal_control : pydict;
  rq_reservation_released : bool }.

(** [_Session]. *)
Record Session := mkSession {
  ss_session_id : pystr;
  ss_client_id : pystr;
  ss_principal : pystr;
  ss_connection : nat;
  ss_max_result_bytes : Z;
  ss_watermark : Z;
  ss_reserved_outcomes : Z;
  ss_reserved_outcome_bytes : Z;
  ss_requests : list (pystr * nat) }.

Inductive out_item := OMessage (m : Message) | OBarrier (id : nat) | OSentinel.

Inductive transport := Unix | Tcp.
#[export] Instance transport_eq_dec : EqDecision transport.
Proof. solve_decision. Defined.

(** Where the thread that reads a connection stands. *)
Inductive conn_pc := CHandshake | CServing | CFailed (e : exn) | CClosing | CGone.

(** [_ServerConnection]: the outbound [PriorityQueue] holds entries of equal
    priority with increasing sequence numbers, hence a FIFO queue. *)
Record Conn := mkConn {
  cn_transport : transport;
  cn_session : option nat;
  cn_closed : bool;
  cn_clean_close : bool;
  cn_sequence : Z;
  cn_outbound : list (Z * out_item);
  cn_pc : conn_pc }.

Inductive outcome := OWorker (w : WorkerOutcome) | OError (e : exn) | OInvalid.

(** [_PoolFuture] over [concurrent.futures.Future]: the closure of
    [_before_submit], the state, the done callback [_dispatch_loop] adds, and
    whether callbacks are due in the thread that finished the future. *)
Record LocalFuture := mkFuture {
  lf_record : nat;
  lf_state : FutureState.t;
  lf_pid : option Z;
  lf_outcome : option outcome;
  lf_callback : option nat;
  lf_due : bool }.

(** The job tuple handed to [_submit_future]. *)
Record Job := mkJob {
  jb_future : nat;
  jb_record : nat;
  jb_mode : pystr;
  jb_payload : bytes;
  jb_operation : pyval;
  jb_max_result_bytes : Z;
  jb_timeout : option pyfloat;
  jb_priority : Z }.

#[export] Instance Request_inhabited : Inhabited Request :=
  populate (mkRequest [] [] [] [] 0 [] PNone [] 0 None None PNone 0 0
              RequestState.CANCELLED None None [] [] true).
#[export] Instance Session_inhabited : Inhabited Session :=
  populate (mkSession [] [] [] 0 0 0 0 0 []).
#[export] Instance Conn_inhabited : Inhabited Conn :=
  populate (mkConn Tcp None true false 0 [] CGone).
#[export] Instance LocalFuture_inhabited : Inhabited LocalFuture :=
  populate (mkFuture 0 FutureState.CANCELLED None None None false).

(** ** The server *)

Record Statistics := mkStatistics {
  tasks_received : Z;
  tasks_accepted : Z;
  tasks_rejected : Z;
  tasks_running : Z;
  tasks_terminal : Z;
  connection_count : Z }.

(** Where the dispatcher stands: between two turns of its loop, submitting the
    record it popped, or about to add the done callback. *)
Inductive dispatcher_pc := DIdle | DSubmitting (r f : nat) | DAttaching (r f : nat) | DExited.

Record Broker := mkBroker {
  br_state : ServerState.t;
  br_ready : bool;
  br_stopped : bool;
  br_has_pool : bool;
  br_bound : list nat;
  br_raw_sockets : list nat;
  br_connections : list nat;
  br_sessions : list (pystr * nat);
  br_client_sessions : list (pystr * nat);
  br_requests : list (pystr * nat);
  br_reserved_outcomes : Z;
  br_reserved_outcome_bytes : Z;
  br_scheduler : FairScheduler (T := nat) (P := pystr);
  br_staged : Z;
  br_shutdown_thread : bool;
  br_shutdown_cancel_futures : bool;
  br_shutdown_deadline_at : option pyfloat;
  br_statistics : Statistics;
  br_request_heap : list Request;
  br_session_heap : list Session;
  br_conn_heap : list Conn;
  br_future_heap : list LocalFuture;
  br_dispatcher : dispatcher_pc;
  br_jobs : list Job;
  br_kills : list Z }.

(** [__init__]. *)
Definition broker_init : Broker :=
  mkBroker ServerState.CREATED false false false [] [] [] [] [] [] 0 0 scheduler_init 0
    false false None (mkStatistics 0 0 0 0 0 0) [] [] [] [] DIdle [] [].

(** *** Access to the heaps *)
Definition req (s : Broker) (r : nat) : Request := br_request_heap s !!! r.
Definition ses (s : Broker) (i : nat) : Session := br_session_heap s !!! i.
Definition con (s : Broker) (c : nat) : Conn := br_conn_heap s !!! c.
Definition fut (s : Broker) (f : nat) : LocalFuture := br_future_heap s !!! f.

Notation M := (ST Broker).

(** The changes of one field, as functions on the state. *)
Definition set_req (r : nat) (g : Request → Request) (s : Broker) : Broker :=
  {| s with br_request_heap := alter g r (br_request_heap s) |}.
Definition set_ses (i : nat) (g : Session → Session) (s : Broker) : Broker :=
  {| s with br_session_heap := alter g i (br_session_heap s) |}.
Definition set_con (c : nat) (g : Conn → Conn) (s : Broker) : Broker :=
  {| s with br_conn_heap := alter g c (br_conn_heap s) |}.
Definition set_fut (f : nat) (g : LocalFuture → LocalFuture) (s : Broker) : Broker :=
  {| s with br_future_heap := alter g f (br_future_heap s) |}.
Definition set_stats (g : Statistics → Statistics) (s : Broker) : Broker :=
  {| s with br_statistics := g (br_statistics s) |}.
Definition set_requests (g : list (pystr * nat) → list (pystr * nat)) (s : Broker) : Broker :=
  {| s with br_requests := g (br_requests s) |}.
Definition set_scheduler (g : FairScheduler → FairScheduler) (s : Broker) : Broker :=
  {| s with br_scheduler := g (br_scheduler s) |}.
Definition set_staged (g : Z → Z) (s : Broker) : Broker :=
  {| s with br_staged := g (br_staged s) |}.
Definition set_dispatcher (d : dispatcher_pc) (s : Broker) : Broker :=
  {| s with br_dispatcher := d |}.
(** [self._reserved_outcomes += n; self._reserved_outcome_bytes += bytes]. *)
Definition add_reserved (n bytes : Z) (s : Broker) : Broker :=
  {| s with br_reserved_outcomes := br_reserved_outcomes s + n;
            br_reserved_outcome_bytes := br_reserved_outcome_bytes s + bytes |}.
(** Creating an object. *)
Definition new_req (x : Request) (s : Broker) : Broker :=
  {| s with br_request_heap := br_request_heap s ++ [x] |}.
Definition new_fut (x : LocalFuture) (s : Broker) : Broker :=
  {| s with br_future_heap := br_future_heap s ++ [x] |}.
Definition new_job (x : Job) (s : Broker) : Broker :=
  {| s with br_jobs := br_jobs s ++ [x] |}.

Definition upd_req (r : nat) (g : Request → Request) : M unit := modify (set_req r g).
Definition upd_ses (i : nat) (g : Session → Session) : M unit := modify (set_ses i g).
Definition upd_con (c : nat) (g : Conn → Conn) : M unit := modify (set_con c g).
Definition upd_fut (f : nat) (g : LocalFuture → LocalFuture) : M unit := modify (set_fut f g).
Definition upd_stats (g : Statistics → Statistics) : M unit := modify (set_stats g).

(** ** Configuration *)

Inductive DisconnectPolicy := CancelQueued | Continue | Terminate.
#[export] Instance DisconnectPolicy_eq_dec : EqDecision DisconnectPolicy.
Proof. solve_decision. Defined.

(** What the code reads of a [PeerInfo]; the certificate is its [repr]. *)
Record PeerInfo := mkPeer { pi_uid : option Z; pi_certificate : option pystr }.

(** What an [Authenticator] may return. *)
Inductive auth_result := APrincipal (name : pystr) | ANotPrincipal.

(** The constructor arguments and the process the server runs in. The
    authenticator and the authorizer are the user's; they may raise. *)
Record ServerConfig := mkConfig {
  cf_limits : RemoteLimits;
  cf_serializer_name : pystr;
  cf_serializer_protocol : pyval;
  cf_task_registry : list pystr;
  cf_registry_fingerprint : option pystr;
  cf_application_fingerprint : option pystr;
  cf_authenticator : option (transport → PeerInfo → pydict → result exn auth_result);
  cf_authorizer : option (pystr → pystr → pydict → result exn bool);
  cf_disconnect_policy : DisconnectPolicy;
  cf_server_id : pystr;
  cf_epoch : pystr;
  cf_uid : Z;
  cf_python : Z * Z;
  cf_pool_statistics : list (string * pyval) }.

(** [f"uid:{n}"] and the like. *)
Definition uid_principal (n : Z) : pystr := py "uid:" ++ str_of_int n.

(** [str(value)] of a serializer protocol, a string or an integer. *)
Definition str_value (v : pyval) : pystr :=
  match v with PStr s => s | _ => str_of_int (int_value v) end.

Definition opt_str (v : option pystr) : pyval :=
  match v with Some s => PStr s | None => PNone end.

Section Ops.
Context {J : JsonText} {U : UnicodeData} {HQ : HeapQ Z Z.le}.
Context (sha256_hex : bytes → pystr) (repr_exn : exn → pystr).
Context (cfg : ServerConfig).

Notation limits := (cf_limits cfg).

(** ** [_ServerConnection] *)

(** [put_nowait]: the sequence number is taken before [Full] is raised. *)
Definition put_nowait (c : nat) (item : out_item) : M bool :=
  cn ← gets (λ s, con s c);
  let full := (0 <? outbound_queue_size limits)
              && (outbound_queue_size limits <=? Z.of_nat (length (cn_outbound cn))) in
  _ ← upd_con c (λ cn, {| cn with
        cn_sequence := cn_sequence cn + 1;
        cn_outbound := if full then cn_outbound cn
                       else cn_outbound cn ++ [(cn_sequence cn, item)] |});
  mret full.

Definition close (c : nat) : M unit :=
  cn ← gets (λ s, con s c);
  if cn_closed cn then skip
  else
    _ ← upd_con c (λ cn, {| cn with cn_closed := true |});
    _ ← put_nowait c OSentinel;
    skip.

(** [send]: false when the connection is closed or overflows, which closes it. *)
Definition send (c : nat) (kind : MessageType) (control : pydict) (payload : bytes)
    : M bool :=
  cn ← gets (λ s, con s c);
  if cn_closed cn then mret false
  else
    full ← put_nowait c (OMessage (mkMessage kind control payload));
    if (full : bool) then _ ← close c; mret false else mret true.

(** A send whose result is ignored. *)
Definition send_ (c : nat) (kind : MessageType) (control : pydict) : M unit :=
  _ ← send c kind control []; skip.

(** The part of [flush] before it waits for the barrier. *)
Definition flush_begin (c : nat) (barrier : nat) : M bool :=
  cn ← gets (λ s, con s c);
  if cn_closed cn then mret false
  else
    full ← put_nowait c (OBarrier barrier);
    if (full : bool) then _ ← close c; mret false else mret true.

(** One turn of [_writer_loop]; [sent] tells whether [send_message] returned or
    raised one of the exceptions the loop handles. *)
Definition writer_turn (c : nat) (sent : bool) : M unit :=
  cn ← gets (λ s, con s c);
  match cn_outbound cn with
  | [] => skip
  | (_, item) :: rest =>
      _ ← upd_con c (λ cn, {| cn with cn_outbound := rest |});
      match item with
      | OMessage _ => if sent then skip else close c
      | OBarrier _ | OSentinel => skip
      end
  end.

(** ** Reservations and removal *)

Definition release_reservation_locked (i r : nat) : M unit :=
  rec ← gets (λ s, req s r);
  if rq_reservation_released rec then skip
  else
    _ ← upd_req r (λ x, {| x with rq_reservation_released := true |});
    _ ← upd_ses i (λ x, {| x with
          ss_reserved_outcomes := ss_reserved_outcomes x - 1;
          ss_reserved_outcome_bytes :=
            ss_reserved_outcome_bytes x - rq_reserved_result_bytes rec |});
    modify (add_reserved (-1) (- rq_reserved_result_bytes rec)).

Definition remove_request_locked (r : nat) : M unit :=
  rec ← gets (λ s, req s r);
  session ← gets (λ s, dict_get (br_sessions s) (rq_session_id rec));
  match session with
  | None => skip
  | Some i =>
      _ ← release_reservation_locked i r;
      _ ← upd_req r (λ x, {| x with rq_payload := []; rq_terminal_payload := [] |});
      _ ← upd_ses i (λ x, {| x with
            ss_requests := dict_del (ss_requests x) (rq_request_id rec) |});
      modify (set_requests (λ d, dict_del d (rq_request_id rec)))
  end.

Definition purge_session_locked (i : nat) : M unit :=
  snapshot ← gets (λ s, (ss_requests (ses s i)).*2);
  _ ← for_each snapshot (λ r,
        rec ← gets (λ s, req s r);
        if RequestState.terminal (rq_state rec) then remove_request_locked r else skip);
  session ← gets (λ s, ses s i);
  match ss_requests session with
  | _ :: _ => skip
  | [] =>
      modify (λ s, {| s with
        br_sessions := dict_del (br_sessions s) (ss_session_id session);
        br_client_sessions :=
          if bool_decide (dict_get (br_client_sessions s) (ss_client_id session) = Some i)
          then dict_del (br_client_sessions s) (ss_client_id session)
          else br_client_sessions s |})
  end.

(** ** Terminal outcomes *)

Definition terminal_locked (r : nat) (state : RequestState.t) (kind : MessageType)
    (control : pydict) (payload : bytes) : M unit :=
  rec ← gets (λ s, req s r);
  if RequestState.terminal (rq_state rec) then skip
  else
    _ ← upd_req r (λ x, {| x with
          rq_state := state; rq_payload := []; rq_terminal_kind := Some kind;
          rq_terminal_control := control; rq_terminal_payload := payload |});
    _ ← upd_stats (λ t, {| t with tasks_terminal := tasks_terminal t + 1 |});
    _ ← send (rq_connection rec) kind (with_request_id (rq_request_id rec) control)
          payload;
    skip.

Definition reason (text : string) : pydict := mkdict [("reason", PStr (py text))]%string.
Definition message (text : pystr) : pydict := mkdict [("message", PStr text)]%string.

(** The descriptor of an outcome without one. *)
Definition empty_descriptor : Descriptor := Build_Descriptor None None None None None.

(** [mapping] in [_complete_local]. *)
Definition outcome_state (k : outcome_kind) : RequestState.t * MessageType :=
  match k with
  | K_result => (RequestState.SUCCEEDED, RESULT)
  | K_task_error => (RequestState.TASK_FAILED, TASK_ERROR)
  | K_result_encoding_failed =>
      (RequestState.RESULT_ENCODING_FAILED, RESULT_ENCODING_FAILED_)
  | K_result_too_large => (RequestState.RESULT_TOO_LARGE, RESULT_TOO_LARGE_)
  end.

(** The end of both branches of [_complete_local]. *)
Definition unstage (r : nat) : M unit :=
  _ ← modify (set_staged (λ n, if n =? 0 then n else n - 1));
  rec ← gets (λ s, req s r);
  closed ← gets (λ s, cn_closed (con s (rq_connection rec)));
  if (closed : bool) then
    session ← gets (λ s, dict_get (br_sessions s) (rq_session_id rec));
    match session with
    | Some i => purge_session_locked i
    | None => skip
    end
  else skip.

Definition complete_local (r : nat) (o : outcome) : M unit :=
  rec ← gets (λ s, req s r);
  if RequestState.terminal (rq_state rec) then unstage r
  else
    _ ← match o with
        | OWorker w =>
            let '(state, kind) := outcome_state (Worker.kind w) in
            d ← lift (fit_terminal_descriptor limits (rq_request_id rec)
                        (default empty_descriptor (descriptor w))
                        (Z.of_nat (length (Worker.payload w))));
            terminal_locked r state kind (fields_dict d) (Worker.payload w)
        | OError e =>
            if isinstance e PoolTimeoutError then
              terminal_locked r RequestState.EXECUTION_TIMED_OUT TIMED_OUT
                (message (py (exn_msg e))) []
            else if isinstance e ProcessError || isinstance e PicklingError then
              terminal_locked r RequestState.WORKER_LOST WORKER_LOST_
                (message (py (exn_msg e))) []
            else
              terminal_locked r RequestState.WORKER_LOST WORKER_LOST_
                (message (repr_exn e)) []
        | OInvalid =>
            terminal_locked r RequestState.WORKER_LOST WORKER_LOST_
              (message (py "invalid worker outcome")) []
        end;
    unstage r.

(** ** Local futures *)

(** [_pool_done]: [future.result()] of a finished or cancelled future. *)
Definition pool_done (r f : nat) : M unit :=
  x ← gets (λ s, fut s f);
  complete_local r
    match lf_state x, lf_outcome x with
    | FutureState.FINISHED, Some o => o
    | _, _ => OError (Raise FuturesCancelledError "")
    end.

(** [_invoke_callbacks]: [concurrent.futures] logs what a callback raises. *)
Definition run_callback (f : nat) : M unit :=
  x ← gets (λ s, fut s f);
  _ ← upd_fut f (λ x, {| x with lf_due := false; lf_callback := None |});
  match lf_callback x with
  | Some r => swallow (pool_done r f)
  | None => skip
  end.

(** The state change of [Future.cancel]; true when this call cancelled it. *)
Definition mark_cancelled (f : nat) : M bool :=
  x ← gets (λ s, fut s f);
  if decide (lf_state x = FutureState.PENDING) then
    _ ← upd_fut f (λ x, {| x with lf_state := FutureState.CANCELLED; lf_due := true |});
    mret true
  else mret false.

(** [cancel()] under the broker lock: the callbacks run before it returns, in the
    same thread, which holds the re-entrant lock. *)
Definition cancel_future (f : nat) : M unit :=
  cancelled ← mark_cancelled f;
  if (cancelled : bool) then run_callback f else skip.

(** [if record.local_future is not None: record.local_future.cancel()]. *)
Definition cancel_local (r : nat) : M unit :=
  rec ← gets (λ s, req s r);
  match rq_local_future rec with Some f => cancel_future f | None => skip end.

(** [cancel_and_kill_if_running]; [kill_proc_tree] is an effect on the system. *)
Definition cancel_and_kill (f : nat) : M unit :=
  _ ← cancel_future f;
  x ← gets (λ s, fut s f);
  match lf_pid x with
  | Some pid =>
      if pid =? 0 then skip
      else modify (λ s, {| s with br_kills := br_kills s ++ [pid] |})
  | None => skip
  end.

Definition kill_local (r : nat) : M unit :=
  rec ← gets (λ s, req s r);
  match rq_local_future rec with Some f => cancel_and_kill f | None => skip end.

(** ** Withdrawing queued requests *)

Definition scheduler_remove (r : nat) : M unit :=
  sch ← gets br_scheduler;
  '(_, sch') ← lift (Scheduler.remove sch r);
  modify (set_scheduler (λ _, sch')).

(** The sequence the code repeats for a record that leaves the queue unserved. *)
Definition withdraw (r : nat) (state : RequestState.t) (kind : MessageType)
    (text : string) : M unit :=
  _ ← scheduler_remove r;
  _ ← terminal_locked r state kind (reason text) [];
  cancel_local r.

(** [time.monotonic() >= deadline]. *)
Definition reached (now : pyfloat) (deadline : option pyfloat) : bool :=
  match deadline with Some d => SFleb d now | None => false end.

Definition expire_queued_locked (now : pyfloat) : M unit :=
  snapshot ← gets (λ s, (br_requests s).*2);
  for_each snapshot (λ r,
    rec ← gets (λ s, req s r);
    if bool_decide (rq_state rec = RequestState.ACCEPTED_QUEUED)
       && reached now (rq_queue_deadline rec)
    then withdraw r RequestState.QUEUE_TIMED_OUT QUEUE_TIMED_OUT_ "queue_timeout"
    else skip).

(** ** Dispatch *)

(** [_claim_dispatch], called by the pool with the worker it chose. *)
Definition claim_dispatch (r : nat) (pid : Z) (now : pyfloat) : M bool :=
  let publish :=
    rec ← gets (λ s, req s r);
    _ ← match rq_local_future rec with
        | Some f => upd_fut f (λ x, {| x with lf_pid := Some pid |})
        | None => skip
        end;
    _ ← send_ (rq_connection rec) RUNNING_
          (mkdict [("request_id", PStr (rq_request_id rec)); ("pid", PInt pid);
                   ("worker_id", PStr (py "worker:" ++ str_of_int pid))]%string);
    mret true in
  rec ← gets (λ s, req s r);
  match rq_state rec with
  | RequestState.ACCEPTED_QUEUED =>
      if reached now (rq_queue_deadline rec) then
        _ ← terminal_locked r RequestState.QUEUE_TIMED_OUT QUEUE_TIMED_OUT_
              (reason "queue_timeout") [];
        _ ← cancel_local r;
        mret false
      else
        _ ← upd_req r (λ x, {| x with rq_state := RequestState.RUNNING |});
        _ ← upd_stats (λ t, {| t with tasks_running := tasks_running t + 1 |});
        publish
  | RequestState.RUNNING => publish
  | _ => mret false
  end.

(** One turn of [_dispatch_loop] up to the release of the lock. The inner [while]
    waits and expires again, which is the next turn. *)
Definition dispatch_turn (now : pyfloat) : M unit :=
  _ ← expire_queued_locked now;
  s ← gets id;
  let running := bool_decide (br_state s ∈ [ServerState.RUNNING; ServerState.DRAINING]) in
  if running && (negb (truthy (br_scheduler s))
                 || (br_staged s >=? max_staged_tasks limits)) then skip
  else if bool_decide (br_state s ∈ [ServerState.STOPPING; ServerState.STOPPED]) then
    modify (set_dispatcher DExited)
  else
    match Scheduler.pop (br_scheduler s) with
    | Err e => if isinstance e IndexError then skip else raise e
    | Ok (r, sch) =>
        _ ← modify (set_scheduler (λ _, sch));
        rec ← gets (λ s, req s r);
        if bool_decide (rq_state rec ≠ RequestState.ACCEPTED_QUEUED) then skip
        else
          let f := length (br_future_heap s) in
          _ ← modify (new_fut (mkFuture r FutureState.PENDING None None None false));
          _ ← upd_req r (λ x, {| x with rq_local_future := Some f |});
          _ ← modify (set_staged (λ n, n + 1));
          modify (set_dispatcher (DSubmitting r f))
    end.

(** What [_submit_future] did. *)
Inductive submit_result := Submitted | SubmitFull | SubmitError (e : exn).

Definition job_of (rec : Request) (r f : nat) : Job :=
  mkJob f r (rq_mode rec) (rq_payload rec) (rq_operation rec) (rq_max_result_bytes rec)
    (rq_execution_timeout rec) (rq_priority rec).

Definition dispatch_submit (r f : nat) (res : submit_result) : M unit :=
  match res with
  | Submitted =>
      rec ← gets (λ s, req s r);
      _ ← modify (new_job (job_of rec r f));
      _ ← upd_req r (λ x, {| x with rq_payload := [] |});
      modify (set_dispatcher (DAttaching r f))
  | SubmitFull =>
      _ ← upd_req r (λ x, {| x with rq_local_future := None |});
      _ ← modify (set_staged (λ n, n - 1));
      rec ← gets (λ s, req s r);
      _ ← (if bool_decide (rq_state rec = RequestState.ACCEPTED_QUEUED) then
             modify (set_scheduler (λ sch,
               Scheduler.put_front sch r (rq_priority rec) (rq_principal rec)))
           else skip);
      modify (set_dispatcher DIdle)
  | SubmitError e =>
      _ ← complete_local r (OError e);
      modify (set_dispatcher DIdle)
  end.

(** [local.add_done_callback(...)]: on a done future the callback is due at once. *)
Definition dispatch_attach (r f : nat) : M unit :=
  x ← gets (λ s, fut s f);
  _ ← upd_fut f (λ x, {| x with
        lf_callback := Some r; lf_due := FutureState.done (lf_state x) |});
  modify (set_dispatcher DIdle).

(** ** Requests of a connection *)

(** [_owned_request]. *)
Definition owned_request (c : nat) (request_id : pyval) : M (option nat) :=
  gets (λ s, match cn_session (con s c), request_id with
             | Some i, PStr id => dict_get (ss_requests (ses s i)) id
             | _, _ => None
             end).

(** [_authorized]. *)
Definition authorized (c : nat) (operation : pystr) (metadata : pydict) : M bool :=
  cn ← gets (λ s, con s c);
  match cn_session cn with
  | None => mret false
  | Some i =>
      session ← gets (λ s, ses s i);
      match cf_authorizer cfg with
      | None => mret (bool_decide (cn_transport cn = Unix)
                      && bool_decide (ss_principal session = uid_principal (cf_uid cfg)))
      | Some decide_ => lift (decide_ (ss_principal session) operation metadata)
      end
  end.

(** [_reject]. *)
Definition reject (c : nat) (request_id : pystr) (text : string) : M unit :=
  _ ← upd_stats (λ t, {| t with tasks_rejected := tasks_rejected t + 1 |});
  send_ c REJECTED (mkdict [("request_id", PStr request_id); ("reason", PStr (py text))])%string.

(** [_send_record]: the answer to a repeated submission. *)
Definition send_record (r : nat) : M unit :=
  rec ← gets (λ s, req s r);
  match rq_state rec with
  | RequestState.ACCEPTED_QUEUED =>
      send_ (rq_connection rec) ACCEPTED_
        (mkdict [("request_id", PStr (rq_request_id rec));
                 ("state", RequestState.value (rq_state rec))])%string
  | RequestState.RUNNING =>
      pid ← gets (λ s, match rq_local_future rec with
                       | Some f => lf_pid (fut s f)
                       | None => None
                       end);
      send_ (rq_connection rec) RUNNING_
        (mkdict [("request_id", PStr (rq_request_id rec));
                 ("pid", match pid with Some p => PInt p | None => PNone end);
                 ("worker_id", PNone)])%string
  | _ =>
      match rq_terminal_kind rec with
      | Some kind =>
          _ ← send (rq_connection rec) kind
                (with_request_id (rq_request_id rec) (rq_terminal_control rec))
                (rq_terminal_payload rec);
          skip
      | None => skip
      end
  end.

(** The number of records of a principal in [_requests]. *)
Definition principal_records (s : Broker) (principal : pystr) : Z :=
  Z.of_nat (length (filter (λ r, rq_principal (req s r) = principal) (br_requests s).*2)).

(** The seven limits of [_submit]. *)
Definition queue_full (s : Broker) (session : Session) : bool :=
  (Z.of_nat (length (ss_requests session)) >=? max_pending_per_session limits)
  || (principal_records s (ss_principal session) >=? max_pending_per_principal limits)
  || (Z.of_nat (length (br_requests s)) >=? max_pending_global limits)
  || (ss_reserved_outcomes session >=? max_retained_outcomes_per_session limits)
  || (br_reserved_outcomes s >=? max_retained_outcomes_global limits)
  || (ss_reserved_outcome_bytes session + ss_max_result_bytes session
      >? max_retained_outcome_bytes_per_session limits)
  || (br_reserved_outcome_bytes s + ss_max_result_bytes session
      >? max_retained_outcome_bytes_global limits).

(** Membership of a value in a set of strings: an unhashable value raises. *)
Definition in_set (v : pyval) (names : list pystr) : result exn bool :=
  match v with
  | PList _ | PDict _ => Err (Raise TypeError "unhashable type")
  | PStr s => Ok (bool_decide (s ∈ names))
  | _ => Ok false
  end.

(** The construction and registration of an accepted record. *)
Definition register (i r : nat) (rec : Request) : M unit :=
  _ ← modify (new_req rec);
  _ ← upd_ses i (λ x, {| x with
        ss_requests := dict_set (ss_requests x) (rq_request_id rec) r;
        ss_reserved_outcomes := ss_reserved_outcomes x + 1;
        ss_reserved_outcome_bytes :=
          ss_reserved_outcome_bytes x + rq_reserved_result_bytes rec |});
  _ ← modify (set_requests (λ d, dict_set d (rq_request_id rec) r));
  _ ← modify (add_reserved 1 (rq_reserved_result_bytes rec));
  _ ← modify (set_scheduler (λ sch,
        Scheduler.put sch r (rq_priority rec) (rq_principal rec)));
  upd_stats (λ t, {| t with tasks_accepted := tasks_accepted t + 1 |}).

(** [_submit] after the capacity checks: validation of the request itself. *)
Definition submit_checked (c i : nat) (m : Message) (request_id digest : pystr)
    (now : pyfloat) : M unit :=
  let control := m_control m in
  let operation := get control "operation" in
  if Z.of_nat (length (m_payload m)) >? max_invocation_bytes limits then
    reject c request_id "invocation_too_large"
  else
    mode_ok ← lift (in_set (get control "mode") [py "callable"; py "registered"]);
    if negb mode_ok then reject c request_id "invalid_mode"
    else
      let mode := match get control "mode" with PStr t => t | _ => [] end in
      known ← lift (if bool_decide (mode = py "registered")
                    then in_set operation (cf_task_registry cfg) else Ok true);
      if negb known then reject c request_id "unknown_operation"
      else
        let action :=
          if bool_decide (mode = py "callable") then py "submit_callable"
          else py "submit_task:" ++ match operation with PStr o => o | _ => [] end in
        allowed ← authorized c action control;
        if negb allowed then reject c request_id "unauthorized"
        else
          priority ← lift (finite_nonnegative (get_or control "priority" (PInt 0)));
          execution_timeout ←
            lift (optional_finite_nonnegative (get control "execution_timeout"));
          queue_timeout ← lift (optional_finite_nonnegative (get control "queue_timeout"));
          level ← lift (int_of_float priority);
          session ← gets (λ s, ses s i);
          r ← gets (λ s, length (br_request_heap s));
          let rec := mkRequest request_id digest (ss_principal session)
                       (ss_session_id session) c mode operation (m_payload m) level
                       execution_timeout (fadd now <$> queue_timeout)
                       (get control "group_id") (ss_max_result_bytes session)
                       (ss_max_result_bytes session) RequestState.ACCEPTED_QUEUED
                       None None [] [] false in
          _ ← register i r rec;
          send_ c ACCEPTED_
            (mkdict [("request_id", PStr request_id);
                     ("state", RequestState.value RequestState.ACCEPTED_QUEUED)])%string.

(** [_submit]. *)
Definition submit (c : nat) (m : Message) (now : pyfloat) : M unit :=
  cn ← gets (λ s, con s c);
  match cn_session cn with
  | None => raise (protocol_error "submission before handshake")
  | Some i =>
      let control := m_control m in
      _ ← upd_stats (λ t, {| t with tasks_received := tasks_received t + 1 |});
      client_id ← gets (λ s, ss_client_id (ses s i));
      match get control "request_id" with
      | PStr request_id =>
        if negb (startswith request_id (client_id ++ [colon])) then
          raise (protocol_error "request ID does not belong to the client instance")
        else
          sequence ← lift match after_last colon request_id with
                          | Some t => match int_of_str t with
                                      | Ok n => Ok n
                                      | Err _ => Err (protocol_error "invalid request sequence")
                                      end
                          | None => Err (protocol_error "invalid request sequence")
                          end;
          let digest := sha256_hex (m_payload m) in
          if negb match get control "digest" with
                  | PStr d => bool_decide (d = digest)
                  | _ => false
                  end
          then raise (protocol_error "invocation digest mismatch")
          else
            existing ← gets (λ s, dict_get (ss_requests (ses s i)) request_id);
            match existing with
            | Some r =>
                rec ← gets (λ s, req s r);
                if negb (bool_decide (rq_digest rec = digest)) then
                  raise (protocol_error "request ID reused with different payload")
                else send_record r
            | None =>
                watermark ← gets (λ s, ss_watermark (ses s i));
                if sequence <=? watermark then reject c request_id "stale_request"
                else
                  _ ← upd_ses i (λ x, {| x with ss_watermark := sequence |});
                  s ← gets id;
                  if negb (bool_decide (br_state s = ServerState.RUNNING)) then
                    reject c request_id "server_draining"
                  else if queue_full s (ses s i) then reject c request_id "queue_full"
                  else submit_checked c i m request_id digest now
            end
      | _ => raise (protocol_error "request ID does not belong to the client instance")
      end
  end.

(** ** Cancellation and status *)

Definition cancel (c : nat) (control : pydict) : M unit :=
  let request_id := get control "request_id" in
  let hard := py_truthy (get_or control "hard" (PBool false)) in
  owned ← owned_request c request_id;
  response ←
    match owned with
    | None => mret "unknown"%string
    | Some r =>
        rec ← gets (λ s, req s r);
        match rq_state rec with
        | RequestState.ACCEPTED_QUEUED =>
            _ ← withdraw r RequestState.CANCELLED CANCELLED_ "cancelled";
            mret "cancelled"%string
        | RequestState.RUNNING =>
            allowed ← (if hard then authorized c (py "hard_cancel") control else mret false);
            if (allowed : bool) then
              _ ← terminal_locked r RequestState.CANCELLED CANCELLED_
                    (reason "terminated") [];
              _ ← kill_local r;
              mret "cancelled"%string
            else mret "running"%string
        | _ => mret "terminal"%string
        end
    end;
  send_ c CANCEL_RESPONSE
    (mkdict [("request_id", request_id); ("response", PStr (py response));
             ("token", get control "token")])%string.

(** The counters of [_cancel_group]. *)
Record counts := mkCounts { n_cancelled : Z; n_running : Z; n_terminal : Z; n_unknown : Z }.

Definition cancel_one (c : nat) (control : pydict) (hard : bool) (r : nat) (n : counts)
    : M counts :=
  rec ← gets (λ s, req s r);
  match rq_state rec with
  | RequestState.ACCEPTED_QUEUED =>
      _ ← withdraw r RequestState.CANCELLED CANCELLED_ "group_cancelled";
      mret {| n with n_cancelled := n_cancelled n + 1 |}
  | RequestState.RUNNING =>
      allowed ← (if hard then authorized c (py "hard_cancel") control else mret false);
      if (allowed : bool) then
        _ ← terminal_locked r RequestState.CANCELLED CANCELLED_
              (reason "group_terminated") [];
        _ ← kill_local r;
        mret {| n with n_cancelled := n_cancelled n + 1 |}
      else mret {| n with n_running := n_running n + 1 |}
  | _ => mret {| n with n_terminal := n_terminal n + 1 |}
  end.

Fixpoint cancel_all (c : nat) (control : pydict) (hard : bool) (rs : list nat) (n : counts)
    : M counts :=
  match rs with
  | [] => mret n
  | r :: rs' => n' ← cancel_one c control hard r n; cancel_all c control hard rs' n'
  end.

(** The records of a group, in submission order: [record.group_id == group_id]. *)
Definition in_group (group : pystr) (rec : Request) : bool :=
  match rq_group_id rec with PStr g => bool_decide (g = group) | _ => false end.

Definition group_members (s : Broker) (i : nat) (group : pystr) : list nat :=
  filter (λ r, in_group group (req s r) = true) (ss_requests (ses s i)).*2.

Definition cancel_group (c : nat) (control : pydict) : M unit :=
  let hard := py_truthy (get_or control "hard" (PBool false)) in
  n ← match get control "group_id" with
      | PStr group =>
          records ← gets (λ s, match cn_session (con s c) with
                               | Some i => group_members s i group
                               | None => []
                               end);
          cancel_all c control hard records
            (mkCounts 0 0 0 (match records with [] => 1 | _ => 0 end))
      | _ => mret (mkCounts 0 0 0 1)
      end;
  send_ c CANCEL_GROUP_RESPONSE
    (mkdict [("cancelled", PInt (n_cancelled n)); ("running", PInt (n_running n));
             ("terminal", PInt (n_terminal n)); ("unknown", PInt (n_unknown n));
             ("token", get control "token")])%string.

Definition status (c : nat) (control : pydict) : M unit :=
  owned ← owned_request c (get control "request_id");
  state ← gets (λ s, match owned with
                     | Some r => RequestState.value (rq_state (req s r))
                     | None => PStr (py "UNKNOWN")
                     end);
  send_ c STATUS_RESPONSE
    (mkdict [("request_id", get control "request_id"); ("state", state);
             ("token", get control "token")])%string.

(** ** Handshake *)

(** [list == [a, b]] for validated integer pairs. *)
Definition is_pair (v : pyval) (a b : Z) : bool :=
  match v with PList [PInt x; PInt y] => (x =? a) && (y =? b) | _ => false end.

Definition has_str (v : pyval) (t : string) : bool :=
  match v with
  | PList l => existsb (λ x, match x with PStr s => bool_decide (s = py t) | _ => false end) l
  | _ => false
  end.

Definition fingerprint_ok (expected : option pystr) (v : pyval) : bool :=
  match expected with
  | None => true
  | Some f => match v with PStr s => bool_decide (s = f) | _ => false end
  end.

(** Send the rejection, then raise. *)
Definition reject_hello {A} (c : nat) (why msg : string) : M A :=
  _ ← send_ c HANDSHAKE_REJECTED (reason why);
  raise (protocol_error msg).

(** The built-in authentication and the user's. *)
Definition authenticate (tr : transport) (peer : PeerInfo) (hello : pydict)
    : result exn auth_result :=
  match cf_authenticator cfg with
  | Some f => f tr peer hello
  | None =>
      match tr with
      | Unix =>
          match pi_uid peer with
          | Some uid =>
              if negb (uid =? cf_uid cfg)
              then Err (Raise PermissionError "Unix peer UID is not authorized")
              else Ok (APrincipal (uid_principal uid))
          | None => Ok (APrincipal (uid_principal (cf_uid cfg)))
          end
      | Tcp =>
          match pi_certificate peer with
          | Some cert =>
              b ← utf8_encode cert; Ok (APrincipal (py "tls:" ++ sha256_hex b))
          | None => Ok (APrincipal (py "tcp:loopback"))
          end
      end
  end.

(** The compatibility checks, before authentication. *)
Definition check_compatible (c : nat) (hello : pydict) : M unit :=
  _ ← lift (validate_hello hello);
  _ ← match get hello "wire_limits" with
      | PDict d => if same_wire_limits limits d then skip
                   else reject_hello c "wire_limits" "wire limit compatibility rejected"
      | _ => skip
      end;
  _ ← (if match get hello "versions" with
          | PList vs => existsb (λ v, is_pair v MAJOR MINOR) vs
          | _ => false
          end then skip
       else reject_hello c "protocol" "no compatible protocol version");
  _ ← (if negb match get hello "serializer" with
               | PStr t => bool_decide (t = cf_serializer_name cfg)
               | _ => false
               end
          || negb (bool_decide (str_value (get hello "serializer_protocol")
                                = str_value (cf_serializer_protocol cfg)))
       then reject_hello c "serializer" "serializer compatibility rejected" else skip);
  _ ← (if has_str (get hello "capabilities") "callable"
          && negb (is_pair (get hello "python") (cf_python cfg).1 (cf_python cfg).2)
       then reject_hello c "python" "callable mode requires matching Python" else skip);
  _ ← (if fingerprint_ok (cf_registry_fingerprint cfg) (get hello "registry_fingerprint")
       then skip
       else reject_hello c "registry_fingerprint" "task registry compatibility rejected");
  if fingerprint_ok (cf_application_fingerprint cfg) (get hello "application_fingerprint")
  then skip
  else reject_hello c "application_fingerprint" "application compatibility rejected".

Definition effective_result_limit (offered : Z) : Z :=
  Z.min (Z.min (Z.min offered (max_result_bytes limits))
           (max_retained_outcome_bytes_per_session limits))
    (max_retained_outcome_bytes_global limits).

Definition welcome (session_id : pystr) (result_limit : Z) : pydict :=
  mkdict [("version", PList [PInt MAJOR; PInt MINOR]);
          ("features", PList [PStr (py "callable"); PStr (py "registered");
                              PStr (py "chunking")]);
          ("wire", PStr (py "experimental-deadpool-private-v1"));
          ("wire_limits", PDict (wire_limits limits));
          ("server_id", PStr (cf_server_id cfg));
          ("epoch", PStr (cf_epoch cfg));
          ("session_id", PStr session_id);
          ("serializer", PStr (cf_serializer_name cfg));
          ("serializer_protocol", cf_serializer_protocol cfg);
          ("registry_fingerprint", opt_str (cf_registry_fingerprint cfg));
          ("application_fingerprint", opt_str (cf_application_fingerprint cfg));
          ("limits", PDict (mkdict
             [("max_invocation_bytes", PInt (max_invocation_bytes limits));
              ("max_result_bytes", PInt result_limit);
              ("max_pending_per_session", PInt (max_pending_per_session limits));
              ("max_pending_per_principal", PInt (max_pending_per_principal limits));
              ("max_pending_global", PInt (max_pending_global limits))]));
          ("resumption", PBool false)]%string.

(** The critical section of [_handshake]: the session is registered or refused. *)
Definition open_session (c : nat) (session : Session) : M unit :=
  s ← gets id;
  if match dict_get (br_client_sessions s) (ss_client_id session) with
     | Some _ => true | None => false end
  then reject_hello c "duplicate_client_instance"
         "client instance already has a live session"
  else if Z.of_nat (length (filter (λ i, ss_principal (ses s i) = ss_principal session)
                              (br_sessions s).*2))
          >=? max_connections_per_principal limits
  then reject_hello c "connection_limit" "principal connection limit exceeded"
  else
    let i := length (br_session_heap s) in
    _ ← modify (λ s, {| s with
          br_session_heap := br_session_heap s ++ [session];
          br_sessions := dict_set (br_sessions s) (ss_session_id session) i;
          br_client_sessions := dict_set (br_client_sessions s) (ss_client_id session) i |});
    upd_con c (λ cn, {| cn with cn_session := Some i |}).

(** [_handshake]; [session_id] is the fresh [uuid4().hex] and [peer] the result of
    [peer_info]. *)
Definition handshake (c : nat) (hello : pydict) (peer : result exn PeerInfo)
    (session_id : pystr) : M unit :=
  _ ← check_compatible c hello;
  peer ← lift peer;
  tr ← gets (λ s, cn_transport (con s c));
  principal ← match authenticate tr peer hello with
              | Ok (APrincipal name) =>
                  if bool_decide (name = []) then
                    reject_hello c "authentication" "peer authentication rejected"
                  else mret name
              | Ok ANotPrincipal =>
                  reject_hello c "authentication" "peer authentication rejected"
              | Err e =>
                  if isinstance e Exception_ then
                    reject_hello c "authentication" "peer authentication rejected"
                  else raise e
              end;
  let offered := get hello "max_result_bytes" in
  if negb (positive_plain_int offered) then
    raise (protocol_error "client result limit must be a positive integer")
  else
    let result_limit := effective_result_limit (int_value offered) in
    let client_id := match get hello "client_instance_id" with PStr t => t | _ => [] end in
    _ ← open_session c (mkSession session_id client_id principal c result_limit 0 0 0 []);
    send_ c WELCOME (welcome session_id result_limit).

(** ** Messages *)

(** [get_statistics]; the pool's own counters are updated over these. *)
Definition get_statistics (s : Broker) : list (string * pyval) :=
  let t := br_statistics s in
  let stats :=
    [("remote_tasks_received", PInt (tasks_received t));
     ("remote_tasks_accepted", PInt (tasks_accepted t));
     ("remote_tasks_rejected", PInt (tasks_rejected t));
     ("remote_tasks_running", PInt (tasks_running t));
     ("remote_tasks_terminal", PInt (tasks_terminal t));
     ("remote_connections", PInt (connection_count t));
     ("remote_sessions", PInt (Z.of_nat (length (br_sessions s))));
     ("remote_queued", PInt (len (br_scheduler s)));
     ("remote_staged", PInt (br_staged s));
     ("remote_retained_outcomes", PInt (br_reserved_outcomes s));
     ("remote_retained_outcome_bytes", PInt (br_reserved_outcome_bytes s))]%string in
  if br_has_pool s
  then foldl (λ d kv, dict_set d kv.1 kv.2) stats (cf_pool_statistics cfg) else stats.

(** The [RESULT_ACK] case. *)
Definition result_ack (c : nat) (control : pydict) : M unit :=
  owned ← owned_request c (get control "request_id");
  match owned with
  | Some r =>
      rec ← gets (λ s, req s r);
      if RequestState.terminal (rq_state rec) then remove_request_locked r else skip
  | None => skip
  end.

(** The [CLOSE_SESSION] case. *)
Definition close_session (c : nat) (control : pydict) : M unit :=
  s ← gets id;
  let refuse : M unit := raise (protocol_error
    "a session may close cleanly only after all requests are terminal") in
  match cn_session (con s c) with
  | None => refuse
  | Some i =>
      if existsb (λ r, negb (RequestState.terminal (rq_state (req s r))))
           (ss_requests (ses s i)).*2
      then refuse
      else
        _ ← upd_con c (λ cn, {| cn with cn_clean_close := true |});
        send_ c CLOSE_SESSION_RESPONSE (mkdict [("token", get control "token")])%string
  end.

Definition handle_message (c : nat) (m : Message) (now : pyfloat) : M unit :=
  let control := m_control m in
  match m_kind m with
  | PING => send_ c PONG (mkdict [("nonce", get control "nonce")])%string
  | SUBMIT => submit c m now
  | CANCEL_REQUEST => cancel c control
  | CANCEL_GROUP => cancel_group c control
  | STATUS_REQUEST => status c control
  | STATS_REQUEST =>
      allowed ← authorized c (py "statistics") control;
      if (allowed : bool) then
        stats ← gets get_statistics;
        send_ c STATS_RESPONSE (mkdict [("statistics", PDict (mkdict stats));
                                        ("token", get control "token")])%string
      else
        send_ c STATS_RESPONSE (mkdict [("error", PStr (py "unauthorized"));
                                        ("token", get control "token")])%string
  | RESULT_ACK => result_ack c control
  | CLOSE_SESSION => close_session c control
  | _ => raise (protocol_error "message is invalid in this state")
  end.

(** ** Connections *)

Definition set_pc (c : nat) (pc : conn_pc) : M unit :=
  upd_con c (λ cn, {| cn with cn_pc := pc |}).

(** The [except] clauses of [_connection_loop]: an end of the stream or an I/O error
    only ends the loop, any other exception is reported first. *)
Definition silent (e : exn) : bool :=
  isinstance e EOFError || isinstance e OSError || isinstance e PoolTimeoutError.

(** A body of the [try] block of [_connection_loop], and where the thread goes. *)
Definition guarded (c : nat) (next : conn_pc) (body : M unit) : M unit := λ s,
  match body s with
  | (s', Ok _) => set_pc c next s'
  | (s', Err e) =>
      set_pc c (if silent e then CClosing
                else if isinstance e Exception_ then CFailed e else CClosing) s'
  end.

(** The first message of a connection must be a [HELLO] without payload. *)
Definition connection_hello (c : nat) (hello : Message) (peer : result exn PeerInfo)
    (session_id : pystr) : M unit :=
  guarded c CServing
    (if negb (bool_decide (m_kind hello = HELLO)) || negb (bool_decide (m_payload hello = []))
     then raise (protocol_error "HELLO must be the first message")
     else handshake c (m_control hello) peer session_id).

Definition connection_message (c : nat) (m : Message) (now : pyfloat) : M unit :=
  guarded c CServing (handle_message c m now).

(** [reader.receive] raised, or the loop saw [connection.closed]. *)
Definition connection_receive_error (c : nat) (e : exn) : M unit :=
  guarded c CServing (raise e).
Definition connection_loop_exit (c : nat) : M unit := set_pc c CClosing.

(** [str(protocol_error)[:1024]]. *)
Definition error_text (e : exn) : pystr :=
  take 1024 (if isinstance e RemoteProtocolError then py (exn_msg e)
             else py "malformed peer message: " ++ py (exn_msg e)).

(** The report of a failure, up to the wait for the writer. *)
Definition connection_report (c : nat) (e : exn) (barrier : nat) : M unit :=
  _ ← send_ c PROTOCOL_ERROR (message (error_text e));
  _ ← flush_begin c barrier;
  set_pc c CClosing.

(** [_disconnect], for one record of the snapshot. *)
Definition disconnect_one (r : nat) : M unit :=
  rec ← gets (λ s, req s r);
  match rq_state rec with
  | RequestState.ACCEPTED_QUEUED =>
      withdraw r RequestState.CANCELLED CANCELLED_ "disconnected"
  | RequestState.RUNNING =>
      match cf_disconnect_policy cfg, rq_local_future rec with
      | Terminate, Some f =>
          _ ← terminal_locked r RequestState.CANCELLED CANCELLED_
                (reason "disconnected_terminate") [];
          cancel_and_kill f
      | _, _ => skip
      end
  | _ => skip
  end.

Definition update_connection_count : M unit :=
  n ← gets (λ s, Z.of_nat (length (br_connections s)));
  upd_stats (λ t, {| t with connection_count := n |}).

Definition disconnect (c : nat) : M unit :=
  _ ← close c;
  _ ← modify (λ s, {| s with br_connections := filter (.≠ c) (br_connections s) |});
  _ ← update_connection_count;
  cn ← gets (λ s, con s c);
  match cn_session cn with
  | None => skip
  | Some i =>
      if negb (cn_clean_close cn)
         && bool_decide (cf_disconnect_policy cfg ∈ [CancelQueued; Terminate])
      then
        snapshot ← gets (λ s, (ss_requests (ses s i)).*2);
        _ ← for_each snapshot disconnect_one;
        purge_session_locked i
      else purge_session_locked i
  end.

Definition connection_disconnect (c : nat) : M unit :=
  _ ← disconnect c;
  set_pc c CGone.

(** [_accept_loop] after [accept]: the socket is kept or closed at once. *)
Definition accept_connection (raw : nat) : M bool :=
  s ← gets id;
  let unauthenticated :=
    Z.of_nat (length (br_raw_sockets s))
    + Z.of_nat (length (filter (λ c, cn_session (con s c) = None) (br_connections s))) in
  let total :=
    Z.of_nat (length (br_raw_sockets s)) + Z.of_nat (length (br_connections s)) in
  if (unauthenticated >=? max_unauthenticated_connections limits)
     || (total >=? max_connections_global limits) then mret false
  else
    _ ← modify (λ s, {| s with br_raw_sockets := raw :: br_raw_sockets s |});
    mret true.

(** [_prepare_connection] once [prepare_accepted_socket] returned. *)
Definition prepare_connection (raw : nat) (tr : transport) : M unit :=
  c ← gets (λ s, length (br_conn_heap s));
  _ ← modify (λ s, {| s with
        br_conn_heap := br_conn_heap s ++ [mkConn tr None false false 0 [] CHandshake];
        br_raw_sockets := filter (.≠ raw) (br_raw_sockets s) |});
  s ← gets id;
  if negb (bool_decide (br_state s ∈ [ServerState.RUNNING; ServerState.DRAINING])) then
    _ ← close c; set_pc c CGone
  else
    _ ← modify (λ s, {| s with br_connections := br_connections s ++ [c] |});
    update_connection_count.

(** [_prepare_connection] when preparing the socket failed. *)
Definition prepare_failed (raw : nat) : M unit :=
  modify (λ s, {| s with br_raw_sockets := filter (.≠ raw) (br_raw_sockets s) |}).

(** ** Life cycle *)

Definition set_state (st : ServerState.t) : M unit :=
  modify (λ s, {| s with br_state := st |}).
(** [self.ready.set(); self._stopped.set()]. *)
Definition set_ready_stopped : M unit :=
  modify (λ s, {| s with br_ready := true; br_stopped := true |}).

(** The critical sections of [start] and [serve_forever] that claim the serving
    thread; false when another thread has it. *)
Definition start_begin (already_serving : bool) : M bool :=
  if already_serving then mret false
  else
    s ← gets id;
    if negb (bool_decide (br_state s = ServerState.CREATED)) then
      raise (Raise RuntimeError "a stopped remote server cannot be started")
    else _ ← set_state ServerState.STARTING; mret true.

(** [_initialize], first section: false when a shutdown came first. *)
Definition initialize_begin : M bool :=
  s ← gets id;
  if bool_decide (br_state s = ServerState.STARTING) then mret true
  else
    _ ← (if bool_decide (br_state s = ServerState.STOPPING) then
           _ ← set_state ServerState.STOPPED; set_ready_stopped
         else skip);
    mret false.

(** The second section, with the bound listeners: publish them or find that the
    start was cancelled; the resources are then discarded outside the lock. *)
Definition initialize_publish (bound : list nat) : M bool :=
  s ← gets id;
  if negb (bool_decide (br_state s = ServerState.STARTING)) then mret false
  else
    _ ← modify (λ s, {| s with
          br_has_pool := true; br_bound := bound; br_state := ServerState.RUNNING;
          br_ready := true |});
    mret true.

Definition initialize_cancelled : M unit :=
  _ ← set_state ServerState.STOPPED; set_ready_stopped.

(** [_close_bound]; the accept threads see their sockets fail. *)
Definition close_bound : M unit :=
  modify (λ s, {| s with br_bound := []; br_raw_sockets := [] |}).

(** [serve_forever] when [_initialize] raised: the critical section, and what follows. *)
Definition initialize_failed : M unit := set_state ServerState.STOPPED.
Definition initialize_closed : M unit := _ ← close_bound; set_ready_stopped.

(** [absolute_deadline < self._shutdown_deadline_at], or none is set yet. *)
Definition earlier (d : pyfloat) (current : option pyfloat) : bool :=
  match current with None => true | Some d' => SFltb d d' end.

(** [shutdown] up to its waits; the result tells whether the shutdown thread runs. *)
Definition shutdown (cancel_futures : bool) (deadline : pyval) (now : pyfloat) : M bool :=
  validated ← lift (validate_shutdown_deadline deadline);
  let absolute := fadd now <$> validated in
  s ← gets id;
  match br_state s with
  | ServerState.STOPPED => mret false
  | ServerState.CREATED =>
      _ ← set_state ServerState.STOPPED;
      _ ← set_ready_stopped;
      mret false
  | ServerState.STARTING => _ ← set_state ServerState.STOPPING; mret false
  | st =>
      if bool_decide (st = ServerState.STOPPING) && negb (br_ready s) then mret false
      else
        _ ← modify (λ s, {| s with
              br_state := if bool_decide (st = ServerState.RUNNING)
                          then ServerState.DRAINING else st;
              br_shutdown_cancel_futures :=
                br_shutdown_cancel_futures s || cancel_futures;
              br_shutdown_deadline_at :=
                match absolute with
                | Some d => if earlier d (br_shutdown_deadline_at s) then Some d
                            else br_shutdown_deadline_at s
                | None => br_shutdown_deadline_at s
                end;
              br_shutdown_thread := true |});
        mret true
  end.

Definition all_terminal (s : Broker) : bool :=
  forallb (λ r, RequestState.terminal (rq_state (req s r))) (br_requests s).*2.

Definition shutdown_cancel_one (r : nat) : M unit :=
  rec ← gets (λ s, req s r);
  if bool_decide (rq_state rec = RequestState.ACCEPTED_QUEUED)
  then withdraw r RequestState.CANCELLED CANCELLED_ "server_shutdown" else skip.

Definition shutdown_deadline_one (r : nat) : M unit :=
  rec ← gets (λ s, req s r);
  match rq_state rec, rq_local_future rec with
  | RequestState.ACCEPTED_QUEUED, _ =>
      withdraw r RequestState.CANCELLED CANCELLED_ "shutdown_deadline"
  | RequestState.RUNNING, Some f =>
      _ ← terminal_locked r RequestState.CANCELLED CANCELLED_
            (reason "shutdown_deadline") [];
      cancel_and_kill f
  | _, _ => skip
  end.

(** One turn of the [while] loop of [_finish_shutdown], from the test to the wait;
    the state becomes [STOPPING] when the loop ends. *)
Definition finish_shutdown_turn (now : pyfloat) : M unit :=
  s ← gets id;
  if all_terminal s then set_state ServerState.STOPPING
  else
    _ ← (if br_shutdown_cancel_futures s
         then for_each (br_requests s).*2 shutdown_cancel_one else skip);
    s' ← gets id;
    if reached now (br_shutdown_deadline_at s') then
      _ ← for_each (br_requests s').*2 shutdown_deadline_one;
      set_state ServerState.STOPPING
    else skip.

(** The loop over the connections, up to each wait for a barrier. *)
Definition shutdown_flush (c barrier : nat) : M unit := _ ← flush_begin c barrier; skip.
Definition shutdown_goaway (c barrier : nat) : M unit :=
  _ ← send_ c GOAWAY (reason "server_stopped");
  shutdown_flush c barrier.

Definition finish_shutdown_end : M unit :=
  _ ← set_state ServerState.STOPPED;
  modify (λ s, {| s with br_stopped := true |}).

(** ** The pool's side of a local future *)

(** [set_running_or_notify_cancel]; the pool stops on a cancelled future. *)
Definition pool_notify_running (f : nat) : M unit :=
  x ← gets (λ s, fut s f);
  match lf_state x with
  | FutureState.PENDING => upd_fut f (λ x, {| x with lf_state := FutureState.RUNNING |})
  | FutureState.CANCELLED =>
      upd_fut f (λ x, {| x with lf_state := FutureState.CANCELLED_AND_NOTIFIED |})
  | _ => raise (Raise InvalidStateError "Future in unexpected state")
  end.

(** [set_result] and [set_exception]. *)
Definition pool_finish (f : nat) (o : outcome) : M unit :=
  x ← gets (λ s, fut s f);
  if FutureState.done (lf_state x) then
    raise (Raise InvalidStateError "Future already done")
  else upd_fut f (λ x, {| x with
         lf_state := FutureState.FINISHED; lf_outcome := Some o; lf_due := true |}).

Definition pool_cancel (f : nat) : M unit := _ ← mark_cancelled f; skip.
Definition pool_set_pid (f : nat) (pid : Z) : M unit :=
  upd_fut f (λ x, {| x with lf_pid := Some pid |}).
Definition pool_claim (f : nat) (pid : Z) (now : pyfloat) : M unit :=
  x ← gets (λ s, fut s f);
  _ ← claim_dispatch (lf_record x) pid now; skip.
End Ops.
