(* ===== verification/BrokerStep.v ===== *)
(** * BrokerStep: the broker as a transition system

    An event is one critical section of one thread, with the values the
    environment supplies to it (clock readings, messages, what the pool and the
    sockets did). [enabled] says when its thread is at the place in the code where
    the section starts; [broker_step] runs it. Sessions get the identifiers that
    [uuid4] draws, which the model takes to be new. *)
From S2P Require Import Prelude Errors Futures StateErr Heapq PyVal PyInt Config Worker.
From S2P Require Import Protocol Reassembly Scheduler Terminal Broker.

Inductive event :=
  | EvStart
  | EvInitBegin
  | EvInitPublish (bound : list nat)
  | EvInitCancelled
  | EvInitFailed
  | EvInitClosed
  | EvAccept (raw : nat)
  | EvPrepare (raw : nat) (tr : transport)
  | EvPrepareFailed (raw : nat)
  | EvHello (c : nat) (hello : Message) (peer : result exn PeerInfo) (session_id : pystr)
  | EvMessage (c : nat) (m : Message) (now : pyfloat)
  | EvReceiveError (c : nat) (e : exn)
  | EvLoopExit (c : nat)
  | EvReport (c : nat) (barrier : nat)
  | EvDisconnect (c : nat)
  | EvWrite (c : nat) (sent : bool)
  | EvDispatch (now : pyfloat)
  | EvSubmit (res : submit_result)
  | EvAttach
  | EvClaim (f : nat) (pid : Z) (now : pyfloat)
  | EvNotifyRunning (f : nat)
  | EvFinish (f : nat) (o : outcome)
  | EvPoolCancel (f : nat)
  | EvPid (f : nat) (pid : Z)
  | EvCallback (f : nat)
  | EvShutdown (cancel_futures : bool) (deadline : pyval) (now : pyfloat)
  | EvShutdownTurn (now : pyfloat)
  | EvCloseBound
  | EvFlush (c : nat) (barrier : nat)
  | EvGoaway (c : nat) (barrier : nat)
  | EvCloseConnection (c : nat)
  | EvShutdownEnd.

Section Step.
Context {J : JsonText} {U : UnicodeData} {HQ : HeapQ Z Z.le}.
Context (sha256_hex : bytes → pystr) (repr_exn : exn → pystr).
Context (cfg : ServerConfig).

Definition ignore {A} (m : M A) : M unit := _ ← m; skip.

Definition exec (e : event) : M unit :=
  match e with
  | EvStart => ignore (start_begin false)
  | EvInitBegin => ignore initialize_begin
  | EvInitPublish bound => ignore (initialize_publish bound)
  | EvInitCancelled => initialize_cancelled
  | EvInitFailed => initialize_failed
  | EvInitClosed => initialize_closed
  | EvAccept raw => ignore (accept_connection cfg raw)
  | EvPrepare raw tr => prepare_connection cfg raw tr
  | EvPrepareFailed raw => prepare_failed raw
  | EvHello c m peer sid => connection_hello sha256_hex cfg c m peer sid
  | EvMessage c m now => connection_message sha256_hex repr_exn cfg c m now
  | EvReceiveError c e => connection_receive_error c e
  | EvLoopExit c => connection_loop_exit c
  | EvReport c barrier =>
      cn ← gets (λ s, con s c);
      match cn_pc cn with
      | CFailed e => connection_report cfg c e barrier
      | _ => skip
      end
  | EvDisconnect c => connection_disconnect repr_exn cfg c
  | EvWrite c sent => writer_turn cfg c sent
  | EvDispatch now => dispatch_turn repr_exn cfg now
  | EvSubmit res =>
      d ← gets br_dispatcher;
      match d with
      | DSubmitting r f => dispatch_submit repr_exn cfg r f res
      | _ => skip
      end
  | EvAttach =>
      d ← gets br_dispatcher;
      match d with
      | DAttaching r f => dispatch_attach r f
      | _ => skip
      end
  | EvClaim f pid now => pool_claim repr_exn cfg f pid now
  | EvNotifyRunning f => pool_notify_running f
  | EvFinish f o => pool_finish f o
  | EvPoolCancel f => pool_cancel f
  | EvPid f pid => pool_set_pid f pid
  | EvCallback f => run_callback repr_exn cfg f
  | EvShutdown cf d now => ignore (shutdown cf d now)
  | EvShutdownTurn now => finish_shutdown_turn repr_exn cfg now
  | EvCloseBound => close_bound
  | EvFlush c barrier => shutdown_flush cfg c barrier
  | EvGoaway c barrier => shutdown_goaway cfg c barrier
  | EvCloseConnection c => close cfg c
  | EvShutdownEnd => finish_shutdown_end
  end.

Definition conn_at (s : Broker) (c : nat) (p : conn_pc → bool) : bool :=
  (c <? length (br_conn_heap s))%nat && p (cn_pc (con s c)).

(** The future is that of a job the pool has. *)
Definition in_pool (s : Broker) (f : nat) : bool :=
  bool_decide (f ∈ jb_future <$> br_jobs s).

Definition enabled (e : event) (s : Broker) : bool :=
  match e with
  | EvHello c _ _ sid =>
      conn_at s c (λ p, match p with CHandshake => true | _ => false end)
      && bool_decide (sid ∉ ss_session_id <$> br_session_heap s)
  | EvMessage c _ _ | EvLoopExit c =>
      conn_at s c (λ p, match p with CServing => true | _ => false end)
  | EvReceiveError c _ =>
      conn_at s c (λ p, match p with CHandshake | CServing => true | _ => false end)
  | EvReport c _ => conn_at s c (λ p, match p with CFailed _ => true | _ => false end)
  | EvDisconnect c => conn_at s c (λ p, match p with CClosing => true | _ => false end)
  | EvPrepare raw _ | EvPrepareFailed raw => bool_decide (raw ∈ br_raw_sockets s)
  | EvAccept raw => bool_decide (raw ∉ br_raw_sockets s)
  | EvWrite c _ | EvFlush c _ | EvGoaway c _ | EvCloseConnection c =>
      (c <? length (br_conn_heap s))%nat
  | EvDispatch _ => match br_dispatcher s with DIdle => br_has_pool s | _ => false end
  | EvSubmit _ => match br_dispatcher s with DSubmitting _ _ => true | _ => false end
  | EvAttach => match br_dispatcher s with DAttaching _ _ => true | _ => false end
  | EvClaim f _ _ | EvNotifyRunning f | EvFinish f _ | EvPoolCancel f | EvPid f _ =>
      in_pool s f
  | EvCallback f => lf_due (fut s f)
  | EvShutdownTurn _ =>
      br_shutdown_thread s && bool_decide (br_state s = ServerState.DRAINING)
  | EvCloseBound => bool_decide (br_state s = ServerState.STOPPING)
  | EvShutdownEnd => bool_decide (br_state s = ServerState.STOPPING)
  | EvInitBegin => bool_decide (br_state s ∈ [ServerState.STARTING; ServerState.STOPPING])
                   && negb (br_ready s)
  | EvInitPublish _ | EvInitFailed => negb (br_ready s) && negb (br_has_pool s)
  | EvInitCancelled => bool_decide (br_state s = ServerState.STOPPING) && negb (br_ready s)
  | EvInitClosed => bool_decide (br_state s = ServerState.STOPPED) && negb (br_ready s)
  | EvStart | EvShutdown _ _ _ => true
  end.

Definition broker_step (s : Broker) (e : event) (s' : Broker) : Prop :=
  enabled e s = true ∧ (exec e s).1 = s'.

(** The states the broker can reach. *)
Definition reachable (s : Broker) : Prop := ∃ es, steps broker_step broker_init es s.

(** Run a list of events, checking that each is enabled: [None] otherwise. *)
Fixpoint run (s : Broker) (es : list event) : option Broker :=
  match es with
  | [] => Some s
  | e :: es' => if enabled e s then run (exec e s).1 es' else None
  end.

Lemma run_steps s es s' : run s es = Some s' → steps broker_step s es s'.
Proof.
  revert s. induction es as [|e es IH]; simpl; intros s.
  - intros [= <-]. constructor.
  - destruct (enabled e s) eqn:E; [|done]. intros H%IH. by econstructor.
Qed.
End Step.
