(* ===== verification/BrokerInv.v ===== *)
(** * BrokerInv: the abstract broker and its invariants

    [micro] lists the state changes the broker is allowed to make: an abstract
    specification with one rule per kind of change and, as premises, the
    circumstances in which it may happen. [Inv] is what every rule keeps.
    [BrokerRefine.v] shows that each operation of [Broker.v] is a sequence of
    these changes, so that what holds of the rules holds of the code. *)
From S2P Require Import Prelude Errors Futures StateErr Heapq PyVal PyInt Config Worker.
From S2P Require Import Protocol Reassembly Scheduler Terminal Broker BrokerStep.

(** ** The abstract broker *)

(** What the invariants read of the state, connections apart. *)
Definition core (s : Broker) :=
  (br_sessions s, br_client_sessions s, br_requests s,
   (br_reserved_outcomes s, br_reserved_outcome_bytes s, br_scheduler s),
   (br_request_heap s, br_session_heap s, br_future_heap s),
   (br_jobs s, br_dispatcher s),
   (tasks_accepted (br_statistics s), tasks_terminal (br_statistics s))).

(** Connections keep their session, and new ones have none; a closed one stays closed. *)
Definition conns_le (s s' : Broker) : Prop :=
  (length (br_conn_heap s) ≤ length (br_conn_heap s'))%nat ∧
  (∀ c, (c < length (br_conn_heap s))%nat →
     cn_session (con s' c) = cn_session (con s c) ∧
     (cn_closed (con s c) = true → cn_closed (con s' c) = true)) ∧
  (∀ c, (length (br_conn_heap s) ≤ c)%nat → cn_session (con s' c) = None).

Section Micro.
Context {U : UnicodeData} {HQ : HeapQ Z Z.le}.
Context (sha256_hex : bytes → pystr) (cfg : ServerConfig).
Notation limits := (cf_limits cfg).

(** The sequence number in a request ID. *)
Definition request_sequence (request_id : pystr) : option Z :=
  match after_last colon request_id with
  | Some t => match int_of_str t with Ok n => Some n | Err _ => None end
  | None => None
  end.

(** The state after [_remove_request_locked]. *)
Definition removed (s : Broker) (i r : nat) : Broker :=
  let rec := req s r in
  let released := rq_reservation_released rec in
  let bytes := if released then 0 else rq_reserved_result_bytes rec in
  let n := if released then 0 else 1 in
  {| s with
    br_request_heap := alter (λ x, {| x with
      rq_reservation_released := true; rq_payload := []; rq_terminal_payload := [] |}) r
      (br_request_heap s);
    br_session_heap := alter (λ x, {| x with
      ss_reserved_outcomes := ss_reserved_outcomes x - n;
      ss_reserved_outcome_bytes := ss_reserved_outcome_bytes x - bytes;
      ss_requests := dict_del (ss_requests x) (rq_request_id rec) |}) i (br_session_heap s);
    br_reserved_outcomes := br_reserved_outcomes s - n;
    br_reserved_outcome_bytes := br_reserved_outcome_bytes s - bytes;
    br_requests := dict_del (br_requests s) (rq_request_id rec) |}.

(** The state after the session left the tables. *)
Definition dropped (s : Broker) (i : nat) : Broker :=
  let session := ses s i in
  {| s with
    br_sessions := dict_del (br_sessions s) (ss_session_id session);
    br_client_sessions :=
      if bool_decide (dict_get (br_client_sessions s) (ss_client_id session) = Some i)
      then dict_del (br_client_sessions s) (ss_client_id session)
      else br_client_sessions s |}.

(** The state after a session was opened on connection [c]. *)
Definition opened (s : Broker) (c : nat) (session : Session) : Broker :=
  let i := length (br_session_heap s) in
  {| s with
    br_session_heap := br_session_heap s ++ [session];
    br_sessions := dict_set (br_sessions s) (ss_session_id session) i;
    br_client_sessions := dict_set (br_client_sessions s) (ss_client_id session) i;
    br_conn_heap := alter (λ cn, {| cn with cn_session := Some i |}) c (br_conn_heap s) |}.

(** The state after an accepted submission was registered. *)
Definition registered (s : Broker) (i : nat) (rec : Request) : Broker :=
  let r := length (br_request_heap s) in
  {| s with
    br_request_heap := br_request_heap s ++ [rec];
    br_session_heap := alter (λ x, {| x with
      ss_requests := dict_set (ss_requests x) (rq_request_id rec) r;
      ss_reserved_outcomes := ss_reserved_outcomes x + 1;
      ss_reserved_outcome_bytes :=
        ss_reserved_outcome_bytes x + rq_reserved_result_bytes rec |}) i (br_session_heap s);
    br_requests := dict_set (br_requests s) (rq_request_id rec) r;
    br_reserved_outcomes := br_reserved_outcomes s + 1;
    br_reserved_outcome_bytes := br_reserved_outcome_bytes s + rq_reserved_result_bytes rec;
    br_scheduler := Scheduler.put (br_scheduler s) r (rq_priority rec) (rq_principal rec);
    br_statistics := {| (br_statistics s) with
      tasks_accepted := tasks_accepted (br_statistics s) + 1 |} |}.

(** The state after [_terminal_locked] changed the record, before it sends. *)
Definition terminated (s : Broker) (r : nat) (st : RequestState.t) (kind : MessageType)
    (control : pydict) (payload : bytes) : Broker :=
  {| s with
    br_request_heap := alter (λ x, {| x with
      rq_state := st; rq_payload := []; rq_terminal_kind := Some kind;
      rq_terminal_control := control; rq_terminal_payload := payload |}) r
      (br_request_heap s);
    br_statistics := {| (br_statistics s) with
      tasks_terminal := tasks_terminal (br_statistics s) + 1 |} |}.

(** The state after the dispatcher took [r] from the queue with a new future. *)
Definition popped (s : Broker) (r : nat) (sch : FairScheduler) : Broker :=
  let f := length (br_future_heap s) in
  {| s with
    br_scheduler := sch;
    br_future_heap := br_future_heap s ++ [mkFuture r FutureState.PENDING None None None false];
    br_request_heap := alter (λ x, {| x with rq_local_future := Some f |}) r (br_request_heap s);
    br_staged := br_staged s + 1;
    br_dispatcher := DSubmitting r f |}.

(** The state after the pool refused the job of [r] for want of room. *)
Definition restored (s : Broker) (r : nat) : Broker :=
  {| s with
    br_request_heap := alter (λ x, {| x with rq_local_future := None |}) r (br_request_heap s);
    br_staged := br_staged s - 1;
    br_scheduler :=
      if bool_decide (rq_state (req s r) = RequestState.ACCEPTED_QUEUED)
      then Scheduler.put_front (br_scheduler s) r (rq_priority (req s r))
             (rq_principal (req s r))
      else br_scheduler s;
    br_dispatcher := DIdle |}.

(** The state after the pool took the job of [r]. *)
Definition submitted (s : Broker) (r f : nat) : Broker :=
  {| s with
    br_jobs := br_jobs s ++ [job_of (req s r) r f];
    br_request_heap := alter (λ x, {| x with rq_payload := [] |}) r (br_request_heap s);
    br_dispatcher := DAttaching r f |}.

(** A record as [_submit] makes it, in a session that may have one more. *)
Record may_register (s : Broker) (i : nat) (rec : Request) : Prop := {
  mr_session : (i < length (br_session_heap s))%nat;
  mr_session_id : rq_session_id rec = ss_session_id (ses s i);
  mr_principal : rq_principal rec = ss_principal (ses s i);
  mr_state : rq_state rec = RequestState.ACCEPTED_QUEUED;
  mr_future : rq_local_future rec = None;
  mr_released : rq_reservation_released rec = false;
  mr_bytes : rq_reserved_result_bytes rec = ss_max_result_bytes (ses s i);
  mr_digest : sha256_hex (rq_payload rec) = rq_digest rec;
  mr_new : ∀ r, (r < length (br_request_heap s))%nat →
             rq_session_id (req s r) = rq_session_id rec →
             rq_request_id (req s r) ≠ rq_request_id rec;
  mr_sequence : request_sequence (rq_request_id rec) = Some (ss_watermark (ses s i));
  mr_room : queue_full cfg s (ses s i) = false;
  mr_priority : 0 ≤ rq_priority rec }.

Inductive micro (s : Broker) : Broker → Prop :=
  | mu_frame s' : core s' = core s → conns_le s s' → micro s s'
  | mu_open c session :
      (c < length (br_conn_heap s))%nat →
      ss_session_id session ∉ ss_session_id <$> br_session_heap s →
      dict_get (br_client_sessions s) (ss_client_id session) = None →
      ss_watermark session = 0 → ss_reserved_outcomes session = 0 →
      ss_reserved_outcome_bytes session = 0 → ss_requests session = [] →
      0 < ss_max_result_bytes session →
      micro s (opened s c session)
  | mu_watermark i n :
      ss_watermark (ses s i) < n →
      micro s {| s with br_session_heap :=
        alter (λ x, {| x with ss_watermark := n |}) i (br_session_heap s) |}
  | mu_register i rec : may_register s i rec → micro s (registered s i rec)
  | mu_remove i r :
      (r < length (br_request_heap s))%nat →
      dict_get (br_sessions s) (rq_session_id (req s r)) = Some i →
      RequestState.terminal (rq_state (req s r)) = true →
      micro s (removed s i r)
  | mu_drop i : ss_requests (ses s i) = [] → micro s (dropped s i)
  | mu_terminal r st kind control payload :
      (r < length (br_request_heap s))%nat →
      RequestState.terminal (rq_state (req s r)) = false →
      RequestState.terminal st = true →
      r ∉ items (br_scheduler s) →
      micro s (terminated s r st kind control payload)
  | mu_withdraw r st kind control payload b sch :
      (r < length (br_request_heap s))%nat →
      rq_state (req s r) = RequestState.ACCEPTED_QUEUED →
      RequestState.terminal st = true →
      Scheduler.remove (br_scheduler s) r = Ok (b, sch) →
      micro s (terminated {| s with br_scheduler := sch |} r st kind control payload)
  | mu_claim r :
      rq_state (req s r) = RequestState.ACCEPTED_QUEUED →
      r ∈ jb_record <$> br_jobs s →
      micro s {| s with br_request_heap :=
        alter (λ x, {| x with rq_state := RequestState.RUNNING |}) r (br_request_heap s) |}
  | mu_pop r sch :
      br_dispatcher s = DIdle →
      Scheduler.pop (br_scheduler s) = Ok (r, sch) →
      rq_state (req s r) = RequestState.ACCEPTED_QUEUED →
      micro s (popped s r sch)
  | mu_full r f : br_dispatcher s = DSubmitting r f → micro s (restored s r)
  | mu_job r f : br_dispatcher s = DSubmitting r f → micro s (submitted s r f)
  | mu_idle d : d = DIdle ∨ d = DExited → micro s {| s with br_dispatcher := d |}
  | mu_future f g :
      (∀ x, lf_record (g x) = lf_record x ∧
            (lf_callback (g x) = lf_callback x ∨ lf_callback (g x) = None)) →
      micro s {| s with br_future_heap := alter g f (br_future_heap s) |}
  | mu_attach r f g :
      br_dispatcher s = DAttaching r f →
      (∀ x, lf_record (g x) = lf_record x ∧ lf_callback (g x) = Some r) →
      micro s {| s with br_future_heap := alter g f (br_future_heap s);
                        br_dispatcher := DIdle |}.

End Micro.

(** Rewrites with the equality of the cores of two states. *)
Ltac core_eq :=
  match goal with
  | H : core ?s' = core ?s |- _ =>
      injection H as ? ? ? ? ? ? ? ? ? ? ? ? ?;
      repeat match goal with
             | E : ?f s' = _ |- _ => rewrite E in *; clear E
             | E : ?f (?g s') = _ |- _ => rewrite E in *; clear E
             end
  end.

(** ** Heaps that agree on some fields *)
Definition heap_sim {A B} `{Inhabited A} (p : A → B) (h h' : list A) : Prop :=
  length h' = length h ∧ ∀ i, p (h' !!! i) = p (h !!! i).

(** An update keeps the fields it does not write. *)
Lemma alter_keeps {A B} `{Inhabited A} (p : A → B) (g : A → A) (i : nat) (h : list A) (j : nat) :
  (∀ x, p (g x) = p x) → p (alter g i h !!! j) = p (h !!! j).
Proof.
  intros Hg. rewrite list_lookup_total_alter.
  case_decide as Hd; [destruct Hd as [<- _]; apply Hg|done].
Qed.

Lemma heap_sim_alter {A B} `{Inhabited A} (p : A → B) g i h :
  (∀ x, p (g x) = p x) → heap_sim p h (alter g i h).
Proof.
  intros Hg. split; [apply length_alter|]. intros j. by apply alter_keeps.
Qed.

Lemma heap_sim_refl {A B} `{Inhabited A} (p : A → B) h : heap_sim p h h.
Proof. done. Qed.

Lemma heap_sim_zsum {A B} `{Inhabited A} (p : A → B) (g : B → Z) h h' :
  heap_sim p h h' → zsum (g ∘ p) h' = zsum (g ∘ p) h.
Proof.
  intros [Hl Hp]. unfold zsum. f_equal. apply list_eq_same_length with (length h).
  - by rewrite length_fmap.
  - by rewrite length_fmap.
  - intros i x y Hi Hx Hy. rewrite list_lookup_fmap in Hx, Hy. specialize (Hp i).
    rewrite !list_lookup_total_alt in Hp.
    destruct (h' !! i), (h !! i); simplify_eq/=. by rewrite Hp.
Qed.

(** ** Tables and ownership *)

Definition tab_view (x : Request) := (rq_request_id x, rq_session_id x, rq_reservation_released x).
Definition ses_view (x : Session) := (ss_session_id x, ss_client_id x, ss_requests x).

(** The three dictionaries name live objects by their keys, session IDs are unique,
    and a session's dictionary holds exactly its unreleased records. *)
Record Tables (rs : list Request) (ss : list Session)
    (sessions clients requests : list (pystr * nat)) : Prop := {
  tb_requests_wf : dict_wf requests;
  tb_requests : ∀ k r, dict_get requests k = Some r →
    (r < length rs)%nat ∧ rq_request_id (rs !!! r) = k;
  tb_sessions_wf : dict_wf sessions;
  tb_sessions : ∀ k i, dict_get sessions k = Some i →
    (i < length ss)%nat ∧ ss_session_id (ss !!! i) = k;
  tb_clients_wf : dict_wf clients;
  tb_clients : ∀ k i, dict_get clients k = Some i →
    (i < length ss)%nat ∧ ss_client_id (ss !!! i) = k;
  tb_session_ids : ∀ i j, (i < length ss)%nat → (j < length ss)%nat →
    ss_session_id (ss !!! i) = ss_session_id (ss !!! j) → i = j;
  tb_owned_wf : ∀ i, (i < length ss)%nat → dict_wf (ss_requests (ss !!! i));
  tb_owned : ∀ i k r, (i < length ss)%nat →
    dict_get (ss_requests (ss !!! i)) k = Some r ↔
    (r < length rs)%nat ∧ rq_request_id (rs !!! r) = k ∧
    rq_session_id (rs !!! r) = ss_session_id (ss !!! i) ∧
    rq_reservation_released (rs !!! r) = false;
  tb_session_of : ∀ r, (r < length rs)%nat → ∃ i, (i < length ss)%nat ∧
    ss_session_id (ss !!! i) = rq_session_id (rs !!! r);
  tb_unique : ∀ r r', (r < length rs)%nat → (r' < length rs)%nat →
    rq_session_id (rs !!! r) = rq_session_id (rs !!! r') →
    rq_request_id (rs !!! r) = rq_request_id (rs !!! r') → r = r' }.

Definition tables (s : Broker) : Prop :=
  Tables (br_request_heap s) (br_session_heap s) (br_sessions s) (br_client_sessions s)
    (br_requests s).

Lemma Tables_sim rs rs' ss ss' sessions clients requests :
  heap_sim tab_view rs rs' → heap_sim ses_view ss ss' →
  Tables rs ss sessions clients requests → Tables rs' ss' sessions clients requests.
Proof.
  intros [Hl Hv] [Hsl Hsv] [].
  assert (Hr1 : ∀ r, rq_request_id (rs' !!! r) = rq_request_id (rs !!! r))
    by (intros r; specialize (Hv r); by injection Hv).
  assert (Hr2 : ∀ r, rq_session_id (rs' !!! r) = rq_session_id (rs !!! r))
    by (intros r; specialize (Hv r); by injection Hv).
  assert (Hr3 : ∀ r, rq_reservation_released (rs' !!! r) = rq_reservation_released (rs !!! r))
    by (intros r; specialize (Hv r); by injection Hv).
  assert (Hi1 : ∀ i, ss_session_id (ss' !!! i) = ss_session_id (ss !!! i))
    by (intros i; specialize (Hsv i); by injection Hsv).
  assert (Hi2 : ∀ i, ss_client_id (ss' !!! i) = ss_client_id (ss !!! i))
    by (intros i; specialize (Hsv i); by injection Hsv).
  assert (Hi3 : ∀ i, ss_requests (ss' !!! i) = ss_requests (ss !!! i))
    by (intros i; specialize (Hsv i); by injection Hsv).
  split; try done; setoid_rewrite Hl || setoid_rewrite Hsl;
    repeat first [setoid_rewrite Hl | setoid_rewrite Hsl | setoid_rewrite Hr1
      | setoid_rewrite Hr2 | setoid_rewrite Hr3 | setoid_rewrite Hi1
      | setoid_rewrite Hi2 | setoid_rewrite Hi3]; done.
Qed.

(** Case analysis on which element of a heap an update touched. *)
Ltac heap_cases :=
  repeat match goal with
  | |- context [alter ?g ?i ?l !!! ?j] => rewrite (list_lookup_total_alter g l i j)
  | H : context [alter ?g ?i ?l !!! ?j] |- _ => rewrite (list_lookup_total_alter g l i j) in H
  | |- context [(?l ++ [?x]) !!! ?j] =>
      first [rewrite (lookup_total_snoc l x j) by (rewrite ?length_alter in *; lia)
            |rewrite (lookup_total_last l x)]
  end.

Lemma snoc_cases n j : (j < n + 1)%nat → (j < n)%nat ∨ j = n.
Proof. lia. Qed.

Section Preservation.
Context {U : UnicodeData} {HQ : HeapQ Z Z.le}.
Context (sha256_hex : bytes → pystr) (cfg : ServerConfig).

Notation limits := (cf_limits cfg).

Lemma tables_opened s c x :
  tables s → ss_session_id x ∉ ss_session_id <$> br_session_heap s →
  dict_get (br_client_sessions s) (ss_client_id x) = None → ss_requests x = [] →
  tables (opened s c x).
Proof.
  intros [] Hfresh Hclient Hempty.
  assert (Hne : ∀ i, (i < length (br_session_heap s))%nat →
    ss_session_id (br_session_heap s !!! i) ≠ ss_session_id x).
  { intros i Hi He. apply Hfresh. rewrite <- He. apply list_elem_of_fmap.
    exists (br_session_heap s !!! i). split; [done|].
    by apply list_elem_of_lookup_total_2. }
  unfold tables, opened. split; simpl; rewrite ?length_app; simpl; try done.
  - by apply dict_set_wf.
  - intros k i. rewrite dict_get_set. case_decide as Hk.
    + intros [= <-]. rewrite lookup_total_last. split; [lia|done].
    + intros H%tb_sessions0. rewrite lookup_total_snoc by tauto. split; [lia|tauto].
  - by apply dict_set_wf.
  - intros k i. rewrite dict_get_set. case_decide as Hk.
    + intros [= <-]. rewrite lookup_total_last. split; [lia|done].
    + intros H%tb_clients0. rewrite lookup_total_snoc by tauto. split; [lia|tauto].
  - intros i j [Hi| ->]%snoc_cases [Hj| ->]%snoc_cases; heap_cases; try done.
    + apply tb_session_ids0; lia.
    + intros He. by destruct (Hne i Hi).
    + intros He. by destruct (Hne j Hj).
  - intros i [Hi| ->]%snoc_cases; heap_cases; [by apply tb_owned_wf0|].
    rewrite Hempty. apply dict_wf_nil.
  - intros i k r [Hi| ->]%snoc_cases; heap_cases; [by apply tb_owned0|].
    rewrite Hempty. split; [done|]. intros (Hr & _ & He & _).
    destruct (tb_session_of0 r Hr) as (i & Hi & Hs). destruct (Hne i Hi). congruence.
  - intros r Hr. destruct (tb_session_of0 r Hr) as (i & Hi & Hs). exists i.
    rewrite lookup_total_snoc by done. split; [lia|done].
Qed.

Lemma tables_dropped s i : tables s → tables (dropped s i).
Proof.
  intros []. unfold tables, dropped. split; simpl; try done.
  - by apply dict_del_wf.
  - intros k j. rewrite dict_get_del by done. case_decide; [done|apply tb_sessions0].
  - case_bool_decide; [by apply dict_del_wf|done].
  - intros k j. case_bool_decide; [|apply tb_clients0].
    rewrite dict_get_del by done. case_decide; [done|apply tb_clients0].
Qed.

(** The unreleased records of a session, when one more is appended. *)
Lemma owned_snoc rs rec sid k r :
  (r < length rs + 1)%nat ∧ rq_request_id ((rs ++ [rec]) !!! r) = k ∧
    rq_session_id ((rs ++ [rec]) !!! r) = sid ∧
    rq_reservation_released ((rs ++ [rec]) !!! r) = false ↔
  ((r < length rs)%nat ∧ rq_request_id (rs !!! r) = k ∧ rq_session_id (rs !!! r) = sid ∧
    rq_reservation_released (rs !!! r) = false) ∨
  (r = length rs ∧ rq_request_id rec = k ∧ rq_session_id rec = sid ∧
    rq_reservation_released rec = false).
Proof.
  split.
  - intros ([Hr| ->]%snoc_cases & H); [left|right].
    + by rewrite !lookup_total_snoc in H by done.
    + by rewrite !lookup_total_last in H.
  - intros [[Hr H]|[-> H]]; [rewrite !lookup_total_snoc by done|rewrite !lookup_total_last].
    all: split; [lia|done].
Qed.

Lemma tables_registered s i rec :
  tables s → may_register sha256_hex cfg s i rec → tables (registered s i rec).
Proof.
  intros [] []. set (n := length (br_request_heap s)) in *.
  unfold req, ses in *.
  unfold tables, registered. fold n. split; simpl; rewrite ?length_app, ?length_alter; simpl;
    fold n; try done.
  - by apply dict_set_wf.
  - intros k r. rewrite dict_get_set. case_decide as Hk.
    + intros [= <-]. unfold n. rewrite lookup_total_last. split; [lia|done].
    + intros [Hr H]%tb_requests0. rewrite lookup_total_snoc by done. split; [unfold n; lia|done].
  - intros k j. rewrite (alter_keeps ss_session_id) by done. apply tb_sessions0.
  - intros k j. rewrite (alter_keeps ss_client_id) by done. apply tb_clients0.
  - intros j j' Hj Hj'. rewrite !(alter_keeps ss_session_id) by done. by apply tb_session_ids0.
  - intros j Hj. rewrite list_lookup_total_alter. case_decide; [|by apply tb_owned_wf0].
    apply dict_set_wf. apply tb_owned_wf0. lia.
  - intros j k r Hj. rewrite (alter_keeps ss_session_id) by done. unfold n. rewrite owned_snoc.
    fold n. rewrite <- tb_owned0 by done. rewrite list_lookup_total_alter. case_decide as Hd.
    + destruct Hd as [<- _]. simpl. rewrite dict_get_set. case_decide as Hk; [|naive_solver].
      split; [naive_solver|]. intros [H|H]; [|naive_solver].
      apply tb_owned0 in H as (Hr & H1 & H2 & _); [|done]. destruct (mr_new0 r Hr); congruence.
    + split; [by left|]. intros [H|(_ & _ & H & _)]; [done|].
      destruct Hd. split; [|done]. apply tb_session_ids0; [done..|congruence].
  - intros r [Hr| ->]%snoc_cases.
    + destruct (tb_session_of0 r Hr) as (j & Hj & He). exists j.
      rewrite (alter_keeps ss_session_id) by done. by rewrite lookup_total_snoc by done.
    + exists i. rewrite (alter_keeps ss_session_id) by done. unfold n. by rewrite lookup_total_last.
  - intros r r' [Hr| ->]%snoc_cases [Hr'| ->]%snoc_cases; unfold n; heap_cases; try done.
    + by apply tb_unique0.
    + intros H1 H2. by destruct (mr_new0 r Hr).
    + intros H1 H2. by destruct (mr_new0 r' Hr').
Qed.

Lemma tables_removed s i r :
  tables s → (r < length (br_request_heap s))%nat →
  dict_get (br_sessions s) (rq_session_id (req s r)) = Some i →
  tables (removed s i r).
Proof.
  intros [] Hr Hi. unfold req in *. destruct (tb_sessions0 _ _ Hi) as [Hil His].
  set (g := λ x : Request, {| x with rq_reservation_released := true; rq_payload := [];
                                     rq_terminal_payload := [] |}).
  assert (Hid : ∀ r', rq_request_id (alter g r (br_request_heap s) !!! r')
    = rq_request_id (br_request_heap s !!! r'))
    by (intros r'; by apply (alter_keeps rq_request_id)).
  assert (Hsid : ∀ r', rq_session_id (alter g r (br_request_heap s) !!! r')
    = rq_session_id (br_request_heap s !!! r')) by (intros r'; by apply (alter_keeps rq_session_id)).
  assert (Hrel : ∀ r', rq_reservation_released (alter g r (br_request_heap s) !!! r') = false ↔
    r' ≠ r ∧ rq_reservation_released (br_request_heap s !!! r') = false).
  { intros r'. rewrite list_lookup_total_alter. case_decide as Hd.
    - destruct Hd as [<- _]. naive_solver.
    - split; [|naive_solver]. intros H. split; [|done]. intros ->. by destruct Hd. }
  unfold tables, removed. unfold req. cbn [br_request_heap br_session_heap br_sessions
    br_client_sessions br_requests]. fold g.
  set (g' := λ x : Session, {| x with ss_reserved_outcomes := _; ss_reserved_outcome_bytes := _;
    ss_requests := dict_del (ss_requests x) (rq_request_id (br_request_heap s !!! r)) |}).
  split; rewrite ?length_alter; try done.
  - by apply dict_del_wf.
  - intros k r'. rewrite dict_get_del by done. case_decide; [done|].
    intros Hk%tb_requests0. by rewrite Hid.
  - intros k j. rewrite (alter_keeps ss_session_id) by done. apply tb_sessions0.
  - intros k j. rewrite (alter_keeps ss_client_id) by done. apply tb_clients0.
  - intros j j' Hj Hj'. rewrite !(alter_keeps ss_session_id) by done. by apply tb_session_ids0.
  - intros j Hj. rewrite list_lookup_total_alter. case_decide; [|by apply tb_owned_wf0].
    apply dict_del_wf. apply tb_owned_wf0. lia.
  - intros j k r' Hj. rewrite (alter_keeps ss_session_id), Hid, Hsid, Hrel by done.
    rewrite list_lookup_total_alter. case_decide as Hd.
    + destruct Hd as [<- _]. simpl. rewrite dict_get_del by (by apply tb_owned_wf0).
      case_decide as Hk.
      * split; [done|]. intros (Hr' & H1 & H2 & Hne & _). destruct Hne.
        apply tb_unique0; congruence.
      * rewrite tb_owned0 by done. naive_solver.
    + rewrite tb_owned0 by done. split; [|naive_solver]. intros (? & H1 & H2 & ?).
      split_and!; try done. intros ->. destruct Hd. split; [|done].
      apply tb_session_ids0; congruence.
  - intros r' Hr'. destruct (tb_session_of0 r' Hr') as (j & Hj & He). exists j.
    by rewrite (alter_keeps ss_session_id), Hsid by done.
  - intros r1 r2 H1 H2. rewrite !Hid, !Hsid. by apply tb_unique0.
Qed.

Lemma tables_sim s s' :
  heap_sim tab_view (br_request_heap s) (br_request_heap s') →
  heap_sim ses_view (br_session_heap s) (br_session_heap s') →
  br_sessions s' = br_sessions s → br_client_sessions s' = br_client_sessions s →
  br_requests s' = br_requests s → tables s → tables s'.
Proof.
  intros Hr Hs H1 H2 H3. unfold tables. rewrite H1, H2, H3. by apply Tables_sim.
Qed.

Lemma tables_micro s s' : tables s → micro sha256_hex cfg s s' → tables s'.
Proof.
  intros Ht Hm.
  destruct Hm; [|by apply tables_opened| |by apply tables_registered
    |by apply tables_removed|by apply tables_dropped|..].
  1: { unfold tables. core_eq. done. }
  all: apply (tables_sim s); try done; simpl;
    repeat first [apply heap_sim_alter; intros []; done | apply heap_sim_refl].
Qed.

(** ** The queue *)

(** The scheduler holds exactly the queued records without a local future, once each. *)
Record Queue (rs : list Request) (sch : FairScheduler (T := nat) (P := pystr)) : Prop := {
  qu_wf : wf sch;
  qu_NoDup : NoDup (items sch);
  qu_items : ∀ r, r ∈ items sch ↔ (r < length rs)%nat ∧
    rq_state (rs !!! r) = RequestState.ACCEPTED_QUEUED ∧ rq_local_future (rs !!! r) = None }.

Definition queue_view (x : Request) := (rq_state x, rq_local_future x).

Lemma Queue_sim rs rs' sch : heap_sim queue_view rs rs' → Queue rs sch → Queue rs' sch.
Proof.
  intros [Hl Hv] [H1 H2 H3]. split; [done|done|]. intros r. rewrite H3, Hl.
  specialize (Hv r). by injection Hv as -> ->.
Qed.

(** A record outside the queue may change as long as it stays outside. *)
Lemma Queue_outside rs sch r g :
  r ∉ items sch →
  (rq_state (g (rs !!! r)) = RequestState.ACCEPTED_QUEUED →
   rq_local_future (g (rs !!! r)) ≠ None) →
  Queue rs sch → Queue (alter g r rs) sch.
Proof.
  intros Hr Hg [H1 H2 H3]. split; [done|done|]. intros r'.
  rewrite H3, length_alter, list_lookup_total_alter. case_decide as Hd; [|done].
  destruct Hd as [<- Hl]. split; [|naive_solver].
  intros H. destruct Hr. by apply H3.
Qed.

(** A record leaves the queue. *)
Lemma Queue_leave rs sch sch' r g :
  wf sch' → items sch ≡ₚ r :: items sch' →
  (rq_state (g (rs !!! r)) = RequestState.ACCEPTED_QUEUED →
   rq_local_future (g (rs !!! r)) ≠ None) →
  Queue rs sch → Queue (alter g r rs) sch'.
Proof.
  intros Hwf Hp Hg [H1 H2 H3].
  assert (Hin : ∀ r', r' ∈ items sch' ↔ r' ∈ items sch ∧ r' ≠ r).
  { intros r'. rewrite Hp in H2. apply NoDup_cons in H2 as [Hr _].
    rewrite Hp, elem_of_cons. naive_solver. }
  split; [done|by rewrite Hp in H2; apply NoDup_cons in H2 as [_ ?]|].
  intros r'. rewrite Hin, H3, length_alter, list_lookup_total_alter.
  case_decide as Hd; [destruct Hd as [<- Hl]; naive_solver|].
  split; [naive_solver|]. intros H. split; [done|]. intros ->. destruct Hd. naive_solver.
Qed.

(** A known record joins the queue. *)
Lemma Queue_join rs sch sch' r g :
  wf sch' → items sch' ≡ₚ r :: items sch → r ∉ items sch → (r < length rs)%nat →
  rq_state (g (rs !!! r)) = RequestState.ACCEPTED_QUEUED →
  rq_local_future (g (rs !!! r)) = None →
  Queue rs sch → Queue (alter g r rs) sch'.
Proof.
  intros Hwf Hp Hr Hl Hs Hf [H1 H2 H3]. split; [done|by rewrite Hp; apply NoDup_cons|].
  intros r'. rewrite Hp, elem_of_cons, H3, length_alter, list_lookup_total_alter.
  case_decide as Hd; [destruct Hd as [<- _]; naive_solver|].
  split; [|naive_solver]. intros [->|H]; [by destruct Hd|done].
Qed.

(** A new record joins the queue. *)
Lemma Queue_new rs sch sch' rec :
  wf sch' → items sch' ≡ₚ length rs :: items sch →
  rq_state rec = RequestState.ACCEPTED_QUEUED → rq_local_future rec = None →
  Queue rs sch → Queue (rs ++ [rec]) sch'.
Proof.
  intros Hwf Hp Hs Hf [H1 H2 H3]. split; [done| |].
  - rewrite Hp. apply NoDup_cons. split; [|done]. intros H%H3. lia.
  - intros r. rewrite Hp, elem_of_cons, H3, length_app. simpl. split.
    + intros [->|(Hr & ? & ?)]; [by rewrite lookup_total_last; split_and!; [lia|..]|].
      rewrite lookup_total_snoc by done. split_and!; [lia|done..].
    + intros ([Hr| ->]%snoc_cases & H); [right|by left].
      by rewrite lookup_total_snoc in H by done.
Qed.

(** ** Jobs and local futures *)

(** A future belongs to the record that points to it; a record whose job the pool
    has keeps its future, and only such a record runs; a job is submitted once. *)
Record Jobs (rs : list Request) (fs : list LocalFuture) (jobs : list Job)
    (d : dispatcher_pc) : Prop := {
  jo_local : ∀ r f, (r < length rs)%nat → rq_local_future (rs !!! r) = Some f →
    (f < length fs)%nat ∧ lf_record (fs !!! f) = r;
  jo_callback : ∀ f r, (f < length fs)%nat → lf_callback (fs !!! f) = Some r →
    (r < length rs)%nat ∧ rq_local_future (rs !!! r) = Some f;
  jo_dispatcher : ∀ r f, d = DSubmitting r f ∨ d = DAttaching r f →
    (r < length rs)%nat ∧ rq_local_future (rs !!! r) = Some f;
  jo_submitting : ∀ r f, d = DSubmitting r f →
    lf_callback (fs !!! f) = None ∧ f ∉ jb_future <$> jobs;
  jo_jobs : ∀ j, j ∈ jobs → (jb_record j < length rs)%nat ∧
    rq_local_future (rs !!! jb_record j) = Some (jb_future j);
  jo_NoDup : NoDup (jb_future <$> jobs);
  jo_running : ∀ r, (r < length rs)%nat → rq_state (rs !!! r) = RequestState.RUNNING →
    r ∈ jb_record <$> jobs }.

Definition future_view (x : LocalFuture) := (lf_record x, lf_callback x).

Lemma Jobs_requests rs rs' fs jobs d :
  heap_sim rq_local_future rs rs' →
  (∀ r, (r < length rs)%nat → rq_state (rs' !!! r) = RequestState.RUNNING →
        rq_state (rs !!! r) = RequestState.RUNNING ∨ r ∈ jb_record <$> jobs) →
  Jobs rs fs jobs d → Jobs rs' fs jobs d.
Proof.
  intros [Hl Hv] Hrun [].
  split; try setoid_rewrite Hl; try setoid_rewrite Hv; try done.
  intros r Hr Hs. destruct (Hrun r Hr Hs); auto.
Qed.

Lemma Jobs_futures rs fs g f jobs d d' :
  (∀ x, lf_record (g x) = lf_record x ∧
        (lf_callback (g x) = lf_callback x ∨ lf_callback (g x) = None ∨
         ∃ r, d = DAttaching r f ∧ lf_callback (g x) = Some r)) →
  d' = d ∨ d' = DIdle →
  Jobs rs fs jobs d → Jobs rs (alter g f fs) jobs d'.
Proof.
  intros Hg Hd [].
  assert (Hcb : ∀ f' r, lf_callback (alter g f fs !!! f') = Some r →
    lf_callback (fs !!! f') = Some r ∨ (f' = f ∧ d = DAttaching r f)).
  { intros f' r. rewrite list_lookup_total_alter. case_decide as Hf; [|auto].
    destruct Hf as [<- _]. destruct (Hg (fs !!! f)) as [_ [-> | [-> | (r' & ? & ->)]]]; naive_solver. }
  split; rewrite ?length_alter; try done.
  - intros r f' Hr Hf. rewrite list_lookup_total_alter. case_decide as Hdd; [|by apply jo_local0].
    destruct Hdd as [<- _]. destruct (Hg (fs !!! f)) as [-> _]. by apply jo_local0.
  - intros f' r Hf [H|[-> ->]]%Hcb; [by apply jo_callback0|]. apply jo_dispatcher0. auto.
  - intros r f'. destruct Hd as [-> | ->]; [apply jo_dispatcher0|naive_solver].
  - intros r f'. destruct Hd as [-> | ->]; [|done]. intros H.
    destruct (jo_submitting0 r f' H) as [Hn ?]. split; [|done].
    destruct (lf_callback (alter g f fs !!! f')) eqn:E; [|done].
    apply Hcb in E as [?|[-> ?]]; congruence.
Qed.

Lemma Jobs_idle rs fs jobs d d' :
  d' = DIdle ∨ d' = DExited → Jobs rs fs jobs d → Jobs rs fs jobs d'.
Proof. intros Hd []. split; try done; intros; naive_solver. Qed.

Lemma Jobs_new rs fs jobs d rec :
  rq_state rec ≠ RequestState.RUNNING → rq_local_future rec = None →
  Jobs rs fs jobs d → Jobs (rs ++ [rec]) fs jobs d.
Proof.
  intros Hs Hf []. split; rewrite ?length_app; simpl; try done.
  - intros r f [Hr| ->]%snoc_cases; heap_cases; [by apply jo_local0|by rewrite Hf].
  - intros f r Hl H. destruct (jo_callback0 f r Hl H). heap_cases. split; [lia|done].
  - intros r f H. destruct (jo_dispatcher0 r f H). heap_cases. split; [lia|done].
  - intros j H. destruct (jo_jobs0 j H). heap_cases. split; [lia|done].
  - intros r [Hr| ->]%snoc_cases; heap_cases; [by apply jo_running0|done].
Qed.

Lemma Jobs_pop rs fs jobs r :
  (r < length rs)%nat → rq_local_future (rs !!! r) = None →
  Jobs rs fs jobs DIdle →
  Jobs (alter (λ x, {| x with rq_local_future := Some (length fs) |}) r rs)
    (fs ++ [mkFuture r FutureState.PENDING None None None false]) jobs
    (DSubmitting r (length fs)).
Proof.
  intros Hr Hn [].
  set (g := λ x : Request, {| x with rq_local_future := Some (length fs) |}).
  assert (Hloc : ∀ r', rq_local_future (alter g r rs !!! r')
    = if decide (r = r') then Some (length fs) else rq_local_future (rs !!! r')).
  { intros r'. rewrite list_lookup_total_alter. case_decide as Hd.
    - destruct Hd as [<- _]. by rewrite decide_True.
    - rewrite decide_False; [done|]. intros ->. by destruct Hd. }
  assert (Hst : ∀ r', rq_state (alter g r rs !!! r') = rq_state (rs !!! r'))
    by (intros r'; by apply (alter_keeps rq_state)).
  split; rewrite ?length_alter, ?length_app; simpl; setoid_rewrite Hloc || idtac; try done.
  - intros r' f Hr'. case_decide as Hd.
    + intros [= <-]. rewrite lookup_total_last. split; [lia|done].
    + intros H%jo_local0; [|done]. rewrite lookup_total_snoc by tauto. split; [lia|tauto].
  - intros f r' [Hf| ->]%snoc_cases; heap_cases; [|done].
    intros H%jo_callback0; [|done]. rewrite decide_False; [done|]. intros <-. naive_solver congruence.
  - intros r' f [[= <- <-]|[=]]. by rewrite decide_True.
  - intros r' f [= <- <-]. rewrite lookup_total_last. split; [done|].
    intros (j & Hj & H)%list_elem_of_fmap. destruct (jo_jobs0 j H) as [Hl Hf].
    destruct (jo_local0 _ _ Hl Hf). lia.
  - intros j H. destruct (jo_jobs0 j H) as [Hl Hf].
    rewrite decide_False; [done|]. intros ->. congruence.
  - setoid_rewrite Hst. done.
Qed.

Lemma Jobs_full rs fs jobs r f :
  Jobs rs fs jobs (DSubmitting r f) →
  Jobs (alter (λ x, {| x with rq_local_future := None |}) r rs) fs jobs DIdle.
Proof.
  intros [].
  set (g := λ x : Request, {| x with rq_local_future := None |}).
  destruct (jo_dispatcher0 r f (or_introl eq_refl)) as [Hr Hf].
  destruct (jo_submitting0 r f eq_refl) as [Hcb Hnj].
  assert (Hloc : ∀ r', rq_local_future (alter g r rs !!! r')
    = if decide (r = r') then None else rq_local_future (rs !!! r')).
  { intros r'. rewrite list_lookup_total_alter. case_decide as Hd.
    - destruct Hd as [<- _]. by rewrite decide_True.
    - rewrite decide_False; [done|]. intros ->. by destruct Hd. }
  assert (Hst : ∀ r', rq_state (alter g r rs !!! r') = rq_state (rs !!! r'))
    by (intros r'; by apply (alter_keeps rq_state)).
  split; rewrite ?length_alter; setoid_rewrite Hloc || idtac; try done.
  - intros r' f' Hr'. case_decide; [done|by apply jo_local0].
  - intros f' r' Hl H. destruct (jo_callback0 _ _ Hl H) as [? Hf'].
    rewrite decide_False; [done|]. intros <-. congruence.
  - naive_solver.
  - intros j H. destruct (jo_jobs0 j H) as [Hl Hf']. rewrite decide_False; [done|].
    intros ->. destruct Hnj. apply list_elem_of_fmap. exists j. split; [congruence|done].
  - setoid_rewrite Hst. done.
Qed.

Lemma Jobs_submit rs fs jobs j r f g :
  jb_record j = r → jb_future j = f →
  (∀ x, rq_local_future (g x) = rq_local_future x ∧ rq_state (g x) = rq_state x) →
  Jobs rs fs jobs (DSubmitting r f) →
  Jobs (alter g r rs) fs (jobs ++ [j]) (DAttaching r f).
Proof.
  intros Hjr Hjf Hg HJ.
  destruct (jo_dispatcher _ _ _ _ HJ r f (or_introl eq_refl)) as [Hr Hf].
  destruct (jo_submitting _ _ _ _ HJ r f eq_refl) as [Hcb Hnj].
  destruct HJ.
  assert (Hloc : ∀ r', rq_local_future (alter g r rs !!! r') = rq_local_future (rs !!! r'))
    by (intros r'; apply (alter_keeps rq_local_future), Hg).
  assert (Hst : ∀ r', rq_state (alter g r rs !!! r') = rq_state (rs !!! r'))
    by (intros r'; apply (alter_keeps rq_state), Hg).
  split; rewrite ?length_alter; setoid_rewrite Hloc || idtac; try done.
  - intros r' f' [[=]|[= <- <-]]. done.
  - intros j' [H| ->%list_elem_of_singleton]%elem_of_app; [by apply jo_jobs0|].
    rewrite Hjr, Hjf. done.
  - rewrite fmap_app. apply NoDup_app. split_and!; [done| |apply NoDup_singleton].
    intros f' H1 H2%list_elem_of_singleton. subst. done.
  - setoid_rewrite Hst. intros r' H1 H2. rewrite fmap_app. apply elem_of_app. left. auto.
Qed.

Lemma Queue_perm rs sch sch' :
  wf sch' → items sch ≡ₚ items sch' → Queue rs sch → Queue rs sch'.
Proof. intros Hwf Hp [H1 H2 H3]. split; [done|by rewrite <- Hp|]. intros r. by rewrite <- Hp. Qed.

Definition queue (s : Broker) : Prop := Queue (br_request_heap s) (br_scheduler s).
Definition jobs_ok (s : Broker) : Prop :=
  Jobs (br_request_heap s) (br_future_heap s) (br_jobs s) (br_dispatcher s).

(** A record with a local future is not in the queue. *)
Lemma submitting_outside s r f :
  queue s → jobs_ok s →
  br_dispatcher s = DSubmitting r f ∨ br_dispatcher s = DAttaching r f →
  (r < length (br_request_heap s))%nat ∧ rq_local_future (req s r) = Some f ∧
  r ∉ items (br_scheduler s).
Proof.
  intros HQ' HJ Hd. destruct (jo_dispatcher _ _ _ _ HJ r f Hd) as [Hl Hf].
  split_and!; [done|done|]. intros (_ & _ & Hn)%(qu_items _ _ HQ'). congruence.
Qed.

Lemma claimed_outside s r :
  queue s → jobs_ok s → r ∈ jb_record <$> br_jobs s →
  (r < length (br_request_heap s))%nat ∧ r ∉ items (br_scheduler s).
Proof.
  intros HQ' HJ (j & -> & Hj)%list_elem_of_fmap.
  destruct (jo_jobs _ _ _ _ HJ j Hj) as [Hl Hf]. split; [done|].
  intros (_ & _ & Hn)%(qu_items _ _ HQ'). congruence.
Qed.

Lemma queue_micro s s' : queue s → jobs_ok s → micro sha256_hex cfg s s' → queue s'.
Proof.
  intros HQ' HJ Hm. unfold queue in *. destruct Hm as
    [s' Hc _| | |i rec Hm|i r Hr Hi Ht| |r st kind control payload Hr Hs Hst Hn
    |r st kind control payload b sch Hr Hs Hst Hrem|r Hs Hj|r sch Hd Hp Hs|r f Hd|r f Hd|d Hd|f g Hg
    |r f g Hd Hg]; simpl; try done.
  - core_eq. done.
  - destruct (put_spec (br_scheduler s) (length (br_request_heap s)) (rq_priority rec)
      (rq_principal rec) false (qu_wf _ _ HQ')) as (Hwf & Hi & _).
    apply (Queue_new _ (br_scheduler s)); [done|done|apply Hm..|done].
  - apply (Queue_sim (br_request_heap s)); [by apply heap_sim_alter|done].
  - apply Queue_outside; [done|simpl; intros ->; done|done].
  - destruct (remove_Ok _ _ _ _ (qu_wf _ _ HQ') Hrem) as (Hwf & Hi & Hb). destruct b.
    + apply (Queue_leave _ (br_scheduler s)); [done|done|simpl; intros ->; done|done].
    + apply Queue_outside; [|simpl; intros ->; done|by apply (Queue_perm _ (br_scheduler s))].
      intros H. simpl in Hi. rewrite <- Hi in H. by rewrite bool_decide_true in Hb.
  - destruct (claimed_outside s r HQ' HJ Hj). by apply Queue_outside.
  - destruct (pop_Ok _ _ _ (qu_wf _ _ HQ') Hp) as (Hwf & Hi & _).
    by apply (Queue_leave _ (br_scheduler s)).
  - destruct (submitting_outside s r f HQ' HJ (or_introl Hd)) as (Hl & Hf & Hn).
    case_bool_decide as Hq; [|by apply Queue_outside].
    destruct (put_spec (br_scheduler s) r (rq_priority (req s r)) (rq_principal (req s r)) true
      (qu_wf _ _ HQ')) as (Hwf & Hi & _).
    by apply (Queue_join _ (br_scheduler s)).
  - apply (Queue_sim (br_request_heap s)); [by apply heap_sim_alter|done].
Qed.

Lemma alter_state_running g r (rs : list Request) (jobs : list Job) r' :
  (∀ x, rq_state (g x) = RequestState.RUNNING → rq_state x = RequestState.RUNNING) →
  rq_state (alter g r rs !!! r') = RequestState.RUNNING →
  rq_state (rs !!! r') = RequestState.RUNNING ∨ r' ∈ jb_record <$> jobs.
Proof.
  intros Hg. rewrite list_lookup_total_alter. case_decide as Hd; [|by left].
  destruct Hd as [<- _]. intros H. left. by apply Hg.
Qed.

Lemma jobs_micro s s' : queue s → jobs_ok s → micro sha256_hex cfg s s' → jobs_ok s'.
Proof.
  intros HQ' HJ Hm. unfold jobs_ok in *. destruct Hm as
    [s' Hc _| | |i rec Hm|i r Hr Hi Ht| |r st kind control payload Hr Hs Hst Hn
    |r st kind control payload b sch Hr Hs Hst Hrem|r Hs Hj|r sch Hd Hp Hs|r f Hd|r f Hd|d Hd|f g Hg
    |r f g Hd Hg]; simpl; try done.
  - core_eq. done.
  - apply Jobs_new; [by rewrite (mr_state _ _ _ _ _ Hm)|apply Hm|done].
  - apply (Jobs_requests (br_request_heap s)); [by apply heap_sim_alter| |done].
    intros r' _. by apply alter_state_running.
  - apply (Jobs_requests (br_request_heap s)); [by apply heap_sim_alter| |done].
    intros r' _. apply alter_state_running. simpl. by intros x ->.
  - apply (Jobs_requests (br_request_heap s)); [by apply heap_sim_alter| |done].
    intros r' _. apply alter_state_running. simpl. by intros x ->.
  - apply (Jobs_requests (br_request_heap s)); [by apply heap_sim_alter| |done].
    intros r' _. rewrite list_lookup_total_alter. case_decide as Hd; [|by left].
    destruct Hd as [<- _]. by right.
  - destruct (pop_Ok _ _ _ (qu_wf _ _ HQ') Hp) as (_ & Hi & _).
    assert (Hin : r ∈ items (br_scheduler s)) by (rewrite Hi; left).
    apply (qu_items _ _ HQ') in Hin as (Hl & _ & Hf).
    apply Jobs_pop; [done|done|]. by rewrite Hd in HJ.
  - rewrite Hd in HJ. by apply Jobs_full in HJ.
  - rewrite Hd in HJ. by apply (Jobs_submit _ _ _ _ r f).
  - by apply (Jobs_idle _ _ _ (br_dispatcher s)).
  - apply (Jobs_futures _ _ _ _ _ (br_dispatcher s)); [|by left|done].
    intros x. destruct (Hg x) as [? [?|?]]; auto.
  - apply (Jobs_futures _ _ _ _ _ (br_dispatcher s)); [|by right|done].
    intros x. destruct (Hg x) as [? ?]. eauto 6.
Qed.

(** ** Accounting *)

Definition unreleased (x : Request) : Z := if rq_reservation_released x then 0 else 1.
Definition reserved_bytes (x : Request) : Z :=
  if rq_reservation_released x then 0 else rq_reserved_result_bytes x.

(** The four counters are what the unreleased records add up to, per session and in
    all. *)
Record Accounts (rs : list Request) (ss : list Session) (n b : Z) : Prop := {
  ac_session : ∀ i, (i < length ss)%nat →
    ss_reserved_outcomes (ss !!! i) = Z.of_nat (length (ss_requests (ss !!! i))) ∧
    ss_reserved_outcome_bytes (ss !!! i)
    = zsum (λ kr, rq_reserved_result_bytes (rs !!! kr.2)) (ss_requests (ss !!! i));
  ac_outcomes : n = zsum unreleased rs;
  ac_bytes : b = zsum reserved_bytes rs }.

Definition accounts (s : Broker) : Prop :=
  Accounts (br_request_heap s) (br_session_heap s) (br_reserved_outcomes s)
    (br_reserved_outcome_bytes s).

Lemma Accounts_requests rs ss n b g r :
  (∀ x, rq_reservation_released (g x) = rq_reservation_released x ∧
        rq_reserved_result_bytes (g x) = rq_reserved_result_bytes x) →
  Accounts rs ss n b → Accounts (alter g r rs) ss n b.
Proof.
  intros Hg [H1 H2 H3]. split.
  - intros i Hi. destruct (H1 i Hi) as [-> ->]. split; [done|]. apply zsum_ext.
    intros kr _. rewrite list_lookup_total_alter. case_decide as Hd; [|done].
    destruct Hd as [<- _]. symmetry. apply Hg.
  - rewrite zsum_alter_same; [done|]. intros x. unfold unreleased. by destruct (Hg x) as [-> _].
  - rewrite zsum_alter_same; [done|]. intros x. unfold reserved_bytes. by destruct (Hg x) as [-> ->].
Qed.

Lemma accounts_opened s c x :
  accounts s → ss_reserved_outcomes x = 0 → ss_reserved_outcome_bytes x = 0 →
  ss_requests x = [] → accounts (opened s c x).
Proof.
  intros [H1 H2 H3] Ho Hb Hr. unfold accounts, opened. simpl. split; [|done|done].
  intros i. rewrite length_app. simpl. intros [Hi| ->]%snoc_cases; heap_cases; [by apply H1|].
  by rewrite Ho, Hb, Hr.
Qed.

Lemma accounts_registered s i rec :
  tables s → may_register sha256_hex cfg s i rec → accounts s → accounts (registered s i rec).
Proof.
  intros Ht Hm [H1 H2 H3]. pose proof (mr_session _ _ _ _ _ Hm) as Hi.
  assert (Hnone : dict_get (ss_requests (ses s i)) (rq_request_id rec) = None).
  { destruct (dict_get _ _) as [r|] eqn:E; [|done].
    apply (tb_owned _ _ _ _ _ Ht) in E as (Hr & Hid & Hsid & _); [|done].
    destruct (mr_new _ _ _ _ _ Hm r Hr); [|done]. unfold req.
    rewrite (mr_session_id _ _ _ _ _ Hm). done. }
  unfold accounts, registered. simpl. set (n := length (br_request_heap s)).
  assert (Hold : ∀ j, (j < length (br_session_heap s))%nat →
    zsum (λ kr, rq_reserved_result_bytes ((br_request_heap s ++ [rec]) !!! kr.2))
      (ss_requests (br_session_heap s !!! j))
    = zsum (λ kr, rq_reserved_result_bytes (br_request_heap s !!! kr.2))
      (ss_requests (br_session_heap s !!! j))).
  { intros j Hj. apply zsum_ext. intros [k r] Hin. simpl.
    apply (dict_get_elem _ _ _ (tb_owned_wf _ _ _ _ _ Ht j Hj)) in Hin.
    apply (tb_owned _ _ _ _ _ Ht) in Hin as (Hr & _); [|done].
    by rewrite lookup_total_snoc. }
  split.
  - intros j. rewrite length_alter. intros Hj. rewrite list_lookup_total_alter.
    case_decide as Hd.
    + destruct Hd as [<- _]. simpl. destruct (H1 i Hi) as [-> ->].
      rewrite dict_set_new by (by apply dict_get_None). rewrite zsum_app, length_app.
      rewrite Hold, zsum_single by done. simpl. unfold n. rewrite lookup_total_last. lia.
    + destruct (H1 j Hj) as [-> ->]. by rewrite Hold.
  - rewrite zsum_app, H2, zsum_single. unfold unreleased at 3.
    by rewrite (mr_released _ _ _ _ _ Hm).
  - rewrite zsum_app, H3, zsum_single. unfold reserved_bytes at 3.
    by rewrite (mr_released _ _ _ _ _ Hm).
Qed.

Lemma accounts_removed s i r :
  tables s → (r < length (br_request_heap s))%nat →
  dict_get (br_sessions s) (rq_session_id (req s r)) = Some i →
  accounts s → accounts (removed s i r).
Proof.
  intros Ht Hr Hi [H1 H2 H3]. destruct (tb_sessions _ _ _ _ _ Ht _ _ Hi) as [Hil His].
  unfold accounts, removed. simpl. unfold req, ses in *.
  set (rec := br_request_heap s !!! r) in *.
  set (g := λ x : Request, {| x with rq_reservation_released := true; rq_payload := [];
                                     rq_terminal_payload := [] |}).
  assert (Hg : ∀ kr : pystr * nat, rq_reserved_result_bytes (alter g r (br_request_heap s) !!! kr.2)
    = rq_reserved_result_bytes (br_request_heap s !!! kr.2)).
  { intros kr. by apply (alter_keeps rq_reserved_result_bytes). }
  pose proof (tb_owned _ _ _ _ _ Ht i (rq_request_id rec) r Hil) as Hown.
  split.
  - intros j. rewrite length_alter. intros Hj. rewrite list_lookup_total_alter.
    rewrite (zsum_ext _ _ _ (λ kr _, Hg kr)). case_decide as Hd; [|by apply H1].
    destruct Hd as [<- _]. simpl. destruct (H1 i Hj) as [-> ->].
    destruct (rq_reservation_released rec) eqn:Hrel.
    + rewrite dict_del_None; [split; lia|].
      destruct (dict_get (ss_requests (br_session_heap s !!! i)) (rq_request_id rec))
        as [r'|] eqn:E; [|done].
      apply (tb_owned _ _ _ _ _ Ht) in E as (Hr' & Hid & Hsid & Hrel'); [|done].
      replace r' with r in Hrel' by
        (apply (tb_unique _ _ _ _ _ Ht); fold rec; done || congruence).
      fold rec in Hrel'. congruence.
    + assert (Hget : dict_get (ss_requests (br_session_heap s !!! i)) (rq_request_id rec) = Some r)
        by (by apply Hown).
      pose proof (dict_get_Permutation _ _ _ (tb_owned_wf _ _ _ _ _ Ht i Hil) Hget) as Hp.
      rewrite (zsum_Permutation _ _ _ Hp), zsum_cons.
      rewrite (Permutation_length Hp). simpl. fold rec. lia.
  - rewrite zsum_alter by done. fold rec. rewrite H2.
    change (unreleased (g rec)) with 0.
    assert (unreleased rec = if rq_reservation_released rec then 0 else 1) as -> by done. lia.
  - rewrite zsum_alter by done. fold rec. rewrite H3.
    change (reserved_bytes (g rec)) with 0.
    assert (reserved_bytes rec = if rq_reservation_released rec then 0
                                 else rq_reserved_result_bytes rec) as -> by done. lia.
Qed.

Lemma accounts_micro s s' :
  tables s → accounts s → micro sha256_hex cfg s s' → accounts s'.
Proof.
  intros Ht Ha Hm. destruct Hm; [|by apply accounts_opened| |by apply accounts_registered
    |by apply accounts_removed|done|..]; try (by apply Accounts_requests).
  - unfold accounts. core_eq. done.
  - destruct Ha as [H1 H2 H3]. unfold accounts. simpl. split; [|done|done].
    intros j. rewrite length_alter. intros Hj. rewrite list_lookup_total_alter.
    case_decide as Hd; [|by apply H1]. destruct Hd as [<- _]. by apply H1.
  - done.
  - done.
  - done.
Qed.

(** ** Sequence numbers *)

(** Every record carries a sequence number at most the watermark of its session. *)
Definition sequences (s : Broker) : Prop := ∀ i r,
  (i < length (br_session_heap s))%nat → (r < length (br_request_heap s))%nat →
  rq_session_id (req s r) = ss_session_id (ses s i) →
  ∃ n, request_sequence (rq_request_id (req s r)) = Some n ∧ n ≤ ss_watermark (ses s i).

Lemma sequences_sim s s' :
  heap_sim (λ x, (rq_request_id x, rq_session_id x)) (br_request_heap s) (br_request_heap s') →
  length (br_session_heap s') = length (br_session_heap s) →
  (∀ i, ss_session_id (ses s' i) = ss_session_id (ses s i) ∧
        ss_watermark (ses s i) ≤ ss_watermark (ses s' i)) →
  sequences s → sequences s'.
Proof.
  intros [Hl Hv] Hsl Hs H i r. rewrite Hl, Hsl. unfold req in *. specialize (Hv r).
  injection Hv as -> ->. destruct (Hs i) as [-> Hw]. intros Hi Hr He.
  destruct (H i r Hi Hr He) as (n & ? & ?). exists n. split; [done|lia].
Qed.

Lemma alter_session s g i j :
  (∀ x, ss_session_id (g x) = ss_session_id x) →
  (j = i → ss_watermark (ses s i) ≤ ss_watermark (g (ses s i))) →
  ss_session_id (alter g i (br_session_heap s) !!! j) = ss_session_id (ses s j) ∧
  ss_watermark (ses s j) ≤ ss_watermark (alter g i (br_session_heap s) !!! j).
Proof.
  intros Hg Hw. unfold ses in *. rewrite list_lookup_total_alter.
  case_decide as Hd; [|split; [done|lia]]. destruct Hd as [<- _]. split; [apply Hg|by apply Hw].
Qed.

Lemma sequences_micro s s' :
  tables s → sequences s → micro sha256_hex cfg s s' → sequences s'.
Proof.
  intros Ht H Hm. destruct Hm as [s' Hc _|c x _ Hfresh _ _ _ _ _ _|i n Hn|i rec Hm| | | | | | | | | | | ];
    try (apply (sequences_sim s); simpl;
         [first [by apply heap_sim_alter|apply heap_sim_refl]|by rewrite ?length_alter
         |intros j; first [by split; [|apply Z.le_refl]|by apply alter_session]|done]).
  - unfold sequences, req, ses in *. core_eq. done.
  - intros i r. unfold req, ses, opened. simpl. rewrite length_app. simpl.
    intros [Hi| ->]%snoc_cases Hr; heap_cases; [by apply H|]. intros He.
    destruct (tb_session_of _ _ _ _ _ Ht r Hr) as (j & Hj & Hs). destruct Hfresh.
    apply list_elem_of_fmap. exists (br_session_heap s !!! j). split; [congruence|].
    by apply list_elem_of_lookup_total_2.
  - apply (sequences_sim s); [apply heap_sim_refl|simpl; by rewrite length_alter| |done].
    intros j. apply alter_session; [done|simpl; lia].
  - intros j r. unfold req, ses, registered. simpl. rewrite length_app, length_alter. simpl.
    intros Hj Hr. pose proof (mr_session _ _ _ _ _ Hm) as Hi.
    destruct (alter_session s (λ x, {| x with
      ss_requests := dict_set (ss_requests x) (rq_request_id rec) (length (br_request_heap s));
      ss_reserved_outcomes := ss_reserved_outcomes x + 1;
      ss_reserved_outcome_bytes :=
        ss_reserved_outcome_bytes x + rq_reserved_result_bytes rec |}) i j) as [-> Hw];
      [done|simpl; lia|].
    apply snoc_cases in Hr as [Hr| ->]; heap_cases; intros He.
    + destruct (H j r Hj Hr He) as (n & ? & ?). exists n. split; [done|].
      etransitivity; [|exact Hw]. done.
    + exists (ss_watermark (ses s i)). split; [apply Hm|].
      replace j with i in Hw |- *; [exact Hw|].
      apply (tb_session_ids _ _ _ _ _ Ht); [done|done|].
      rewrite (mr_session_id _ _ _ _ _ Hm) in He. done.
Qed.

(** ** Invocation bytes *)

(** Until it is submitted a queued record has the bytes the client sent, and the job of
    a record that has not ended carries them, with the client's mode, operation and
    limits. *)
Record Payloads (rs : list Request) (jobs : list Job) : Prop := {
  pa_queued : ∀ r, (r < length rs)%nat → r ∉ jb_record <$> jobs →
    RequestState.terminal (rq_state (rs !!! r)) = false →
    sha256_hex (rq_payload (rs !!! r)) = rq_digest (rs !!! r);
  pa_jobs : ∀ j, j ∈ jobs →
    jb_mode j = rq_mode (rs !!! jb_record j) ∧
    jb_operation j = rq_operation (rs !!! jb_record j) ∧
    jb_max_result_bytes j = rq_max_result_bytes (rs !!! jb_record j) ∧
    jb_timeout j = rq_execution_timeout (rs !!! jb_record j) ∧
    jb_priority j = rq_priority (rs !!! jb_record j) ∧
    (RequestState.terminal (rq_state (rs !!! jb_record j)) = false →
     sha256_hex (jb_payload j) = rq_digest (rs !!! jb_record j)) }.

Definition payloads (s : Broker) : Prop := Payloads (br_request_heap s) (br_jobs s).

(** What a change of a record must keep for the jobs to still match it. *)
Definition same_invocation (x y : Request) : Prop :=
  rq_digest x = rq_digest y ∧ rq_mode x = rq_mode y ∧ rq_operation x = rq_operation y ∧
  rq_max_result_bytes x = rq_max_result_bytes y ∧
  rq_execution_timeout x = rq_execution_timeout y ∧ rq_priority x = rq_priority y.

Lemma Payloads_alter rs jobs g r :
  (∀ x, same_invocation (g x) x) →
  (RequestState.terminal (rq_state (g (rs !!! r))) = false →
   RequestState.terminal (rq_state (rs !!! r)) = false ∧
   (r ∉ jb_record <$> jobs → rq_payload (g (rs !!! r)) = rq_payload (rs !!! r))) →
  Payloads rs jobs → Payloads (alter g r rs) jobs.
Proof.
  intros Hg Hs [H1 H2]. split.
  - intros r'. rewrite length_alter, list_lookup_total_alter. intros Hr Hn.
    case_decide as Hd; [|by apply H1]. destruct Hd as [<- _]. intros Ht.
    destruct (Hs Ht) as [Ht' ->]; [|done]. destruct (Hg (rs !!! r)) as [-> _]. by apply H1.
  - intros j Hj. rewrite list_lookup_total_alter. case_decide as Hd; [|by apply H2].
    destruct Hd as [-> _]. destruct (Hg (rs !!! jb_record j)) as (-> & -> & -> & -> & -> & ->).
    destruct (H2 j Hj) as (?&?&?&?&?&H). split_and!; try done.
    intros Ht. apply H. by destruct (Hs Ht).
Qed.

Lemma payloads_micro s s' :
  queue s → jobs_ok s → payloads s → micro sha256_hex cfg s s' → payloads s'.
Proof.
  intros HQ' HJ H Hm. unfold payloads in *.
  destruct Hm as [s' Hc _| | |i rec Hm|i r Hr Hi Ht| |r st kind control payload Hr Hs Hst Hn
    |r st kind control payload b sch Hr Hs Hst Hrem|r Hs Hj|r sch Hd Hp Hs|r f Hd|r f Hd|d Hd|f g Hg
    |r f g Hd Hg]; simpl; try done.
  - core_eq. done.
  - destruct H as [H1 H2]. split.
    + intros r. rewrite length_app. simpl. intros [Hr| ->]%snoc_cases; heap_cases; [by apply H1|].
      intros _ _. apply Hm.
    + intros j Hj. destruct (jo_jobs _ _ _ _ HJ j Hj) as [Hl _].
      rewrite lookup_total_snoc by done. by apply H2.
  - apply Payloads_alter; [done| |done]. simpl. unfold req in *. rewrite Ht. done.
  - apply Payloads_alter; [done| |done]. simpl. by rewrite Hst.
  - apply Payloads_alter; [done| |done]. simpl. by rewrite Hst.
  - apply Payloads_alter; [done| |done]. simpl. unfold req in *. by rewrite Hs.
  - by apply Payloads_alter.
  - by apply Payloads_alter.
  - destruct (jo_dispatcher _ _ _ _ HJ r f (or_introl Hd)) as [Hr Hf].
    destruct (jo_submitting _ _ _ _ HJ r f Hd) as [_ Hnj].
    assert (Hnr : r ∉ jb_record <$> br_jobs s).
    { intros (j & -> & Hj)%list_elem_of_fmap. destruct (jo_jobs _ _ _ _ HJ j Hj) as [_ Hf'].
      destruct Hnj. apply list_elem_of_fmap. exists j. split; [congruence|done]. }
    destruct H as [H1 H2]. split.
    + intros r'. rewrite length_alter, fmap_app. intros Hr' Hn%not_elem_of_app.
      destruct Hn as [Hn1 Hn2]. csimpl in Hn2. rewrite list_lookup_total_alter.
      case_decide as Hdd; [|by apply H1]. destruct Hdd as [<- _]. destruct Hn2. by left.
    + intros j [Hj| ->%list_elem_of_singleton]%elem_of_app.
      * rewrite list_lookup_total_alter. case_decide as Hdd; [|by apply H2].
        destruct Hdd as [-> _]. destruct Hnr. apply list_elem_of_fmap. by exists j.
      * simpl. rewrite list_lookup_total_alter, decide_True by done. simpl.
        split_and!; try done. intros Ht. by apply H1.
Qed.

(** ** Counters and ends *)

Definition ended (x : Request) : Z := if RequestState.terminal (rq_state x) then 1 else 0.

(** The statistics count the records and the ended ones; only an ended record gives its
    reservation back; an ended record has its message. *)
Record Ends (s : Broker) : Prop := {
  en_accepted : tasks_accepted (br_statistics s) = Z.of_nat (length (br_request_heap s));
  en_terminal : tasks_terminal (br_statistics s) = zsum ended (br_request_heap s);
  en_released : ∀ r, (r < length (br_request_heap s))%nat →
    rq_reservation_released (req s r) = true →
    RequestState.terminal (rq_state (req s r)) = true;
  en_kind : ∀ r, (r < length (br_request_heap s))%nat →
    RequestState.terminal (rq_state (req s r)) = true → is_Some (rq_terminal_kind (req s r)) }.

Lemma ends_sim s s' g r :
  br_request_heap s' = alter g r (br_request_heap s) →
  tasks_accepted (br_statistics s') = tasks_accepted (br_statistics s) →
  tasks_terminal (br_statistics s') = tasks_terminal (br_statistics s)
    + (if (r <? length (br_request_heap s))%nat
       then ended (g (req s r)) - ended (req s r) else 0) →
  (rq_reservation_released (g (req s r)) = true →
   RequestState.terminal (rq_state (g (req s r))) = true ∨
   rq_reservation_released (req s r) = true ∧
   rq_state (g (req s r)) = rq_state (req s r)) →
  (RequestState.terminal (rq_state (g (req s r))) = true →
   is_Some (rq_terminal_kind (g (req s r))) ∨
   rq_terminal_kind (g (req s r)) = rq_terminal_kind (req s r) ∧
   RequestState.terminal (rq_state (req s r)) = true) →
  Ends s → Ends s'.
Proof.
  intros Hh Ha Ht Hrel Hk [H1 H2 H3 H4]. unfold req in *. split.
  - by rewrite Ha, Hh, length_alter.
  - rewrite Ht, Hh, H2. destruct (Nat.ltb_spec r (length (br_request_heap s))).
    + rewrite zsum_alter by done. lia.
    + rewrite alter_beyond by done. lia.
  - intros r'. unfold req. rewrite Hh, length_alter, list_lookup_total_alter. intros Hl.
    case_decide as Hd; [|by apply H3]. destruct Hd as [<- _]. intros Hr.
    destruct (Hrel Hr) as [?|[? ->]]; auto.
  - intros r'. unfold req. rewrite Hh, length_alter, list_lookup_total_alter. intros Hl.
    case_decide as Hd; [|by apply H4]. destruct Hd as [<- _]. intros Hr.
    destruct (Hk Hr) as [?|[-> ?]]; auto.
Qed.

Lemma ends_same s s' :
  br_request_heap s' = br_request_heap s →
  tasks_accepted (br_statistics s') = tasks_accepted (br_statistics s) →
  tasks_terminal (br_statistics s') = tasks_terminal (br_statistics s) →
  Ends s → Ends s'.
Proof. intros Hh Ha Ht []. by split; unfold req in *; rewrite ?Hh, ?Ha, ?Ht. Qed.

Lemma ended_bool x b : RequestState.terminal (rq_state x) = b → ended x = if b then 1 else 0.
Proof. unfold ended. by intros ->. Qed.

Lemma ends_micro s s' : queue s → Ends s → micro sha256_hex cfg s s' → Ends s'.
Proof.
  intros HQ' H Hm.
  destruct Hm as [s' Hc _| | |i rec Hm|i r Hr Hi Ht| |r st kind control payload Hr Hs Hst Hn
    |r st kind control payload b sch Hr Hs Hst Hrem|r Hs Hj|r sch Hd Hp Hs|r f Hd|r f Hd|d Hd|f g Hg
    |r f g Hd Hg]; try (by apply (ends_same s)).
  - destruct H as [H1 H2 H3 H4]. split; unfold req in *; core_eq; done.
  - destruct H as [H1 H2 H3 H4]. unfold registered. split; unfold req in *; simpl.
    + rewrite length_app, H1. simpl. lia.
    + rewrite zsum_app, zsum_single, H2. rewrite (ended_bool rec false); [lia|].
      by rewrite (mr_state _ _ _ _ _ Hm).
    + intros r. rewrite length_app. simpl. intros [Hr| ->]%snoc_cases; heap_cases; [by apply H3|].
      by rewrite (mr_released _ _ _ _ _ Hm).
    + intros r. rewrite length_app. simpl. intros [Hr| ->]%snoc_cases; heap_cases; [by apply H4|].
      by rewrite (mr_state _ _ _ _ _ Hm).
  - eapply (ends_sim s); [done|done| |simpl; auto..|done].
    simpl. case_match; unfold ended; simpl; lia.
  - eapply (ends_sim s); [done|done| |simpl; eauto..|done].
    simpl. rewrite (proj2 (Nat.ltb_lt _ _)) by done.
    rewrite (ended_bool _ true) by done. rewrite (ended_bool (req s r) false) by done. lia.
  - eapply (ends_sim s); [done|done| |simpl; eauto..|done].
    simpl. rewrite (proj2 (Nat.ltb_lt _ _)) by done.
    rewrite (ended_bool _ true) by done. rewrite (ended_bool (req s r) false); [lia|].
    by rewrite Hs.
  - destruct (Nat.lt_ge_cases r (length (br_request_heap s))) as [Hr|Hr].
    + eapply (ends_sim s); [done|done| | |simpl; done|done].
      * simpl. unfold ended at 1. simpl. rewrite (ended_bool (req s r) false); [case_match; lia|].
        by rewrite Hs.
      * simpl. intros Hrel. apply (en_released _ H) in Hrel; [|done].
        rewrite Hs in Hrel. done.
    + apply (ends_same s); [|done..]. simpl. by apply alter_beyond.
  - eapply (ends_sim s); [done|done| |simpl; auto..|done]. simpl. case_match; unfold ended; simpl; lia.
  - eapply (ends_sim s); [done|done| |simpl; auto..|done]. simpl. case_match; unfold ended; simpl; lia.
  - eapply (ends_sim s); [done|done| |simpl; auto..|done]. simpl. case_match; unfold ended; simpl; lia.
Qed.

(** ** Bounds *)

(** The pending and retention limits hold of the tables and the counters. *)
Record Bounds (s : Broker) : Prop := {
  bd_positive : ∀ i, (i < length (br_session_heap s))%nat → 0 < ss_max_result_bytes (ses s i);
  bd_bytes : ∀ r, (r < length (br_request_heap s))%nat → 0 ≤ rq_reserved_result_bytes (req s r);
  bd_session : ∀ i, (i < length (br_session_heap s))%nat →
    Z.of_nat (length (ss_requests (ses s i))) ≤ max_pending_per_session limits ∧
    ss_reserved_outcomes (ses s i) ≤ max_retained_outcomes_per_session limits ∧
    ss_reserved_outcome_bytes (ses s i) ≤ max_retained_outcome_bytes_per_session limits;
  bd_pending : Z.of_nat (length (br_requests s)) ≤ max_pending_global limits;
  bd_outcomes : br_reserved_outcomes s ≤ max_retained_outcomes_global limits;
  bd_outcome_bytes : br_reserved_outcome_bytes s ≤ max_retained_outcome_bytes_global limits;
  bd_principal : ∀ p, principal_records s p ≤ max_pending_per_principal limits }.

(** The number of records of one principal named by a dictionary. *)
Definition records_of (rs : list Request) (p : pystr) (d : list (pystr * nat)) : Z :=
  zsum (λ kr, if bool_decide (rq_principal (rs !!! kr.2) = p) then 1 else 0) d.

Lemma principal_records_of s p :
  principal_records s p = records_of (br_request_heap s) p (br_requests s).
Proof.
  unfold principal_records, records_of, req. induction (br_requests s) as [|[k r] d IH]; [done|].
  csimpl. rewrite zsum_cons, filter_cons. simpl. rewrite <- IH.
  destruct (decide _) as [Hd|Hd]; [rewrite bool_decide_true by done|rewrite bool_decide_false by done];
    simpl; lia.
Qed.

Lemma records_of_same rs rs' p d :
  (∀ k r, (k, r) ∈ d → rq_principal (rs' !!! r) = rq_principal (rs !!! r)) →
  records_of rs' p d = records_of rs p d.
Proof. intros H. apply zsum_ext. intros [k r] Hin. simpl. by rewrite (H k r). Qed.

Lemma zsum_dict_del (g : pystr * nat → Z) d k :
  (∀ x, 0 ≤ g x) → zsum g (dict_del d k) ≤ zsum g d.
Proof.
  intros Hg. induction d as [|[k' v] d IH]; simpl; [done|]. specialize (Hg (k', v)).
  case_decide; rewrite !zsum_cons; lia.
Qed.

Lemma zsum_dict_set (g : pystr * nat → Z) d k v :
  (∀ x, 0 ≤ g x) → zsum g (dict_set d k v) ≤ zsum g d + g (k, v).
Proof.
  intros Hg. induction d as [|[k' v'] d IH]; simpl.
  - rewrite zsum_single. unfold zsum. simpl. lia.
  - specialize (Hg (k', v')). case_decide; subst; rewrite !zsum_cons; lia.
Qed.

Lemma length_set_le (d : list (pystr * nat)) k v :
  Z.of_nat (length (dict_set d k v)) ≤ Z.of_nat (length d) + 1.
Proof. induction d as [|[k' v'] d IH]; simpl; [lia|]. case_decide; simpl; lia. Qed.

Lemma length_del_le (d : list (pystr * nat)) k :
  Z.of_nat (length (dict_del d k)) ≤ Z.of_nat (length d).
Proof. induction d as [|[k' v'] d IH]; simpl; [lia|]. case_decide; simpl; lia. Qed.

Lemma bounds_same s s' :
  br_requests s' = br_requests s →
  br_reserved_outcomes s' = br_reserved_outcomes s →
  br_reserved_outcome_bytes s' = br_reserved_outcome_bytes s →
  heap_sim (λ x, (rq_principal x, rq_reserved_result_bytes x)) (br_request_heap s)
    (br_request_heap s') →
  heap_sim (λ x, (ss_max_result_bytes x, ss_requests x, ss_reserved_outcomes x,
                  ss_reserved_outcome_bytes x)) (br_session_heap s) (br_session_heap s') →
  Bounds s → Bounds s'.
Proof.
  intros Hreq Ho Hb [Hl Hv] [Hsl Hsv] [H1 H2 H3 H4 H5 H6 H7]. split; unfold req, ses in *.
  - intros i. rewrite Hsl. specialize (Hsv i). injection Hsv as -> _ _ _. apply H1.
  - intros r. rewrite Hl. specialize (Hv r). injection Hv as _ ->. apply H2.
  - intros i. rewrite Hsl. specialize (Hsv i). injection Hsv as _ -> -> ->. apply H3.
  - by rewrite Hreq.
  - by rewrite Ho.
  - by rewrite Hb.
  - intros p. rewrite principal_records_of, Hreq.
    rewrite (records_of_same (br_request_heap s)), <- principal_records_of; [apply H7|].
    intros k r _. specialize (Hv r). by injection Hv.
Qed.

Lemma bounds_opened s c x :
  limits_ok limits → 0 < ss_max_result_bytes x → ss_requests x = [] →
  ss_reserved_outcomes x = 0 → ss_reserved_outcome_bytes x = 0 →
  Bounds s → Bounds (opened s c x).
Proof.
  intros Hlim Hp Hr Ho Hb [H1 H2 H3 H4 H5 H6 H7].
  destruct Hlim as [Hpos _ _ _ _ _ _ _ _ _].
  split; try done; unfold req, ses, opened; simpl.
  - intros i. rewrite length_app. simpl. intros [Hi| ->]%snoc_cases; heap_cases; [by apply H1|done].
  - intros i. rewrite length_app. simpl. intros [Hi| ->]%snoc_cases; heap_cases; [by apply H3|].
    rewrite Hr, Ho, Hb. simpl.
    do 17 (apply Forall_cons in Hpos as [? Hpos]). split_and!; lia.
Qed.

Lemma bounds_removed s i r :
  tables s → (r < length (br_request_heap s))%nat →
  Bounds s → Bounds (removed s i r).
Proof.
  intros Ht Hr [H1 H2 H3 H4 H5 H6 H7]. specialize (H2 r Hr) as Hbr.
  set (g := λ x : Request, {| x with rq_reservation_released := true; rq_payload := [];
                                     rq_terminal_payload := [] |}).
  assert (Hp : ∀ r', rq_principal (alter g r (br_request_heap s) !!! r')
    = rq_principal (br_request_heap s !!! r') ∧
    rq_reserved_result_bytes (alter g r (br_request_heap s) !!! r')
    = rq_reserved_result_bytes (br_request_heap s !!! r')).
  { intros r'. rewrite list_lookup_total_alter. case_decide as Hd; [|done]. by destruct Hd as [<- _]. }
  unfold req in *.
  split; unfold removed, req, ses in *; simpl; fold g; rewrite ?length_alter.
  - intros j Hj. rewrite list_lookup_total_alter. case_decide as Hd; [|by apply H1].
    destruct Hd as [<- _]. by apply H1.
  - intros r' Hr'. destruct (Hp r') as [_ ->]. by apply H2.
  - intros j Hj. rewrite list_lookup_total_alter. case_decide as Hd; [|by apply H3].
    destruct Hd as [<- _]. simpl. destruct (H3 i Hj) as (Ha & Hb & Hc).
    pose proof (length_del_le (ss_requests (br_session_heap s !!! i))
      (rq_request_id (br_request_heap s !!! r))).
    split_and!; [lia|case_match; lia|case_match; lia].
  - pose proof (length_del_le (br_requests s) (rq_request_id (br_request_heap s !!! r))). lia.
  - case_match; lia.
  - case_match; lia.
  - intros p. specialize (H7 p). rewrite principal_records_of in H7 |- *. simpl. fold g.
    rewrite (records_of_same (br_request_heap s)) by (intros; apply Hp).
    etransitivity; [|exact H7]. apply zsum_dict_del. intros x. case_bool_decide; lia.
Qed.

Lemma bounds_registered s i rec :
  tables s → may_register sha256_hex cfg s i rec → Bounds s → Bounds (registered s i rec).
Proof.
  intros Ht Hm [H1 H2 H3 H4 H5 H6 H7].
  pose proof (mr_session _ _ _ _ _ Hm) as Hi. pose proof (mr_bytes _ _ _ _ _ Hm) as Hbytes.
  pose proof (mr_room _ _ _ _ _ Hm) as Hroom. unfold queue_full in Hroom.
  repeat match goal with H : (_ || _) = false |- _ => apply orb_false_iff in H as [? ?] end.
  zbool. specialize (H1 i Hi) as Hpos. set (n := length (br_request_heap s)).
  assert (Hold : ∀ k r, (k, r) ∈ br_requests s →
    (br_request_heap s ++ [rec]) !!! r = br_request_heap s !!! r).
  { intros k r Hin. apply lookup_total_snoc.
    apply (dict_get_elem _ _ _ (tb_requests_wf _ _ _ _ _ Ht)) in Hin.
    by apply (tb_requests _ _ _ _ _ Ht) in Hin as [? _]. }
  split; unfold registered, req, ses in *; simpl; fold n;
    rewrite ?length_alter, ?length_app; simpl.
  - intros j Hj. rewrite list_lookup_total_alter. case_decide as Hd; [|by apply H1].
    destruct Hd as [<- _]. by apply H1.
  - intros r [Hr| ->]%snoc_cases; unfold n; heap_cases; [by apply H2|lia].
  - intros j Hj. rewrite list_lookup_total_alter. case_decide as Hd; [|by apply H3].
    destruct Hd as [<- _]. simpl.
    pose proof (length_set_le (ss_requests (br_session_heap s !!! i)) (rq_request_id rec) n).
    split_and!; lia.
  - pose proof (length_set_le (br_requests s) (rq_request_id rec) n). lia.
  - lia.
  - lia.
  - intros p. rewrite principal_records_of. simpl. fold n.
    etransitivity; [apply zsum_dict_set; intros x; case_bool_decide; lia|].
    change (zsum _ (br_requests s)) with (records_of (br_request_heap s ++ [rec]) p (br_requests s)).
    rewrite (records_of_same (br_request_heap s)) by (intros k r Hin; by rewrite (Hold k r)).
    rewrite <- principal_records_of. simpl. unfold n. rewrite lookup_total_last.
    case_bool_decide as Hp; [|specialize (H7 p); lia].
    rewrite <- Hp, (mr_principal _ _ _ _ _ Hm). unfold ses. lia.
Qed.

Lemma bounds_micro s s' :
  limits_ok limits → tables s → Bounds s → micro sha256_hex cfg s s' → Bounds s'.
Proof.
  intros Hlim Ht H Hm. destruct Hm as [s' Hc _| | | | | |? | | | | | | | | ];
    [|by apply bounds_opened| |by apply bounds_registered|by apply bounds_removed|..];
    try (apply (bounds_same s); simpl; try done;
         first [by apply heap_sim_alter|apply heap_sim_refl]).
  destruct H as [H1 H2 H3 H4 H5 H6 H7].
  split; unfold req, ses, principal_records, req in *; core_eq; done.
Qed.

(** ** All together *)

Record Inv (s : Broker) : Prop := {
  inv_tables : tables s;
  inv_queue : queue s;
  inv_jobs : jobs_ok s;
  inv_accounts : accounts s;
  inv_sequences : sequences s;
  inv_payloads : payloads s;
  inv_ends : Ends s;
  inv_bounds : Bounds s;
  inv_conns : ∀ c i, cn_session (con s c) = Some i → (i < length (br_session_heap s))%nat }.

Lemma session_heap_grows s s' :
  micro sha256_hex cfg s s' → (length (br_session_heap s) ≤ length (br_session_heap s'))%nat.
Proof.
  intros Hm. destruct Hm; simpl; rewrite ?length_alter, ?length_app; try lia. core_eq. lia.
Qed.

Lemma conns_micro s s' :
  (∀ c i, cn_session (con s c) = Some i → (i < length (br_session_heap s))%nat) →
  micro sha256_hex cfg s s' →
  ∀ c i, cn_session (con s' c) = Some i → (i < length (br_session_heap s'))%nat.
Proof.
  intros H Hm c i Hc. pose proof (session_heap_grows s s' Hm) as Hg.
  destruct Hm as [s' Hcore (_ & Hold & Hnew)|c' x| | | | | | | | | | | | |];
    try (eapply Nat.lt_le_trans; [by apply (H c)|done]).
  - destruct (Nat.lt_ge_cases c (length (br_conn_heap s))) as [Hl|Hl].
    + destruct (Hold c Hl) as [He _]. rewrite He in Hc. apply H in Hc. lia.
    + rewrite (Hnew c Hl) in Hc. done.
  - unfold con, opened in Hc. simpl in Hc. rewrite list_lookup_total_alter in Hc.
    case_decide as Hd.
    + simpl in Hc. injection Hc as <-. simpl. rewrite length_app. simpl. lia.
    + apply H in Hc. lia.
Qed.

Lemma Inv_micro s s' : limits_ok limits → Inv s → micro sha256_hex cfg s s' → Inv s'.
Proof.
  intros Hl [] Hm. split.
  - by eapply tables_micro.
  - by eapply queue_micro.
  - by eapply jobs_micro.
  - by eapply accounts_micro.
  - by eapply sequences_micro.
  - by eapply payloads_micro.
  - by eapply ends_micro.
  - by eapply bounds_micro.
  - by eapply conns_micro.
Qed.

Lemma Inv_rtc s s' : limits_ok limits → Inv s → rtc (micro sha256_hex cfg) s s' → Inv s'.
Proof. intros Hl Hi. induction 1; [done|]. eauto using Inv_micro. Qed.

Lemma Inv_init : limits_ok limits → Inv broker_init.
Proof.
  intros [Hpos _ _ _ _ _ _ _ _ _].
  do 18 (apply Forall_cons in Hpos as [? Hpos]). clear Hpos.
  split.
  - split; simpl; try done; try apply dict_wf_nil; intros; lia.
  - split; [apply wf_init|apply NoDup_nil_2|]. intros r. simpl. split; [by intros ?%elem_of_nil|lia].
  - split; simpl; try done; try (intros; lia).
    + intros r f [|]; done.
    + intros j Hj%elem_of_nil. done.
    + apply NoDup_nil_2.
  - split; simpl; try done; intros; lia.
  - intros i r Hi. simpl in Hi. lia.
  - split; simpl; [intros; lia|]. intros j Hj%elem_of_nil. done.
  - split; simpl; try done; intros; lia.
  - split; simpl; try (intros; lia). intros p. unfold principal_records. simpl. lia.
  - intros c i. unfold con. by destruct c.
Qed.

(** ** What only grows *)

(** What never changes about a record once it exists, and once it has ended. *)
Record request_later (x y : Request) : Prop := {
  rl_same : rq_request_id y = rq_request_id x ∧ rq_session_id y = rq_session_id x ∧
    rq_principal y = rq_principal x ∧ rq_connection y = rq_connection x ∧
    rq_queue_deadline y = rq_queue_deadline x ∧ same_invocation y x;
  rl_ended : RequestState.terminal (rq_state x) = true →
    rq_state y = rq_state x ∧ rq_terminal_kind y = rq_terminal_kind x ∧
    rq_terminal_control y = rq_terminal_control x;
  rl_running : rq_state x = RequestState.RUNNING → rq_state y ≠ RequestState.ACCEPTED_QUEUED }.

#[export] Instance request_later_preorder : PreOrder request_later.
Proof.
  split.
  - intros x. split; [by repeat split|done|by intros ->].
  - intros x y z [H1 H2 H3] [K1 K2 K3]. unfold same_invocation in *. split.
    + destruct H1 as (?&?&?&?&?&?&?&?&?&?&?), K1 as (?&?&?&?&?&?&?&?&?&?&?).
      unfold same_invocation. split_and!; congruence.
    + intros Ht. destruct (H2 Ht) as (E1 & E2 & E3). rewrite <- E1 in Ht.
      destruct (K2 Ht) as (F1 & F2 & F3). by rewrite F1, F2, F3.
    + intros Hr. specialize (H3 Hr). intros Hz.
      destruct (rq_state y) eqn:E; try done; [by apply (K3 eq_refl)|..];
        (destruct (K2 eq_refl) as [F _]; congruence).
Qed.

Record later (s s' : Broker) : Prop := {
  la_requests : (length (br_request_heap s) ≤ length (br_request_heap s'))%nat ∧
    ∀ r, (r < length (br_request_heap s))%nat → request_later (req s r) (req s' r);
  la_sessions : (length (br_session_heap s) ≤ length (br_session_heap s'))%nat ∧
    ∀ i, (i < length (br_session_heap s))%nat →
      ss_session_id (ses s' i) = ss_session_id (ses s i) ∧
      ss_client_id (ses s' i) = ss_client_id (ses s i) ∧
      ss_principal (ses s' i) = ss_principal (ses s i) ∧
      ss_max_result_bytes (ses s' i) = ss_max_result_bytes (ses s i) ∧
      ss_watermark (ses s i) ≤ ss_watermark (ses s' i);
  la_jobs : br_jobs s `prefix_of` br_jobs s' }.

#[export] Instance later_preorder : PreOrder later.
Proof.
  split.
  - intros s. split; [split; [lia|intros; reflexivity]|split; [lia|intros; repeat split; lia]|done].
  - intros s s' s'' [[H1 H1'] [H2 H2'] H3] [[K1 K1'] [K2 K2'] K3]. split.
    + split; [lia|]. intros r Hr. etransitivity; [by apply H1'|apply K1'; lia].
    + split; [lia|]. intros i Hi. destruct (H2' i Hi) as (?&?&?&?&?).
      destruct (K2' i) as (?&?&?&?&?); [lia|]. split_and!; [congruence..|lia].
    + by etransitivity.
Qed.

Lemma later_alter s s' g r :
  br_request_heap s' = alter g r (br_request_heap s) →
  br_session_heap s' = br_session_heap s → br_jobs s `prefix_of` br_jobs s' →
  (request_later (req s r) (g (req s r))) → later s s'.
Proof.
  intros Hr Hs Hj Hg. unfold req, ses in *. split; [| |done].
  - rewrite Hr, length_alter. split; [done|]. intros r' Hl. unfold req. rewrite Hr.
    rewrite list_lookup_total_alter. case_decide as Hd; [by destruct Hd as [<- _]|reflexivity].
  - unfold ses. rewrite Hs. split; [done|]. intros i _. repeat split; lia.
Qed.

Lemma later_same s s' :
  br_request_heap s' = br_request_heap s → br_session_heap s' = br_session_heap s →
  br_jobs s' = br_jobs s → later s s'.
Proof.
  intros Hr Hs Hj. apply (later_alter s s' id 0%nat); [|done|by rewrite Hj|reflexivity].
  rewrite Hr. by rewrite list_alter_id.
Qed.

Lemma later_sessions s s' g i :
  br_request_heap s' = br_request_heap s →
  br_session_heap s' = alter g i (br_session_heap s) → br_jobs s' = br_jobs s →
  (∀ x, ss_session_id (g x) = ss_session_id x ∧ ss_client_id (g x) = ss_client_id x ∧
        ss_principal (g x) = ss_principal x ∧
        ss_max_result_bytes (g x) = ss_max_result_bytes x) →
  ss_watermark (ses s i) ≤ ss_watermark (g (ses s i)) →
  later s s'.
Proof.
  intros Hr Hs Hj Hg Hw. split.
  - unfold req. rewrite Hr. split; [done|intros; reflexivity].
  - unfold ses in *. rewrite Hs, length_alter. split; [done|]. intros j Hl.
    rewrite list_lookup_total_alter. case_decide as Hd; [|repeat split; lia].
    destruct Hd as [<- _]. destruct (Hg (br_session_heap s !!! i)) as (-> & -> & -> & ->).
    repeat split. done.
  - by rewrite Hj.
Qed.

Lemma later_removed s i r : later s (removed s i r).
Proof.
  split; [| |done].
  - simpl. rewrite length_alter. split; [done|]. intros r' Hl. unfold req, removed. simpl.
    rewrite list_lookup_total_alter. case_decide as Hd; [|reflexivity].
    destruct Hd as [<- _]. split; simpl; [by repeat split|done|by intros ->].
  - simpl. rewrite length_alter. split; [done|]. intros j Hl. unfold ses, removed. simpl.
    rewrite list_lookup_total_alter. case_decide as Hd; [|repeat split; lia].
    destruct Hd as [<- _]. simpl. repeat split; lia.
Qed.

Lemma micro_later s s' : micro sha256_hex cfg s s' → later s s'.
Proof.
  intros Hm. destruct Hm as [s' Hc _| |i n Hn|i rec Hm| | |r st kind control payload Hr Hs Hst Hn
    |r st kind control payload b sch Hr Hs Hst Hrem|r Hs Hj|r sch Hd Hp Hs|r f Hd|r f Hd|d Hd|f g Hg
    |r f g Hd Hg].
  - apply later_same; core_eq; done.
  - split; simpl; [split; [done|intros; reflexivity]| |done].
    rewrite length_app. split; [lia|]. intros i Hi. unfold ses, opened. simpl.
    rewrite lookup_total_snoc by done. repeat split; lia.
  - eapply later_sessions; [done..| |]; simpl; [done|lia].
  - split; simpl; [| |done].
    + rewrite length_app. split; [lia|]. intros r Hr. unfold req, registered. simpl.
      by rewrite lookup_total_snoc.
    + rewrite length_alter. split; [done|]. intros j Hl. unfold ses, registered. simpl.
      rewrite list_lookup_total_alter. case_decide as Hd; [|repeat split; lia].
      destruct Hd as [<- _]. simpl. repeat split; lia.
  - apply later_removed.
  - by apply later_same.
  - eapply later_alter; [done..|]. simpl. split; simpl; [by repeat split|by rewrite Hs|].
    intros _ ->. done.
  - eapply later_alter; [done..|]. simpl. split; simpl; [by repeat split| |intros _ ->; done].
    change (req {| s with br_scheduler := sch |} r) with (req s r). by rewrite Hs.
  - eapply later_alter; [done..|]. simpl. split; simpl; [by repeat split|by rewrite Hs|done].
  - eapply later_alter; [done..|]. simpl. split; simpl; [by repeat split|done|by intros ->].
  - eapply later_alter; [done..|]. simpl. split; simpl; [by repeat split|done|by intros ->].
  - eapply later_alter; [done|done| |].
    + simpl. by eexists.
    + simpl. split; simpl; [by repeat split|done|by intros ->].
  - by apply later_same.
  - by apply later_same.
  - by apply later_same.
Qed.

(** Priorities are never negative. *)
Definition priorities (s : Broker) : Prop :=
  ∀ r, (r < length (br_request_heap s))%nat → 0 ≤ rq_priority (req s r).

Lemma priorities_micro s s' : micro sha256_hex cfg s s' → priorities s → priorities s'.
Proof.
  intros Hm Hp. pose proof (micro_later s s' Hm) as [[Hlen Hreq] _ _].
  assert (Hold : ∀ r, (r < length (br_request_heap s))%nat → 0 ≤ rq_priority (req s' r)).
  { intros r Hr. destruct (rl_same _ _ (Hreq r Hr)) as (_&_&_&_&_&_&_&_&_&_&->). by apply Hp. }
  destruct (decide (length (br_request_heap s') = length (br_request_heap s))) as [E|E].
  { intros r. rewrite E. apply Hold. }
  destruct Hm; simpl in E; rewrite ?length_alter in E; try (by destruct E); [core_eq; by destruct E|].
  intros r Hr. destruct (Nat.lt_ge_cases r (length (br_request_heap s))) as [Hl|Hl]; [by apply Hold|].
  simpl in Hr. rewrite length_app in Hr. simpl in Hr.
  replace r with (length (br_request_heap s)) by lia. unfold req. simpl.
  rewrite list_lookup_total_middle by done. by eapply mr_priority.
Qed.

Lemma rtc_later s s' : rtc (micro sha256_hex cfg) s s' → later s s'.
Proof. induction 1 as [|s s1 s2 H _ IH]; [reflexivity|]. etransitivity; [by apply micro_later|done]. Qed.
End Preservation.
