(* ===== verification/BrokerRefine.v ===== *)
(** * BrokerRefine: the code makes only the changes of the abstract broker

    [refines P m]: from a state that satisfies the invariant and [P], the body [m]
    moves the broker by a sequence of [micro] changes, also when it raises. The
    lemmas go through the operations of [Broker.v] in the order of the file; the
    last one covers every event, so that [Inv] holds in all reachable states. *)
From S2P Require Import Prelude Errors Futures StateErr Heapq PyVal PyInt Config Worker.
From S2P Require Import Protocol Reassembly Scheduler Terminal Broker BrokerStep BrokerInv.

(** Runs a body one change at a time. *)
Ltac run_st := unfold upd_req, upd_ses, upd_con, upd_fut, upd_stats; run_body.

Section Refine.
Context {J : JsonText} {U : UnicodeData} {HQ : HeapQ Z Z.le}.
Context (sha256_hex : bytes → pystr) (repr_exn : exn → pystr) (cfg : ServerConfig).
Notation limits := (cf_limits cfg).
Context (Hlim : limits_ok limits).
Notation micro := (micro sha256_hex cfg).
Notation Inv := (Inv sha256_hex cfg).

(** ** Changes outside the core *)

Definition outside (s s' : Broker) : Prop := core s' = core s ∧ conns_le s s'.

#[local] Instance outside_preorder : PreOrder outside.
Proof.
  split.
  - intros s. split; [done|]. split_and!; [lia|done|]. intros c Hc. unfold con.
    rewrite list_lookup_total_alt, (proj2 (lookup_ge_None _ _) Hc). done.
  - intros s s' s'' [H1 (L1 & C1 & N1)] [H2 (L2 & C2 & N2)]. split; [congruence|].
    split_and!; [lia| |].
    + intros c Hc. destruct (C1 c Hc) as [E1 K1]. destruct (C2 c) as [E2 K2]; [lia|].
      split; [congruence|auto].
    + intros c Hc. destruct (Nat.lt_ge_cases c (length (br_conn_heap s'))) as [Hl|Hl].
      * destruct (C2 c Hl) as [E2 _]. rewrite E2. by apply N1.
      * by apply N2.
Qed.

Lemma outside_upd_con c g :
  (∀ x, cn_session (g x) = cn_session x ∧ (cn_closed x = true → cn_closed (g x) = true)) →
  respects outside (upd_con c g).
Proof.
  intros Hg s. unfold upd_con, modify. simpl. split; [done|]. unfold conns_le, con. simpl.
  rewrite length_alter. split_and!; [done| |].
  - intros c' Hc. rewrite list_lookup_total_alter. case_decide as Hd; [|done].
    destruct Hd as [<- _]. apply Hg.
  - intros c' Hc. rewrite list_lookup_total_alter. case_decide as Hd; [lia|].
    rewrite list_lookup_total_alt, (proj2 (lookup_ge_None _ _) Hc). done.
Qed.

(** A change of fields that neither the core nor the connections contain. *)
Lemma outside_modify f :
  (∀ s, core (f s) = core s ∧ br_conn_heap (f s) = br_conn_heap s) → respects outside (modify f).
Proof.
  intros Hf s. simpl. destruct (Hf s) as [H1 H2]. split; [done|].
  unfold conns_le, con. rewrite H2. split_and!; [lia|done|]. intros c Hc.
  rewrite list_lookup_total_alt, (proj2 (lookup_ge_None _ _) Hc). done.
Qed.

Lemma outside_upd_stats g :
  (∀ t, tasks_accepted (g t) = tasks_accepted t ∧ tasks_terminal (g t) = tasks_terminal t) →
  respects outside (upd_stats g).
Proof.
  intros Hg. apply outside_modify. intros s. split; [|done]. unfold core. simpl.
  by destruct (Hg (br_statistics s)) as [-> ->].
Qed.

#[local] Ltac outside_leaf :=
  first [apply outside_upd_con; intros []; done
        |apply outside_upd_stats; intros []; done
        |apply outside_modify; intros []; done].
#[local] Ltac outside_auto := repeat first [respects_step | outside_leaf].

Lemma outside_put_nowait c item : respects outside (put_nowait cfg c item).
Proof. unfold put_nowait. outside_auto. Qed.
Lemma outside_close c : respects outside (close cfg c).
Proof. unfold close. outside_auto. apply outside_put_nowait. Qed.
Lemma outside_send c k ctl p : respects outside (send cfg c k ctl p).
Proof. unfold send. outside_auto; apply outside_put_nowait || apply outside_close. Qed.
Lemma outside_send_ c k ctl : respects outside (send_ cfg c k ctl).
Proof. unfold send_. outside_auto. apply outside_send. Qed.
Lemma outside_flush_begin c b : respects outside (flush_begin cfg c b).
Proof. unfold flush_begin. outside_auto; apply outside_put_nowait || apply outside_close. Qed.
Lemma outside_writer_turn c sent : respects outside (writer_turn cfg c sent).
Proof. unfold writer_turn. outside_auto; apply outside_close. Qed.
Lemma outside_set_pc c pc : respects outside (set_pc c pc).
Proof. unfold set_pc. outside_auto. Qed.
Lemma outside_reject c id text : respects outside (reject cfg c id text).
Proof. unfold reject. outside_auto. apply outside_send_. Qed.
Lemma outside_authorized c op md : respects outside (authorized cfg c op md).
Proof. unfold authorized. outside_auto. Qed.
Lemma outside_send_record r : respects outside (send_record cfg r).
Proof. unfold send_record. outside_auto; apply outside_send_ || apply outside_send. Qed.
Lemma outside_reject_hello {A} c why msg : respects outside (reject_hello (A := A) cfg c why msg).
Proof. unfold reject_hello. outside_auto. apply outside_send_. Qed.
Lemma outside_update_connection_count : respects outside update_connection_count.
Proof. unfold update_connection_count. outside_auto. Qed.

(** ** Refinement *)

Definition refines {A} (P : Broker → Prop) (m : M A) : Prop :=
  ∀ s, Inv s → P s → rtc micro s (m s).1.

(** Conditions that later states keep. *)
Definition stable (P : Broker → Prop) : Prop := ∀ s s', later s s' → P s → P s'.

Lemma refines_outside {A} P (m : M A) : respects outside m → refines P m.
Proof. intros Hm s _ _. destruct (Hm s) as [H1 H2]. apply rtc_once. by apply mu_frame. Qed.

Lemma refines_weaken {A} (P Q : Broker → Prop) (m : M A) :
  (∀ s, Inv s → P s → Q s) → refines Q m → refines P m.
Proof. intros H Hm s Hi Hp. auto. Qed.

Lemma refines_ret {A} P (a : A) : refines P (mret a).
Proof. intros s _ _. reflexivity. Qed.
Lemma refines_skip P : refines P skip.
Proof. apply refines_ret. Qed.
Lemma refines_raise {A} P e : refines P (raise (A := A) e).
Proof. intros s _ _. reflexivity. Qed.
Lemma refines_gets {A} P (f : Broker → A) : refines P (gets f).
Proof. intros s _ _. reflexivity. Qed.
Lemma refines_gets_bind {A B} P (f : Broker → A) (k : A → M B) :
  (∀ a, refines (λ s, P s ∧ f s = a) (k a)) → refines P (gets f ≫= k).
Proof. intros H s Hi Hp. by apply (H (f s)). Qed.
Lemma refines_lift_bind {A B} P r (k : A → M B) :
  (∀ a, r = Ok a → refines P (k a)) → refines P (lift r ≫= k).
Proof.
  intros H s Hi Hp. destruct r as [a|e]; [by apply H|]. reflexivity.
Qed.

Lemma refines_bind {A B} P Q (m : M A) (k : A → M B) :
  refines P m → (∀ s, Inv s → P s → Q (m s).1) → (∀ a, refines Q (k a)) →
  refines P (m ≫= k).
Proof.
  intros Hm Hq Hk s Hi Hp. unfold mbind, ST_bind. specialize (Hm s Hi Hp). specialize (Hq s Hi Hp).
  destruct (m s) as [s' [a|e]]; simpl in *; [|done].
  etrans; [exact Hm|]. apply Hk; [|done]. by eapply Inv_rtc.
Qed.

Lemma refines_seq {A B} P (m : M A) (k : A → M B) :
  stable P → refines P m → (∀ a, refines P (k a)) → refines P (m ≫= k).
Proof.
  intros Hs Hm Hk. apply (refines_bind P P); [done| |done].
  intros s Hi Hp. eapply Hs; [|done]. by eapply rtc_later, Hm.
Qed.

(** Conditions on the core of the state. *)
Definition core_only (P : Broker → Prop) : Prop := ∀ s s', core s' = core s → P s → P s'.

Lemma refines_outside_bind {A B} P (m : M A) (k : A → M B) :
  respects outside m → core_only P → (∀ a, refines P (k a)) → refines P (m ≫= k).
Proof.
  intros Hm Hs Hk. apply (refines_bind P P); [by apply refines_outside| |done].
  intros s Hi Hp. destruct (Hm s) as [H _]. by eapply Hs.
Qed.

Lemma refines_swallow P m : refines P m → refines P (swallow m).
Proof. intros H s. apply H. Qed.

Lemma refines_for_each {A} P (l : list A) (f : A → M unit) :
  stable P → (∀ x, x ∈ l → refines P (f x)) → refines P (for_each l f).
Proof.
  intros Hs Hf. induction l as [|x l IH]; simpl; [apply refines_skip|].
  apply refines_seq; [done|apply Hf; left|]. intros _. apply IH. intros y Hy. apply Hf. by right.
Qed.

Lemma refines_if {A} P (b : bool) (m m' : M A) :
  (b = true → refines P m) → (b = false → refines P m') → refines P (if b then m else m').
Proof. destruct b; auto. Qed.

Lemma refines_micro P (m : M unit) : (∀ s, Inv s → P s → micro s (m s).1) → refines P m.
Proof. intros H s Hi Hp. by apply rtc_once, H. Qed.

(** ** Stable conditions *)

Definition has_request (r : nat) (s : Broker) : Prop := (r < length (br_request_heap s))%nat.

Lemma stable_has_request r : stable (has_request r).
Proof. intros s s' [[H _] _ _] Hr. unfold has_request in *. lia. Qed.
Lemma stable_True : stable (λ _, True).
Proof. done. Qed.
Lemma stable_and P Q : stable P → stable Q → stable (λ s, P s ∧ Q s).
Proof. intros HP HQ' s s' Hl [? ?]. split; [by eapply HP|by eapply HQ']. Qed.
Lemma stable_ended r : stable (λ s, has_request r s ∧ RequestState.terminal (rq_state (req s r)) = true).
Proof.
  intros s s' Hl [Hr Ht]. split; [by eapply stable_has_request|].
  destruct Hl as [[_ H] _ _]. destruct (H r Hr) as [_ He _]. by destruct (He Ht) as (-> & _).
Qed.
Lemma stable_in_pool r : stable (λ s, r ∈ jb_record <$> br_jobs s).
Proof.
  intros s s' [_ _ [l Hl]] H. rewrite Hl, fmap_app. apply elem_of_app. by left.
Qed.

(** ** Removal *)

Lemma list_alter_twice {A} (f g : A → A) i (l : list A) : alter f i (alter g i l) = alter (f ∘ g) i l.
Proof.
  revert i. induction l as [|x l IH]; intros [|i]; try done.
  change (x :: alter f i (alter g i l) = x :: alter (f ∘ g) i l). by f_equal.
Qed.

Lemma list_alter_eq {A} `{Inhabited A} (f g : A → A) i (l : list A) :
  f (l !!! i) = g (l !!! i) → alter f i l = alter g i l.
Proof.
  intros He. apply list_alter_ext; [|done]. intros x Hx.
  apply list_lookup_total_correct in Hx. by subst.
Qed.

(** Two states with the same fields are equal. *)
Lemma broker_ext (s s' : Broker) :
  br_request_heap s = br_request_heap s' → br_session_heap s = br_session_heap s' →
  br_future_heap s = br_future_heap s' → br_conn_heap s = br_conn_heap s' →
  br_reserved_outcomes s = br_reserved_outcomes s' →
  br_reserved_outcome_bytes s = br_reserved_outcome_bytes s' →
  br_scheduler s = br_scheduler s' →
  (br_sessions s, br_client_sessions s, br_requests s, br_jobs s, br_dispatcher s)
  = (br_sessions s', br_client_sessions s', br_requests s', br_jobs s', br_dispatcher s') →
  (br_state s, br_ready s, br_stopped s, br_has_pool s, br_bound s, br_raw_sockets s,
   br_connections s, br_staged s, br_shutdown_thread s, br_shutdown_cancel_futures s,
   br_shutdown_deadline_at s, br_kills s, br_statistics s)
  = (br_state s', br_ready s', br_stopped s', br_has_pool s', br_bound s', br_raw_sockets s',
     br_connections s', br_staged s', br_shutdown_thread s', br_shutdown_cancel_futures s',
     br_shutdown_deadline_at s', br_kills s', br_statistics s') → s = s'.
Proof. destruct s, s'. simpl. intros; simplify_eq. done. Qed.

Lemma remove_run s r :
  (remove_request_locked r s).1
  = match dict_get (br_sessions s) (rq_session_id (req s r)) with
    | None => s
    | Some i => removed s i r
    end.
Proof.
  unfold remove_request_locked, release_reservation_locked. rewrite !run_gets.
  destruct (dict_get (br_sessions s) (rq_session_id (req s r))) as [i|]; [|done].
  rewrite run_assoc, run_gets. unfold removed.
  destruct (rq_reservation_released (req s r)) eqn:E.
  - run_st. apply broker_ext; try done; simpl.
    + apply list_alter_eq. unfold req in E. rewrite <- E at 1. done.
    + apply list_alter_eq. f_equal; lia.
    + lia.
    + lia.
  - run_st. apply broker_ext; try done; simpl; apply list_alter_twice.
Qed.

Lemma refines_remove r :
  refines (λ s, has_request r s ∧ RequestState.terminal (rq_state (req s r)) = true)
    (remove_request_locked r).
Proof.
  intros s Hi [Hr Ht]. rewrite remove_run. destruct (dict_get _ _) as [i|] eqn:E; [|reflexivity].
  apply rtc_once. by apply mu_remove.
Qed.

Lemma owned_has_request s i k r :
  Inv s → (k, r) ∈ ss_requests (ses s i) → has_request r s.
Proof.
  intros Hi Hin. destruct (Nat.lt_ge_cases i (length (br_session_heap s))) as [Hl|Hl].
  - pose proof (inv_tables _ _ _ Hi) as Ht.
    apply (dict_get_elem _ _ _ (tb_owned_wf _ _ _ _ _ Ht i Hl)) in Hin.
    by apply (tb_owned _ _ _ _ _ Ht) in Hin as [? _].
  - unfold ses in Hin. rewrite list_lookup_total_alt, (proj2 (lookup_ge_None _ _) Hl) in Hin.
    by apply elem_of_nil in Hin.
Qed.

Definition have_requests (rs : list nat) (s : Broker) : Prop := ∀ r, r ∈ rs → has_request r s.

Lemma stable_have_requests rs : stable (have_requests rs).
Proof. intros s s' Hl H r Hr. eapply stable_has_request; eauto. Qed.

Lemma owned_have_requests s i : Inv s → have_requests (ss_requests (ses s i)).*2 s.
Proof.
  intros Hi r ([k r'] & -> & Hin)%list_elem_of_fmap. by eapply owned_has_request.
Qed.

Lemma listed_have_requests s : Inv s → have_requests (br_requests s).*2 s.
Proof.
  intros Hi r ([k r'] & -> & Hin)%list_elem_of_fmap. pose proof (inv_tables _ _ _ Hi) as Ht.
  apply (dict_get_elem _ _ _ (tb_requests_wf _ _ _ _ _ Ht)) in Hin.
  by apply (tb_requests _ _ _ _ _ Ht) in Hin as [? _].
Qed.

Lemma refines_purge P i : refines P (purge_session_locked i).
Proof.
  apply refines_gets_bind. intros snapshot.
  apply (refines_weaken _ (have_requests snapshot)).
  { intros s Hi [_ <-]. by apply owned_have_requests. }
  apply refines_seq; [apply stable_have_requests| |].
  - apply refines_for_each; [apply stable_have_requests|]. intros r Hr.
    apply refines_gets_bind. intros rec. apply refines_if; [|intros; apply refines_skip].
    intros Ht. eapply refines_weaken; [|apply refines_remove].
    intros s _ [H <-]. split; [by apply H|done].
  - intros _. apply refines_gets_bind. intros x.
    destruct (ss_requests x) eqn:E; [|apply refines_skip].
    apply refines_micro. intros s _ [_ <-]. by apply (mu_drop _ _ s i).
Qed.

(** ** Terminal outcomes *)

(** The request exists and, while it has not ended, it is not in the queue. *)
Definition unqueued (r : nat) (s : Broker) : Prop :=
  has_request r s ∧ r ∉ items (br_scheduler s).

Lemma terminated_eq s r st kind control payload :
  set_stats (λ t, {| t with tasks_terminal := tasks_terminal t + 1 |})
    (set_req r (λ x, {| x with
       rq_state := st; rq_payload := []; rq_terminal_kind := Some kind;
       rq_terminal_control := control; rq_terminal_payload := payload |}) s)
  = terminated s r st kind control payload.
Proof. by apply broker_ext. Qed.

Lemma terminal_run s r st kind control payload :
  RequestState.terminal (rq_state (req s r)) = false →
  ∃ payload' control', (terminal_locked cfg r st kind control payload s).1
    = (send cfg (rq_connection (req s r)) kind control' payload'
         (terminated s r st kind control payload)).1.
Proof.
  intros E. unfold terminal_locked. rewrite run_gets, E. run_st.
  exists payload, (with_request_id (rq_request_id (req s r)) control).
  rewrite <- (terminated_eq s r st kind control payload).
  unfold mbind, ST_bind. by destruct (send _ _ _ _ _ _) as [? []].
Qed.

Lemma mic_outside {A} s (m : M A) : respects outside m → rtc micro s (m s).1.
Proof. intros H. destruct (H s). apply rtc_once. by apply mu_frame. Qed.

Lemma refines_terminal r st kind control payload :
  RequestState.terminal st = true →
  refines (unqueued r) (terminal_locked cfg r st kind control payload).
Proof.
  intros Hst s Hi [Hr Hn].
  destruct (RequestState.terminal (rq_state (req s r))) eqn:E.
  - unfold terminal_locked. rewrite run_gets, E. reflexivity.
  - destruct (terminal_run s r st kind control payload E) as (p' & c' & ->).
    eapply rtc_l; [by apply (mu_terminal _ _ s r st kind control payload)|].
    apply mic_outside, outside_send.
Qed.

Lemma refines_unstage P r : refines P (unstage r).
Proof.
  unfold unstage. apply refines_bind with (λ _, True); [|done|].
  - apply refines_outside, outside_modify. done.
  - intros _. do 2 (apply refines_gets_bind; intros ?). apply refines_if; intros; [|apply refines_skip].
    apply refines_gets_bind. intros [i|]; [apply refines_purge|apply refines_skip].
Qed.

Lemma outcome_state_terminal k : RequestState.terminal (outcome_state k).1 = true.
Proof. by destruct k. Qed.

Lemma refines_complete_local r o : refines (unqueued r) (complete_local repr_exn cfg r o).
Proof.
  apply refines_gets_bind. intros rec. apply refines_if; [intros; apply refines_unstage|].
  intros _. apply refines_bind with (λ _, True); [|done|intros; apply refines_unstage].
  apply refines_weaken with (unqueued r); [naive_solver|].
  destruct o as [w|e|].
  - pose proof (outcome_state_terminal (Worker.kind w)) as Hst.
    destruct (outcome_state _) as [st k]. apply refines_lift_bind. intros d _.
    by apply refines_terminal.
  - apply refines_if; intros _; [by apply refines_terminal|].
    apply refines_if; intros _; by apply refines_terminal.
  - by apply refines_terminal.
Qed.

(** ** Local futures *)

Lemma refines_pool_done r f : refines (unqueued r) (pool_done repr_exn cfg r f).
Proof.
  apply refines_gets_bind. intros x. eapply refines_weaken; [|apply refines_complete_local].
  naive_solver.
Qed.

Lemma callback_unqueued s f r :
  Inv s → lf_callback (fut s f) = Some r → unqueued r s.
Proof.
  intros Hi Hc. destruct (Nat.lt_ge_cases f (length (br_future_heap s))) as [Hl|Hl].
  - destruct (jo_callback _ _ _ _ (inv_jobs _ _ _ Hi) f r Hl Hc) as [Hr Hf]. split; [done|].
    intros (_ & _ & Hn)%(qu_items _ _ (inv_queue _ _ _ Hi)). congruence.
  - unfold fut in Hc. rewrite list_lookup_total_alt, (proj2 (lookup_ge_None _ _) Hl) in Hc. done.
Qed.

Lemma refines_run_callback P f : refines P (run_callback repr_exn cfg f).
Proof.
  apply refines_gets_bind. intros x.
  apply refines_weaken with (λ s, ∀ r, lf_callback x = Some r → unqueued r s).
  { intros s Hi [_ <-] r Hr. by eapply callback_unqueued. }
  eapply refines_bind with (λ s, ∀ r, lf_callback x = Some r → unqueued r s).
  - apply refines_micro. intros s _ _. apply mu_future. intros y. split; [done|by right].
  - intros s _ H. done.
  - intros _. destruct (lf_callback x) as [r|]; [|apply refines_skip].
    apply refines_swallow. eapply refines_weaken; [|apply refines_pool_done]. naive_solver.
Qed.

Lemma refines_mark_cancelled P f : refines P (mark_cancelled f).
Proof.
  apply refines_gets_bind. intros x. case_decide; [|apply refines_ret].
  apply refines_bind with (λ _, True); [|done|intros; apply refines_ret].
  apply refines_micro. intros s _ _. apply mu_future. intros y. split; [done|by left].
Qed.

Lemma refines_cancel_future P f : refines P (cancel_future repr_exn cfg f).
Proof.
  apply refines_bind with (λ _, True); [apply refines_mark_cancelled|done|].
  intros b. apply refines_if; intros; [apply refines_run_callback|apply refines_skip].
Qed.

Lemma refines_cancel_local P r : refines P (cancel_local repr_exn cfg r).
Proof.
  apply refines_gets_bind. intros rec. destruct (rq_local_future rec);
    [apply refines_cancel_future|apply refines_skip].
Qed.

Lemma refines_cancel_and_kill P f : refines P (cancel_and_kill repr_exn cfg f).
Proof.
  apply refines_bind with (λ _, True); [apply refines_cancel_future|done|].
  intros _. apply refines_gets_bind. intros x. destruct (lf_pid x); [|apply refines_skip].
  apply refines_if; intros; [apply refines_skip|]. by apply refines_outside, outside_modify.
Qed.

Lemma refines_kill_local P r : refines P (kill_local repr_exn cfg r).
Proof.
  apply refines_gets_bind. intros rec. destruct (rq_local_future rec);
    [apply refines_cancel_and_kill|apply refines_skip].
Qed.

(** ** Withdrawal *)

Definition queued (r : nat) (s : Broker) : Prop :=
  has_request r s ∧ rq_state (req s r) = RequestState.ACCEPTED_QUEUED.

Lemma refines_withdraw r st kind text :
  RequestState.terminal st = true → refines (queued r) (withdraw repr_exn cfg r st kind text).
Proof.
  intros Hst s Hi [Hr Hs]. unfold withdraw, scheduler_remove.
  rewrite run_assoc, run_gets, run_assoc.
  destruct (Scheduler.remove (br_scheduler s) r) as [[b sch]|e] eqn:E; [|reflexivity].
  assert (Hw : ∀ control payload, micro s
    (terminated (set_scheduler (λ _, sch) s) r st kind control payload))
    by (intros; by eapply mu_withdraw).
  assert (Ht : RequestState.terminal (rq_state (req (set_scheduler (λ _, sch) s) r)) = false)
    by (change (req (set_scheduler (λ _, sch) s) r) with (req s r); by rewrite Hs).
  destruct (terminal_run (set_scheduler (λ _, sch) s) r st kind (reason text) [] Ht)
    as (p' & c' & Hrun).
  change ((lift (Ok (b, sch)) ≫= _) s) with
    ((_ ← terminal_locked cfg r st kind (reason text) []; cancel_local repr_exn cfg r)
       (set_scheduler (λ _, sch) s)).
  eapply rtc_l; [apply (Hw (reason text) [])|].
  assert (Hi1 : Inv (terminated (set_scheduler (λ _, sch) s) r st kind (reason text) []))
    by (by eapply Inv_micro).
  unfold mbind at 1, ST_bind at 1.
  destruct (terminal_locked cfg r st kind (reason text) [] (set_scheduler (λ _, sch) s))
    as [s2 res] eqn:E2. simpl in Hrun.
  assert (H2 : rtc micro (terminated (set_scheduler (λ _, sch) s) r st kind (reason text) []) s2).
  { rewrite Hrun. apply mic_outside, outside_send. }
  destruct res as [a|e]; [|done]. etrans; [exact H2|].
  apply (refines_cancel_local (λ _, True)); [|done]. by eapply Inv_rtc.
Qed.

Lemma refines_expire P now : refines P (expire_queued_locked repr_exn cfg now).
Proof.
  apply refines_gets_bind. intros snapshot.
  apply (refines_weaken _ (have_requests snapshot)).
  { intros s Hi [_ <-]. by apply listed_have_requests. }
  apply refines_for_each; [apply stable_have_requests|]. intros r Hr.
  apply refines_gets_bind. intros rec. apply refines_if; [|intros; apply refines_skip].
  intros [Hq _]%andb_true_iff. apply bool_decide_eq_true in Hq.
  eapply refines_weaken; [|by apply refines_withdraw].
  intros s _ [H <-]. split; [by apply H|done].
Qed.

(** ** Dispatch *)

Definition in_jobs (r : nat) (s : Broker) : Prop := r ∈ jb_record <$> br_jobs s.

Lemma refines_claim r pid now : refines (in_jobs r) (claim_dispatch repr_exn cfg r pid now).
Proof.
  assert (Hpub : ∀ P, refines P (
    rec ← gets (λ s, req s r);
    _ ← match rq_local_future rec with
        | Some f => upd_fut f (λ x, {| x with lf_pid := Some pid |})
        | None => skip
        end;
    _ ← send_ cfg (rq_connection rec) RUNNING_
          (mkdict [("request_id", PStr (rq_request_id rec)); ("pid", PInt pid);
                   ("worker_id", PStr (py "worker:" ++ str_of_int pid))]%string);
    mret true)).
  { intros P. apply refines_gets_bind. intros rec.
    apply refines_bind with (λ _, True); [|done|].
    - destruct (rq_local_future rec); [|apply refines_skip].
      apply refines_micro. intros s _ _. apply mu_future. intros y. split; [done|by left].
    - intros _. apply refines_bind with (λ _, True); [|done|intros; apply refines_ret].
      apply refines_outside, outside_send_. }
  apply refines_gets_bind. intros rec. destruct (rq_state rec) eqn:E; try apply refines_ret;
    [|apply Hpub].
  apply refines_if; intros _.
  - apply refines_bind with (λ _, True); [|done|].
    + eapply refines_weaken; [|by apply refines_terminal].
      intros s Hi [Hj <-]. apply (claimed_outside s r); [apply Hi|apply Hi|done].
    + intros _. apply refines_bind with (λ _, True); [apply refines_cancel_local|done|].
      intros _. apply refines_ret.
  - apply refines_bind with (λ _, True); [|done|].
    + apply refines_micro. intros s _ [Hj <-]. by apply mu_claim.
    + intros _. apply refines_bind with (λ _, True); [|done|intros _; apply Hpub].
      apply refines_outside, outside_upd_stats. done.
Qed.

(** Expiry leaves the dispatcher where it is. *)
Definition same_dispatcher (s s' : Broker) : Prop := br_dispatcher s' = br_dispatcher s.
#[local] Instance same_dispatcher_preorder : PreOrder same_dispatcher.
Proof. unfold same_dispatcher. split; [done|]. intros s s' s'' ? ?. congruence. Qed.

Lemma same_dispatcher_outside {A} (m : M A) : respects outside m → respects same_dispatcher m.
Proof. intros H s. destruct (H s) as [Hc _]. unfold same_dispatcher. by core_eq. Qed.

#[local] Ltac disp_auto :=
  repeat first [respects_step
    | match goal with |- respects _ (modify _) => apply respects_modify; intros ?; done end
    | match goal with |- respects _ (upd_req _ _) => apply respects_modify; intros ?; done end
    | match goal with |- respects _ (upd_ses _ _) => apply respects_modify; intros ?; done end
    | match goal with |- respects _ (upd_fut _ _) => apply respects_modify; intros ?; done end
    | match goal with |- respects _ (upd_stats _) => apply respects_modify; intros ?; done end].

Lemma same_dispatcher_send c k ctl p : respects same_dispatcher (send cfg c k ctl p).
Proof. apply same_dispatcher_outside, outside_send. Qed.
Lemma same_dispatcher_remove r : respects same_dispatcher (remove_request_locked r).
Proof. unfold remove_request_locked, release_reservation_locked. disp_auto. Qed.
Lemma same_dispatcher_purge i : respects same_dispatcher (purge_session_locked i).
Proof. unfold purge_session_locked. disp_auto. apply same_dispatcher_remove. Qed.
Lemma same_dispatcher_terminal r st k ctl p :
  respects same_dispatcher (terminal_locked cfg r st k ctl p).
Proof. unfold terminal_locked. disp_auto. apply same_dispatcher_send. Qed.
Lemma same_dispatcher_complete r o : respects same_dispatcher (complete_local repr_exn cfg r o).
Proof.
  unfold complete_local, unstage. disp_auto;
    apply same_dispatcher_purge || apply same_dispatcher_terminal.
Qed.
Lemma same_dispatcher_cancel_local r : respects same_dispatcher (cancel_local repr_exn cfg r).
Proof.
  unfold cancel_local, cancel_future, mark_cancelled, run_callback, pool_done.
  disp_auto; apply same_dispatcher_complete.
Qed.
Lemma same_dispatcher_expire now : respects same_dispatcher (expire_queued_locked repr_exn cfg now).
Proof.
  unfold expire_queued_locked, withdraw, scheduler_remove.
  disp_auto; apply same_dispatcher_terminal || apply same_dispatcher_cancel_local.
Qed.

Lemma popped_eq s r sch :
  set_dispatcher (DSubmitting r (length (br_future_heap s)))
    (set_staged (λ n, n + 1)
       (set_req r (λ x, {| x with rq_local_future := Some (length (br_future_heap s)) |})
          (new_fut (mkFuture r FutureState.PENDING None None None false)
             (set_scheduler (λ _, sch) s))))
  = popped s r sch.
Proof. by apply broker_ext. Qed.

Lemma refines_dispatch_turn now :
  refines (λ s, br_dispatcher s = DIdle) (dispatch_turn repr_exn cfg now).
Proof.
  apply refines_bind with (λ s, br_dispatcher s = DIdle); [apply refines_expire| |].
  - intros s _ Hd. rewrite <- Hd. apply same_dispatcher_expire.
  - intros _. intros s Hi Hd. rewrite run_gets.
    cbv zeta. unfold id.
    match goal with |- context [if ?b then skip else _] => destruct b end; [reflexivity|].
    match goal with |- context [if ?b then modify _ else _] => destruct b end;
      [apply rtc_once; by apply (mu_idle _ _ s DExited); right|].
    destruct (Scheduler.pop (br_scheduler s)) as [[r sch]|e] eqn:E;
      [|case_match; reflexivity].
    assert (Hq : rq_state (req s r) = RequestState.ACCEPTED_QUEUED).
    { pose proof (inv_queue _ _ _ Hi) as HQ'.
      destruct (pop_Ok _ _ _ (qu_wf _ _ HQ') E) as (_ & Hp & _).
      apply (qu_items _ _ HQ'). rewrite Hp. left. }
    rewrite run_modify, run_gets.
    change (req (set_scheduler (λ _, sch) s) r) with (req s r).
    rewrite bool_decide_false by (intros Hne; by apply Hne). run_st.
    apply rtc_once. simpl. rewrite popped_eq. by apply mu_pop.
Qed.

Lemma submitted_eq s r f :
  set_dispatcher (DAttaching r f)
    (set_req r (λ x, {| x with rq_payload := [] |}) (new_job (job_of (req s r) r f) s))
  = submitted s r f.
Proof. by apply broker_ext. Qed.

Lemma restored_eq s r f :
  br_dispatcher s = DSubmitting r f →
  (dispatch_submit repr_exn cfg r f SubmitFull s).1 = restored s r.
Proof.
  intros Hd. unfold dispatch_submit. run_st. 
  set (s1 := set_staged _ _).
  assert (Hreq : rq_state (req s1 r) = rq_state (req s r) ∧
    rq_priority (req s1 r) = rq_priority (req s r) ∧
    rq_principal (req s1 r) = rq_principal (req s r)).
  { unfold s1, req. simpl. rewrite list_lookup_total_alter. by case_decide. }
  destruct Hreq as (-> & -> & ->). unfold restored.
  case_bool_decide; run_st; by apply broker_ext.
Qed.

Lemma dispatcher_unqueued s r f :
  Inv s → br_dispatcher s = DSubmitting r f → unqueued r s.
Proof.
  intros Hi Hd. destruct (submitting_outside s r f) as (? & _ & ?); [apply Hi|apply Hi|by left|].
  by split.
Qed.

Lemma refines_dispatch_submit r f res :
  refines (λ s, br_dispatcher s = DSubmitting r f) (dispatch_submit repr_exn cfg r f res).
Proof.
  destruct res as [| |e].
  - intros s Hi Hd. unfold dispatch_submit. run_st. apply rtc_once. simpl.
    rewrite submitted_eq. by apply mu_job.
  - intros s Hi Hd. rewrite (restored_eq s r f Hd). apply rtc_once. by eapply mu_full.
  - apply refines_bind with (λ _, True); [|done|].
    + eapply refines_weaken; [|apply refines_complete_local].
      intros s Hi Hd. by eapply dispatcher_unqueued.
    + intros _. apply refines_micro. intros s _ _. by apply (mu_idle _ _ s DIdle); left.
Qed.

Lemma refines_dispatch_attach r f :
  refines (λ s, br_dispatcher s = DAttaching r f) (dispatch_attach r f).
Proof.
  intros s Hi Hd. unfold dispatch_attach. run_st. apply rtc_once. simpl.
  by eapply (mu_attach _ _ s r f).
Qed.

(** ** Requests of a connection *)

Lemma outside_bind_skip {A} P (m : M A) (k : A → M unit) :
  respects outside m → (∀ a, respects outside (k a)) → refines P (m ≫= k).
Proof. intros Hm Hk. apply refines_outside. by apply respects_bind; [typeclasses eauto|..]. Qed.

(** A session may take the request [id]: it is new, its sequence number is the
    watermark, and there is room. *)
Record can_register (i : nat) (id : pystr) (s : Broker) : Prop := {
  cr_session : (i < length (br_session_heap s))%nat;
  cr_new : ∀ r, (r < length (br_request_heap s))%nat →
    rq_session_id (req s r) = ss_session_id (ses s i) → rq_request_id (req s r) ≠ id;
  cr_sequence : request_sequence id = Some (ss_watermark (ses s i));
  cr_room : queue_full cfg s (ses s i) = false }.

Lemma core_can_register i id : core_only (can_register i id).
Proof.
  intros s s' Hc [H1 H2 H3 H4].
  split; unfold queue_full, principal_records, req, ses in *; core_eq; done.
Qed.

Lemma registered_eq s i rec :
  (register i (length (br_request_heap s)) rec s).1 = registered s i rec.
Proof. unfold register. run_st. by apply broker_ext. Qed.

Lemma refines_submit_checked c i m id digest now :
  sha256_hex (m_payload m) = digest →
  refines (can_register i id) (submit_checked cfg c i m id digest now).
Proof.
  intros Hd. unfold submit_checked. cbv zeta.
  apply refines_if; intros _; [apply refines_outside, outside_reject|].
  apply refines_lift_bind. intros mode_ok _.
  apply refines_if; intros _; [apply refines_outside, outside_reject|].
  apply refines_lift_bind. intros known _.
  apply refines_if; intros _; [apply refines_outside, outside_reject|].
  apply refines_outside_bind; [apply outside_authorized|apply core_can_register|]. intros allowed.
  apply refines_if; intros _; [apply refines_outside, outside_reject|].
  apply refines_lift_bind. intros priority Hpriority.
  do 2 (apply refines_lift_bind; intros ? _).
  apply refines_lift_bind. intros level Hlevel.
  do 2 (apply refines_gets_bind; intros ?).
  apply refines_bind with (λ _, True); [|done|intros _; apply refines_outside, outside_send_].
  intros s Hi [[[H1 H2 H3 H4] <-] <-]. rewrite registered_eq. apply rtc_once.
  apply mu_register. split; try done. by eapply finite_nonnegative_int.
Qed.

Lemma stable_has_session i : stable (λ s, (i < length (br_session_heap s))%nat).
Proof. intros s s' [_ [H _] _] Hi. lia. Qed.

Lemma core_has_session i : core_only (λ s, (i < length (br_session_heap s))%nat).
Proof. intros s s' Hc H. by core_eq. Qed.

Lemma parse_sequence request_id n :
  match after_last colon request_id with
  | Some t => match int_of_str t with
              | Ok n => Ok n
              | Err _ => Err (protocol_error "invalid request sequence")
              end
  | None => Err (protocol_error "invalid request sequence")
  end = Ok n → request_sequence request_id = Some n.
Proof.
  unfold request_sequence. destruct (after_last colon request_id); [|done].
  destruct (int_of_str _); [|done]. by intros [= <-].
Qed.

(** The watermark moves to the new request, which no record of the session has. *)
Lemma refines_new_request c i m id n now :
  request_sequence id = Some n →
  refines (λ s, (i < length (br_session_heap s))%nat ∧ ss_watermark (ses s i) < n)
    (_ ← upd_ses i (λ x, {| x with ss_watermark := n |});
     s ← gets (λ s : Broker, s);
     if negb (bool_decide (br_state s = ServerState.RUNNING)) then
       reject cfg c id "server_draining"
     else if queue_full cfg s (ses s i) then reject cfg c id "queue_full"
     else submit_checked cfg c i m id (sha256_hex (m_payload m)) now).
Proof.
  intros Hn. apply refines_bind with (λ s,
    (i < length (br_session_heap s))%nat ∧ ss_watermark (ses s i) = n ∧
    ∀ r, (r < length (br_request_heap s))%nat →
      rq_session_id (req s r) = ss_session_id (ses s i) → rq_request_id (req s r) ≠ id).
  - apply refines_micro. intros s _ [_ Hw]. by apply mu_watermark.
  - intros s Hi [Hl Hw]. unfold upd_ses, modify, ses. simpl.
    rewrite length_alter, list_lookup_total_alter, decide_True by done. split_and!; [done|done|].
    simpl. intros r Hr Hs Hid.
    destruct (inv_sequences _ _ _ Hi i r Hl Hr Hs) as (n' & Hn' & Hle).
    unfold req in *. simpl in Hid. unfold ses in *. rewrite Hid, Hn in Hn'. injection Hn' as <-. lia.
  - intros _. apply refines_gets_bind. intros s1.
    apply refines_if; intros _; [apply refines_outside, outside_reject|].
    apply refines_if; [intros _; apply refines_outside, outside_reject|]. intros Hroom.
    eapply refines_weaken; [|by apply refines_submit_checked].
    intros s _ [(Hl & <- & Hnew) <-]. by split.
Qed.

Lemma refines_submit P c m now : refines P (submit sha256_hex cfg c m now).
Proof.
  apply refines_gets_bind. intros cn. destruct (cn_session cn) as [i|] eqn:E;
    [|apply refines_raise].
  apply refines_weaken with (λ s, (i < length (br_session_heap s))%nat).
  { intros s Hi [_ <-]. by eapply inv_conns. }
  apply refines_outside_bind; [by apply outside_upd_stats|apply core_has_session|]. intros _.
  apply refines_gets_bind. intros client_id.
  apply refines_weaken with (λ s, (i < length (br_session_heap s))%nat); [naive_solver|].
  destruct (get (m_control m) "request_id"); try apply refines_raise.
  apply refines_if; intros _; [apply refines_raise|].
  apply refines_lift_bind. intros n Hn%parse_sequence.
  apply refines_if; intros _; [apply refines_raise|].
  apply refines_gets_bind. intros existing. destruct existing as [r|].
  - apply refines_gets_bind. intros rec. apply refines_if; intros _; [apply refines_raise|].
    apply refines_outside, outside_send_record.
  - apply refines_gets_bind. intros w. apply refines_if; [intros _|intros Hw].
    + apply refines_outside, outside_reject.
    + eapply refines_weaken; [|by apply (refines_new_request c i m s n)].
      intros s' _ [[? _] <-]. split; [done|]. by zbool.
Qed.

(** ** Cancellation and status *)

Lemma terminal_unqueued s r :
  Inv s → has_request r s → rq_state (req s r) ≠ RequestState.ACCEPTED_QUEUED → unqueued r s.
Proof.
  intros Hi Hr Hs. split; [done|]. by intros (_ & ? & _)%(qu_items _ _ (inv_queue _ _ _ Hi)).
Qed.

(** A running record that the code ends: it is outside the queue. *)
Lemma refines_end_running r text (k : M unit) :
  (∀ P, refines P k) →
  refines (λ s, has_request r s ∧ rq_state (req s r) = RequestState.RUNNING)
    (_ ← terminal_locked cfg r RequestState.CANCELLED CANCELLED_ (reason text) []; k).
Proof.
  intros Hk. apply refines_bind with (λ _, True); [|done|intros _; apply Hk].
  apply refines_weaken with (unqueued r); [|by apply refines_terminal].
  intros s Hi [Hr Hs]. apply terminal_unqueued; [done|done|congruence].
Qed.

Lemma core_has_state r st :
  core_only (λ s, has_request r s ∧ rq_state (req s r) = st).
Proof. intros s s' Hc [H <-]. unfold has_request, req in *. core_eq. done. Qed.

Lemma outside_hard (hard : bool) c control :
  respects outside (if hard then authorized cfg c (py "hard_cancel") control else mret false).
Proof. destruct hard; [apply outside_authorized|intros s; apply outside_preorder]. Qed.

Lemma owned_exists s c i id r :
  Inv s → cn_session (con s c) = Some i → dict_get (ss_requests (ses s i)) id = Some r →
  has_request r s.
Proof.
  intros Hi Hc Hd. pose proof (inv_tables _ _ _ Hi) as Ht.
  assert (Hl : (i < length (br_session_heap s))%nat) by (by eapply inv_conns).
  by apply (tb_owned _ _ _ _ _ Ht i id r Hl) in Hd as [? _].
Qed.

Lemma refines_owned {A} P c id (k : option nat → M A) :
  (∀ o, refines (λ s, ∀ r, o = Some r → has_request r s) (k o)) →
  refines P (owned_request c id ≫= k).
Proof.
  intros Hk. apply refines_gets_bind. intros o. eapply refines_weaken; [|apply Hk].
  intros s Hi [_ Ho] r ->. destruct (cn_session (con s c)) as [i|] eqn:Ec; [|done].
  destruct id; try done. by eapply owned_exists.
Qed.

Lemma refines_cancel P c control : refines P (cancel repr_exn cfg c control).
Proof.
  unfold cancel. cbv zeta. apply refines_owned. intros owned.
  apply refines_bind with (λ _, True); [|done|intros; apply refines_outside, outside_send_].
  destruct owned as [r|]; [|apply refines_ret].
  apply refines_gets_bind. intros rec. destruct (rq_state rec) eqn:E; try apply refines_ret.
  - apply refines_bind with (λ _, True); [|done|intros; apply refines_ret].
    eapply refines_weaken; [|by apply refines_withdraw].
    intros s _ [H <-]. split; [by apply H|done].
  - apply refines_weaken with
      (λ s, has_request r s ∧ rq_state (req s r) = RequestState.RUNNING).
    { intros s _ [H <-]. split; [by apply H|done]. }
    apply refines_outside_bind; [apply outside_hard|apply core_has_state|]. intros allowed.
    apply refines_if; intros _; [|apply refines_ret].
    apply refines_weaken with
      (λ s, has_request r s ∧ rq_state (req s r) = RequestState.RUNNING); [done|].
    intros s Hi Hp. rewrite <- run_assoc.
    apply refines_bind with (P := λ s, has_request r s ∧ rq_state (req s r) = RequestState.RUNNING)
      (Q := λ _, True); [|done|intros; apply refines_ret|done|done].
    apply refines_end_running. intros P'. apply refines_kill_local.
Qed.

Lemma refines_cancel_one c control hard r n :
  refines (has_request r) (cancel_one repr_exn cfg c control hard r n).
Proof.
  apply refines_gets_bind. intros rec. destruct (rq_state rec) eqn:E; try apply refines_ret.
  - apply refines_bind with (λ _, True); [|done|intros; apply refines_ret].
    eapply refines_weaken; [|by apply refines_withdraw].
    intros s _ [H <-]. by split.
  - apply refines_weaken with
      (λ s, has_request r s ∧ rq_state (req s r) = RequestState.RUNNING).
    { intros s _ [H <-]. by split. }
    apply refines_outside_bind; [apply outside_hard|apply core_has_state|]. intros allowed.
    apply refines_if; intros _; [|apply refines_ret].
    intros s Hi Hp. rewrite <- run_assoc.
    apply refines_bind with (P := λ s, has_request r s ∧ rq_state (req s r) = RequestState.RUNNING)
      (Q := λ _, True); [|done|intros; apply refines_ret|done|done].
    apply refines_end_running. intros P'. apply refines_kill_local.
Qed.

Lemma refines_cancel_all c control hard rs n :
  refines (have_requests rs) (cancel_all repr_exn cfg c control hard rs n).
Proof.
  revert n. induction rs as [|r rs IH]; intros n; [apply refines_ret|]. cbn [cancel_all].
  apply refines_seq; [apply stable_have_requests| |].
  - apply refines_weaken with (has_request r); [|apply refines_cancel_one].
    intros s _ H. apply H. left.
  - intros n'. eapply refines_weaken; [|apply IH]. intros s _ H r' Hr. apply H. by right.
Qed.

Lemma refines_cancel_group P c control : refines P (cancel_group repr_exn cfg c control).
Proof.
  unfold cancel_group. cbv zeta.
  apply refines_bind with (λ _, True); [|done|intros; apply refines_outside, outside_send_].
  destruct (get control "group_id"); try apply refines_ret.
  apply refines_gets_bind. intros records.
  eapply refines_weaken; [|apply refines_cancel_all].
  intros s' Hi [_ <-] r. destruct (cn_session _) as [i|]; [|by intros ?%elem_of_nil].
  unfold group_members. intros [_ Hr]%list_elem_of_filter. by apply (owned_have_requests s' i).
Qed.

Lemma refines_status P c control : refines P (status cfg c control).
Proof.
  unfold status. apply refines_owned. intros owned. apply refines_gets_bind. intros st.
  apply refines_outside, outside_send_.
Qed.

(** ** Messages *)

Lemma refines_result_ack P c control : refines P (result_ack c control).
Proof.
  apply refines_owned. intros [r|]; [|apply refines_skip].
  apply refines_gets_bind. intros rec. apply refines_if; [|intros; apply refines_skip].
  intros Ht. eapply refines_weaken; [|apply refines_remove].
  intros s _ [H <-]. split; [by apply H|done].
Qed.

Lemma refines_close_session P c control : refines P (close_session cfg c control).
Proof.
  apply refines_outside. unfold close_session. outside_auto.
  all: try apply outside_send_.
Qed.

Lemma refines_handle_message P c m now :
  refines P (handle_message sha256_hex repr_exn cfg c m now).
Proof.
  unfold handle_message. cbv zeta. destruct (m_kind m);
    first [apply refines_raise | apply refines_submit | apply refines_cancel
          | apply refines_cancel_group | apply refines_status | apply refines_result_ack
          | apply refines_close_session | idtac].
  all: apply refines_outside; outside_auto; first [apply outside_send_|apply outside_authorized].
Qed.

(** ** Handshake *)

Definition fresh_session (c : nat) (sid : pystr) (s : Broker) : Prop :=
  (c < length (br_conn_heap s))%nat ∧ sid ∉ ss_session_id <$> br_session_heap s.

Lemma refines_open_session c sid client principal limit :
  0 < limit →
  refines (fresh_session c sid)
    (open_session cfg c (mkSession sid client principal c limit 0 0 0 [])).
Proof.
  intros Hl s Hi [Hc Hs]. unfold open_session. rewrite run_gets. unfold id.
  cbv zeta. set (session := mkSession _ _ _ _ _ _ _ _ _).
  destruct (dict_get (br_client_sessions s) (ss_client_id session)) eqn:E;
    [apply mic_outside, outside_reject_hello|].
  match goal with |- context [if ?b then reject_hello _ _ _ _ else _] => destruct b end;
    [apply mic_outside, outside_reject_hello|].
  apply rtc_once. by apply (mu_open _ _ s c session).
Qed.

Lemma outside_check_compatible c hello : respects outside (check_compatible cfg c hello).
Proof. unfold check_compatible. outside_auto; apply outside_reject_hello. Qed.

Lemma effective_limit_positive offered : 0 < offered → 0 < effective_result_limit cfg offered.
Proof.
  intros Ho. destruct Hlim as [Hpos _ _ _ _ _ _ _ _ _]. unfold effective_result_limit.
  repeat (apply Forall_cons in Hpos as [? Hpos]). lia.
Qed.

(** Conditions that hold of later states with as many connections. *)
Lemma outside_fresh c sid : ∀ s s', outside s s' → fresh_session c sid s → fresh_session c sid s'.
Proof. intros s s' [Hc (Hl & _)] [H1 H2]. split; [lia|]. core_eq. done. Qed.

Lemma refines_outside_seq {A B} P (m : M A) (k : A → M B) :
  respects outside m → (∀ s s', outside s s' → P s → P s') → (∀ a, refines P (k a)) →
  refines P (m ≫= k).
Proof.
  intros Hm Hs Hk. apply (refines_bind P P); [by apply refines_outside| |done].
  intros s Hi Hp. eapply Hs; [apply Hm|done].
Qed.

Lemma positive_plain_int_pos v : positive_plain_int v = true → 0 < int_value v.
Proof.
  unfold positive_plain_int. destruct v; simpl; try done.
  intros H%negb_true_iff%Z.leb_gt. done.
Qed.

Lemma refines_handshake c hello peer sid :
  refines (fresh_session c sid) (handshake sha256_hex cfg c hello peer sid).
Proof.
  unfold handshake.
  apply refines_outside_seq; [apply outside_check_compatible|apply outside_fresh|]. intros _.
  apply refines_lift_bind. intros peer' _.
  apply refines_outside_seq; [outside_auto|apply outside_fresh|]. intros tr.
  apply refines_outside_seq; [|apply outside_fresh|].
  { outside_auto; try apply outside_reject_hello. }
  intros principal. cbv zeta. apply refines_if; [intros; apply refines_raise|].
  intros Hp%negb_false_iff%positive_plain_int_pos%effective_limit_positive.
  apply refines_bind with (λ _, True); [by apply refines_open_session|done|].
  intros _. apply refines_outside, outside_send_.
Qed.

(** ** Connections *)

Lemma refines_guarded P c next m : refines P m → refines P (guarded c next m).
Proof.
  intros Hm s Hi Hp. unfold guarded. specialize (Hm s Hi Hp).
  destruct (m s) as [s' [a|e]]; simpl in Hm; (etrans; [exact Hm|apply mic_outside, outside_set_pc]).
Qed.

Lemma refines_connection_hello c hello peer sid :
  refines (fresh_session c sid) (connection_hello sha256_hex cfg c hello peer sid).
Proof.
  apply refines_guarded, refines_if; intros _; [apply refines_raise|apply refines_handshake].
Qed.

Lemma refines_connection_message P c m now :
  refines P (connection_message sha256_hex repr_exn cfg c m now).
Proof. apply refines_guarded, refines_handle_message. Qed.

Lemma refines_report P c e b : refines P (connection_report cfg c e b).
Proof.
  apply refines_outside. unfold connection_report. outside_auto;
    apply outside_send_ || apply outside_flush_begin || apply outside_set_pc.
Qed.

Lemma refines_disconnect_one r : refines (has_request r) (disconnect_one repr_exn cfg r).
Proof.
  apply refines_gets_bind. intros rec. destruct (rq_state rec) eqn:E; try apply refines_skip.
  - eapply refines_weaken; [|by apply refines_withdraw]. intros s _ [H <-]. by split.
  - destruct (cf_disconnect_policy cfg); try apply refines_skip.
    destruct (rq_local_future rec); [|apply refines_skip].
    eapply refines_weaken; [|apply refines_end_running; intros P'; apply refines_cancel_and_kill].
    intros s _ [H <-]. by split.
Qed.

Lemma refines_disconnect P c : refines P (disconnect repr_exn cfg c).
Proof.
  apply refines_bind with (λ _, True); [apply refines_outside, outside_close|done|]. intros _.
  apply refines_bind with (λ _, True); [by apply refines_outside, outside_modify|done|]. intros _.
  apply refines_bind with (λ _, True);
    [apply refines_outside, outside_update_connection_count|done|]. intros _.
  apply refines_gets_bind. intros cn. destruct (cn_session cn) as [i|]; [|apply refines_skip].
  apply refines_if; intros _; [|apply refines_purge].
  apply refines_gets_bind. intros snapshot.
  apply refines_weaken with (have_requests snapshot).
  { intros s Hi [_ <-]. by apply owned_have_requests. }
  apply refines_seq; [apply stable_have_requests| |intros _; apply refines_purge].
  apply refines_for_each; [apply stable_have_requests|]. intros r Hr.
  eapply refines_weaken; [|apply refines_disconnect_one]. intros s _ H. by apply H.
Qed.

Lemma refines_connection_disconnect P c : refines P (connection_disconnect repr_exn cfg c).
Proof.
  apply refines_bind with (λ _, True); [apply refines_disconnect|done|].
  intros _. apply refines_outside, outside_set_pc.
Qed.

Lemma outside_accept raw : respects outside (accept_connection cfg raw).
Proof. unfold accept_connection. outside_auto. Qed.

Lemma outside_new_conn cn f :
  cn_session cn = None →
  (∀ s, core (f s) = core s ∧ br_conn_heap (f s) = br_conn_heap s ++ [cn]) →
  respects outside (modify f).
Proof.
  intros Hn Hf s. simpl. destruct (Hf s) as [H1 H2]. split; [done|].
  unfold conns_le, con. rewrite H2, length_app. simpl. split_and!; [lia| |].
  - intros c Hc. by rewrite lookup_total_snoc.
  - intros c Hc. destruct (decide (c = length (br_conn_heap s))) as [->|Hne].
    + by rewrite lookup_total_last.
    + rewrite list_lookup_total_alt, (proj2 (lookup_ge_None _ _)); [done|].
      rewrite length_app. simpl. lia.
Qed.

Lemma outside_prepare raw tr : respects outside (prepare_connection cfg raw tr).
Proof.
  unfold prepare_connection. respects_step; [outside_auto|].
  respects_step.
  { by apply (outside_new_conn (mkConn tr None false false 0 [] CHandshake)). }
  outside_auto; first [apply outside_close | apply outside_update_connection_count
                      | apply outside_set_pc].
Qed.

(** ** Life cycle *)

Lemma outside_set_state st : respects outside (set_state st).
Proof. unfold set_state. outside_auto. Qed.
Lemma outside_set_ready_stopped : respects outside set_ready_stopped.
Proof. unfold set_ready_stopped. outside_auto. Qed.

#[local] Ltac outside_life := outside_auto;
  repeat first [apply outside_set_state | apply outside_set_ready_stopped | outside_leaf].

Lemma outside_ignore {A} (m : M A) : respects outside m → respects outside (ignore m).
Proof. intros H. unfold ignore. respects_step; [done|]. outside_auto. Qed.
Lemma outside_start_begin b : respects outside (start_begin b).
Proof. unfold start_begin. outside_life. Qed.
Lemma outside_initialize_begin : respects outside initialize_begin.
Proof. unfold initialize_begin. outside_life. Qed.
Lemma outside_initialize_publish bound : respects outside (initialize_publish bound).
Proof. unfold initialize_publish. outside_life. Qed.
Lemma outside_initialize_cancelled : respects outside initialize_cancelled.
Proof. unfold initialize_cancelled. outside_life. Qed.
Lemma outside_close_bound : respects outside close_bound.
Proof. unfold close_bound. outside_life. Qed.
Lemma outside_initialize_failed : respects outside initialize_failed.
Proof. unfold initialize_failed. outside_life. Qed.
Lemma outside_initialize_closed : respects outside initialize_closed.
Proof. unfold initialize_closed, close_bound. outside_life. Qed.
Lemma outside_shutdown cf d now : respects outside (shutdown cf d now).
Proof. unfold shutdown. cbv zeta. outside_life. Qed.
Lemma outside_shutdown_flush c b : respects outside (shutdown_flush cfg c b).
Proof. unfold shutdown_flush. outside_auto. apply outside_flush_begin. Qed.
Lemma outside_shutdown_goaway c b : respects outside (shutdown_goaway cfg c b).
Proof. unfold shutdown_goaway. outside_auto; apply outside_send_ || apply outside_shutdown_flush. Qed.
Lemma outside_finish_shutdown_end : respects outside finish_shutdown_end.
Proof. unfold finish_shutdown_end. outside_life. Qed.

Lemma refines_shutdown_cancel_one r :
  refines (has_request r) (shutdown_cancel_one repr_exn cfg r).
Proof.
  apply refines_gets_bind. intros rec. apply refines_if; [|intros; apply refines_skip].
  intros Hq%bool_decide_eq_true. eapply refines_weaken; [|by apply refines_withdraw].
  intros s _ [H <-]. by split.
Qed.

Lemma refines_shutdown_deadline_one r :
  refines (has_request r) (shutdown_deadline_one repr_exn cfg r).
Proof.
  apply refines_gets_bind. intros rec. destruct (rq_state rec) eqn:E; try apply refines_skip.
  - eapply refines_weaken; [|by apply refines_withdraw]. intros s _ [H <-]. by split.
  - destruct (rq_local_future rec); [|apply refines_skip].
    eapply refines_weaken; [|apply refines_end_running; intros P'; apply refines_cancel_and_kill].
    intros s _ [H <-]. by split.
Qed.

Lemma refines_each_listed s0 (f : nat → M unit) :
  (∀ r, refines (has_request r) (f r)) →
  refines (λ s, have_requests (br_requests s0).*2 s) (for_each (br_requests s0).*2 f).
Proof.
  intros Hf. apply refines_for_each; [apply stable_have_requests|]. intros r Hr.
  eapply refines_weaken; [|apply Hf]. intros s _ H. by apply H.
Qed.

Lemma refines_finish_shutdown_turn P now :
  refines P (finish_shutdown_turn repr_exn cfg now).
Proof.
  apply refines_gets_bind. intros s0. apply refines_if; intros _;
    [apply refines_outside, outside_set_state|].
  apply refines_bind with (λ _, True); [|done|].
  - apply refines_if; intros _; [|apply refines_skip].
    eapply refines_weaken; [|apply refines_each_listed, refines_shutdown_cancel_one].
    intros s Hi [_ <-]. by apply listed_have_requests.
  - intros _. apply refines_gets_bind. intros s1. apply refines_if; intros _; [|apply refines_skip].
    apply refines_bind with (λ _, True); [|done|intros; apply refines_outside, outside_set_state].
    eapply refines_weaken; [|apply refines_each_listed, refines_shutdown_deadline_one].
    intros s Hi [_ <-]. by apply listed_have_requests.
Qed.

(** ** The pool's side of a local future *)

Lemma refines_upd_fut P f g :
  (∀ x, lf_record (g x) = lf_record x ∧
        (lf_callback (g x) = lf_callback x ∨ lf_callback (g x) = None)) →
  refines P (upd_fut f g).
Proof. intros Hg. apply refines_micro. intros s _ _. by apply mu_future. Qed.

Lemma refines_pool_notify P f : refines P (pool_notify_running f).
Proof.
  apply refines_gets_bind. intros x.
  destruct (lf_state x); try apply refines_raise; apply refines_upd_fut; intros; auto.
Qed.

Lemma refines_pool_finish P f o : refines P (pool_finish f o).
Proof.
  apply refines_gets_bind. intros x. apply refines_if; intros _; [apply refines_raise|].
  apply refines_upd_fut; intros; auto.
Qed.

Lemma refines_pool_cancel P f : refines P (pool_cancel f).
Proof.
  apply refines_bind with (λ _, True);
    [apply refines_mark_cancelled|done|intros; apply refines_skip].
Qed.

Lemma refines_pool_set_pid P f pid : refines P (pool_set_pid f pid).
Proof. apply refines_upd_fut; intros; auto. Qed.

Lemma pooled_record s f :
  Inv s → f ∈ jb_future <$> br_jobs s → in_jobs (lf_record (fut s f)) s.
Proof.
  intros Hi (j & -> & Hj)%list_elem_of_fmap. pose proof (inv_jobs _ _ _ Hi) as HJ.
  destruct (jo_jobs _ _ _ _ HJ j Hj) as [Hl Hf].
  destruct (jo_local _ _ _ _ HJ _ _ Hl Hf) as [_ He]. unfold in_jobs, fut. rewrite He.
  apply list_elem_of_fmap. by exists j.
Qed.

Lemma refines_pool_claim f pid now :
  refines (λ s, f ∈ jb_future <$> br_jobs s) (pool_claim repr_exn cfg f pid now).
Proof.
  apply refines_gets_bind. intros x.
  apply refines_bind with (λ _, True); [|done|intros; apply refines_skip].
  eapply refines_weaken; [|apply refines_claim].
  intros s Hi [H <-]. by apply pooled_record.
Qed.

(** ** Events *)

Lemma refines_exec e :
  refines (λ s, enabled e s = true) (exec sha256_hex repr_exn cfg e).
Proof.
  destruct e; cbn [exec enabled].
  1-7: apply refines_outside; first
    [apply outside_ignore, outside_start_begin | apply outside_ignore, outside_initialize_begin
    |apply outside_ignore, outside_initialize_publish | apply outside_initialize_cancelled
    |apply outside_initialize_failed | apply outside_initialize_closed
    |apply outside_ignore, outside_accept].
  - apply refines_outside, outside_prepare.
  - by apply refines_outside, outside_modify.
  - eapply refines_weaken; [|apply refines_connection_hello].
    intros s _ [[Hc%Nat.ltb_lt _]%andb_true_iff Hs%bool_decide_eq_true]%andb_true_iff.
    by split.
  - apply refines_connection_message.
  - apply refines_guarded, refines_raise.
  - apply refines_outside, outside_set_pc.
  - apply refines_gets_bind. intros cn. destruct (cn_pc cn); try apply refines_skip.
    apply refines_report.
  - apply refines_connection_disconnect.
  - apply refines_outside, outside_writer_turn.
  - eapply refines_weaken; [|apply refines_dispatch_turn].
    intros s _ H. destruct (br_dispatcher s) eqn:E; done.
  - apply refines_gets_bind. intros d. destruct d; try apply refines_skip.
    eapply refines_weaken; [|apply refines_dispatch_submit]. naive_solver.
  - apply refines_gets_bind. intros d. destruct d; try apply refines_skip.
    eapply refines_weaken; [|apply refines_dispatch_attach]. naive_solver.
  - eapply refines_weaken; [|apply refines_pool_claim]. intros s _ H.
    by apply bool_decide_eq_true in H.
  - apply refines_pool_notify.
  - apply refines_pool_finish.
  - apply refines_pool_cancel.
  - apply refines_pool_set_pid.
  - apply refines_run_callback.
  - apply refines_outside, outside_ignore, outside_shutdown.
  - apply refines_finish_shutdown_turn.
  - apply refines_outside, outside_close_bound.
  - apply refines_outside, outside_shutdown_flush.
  - apply refines_outside, outside_shutdown_goaway.
  - apply refines_outside, outside_close.
  - apply refines_outside, outside_finish_shutdown_end.
Qed.

(** ** The broker *)

Notation broker_step := (broker_step sha256_hex repr_exn cfg).
Notation reachable := (reachable sha256_hex repr_exn cfg).

Lemma step_micro s e s' : Inv s → broker_step s e s' → rtc micro s s'.
Proof. intros Hi [He <-]. by apply refines_exec. Qed.

Lemma steps_micro s es s' : Inv s → steps broker_step s es s' → rtc micro s s'.
Proof.
  intros Hi H. induction H as [s|s e s1 es s2 Hstep _ IH]; [done|].
  pose proof (step_micro _ _ _ Hi Hstep) as Hm. etrans; [exact Hm|].
  apply IH. by eapply Inv_rtc.
Qed.

Lemma reachable_Inv s : reachable s → Inv s.
Proof.
  intros [es H]. eapply Inv_rtc; [done|by apply Inv_init|]. eapply steps_micro; [|done].
  by apply Inv_init.
Qed.

Lemma reachable_later s es s' : reachable s → steps broker_step s es s' → later s s'.
Proof. intros Hr H. eapply rtc_later, steps_micro; [by apply reachable_Inv|done]. Qed.
End Refine.
