(* ===== verification/BrokerFrame.v ===== *)
(** * BrokerFrame: what the operations of the broker leave alone

    [tame]: outside the life cycle of the server, no operation touches the life-cycle
    fields, no outbound queue outgrows its limit, and no record is created or enters
    the table of requests unless the server is running. One lemma per operation, in the order of [Broker.v]. *)
From S2P Require Import Prelude Errors Futures StateErr Heapq PyVal PyInt Config Worker.
From S2P Require Import Protocol Reassembly Scheduler Terminal Broker BrokerStep.

(** The fields that [start], [_initialize] and [shutdown] write. *)
Definition life (s : Broker) :=
  (br_state s, br_ready s, br_stopped s, br_has_pool s, br_bound s, br_shutdown_thread s,
   br_shutdown_cancel_futures s, br_shutdown_deadline_at s).

Section Frame.
Context {J : JsonText} {U : UnicodeData} {HQ : HeapQ Z Z.le}.
Context (sha256_hex : bytes → pystr) (repr_exn : exn → pystr) (cfg : ServerConfig).
Notation limits := (cf_limits cfg).
Context (Hqueue : 0 < outbound_queue_size limits).

(** No outbound queue is over its limit. *)
Definition outbound_ok (s : Broker) : Prop := ∀ c, (c < length (br_conn_heap s))%nat →
  Z.of_nat (length (cn_outbound (con s c))) ≤ outbound_queue_size limits.

Definition grows (s s' : Broker) : Prop :=
  life s' = life s ∧ (outbound_ok s → outbound_ok s').
Definition tame (s s' : Broker) : Prop :=
  grows s s' ∧ (br_state s ≠ ServerState.RUNNING →
    length (br_request_heap s') = length (br_request_heap s) ∧
    br_requests s' ⊆ br_requests s).

#[export] Instance grows_preorder : PreOrder grows.
Proof.
  split; [done|]. intros s s' s'' [H1 H2] [H3 H4]. split; [congruence|auto].
Qed.

Lemma life_state s s' : life s' = life s → br_state s' = br_state s.
Proof. by intros [= ->]. Qed.

#[export] Instance tame_preorder : PreOrder tame.
Proof.
  split; [done|]. intros s s' s'' [H1 H2] [H3 H4]. split; [by etransitivity|].
  intros Hs. destruct (H2 Hs) as [E1 S1]. destruct H4 as [E2 S2].
  { destruct H1 as [H1 _]. by rewrite (life_state _ _ H1). }
  split; [congruence|]. by etransitivity.
Qed.

Lemma tame_grows {A} (m : ST Broker A) : respects tame m → respects grows m.
Proof. intros H s. apply H. Qed.

Lemma tame_modify f :
  (∀ s, life (f s) = life s ∧ br_conn_heap (f s) = br_conn_heap s ∧
        length (br_request_heap (f s)) = length (br_request_heap s) ∧
        br_requests (f s) ⊆ br_requests s) →
  respects tame (modify f).
Proof.
  intros Hf s. simpl. destruct (Hf s) as (H1 & H2 & H3 & H4). split; [split; [done|]|done].
  unfold outbound_ok, con. by rewrite H2.
Qed.

Lemma grows_modify f :
  (∀ s, life (f s) = life s ∧ br_conn_heap (f s) = br_conn_heap s) →
  respects grows (modify f).
Proof.
  intros Hf s. simpl. destruct (Hf s) as (H1 & H2). split; [done|].
  unfold outbound_ok, con. by rewrite H2.
Qed.

Lemma tame_upd_con c g :
  (∀ x, (length (cn_outbound (g x)) ≤ length (cn_outbound x))%nat ∨
        Z.of_nat (length (cn_outbound (g x))) ≤ outbound_queue_size limits) →
  respects tame (upd_con c g).
Proof.
  intros Hg s. split; [split; [done|]|done]. intros H c'. simpl. rewrite length_alter.
  intros Hc. unfold con. simpl. rewrite list_lookup_total_alter.
  case_decide as Hd; [|by apply H]. destruct Hd as [<- _]. specialize (H c Hc).
  unfold con in H. destruct (Hg (br_conn_heap s !!! c)); lia.
Qed.

#[local] Ltac tame_leaf :=
  apply tame_modify; intros ?; simpl; rewrite ?length_alter;
  split_and!; [done|done|done|first [reflexivity|apply dict_del_subseteq]].

Lemma tame_upd_req r g : respects tame (upd_req r g).
Proof. tame_leaf. Qed.
Lemma tame_upd_ses i g : respects tame (upd_ses i g).
Proof. tame_leaf. Qed.
Lemma tame_upd_fut f g : respects tame (upd_fut f g).
Proof. tame_leaf. Qed.
Lemma tame_upd_stats g : respects tame (upd_stats g).
Proof. tame_leaf. Qed.

#[local] Ltac tame_auto :=
  repeat first [respects_step
    | apply tame_upd_req | apply tame_upd_ses | apply tame_upd_fut | apply tame_upd_stats
    | match goal with |- respects _ (upd_con _ _) => apply tame_upd_con; intros []; by left end
    | match goal with |- respects _ (modify _) => tame_leaf end].

(** [put_nowait] drops the item of a full queue. *)
Lemma tame_put_nowait c item : respects tame (put_nowait cfg c item).
Proof.
  intros s. unfold put_nowait. rewrite run_gets. cbv zeta.
  destruct ((0 <? outbound_queue_size limits) && _) eqn:E.
  - refine (respects_bind tame (upd_con c _) _ _ _ s).
    + apply tame_upd_con. intros []. by left.
    + intros. apply respects_ret. typeclasses eauto.
  - apply andb_false_iff in E as [E|E]; zbool; [lia|].
    match goal with |- tame s ((upd_con c ?g ≫= _) s).1 =>
      change (tame s (set_con c g s)) end.
    split; [split; [done|]|done]. intros H c'. simpl. rewrite length_alter. intros Hc.
    unfold con. simpl. rewrite list_lookup_total_alter. case_decide as Hd; [|by apply H].
    destruct Hd as [<- _]. simpl. rewrite length_app. simpl. unfold con in E. lia.
Qed.

Lemma tame_close c : respects tame (close cfg c).
Proof. unfold close. tame_auto. apply tame_put_nowait. Qed.
Lemma tame_send c k ctl p : respects tame (send cfg c k ctl p).
Proof. unfold send. tame_auto; apply tame_put_nowait || apply tame_close. Qed.
Lemma tame_send_ c k ctl : respects tame (send_ cfg c k ctl).
Proof. unfold send_. tame_auto. apply tame_send. Qed.
Lemma tame_flush_begin c b : respects tame (flush_begin cfg c b).
Proof. unfold flush_begin. tame_auto; apply tame_put_nowait || apply tame_close. Qed.

Lemma tame_writer_turn c sent : respects tame (writer_turn cfg c sent).
Proof.
  intros s. unfold writer_turn. rewrite run_gets.
  destruct (cn_outbound (con s c)) as [|[n item] rest] eqn:E; [reflexivity|].
  unfold upd_con. rewrite run_modify.
  set (s1 := set_con c _ s). transitivity s1.
  - split; [split; [done|]|done]. intros H c'. simpl. rewrite length_alter. intros Hc.
    unfold con. simpl. rewrite list_lookup_total_alter. case_decide as Hd; [|by apply H].
    destruct Hd as [<- _]. simpl. specialize (H c Hc). rewrite E in H. cbn [length] in H. lia.
  - destruct item; try reflexivity. destruct sent; [reflexivity|apply tame_close].
Qed.

Lemma tame_remove r : respects tame (remove_request_locked r).
Proof. unfold remove_request_locked, release_reservation_locked. tame_auto. Qed.
Lemma tame_purge i : respects tame (purge_session_locked i).
Proof. unfold purge_session_locked. tame_auto. apply tame_remove. Qed.
Lemma tame_terminal r st k ctl p : respects tame (terminal_locked cfg r st k ctl p).
Proof. unfold terminal_locked. tame_auto. apply tame_send. Qed.
Lemma tame_unstage r : respects tame (unstage r).
Proof. unfold unstage. tame_auto. apply tame_purge. Qed.
Lemma tame_complete r o : respects tame (complete_local repr_exn cfg r o).
Proof. unfold complete_local. tame_auto; apply tame_terminal || apply tame_unstage. Qed.
Lemma tame_run_callback f : respects tame (run_callback repr_exn cfg f).
Proof. unfold run_callback, pool_done. tame_auto. apply tame_complete. Qed.
Lemma tame_mark_cancelled f : respects tame (mark_cancelled f).
Proof. unfold mark_cancelled. tame_auto. Qed.
Lemma tame_cancel_future f : respects tame (cancel_future repr_exn cfg f).
Proof. unfold cancel_future. tame_auto; apply tame_mark_cancelled || apply tame_run_callback. Qed.
Lemma tame_cancel_local r : respects tame (cancel_local repr_exn cfg r).
Proof. unfold cancel_local. tame_auto. apply tame_cancel_future. Qed.
Lemma tame_cancel_and_kill f : respects tame (cancel_and_kill repr_exn cfg f).
Proof. unfold cancel_and_kill. tame_auto. apply tame_cancel_future. Qed.
Lemma tame_kill_local r : respects tame (kill_local repr_exn cfg r).
Proof. unfold kill_local. tame_auto. apply tame_cancel_and_kill. Qed.
Lemma tame_withdraw r st k text : respects tame (withdraw repr_exn cfg r st k text).
Proof.
  unfold withdraw, scheduler_remove. tame_auto; apply tame_terminal || apply tame_cancel_local.
Qed.
Lemma tame_expire now : respects tame (expire_queued_locked repr_exn cfg now).
Proof. unfold expire_queued_locked. tame_auto. apply tame_withdraw. Qed.

Lemma tame_claim r pid now : respects tame (claim_dispatch repr_exn cfg r pid now).
Proof.
  unfold claim_dispatch. cbv zeta. tame_auto;
    first [apply tame_send_ | apply tame_terminal | apply tame_cancel_local].
Qed.
Lemma tame_dispatch_turn now : respects tame (dispatch_turn repr_exn cfg now).
Proof. unfold dispatch_turn. cbv zeta. tame_auto. apply tame_expire. Qed.
Lemma tame_dispatch_submit r f res : respects tame (dispatch_submit repr_exn cfg r f res).
Proof. unfold dispatch_submit. tame_auto. apply tame_complete. Qed.
Lemma tame_dispatch_attach r f : respects tame (dispatch_attach r f).
Proof. unfold dispatch_attach. tame_auto. Qed.

Lemma tame_authorized c op md : respects tame (authorized cfg c op md).
Proof. unfold authorized. tame_auto. Qed.
Lemma tame_reject c id text : respects tame (reject cfg c id text).
Proof. unfold reject. tame_auto. apply tame_send_. Qed.
Lemma tame_send_record r : respects tame (send_record cfg r).
Proof. unfold send_record. tame_auto; apply tame_send_ || apply tame_send. Qed.

#[local] Ltac grows_leaf := apply grows_modify; intros ?; done.

Lemma grows_register i r rec : respects grows (register i r rec).
Proof.
  unfold register. repeat first [respects_step
    | match goal with |- respects _ (modify _) => grows_leaf end
    | match goal with |- respects _ (upd_ses _ _) => grows_leaf end
    | match goal with |- respects _ (upd_stats _) => grows_leaf end].
Qed.

Lemma grows_submit_checked c i m id digest now :
  respects grows (submit_checked cfg c i m id digest now).
Proof.
  unfold submit_checked. cbv zeta. repeat first [respects_step
    | apply tame_grows; first [apply tame_reject | apply tame_authorized | apply tame_send_]
    | apply grows_register].
Qed.

(** Nothing is accepted unless the server runs. *)
Lemma tame_admission c i m id digest now :
  respects tame (s ← gets (λ s : Broker, s);
    if negb (bool_decide (br_state s = ServerState.RUNNING)) then
      reject cfg c id "server_draining"
    else if queue_full cfg s (ses s i) then reject cfg c id "queue_full"
    else submit_checked cfg c i m id digest now).
Proof.
  intros s. rewrite run_gets. case_bool_decide as Hs; simpl; [|apply tame_reject].
  split; [|done]. destruct (queue_full cfg s (ses s _)); [apply tame_grows, tame_reject|].
  apply grows_submit_checked.
Qed.

Lemma tame_submit c m now : respects tame (submit sha256_hex cfg c m now).
Proof.
  unfold submit. cbv zeta. repeat first [apply tame_admission | respects_step
    | apply tame_upd_ses | apply tame_upd_stats | apply tame_reject | apply tame_send_record].
Qed.

Lemma tame_cancel c control : respects tame (cancel repr_exn cfg c control).
Proof.
  unfold cancel, owned_request. cbv zeta. tame_auto;
    first [apply tame_withdraw | apply tame_authorized | apply tame_terminal
          | apply tame_kill_local | apply tame_send_].
Qed.
Lemma tame_cancel_one c control hard r n :
  respects tame (cancel_one repr_exn cfg c control hard r n).
Proof.
  unfold cancel_one. tame_auto;
    first [apply tame_withdraw | apply tame_authorized | apply tame_terminal
          | apply tame_kill_local].
Qed.
Lemma tame_cancel_all c control hard rs n :
  respects tame (cancel_all repr_exn cfg c control hard rs n).
Proof.
  revert n. induction rs as [|r rs IH]; intros n; cbn [cancel_all]; [tame_auto|].
  respects_step; [apply tame_cancel_one|apply IH].
Qed.
Lemma tame_cancel_group c control : respects tame (cancel_group repr_exn cfg c control).
Proof. unfold cancel_group. cbv zeta. tame_auto; apply tame_cancel_all || apply tame_send_. Qed.
Lemma tame_status c control : respects tame (status cfg c control).
Proof. unfold status, owned_request. tame_auto. apply tame_send_. Qed.
Lemma tame_result_ack c control : respects tame (result_ack c control).
Proof. unfold result_ack, owned_request. tame_auto. apply tame_remove. Qed.
Lemma tame_close_session c control : respects tame (close_session cfg c control).
Proof. unfold close_session. cbv zeta. tame_auto. all: try apply tame_send_. Qed.

Lemma tame_handle_message c m now :
  respects tame (handle_message sha256_hex repr_exn cfg c m now).
Proof.
  unfold handle_message. cbv zeta.
  destruct (m_kind m); match goal with
    | |- respects _ (submit _ _ _ _ _) => apply tame_submit
    | |- respects _ (cancel _ _ _ _) => apply tame_cancel
    | |- respects _ (cancel_group _ _ _ _) => apply tame_cancel_group
    | |- respects _ (status _ _ _) => apply tame_status
    | |- respects _ (result_ack _ _) => apply tame_result_ack
    | |- respects _ (close_session _ _ _) => apply tame_close_session
    | |- respects _ (send_ _ _ _ _) => apply tame_send_
    | |- _ => repeat first [respects_step | apply tame_authorized | apply tame_send_]
    end.
Qed.

Lemma tame_reject_hello {A} c why msg : respects tame (reject_hello (A := A) cfg c why msg).
Proof. unfold reject_hello. tame_auto. apply tame_send_. Qed.
Lemma tame_handshake c hello peer sid :
  respects tame (handshake sha256_hex cfg c hello peer sid).
Proof.
  unfold handshake, check_compatible, open_session. cbv zeta. tame_auto;
    first [apply tame_reject_hello | apply tame_send_].
Qed.

Lemma tame_set_pc c pc : respects tame (set_pc c pc).
Proof. unfold set_pc. tame_auto. Qed.
Lemma tame_guarded c next m : respects tame m → respects tame (guarded c next m).
Proof.
  intros Hm s. unfold guarded. specialize (Hm s).
  destruct (m s) as [s' []]; (etransitivity; [exact Hm|apply tame_set_pc]).
Qed.
Lemma tame_report c e b : respects tame (connection_report cfg c e b).
Proof.
  unfold connection_report. tame_auto;
    first [apply tame_send_ | apply tame_flush_begin | apply tame_set_pc].
Qed.
Lemma tame_disconnect_one r : respects tame (disconnect_one repr_exn cfg r).
Proof.
  unfold disconnect_one. tame_auto;
    first [apply tame_withdraw | apply tame_terminal | apply tame_cancel_and_kill].
Qed.
Lemma tame_disconnect c : respects tame (connection_disconnect repr_exn cfg c).
Proof.
  unfold connection_disconnect, disconnect, update_connection_count. tame_auto;
    first [apply tame_close | apply tame_disconnect_one | apply tame_purge | apply tame_set_pc].
Qed.
Lemma tame_accept raw : respects tame (accept_connection cfg raw).
Proof. unfold accept_connection. cbv zeta. tame_auto. Qed.

Lemma tame_prepare raw tr : respects tame (prepare_connection cfg raw tr).
Proof.
  unfold prepare_connection, update_connection_count. respects_step; [tame_auto|].
  respects_step.
  { intros s. split; [split; [done|]|done]. intros H c. simpl. rewrite length_app. simpl.
    intros Hc. unfold con. simpl. destruct (Nat.lt_ge_cases c (length (br_conn_heap s))).
    - rewrite lookup_total_app_l by done. by apply H.
    - replace c with (length (br_conn_heap s)) by lia.
      rewrite list_lookup_total_middle by done. simpl. lia. }
  tame_auto; first [apply tame_close | apply tame_set_pc].
Qed.

Lemma tame_pool_claim f pid now : respects tame (pool_claim repr_exn cfg f pid now).
Proof. unfold pool_claim. tame_auto. apply tame_claim. Qed.
Lemma tame_shutdown_cancel_one r : respects tame (shutdown_cancel_one repr_exn cfg r).
Proof. unfold shutdown_cancel_one. tame_auto. apply tame_withdraw. Qed.
Lemma tame_shutdown_deadline_one r : respects tame (shutdown_deadline_one repr_exn cfg r).
Proof.
  unfold shutdown_deadline_one. tame_auto;
    first [apply tame_withdraw | apply tame_terminal | apply tame_cancel_and_kill].
Qed.

(** The events of the life cycle. *)
Definition life_event (e : event) : bool :=
  match e with
  | EvStart | EvInitBegin | EvInitPublish _ | EvInitCancelled | EvInitFailed
  | EvInitClosed
  | EvShutdown _ _ _ | EvShutdownTurn _ | EvCloseBound | EvShutdownEnd => true
  | _ => false
  end.

Lemma tame_exec e :
  life_event e = false → respects tame (exec sha256_hex repr_exn cfg e).
Proof.
  destruct e; try done; intros _; cbn [exec]; unfold ignore.
  all: first
    [ apply tame_prepare | apply tame_guarded, tame_handle_message | apply tame_disconnect
    | apply tame_writer_turn | apply tame_dispatch_turn | apply tame_run_callback
    | apply tame_pool_claim | apply tame_close | idtac ].
  all: unfold prepare_failed, connection_hello, connection_receive_error, connection_loop_exit,
    pool_notify_running, pool_finish, pool_cancel, pool_set_pid, shutdown_goaway, shutdown_flush.
  all: tame_auto;
    try first [ apply tame_accept | apply tame_report | apply tame_dispatch_submit
              | apply tame_dispatch_attach | apply tame_mark_cancelled | apply tame_flush_begin
              | apply tame_send_ | apply tame_set_pc ].
  all: apply tame_guarded; tame_auto; apply tame_handshake.
Qed.
End Frame.
