(* ===== verification/BrokerProps.v ===== *)
(** * BrokerProps: what holds of every run of the broker

    The theorems are about [reachable] states and the steps between them: the
    refinement of the abstract broker, the bounds on what the server keeps, the
    accounting of reservations, execution at most once and of the bytes that were
    submitted, finality of outcomes. The witnesses run one request from the
    handshake to the acknowledgement of its result. *)
From S2P Require Import Prelude Errors Futures StateErr Heapq PyVal PyInt Config Worker.
From S2P Require Import Protocol Reassembly Scheduler Terminal Broker BrokerStep BrokerInv.
From S2P Require Import BrokerRefine.
From S2P Require Import BrokerFrame.

(** ** A run *)
Module Demo.
#[export] Instance json : JsonText := {| json_text := λ _, py "{}"; json_value := λ _, Ok PNone |}.
#[export] Instance unicode : UnicodeData := ascii_data.

Definition sha (_ : bytes) : pystr := zeros 64.
Definition repr (_ : exn) : pystr := py "error".

Definition cfg : ServerConfig := {|
  cf_limits := default_remote_limits;
  cf_serializer_name := py "pickle";
  cf_serializer_protocol := PInt 5;
  cf_task_registry := [];
  cf_registry_fingerprint := None;
  cf_application_fingerprint := None;
  cf_authenticator := None;
  cf_authorizer := None;
  cf_disconnect_policy := CancelQueued;
  cf_server_id := py "server";
  cf_epoch := py "epoch";
  cf_uid := 1000;
  cf_python := (3, 13);
  cf_pool_statistics := [] |}.

Definition hello : Message := mkMessage HELLO (mkdict
  [("versions", PList [PList [PInt 1; PInt 0]]);
   ("client_instance_id", PStr (py "c"));
   ("serializer", PStr (py "pickle"));
   ("serializer_protocol", PInt 5);
   ("python", PList [PInt 3; PInt 13]);
   ("capabilities", PList [PStr (py "callable")]);
   ("max_result_bytes", PInt 1000);
   ("wire", PStr (py "w"));
   ("wire_limits", PDict (wire_limits default_remote_limits))]%string) [].

Definition invocation (id : string) : Message := mkMessage SUBMIT (mkdict
  [("request_id", PStr (py id));
   ("digest", PStr (zeros 64));
   ("mode", PStr (py "callable"))])%string [x01; x02].

(** The server is up and one client is connected. *)
Definition connected : list event :=
  [EvStart; EvInitBegin; EvInitPublish []; EvAccept 0; EvPrepare 0 Unix;
   EvHello 0 hello (Ok (mkPeer (Some 1000) None)) (py "session")].

(** Its request is accepted, given to the pool and claimed by a worker. *)
Definition accepted : list event := connected ++ [EvMessage 0 (invocation "c:1") fzero].
Definition submitted_ : list event :=
  accepted ++ [EvDispatch fzero; EvSubmit Submitted; EvAttach].
Definition claimed : list event := submitted_ ++ [EvClaim 0 77 fzero; EvNotifyRunning 0].

(** It ends and the client acknowledges the outcome. *)
Definition finished : list event :=
  claimed ++ [EvFinish 0 (OWorker (mkOutcome K_result [x05] None)); EvCallback 0].
Definition ack : event :=
  EvMessage 0 (mkMessage RESULT_ACK (mkdict [("request_id", PStr (py "c:1"))])%string []) fzero.

(** The floats 1.0 and 2.0. *)
Definition fone : pyfloat := match float_of_int 1 with Ok f => f | Err _ => fzero end.
Definition ftwo : pyfloat := match float_of_int 2 with Ok f => f | Err _ => fzero end.

Definition state_after (es : list event) : Broker :=
  default broker_init (run sha repr cfg broker_init es).

Definition completes (es : list event) : bool :=
  match run sha repr cfg broker_init es with Some _ => true | None => false end.

Lemma reached es : completes es = true → reachable sha repr cfg (state_after es).
Proof.
  unfold completes, state_after. destruct (run _ _ _ _ es) as [s|] eqn:E; [|done].
  intros _. exists es. by apply run_steps.
Qed.

Lemma cfg_limits_ok : limits_ok (cf_limits cfg).
Proof. apply default_limits_ok. Qed.
End Demo.

Section Props.
Context {J : JsonText} {U : UnicodeData} {HQ : HeapQ Z Z.le}.
Context (sha256_hex : bytes → pystr) (repr_exn : exn → pystr) (cfg : ServerConfig).
Notation limits := (cf_limits cfg).
Context (Hlim : limits_ok limits).
Notation micro := (micro sha256_hex cfg).
Notation Inv := (Inv sha256_hex cfg).
Notation broker_step := (broker_step sha256_hex repr_exn cfg).
Notation reachable := (reachable sha256_hex repr_exn cfg).

(** ** Helpers *)

Lemma reachable_inv s : reachable s → Inv s.
Proof. intros H. by eapply reachable_Inv. Qed.

Lemma jobs_records_NoDup s : Inv s → NoDup (jb_record <$> br_jobs s).
Proof.
  intros Hi. pose proof (inv_jobs _ _ _ Hi) as HJ. pose proof (jo_NoDup _ _ _ _ HJ) as Hn.
  pose proof (jo_jobs _ _ _ _ HJ) as Hj. induction (br_jobs s) as [|j l IH]; csimpl in *.
  - apply NoDup_nil_2.
  - apply NoDup_cons in Hn as [Hn1 Hn2]. apply NoDup_cons. split.
    + intros (j' & He & Hl)%list_elem_of_fmap. apply Hn1.
      destruct (Hj j) as [_ H1]; [by left|]. destruct (Hj j') as [_ H2]; [by right|].
      apply list_elem_of_fmap. exists j'. split; [|done]. rewrite He in H1. congruence.
    + apply IH; [done|]. intros j' Hl. apply Hj. by right.
Qed.

(** ** The abstract broker *)

(** C1: every critical section the code can execute is a sequence of the changes
    that the abstract broker [micro] allows, also when it ends in an exception. *)
Theorem broker_refines s e s' :
  reachable s → broker_step s e s' → rtc micro s s'.
Proof. intros H%reachable_inv. by apply step_micro. Qed.

(** ** What the server keeps is bounded *)

(** C7: the pending and retention limits of the configuration hold in every reachable
    state: records per session, per principal and in all, retained outcomes and
    reserved result bytes per session and in all. *)
Theorem capacity_bounded s :
  reachable s →
  Z.of_nat (length (br_requests s)) ≤ max_pending_global limits ∧
  br_reserved_outcomes s ≤ max_retained_outcomes_global limits ∧
  br_reserved_outcome_bytes s ≤ max_retained_outcome_bytes_global limits ∧
  (∀ p, principal_records s p ≤ max_pending_per_principal limits) ∧
  (∀ i, (i < length (br_session_heap s))%nat →
    Z.of_nat (length (ss_requests (ses s i))) ≤ max_pending_per_session limits ∧
    ss_reserved_outcomes (ses s i) ≤ max_retained_outcomes_per_session limits ∧
    ss_reserved_outcome_bytes (ses s i) ≤ max_retained_outcome_bytes_per_session limits).
Proof. intros H%reachable_inv. destruct (inv_bounds _ _ _ H). done. Qed.

(** C6: the reservation counters are exact. A session counts the records it owns and
    the result bytes they reserve; the server counts the records whose reservation is
    not released; and a reservation is only released once its request has ended. *)
Theorem reservations_exact s :
  reachable s →
  (∀ i, (i < length (br_session_heap s))%nat →
    ss_reserved_outcomes (ses s i) = Z.of_nat (length (ss_requests (ses s i))) ∧
    ss_reserved_outcome_bytes (ses s i)
    = zsum (λ kr, rq_reserved_result_bytes (req s kr.2)) (ss_requests (ses s i))) ∧
  br_reserved_outcomes s = zsum unreleased (br_request_heap s) ∧
  br_reserved_outcome_bytes s = zsum reserved_bytes (br_request_heap s) ∧
  (∀ r, (r < length (br_request_heap s))%nat → rq_reservation_released (req s r) = true →
    RequestState.terminal (rq_state (req s r)) = true).
Proof.
  intros H%reachable_inv. destruct (inv_accounts _ _ _ H) as [H1 H2 H3].
  split_and!; [done..|]. apply (inv_ends _ _ _ H).
Qed.

(** An accepted request that has not ended is in the dictionary of its session
    under its own ID, and the session's dictionary holds nothing but the session's own
    unreleased requests; within a session a request ID names one request. *)
Theorem session_owns_requests s i k r :
  reachable s → (i < length (br_session_heap s))%nat →
  (dict_get (ss_requests (ses s i)) k = Some r ↔
     (r < length (br_request_heap s))%nat ∧ rq_request_id (req s r) = k ∧
     rq_session_id (req s r) = ss_session_id (ses s i) ∧
     rq_reservation_released (req s r) = false) ∧
  (∀ r', (r < length (br_request_heap s))%nat → (r' < length (br_request_heap s))%nat →
     rq_session_id (req s r) = rq_session_id (req s r') →
     rq_request_id (req s r) = rq_request_id (req s r') → r = r').
Proof.
  intros H%reachable_inv Hi. pose proof (inv_tables _ _ _ H) as Ht. split.
  - by apply (tb_owned _ _ _ _ _ Ht).
  - intros r'. by apply (tb_unique _ _ _ _ _ Ht).
Qed.

(** C8: the dispatch queue holds exactly the requests that are queued and have no local
    future, each of them once. *)
Theorem queue_exact s :
  reachable s →
  NoDup (items (br_scheduler s)) ∧
  (∀ r, r ∈ items (br_scheduler s) ↔ (r < length (br_request_heap s))%nat ∧
     rq_state (req s r) = RequestState.ACCEPTED_QUEUED ∧ rq_local_future (req s r) = None).
Proof. intros H%reachable_inv. destruct (inv_queue _ _ _ H). done. Qed.

(** C3: a request is given to the pool at most once, and only a request the pool has can
    be running. *)
Theorem submitted_at_most_once s :
  reachable s →
  NoDup (jb_record <$> br_jobs s) ∧
  (∀ r, (r < length (br_request_heap s))%nat → rq_state (req s r) = RequestState.RUNNING →
     r ∈ jb_record <$> br_jobs s).
Proof.
  intros H%reachable_inv. split; [by apply jobs_records_NoDup|].
  apply (jo_running _ _ _ _ (inv_jobs _ _ _ H)).
Qed.

(** C9: the job the pool has for a request that has not ended carries the invocation the
    client sent (its bytes have the digest the server checked) with the request's mode,
    operation, limits and priority. *)
Theorem job_is_the_submission s j :
  reachable s → j ∈ br_jobs s →
  jb_mode j = rq_mode (req s (jb_record j)) ∧
  jb_operation j = rq_operation (req s (jb_record j)) ∧
  jb_max_result_bytes j = rq_max_result_bytes (req s (jb_record j)) ∧
  jb_timeout j = rq_execution_timeout (req s (jb_record j)) ∧
  jb_priority j = rq_priority (req s (jb_record j)) ∧
  (RequestState.terminal (rq_state (req s (jb_record j))) = false →
   sha256_hex (jb_payload j) = rq_digest (req s (jb_record j))).
Proof. intros H%reachable_inv. apply (pa_jobs _ _ _ (inv_payloads _ _ _ H)). Qed.

(** C2: outcomes are final. Once a request has ended, no later step of any thread
    changes its state or the message that answers it; what a client submitted never
    changes; and a claimed request never returns to the queue. *)
Theorem outcome_final s es s' r :
  reachable s → steps broker_step s es s' → (r < length (br_request_heap s))%nat →
  (r < length (br_request_heap s'))%nat ∧
  same_invocation (req s' r) (req s r) ∧
  (RequestState.terminal (rq_state (req s r)) = true →
     rq_state (req s' r) = rq_state (req s r) ∧
     rq_terminal_kind (req s' r) = rq_terminal_kind (req s r) ∧
     rq_terminal_control (req s' r) = rq_terminal_control (req s r)) ∧
  (rq_state (req s r) = RequestState.RUNNING →
     rq_state (req s' r) ≠ RequestState.ACCEPTED_QUEUED).
Proof.
  intros Hr Hs Hl.
  destruct (reachable_later sha256_hex repr_exn cfg Hlim s es s' Hr Hs) as [[H1 H2] _ _].
  destruct (H2 r Hl) as [(_ & _ & _ & _ & _ & ?) ? ?]. split_and!; [lia|done..].
Qed.

(** The statistics are exact: accepted tasks are the records created, terminal tasks
    the records that have ended (each is counted once), and every record that has ended
    has the kind of its answer. *)
Theorem statistics_exact s :
  reachable s →
  tasks_accepted (br_statistics s) = Z.of_nat (length (br_request_heap s)) ∧
  tasks_terminal (br_statistics s) = zsum ended (br_request_heap s) ∧
  (∀ r, (r < length (br_request_heap s))%nat →
     RequestState.terminal (rq_state (req s r)) = true → is_Some (rq_terminal_kind (req s r))).
Proof. intros H%reachable_inv. destruct (inv_ends _ _ _ H). done. Qed.

(** ** Claims *)

Lemma send__ok c k ctl s : (send_ cfg c k ctl s).2 = Ok tt.
Proof.
  unfold send_, send, close, put_nowait, mbind, ST_bind. simpl.
  repeat case_match; simplify_eq/=; repeat case_match; simplify_eq/=; done.
Qed.

Lemma cancel_future_ok f s : (cancel_future repr_exn cfg f s).2 = Ok tt.
Proof.
  unfold cancel_future, mark_cancelled, run_callback, mbind, ST_bind. simpl.
  repeat case_match; simplify_eq/=; repeat case_match; simplify_eq/=; done.
Qed.

Lemma cancel_local_ok r s : (cancel_local repr_exn cfg r s).2 = Ok tt.
Proof.
  unfold cancel_local. rewrite run_gets.
  destruct (rq_local_future _); [apply cancel_future_ok|done].
Qed.

Lemma send_ok c k ctl p s : ∃ b, (send cfg c k ctl p s).2 = Ok b.
Proof.
  unfold send, close, put_nowait, mbind, ST_bind. simpl.
  repeat case_match; simplify_eq/=; repeat case_match; simplify_eq/=; eauto.
Qed.

Lemma terminal_locked_ok r st k ctl p s : (terminal_locked cfg r st k ctl p s).2 = Ok tt.
Proof.
  unfold terminal_locked. rewrite run_gets. case_match; [done|]. run_st.
  unfold mbind, ST_bind.
  match goal with |- context [send _ ?c ?k' ?ctl' ?p' ?s'] =>
    destruct (send_ok c k' ctl' p' s') as [b Hb]; destruct (send cfg c k' ctl' p' s') end.
  simpl in Hb. by subst.
Qed.

Lemma terminal_locked_ended r st k ctl p s :
  RequestState.terminal st = true → (r < length (br_request_heap s))%nat →
  RequestState.terminal (rq_state (req (terminal_locked cfg r st k ctl p s).1 r)) = true.
Proof.
  intros Hst Hr. destruct (RequestState.terminal (rq_state (req s r))) eqn:E.
  - unfold terminal_locked. by rewrite run_gets, E.
  - destruct (terminal_run cfg s r st k ctl p E) as (p' & c' & ->).
    destruct (outside_send cfg (rq_connection (req s r)) k c' p' (terminated s r st k ctl p))
      as [Hc _]. unfold req, terminated in *.
    injection Hc as _ _ _ _ _ _ -> _ _ _ _ _ _. cbn [br_request_heap].
    by rewrite list_lookup_total_alter, decide_True.
Qed.

(** The publication of a claim keeps the request's state and returns true. *)
Lemma publish_spec r pid s :
  let m := rec ← gets (λ s, req s r);
    _ ← match rq_local_future rec with
        | Some f => upd_fut f (λ x, {| x with lf_pid := Some pid |})
        | None => skip
        end;
    _ ← send_ cfg (rq_connection rec) RUNNING_
          (mkdict [("request_id", PStr (rq_request_id rec)); ("pid", PInt pid);
                   ("worker_id", PStr (py "worker:" ++ str_of_int pid))]%string);
    mret true in
  ∃ s', m s = (s', Ok true) ∧ req s' r = req s r.
Proof.
  intros m. unfold m. rewrite run_gets.
  set (m1 := match rq_local_future (req s r) with Some _ => _ | None => _ end).
  assert (H1 : (m1 s).2 = Ok tt ∧ req (m1 s).1 r = req s r)
    by (unfold m1; destruct (rq_local_future _); done).
  unfold mbind at 1, ST_bind at 1. destruct (m1 s) as [s1 r1]. simpl in H1.
  destruct H1 as [-> H1].
  match goal with |- context [send_ _ ?c ?k ?ctl] =>
    pose proof (send__ok c k ctl s1) as Hok; destruct (outside_send_ cfg c k ctl s1) as [Hc _];
    unfold mbind, ST_bind; destruct (send_ cfg c k ctl s1) as [s2 r2] end.
  simpl in Hok, Hc. subst r2. exists s2. split; [done|]. rewrite <- H1. unfold req.
  by injection Hc as _ _ _ _ _ _ -> _ _ _ _ _ _.
Qed.

(** The claim arbitrates between execution, cancellation and expiry. A worker that
    reports a request the pool has gets [True] exactly when the request is running or is
    queued before its deadline, and the request is then running; otherwise it gets
    [False] and the request has ended, so that it is never executed. The claim does not
    raise. *)
Lemma claim_arbitrates s r pid now :
  reachable s → r ∈ jb_record <$> br_jobs s →
  let may_run := match rq_state (req s r) with
                 | RequestState.RUNNING => true
                 | RequestState.ACCEPTED_QUEUED => negb (reached now (rq_queue_deadline (req s r)))
                 | _ => false
                 end in
  let (s', result) := claim_dispatch repr_exn cfg r pid now s in
  result = Ok may_run ∧
  if may_run then rq_state (req s' r) = RequestState.RUNNING
  else RequestState.terminal (rq_state (req s' r)) = true.
Proof.
  intros Hre Hj may_run. pose proof (reachable_inv s Hre) as Hi.
  destruct (claimed_outside s r (inv_queue _ _ _ Hi) (inv_jobs _ _ _ Hi) Hj) as (Hr & Hf).
  unfold claim_dispatch. rewrite run_gets. unfold may_run. clear may_run.
  set (publish := (rec ← gets (λ s, req s r); _)).
  assert (Hpub : ∀ s1, ∃ s2, publish s1 = (s2, Ok true) ∧ req s2 r = req s1 r)
    by (intros s1; apply (publish_spec r pid s1)).
  destruct (rq_state (req s r)) eqn:E; try (simpl; rewrite E; done).
  - destruct (reached now (rq_queue_deadline (req s r))) eqn:Ed; simpl.
    + pose proof (terminal_locked_ok r RequestState.QUEUE_TIMED_OUT QUEUE_TIMED_OUT_
        (reason "queue_timeout") [] s) as H1.
      pose proof (terminal_locked_ended r RequestState.QUEUE_TIMED_OUT QUEUE_TIMED_OUT_
        (reason "queue_timeout") [] s eq_refl Hr) as H2.
      assert (Hrt : rtc micro s (terminal_locked cfg r RequestState.QUEUE_TIMED_OUT
        QUEUE_TIMED_OUT_ (reason "queue_timeout") [] s).1).
      { by apply refines_terminal. }
      unfold mbind at 1, ST_bind at 1.
      destruct (terminal_locked cfg r RequestState.QUEUE_TIMED_OUT QUEUE_TIMED_OUT_
        (reason "queue_timeout") [] s) as [s1 r1]. simpl in *. subst r1.
      pose proof (cancel_local_ok r s1) as H3.
      assert (Hi1 : Inv s1) by (by eapply Inv_rtc).
      pose proof (refines_cancel_local sha256_hex repr_exn cfg Hlim (λ _, True) r s1 Hi1 I) as H4.
      unfold mbind, ST_bind. destruct (cancel_local repr_exn cfg r s1) as [s2 r2]. simpl in *.
      subst r2. split; [done|]. apply rtc_later in H4. destruct H4 as [[_ H4] _ _].
      apply rtc_later in Hrt. destruct Hrt as [[Hlen _] _ _].
      destruct (H4 r) as [_ He _]; [lia|]. by destruct (He H2) as [-> _].
    + run_st. match goal with |- context [publish ?s1] => destruct (Hpub s1) as (s2 & -> & H2) end.
      split; [done|].
      rewrite H2. unfold req, set_req, set_stats. cbn [br_request_heap].
      by rewrite list_lookup_total_alter, decide_True.
  - simpl. destruct (Hpub s) as (s2 & -> & H2).
    split; [done|]. by rewrite H2.
Qed.

(** ** Repeated requests *)

(** C5: submitting is idempotent. When a session submits a request ID that any of its
    requests ever had, acknowledged and forgotten ones included, nothing of the tables,
    the queue, the records or the jobs changes, whatever the message and the outcome:
    the server only answers. *)
Theorem resubmission_idempotent s c i r m now id :
  reachable s → cn_session (con s c) = Some i →
  (r < length (br_request_heap s))%nat →
  rq_session_id (req s r) = ss_session_id (ses s i) →
  get (m_control m) "request_id" = PStr id → rq_request_id (req s r) = id →
  core (submit sha256_hex cfg c m now s).1 = core s.
Proof.
  intros Hre Hc Hr Hs Hg Hid. pose proof (reachable_inv s Hre) as Hi.
  assert (Hl : (i < length (br_session_heap s))%nat) by (by eapply inv_conns).
  assert (Hout : ∀ A (m : M A) s1, respects outside m → core s1 = core s → core (m s1).1 = core s).
  { intros A m' s1 H H'. destruct (H s1) as [-> _]. done. }
  unfold submit. rewrite run_gets, Hc. cbv zeta. rewrite run_assoc || idtac.
  unfold upd_stats. rewrite run_modify, run_gets, Hg.
  set (s1 := set_stats _ s).
  assert (Hc1 : core s1 = core s) by done.
  case_match; [done|].
  match goal with |- context [lift ?x] => destruct x as [n|e] eqn:Ep; [|done] end.
  apply parse_sequence in Ep.
  unfold mbind at 1, ST_bind at 1, lift at 1.
  case_match; [done|]. rewrite run_gets.
  destruct (dict_get (ss_requests (ses s1 i)) id) as [r'|] eqn:Ed.
  - rewrite run_gets. match goal with |- context [if ?b then _ else _] => destruct b end; [done|].
    apply Hout; [apply outside_send_record|done].
  - rewrite run_gets.
    destruct (inv_sequences _ _ _ Hi i r Hl Hr Hs) as (n' & Hn' & Hle).
    rewrite Hid, Ep in Hn'. injection Hn' as <-.
    change (ses s1 i) with (ses s i). rewrite (proj2 (Z.leb_le _ _) Hle).
    apply Hout; [apply outside_reject|done].
Qed.

(** ** The life cycle *)

Lemma queue_limit_positive : 0 < outbound_queue_size limits.
Proof.
  destruct Hlim as [Hpos _ _ _ _ _ _ _ _ _].
  repeat (apply Forall_cons in Hpos as [? Hpos]). lia.
Qed.

(** The order of the states of the server. *)
Definition rank (st : ServerState.t) : Z :=
  match st with
  | ServerState.CREATED => 0 | ServerState.STARTING => 1 | ServerState.RUNNING => 2
  | ServerState.DRAINING => 3 | ServerState.STOPPING => 4 | ServerState.STOPPED => 5
  end.

Definition advances (s s' : Broker) : Prop :=
  rank (br_state s) ≤ rank (br_state s') ∧
  (outbound_ok cfg s → outbound_ok cfg s') ∧
  (rank ServerState.RUNNING < rank (br_state s) →
   length (br_request_heap s') = length (br_request_heap s)).

#[local] Instance advances_preorder : PreOrder advances.
Proof.
  split; [done|]. intros s s' s'' (H1 & H2 & H3) (K1 & K2 & K3).
  split_and!; [lia|auto|]. intros H. rewrite K3, H3; [done|done|lia].
Qed.

Lemma tame_advances s s' : tame cfg s s' → advances s s'.
Proof.
  intros [[H1 H2] H3]. split_and!; [by rewrite (life_state _ _ H1)|done|].
  intros Hr. apply H3. intros He. rewrite He in Hr. by apply Z.lt_irrefl in Hr.
Qed.

(** A change that only moves the life cycle forward. *)
Lemma forward_advances s s' :
  rank (br_state s) ≤ rank (br_state s') → br_conn_heap s' = br_conn_heap s →
  br_request_heap s' = br_request_heap s → advances s s'.
Proof.
  intros H1 H2 H3. split_and!; [done| |by rewrite H3]. unfold outbound_ok, con. by rewrite H2.
Qed.

Lemma shutdown_turn_advances now s :
  br_state s = ServerState.DRAINING →
  advances s (finish_shutdown_turn repr_exn cfg now s).1.
Proof.
  intros Hs. unfold finish_shutdown_turn. rewrite run_gets. unfold id.
  assert (Hset : ∀ s1, br_state s1 = ServerState.DRAINING →
    advances s1 (set_state ServerState.STOPPING s1).1)
    by (intros s1 H1; apply forward_advances; [by rewrite H1|done..]).
  destruct (all_terminal s); [by apply Hset|].
  assert (Hcancel : ∀ s1, br_shutdown_cancel_futures s1 = br_shutdown_cancel_futures s1 →
    respects (tame cfg) (if br_shutdown_cancel_futures s1
       then for_each (br_requests s1).*2 (shutdown_cancel_one repr_exn cfg) else skip)).
  { intros s1 _. destruct (br_shutdown_cancel_futures s1); [|apply respects_skip; typeclasses eauto].
    apply respects_for_each; [typeclasses eauto|]. intros r.
    apply tame_shutdown_cancel_one, queue_limit_positive. }
  specialize (Hcancel s eq_refl s).
  unfold mbind at 1, ST_bind at 1.
  destruct ((if br_shutdown_cancel_futures s then _ else skip) s) as [s1 [u|e]] eqn:E1;
    simpl in Hcancel; [|by apply tame_advances].
  etransitivity; [by apply tame_advances|].
  assert (Hs1 : br_state s1 = ServerState.DRAINING).
  { destruct Hcancel as [[Hl _] _]. by rewrite (life_state _ _ Hl). }
  rewrite run_gets. destruct (reached now _); [|reflexivity].
  assert (Hdl : respects (tame cfg)
    (for_each (br_requests s1).*2 (shutdown_deadline_one repr_exn cfg))).
  { apply respects_for_each; [typeclasses eauto|]. intros r.
    apply tame_shutdown_deadline_one, queue_limit_positive. }
  specialize (Hdl s1). unfold mbind, ST_bind.
  destruct (for_each _ _ s1) as [s2 [u'|e]]; simpl in Hdl; [|by apply tame_advances].
  etransitivity; [by apply tame_advances|]. apply Hset.
  destruct Hdl as [[Hl _] _]. by rewrite (life_state _ _ Hl).
Qed.

Lemma step_advances s e s' : broker_step s e s' → advances s s'.
Proof.
  intros [He <-]. destruct (life_event e) eqn:El.
  2: { apply tame_advances. by apply tame_exec; [apply queue_limit_positive|]. }
  destruct e; try done; cbn [exec enabled] in *.
  - unfold ignore, start_begin. run_st. unfold id.
    destruct (br_state s) eqn:E; simpl; apply forward_advances; simpl; rewrite ?E; done.
  - unfold ignore, initialize_begin. run_st. unfold id.
    destruct (br_state s) eqn:E; simpl; apply forward_advances; simpl; rewrite ?E; done.
  - unfold ignore, initialize_publish. run_st. unfold id.
    destruct (br_state s) eqn:E; simpl; apply forward_advances; simpl; rewrite ?E; done.
  - apply forward_advances; [|done..]. simpl. by destruct (br_state s).
  - apply forward_advances; [|done..]. simpl. by destruct (br_state s).
  - unfold ignore, shutdown. rewrite run_assoc.
    destruct (validate_shutdown_deadline _) as [v|e]; [|reflexivity].
    unfold mbind at 1, ST_bind at 1, lift at 1. cbv zeta. rewrite run_assoc, run_gets. unfold id.
    destruct (br_state s) eqn:E; try (apply forward_advances; simpl; rewrite ?E; done).
    + simpl. destruct (br_ready s); apply forward_advances; simpl; rewrite ?E; done.
  - apply andb_true_iff in He as [_ He]. apply bool_decide_eq_true in He.
    by apply shutdown_turn_advances.
  - apply forward_advances; [|done..]. simpl. by destruct (br_state s).
Qed.

Lemma steps_advances s es s' : steps broker_step s es s' → advances s s'.
Proof.
  apply (steps_preorder _ advances). intros ? ? ?. apply step_advances.
Qed.

(** The life cycle never goes back. Whatever the threads do, the state of the
    server only moves along CREATED, STARTING, RUNNING, DRAINING, STOPPING, STOPPED. *)
Theorem lifecycle_monotone s es s' :
  steps broker_step s es s' → rank (br_state s) ≤ rank (br_state s').
Proof. intros H. apply (steps_advances _ _ _ H). Qed.

(** Once the server drains it accepts nothing: from then on no request record is ever
    created and the count of accepted tasks stands still. *)
Theorem draining_accepts_nothing s es s' :
  reachable s → rank ServerState.RUNNING < rank (br_state s) →
  steps broker_step s es s' →
  length (br_request_heap s') = length (br_request_heap s) ∧
  tasks_accepted (br_statistics s') = tasks_accepted (br_statistics s).
Proof.
  intros Hre Hr Hs. destruct (steps_advances _ _ _ Hs) as (_ & _ & H). specialize (H Hr).
  split; [done|]. pose proof (reachable_inv s Hre) as Hi.
  assert (Hi' : Inv s') by (eapply Inv_rtc; [done|exact Hi|by eapply steps_micro]).
  by rewrite (en_accepted _ (inv_ends _ _ _ Hi)), (en_accepted _ (inv_ends _ _ _ Hi')), H.
Qed.

(** No slow client makes the server keep more than [outbound_queue_size] unsent
    messages for its connection. *)
Theorem outbound_bounded s :
  reachable s → ∀ c, (c < length (br_conn_heap s))%nat →
  Z.of_nat (length (cn_outbound (con s c))) ≤ outbound_queue_size limits.
Proof.
  intros [es Hs]. destruct (steps_advances _ _ _ Hs) as (_ & H & _). apply H.
  intros c Hc. simpl in Hc. lia.
Qed.

(** ** Loops over the requests *)

(** A loop whose body establishes a lasting condition establishes it for all. *)
Lemma for_each_all (f : nat → ST Broker unit) (C : Broker → Prop) (Q : nat → Broker → Prop) l s :
  (∀ r s, r ∈ l → Inv s → has_request r s → C s →
     (f r s).2 = Ok tt ∧ rtc micro s (f r s).1 ∧ C (f r s).1 ∧ Q r (f r s).1) →
  (∀ r s s', has_request r s → later s s' → Q r s → Q r s') →
  Inv s → have_requests l s → C s →
  (for_each l f s).2 = Ok tt ∧ rtc micro s (for_each l f s).1 ∧ C (for_each l f s).1 ∧
  ∀ r, r ∈ l → Q r (for_each l f s).1.
Proof.
  intros Hf HQ'. revert s. induction l as [|r l IH]; intros s Hi Hh Hc.
  - split_and!; [done|done|done|]. intros r Hr. by apply elem_of_nil in Hr.
  - cbn [for_each]. unfold mbind, ST_bind.
    destruct (Hf r s ltac:(left) Hi) as (H1 & H2 & H3 & H4); [apply Hh; left|done|].
    destruct (f r s) as [s1 r1]. simpl in H1, H2, H3, H4. subst r1.
    pose proof (rtc_later _ _ _ _ H2) as Hl.
    destruct (IH ltac:(intros; apply Hf; [by right|done..]) s1) as (K1 & K2 & K3 & K4).
    + by eapply Inv_rtc.
    + intros r' Hr'. eapply stable_has_request; [done|]. apply Hh. by right.
    + done.
    + split_and!; [done|by etrans|done|]. intros r' [->|Hr']%elem_of_cons; [|by apply K4].
      eapply HQ'; [|by eapply rtc_later|exact H4].
      eapply stable_has_request; [done|]. apply Hh. left.
Qed.

Lemma ended_later r s s' :
  has_request r s → later s s' → RequestState.terminal (rq_state (req s r)) = true →
  RequestState.terminal (rq_state (req s' r)) = true.
Proof.
  intros Hr [[_ H] _ _] Ht. destruct (H r Hr) as [_ He _]. by destruct (He Ht) as [-> _].
Qed.

Lemma cancel_and_kill_ok f s : (cancel_and_kill repr_exn cfg f s).2 = Ok tt.
Proof.
  unfold cancel_and_kill. pose proof (cancel_future_ok f s) as H. unfold mbind, ST_bind.
  destruct (cancel_future repr_exn cfg f s) as [s1 r1]. simpl in *. subst r1.
  destruct (lf_pid (fut s1 f)) as [pid|]; [|done]. by destruct (pid =? 0).
Qed.

(** Withdrawing a queued request ends it. *)
Lemma withdraw_spec r st k text s :
  RequestState.terminal st = true → Inv s → queued r s →
  (withdraw repr_exn cfg r st k text s).2 = Ok tt ∧
  rtc micro s (withdraw repr_exn cfg r st k text s).1 ∧
  RequestState.terminal (rq_state (req (withdraw repr_exn cfg r st k text s).1 r)) = true.
Proof.
  intros Hst Hi Hq. pose proof (refines_withdraw sha256_hex repr_exn cfg Hlim r st k text Hst s Hi Hq)
    as Hm.
  destruct (remove_total (br_scheduler s) r (qu_wf _ _ (inv_queue _ _ _ Hi))) as (b & sch & E).
  revert Hm. unfold withdraw, scheduler_remove. rewrite run_assoc, run_gets, run_assoc, E.
  change ((lift (Ok (b, sch)) ≫= _) s) with
    ((_ ← terminal_locked cfg r st k (reason text) []; cancel_local repr_exn cfg r)
       (set_scheduler (λ _, sch) s)).
  set (s1 := set_scheduler (λ _, sch) s).
  pose proof (terminal_locked_ok r st k (reason text) [] s1) as H1.
  pose proof (terminal_locked_ended r st k (reason text) [] s1 Hst (proj1 Hq)) as H2.
  pose proof (tame_terminal cfg queue_limit_positive r st k (reason text) [] s1) as H0.
  unfold mbind, ST_bind.
  assert (Hrt : rtc micro s (terminal_locked cfg r st k (reason text) [] s1).1).
  { destruct (terminal_run cfg s1 r st k (reason text) []) as (p' & c' & ->).
    { change (req s1 r) with (req s r). by rewrite (proj2 Hq). }
    eapply rtc_l; [by eapply (mu_withdraw _ _ s r st k (reason text) [] b sch);
                   [apply Hq|apply Hq|..]|].
    apply (mic_outside sha256_hex cfg), outside_send. }
  destruct (terminal_locked cfg r st k (reason text) [] s1) as [s2 r2]. simpl in *. subst r2.
  intros Hm. pose proof (cancel_local_ok r s2) as H3.
  pose proof (refines_cancel_local sha256_hex repr_exn cfg Hlim (λ _, True) r s2
    (Inv_rtc _ _ _ _ Hlim Hi Hrt) I) as H4.
  split_and!; [done|done|]. eapply ended_later; [|by eapply rtc_later|done].
  eapply stable_has_request; [by eapply rtc_later|]. apply Hq.
Qed.

(** A running request that is ended has the same fate. *)
Lemma end_running_spec r text f s :
  Inv s → has_request r s → rq_state (req s r) = RequestState.RUNNING →
  let m := _ ← terminal_locked cfg r RequestState.CANCELLED CANCELLED_ (reason text) [];
           cancel_and_kill repr_exn cfg f in
  (m s).2 = Ok tt ∧ rtc micro s (m s).1 ∧
  RequestState.terminal (rq_state (req (m s).1 r)) = true.
Proof.
  intros Hi Hr Hs m. unfold m.
  assert (Hu : unqueued r s) by (apply (terminal_unqueued sha256_hex cfg); [done|done|congruence]).
  pose proof (terminal_locked_ok r RequestState.CANCELLED CANCELLED_ (reason text) [] s) as H1.
  pose proof (terminal_locked_ended r RequestState.CANCELLED CANCELLED_ (reason text) [] s
    eq_refl Hr) as H2.
  pose proof (refines_terminal sha256_hex cfg r RequestState.CANCELLED CANCELLED_ (reason text) []
    eq_refl s Hi Hu) as Hrt.
  unfold mbind, ST_bind.
  destruct (terminal_locked cfg r RequestState.CANCELLED CANCELLED_ (reason text) [] s) as [s2 r2].
  simpl in *. subst r2.
  pose proof (refines_cancel_and_kill sha256_hex repr_exn cfg Hlim (λ _, True) f s2
    (Inv_rtc _ _ _ _ Hlim Hi Hrt) I) as H4.
  split_and!; [apply cancel_and_kill_ok|by etrans|].
  eapply ended_later; [|by eapply rtc_later|done].
  eapply stable_has_request; [by eapply rtc_later|]. done.
Qed.

(** ** Expiry, dispatch and shutdown *)

Definition overdue (now : pyfloat) (r : nat) (s : Broker) : Prop :=
  rq_state (req s r) = RequestState.ACCEPTED_QUEUED ∧
  reached now (rq_queue_deadline (req s r)) = true.

Lemma not_overdue_later now r s s' :
  has_request r s → later s s' → ¬ overdue now r s → ¬ overdue now r s'.
Proof.
  intros Hr [[_ H] _ _] Hn [Hs Hd]. destruct (H r Hr) as [(_ & _ & _ & _ & Hq & _) He Hrun].
  apply Hn. split; [|congruence].
  destruct (rq_state (req s r)) eqn:E; try done; [by destruct Hrun|..];
    (destruct (He eq_refl) as [He1 _]; rewrite He1 in Hs; discriminate Hs).
Qed.

Lemma expire_spec now s :
  Inv s →
  (expire_queued_locked repr_exn cfg now s).2 = Ok tt ∧
  rtc micro s (expire_queued_locked repr_exn cfg now s).1 ∧
  ∀ r, r ∈ (br_requests s).*2 → ¬ overdue now r (expire_queued_locked repr_exn cfg now s).1.
Proof.
  intros Hi. unfold expire_queued_locked. rewrite run_gets.
  match goal with |- context [for_each ?l ?f] =>
    destruct (for_each_all f (λ _, True) (λ r s, ¬ overdue now r s) l s) as (H1 & H2 & _ & H3) end;
    [|apply not_overdue_later|done|by apply (listed_have_requests sha256_hex cfg)|done|].
  - intros r s1 Hr Hi1 Hh _. rewrite run_gets.
    destruct (bool_decide _ && _) eqn:E.
    + apply andb_true_iff in E as [Hq _]. apply bool_decide_eq_true in Hq.
      destruct (withdraw_spec r RequestState.QUEUE_TIMED_OUT QUEUE_TIMED_OUT_ "queue_timeout" s1
        eq_refl Hi1 (conj Hh Hq)) as (K1 & K2 & K3).
      split_and!; [done..|]. intros [Hs _]. by rewrite Hs in K3.
    + split_and!; [done..|]. intros [Hs Hd]. simpl in Hs, Hd. rewrite Hs, Hd in E. done.
  - done.
Qed.

(** The expiry pass is complete. It does not raise, and afterwards no request in the
    table waits in the queue past its deadline. *)
Theorem expiry_complete s now :
  reachable s →
  (expire_queued_locked repr_exn cfg now s).2 = Ok tt ∧
  ∀ r, r ∈ (br_requests s).*2 → ¬ overdue now r (expire_queued_locked repr_exn cfg now s).1.
Proof. intros H%reachable_inv. by destruct (expire_spec now s H) as (? & _ & ?). Qed.

(** The dispatcher makes progress. When the server runs or drains, work is queued and
    the pool has room for a staged task, a turn takes out the request that the scheduler
    serves first, which is queued, gives it a new local future and goes on to submit it. *)
Theorem dispatch_progress s now :
  reachable s →
  let s1 := (expire_queued_locked repr_exn cfg now s).1 in
  br_state s = ServerState.RUNNING ∨ br_state s = ServerState.DRAINING →
  items (br_scheduler s1) ≠ [] →
  br_staged s1 < max_staged_tasks limits →
  ∃ r sch, Scheduler.pop (br_scheduler s1) = Ok (r, sch) ∧
    rq_state (req s1 r) = RequestState.ACCEPTED_QUEUED ∧
    let s' := (dispatch_turn repr_exn cfg now s).1 in
    br_dispatcher s' = DSubmitting r (length (br_future_heap s1)) ∧
    br_scheduler s' = sch ∧ br_staged s' = br_staged s1 + 1 ∧
    rq_local_future (req s' r) = Some (length (br_future_heap s1)).
Proof.
  intros Hre s1 Hst Hne Hroom. pose proof (reachable_inv s Hre) as Hi.
  destruct (expire_spec now s Hi) as (H1 & H2 & _).
  pose proof (tame_expire repr_exn cfg queue_limit_positive now s) as Ht.
  assert (Hi1 : Inv s1) by (by eapply Inv_rtc).
  pose proof (inv_queue _ _ _ Hi1) as HQ1. pose proof (qu_wf _ _ HQ1) as Hwf.
  destruct (pop_spec (br_scheduler s1) Hwf Hne) as (pr & p & r & q & rg & sch & _ & _ & Hpop & _).
  exists r, sch. split; [done|].
  destruct (pop_Ok _ _ _ Hwf Hpop) as (_ & Hp & _).
  assert (Hr : r ∈ items (br_scheduler s1)) by (rewrite Hp; left).
  apply (qu_items _ _ HQ1) in Hr as (Hl & Hq & _). split; [done|].
  assert (Hst1 : br_state s1 = br_state s) by (destruct Ht as [[Hl' _] _]; by apply life_state).
  assert (Hrun : (dispatch_turn repr_exn cfg now s).1 = popped s1 r sch).
  { unfold dispatch_turn, mbind at 1, ST_bind at 1.
    unfold s1 in *. destruct (expire_queued_locked repr_exn cfg now s) as [s2 r2]. simpl in *.
    subst r2. rewrite run_gets. unfold id.
    assert (Htruthy : truthy (br_scheduler s2) = true).
    { unfold truthy. rewrite (wf_size _ Hwf). by destruct (items (br_scheduler s2)). }
    rewrite Htruthy. rewrite Z.geb_leb, (proj2 (Z.leb_gt _ _) Hroom).
    replace (bool_decide (br_state s2 ∈ [ServerState.RUNNING; ServerState.DRAINING])) with true
      by (rewrite Hst1; destruct Hst as [-> | ->]; reflexivity).
    replace (bool_decide (br_state s2 ∈ [ServerState.STOPPING; ServerState.STOPPED])) with false
      by (rewrite Hst1; destruct Hst as [-> | ->]; reflexivity).
    simpl. rewrite Hpop. rewrite run_modify, run_gets.
    change (req (set_scheduler (λ _, sch) s2) r) with (req s2 r).
    rewrite bool_decide_false by (intros Hn; by apply Hn). run_st. apply popped_eq. }
  cbv zeta. rewrite Hrun. unfold popped.
  cbn [br_dispatcher br_scheduler br_staged]. split_and!; [done..|].
  unfold req. cbn [br_request_heap]. by rewrite list_lookup_total_alter, decide_True.
Qed.

Lemma shutdown_deadline_one_spec r s :
  Inv s → has_request r s →
  (shutdown_deadline_one repr_exn cfg r s).2 = Ok tt ∧
  rtc micro s (shutdown_deadline_one repr_exn cfg r s).1 ∧
  RequestState.terminal (rq_state (req (shutdown_deadline_one repr_exn cfg r s).1 r)) = true.
Proof.
  intros Hi Hr. unfold shutdown_deadline_one. rewrite run_gets.
  destruct (rq_state (req s r)) eqn:E; try (split_and!; [done|done|simpl; by rewrite E]).
  - by apply withdraw_spec.
  - pose proof (inv_jobs _ _ _ Hi) as HJ.
    pose proof (jo_running _ _ _ _ HJ r Hr E) as (j & -> & Hj)%list_elem_of_fmap.
    destruct (jo_jobs _ _ _ _ HJ j Hj) as [_ Hf].
    change (rq_local_future (req s (jb_record j)) = Some (jb_future j)) in Hf. rewrite Hf.
    by apply end_running_spec.
Qed.

Lemma shutdown_cancel_one_spec r s :
  Inv s → has_request r s →
  (shutdown_cancel_one repr_exn cfg r s).2 = Ok tt ∧
  rtc micro s (shutdown_cancel_one repr_exn cfg r s).1 ∧
  rq_state (req (shutdown_cancel_one repr_exn cfg r s).1 r) ≠ RequestState.ACCEPTED_QUEUED.
Proof.
  intros Hi Hr. unfold shutdown_cancel_one. rewrite run_gets. case_bool_decide as Hq; [|done].
  destruct (withdraw_spec r RequestState.CANCELLED CANCELLED_ "server_shutdown" s eq_refl Hi
    (conj Hr Hq)) as (K1 & K2 & K3).
  split_and!; [done..|]. intros Hs. by rewrite Hs in K3.
Qed.

Lemma shutdown_cancel_spec s :
  Inv s →
  let m := if br_shutdown_cancel_futures s
           then for_each (br_requests s).*2 (shutdown_cancel_one repr_exn cfg) else skip in
  (m s).2 = Ok tt ∧ rtc micro s (m s).1.
Proof.
  intros Hi m. unfold m. destruct (br_shutdown_cancel_futures s); [|done].
  destruct (for_each_all (shutdown_cancel_one repr_exn cfg) (λ _, True) (λ _ _, True)
    (br_requests s).*2 s) as (H1 & H2 & _); [|done|done|by apply (listed_have_requests sha256_hex cfg)
    |done|done].
  intros r s1 _ Hi1 Hr _. by destruct (shutdown_cancel_one_spec r s1 Hi1 Hr) as (? & ? & _).
Qed.

(** Shutdown ends. When the deadline given to [shutdown] has passed, the next turn of
    the shutdown thread does not raise, leaves every request in the table ended and moves
    the server to STOPPING. *)
Theorem shutdown_deadline_ends s now :
  reachable s → br_state s = ServerState.DRAINING →
  reached now (br_shutdown_deadline_at s) = true →
  let (s', result) := finish_shutdown_turn repr_exn cfg now s in
  result = Ok tt ∧ br_state s' = ServerState.STOPPING ∧
  (∀ r, r ∈ (br_requests s').*2 → RequestState.terminal (rq_state (req s' r)) = true).
Proof.
  intros Hre Hst Hd. pose proof (reachable_inv s Hre) as Hi.
  unfold finish_shutdown_turn. rewrite run_gets. unfold id.
  destruct (all_terminal s) eqn:Ea.
  { simpl. split_and!; [done..|]. intros r Hr. unfold all_terminal in Ea.
    rewrite forallb_forall in Ea. apply (Ea r). by apply list_elem_of_In. }
  destruct (shutdown_cancel_spec s Hi) as [H1 H2].
  assert (Ht : respects (tame cfg) (if br_shutdown_cancel_futures s
       then for_each (br_requests s).*2 (shutdown_cancel_one repr_exn cfg) else skip)).
  { destruct (br_shutdown_cancel_futures s); [|apply respects_skip; typeclasses eauto].
    apply respects_for_each; [typeclasses eauto|]. intros r.
    apply tame_shutdown_cancel_one, queue_limit_positive. }
  specialize (Ht s). unfold mbind at 1, ST_bind at 1.
  destruct ((if br_shutdown_cancel_futures s then _ else skip) s) as [s1 r1].
  simpl in H1, H2, Ht. subst r1. rewrite run_gets.
  assert (Hd1 : br_shutdown_deadline_at s1 = br_shutdown_deadline_at s)
    by (destruct Ht as [[Hl _] _]; unfold life in Hl; congruence).
  rewrite Hd1, Hd. assert (Hi1 : Inv s1) by (by eapply Inv_rtc).
  destruct (for_each_all (shutdown_deadline_one repr_exn cfg) (λ s, br_state s = ServerState.DRAINING ∧ br_requests s ⊆ br_requests s1)
    (λ r s, RequestState.terminal (rq_state (req s r)) = true)
    (br_requests s1).*2 s1) as (K1 & K2 & K3 & K4).
  - intros r s2 _ Hi2 Hr2 [Hs2 Hsub].
    pose proof (tame_shutdown_deadline_one repr_exn cfg queue_limit_positive r s2) as [[Hl _] Hn].
    destruct Hn as [_ Hn]; [by rewrite Hs2|].
    destruct (shutdown_deadline_one_spec r s2 Hi2 Hr2) as (L1 & L2 & L3).
    split_and!; [done|done|by rewrite (life_state _ _ Hl)|by etransitivity|done].
  - apply ended_later.
  - done.
  - by apply (listed_have_requests sha256_hex cfg).
  - split; [|done]. destruct Ht as [[Hl _] _]. by rewrite (life_state _ _ Hl).
  - unfold mbind, ST_bind. destruct (for_each _ _ s1) as [s2 r2]. simpl in *. subst r2.
    split_and!; [done..|]. intros r (kr & -> & Hkr)%list_elem_of_fmap. apply K4.
    apply list_elem_of_fmap. exists kr. split; [done|]. by apply (proj2 K3).
Qed.
End Props.

(** ** The theorems on the run of [Demo] *)
Section Witnesses.
#[local] Existing Instances Demo.json Demo.unicode.
#[local] Opaque Demo.state_after.
Notation after es := (Demo.state_after es).
#[local] Ltac by_run := vm_compute; reflexivity.

Lemma broker_refines_witness :
  rtc (micro Demo.sha Demo.cfg) (after Demo.connected)
    (exec Demo.sha Demo.repr Demo.cfg (EvMessage 0 (Demo.invocation "c:1") fzero)
       (after Demo.connected)).1.
Proof.
  apply (broker_refines Demo.sha Demo.repr Demo.cfg Demo.cfg_limits_ok (after Demo.connected)
           (EvMessage 0 (Demo.invocation "c:1") fzero)).
  - apply Demo.reached. by_run.
  - split; [by_run|reflexivity].
Defined.

Lemma capacity_bounded_witness :
  Z.of_nat (length (br_requests (after Demo.accepted)))
  ≤ max_pending_global (cf_limits Demo.cfg).
Proof.
  refine (proj1 (capacity_bounded Demo.sha Demo.repr Demo.cfg Demo.cfg_limits_ok
                   (after Demo.accepted) _)).
  apply Demo.reached. by_run.
Defined.

Lemma reservations_exact_witness :
  br_reserved_outcomes (after Demo.accepted)
  = zsum unreleased (br_request_heap (after Demo.accepted)) ∧
  br_reserved_outcome_bytes (after Demo.accepted) = 1000.
Proof.
  split; [|by_run].
  refine (proj1 (proj2 (reservations_exact Demo.sha Demo.repr Demo.cfg Demo.cfg_limits_ok
                          (after Demo.accepted) _))).
  apply Demo.reached. by_run.
Defined.

Lemma session_owns_requests_witness :
  dict_get (ss_requests (ses (after Demo.accepted) 0)) (py "c:1") = Some 0%nat.
Proof.
  refine (proj2 (proj1 (session_owns_requests Demo.sha Demo.repr Demo.cfg Demo.cfg_limits_ok
           (after Demo.accepted) 0 (py "c:1") 0 _ _)) _).
  - apply Demo.reached. by_run.
  - vm_compute. lia.
  - vm_compute. split_and!; first [reflexivity | lia].
Defined.

Lemma queue_exact_witness : 0%nat ∈ items (br_scheduler (after Demo.accepted)).
Proof.
  refine (proj2 (proj2 (queue_exact Demo.sha Demo.repr Demo.cfg Demo.cfg_limits_ok
                          (after Demo.accepted) _) 0%nat) _).
  - apply Demo.reached. by_run.
  - vm_compute. split_and!; first [reflexivity | lia].
Defined.

Lemma submitted_at_most_once_witness :
  NoDup (jb_record <$> br_jobs (after Demo.claimed)) ∧
  0%nat ∈ jb_record <$> br_jobs (after Demo.claimed).
Proof.
  destruct (submitted_at_most_once Demo.sha Demo.repr Demo.cfg Demo.cfg_limits_ok
              (after Demo.claimed)) as [H1 H2].
  - apply Demo.reached. by_run.
  - split; [exact H1|]. apply H2; [vm_compute; lia|by_run].
Defined.

Definition demo_job : Job := mkJob 0 0 (py "callable") [x01; x02] PNone 1000 None 0.

Lemma job_is_the_submission_witness :
  Demo.sha (jb_payload demo_job) = rq_digest (req (after Demo.claimed) 0).
Proof.
  refine (proj2 (proj2 (proj2 (proj2 (proj2 (job_is_the_submission Demo.sha Demo.repr Demo.cfg
            Demo.cfg_limits_ok (after Demo.claimed) demo_job _ _))))) _).
  - apply Demo.reached. by_run.
  - vm_compute. left.
  - by_run.
Defined.

Lemma outcome_final_witness :
  rq_state (req (after (Demo.finished ++ [Demo.ack])) 0) = rq_state (req (after Demo.finished) 0) ∧
  rq_state (req (after Demo.finished) 0) = RequestState.SUCCEEDED.
Proof.
  split; [|by_run].
  refine (proj1 (proj1 (proj2 (proj2 (outcome_final Demo.sha Demo.repr Demo.cfg
            Demo.cfg_limits_ok (after Demo.finished) [Demo.ack]
            (after (Demo.finished ++ [Demo.ack])) 0 _ _ _))) _)).
  - apply Demo.reached. by_run.
  - apply run_steps. by_run.
  - vm_compute. lia.
  - by_run.
Defined.

Lemma statistics_exact_witness :
  tasks_accepted (br_statistics (after Demo.finished))
  = Z.of_nat (length (br_request_heap (after Demo.finished))).
Proof.
  refine (proj1 (statistics_exact Demo.sha Demo.repr Demo.cfg Demo.cfg_limits_ok
                   (after Demo.finished) _)).
  apply Demo.reached. by_run.
Defined.

Lemma claim_arbitrates_witness :
  (claim_dispatch Demo.repr Demo.cfg 0 77 fzero (after Demo.submitted_)).2 = Ok true.
Proof.
  pose proof (claim_arbitrates Demo.sha Demo.repr Demo.cfg Demo.cfg_limits_ok
                (after Demo.submitted_) 0 77 fzero) as H.
  assert (H1 : reachable Demo.sha Demo.repr Demo.cfg (after Demo.submitted_))
    by (apply Demo.reached; by_run).
  assert (H2 : 0%nat ∈ jb_record <$> br_jobs (after Demo.submitted_)) by (vm_compute; left).
  specialize (H H1 H2). cbv zeta in H.
  destruct (claim_dispatch Demo.repr Demo.cfg 0 77 fzero (after Demo.submitted_)) as [s' r].
  destruct H as [H _]. simpl. rewrite H. by_run.
Defined.

Lemma resubmission_idempotent_witness :
  core (submit Demo.sha Demo.cfg 0 (Demo.invocation "c:1") fzero
          (after (Demo.finished ++ [Demo.ack]))).1
  = core (after (Demo.finished ++ [Demo.ack])).
Proof.
  apply (resubmission_idempotent Demo.sha Demo.repr Demo.cfg Demo.cfg_limits_ok
           (after (Demo.finished ++ [Demo.ack])) 0 0 0 (Demo.invocation "c:1") fzero (py "c:1")).
  - apply Demo.reached. by_run.
  - by_run.
  - vm_compute. lia.
  - by_run.
  - by_run.
  - by_run.
Defined.

(** A shutdown while the request is queued. *)
Definition demo_draining : list event :=
  Demo.accepted ++ [EvShutdown false (PFloat Demo.fone) fzero].

Lemma lifecycle_monotone_witness :
  rank ServerState.CREATED ≤ rank (br_state (after demo_draining)).
Proof.
  apply (lifecycle_monotone Demo.sha Demo.repr Demo.cfg Demo.cfg_limits_ok broker_init
           demo_draining (after demo_draining)).
  apply run_steps. by_run.
Defined.

Lemma draining_accepts_nothing_witness :
  let s' := after (demo_draining ++ [EvMessage 0 (Demo.invocation "c:2") fzero]) in
  length (br_request_heap s') = length (br_request_heap (after demo_draining)).
Proof.
  refine (proj1 (draining_accepts_nothing Demo.sha Demo.repr Demo.cfg Demo.cfg_limits_ok
           (after demo_draining) [EvMessage 0 (Demo.invocation "c:2") fzero] _ _ _ _)).
  - apply Demo.reached. by_run.
  - by_run.
  - apply run_steps. by_run.
Defined.

Lemma outbound_bounded_witness :
  Z.of_nat (length (cn_outbound (con (after Demo.accepted) 0)))
  ≤ outbound_queue_size (cf_limits Demo.cfg).
Proof.
  apply (outbound_bounded Demo.sha Demo.repr Demo.cfg Demo.cfg_limits_ok (after Demo.accepted)).
  - apply Demo.reached. by_run.
  - vm_compute. lia.
Defined.

Lemma expiry_complete_witness :
  (expire_queued_locked Demo.repr Demo.cfg fzero (after Demo.accepted)).2 = Ok tt.
Proof.
  refine (proj1 (expiry_complete Demo.sha Demo.repr Demo.cfg Demo.cfg_limits_ok
                   (after Demo.accepted) fzero _)).
  apply Demo.reached. by_run.
Defined.

Lemma dispatch_progress_witness :
  ∃ r sch, Scheduler.pop (br_scheduler (expire_queued_locked Demo.repr Demo.cfg fzero
                            (after Demo.accepted)).1) = Ok (r, sch).
Proof.
  destruct (dispatch_progress Demo.sha Demo.repr Demo.cfg Demo.cfg_limits_ok
              (after Demo.accepted) fzero) as (r & sch & H & _).
  - apply Demo.reached. by_run.
  - left. by_run.
  - vm_compute. discriminate.
  - by_run.
  - exists r, sch. exact H.
Defined.

Lemma shutdown_deadline_ends_witness :
  br_state (finish_shutdown_turn Demo.repr Demo.cfg Demo.ftwo (after demo_draining)).1
  = ServerState.STOPPING.
Proof.
  pose proof (shutdown_deadline_ends Demo.sha Demo.repr Demo.cfg Demo.cfg_limits_ok
                (after demo_draining) Demo.ftwo) as H.
  assert (H1 : reachable Demo.sha Demo.repr Demo.cfg (after demo_draining))
    by (apply Demo.reached; by_run).
  assert (H2 : br_state (after demo_draining) = ServerState.DRAINING) by by_run.
  assert (H3 : reached Demo.ftwo (br_shutdown_deadline_at (after demo_draining)) = true) by by_run.
  specialize (H H1 H2 H3).
  destruct (finish_shutdown_turn Demo.repr Demo.cfg Demo.ftwo (after demo_draining)) as [s' r].
  apply H.
Defined.
End Witnesses.
