(* ===== verification/BrokerSettle.v ===== *)
(** * BrokerSettle: every job that ends is reported

    A local future that is done calls back, and the call ends the record: [Settled]
    says where that call stands at any moment. [calm] is what an operation outside the
    dispatcher may do to requests and local futures; one lemma per operation, in the
    order of [Broker.v]. *)
From S2P Require Import Prelude Errors Futures StateErr Heapq PyVal PyInt Config Worker.
From S2P Require Import Protocol Reassembly Scheduler Terminal Broker BrokerStep BrokerInv.
From S2P Require Import BrokerRefine BrokerProps.

(** A future that is done and has its callback is due to call it. *)
Definition due_ok (x : LocalFuture) : Prop :=
  lf_callback x ≠ None → FutureState.done (lf_state x) = true → lf_due x = true.

(** The record has a final state; [complete_local] can only fail to give it one if its
    request ID is not text that UTF-8 encodes, which the reader of a connection refuses. *)
Definition settled_in (rs : list Request) (r : nat) : Prop :=
  encodable (rq_request_id (rs !!! r)) → RequestState.terminal (rq_state (rs !!! r)) = true.
Definition settled (s : Broker) : nat → Prop := settled_in (br_request_heap s).

(** A future is left alone, or cancelled before it ran, or its callback has been called. *)
Record future_calm (rs : list Request) (n : nat) (x y : LocalFuture) : Prop := {
  fc_record : lf_record y = lf_record x ∧ lf_outcome y = lf_outcome x;
  fc_state : lf_state y = lf_state x ∨
    lf_state x = FutureState.PENDING ∧ lf_state y = FutureState.CANCELLED;
  fc_callback : lf_callback y = lf_callback x ∨
    lf_callback y = None ∧ ∀ r, lf_callback x = Some r → (r < n)%nat → settled_in rs r;
  fc_due : due_ok x → due_ok y }.

Definition request_calm (x y : Request) : Prop :=
  rq_request_id y = rq_request_id x ∧
  (RequestState.terminal (rq_state x) = true → RequestState.terminal (rq_state y) = true).

(** A future before the dispatcher attached the callback and the pool ended it. *)
Definition fresh (x : LocalFuture) : Prop :=
  lf_callback x = None ∧
  (lf_state x = FutureState.PENDING ∨ lf_state x = FutureState.CANCELLED).

Lemma fresh_calm rs n x y : fresh x → future_calm rs n x y → fresh y.
Proof.
  intros [Hc Hs] [_ S C _]. split.
  - destruct C as [->|[]]; done.
  - destruct S as [->|[_ ->]]; auto.
Qed.

Record calm (s s' : Broker) : Prop := {
  ca_nreq : (length (br_request_heap s) ≤ length (br_request_heap s'))%nat;
  ca_req r : (r < length (br_request_heap s))%nat → request_calm (req s r) (req s' r);
  ca_nfut : (length (br_future_heap s) ≤ length (br_future_heap s'))%nat;
  ca_fut f : (f < length (br_future_heap s))%nat →
    future_calm (br_request_heap s') (length (br_request_heap s)) (fut s f) (fut s' f);
  ca_new f : (length (br_future_heap s) ≤ f)%nat → fresh (fut s' f);
  ca_jobs : br_jobs s' = br_jobs s;
  ca_dispatcher : br_dispatcher s' = br_dispatcher s }.

Lemma calm_settled s s' r :
  calm s s' → (r < length (br_request_heap s))%nat → settled s r → settled s' r.
Proof. intros [_ H _ _ _ _ _] Hr Hs. destruct (H r Hr) as [E Ht]. unfold settled, settled_in. unfold req in *. rewrite E. auto. Qed.

Lemma fut_beyond s f : (length (br_future_heap s) ≤ f)%nat → fresh (fut s f).
Proof.
  intros H. unfold fut. rewrite list_lookup_total_alt, lookup_ge_None_2 by done.
  split; [done|by right].
Qed.

#[export] Instance calm_preorder : PreOrder calm.
Proof.
  split.
  - intros s. split; try done; [intros f _; split; auto|apply fut_beyond].
  - intros s s' s'' H K. pose proof (ca_nreq _ _ H) as Hn. pose proof (ca_nfut _ _ H) as Hm.
    split; [pose proof (ca_nreq _ _ K); lia| |pose proof (ca_nfut _ _ K); lia| | | |].
    + intros r Hr. destruct (ca_req _ _ H r Hr) as [E T].
      destruct (ca_req _ _ K r) as [E' T']; [lia|]. split; [congruence|auto].
    + intros f Hf. destruct (ca_fut _ _ H f Hf) as [R S C D].
      destruct (ca_fut _ _ K f) as [R' S' C' D']; [lia|]. split; [by destruct R, R'; split; congruence| | |auto].
      * destruct S as [S|[S T]], S' as [S'|[S' T']]; [left|right|right|]; try (split; congruence);
          congruence.
      * destruct C' as [C'|[C' HC']], C as [C|[C HC]].
        -- left. congruence.
        -- right. split; [congruence|]. intros r Hr Hl. apply (calm_settled s'); [done|lia|by apply HC].
        -- right. split; [done|]. intros r Hr Hl. apply HC'; [congruence|lia].
        -- right. split; [done|]. intros r Hr Hl. apply (calm_settled s'); [done|lia|by apply HC].
    + intros f Hf. destruct (Nat.lt_ge_cases f (length (br_future_heap s'))) as [Hl|Hl];
        [|by apply (ca_new _ _ K)]. eapply fresh_calm; [by apply (ca_new _ _ H)|].
      by apply (ca_fut _ _ K).
    + rewrite (ca_jobs _ _ K). apply H.
    + rewrite (ca_dispatcher _ _ K). apply H.
Qed.

Lemma future_calm_refl rs n x : future_calm rs n x x.
Proof. split; auto. Qed.
Lemma request_calm_refl x : request_calm x x.
Proof. done. Qed.

(** ** Changes of one field *)

Lemma calm_alter_req s s' r g :
  br_request_heap s' = alter g r (br_request_heap s) → br_future_heap s' = br_future_heap s →
  br_jobs s' = br_jobs s → br_dispatcher s' = br_dispatcher s →
  request_calm (req s r) (g (req s r)) → calm s s'.
Proof.
  intros Er Ef Ej Ed Hg. split; [by rewrite Er, length_alter| |by rewrite Ef| | |done|done].
  - intros r' Hr. unfold req in *. rewrite Er, list_lookup_total_alter.
    case_decide as Hd; [by destruct Hd as [<- _]|done].
  - intros f Hf. unfold fut. rewrite Ef. apply future_calm_refl.
  - intros f Hf. unfold fut. rewrite Ef. by apply fut_beyond.
Qed.

Lemma calm_same s s' :
  br_request_heap s' = br_request_heap s → br_future_heap s' = br_future_heap s →
  br_jobs s' = br_jobs s → br_dispatcher s' = br_dispatcher s → calm s s'.
Proof.
  intros Er Ef Ej Ed. apply (calm_alter_req s s' 0 id); try done. by rewrite list_alter_id.
Qed.

Lemma calm_alter_fut s f g :
  future_calm (br_request_heap s) (length (br_request_heap s)) (fut s f) (g (fut s f)) → calm s (set_fut f g s).
Proof.
  intros Hg. split; simpl; try done; [by rewrite length_alter| |];
    intros f' Hf; unfold fut in *; simpl; rewrite list_lookup_total_alter;
    case_decide as Hd; [by destruct Hd as [<- _]|apply future_calm_refl|lia|by apply fut_beyond].
Qed.

Lemma calm_modify f :
  (∀ s, br_request_heap (f s) = br_request_heap s ∧ br_future_heap (f s) = br_future_heap s ∧
        br_jobs (f s) = br_jobs s ∧ br_dispatcher (f s) = br_dispatcher s) →
  respects calm (modify f).
Proof. intros H s. destruct (H s) as (?&?&?&?). by apply calm_same. Qed.

Lemma calm_upd_req r g : (∀ x, request_calm x (g x)) → respects calm (upd_req r g).
Proof. intros H s. by apply (calm_alter_req s _ r g). Qed.

Lemma calm_new_req x : respects calm (modify (new_req x)).
Proof.
  intros s. split; simpl; try done.
  - rewrite length_app. lia.
  - intros r Hr. unfold req. simpl. by rewrite lookup_total_app_l.
  - intros f Hf. unfold fut. simpl. apply future_calm_refl.
  - intros f. apply (fut_beyond s).
Qed.

Lemma calm_new_fut x s : fresh x → calm s (new_fut x s).
Proof.
  intros Hx. split; simpl; try done.
  - rewrite length_app. lia.
  - intros f Hf. unfold fut. simpl. rewrite lookup_total_app_l by done. apply future_calm_refl.
  - intros f Hf. unfold fut. simpl. rewrite lookup_total_app_r by done.
    destruct (f - _)%nat as [|[]]; [done|split; auto..].
Qed.

#[local] Ltac calm_leaf :=
  first [apply calm_modify; intros ?; by split_and!
        | apply calm_upd_req; intros ?; by split
        | apply calm_new_req].
#[local] Ltac calm_auto :=
  repeat first [respects_step
    | match goal with
      | |- respects _ (modify _) => calm_leaf
      | |- respects _ (upd_req _ _) => calm_leaf
      | |- respects _ (upd_ses _ _) => calm_leaf
      | |- respects _ (upd_con _ _) => calm_leaf
      | |- respects _ (upd_stats _) => calm_leaf
      end].

(** ** The operations *)
Section Calm.
Context {J : JsonText} {U : UnicodeData} {HQ : HeapQ Z Z.le}.
Context (sha256_hex : bytes → pystr) (repr_exn : exn → pystr) (cfg : ServerConfig).
Notation limits := (cf_limits cfg).
Context (Hlim : limits_ok limits).

Lemma calm_put_nowait c item : respects calm (put_nowait cfg c item).
Proof. unfold put_nowait. calm_auto. Qed.
Lemma calm_close c : respects calm (close cfg c).
Proof. unfold close. calm_auto. apply calm_put_nowait. Qed.
Lemma calm_send c k ctl p : respects calm (send cfg c k ctl p).
Proof. unfold send. calm_auto; apply calm_put_nowait || apply calm_close. Qed.
Lemma calm_send_ c k ctl : respects calm (send_ cfg c k ctl).
Proof. unfold send_. calm_auto. apply calm_send. Qed.
Lemma calm_flush_begin c b : respects calm (flush_begin cfg c b).
Proof. unfold flush_begin. calm_auto; apply calm_put_nowait || apply calm_close. Qed.
Lemma calm_writer_turn c sent : respects calm (writer_turn cfg c sent).
Proof. unfold writer_turn. calm_auto. apply calm_close. Qed.
Lemma calm_remove r : respects calm (remove_request_locked r).
Proof. unfold remove_request_locked, release_reservation_locked. calm_auto. Qed.
Lemma calm_purge i : respects calm (purge_session_locked i).
Proof. unfold purge_session_locked. calm_auto. apply calm_remove. Qed.

(** Only a record that has not ended gets a final state. *)
Lemma calm_terminal r st k ctl p : respects calm (terminal_locked cfg r st k ctl p).
Proof.
  intros s. unfold terminal_locked. rewrite run_gets.
  destruct (RequestState.terminal (rq_state (req s r))) eqn:E; [reflexivity|].
  unfold upd_req. rewrite run_modify.
  match goal with |- calm s (_ ?s1).1 => transitivity s1 end.
  - eapply calm_alter_req; try done. split; [done|]. by rewrite E.
  - match goal with |- calm ?s1 (?m ?s1).1 => assert (H : respects calm m); [|apply H] end.
    calm_auto. apply calm_send.
Qed.

Lemma calm_unstage r : respects calm (unstage r).
Proof. unfold unstage. calm_auto. apply calm_purge. Qed.
Lemma calm_complete r o : respects calm (complete_local repr_exn cfg r o).
Proof. unfold complete_local. calm_auto; apply calm_terminal || apply calm_unstage. Qed.

(** [_complete_local] ends the record. *)
Lemma complete_settles r o s :
  (r < length (br_request_heap s))%nat → settled (complete_local repr_exn cfg r o s).1 r.
Proof.
  intros Hr Henc. pose proof (calm_complete r o s) as Hc.
  destruct (ca_req _ _ Hc r Hr) as [Eid Hkeep].
  assert (encodable (rq_request_id (req s r))) as Hid by (by rewrite <- Eid).
  clear Eid Henc.
  unfold complete_local in *. rewrite run_gets in *.
  destruct (RequestState.terminal (rq_state (req s r))) eqn:E; [by apply Hkeep|].
  match goal with |- context [(?m ≫= _) s] => set (m1 := m) end.
  assert (H : (m1 s).2 = Ok tt ∧ calm s (m1 s).1 ∧
    RequestState.terminal (rq_state (req (m1 s).1 r)) = true).
  { unfold m1. clear m1. destruct o as [w|e|].
    - destruct (outcome_state (Worker.kind w)) as [st k] eqn:Ek.
      destruct (fit_terminal_descriptor_fits limits (rq_request_id (req s r))
        (default empty_descriptor (descriptor w)) (Z.of_nat (length (Worker.payload w))) Hlim Hid)
        as (d & -> & _).
      change (_ (lift (Ok d)) s) with (terminal_locked cfg r st k (fields_dict d) (Worker.payload w) s).
      split_and!; [apply terminal_locked_ok|apply calm_terminal|apply terminal_locked_ended; [|done]].
      by destruct (Worker.kind w); injection Ek as <- _.
    - repeat case_match;
        (split_and!; [apply terminal_locked_ok|apply calm_terminal|by apply terminal_locked_ended]).
    - split_and!; [apply terminal_locked_ok|apply calm_terminal|by apply terminal_locked_ended]. }
  destruct H as (Hok & Hcalm & Ht). unfold mbind, ST_bind.
  clear Hc Hkeep. destruct (m1 s) as [s1 r1]. simpl in Hok, Hcalm, Ht. subst r1.
  pose proof (calm_unstage r s1) as Hu.
  apply (ca_req _ _ Hu r); [pose proof (ca_nreq _ _ Hcalm); lia|done].
Qed.

(** A future whose callback was called may be changed by the call. *)
Lemma calm_called f g s s2 :
  (∀ x, lf_record (g x) = lf_record x ∧ lf_outcome (g x) = lf_outcome x ∧
        lf_state (g x) = lf_state x ∧ lf_callback (g x) = None) →
  calm (set_fut f g s) s2 →
  (∀ r, lf_callback (fut s f) = Some r → (r < length (br_request_heap s))%nat → settled s2 r) →
  calm s s2.
Proof.
  intros Hg H Hs. destruct H as [H1 H2 H3 H4 H5 H6 H7]. simpl in *.
  rewrite length_alter in H3, H4, H5. split; try done. intros f' Hf. specialize (H4 f' Hf). unfold fut in *. simpl in H4.
  rewrite list_lookup_total_alter in H4. case_decide as Hd; [|done]. destruct Hd as [<- _].
  destruct (Hg (br_future_heap s !!! f)) as (E1 & E0 & E2 & E3).
  destruct H4 as [[R R'] S C D]. split; [split; congruence|by rewrite <- E2| |].
  - right. split; [destruct C as [C|[C _]]; congruence|done].
  - intros _. apply D. intros Hn. by destruct Hn.
Qed.

Lemma calm_run_callback f : respects calm (run_callback repr_exn cfg f).
Proof.
  intros s. unfold run_callback. rewrite run_gets. unfold upd_fut. rewrite run_modify.
  set (g := λ x : LocalFuture, _). destruct (lf_callback (fut s f)) as [r|] eqn:E.
  - apply (calm_called f g); [done| |].
    + apply respects_swallow. unfold pool_done. calm_auto. apply calm_complete.
    + intros r' Hr'. rewrite E in Hr'. injection Hr' as <-. intros Hr. unfold swallow, pool_done.
      cbn [fst]. rewrite run_gets. by apply complete_settles.
  - apply (calm_called f g); [done|reflexivity|]. intros r Hr. congruence.
Qed.

Lemma calm_mark_cancelled f : respects calm (mark_cancelled f).
Proof.
  intros s. unfold mark_cancelled. rewrite run_gets. case_decide as Hp; [|reflexivity].
  apply calm_alter_fut. split; simpl; auto. intros _ _ _. done.
Qed.
Lemma calm_cancel_future f : respects calm (cancel_future repr_exn cfg f).
Proof. unfold cancel_future. calm_auto; apply calm_mark_cancelled || apply calm_run_callback. Qed.
Lemma calm_cancel_local r : respects calm (cancel_local repr_exn cfg r).
Proof. unfold cancel_local. calm_auto. apply calm_cancel_future. Qed.
Lemma calm_cancel_and_kill f : respects calm (cancel_and_kill repr_exn cfg f).
Proof. unfold cancel_and_kill. calm_auto. apply calm_cancel_future. Qed.
Lemma calm_kill_local r : respects calm (kill_local repr_exn cfg r).
Proof. unfold kill_local. calm_auto. apply calm_cancel_and_kill. Qed.
Lemma calm_withdraw r st k text : respects calm (withdraw repr_exn cfg r st k text).
Proof.
  unfold withdraw, scheduler_remove. calm_auto; apply calm_terminal || apply calm_cancel_local.
Qed.
Lemma calm_expire now : respects calm (expire_queued_locked repr_exn cfg now).
Proof. unfold expire_queued_locked. calm_auto. apply calm_withdraw. Qed.

(** A new PID says nothing of the job. *)
Lemma calm_upd_pid f pid : respects calm (upd_fut f (λ x, {| x with lf_pid := Some pid |})).
Proof. intros s. apply calm_alter_fut. split; simpl; auto. Qed.

(** The claim moves a queued record only. *)
Lemma calm_claim r pid now : respects calm (claim_dispatch repr_exn cfg r pid now).
Proof.
  assert (Hp : respects calm (upd_stats (λ t, {| t with tasks_running := tasks_running t + 1 |})))
    by calm_leaf.
  intros s. unfold claim_dispatch. cbv zeta. rewrite run_gets.
  destruct (rq_state (req s r)) eqn:E; try reflexivity.
  - destruct (reached _ _).
    + match goal with |- calm s (?m s).1 => assert (H : respects calm m); [|apply H] end.
      calm_auto; apply calm_terminal || apply calm_cancel_local.
    + unfold upd_req. rewrite run_modify.
      match goal with |- calm s (_ ?s1).1 => transitivity s1 end.
      * eapply calm_alter_req; try done. split; [done|]. by rewrite E.
      * match goal with |- calm ?s1 (?m ?s1).1 => assert (H : respects calm m); [|apply H] end.
        calm_auto; apply calm_upd_pid || apply calm_send_.
  - match goal with |- calm s (?m s).1 => assert (H : respects calm m); [|apply H] end.
    calm_auto; apply calm_upd_pid || apply calm_send_.
Qed.

Lemma calm_authorized c op md : respects calm (authorized cfg c op md).
Proof. unfold authorized. calm_auto. Qed.
Lemma calm_reject c id text : respects calm (reject cfg c id text).
Proof. unfold reject. calm_auto. apply calm_send_. Qed.
Lemma calm_send_record r : respects calm (send_record cfg r).
Proof. unfold send_record. calm_auto; apply calm_send_ || apply calm_send. Qed.
Lemma calm_register i r rec : respects calm (register i r rec).
Proof. unfold register. calm_auto. Qed.
Lemma calm_submit_checked c i m id digest now :
  respects calm (submit_checked cfg c i m id digest now).
Proof.
  unfold submit_checked. cbv zeta. repeat first [respects_step
    | apply calm_reject | apply calm_authorized | apply calm_send_ | apply calm_register].
Qed.
Lemma calm_submit c m now : respects calm (submit sha256_hex cfg c m now).
Proof.
  unfold submit. cbv zeta. repeat first [respects_step | apply calm_submit_checked
    | apply calm_reject | apply calm_send_record | calm_leaf].
Qed.

Lemma calm_cancel c control : respects calm (cancel repr_exn cfg c control).
Proof.
  unfold cancel, owned_request. cbv zeta. calm_auto;
    first [apply calm_withdraw | apply calm_authorized | apply calm_terminal
          | apply calm_kill_local | apply calm_send_].
Qed.
Lemma calm_cancel_one c control hard r n :
  respects calm (cancel_one repr_exn cfg c control hard r n).
Proof.
  unfold cancel_one. calm_auto;
    first [apply calm_withdraw | apply calm_authorized | apply calm_terminal
          | apply calm_kill_local].
Qed.
Lemma calm_cancel_all c control hard rs n :
  respects calm (cancel_all repr_exn cfg c control hard rs n).
Proof.
  revert n. induction rs as [|r rs IH]; intros n; cbn [cancel_all]; [calm_auto|].
  respects_step; [apply calm_cancel_one|apply IH].
Qed.
Lemma calm_cancel_group c control : respects calm (cancel_group repr_exn cfg c control).
Proof. unfold cancel_group. cbv zeta. calm_auto; apply calm_cancel_all || apply calm_send_. Qed.
Lemma calm_status c control : respects calm (status cfg c control).
Proof. unfold status, owned_request. calm_auto. apply calm_send_. Qed.
Lemma calm_result_ack c control : respects calm (result_ack c control).
Proof. unfold result_ack, owned_request. calm_auto. apply calm_remove. Qed.
Lemma calm_close_session c control : respects calm (close_session cfg c control).
Proof. unfold close_session. cbv zeta. calm_auto. all: try apply calm_send_. Qed.

Lemma calm_handle_message c m now :
  respects calm (handle_message sha256_hex repr_exn cfg c m now).
Proof.
  unfold handle_message. cbv zeta.
  destruct (m_kind m); match goal with
    | |- respects _ (submit _ _ _ _ _) => apply calm_submit
    | |- respects _ (cancel _ _ _ _) => apply calm_cancel
    | |- respects _ (cancel_group _ _ _ _) => apply calm_cancel_group
    | |- respects _ (status _ _ _) => apply calm_status
    | |- respects _ (result_ack _ _) => apply calm_result_ack
    | |- respects _ (close_session _ _ _) => apply calm_close_session
    | |- respects _ (send_ _ _ _ _) => apply calm_send_
    | |- _ => repeat first [respects_step | apply calm_authorized | apply calm_send_]
    end.
Qed.

Lemma calm_reject_hello {A} c why msg : respects calm (reject_hello (A := A) cfg c why msg).
Proof. unfold reject_hello. calm_auto. apply calm_send_. Qed.
Lemma calm_handshake c hello peer sid :
  respects calm (handshake sha256_hex cfg c hello peer sid).
Proof.
  unfold handshake, check_compatible, open_session. cbv zeta. calm_auto;
    first [apply calm_reject_hello | apply calm_send_].
Qed.

Lemma calm_set_pc c pc : respects calm (set_pc c pc).
Proof. unfold set_pc. calm_auto. Qed.
Lemma calm_guarded c next m : respects calm m → respects calm (guarded c next m).
Proof.
  intros Hm s. unfold guarded. specialize (Hm s).
  destruct (m s) as [s' []]; (etransitivity; [exact Hm|apply calm_set_pc]).
Qed.
Lemma calm_report c e b : respects calm (connection_report cfg c e b).
Proof.
  unfold connection_report. calm_auto;
    first [apply calm_send_ | apply calm_flush_begin | apply calm_set_pc].
Qed.
Lemma calm_disconnect_one r : respects calm (disconnect_one repr_exn cfg r).
Proof.
  unfold disconnect_one. calm_auto;
    first [apply calm_withdraw | apply calm_terminal | apply calm_cancel_and_kill].
Qed.
Lemma calm_disconnect c : respects calm (connection_disconnect repr_exn cfg c).
Proof.
  unfold connection_disconnect, disconnect, update_connection_count. calm_auto;
    first [apply calm_close | apply calm_disconnect_one | apply calm_purge | apply calm_set_pc].
Qed.
Lemma calm_accept raw : respects calm (accept_connection cfg raw).
Proof. unfold accept_connection. cbv zeta. calm_auto. Qed.
Lemma calm_prepare raw tr : respects calm (prepare_connection cfg raw tr).
Proof.
  unfold prepare_connection, update_connection_count. calm_auto;
    first [apply calm_close | apply calm_set_pc].
Qed.
Lemma calm_pool_claim f pid now : respects calm (pool_claim repr_exn cfg f pid now).
Proof. unfold pool_claim. calm_auto. apply calm_claim. Qed.

(** Starting and stopping the server. *)
Lemma calm_set_state st : respects calm (set_state st).
Proof. unfold set_state. calm_auto. Qed.
Lemma calm_ready_stopped : respects calm set_ready_stopped.
Proof. unfold set_ready_stopped. calm_auto. Qed.
Lemma calm_shutdown cf d now : respects calm (shutdown cf d now).
Proof.
  unfold shutdown. calm_auto; first [apply calm_set_state | apply calm_ready_stopped].
Qed.
Lemma calm_shutdown_turn now : respects calm (finish_shutdown_turn repr_exn cfg now).
Proof.
  unfold finish_shutdown_turn, shutdown_cancel_one, shutdown_deadline_one. calm_auto;
    first [apply calm_set_state | apply calm_withdraw | apply calm_terminal
          | apply calm_cancel_and_kill].
Qed.

(** The events of the dispatcher and of the pool's side of a future. *)
Definition future_event (e : event) : bool :=
  match e with
  | EvDispatch _ | EvSubmit _ | EvAttach | EvNotifyRunning _ | EvFinish _ _ => true
  | _ => false
  end.

Lemma calm_exec e :
  future_event e = false → respects calm (exec sha256_hex repr_exn cfg e).
Proof.
  destruct e; try done; intros _; cbn [exec]; unfold ignore.
  all: first
    [ apply calm_prepare | apply calm_guarded, calm_handle_message | apply calm_disconnect
    | apply calm_writer_turn | apply calm_run_callback | apply calm_pool_claim | apply calm_close
    | apply calm_shutdown_turn | apply calm_upd_pid | idtac ].
  all: unfold prepare_failed, connection_hello, connection_receive_error, connection_loop_exit,
    pool_cancel, shutdown_goaway, shutdown_flush, start_begin, initialize_begin, initialize_publish,
    initialize_cancelled, initialize_failed, initialize_closed, close_bound, finish_shutdown_end.
  all: calm_auto;
    try first [ apply calm_accept | apply calm_report | apply calm_mark_cancelled
              | apply calm_flush_begin | apply calm_send_ | apply calm_set_pc
              | apply calm_set_state | apply calm_ready_stopped | apply calm_shutdown ].
  all: apply calm_guarded; calm_auto; apply calm_handshake.
Qed.

(** ** The dispatcher *)

(** [calm], wherever the dispatcher goes. *)
Definition moved (s s' : Broker) : Prop := calm s (set_dispatcher (br_dispatcher s) s').

Lemma moved_after s s1 s2 : calm s s1 → moved s1 s2 → moved s s2.
Proof. unfold moved. intros H. rewrite (ca_dispatcher _ _ H). by etransitivity. Qed.
Lemma calm_moved s s' : calm s s' → moved s s'.
Proof. intros H. eapply moved_after; [exact H|]. by apply calm_same. Qed.
Lemma moved_last s s' d : calm s s' → moved s (set_dispatcher d s').
Proof. intros H. eapply moved_after; [exact H|]. by apply calm_same. Qed.

Lemma dispatch_moved now s : moved s (dispatch_turn repr_exn cfg now s).1.
Proof.
  unfold dispatch_turn. pose proof (calm_expire now s) as H.
  unfold mbind at 1, ST_bind at 1. destruct (expire_queued_locked _ _ _ s) as [s1 [u|e]];
    [|by apply calm_moved]. simpl in H. eapply moved_after; [exact H|].
  rewrite run_gets. unfold id. cbv zeta. case_match; [by apply calm_moved|].
  case_match; [by apply moved_last|].
  destruct (Scheduler.pop (br_scheduler s1)) as [[r sch]|e]; [|by case_match; apply calm_moved].
  rewrite run_modify, run_gets. case_match; [by apply calm_moved, calm_same|].
  rewrite run_modify. unfold upd_req. rewrite run_modify, run_modify. apply moved_last.
  match goal with |- calm _ (set_staged _ (set_req r ?g (new_fut ?x ?s2))) =>
    transitivity (new_fut x s2); [transitivity s2; [by apply calm_same|]|] end.
  { apply calm_new_fut. split; [done|by left]. }
  by eapply calm_alter_req.
Qed.

(** A record is submitted with a new future. *)
Lemma dispatch_fresh now s r f :
  br_dispatcher s = DIdle → br_dispatcher (dispatch_turn repr_exn cfg now s).1 = DSubmitting r f →
  (length (br_future_heap s) ≤ f)%nat.
Proof.
  intros Hd. unfold dispatch_turn. pose proof (calm_expire now s) as H.
  unfold mbind at 1, ST_bind at 1. destruct (expire_queued_locked _ _ _ s) as [s1 [u|e]];
    simpl in H; pose proof (ca_dispatcher _ _ H) as Hd1; rewrite Hd in Hd1; [|simpl; congruence].
  rewrite run_gets. unfold id. cbv zeta. case_match; [simpl; congruence|].
  case_match; [done|].
  destruct (Scheduler.pop (br_scheduler s1)) as [[r' sch]|e]; [|case_match; simpl; congruence].
  rewrite run_modify, run_gets. case_match; [simpl; congruence|].
  rewrite run_modify. unfold upd_req. rewrite run_modify, run_modify. simpl.
  intros [= <- <-]. exact (ca_nfut _ _ H).
Qed.

Lemma submit_moved r f res s :
  res ≠ Submitted → moved s (dispatch_submit repr_exn cfg r f res s).1.
Proof.
  destruct res as [| |e]; intros Hres; [done|..]; unfold dispatch_submit.
  - unfold upd_req. rewrite run_modify, run_modify, run_gets.
    set (s1 := set_staged _ _).
    assert (H : calm s s1) by (by eapply calm_alter_req). clearbody s1.
    case_match; rewrite ?run_modify; apply moved_last; [|done].
    transitivity s1; [done|]. by apply calm_same.
  - pose proof (calm_complete r (OError e) s) as H. unfold mbind, ST_bind.
    destruct (complete_local _ _ _ _ s) as [s1 [u|e']]; [by apply moved_last|by apply calm_moved].
Qed.

(** ** The invariant *)
Record Settled (s : Broker) : Prop := {
  se_due f : (f < length (br_future_heap s))%nat → due_ok (fut s f);
  se_jobs f : f ∈ jb_future <$> br_jobs s → lf_callback (fut s f) = None →
    br_dispatcher s = DAttaching (lf_record (fut s f)) f ∨ settled s (lf_record (fut s f)) }.

Notation Inv := (Inv sha256_hex cfg).

Lemma job_links s j :
  Inv s → j ∈ br_jobs s →
  (jb_future j < length (br_future_heap s))%nat ∧ lf_record (fut s (jb_future j)) = jb_record j ∧
  (jb_record j < length (br_request_heap s))%nat.
Proof.
  intros HI Hj. destruct (inv_jobs _ _ _ HI) as [Hl _ _ _ Hjobs _ _].
  destruct (Hjobs j Hj) as [Hr Hf]. destruct (Hl _ _ Hr Hf). done.
Qed.

Lemma job_future_links s f :
  Inv s → f ∈ jb_future <$> br_jobs s →
  (f < length (br_future_heap s))%nat ∧ (lf_record (fut s f) < length (br_request_heap s))%nat.
Proof.
  intros HI (j & -> & Hj)%list_elem_of_fmap. destruct (job_links s j HI Hj) as (H1 & -> & H2). done.
Qed.

Lemma callback_record s f r :
  Inv s → (f < length (br_future_heap s))%nat → lf_callback (fut s f) = Some r →
  r = lf_record (fut s f) ∧ (r < length (br_request_heap s))%nat.
Proof.
  intros HI Hf Hr. destruct (inv_jobs _ _ _ HI) as [Hl Hc _ _ _ _ _].
  destruct (Hc f r Hf Hr) as [H1 H2]. by destruct (Hl _ _ H1 H2) as [_ <-].
Qed.

Lemma settled_moved s s' :
  Inv s → moved s s' →
  (∀ r f, br_dispatcher s = DAttaching r f → br_dispatcher s' = DAttaching r f) →
  Settled s → Settled s'.
Proof.
  intros HI H Hd [Hdue Hjobs]. destruct H as [H1 H2 H3 H4 Hnew H5 _]. simpl in *. split.
  - intros f _. destruct (Nat.lt_ge_cases f (length (br_future_heap s))) as [Hl|Hl].
    + apply (fc_due _ _ _ _ (H4 f Hl)). by apply Hdue.
    + intros Hn. by destruct Hn; destruct (Hnew f Hl).
  - rewrite H5. intros f Hf Hnone. destruct (job_future_links s f HI Hf) as [Hl Hr].
    destruct (H4 f Hl) as [[R _] _ C _]. change (fut (set_dispatcher _ s') f) with (fut s' f) in *.
    rewrite R in *. destruct C as [C|[_ C]].
    + destruct (Hjobs f Hf) as [Ha|Hs]; [congruence|left; by apply Hd|right].
      intros He. destruct (H2 _ Hr) as [Eid Hkeep]. apply Hkeep, Hs.
      unfold req in Eid. by rewrite <- Eid.
    + destruct (lf_callback (fut s f)) as [r|] eqn:E.
      * right. destruct (callback_record s f r HI Hl E) as [<- Hlt]. exact (C r eq_refl Hlt).
      * destruct (Hjobs f Hf E) as [Ha|Hs]; [left; by apply Hd|right].
        intros He. destruct (H2 _ Hr) as [Eid Hkeep]. apply Hkeep, Hs.
        unfold req in Eid. by rewrite <- Eid.
Qed.

(** A future changes on the pool's side, before its callback. *)
Lemma settled_alter s f g :
  (∀ x, lf_record (g x) = lf_record x ∧ lf_callback (g x) = lf_callback x) →
  (due_ok (fut s f) → due_ok (g (fut s f))) →
  Settled s → Settled (set_fut f g s).
Proof.
  intros Hg Hd' [Hdue Hjobs].
  assert (Hf : ∀ f', lf_record (fut (set_fut f g s) f') = lf_record (fut s f') ∧
    lf_callback (fut (set_fut f g s) f') = lf_callback (fut s f') ∧
    (due_ok (fut s f') → due_ok (fut (set_fut f g s) f'))).
  { intros f'. unfold fut. simpl. rewrite list_lookup_total_alter. case_decide as Hd; [|done].
    destruct Hd as [<- _]. destruct (Hg (br_future_heap s !!! f)). done. }
  split.
  - intros f'. simpl. rewrite length_alter. intros Hl. by apply Hf, Hdue.
  - intros f' Hj Hnone. destruct (Hf f') as (-> & E & _). rewrite E in Hnone. by apply Hjobs.
Qed.

Lemma settled_step s e s' : Inv s → broker_step sha256_hex repr_exn cfg s e s' → Settled s → Settled s'.
Proof.
  intros HI [Hen <-] HS. destruct (future_event e) eqn:Ee.
  2: { apply (settled_moved s); [done|by apply calm_moved, calm_exec| |done].
       intros r f Hd. pose proof (calm_exec e Ee s) as H. by rewrite (ca_dispatcher _ _ H). }
  destruct e; try discriminate Ee; cbn [enabled] in Hen; cbn [exec].
  - apply (settled_moved s); [done|apply dispatch_moved| |done].
    intros r f Hd. by rewrite Hd in Hen.
  - rewrite run_gets. destruct (br_dispatcher s) as [|r f|r f|] eqn:Ed; try done.
    assert (res = Submitted ∨ res ≠ Submitted) as [->|Hres] by (destruct res; auto).
    + unfold dispatch_submit, upd_req. rewrite run_gets, run_modify, run_modify.
      destruct (inv_jobs _ _ _ HI) as [Hl _ Hdisp _ _ _ _].
      destruct (Hdisp r f (or_introl Ed)) as [Hr Hlf]. destruct (Hl r f Hr Hlf) as [Hf Hrec].
      destruct HS as [Hdue Hjobs]. split; [exact Hdue|].
      intros f' Hj Hnone. simpl in Hj. rewrite fmap_app in Hj. apply elem_of_app in Hj as [Hj|Hj].
      * right. destruct (Hjobs f' Hj Hnone) as [Ha|Hs]; [congruence|].
        destruct (job_future_links s f' HI Hj) as [_ Hlt].
        apply (calm_settled (new_job (job_of (req s r) r f) s) (set_req r _ _)); [|exact Hlt|exact Hs].
        by eapply calm_alter_req.
      * left. apply list_elem_of_singleton in Hj as ->. simpl. f_equal. symmetry. exact Hrec.
    + apply (settled_moved s); [done|by apply submit_moved| |done]. intros r' f' Hd. congruence.
  - rewrite run_gets. destruct (br_dispatcher s) as [|r f|r f|] eqn:Ed; try done.
    unfold dispatch_attach, upd_fut. rewrite run_gets, run_modify.
    destruct HS as [Hdue Hjobs].
    destruct (inv_jobs _ _ _ HI) as [Hl _ Hdisp _ _ _ _].
    destruct (Hdisp r f (or_intror Ed)) as [Hr Hlf]. destruct (Hl r f Hr Hlf) as [Hf Hrec].
    split; simpl; rewrite ?length_alter; unfold fut; simpl; intros f';
      rewrite list_lookup_total_alter; case_decide as Hd.
    + intros _ _. by destruct Hd as [<- _].
    + by apply Hdue.
    + by destruct Hd as [<- _].
    + intros Hj Hnone. destruct (Hjobs f' Hj Hnone) as [Ha|Hs]; [|by right].
      rewrite Ed in Ha. injection Ha as _ ->. by destruct Hd.
  - unfold pool_notify_running. rewrite run_gets. destruct (lf_state (fut s f)) eqn:Es; try done.
    + by apply settled_alter.
    + apply settled_alter; [done| |done]. intros H Hn _. apply H; [exact Hn|by rewrite Es].
  - unfold pool_finish. rewrite run_gets. destruct (FutureState.done _); [done|].
    apply settled_alter; [done| |done]. by intros _ _ _.
Qed.

Lemma reachable_settled s : reachable sha256_hex repr_exn cfg s → Settled s.
Proof.
  intros [es H]. assert (Hr : reachable sha256_hex repr_exn cfg s) by by exists es.
  enough (HI : Inv s ∧ Settled s) by apply HI.
  eapply (steps_invariant (broker_step sha256_hex repr_exn cfg) (λ s, Inv s ∧ Settled s)); [| |exact H].
  - intros s1 e s2 [HI HS] Hst. split; [|by eapply settled_step].
    eapply Inv_rtc; [done|exact HI|by eapply step_micro].
  - split; [by apply Inv_init|]. split; simpl; [lia|]. by intros f Hf%elem_of_nil.
Qed.

(** A job whose future is done has been reported, or will be: the dispatcher is about to
    attach the callback, the callback is due, or the request has its final state. *)
Lemma done_job_settles s j :
  reachable sha256_hex repr_exn cfg s → j ∈ br_jobs s →
  FutureState.done (lf_state (fut s (jb_future j))) = true →
  settled s (jb_record j) ∨ lf_due (fut s (jb_future j)) = true ∨
  br_dispatcher s = DAttaching (jb_record j) (jb_future j).
Proof.
  intros Hr Hj Hdone. pose proof (reachable_inv _ _ _ Hlim s Hr) as HI.
  destruct (reachable_settled s Hr) as [Hdue Hjobs].
  destruct (job_links s j HI Hj) as (Hf & <- & _).
  destruct (lf_callback (fut s (jb_future j))) as [r|] eqn:E.
  - right. left. apply (Hdue _ Hf); [by rewrite E|done].
  - destruct (Hjobs (jb_future j)) as [Ha|Hs]; [|done|by right; right|by left].
    apply list_elem_of_fmap. by exists j.
Qed.
End Calm.
