(* ===== verification/Lifecycle.v ===== *)
(** * Lifecycle: the threads that start and stop the server

    [start], [serve_forever], [wait_ready] and [shutdown] of [remote/server.py], called by
    any threads in any order, with the two threads the server starts for itself: the
    background [serve_forever] and [_finish_shutdown]. A thread has a program counter and
    runs one critical section or one call to the outside at a time; its waits are for the
    events [ready] and [_stopped] and for the end of the shutdown thread. The broker of
    [Broker.v] is the state they work on, and its other events happen in between.

    [current_thread()] is the index of the thread. What the outside does is in [env]:
    whether [Thread.start] works, what the pool factory, the binding of the listeners and
    [pool.shutdown] do, the clock, whether a wait timed out. *)
From S2P Require Import Prelude Errors Futures StateErr Heapq PyVal PyInt Config Worker.
From S2P Require Import Protocol Reassembly Scheduler Terminal Broker BrokerStep BrokerFrame.

(** ** Threads *)

Inductive life_call :=
  | CStart
  | CServe
  | CWait
  | CShutdown (wait cancel_futures : bool) (deadline : pyval).

Inductive life_pc :=
  | LIdle                                  (* has not called anything *)
  | LEnter (c : life_call)                 (* before the first section *)
  | LReady (starting : bool)               (* [ready.wait], for [start] or for itself *)
  (* [_initialize], called by [serve_forever] *)
  | LInit (background : bool)
  | LBuild (background : bool)             (* [pool_factory()] *)
  | LBind (background : bool)              (* the loop of [bind_listener] *)
  | LPublish (background : bool) (bound : list nat)
  | LDiscard (background : bool)           (* [_discard_startup_resources] *)
  | LCancelled (background : bool)
  (* [_initialize] raised *)
  | LFailed (background : bool) (e : exn)
  | LClosed (background : bool) (e : exn)
  | LServing                               (* [_stopped.wait] of [serve_forever] *)
  (* [shutdown] *)
  | LAwait (c : life_call)                 (* [_stopped.wait] *)
  | LJoin (c : life_call)                  (* [_shutdown_thread.join] *)
  (* [_finish_shutdown] *)
  | LDrain
  | LClose
  | LPool                                  (* [_pool.shutdown] *)
  | LFlush (cs : list nat)
  | LGoaway (c : nat) (cs : list nat)
  | LHangup (c : nat) (cs : list nat)
  (* a call has ended *)
  | LReturn (c : life_call) (r : result exn bool)
  | LExit                                  (* the thread has ended *)
  | LCrash (e : exn)                       (* an exception has ended the thread *)
  | LUnstarted.                            (* [Thread.start] failed *)

(** A thread; those the server starts make no calls of their own. *)
Record thread := mkThread { th_server : bool; th_pc : life_pc }.
#[export] Instance thread_inhabited : Inhabited thread := populate (mkThread false LIdle).

Record Life := mkLife {
  li_broker : Broker;
  li_serve : option nat;                   (* [_serve_thread] *)
  li_shut : option nat;                    (* [_shutdown_thread] *)
  li_error : option exn;                   (* [_startup_error] *)
  li_threads : list thread;
  li_built : nat;                          (* pools the factory returned *)
  li_discarded : nat;                      (* pools shut down unpublished *)
  li_pool_stopped : bool }.                (* [self._pool.shutdown] has returned *)

Definition life_init : Life := mkLife broker_init None None None [] 0 0 false.

Record env := mkEnv {
  en_started : bool;                       (* [Thread.start] works *)
  en_factory : option exn;                 (* the exception of [pool_factory] *)
  en_bind : result exn (list nat);         (* the listeners, or the exception *)
  en_stop : option exn;                    (* the exception of [_pool.shutdown] *)
  en_now : pyfloat;
  en_barrier : nat;
  en_timeout : bool }.                     (* the timeout of [wait_ready] has passed *)

Definition thread_error : exn := Raise RuntimeError "can't start new thread".

Definition pc_at (l : Life) (t : nat) : life_pc := th_pc (li_threads l !!! t).

Definition set_pc (t : nat) (pc : life_pc) (l : Life) : Life :=
  {| l with li_threads := alter (λ x, mkThread (th_server x) pc) t (li_threads l) |}.
Definition set_broker (b : Broker) (l : Life) : Life := {| l with li_broker := b |}.
Definition set_serve (s : option nat) (l : Life) : Life := {| l with li_serve := s |}.
Definition set_shut (u : option nat) (l : Life) : Life := {| l with li_shut := u |}.
Definition set_error (e : exn) (l : Life) : Life := {| l with li_error := Some e |}.
Definition add_thread (pc : life_pc) (l : Life) : Life :=
  {| l with li_threads := li_threads l ++ [mkThread true pc] |}.
Definition count_built (l : Life) : Life := {| l with li_built := S (li_built l) |}.
Definition count_discarded (l : Life) : Life := {| l with li_discarded := S (li_discarded l) |}.
Definition pool_stopped (l : Life) : Life := {| l with li_pool_stopped := true |}.

(** The call of thread [t] ends; a thread of the server ends with it. *)
Definition leave (t : nat) (c : life_call) (r : result exn bool) (l : Life) : Life :=
  set_pc t (if th_server (li_threads l !!! t) then LExit else LReturn c r) l.

(** ** The methods *)

Section Methods.
Context {J : JsonText} {U : UnicodeData} {HQ : HeapQ Z Z.le}.
Context (sha256_hex : bytes → pystr) (repr_exn : exn → pystr).
Context (cfg : ServerConfig).
Notation server_exec := (BrokerStep.exec sha256_hex repr_exn cfg).

(** The section of [start] under the lock. *)
Definition enter_start (t : nat) (v : env) (l : Life) : Life :=
  match li_serve l with
  | Some _ => set_pc t (LReady true) l
  | None =>
      match start_begin false (li_broker l) with
      | (_, Err e) => leave t CStart (Err e) l
      | (b, Ok _) =>
          let n := length (li_threads l) in
          let l1 := set_serve (Some n) (set_broker b l) in
          if en_started v then set_pc t (LReady true) (add_thread (LEnter CServe) l1)
          else
            leave t CStart (Err thread_error)
              (set_broker (initialize_cancelled b).1
                (set_error thread_error (add_thread LUnstarted l1)))
      end
  end.

(** The section of [serve_forever] that makes the caller the serving thread. *)
Definition enter_serve (t : nat) (l : Life) : Life :=
  match li_serve l with
  | None =>
      match start_begin false (li_broker l) with
      | (_, Err _) =>
          leave t CServe (Err (Raise RuntimeError "a stopped remote server cannot be served")) l
      | (b, Ok _) => set_pc t (LInit false) (set_serve (Some t) (set_broker b l))
      end
  | Some s =>
      if decide (s = t) then set_pc t (LInit true) l
      else leave t CServe (Err (Raise RuntimeError "remote server is already being served")) l
  end.

(** [wait_ready] when its wait is over, and what [start] makes of its answer. *)
Definition wait_ready (t : nat) (starting : bool) (l : Life) : Life :=
  let c := if starting then CStart else CWait in
  if br_ready (li_broker l) then
    match li_error l with
    | Some e => leave t c (Err e) l
    | None =>
        if starting && negb (br_has_pool (li_broker l)) then
          leave t c (Err (Raise RuntimeError "remote server stopped before becoming ready")) l
        else leave t c (Ok (br_has_pool (li_broker l))) l
    end
  else leave t c (Err (Raise PoolTimeoutError "remote server did not become ready")) l.

Definition initialize_enter (t : nat) (bg : bool) (l : Life) : Life :=
  match initialize_begin (li_broker l) with
  | (b, Ok true) => set_pc t (LBuild bg) (set_broker b l)
  | (b, _) => set_pc t LServing (set_broker b l)
  end.

Definition initialize_build (t : nat) (bg : bool) (v : env) (l : Life) : Life :=
  match en_factory v with
  | Some e => set_pc t (LFailed bg e) l
  | None => set_pc t (LBind bg) (count_built l)
  end.

(** When no listener could be bound the pool is discarded before the exception leaves. *)
Definition initialize_bind (t : nat) (bg : bool) (v : env) (l : Life) : Life :=
  match en_bind v with
  | Err e => set_pc t (LFailed bg e) (count_discarded l)
  | Ok bound => set_pc t (LPublish bg bound) l
  end.

(** A broker thread that does not start leaves the section before [ready] is set. *)
Definition initialize_share (t : nat) (bg : bool) (bound : list nat) (v : env) (l : Life)
    : Life :=
  match initialize_publish bound (li_broker l) with
  | (b, Ok true) =>
      if en_started v then set_pc t LServing (set_broker b l)
      else set_pc t (LFailed bg thread_error)
             (set_broker {| b with br_ready := br_ready (li_broker l) |} l)
  | (_, _) => set_pc t (LDiscard bg) l
  end.

Definition serve_failed (t : nat) (bg : bool) (e : exn) (l : Life) : Life :=
  set_pc t (LClosed bg e) (set_broker (initialize_failed (li_broker l)).1 (set_error e l)).

Definition serve_closed (t : nat) (bg : bool) (e : exn) (l : Life) : Life :=
  leave t CServe (if bg then Ok true else Err e)
    (set_broker (initialize_closed (li_broker l)).1 l).

(** [startup_stopping]. *)
Definition startup_stopping (b : Broker) : bool :=
  bool_decide (br_state b = ServerState.STARTING)
  || bool_decide (br_state b = ServerState.STOPPING) && negb (br_ready b).

(** The tests before each wait that keep a thread from waiting for itself. *)
Definition may_wait (wait : bool) (t : nat) (other : option nat) : bool :=
  wait && negb (bool_decide (other = Some t)).

Definition enter_shutdown (t : nat) (wait cancel : bool) (deadline : pyval) (v : env)
    (l : Life) : Life :=
  let c := CShutdown wait cancel deadline in
  match shutdown cancel deadline (en_now v) (li_broker l) with
  | (_, Err e) => leave t c (Err e) l
  | (b, Ok true) =>
      let l1 := set_broker b l in
      let join := λ l, if may_wait wait t (li_shut l) then set_pc t (LJoin c) l
                       else leave t c (Ok true) l in
      match li_shut l with
      | Some _ => join l1
      | None =>
          let l2 := set_shut (Some (length (li_threads l))) l1 in
          if en_started v then join (add_thread LDrain l2)
          else leave t c (Err thread_error) (add_thread LUnstarted l2)
      end
  | (b, Ok false) =>
      if startup_stopping (li_broker l) && may_wait wait t (li_serve l)
      then set_pc t (LAwait c) (set_broker b l)
      else leave t c (Ok true) (set_broker b l)
  end.

(** [_shutdown_thread.join]. *)
Definition join_end (t : nat) (c : life_call) (l : Life) : Life :=
  match li_shut l with
  | Some u =>
      match pc_at l u with
      | LUnstarted =>
          leave t c (Err (Raise RuntimeError "cannot join thread before it is started")) l
      | _ => leave t c (Ok true) l
      end
  | None => l
  end.

(** [_finish_shutdown]: a turn of the first loop, [_close_bound], the pool, and for each
    connection the flush, the GOAWAY and the end. *)
Definition drain (t : nat) (v : env) (l : Life) : Life :=
  match finish_shutdown_turn repr_exn cfg (en_now v) (li_broker l) with
  | (b, Err e) => set_pc t (LCrash e) (set_broker b l)
  | (b, Ok _) =>
      if decide (br_state b = ServerState.STOPPING) then set_pc t LClose (set_broker b l)
      else set_broker b l
  end.

Definition close_listeners (t : nat) (l : Life) : Life :=
  let b := (close_bound (li_broker l)).1 in
  set_pc t (if br_has_pool b then LPool else LFlush (br_connections b)) (set_broker b l).

Definition stop_pool (t : nat) (v : env) (l : Life) : Life :=
  match en_stop v with
  | Some e => set_pc t (LCrash e) l
  | None => set_pc t (LFlush (br_connections (li_broker l))) (pool_stopped l)
  end.

Definition say_goodbye (t : nat) (cs : list nat) (v : env) (l : Life) : Life :=
  match cs with
  | [] => set_pc t LExit (set_broker (finish_shutdown_end (li_broker l)).1 l)
  | c :: cs' =>
      set_pc t (LGoaway c cs') (set_broker (shutdown_flush cfg c (en_barrier v) (li_broker l)).1 l)
  end.

(** The next section of thread [t]. *)
Definition life_run (t : nat) (v : env) (l : Life) : Life :=
  match pc_at l t with
  | LEnter CStart => enter_start t v l
  | LEnter CServe => enter_serve t l
  | LEnter CWait => set_pc t (LReady false) l
  | LEnter (CShutdown wait cancel deadline) => enter_shutdown t wait cancel deadline v l
  | LReady starting => wait_ready t starting l
  | LInit bg => initialize_enter t bg l
  | LBuild bg => initialize_build t bg v l
  | LBind bg => initialize_bind t bg v l
  | LPublish bg bound => initialize_share t bg bound v l
  | LDiscard bg => set_pc t (LCancelled bg) (count_discarded l)
  | LCancelled bg => set_pc t LServing (set_broker (initialize_cancelled (li_broker l)).1 l)
  | LFailed bg e => serve_failed t bg e l
  | LClosed bg e => serve_closed t bg e l
  | LServing => leave t CServe (Ok true) l
  | LAwait c => leave t c (Ok true) l
  | LJoin c => join_end t c l
  | LDrain => drain t v l
  | LClose => close_listeners t l
  | LPool => stop_pool t v l
  | LFlush cs => say_goodbye t cs v l
  | LGoaway c cs =>
      set_pc t (LHangup c cs)
        (set_broker (shutdown_goaway cfg c (en_barrier v) (li_broker l)).1 l)
  | LHangup c cs => set_pc t (LFlush cs) (set_broker (close cfg c (li_broker l)).1 l)
  | LIdle | LReturn _ _ | LExit | LCrash _ | LUnstarted => l
  end.

(** A thread that has ended, or has not begun. *)
Definition ended (pc : life_pc) : bool :=
  match pc with LExit | LCrash _ | LUnstarted => true | _ => false end.

(** The thread can go on: it does not wait, or what it waits for has happened. *)
Definition runnable (t : nat) (v : env) (l : Life) : bool :=
  match pc_at l t with
  | LReady starting => br_ready (li_broker l) || negb starting && en_timeout v
  | LServing | LAwait _ => br_stopped (li_broker l)
  | LJoin _ => match li_shut l with Some u => ended (pc_at l u) | None => false end
  | LIdle | LReturn _ _ => false
  | pc => negb (ended pc)
  end.

(** ** Steps *)

Inductive life_step_event :=
  | LNew                                   (* the application has one more thread *)
  | LCall (t : nat) (c : life_call)
  | LRun (t : nat) (v : env)
  | LBroker (e : event).                   (* something else happens in the server *)

(** What only these threads do to the broker. *)
Definition life_only (e : event) : bool :=
  life_event e
  || match e with EvFlush _ _ | EvGoaway _ _ | EvCloseConnection _ => true | _ => false end.

Definition life_exec (e : life_step_event) (l : Life) : Life :=
  match e with
  | LNew => {| l with li_threads := li_threads l ++ [mkThread false LIdle] |}
  | LCall t c => set_pc t (LEnter c) l
  | LRun t v => life_run t v l
  | LBroker e => set_broker (server_exec e (li_broker l)).1 l
  end.

Definition life_enabled (e : life_step_event) (l : Life) : bool :=
  match e with
  | LNew => true
  | LCall t _ =>
      (t <? length (li_threads l))%nat
      && match pc_at l t with LIdle | LReturn _ _ => true | _ => false end
  | LRun t v => (t <? length (li_threads l))%nat && runnable t v l
  | LBroker e => enabled e (li_broker l) && negb (life_only e)
  end.

Definition life_step (l : Life) (e : life_step_event) (l' : Life) : Prop :=
  life_enabled e l = true ∧ life_exec e l = l'.
Definition life_reachable (l : Life) : Prop := ∃ es, steps life_step life_init es l.

(** Every [Thread.start] works. *)
Definition threads_start (e : life_step_event) : Prop :=
  match e with LRun _ v => en_started v = true | _ => True end.
Definition life_started_step (l : Life) (e : life_step_event) (l' : Life) : Prop :=
  threads_start e ∧ life_step l e l'.
Definition life_started (l : Life) : Prop := ∃ es, steps life_started_step life_init es l.

Fixpoint life_play (es : list life_step_event) (l : Life) : option Life :=
  match es with
  | [] => Some l
  | e :: es' => if life_enabled e l then life_play es' (life_exec e l) else None
  end.

(** One thread runs alone, as far as it can. *)
Definition run_alone (t : nat) (vs : list env) (l : Life) : Life :=
  foldl (λ l v, if runnable t v l then life_run t v l else l) l vs.
End Methods.
