(* ===== verification/LifecycleInv.v ===== *)
(** * LifecycleInv: the stages of a server's life

    [stage] lists where the server can be, with the place of its serving thread and of
    its shutdown thread at each: every step keeps it, provided that threads start. *)
From S2P Require Import Prelude Errors Futures StateErr Heapq PyVal PyInt Config Worker.
From S2P Require Import Protocol Reassembly Scheduler Terminal Broker BrokerStep BrokerInv.
From S2P Require Import BrokerRefine BrokerFrame BrokerProps Lifecycle.

(** ** Program counters after an update *)

Lemma pc_set t p l t' :
  (t < length (li_threads l))%nat →
  pc_at (set_pc t p l) t' = if decide (t' = t) then p else pc_at l t'.
Proof.
  intros Ht. unfold pc_at, set_pc. cbn. rewrite list_lookup_total_alter.
  repeat case_decide; naive_solver.
Qed.

Lemma pc_added p l : pc_at (add_thread p l) (length (li_threads l)) = p.
Proof. unfold pc_at, add_thread. cbn. by rewrite lookup_total_last. Qed.

Lemma pc_before p l t : (t < length (li_threads l))%nat → pc_at (add_thread p l) t = pc_at l t.
Proof. intros Ht. unfold pc_at, add_thread. cbn. by rewrite lookup_total_snoc. Qed.

Lemma set_pc_threads t p l : length (li_threads (set_pc t p l)) = length (li_threads l).
Proof. apply length_alter. Qed.

(** ** Stages *)

(** State, [ready], [_stopped] and whether [_pool] is set. *)
Definition flags (b : Broker) : ServerState.t * bool * bool * bool :=
  (br_state b, br_ready b, br_stopped b, br_has_pool b).

(** The serving thread before [ready] is set, with the pools built and discarded. *)
Definition starting (p : life_pc) (st : ServerState.t) (k d : nat) : Prop :=
  match p with
  | LEnter CServe | LInit _ | LBuild _ => k = 0%nat ∧ d = 0%nat
  | LBind _ | LPublish _ _ => k = 1%nat ∧ d = 0%nat
  | LDiscard _ => st = ServerState.STOPPING ∧ k = 1%nat ∧ d = 0%nat
  | LCancelled _ => st = ServerState.STOPPING ∧ k = 1%nat ∧ d = 1%nat
  | LFailed _ _ => k = d ∧ (k ≤ 1)%nat
  | _ => False
  end.

(** The shutdown thread: the state, [_stopped], and whether the pool was shut down. *)
Definition shutting (p : life_pc) (st : ServerState.t) (stopped pool : bool) : Prop :=
  match p with
  | LDrain => st = ServerState.DRAINING ∧ stopped = false ∧ pool = false
  | LClose | LPool => st = ServerState.STOPPING ∧ stopped = false ∧ pool = false
  | LFlush _ | LGoaway _ _ | LHangup _ _ =>
      st = ServerState.STOPPING ∧ stopped = false ∧ pool = true
  | LExit => st = ServerState.STOPPED ∧ stopped = true ∧ pool = true
  | LCrash _ =>
      (st = ServerState.DRAINING ∨ st = ServerState.STOPPING) ∧ stopped = false ∧ pool = false
  | _ => False
  end.

(** Places in [_initialize] and in [_finish_shutdown]. *)
Definition in_startup (p : life_pc) : bool :=
  match p with
  | LBuild _ | LBind _ | LPublish _ _ | LDiscard _ | LCancelled _ | LFailed _ _
  | LClosed _ _ => true
  | _ => false
  end.
Definition in_shutdown (p : life_pc) : bool :=
  match p with
  | LDrain | LClose | LPool | LFlush _ | LGoaway _ _ | LHangup _ _ => true
  | _ => false
  end.
Definition settled (p : life_pc) : Prop := in_startup p = false ∧ in_shutdown p = false.

(** The stages: flags, startup error, pools built and discarded, whether the pool was shut
    down, and the places of the serving and the shutdown thread. *)
Inductive stage : ServerState.t * bool * bool * bool → option exn → nat → nat → bool →
    option life_pc → option life_pc → Prop :=
  | SgNew : stage (ServerState.CREATED, false, false, false) None 0 0 false None None
  | SgNever : stage (ServerState.STOPPED, true, true, false) None 0 0 false None None
  | SgStarting st p k d :
      st = ServerState.STARTING ∨ st = ServerState.STOPPING → starting p st k d →
      stage (st, false, false, false) None k d false (Some p) None
  | SgClosing bg e k :
      (k ≤ 1)%nat →
      stage (ServerState.STOPPED, false, false, false) (Some e) k k false
        (Some (LClosed bg e)) None
  | SgOver err k p :
      (k ≤ 1)%nat → settled p →
      stage (ServerState.STOPPED, true, true, false) err k k false (Some p) None
  | SgRunning :
      stage (ServerState.RUNNING, true, false, true) None 1 0 false (Some LServing) None
  | SgShutting st stopped pool p u :
      shutting u st stopped pool → settled p → (stopped = false → p = LServing) →
      stage (st, true, stopped, true) None 1 0 pool (Some p) (Some u).

Definition stage_of (l : Life) : Prop :=
  stage (flags (li_broker l)) (li_error l) (li_built l) (li_discarded l) (li_pool_stopped l)
    (pc_at l <$> li_serve l) (pc_at l <$> li_shut l).

(** What [start] said is true, and stays true: it returned when a pool was published and
    raised when none was and none will be. *)
Definition start_said (l : Life) (r : result exn bool) : Prop :=
  br_ready (li_broker l) = true ∧
  match r with
  | Ok b => b = true ∧ br_has_pool (li_broker l) = true ∧ li_error l = None
  | Err e =>
      br_has_pool (li_broker l) = false ∧ br_state (li_broker l) = ServerState.STOPPED ∧
      (li_error l = Some e ∨ li_error l = None ∧ exn_of e = RuntimeError)
  end.

(** A shutdown came before the server was ready. *)
Definition stopping_early (b : Broker) : Prop :=
  br_state b = ServerState.STOPPED ∨ br_state b = ServerState.STOPPING ∧ br_ready b = false.

Definition thread_ok (l : Life) (t : nat) (p : life_pc) : Prop :=
  match p with
  | LInit _ | LBuild _ | LBind _ | LPublish _ _ | LDiscard _ | LCancelled _ | LFailed _ _
  | LClosed _ _ | LServing => li_serve l = Some t
  | LDrain | LClose | LPool | LFlush _ | LGoaway _ _ | LHangup _ _ => li_shut l = Some t
  | LReady true => is_Some (li_serve l)
  | LJoin c => c ≠ CStart ∧ is_Some (li_shut l)
  | LAwait c => c ≠ CStart ∧ stopping_early (li_broker l)
  | LReturn CStart r => start_said l r
  | LUnstarted => False
  | _ => True
  end.

Record LifeInv (l : Life) : Prop := {
  lv_stage : stage_of l;
  lv_serve : ∀ s, li_serve l = Some s → (s < length (li_threads l))%nat;
  lv_shut : ∀ u, li_shut l = Some u → (u < length (li_threads l))%nat;
  lv_threads : ∀ t, (t < length (li_threads l))%nat → thread_ok l t (pc_at l t) }.

(** ** What a stage says *)

(** Places where a thread is neither starting the server nor shutting it down. *)
Definition neutral (p : life_pc) : Prop :=
  match p with
  | LIdle | LReturn _ _ | LReady _ | LAwait _ | LJoin _ => True
  | LEnter CServe => False
  | LEnter _ => True
  | _ => False
  end.

Lemma neutral_starting p st k d : neutral p → ¬ starting p st k d.
Proof. destruct p; cbn; try tauto. destruct c; tauto. Qed.

Lemma neutral_shutting p st stopped pool : neutral p → ¬ shutting p st stopped pool.
Proof. destruct p; cbn; tauto. Qed.

Lemma neutral_settled p : neutral p → settled p.
Proof. by destruct p. Qed.

Lemma stage_serving_moves fl err k d ps p p' u :
  stage fl err k d ps (Some p) u → neutral p → settled p' → stage fl err k d ps (Some p') u.
Proof.
  inversion 1; subst; intros Hn Hp; try done; try (by constructor).
  - exfalso. by eapply neutral_starting.
  - constructor; [done..|]. intros Hs. destruct p; try done; naive_solver.
Qed.

Lemma stage_shutting_fixed fl err k d ps p u :
  stage fl err k d ps p (Some u) → ¬ neutral u.
Proof. inversion 1; subst. intros Hn. by eapply neutral_shutting. Qed.

(** A server that has stopped leaves its serving thread free to do anything else. *)
Lemma stage_stopped st r hp err k d ps p up :
  stage (st, r, true, hp) err k d ps (Some p) up →
  st = ServerState.STOPPED ∧ r = true ∧
  ∀ p', settled p' → stage (st, r, true, hp) err k d ps (Some p') up.
Proof.
  inversion 1; subst.
  - split_and!; [done..|]. by constructor.
  - assert (st = ServerState.STOPPED) as -> by (destruct u; naive_solver).
    split_and!; [done..|]. intros p' Hp. by constructor.
Qed.

(** The serving thread on its way. *)
Lemma stage_starting st r hp err k d ps p up :
  stage (st, r, false, hp) err k d ps (Some p) up → p ≠ LServing →
  (∀ bg e, p ≠ LClosed bg e) →
  (r, hp, err, ps, up) = (false, false, None, false, None) ∧
  (st = ServerState.STARTING ∨ st = ServerState.STOPPING) ∧ starting p st k d.
Proof. inversion 1; subst; naive_solver. Qed.

Lemma stage_startup st r stopped hp err k d ps p up :
  stage (st, r, stopped, hp) err k d ps (Some p) up → in_startup p = true →
  stopped = false ∧ up = None.
Proof.
  inversion 1; subst; intros Hp; try done;
    match goal with Hs : settled _ |- _ => destruct Hs; congruence end.
Qed.

Lemma stage_closing fl err k d ps bg e up :
  stage fl err k d ps (Some (LClosed bg e)) up →
  fl = (ServerState.STOPPED, false, false, false) ∧ err = Some e ∧ k = d ∧ (k ≤ 1)%nat ∧
  ps = false ∧ up = None.
Proof.
  inversion 1; subst; try done; match goal with Hs : settled _ |- _ => by destruct Hs end.
Qed.

Lemma stage_unserved fl err k d ps up :
  stage fl err k d ps None up →
  (err, k, d, ps, up) = (None, 0%nat, 0%nat, false, None) ∧
  (fl = (ServerState.CREATED, false, false, false) ∨ fl = (ServerState.STOPPED, true, true, false)).
Proof. inversion 1; subst; auto. Qed.

Lemma stage_ready st stopped hp err k d ps p up :
  stage (st, true, stopped, hp) err k d ps p up →
  (hp = false → st = ServerState.STOPPED) ∧ (is_Some err → hp = false).
Proof. inversion 1; subst; split; try done; by intros [? [=]]. Qed.

Lemma stage_shut st r stopped hp err k d ps p u :
  stage (st, r, stopped, hp) err k d ps p (Some u) → in_shutdown u = true →
  (r, stopped, hp, err, k, d, p) = (true, false, true, None, 1%nat, 0%nat, Some LServing) ∧
  shutting u st false ps.
Proof.
  inversion 1; subst. intros Hu.
  assert (stopped = false) as -> by (destruct u; naive_solver). naive_solver.
Qed.

(** ** What may change *)

(** The changes that keep what other threads rely on. *)
Record onward (l l' : Life) : Prop := {
  on_length : (length (li_threads l) ≤ length (li_threads l'))%nat;
  on_serve : ∀ s, li_serve l = Some s → li_serve l' = Some s;
  on_shut : ∀ u, li_shut l = Some u → li_shut l' = Some u;
  on_ready : br_ready (li_broker l) = true →
    br_ready (li_broker l') = true ∧ li_error l' = li_error l ∧
    br_has_pool (li_broker l') = br_has_pool (li_broker l);
  on_stopped : br_state (li_broker l) = ServerState.STOPPED →
    br_state (li_broker l') = ServerState.STOPPED;
  on_early : stopping_early (li_broker l) → stopping_early (li_broker l') }.

Lemma start_said_onward l l' r : onward l l' → start_said l r → start_said l' r.
Proof.
  intros [_ _ _ Hr Hs _] [Hready H]. destruct (Hr Hready) as (H1 & H2 & H3).
  split; [done|]. rewrite H2, H3. destruct r; [done|]. naive_solver.
Qed.

Lemma thread_onward l l' t p : onward l l' → thread_ok l t p → thread_ok l' t p.
Proof.
  intros Ho. pose proof (λ r, start_said_onward l l' r Ho) as Hs. destruct Ho as [_ H1 H2 _ _ H5].
  destruct p as [| |starting| | | | | | | | | | | | | | | | | |c r| | |]; cbn; auto.
  - destruct starting; [|done]. intros [s ?]. exists s. auto.
  - intros [? ?]. auto.
  - intros [? [u ?]]. split; [done|]. exists u. auto.
  - destruct c; auto.
Qed.

(** One thread moved, others were perhaps added: the rest is as it was. *)
Lemma inv_step l l' t :
  LifeInv l → onward l l' →
  (∀ t', (t' < length (li_threads l))%nat → t' ≠ t → pc_at l' t' = pc_at l t') →
  (∀ t', (t' < length (li_threads l'))%nat →
     t' = t ∨ (length (li_threads l) ≤ t')%nat → thread_ok l' t' (pc_at l' t')) →
  (∀ s, li_serve l' = Some s → (s < length (li_threads l'))%nat) →
  (∀ u, li_shut l' = Some u → (u < length (li_threads l'))%nat) →
  stage_of l' → LifeInv l'.
Proof.
  intros Hi Ho Hsame Hnew Hs Hu Hst. split; try done. intros t' Ht'.
  destruct (decide (t' = t)) as [->|Hne]; [by apply Hnew; [|left]|].
  destruct (Nat.lt_ge_cases t' (length (li_threads l))) as [Hlt|Hge].
  - rewrite Hsame by done. eapply thread_onward; [done|]. by apply (lv_threads _ Hi).
  - apply Hnew; auto.
Qed.

(** ** What the operations do to the flags *)

Section LifecycleInv.
Context {J : JsonText} {U : UnicodeData} {HQ : HeapQ Z Z.le}.
Context (sha256_hex : bytes → pystr) (repr_exn : exn → pystr).
Context (cfg : ServerConfig).
Notation server_exec := (BrokerStep.exec sha256_hex repr_exn cfg).
Notation life_run := (life_run repr_exn cfg).
Notation life_exec := (life_exec sha256_hex repr_exn cfg).

Lemma life_flags b b' : life b' = life b → flags b' = flags b.
Proof. unfold life, flags. by intros [= -> -> -> -> _ _ _ _]. Qed.

Lemma tame_flags {A} (m : ST Broker A) b : respects (tame cfg) m → flags (m b).1 = flags b.
Proof. intros H. apply life_flags, H. Qed.

Lemma start_begin_run b :
  start_begin false b
  = if decide (br_state b = ServerState.CREATED)
    then ({| b with br_state := ServerState.STARTING |}, Ok true)
    else (b, Err (Raise RuntimeError "a stopped remote server cannot be started")).
Proof. unfold start_begin. run_st. unfold id. case_bool_decide; case_decide; done. Qed.

Lemma initialize_begin_run b :
  initialize_begin b
  = if decide (br_state b = ServerState.STARTING) then (b, Ok true)
    else if decide (br_state b = ServerState.STOPPING)
    then ({| b with br_state := ServerState.STOPPED; br_ready := true; br_stopped := true |}, Ok false)
    else (b, Ok false).
Proof.
  unfold initialize_begin. run_st. unfold id. case_bool_decide; case_decide; try done.
  case_bool_decide; case_decide; done.
Qed.

Lemma initialize_publish_run bound b :
  initialize_publish bound b
  = if decide (br_state b = ServerState.STARTING)
    then ({| b with br_has_pool := true; br_bound := bound; br_state := ServerState.RUNNING;
                    br_ready := true |}, Ok true)
    else (b, Ok false).
Proof. unfold initialize_publish. run_st. unfold id. case_bool_decide; case_decide; done. Qed.

Lemma initialize_cancelled_flags b :
  flags (initialize_cancelled b).1 = (ServerState.STOPPED, true, true, br_has_pool b).
Proof. done. Qed.
Lemma initialize_closed_flags b :
  flags (initialize_closed b).1 = (br_state b, true, true, br_has_pool b).
Proof. done. Qed.
Lemma finish_shutdown_end_flags b :
  flags (finish_shutdown_end b).1 = (ServerState.STOPPED, br_ready b, true, br_has_pool b).
Proof. done. Qed.

(** The flags after [shutdown], and whether it runs the shutdown thread. *)
Definition shutdown_flags (b : Broker) : (ServerState.t * bool * bool * bool) * bool :=
  match br_state b with
  | ServerState.STOPPED => (flags b, false)
  | ServerState.CREATED => ((ServerState.STOPPED, true, true, br_has_pool b), false)
  | ServerState.STARTING =>
      ((ServerState.STOPPING, br_ready b, br_stopped b, br_has_pool b), false)
  | ServerState.RUNNING =>
      ((ServerState.DRAINING, br_ready b, br_stopped b, br_has_pool b), true)
  | ServerState.DRAINING => (flags b, true)
  | ServerState.STOPPING => (flags b, br_ready b)
  end.

Lemma shutdown_run cf d now b b' r :
  shutdown cf d now b = (b', r) →
  match r with
  | Err _ => b' = b
  | Ok joins => (flags b', joins) = shutdown_flags b
  end.
Proof.
  unfold shutdown, shutdown_flags, flags. unfold mbind at 1, ST_bind at 1, lift.
  destruct (validate_shutdown_deadline d) as [v|e]; cbv zeta; [|by intros [= <- <-]].
  rewrite run_gets. unfold id.
  destruct (br_state b) eqn:E; run_st; cbn; try (by intros [= <- <-]; cbn; rewrite ?E).
  destruct (br_ready b) eqn:Er; cbn; intros [= <- <-]; cbn; by rewrite ?E, ?Er.
Qed.

(** A turn of the shutdown loop keeps the flags but for the state, which it may move. *)
Definition turned (b b' : Broker) : Prop :=
  flags b' = flags b ∨
  flags b' = (ServerState.STOPPING, br_ready b, br_stopped b, br_has_pool b).
#[local] Instance turned_preorder : PreOrder turned.
Proof.
  split; [by left|]. unfold turned, flags. intros b1 b2 b3 [H1|H1] [H2|H2];
    inversion H1; inversion H2; rewrite ?H1, ?H2; naive_solver congruence.
Qed.

Context (Hlim : limits_ok (cf_limits cfg)).

Lemma turn_flags now b : turned b (finish_shutdown_turn repr_exn cfg now b).1.
Proof.
  assert (Ht : ∀ m : ST Broker unit, respects (tame cfg) m → respects turned m).
  { intros m Hm s. left. by apply tame_flags. }
  assert (Hs : respects turned (set_state ServerState.STOPPING)).
  { apply respects_modify. intros s. by right. }
  revert b. change (respects turned (finish_shutdown_turn repr_exn cfg now)).
  unfold finish_shutdown_turn. apply respects_bind; [typeclasses eauto|by intros ?; left|].
  intros s. destruct (all_terminal s); [done|].
  apply respects_bind; [typeclasses eauto| |intros _].
  { destruct (br_shutdown_cancel_futures s); [|by intros ?; left].
    apply Ht, respects_for_each; [typeclasses eauto|]. intros r.
    by apply tame_shutdown_cancel_one, queue_limit_positive. }
  apply respects_bind; [typeclasses eauto|by intros ?; left|]. intros s'.
  destruct (reached now _); [|by intros ?; left].
  apply respects_bind; [typeclasses eauto| |done].
  apply Ht, respects_for_each; [typeclasses eauto|]. intros r.
  by apply tame_shutdown_deadline_one, queue_limit_positive.
Qed.

(** ** Moving a thread *)

(** The stage of [l], with the places of the two threads as they are seen. *)
Lemma stage_set l t p :
  (t < length (li_threads l))%nat →
  stage_of (set_pc t p l) ↔
  stage (flags (li_broker l)) (li_error l) (li_built l) (li_discarded l) (li_pool_stopped l)
    ((λ s, if decide (s = t) then p else pc_at l s) <$> li_serve l)
    ((λ u, if decide (u = t) then p else pc_at l u) <$> li_shut l).
Proof.
  intros Ht. unfold stage_of. cbn.
  destruct (li_serve l), (li_shut l); cbn; by rewrite ?pc_set by done.
Qed.

Lemma stage_neutral l t p :
  stage_of l → (t < length (li_threads l))%nat → neutral (pc_at l t) → settled p →
  stage_of (set_pc t p l).
Proof.
  intros H Ht Hn Hp. apply stage_set; [done|]. unfold stage_of in H.
  destruct (li_shut l) as [u|]; cbn in *.
  - case_decide as Hu; subst; [by destruct (stage_shutting_fixed _ _ _ _ _ _ _ H)|].
    destruct (li_serve l) as [s|]; cbn in *; [|done].
    case_decide; subst; [by eapply stage_serving_moves|done].
  - destruct (li_serve l) as [s|]; cbn in *; [|done].
    case_decide; subst; [by eapply stage_serving_moves|done].
Qed.

(** ** Steps that keep the flags *)

#[export] Instance onward_preorder : PreOrder onward.
Proof.
  split; [by intros l|]. intros l1 l2 l3 [] []. split; auto; [lia|].
  intros Hr. destruct (on_ready0 Hr) as (Hr2 & He & Hp). destruct (on_ready1 Hr2) as (? & ? & ?).
  split_and!; congruence.
Qed.

(** The invariant holds after a step that others can rely on. *)
Definition goes (l l' : Life) : Prop := LifeInv l' ∧ onward l l'.

Lemma goes_then l l1 l2 : goes l l1 → (LifeInv l1 → goes l1 l2) → goes l l2.
Proof. intros [H1 H2] H. destruct (H H1) as [H3 H4]. split; [done|]. by etransitivity. Qed.

Lemma onward_same l l' :
  (length (li_threads l) ≤ length (li_threads l'))%nat → li_serve l' = li_serve l →
  li_shut l' = li_shut l → li_error l' = li_error l →
  flags (li_broker l') = flags (li_broker l) → onward l l'.
Proof.
  unfold flags. intros Hn Hs Hu He [= Hst Hr Hp Hb].
  split; unfold stopping_early; rewrite ?Hs, ?Hu, ?He, ?Hst, ?Hr, ?Hb; auto.
Qed.

(** Thread [t] moves to [p], the rest of the state to that of [l0]. *)
Lemma inv_role l l0 t p :
  LifeInv l → (t < length (li_threads l))%nat → li_threads l0 = li_threads l →
  li_serve l0 = li_serve l → li_shut l0 = li_shut l → onward l l0 → thread_ok l0 t p →
  stage_of (set_pc t p l0) → goes l (set_pc t p l0).
Proof.
  intros Hi Ht Et Es Eu Ho Hp Hst.
  assert (Hpc : ∀ t', pc_at (set_pc t p l0) t' = if decide (t' = t) then p else pc_at l t').
  { intros t'. rewrite pc_set by (by rewrite Et). unfold pc_at. by rewrite Et. }
  assert (Ho' : onward l (set_pc t p l0)) by (destruct Ho; by split; rewrite ?set_pc_threads).
  split; [|done]. apply (inv_step l _ t); try done.
  - intros t' _ Hne. by rewrite Hpc, decide_False.
  - rewrite set_pc_threads, Et. intros t' Hlt [->|Hge]; [|lia]. by rewrite Hpc, decide_True.
  - rewrite set_pc_threads, Et. cbn. rewrite Es. apply (lv_serve _ Hi).
  - rewrite set_pc_threads, Et. cbn. rewrite Eu. apply (lv_shut _ Hi).
Qed.

Lemma inv_move l t p :
  LifeInv l → (t < length (li_threads l))%nat → thread_ok l t p →
  stage_of (set_pc t p l) → goes l (set_pc t p l).
Proof. intros. by apply (inv_role l). Qed.

Lemma inv_neutral l t p :
  LifeInv l → (t < length (li_threads l))%nat → neutral (pc_at l t) → settled p →
  thread_ok l t p → goes l (set_pc t p l).
Proof. intros Hi Ht Hn Hp Hok. apply inv_move; [done..|]. apply stage_neutral; [apply Hi|done..]. Qed.

(** A call ends in a place where its thread can be. *)
Lemma inv_leave l t c r :
  LifeInv l → (t < length (li_threads l))%nat → neutral (pc_at l t) →
  (c = CStart → start_said l r) → goes l (leave t c r l).
Proof.
  intros Hi Ht Hn Hc. unfold leave. destruct (th_server _); apply inv_neutral; try done.
  destruct c; try done. by apply Hc.
Qed.

Lemma inv_same_flags l b :
  LifeInv l → flags b = flags (li_broker l) → goes l (set_broker b l).
Proof.
  intros Hi Hb. assert (Ho : onward l (set_broker b l)) by (by apply onward_same).
  split; [|done]. destruct Hi as [H1 H2 H3 H4]. split; try done.
  - unfold stage_of in *. cbn. by rewrite Hb.
  - intros t Ht. eapply thread_onward; [done|]. by apply H4.
Qed.

Lemma inv_new l :
  LifeInv l → goes l {| l with li_threads := li_threads l ++ [mkThread false LIdle] |}.
Proof.
  set (l' := {| l with li_threads := _ |}). intros Hi.
  assert (Hlen : length (li_threads l') = S (length (li_threads l))) by (cbn; rewrite length_app; cbn; lia).
  assert (Hpc : ∀ t, (t < length (li_threads l))%nat → pc_at l' t = pc_at l t).
  { intros t Ht. unfold pc_at. cbn. by rewrite lookup_total_snoc. }
  assert (Hrole : ∀ o, (∀ t, o = Some t → (t < length (li_threads l))%nat) → pc_at l' <$> o = pc_at l <$> o).
  { intros [t|] Ho; [|done]. cbn. by rewrite Hpc by auto. }
  assert (Ho : onward l l') by (apply onward_same; try done; lia).
  split; [|done]. apply (inv_step l l' (length (li_threads l))); try done.
  - intros t Ht _. by apply Hpc.
  - rewrite Hlen. intros t Hlt Hor. replace t with (length (li_threads l)) by lia.
    unfold pc_at. cbn. by rewrite lookup_total_last.
  - intros s Hs. rewrite Hlen. pose proof (lv_serve _ Hi s Hs). lia.
  - intros u Hu. rewrite Hlen. pose proof (lv_shut _ Hi u Hu). lia.
  - unfold stage_of. change (li_serve l') with (li_serve l). change (li_shut l') with (li_shut l).
    rewrite !Hrole by apply Hi. apply Hi.
Qed.

(** ** The serving thread *)

Lemma serving_stage l t :
  LifeInv l → li_serve l = Some t →
  stage (flags (li_broker l)) (li_error l) (li_built l) (li_discarded l) (li_pool_stopped l)
    (Some (pc_at l t)) (pc_at l <$> li_shut l).
Proof. intros Hi Hs. pose proof (lv_stage _ Hi) as H. unfold stage_of in H. by rewrite Hs in H. Qed.

(** It is not the shutdown thread. *)
Lemma roles_differ l t u :
  LifeInv l → li_serve l = Some t → li_shut l = Some u → pc_at l t ≠ LExit → u ≠ t.
Proof.
  intros Hi Hs Hu Hne ->. pose proof (serving_stage l t Hi Hs) as H. rewrite Hu in H. cbn in H.
  inversion H; subst. destruct (pc_at l t); naive_solver.
Qed.

(** The serving thread moves from [pc_at l t] to [p] and the rest of the state to [l0]. *)
Lemma inv_serving l l0 t p :
  LifeInv l → li_serve l = Some t → pc_at l t ≠ LExit → li_threads l0 = li_threads l →
  li_serve l0 = li_serve l → li_shut l0 = li_shut l → onward l l0 → thread_ok l0 t p →
  stage (flags (li_broker l0)) (li_error l0) (li_built l0) (li_discarded l0) (li_pool_stopped l0)
    (Some p) (pc_at l <$> li_shut l) → goes l (set_pc t p l0).
Proof.
  intros Hi Hs Hne Et Es Eu Ho Hok Hst. pose proof (lv_serve _ Hi t Hs) as Ht.
  apply (inv_role l); try done. apply stage_set; [by rewrite Et|].
  rewrite Es, Eu, Hs. cbn. rewrite decide_True by done.
  destruct (li_shut l) as [u|] eqn:Hu; [|done]. cbn in *.
  rewrite decide_False by (by eapply roles_differ). unfold pc_at in *. by rewrite Et.
Qed.

Ltac onward_auto :=
  split; unfold stopping_early; cbn; try done; intros; intuition (try congruence).
Ltac eqs := repeat match goal with E : _ (li_broker _) = _ |- _ => rewrite E end.

Lemma starting_view l t :
  LifeInv l → li_serve l = Some t → br_stopped (li_broker l) = false →
  pc_at l t ≠ LServing → (∀ bg e, pc_at l t ≠ LClosed bg e) →
  br_ready (li_broker l) = false ∧ br_has_pool (li_broker l) = false ∧ li_error l = None ∧
  li_pool_stopped l = false ∧ li_shut l = None ∧
  (br_state (li_broker l) = ServerState.STARTING ∨ br_state (li_broker l) = ServerState.STOPPING) ∧
  starting (pc_at l t) (br_state (li_broker l)) (li_built l) (li_discarded l).
Proof.
  intros Hi Hs Hd H1 H2. pose proof (serving_stage l t Hi Hs) as H. unfold flags in H. rewrite Hd in H.
  apply stage_starting in H as ([= Er Eh Ee Ep Eu] & H3 & H4); [|done..].
  split_and!; try done. by destruct (li_shut l).
Qed.

Lemma inv_initialize_enter l t bg :
  LifeInv l → li_serve l = Some t → pc_at l t = LInit bg → goes l (initialize_enter t bg l).
Proof.
  intros Hi Hs Hpc. pose proof (serving_stage l t Hi Hs) as H. unfold flags in H.
  assert (Hgo : ∀ l0 p, li_threads l0 = li_threads l → li_serve l0 = li_serve l →
    li_shut l0 = li_shut l → onward l l0 → thread_ok l0 t p →
    stage (flags (li_broker l0)) (li_error l0) (li_built l0) (li_discarded l0) (li_pool_stopped l0)
      (Some p) (pc_at l <$> li_shut l) → goes l (set_pc t p l0))
    by (intros; apply (inv_serving l); try done; by rewrite Hpc).
  unfold initialize_enter. rewrite initialize_begin_run.
  destruct (br_stopped (li_broker l)) eqn:Ed.
  - apply stage_stopped in H as (Es & _ & Hany). rewrite Es. cbn. apply Hgo; try done.
    unfold flags. cbn. rewrite Ed. by apply Hany.
  - destruct (starting_view l t) as (Er & Eh & Ee & Ep & Eu & Est & Hk); rewrite ?Hpc in *; try done.
    destruct Hk as [Ek Edd]. destruct Est as [Est|Est]; rewrite Est; cbn; apply Hgo; try done.
    + unfold flags. cbn. eqs. rewrite Ee, Ep, Eu. constructor; [by left|done].
    + onward_auto.
    + unfold flags. cbn. eqs. rewrite Ep, Eu, Ek, Edd. constructor; [lia|done].
Qed.

Lemma startup_view l t :
  LifeInv l → li_serve l = Some t → in_startup (pc_at l t) = true →
  br_stopped (li_broker l) = false ∧ li_shut l = None.
Proof.
  intros Hi Hs Hp. apply (serving_stage l t Hi), stage_startup in Hs as [H1 H2]; [|done].
  split; [done|]. by destruct (li_shut l).
Qed.

Lemma inv_startup l l0 t p :
  LifeInv l → li_serve l = Some t → in_startup (pc_at l t) = true →
  li_threads l0 = li_threads l → li_serve l0 = li_serve l → li_shut l0 = li_shut l →
  onward l l0 → thread_ok l0 t p →
  stage (flags (li_broker l0)) (li_error l0) (li_built l0) (li_discarded l0) (li_pool_stopped l0)
    (Some p) None → goes l (set_pc t p l0).
Proof.
  intros Hi Hs Hp. destruct (startup_view l t Hi Hs Hp) as [_ Hu]. intros.
  apply (inv_serving l); try done; [by intros E; rewrite E in Hp|by rewrite Hu].
Qed.

(** Every section of the start but the first. *)
Lemma inv_startup_run l t v :
  LifeInv l → li_serve l = Some t → in_startup (pc_at l t) = true → en_started v = true →
  (∀ bg e, pc_at l t ≠ LClosed bg e) → goes l (life_run t v l).
Proof.
  intros Hi Hs Hp Hv Hc. pose proof (λ l0 p, inv_startup l l0 t p Hi Hs Hp) as Hgo.
  destruct (startup_view l t Hi Hs Hp) as [Hd _].
  destruct (starting_view l t) as (Er & Eh & Ee & Ep & Eu & Est & Hk); try done.
  { intros E. by rewrite E in Hp. }
  unfold life_run. destruct (pc_at l t) as [| | | |bg|bg|bg bound|bg|bg|bg e| | | | | | | | | | | | | |] eqn:Hpc;
    try done; cbn [starting] in Hk.
  - destruct Hk as [Ek Edd]. unfold initialize_build.
    destruct (en_factory v) as [e|]; apply Hgo; try done; unfold flags; cbn; eqs;
      rewrite Ee, Ep, Ek, Edd; constructor; cbn; auto; lia.
  - destruct Hk as [Ek Edd]. unfold initialize_bind.
    destruct (en_bind v) as [bound|e]; apply Hgo; try done; unfold flags; cbn; eqs;
      rewrite Ee, Ep, Ek, Edd; constructor; cbn; auto; lia.
  - destruct Hk as [Ek Edd]. unfold initialize_share. rewrite initialize_publish_run, Hv.
    destruct Est as [Est|Est]; rewrite Est; cbn; apply Hgo; try done.
    + onward_auto.
    + unfold flags; cbn. rewrite Hd, Ee, Ep, Ek, Edd. constructor.
    + unfold flags; cbn; eqs. rewrite Ee, Ep, Ek, Edd. constructor; cbn; auto.
  - destruct Hk as (Es & Ek & Edd). apply Hgo; try done. unfold flags; cbn; eqs.
    rewrite Ee, Ep, Ek, Edd. constructor; cbn; auto.
  - destruct Hk as (Es & Ek & Edd). apply Hgo; try done; [onward_auto|]. cbn.
    rewrite initialize_cancelled_flags, Eh, Ep, Ek, Edd. constructor; [lia|done].
  - destruct Hk as (Ek & Hle). unfold serve_failed. apply Hgo; try done; [onward_auto|].
    unfold flags; cbn; eqs. rewrite Ep, <- Ek. by constructor.
Qed.

Lemma inv_serve_closed l t bg e :
  LifeInv l → li_serve l = Some t → pc_at l t = LClosed bg e → goes l (serve_closed t bg e l).
Proof.
  intros Hi Hs Hpc. pose proof (serving_stage l t Hi Hs) as H. rewrite Hpc in H.
  apply stage_closing in H as ([= Est Er Ed Eh] & Ee & Ek & Hk & Ep & Eu).
  assert (Hgo : ∀ p, settled p →
    thread_ok (set_broker (initialize_closed (li_broker l)).1 l) t p →
    goes l (set_pc t p (set_broker (initialize_closed (li_broker l)).1 l))).
  { intros p Hset Hok. apply (inv_startup l); try done; [by rewrite Hpc|onward_auto|].
    cbn. rewrite initialize_closed_flags, Est, Eh, Ep, <- Ek. by constructor. }
  unfold serve_closed, leave. by destruct (th_server _); apply Hgo.
Qed.

(** ** Calls *)

(** A thread that is neither of the two moves as it likes. *)
Lemma inv_bystander l t p :
  LifeInv l → (t < length (li_threads l))%nat → li_serve l ≠ Some t →
  (∀ st stopped pool, ¬ shutting (pc_at l t) st stopped pool) → thread_ok l t p →
  goes l (set_pc t p l).
Proof.
  intros Hi Ht Hs Hp Hok. apply inv_move; [done..|]. apply stage_set; [done|].
  pose proof (lv_stage _ Hi) as H. unfold stage_of in H.
  assert (Hu : li_shut l ≠ Some t).
  { intros Hu. rewrite Hu in H. inversion H; subst. by eapply Hp. }
  destruct (li_serve l) as [s|], (li_shut l) as [u|]; cbn in *;
    rewrite ?decide_False by congruence; done.
Qed.

(** A new thread of the server. *)
Lemma inv_spawn l l0 p :
  LifeInv l → li_threads l0 = li_threads l → onward l l0 →
  (∀ s, li_serve l0 = Some s → (s ≤ length (li_threads l))%nat) →
  (∀ u, li_shut l0 = Some u → (u ≤ length (li_threads l))%nat) →
  thread_ok l0 (length (li_threads l)) p → stage_of (add_thread p l0) →
  goes l (add_thread p l0).
Proof.
  intros Hi Et Ho Hs Hu Hok Hst.
  assert (Hlen : length (li_threads (add_thread p l0)) = S (length (li_threads l)))
    by (cbn; rewrite length_app, Et; cbn; lia).
  assert (Ho' : onward l (add_thread p l0)) by (destruct Ho; split; try done; rewrite Hlen; lia).
  split; [|done]. apply (inv_step l _ (length (li_threads l))); try done.
  - intros t Ht _. rewrite pc_before by (by rewrite Et). unfold pc_at. by rewrite Et.
  - rewrite Hlen. intros t Hlt Hor. replace t with (length (li_threads l)) by lia.
    rewrite <- Et at 2. by rewrite pc_added.
  - intros s H. rewrite Hlen. pose proof (Hs s H). lia.
  - intros u H. rewrite Hlen. pose proof (Hu u H). lia.
Qed.

Lemma unserved_view l :
  LifeInv l → li_serve l = None →
  li_error l = None ∧ li_built l = 0%nat ∧ li_discarded l = 0%nat ∧ li_pool_stopped l = false ∧
  li_shut l = None ∧
  (flags (li_broker l) = (ServerState.CREATED, false, false, false) ∨
   flags (li_broker l) = (ServerState.STOPPED, true, true, false)).
Proof.
  intros Hi Hs. pose proof (lv_stage _ Hi) as H. unfold stage_of in H. rewrite Hs in H.
  apply stage_unserved in H as ([= ? ? ? ? Hu] & Hf). split_and!; try done. by destruct (li_shut l).
Qed.

Lemma inv_enter_start l t v :
  LifeInv l → (t < length (li_threads l))%nat → pc_at l t = LEnter CStart →
  en_started v = true → goes l (enter_start t v l).
Proof.
  intros Hi Ht Hpc Hv. unfold enter_start. destruct (li_serve l) as [s|] eqn:Hs.
  { apply inv_neutral; try done; [by rewrite Hpc|by exists s]. }
  destruct (unserved_view l Hi Hs) as (Ee & Ek & Ed & Ep & Eu & [Hf|Hf]); unfold flags in Hf;
    injection Hf as Est Er Edd Eh; rewrite start_begin_run.
  - rewrite decide_True, Hv by done. cbv beta iota zeta. match goal with |- goes l (set_pc _ _ ?x) => set (l2 := x) end.
    assert (Hpc2 : pc_at l2 t = LEnter CStart) by (unfold l2; by rewrite pc_before).
    assert (Hnew : pc_at l2 (length (li_threads l)) = LEnter CServe)
      by (unfold pc_at; cbn; by rewrite lookup_total_last).
    apply (goes_then _ l2).
    + apply (inv_spawn l); try done.
      * onward_auto.
      * by intros s [= <-].
      * cbn. by rewrite Eu.
      * assert (Hsv : pc_at l2 <$> li_serve l2 = Some (LEnter CServe)) by (by rewrite <- Hnew).
        assert (Hsh : pc_at l2 <$> li_shut l2 = None) by (cbn; by rewrite Eu).
        change (stage_of l2). unfold stage_of. rewrite Hsv, Hsh. unfold flags; cbn; eqs.
        rewrite Ee, Ek, Ed, Ep. constructor; cbn; auto.
    + intros Hi2. apply inv_neutral; [done|cbn; rewrite length_app; cbn; lia|by rewrite Hpc2|done|].
      cbn. by eexists.
  - rewrite decide_False by (by rewrite Est).
    apply inv_leave; try done; [by rewrite Hpc|]. intros _. split; [done|]. split_and!; auto.
Qed.

(** The serving thread again: a server that stopped, or its first section. *)
Lemma inv_serve_again l t :
  LifeInv l → li_serve l = Some t → pc_at l t = LEnter CServe → goes l (set_pc t (LInit true) l).
Proof.
  intros Hi Hs Hpc. pose proof (serving_stage l t Hi Hs) as H. unfold flags in H.
  apply (inv_serving l); try done; [by rewrite Hpc|]. unfold flags.
  destruct (br_stopped (li_broker l)) eqn:Ed.
  - apply stage_stopped in H as (_ & _ & Hany). by apply Hany.
  - destruct (starting_view l t) as (Er & Eh & Ee & Ep & Eu & Est & Hk); rewrite ?Hpc in *; try done.
    rewrite Er, Eh, Ee, Ep, Eu. by constructor.
Qed.

Lemma inv_enter_serve l t :
  LifeInv l → (t < length (li_threads l))%nat → pc_at l t = LEnter CServe →
  goes l (enter_serve t l).
Proof.
  intros Hi Ht Hpc. unfold enter_serve. destruct (li_serve l) as [s|] eqn:Hs.
  { case_decide as Hst; [subst; by apply inv_serve_again|]. unfold leave.
    destruct (th_server _); apply inv_bystander; rewrite ?Hpc; try done; first [congruence|by intros ? ? ? []]. }
  destruct (unserved_view l Hi Hs) as (Ee & Ek & Ed & Ep & Eu & [Hf|Hf]); unfold flags in Hf;
    injection Hf as Est Er Edd Eh; rewrite start_begin_run.
  - rewrite decide_True by done. cbv beta iota zeta.
    match goal with |- goes l (set_pc _ _ ?x) => set (l0 := x) end.
    assert (Hpcs : ∀ t', pc_at (set_pc t (LInit false) l0) t' = if decide (t' = t) then LInit false else pc_at l t')
      by (intros t'; by rewrite pc_set).
    assert (Ho : onward l (set_pc t (LInit false) l0)).
    { split; rewrite ?set_pc_threads; unfold stopping_early; cbn; try done; try congruence.
      rewrite Est, Er. naive_solver. }
    split; [|done]. apply (inv_step l _ t); rewrite ?set_pc_threads; try done.
    + intros t' _ Hne. by rewrite Hpcs, decide_False.
    + intros t' Hlt [->|Hge]; [|cbn in Hlt; lia]. by rewrite Hpcs, decide_True.
    + by intros s [= <-].
    + cbn. by rewrite Eu.
    + apply stage_set; [done|]. cbn. rewrite decide_True, Eu by done. unfold flags; cbn; eqs.
      rewrite Ee, Ek, Ed, Ep. constructor; cbn; auto.
  - rewrite decide_False by (by rewrite Est). cbv beta iota zeta. unfold leave.
    destruct (th_server _); apply inv_bystander; rewrite ?Hpc; try done; first [congruence|by intros ? ? ? []].
Qed.

(** *** [shutdown] *)

(** Before the shutdown thread exists: what each stage becomes. *)
Lemma stage_shutdown st r stopped hp err k d ps p up b :
  stage (st, r, stopped, hp) err k d ps p up → flags b = (st, r, stopped, hp) →
  (shutdown_flags b).2 = false → stage (shutdown_flags b).1 err k d ps p up.
Proof.
  intros H Hf. pose proof Hf as Hf'. unfold flags in Hf'. injection Hf' as Est Er Ed Eh.
  unfold shutdown_flags. rewrite Est, Er, Ed, Eh, Hf.
  clear Est Er Ed Eh Hf. inversion H; subst; cbn; intros Hj; try done; try (by constructor).
  - match goal with Hor : _ ∨ _ |- _ => destruct Hor; subst; cbn end; constructor; auto.
    destruct p0; cbn in *; naive_solver.
  - destruct u; naive_solver.
Qed.

(** When it runs the shutdown thread: there is one, or there is one now. *)
Lemma stage_joins st r stopped hp err k d ps p up b :
  stage (st, r, stopped, hp) err k d ps p up → flags b = (st, r, stopped, hp) →
  (shutdown_flags b).2 = true →
  match up with
  | Some _ => (shutdown_flags b).1 = flags b
  | None => stage (shutdown_flags b).1 err k d ps p (Some LDrain)
  end.
Proof.
  intros H Hf. pose proof Hf as Hf'. unfold flags in Hf'. injection Hf' as Est Er Ed Eh.
  unfold shutdown_flags. rewrite Est, Er, Ed, Eh, Hf.
  clear Est Er Ed Eh Hf. inversion H; subst; cbn; intros Hj; try done; try (by constructor).
  - match goal with Hor : _ ∨ _ |- _ => by destruct Hor; subst end.
  - destruct u; naive_solver.
Qed.

Lemma shutdown_onward l b :
  flags b = (shutdown_flags (li_broker l)).1 → onward l (set_broker b l).
Proof.
  unfold shutdown_flags, flags. destruct (br_state (li_broker l)) eqn:E; cbn;
    intros [= Est Er Ed Eh]; split; unfold stopping_early; cbn; rewrite ?Est, ?Er, ?Eh, ?E; auto;
    naive_solver.
Qed.

Lemma starting_not_ready l :
  LifeInv l → br_state (li_broker l) = ServerState.STARTING → br_ready (li_broker l) = false.
Proof.
  intros Hi Hst. pose proof (lv_stage _ Hi) as H. unfold stage_of, flags in H. rewrite Hst in H.
  inversion H; subst; try done. destruct u; naive_solver.
Qed.

(** The shutdown thread is started. *)
Lemma inv_shutdown_thread l b :
  LifeInv l → li_shut l = None → onward l (set_broker b l) →
  stage (flags b) (li_error l) (li_built l) (li_discarded l) (li_pool_stopped l)
    (pc_at l <$> li_serve l) (Some LDrain) →
  goes l (add_thread LDrain (set_shut (Some (length (li_threads l))) (set_broker b l))).
Proof.
  intros Hi Hu Ho Hst. match goal with |- goes l ?x => set (l2 := x) end.
  apply (inv_spawn l); try done.
  - destruct Ho. split; try done. cbn. by rewrite Hu.
  - cbn. intros s Hs. pose proof (lv_serve _ Hi s Hs). lia.
  - by intros u [= <-].
  - change (stage_of l2).
    assert (Hsv : pc_at l2 <$> li_serve l2 = pc_at l <$> li_serve l).
    { cbn. destruct (li_serve l) as [s|] eqn:Hs; [|done]. cbn. unfold l2.
      by rewrite pc_before by (by apply (lv_serve _ Hi)). }
    assert (Hsh : pc_at l2 <$> li_shut l2 = Some LDrain).
    { cbn. f_equal. unfold pc_at. cbn. by rewrite lookup_total_last. }
    unfold stage_of. by rewrite Hsv, Hsh.
Qed.

Lemma inv_enter_shutdown l t wait cancel d v :
  LifeInv l → (t < length (li_threads l))%nat → pc_at l t = LEnter (CShutdown wait cancel d) →
  en_started v = true → goes l (enter_shutdown t wait cancel d v l).
Proof.
  intros Hi Ht Hpc Hv. unfold enter_shutdown. cbv zeta.
  destruct (shutdown cancel d (en_now v) (li_broker l)) as [b [joins|e]] eqn:Hsd;
    [|by apply inv_leave; try done; rewrite Hpc].
  apply shutdown_run in Hsd. pose proof (lv_stage _ Hi) as Hst. unfold stage_of in Hst.
  assert (Hf : flags b = (shutdown_flags (li_broker l)).1) by (by rewrite <- Hsd).
  assert (Hj : joins = (shutdown_flags (li_broker l)).2) by (by rewrite <- Hsd).
  pose proof (shutdown_onward l b Hf) as Ho.
  assert (Hend : ∀ l', goes l l' → (t < length (li_threads l'))%nat → pc_at l' t = pc_at l t →
    is_Some (li_shut l') →
    goes l (if may_wait wait t (li_shut l') then set_pc t (LJoin (CShutdown wait cancel d)) l'
             else leave t (CShutdown wait cancel d) (Ok true) l')).
  { intros l' Hg Ht' Hpc' Hu'. apply (goes_then _ l'); [done|]. intros Hi'. destruct (may_wait _ _ _); [apply inv_neutral|apply inv_leave];
      try done; by rewrite Hpc', Hpc. }
  destruct joins.
  - symmetry in Hj. eapply stage_joins in Hj; [|done|done].
    destruct (li_shut l) as [u|] eqn:Hu; cbn in Hj.
    + apply Hend; [by apply inv_same_flags; [|congruence]|done|done|by exists u].
    + rewrite Hv. apply Hend; [|cbn; rewrite length_app; cbn; lia|by rewrite pc_before|by eexists].
      apply inv_shutdown_thread; try done. by rewrite Hf.
  - assert (Hi' : goes l (set_broker b l)).
    { split; [|done]. destruct Hi as [H1 H2 H3 H4]. split; try done.
      - unfold stage_of. cbn. rewrite Hf. by eapply stage_shutdown.
      - intros t' Ht'. eapply thread_onward; [done|]. by apply H4. }
    apply (goes_then _ (set_broker b l)); [done|]. clear Hi'. intros Hi'.
    destruct (startup_stopping (li_broker l) && _) eqn:Ess.
    + apply inv_neutral; try done; [by change (neutral (pc_at l t)); rewrite Hpc|]. cbn. split; [done|]. apply andb_true_iff in Ess as [Ess _].
      unfold startup_stopping in Ess. apply orb_true_iff in Ess as [Ess|Ess].
      * apply bool_decide_eq_true in Ess. right. unfold shutdown_flags in Hf. rewrite Ess in Hf.
        cbn in Hf. injection Hf as Est Er _ _. split; [done|]. rewrite Er. by apply starting_not_ready.
      * apply andb_true_iff in Ess as [Est%bool_decide_eq_true Er%negb_true_iff].
        destruct Ho as [_ _ _ _ _ He]. apply He. right. by split.
    + apply inv_leave; try done. change (neutral (pc_at l t)). by rewrite Hpc.
Qed.

(** ** Waits that end *)

Lemma inv_wait_ready l t starting :
  LifeInv l → (t < length (li_threads l))%nat → pc_at l t = LReady starting →
  (starting = true → br_ready (li_broker l) = true) → goes l (wait_ready t starting l).
Proof.
  intros Hi Ht Hpc Hrun. unfold wait_ready. cbv zeta.
  assert (Hn : neutral (pc_at l t)) by (by rewrite Hpc).
  destruct (br_ready (li_broker l)) eqn:Er.
  2: { apply inv_leave; try done. destruct starting; [by specialize (Hrun eq_refl)|done]. }
  pose proof (lv_stage _ Hi) as H. unfold stage_of, flags in H. rewrite Er in H.
  apply stage_ready in H as [Hst Herr].
  destruct (li_error l) as [e|] eqn:Ee.
  - apply inv_leave; try done. intros _. split; [done|]. specialize (Herr ltac:(by eexists)).
    split_and!; auto.
  - destruct (starting && _) eqn:Ep; apply inv_leave; try done.
    + intros _. apply andb_true_iff in Ep as [_ Ep%negb_true_iff]. split; [done|].
      split_and!; auto.
    + destruct starting; [|done]. intros _. apply negb_false_iff in Ep. by split.
Qed.

(** [_stopped] is set only at the end. *)
Lemma inv_serving_done l t :
  LifeInv l → li_serve l = Some t → pc_at l t = LServing → br_stopped (li_broker l) = true →
  goes l (leave t CServe (Ok true) l).
Proof.
  intros Hi Hs Hpc Hd. pose proof (serving_stage l t Hi Hs) as H. unfold flags in H. rewrite Hd in H.
  apply stage_stopped in H as (_ & _ & Hany). unfold leave.
  destruct (th_server _); apply (inv_serving l); try done;
    first [by rewrite Hpc | unfold flags; rewrite Hd; by apply Hany].
Qed.

Lemma inv_join_end l t c :
  LifeInv l → (t < length (li_threads l))%nat → pc_at l t = LJoin c →
  c ≠ CStart → goes l (join_end t c l).
Proof.
  intros Hi Ht Hpc Hc. unfold join_end. destruct (li_shut l) as [u|]; [|by split].
  destruct (pc_at l u); apply inv_leave; try done; by rewrite Hpc.
Qed.

(** ** The shutdown thread *)

Lemma shut_view l t :
  LifeInv l → li_shut l = Some t → in_shutdown (pc_at l t) = true →
  flags (li_broker l) = (br_state (li_broker l), true, false, true) ∧
  li_error l = None ∧ li_built l = 1%nat ∧ li_discarded l = 0%nat ∧
  shutting (pc_at l t) (br_state (li_broker l)) false (li_pool_stopped l) ∧
  ∃ s, li_serve l = Some s ∧ pc_at l s = LServing.
Proof.
  intros Hi Hu Hp. pose proof (lv_stage _ Hi) as H. unfold stage_of, flags in H. rewrite Hu in H.
  apply stage_shut in H as ([= Er Ed Eh Ee Ek Edd Es] & Hs); [|done].
  unfold flags. rewrite Er, Ed, Eh. split_and!; try done.
  destruct (li_serve l) as [s|]; [|done]. exists s. by injection Es as Es.
Qed.

Lemma inv_shutting l l0 t p st stopped :
  LifeInv l → li_shut l = Some t → in_shutdown (pc_at l t) = true →
  li_threads l0 = li_threads l → li_serve l0 = li_serve l → li_shut l0 = li_shut l →
  li_error l0 = li_error l → li_built l0 = li_built l → li_discarded l0 = li_discarded l →
  onward l l0 → thread_ok l0 t p → flags (li_broker l0) = (st, true, stopped, true) →
  shutting p st stopped (li_pool_stopped l0) → goes l (set_pc t p l0).
Proof.
  intros Hi Hu Hp Et Es Eu Ee Ek Ed Ho Hok Hf Hsh. pose proof (lv_shut _ Hi t Hu) as Ht.
  destruct (shut_view l t Hi Hu Hp) as (_ & He & Hk & Hd & _ & s & Hs & Hps).
  apply (inv_role l); try done. apply stage_set; [by rewrite Et|].
  rewrite Es, Eu, Hs, Hu, Ee, Ek, Ed, He, Hk, Hd, Hf. cbn.
  rewrite decide_False by (intros ->; by rewrite Hps in Hp). rewrite decide_True by done.
  assert (pc_at l0 s = LServing) as -> by (unfold pc_at in *; by rewrite Et).
  by constructor.
Qed.

Lemma inv_drain l t v :
  LifeInv l → li_shut l = Some t → pc_at l t = LDrain → goes l (drain repr_exn cfg t v l).
Proof.
  intros Hi Hu Hpc. assert (Hp : in_shutdown (pc_at l t) = true) by (by rewrite Hpc).
  destruct (shut_view l t Hi Hu Hp) as (Hf & _ & _ & _ & Hsh & _). rewrite Hpc in Hsh.
  destruct Hsh as (Est & _ & Eps). rewrite Est in Hf.
  unfold drain. pose proof (turn_flags (en_now v) (li_broker l)) as Htf.
  destruct (finish_shutdown_turn repr_exn cfg (en_now v) (li_broker l)) as [b r]. cbn in Htf.
  assert (Hb : flags b = flags (li_broker l) ∨ flags b = (ServerState.STOPPING, true, false, true)).
  { destruct Htf as [Htf|Htf]; [by left|right]. unfold flags in Hf. congruence. }
  assert (Ho : onward l (set_broker b l)).
  { unfold flags in *. split; unfold stopping_early; cbn; try done; intros; intuition congruence. }
  assert (Hgo : ∀ p st, thread_ok (set_broker b l) t p → flags b = (st, true, false, true) →
    shutting p st false false → goes l (set_pc t p (set_broker b l))).
  { intros p st Hok Hfb Hps. eapply (inv_shutting l); try done. cbn. by rewrite Eps. }
  destruct r as [[]|e].
  - case_decide as Es.
    + apply (Hgo _ ServerState.STOPPING); try done. unfold flags in *. naive_solver congruence.
    + apply inv_same_flags; [done|]. destruct Hb as [Hb|Hb]; [done|]. by injection Hb as ?.
  - destruct Hb as [Hb|Hb]; [apply (Hgo _ ServerState.DRAINING)|apply (Hgo _ ServerState.STOPPING)];
      try done; [congruence| |]; cbn; auto.
Qed.

Lemma goodbye_flags c barrier b :
  flags (shutdown_flush cfg c barrier b).1 = flags b ∧
  flags (shutdown_goaway cfg c barrier b).1 = flags b ∧ flags (close cfg c b).1 = flags b.
Proof.
  pose proof (queue_limit_positive cfg Hlim) as Hq.
  pose proof (λ e He, tame_exec sha256_hex repr_exn cfg Hq e He b) as H.
  split_and!; apply life_flags.
  - apply (H (EvFlush c barrier)). done.
  - apply (H (EvGoaway c barrier)). done.
  - apply (H (EvCloseConnection c)). done.
Qed.

(** The sections of [_finish_shutdown] after its first loop. *)
Lemma inv_shutdown_run l t v :
  LifeInv l → li_shut l = Some t → in_shutdown (pc_at l t) = true → pc_at l t ≠ LDrain →
  goes l (life_run t v l).
Proof.
  intros Hi Hu Hp Hd. pose proof (λ l0 p st stopped, inv_shutting l l0 t p st stopped Hi Hu Hp) as Hgo.
  destruct (shut_view l t Hi Hu Hp) as (Hf & _ & _ & _ & Hsh & _).
  pose proof Hf as Hf'. unfold flags in Hf'. injection Hf' as Er Edd Eh.
  unfold life_run. destruct (pc_at l t) as [| | | | | | | | | | | | | | | | |cs|c cs|c cs| | | |] eqn:Hpc;
    try done; cbn [shutting] in Hsh; destruct Hsh as (Est & _ & Eps); rewrite Est in Hf.
  - unfold close_listeners. cbv zeta. change (br_has_pool _) with (br_has_pool (li_broker l)). rewrite Eh.
    by eapply Hgo.
  - unfold stop_pool. destruct (en_stop v) as [e|].
    + eapply Hgo; try done. cbn. rewrite Eps. auto.
    + by eapply Hgo.
  - unfold say_goodbye. destruct cs as [|c cs].
    + eapply Hgo; try done; [onward_auto|].
      cbn [li_broker set_broker]. rewrite finish_shutdown_end_flags, Er, Eh. done.
    + destruct (goodbye_flags c (en_barrier v) (li_broker l)) as (E1 & _ & _).
      apply (Hgo _ _ ServerState.STOPPING false); try done; [by apply onward_same|cbn; by rewrite E1].
  - destruct (goodbye_flags c (en_barrier v) (li_broker l)) as (_ & E2 & _).
    apply (Hgo _ _ ServerState.STOPPING false); try done; [by apply onward_same|cbn; by rewrite E2].
  - destruct (goodbye_flags c (en_barrier v) (li_broker l)) as (_ & _ & E3).
    apply (Hgo _ _ ServerState.STOPPING false); try done; [by apply onward_same|cbn; by rewrite E3].
Qed.

(** ** Every step *)

Lemma inv_run l t v :
  LifeInv l → (t < length (li_threads l))%nat → runnable t v l = true → en_started v = true →
  goes l (life_run t v l).
Proof.
  intros Hi Ht Hrun Hv. pose proof (lv_threads _ Hi t Ht) as Hok. unfold runnable in Hrun.
  destruct (pc_at l t) as [|c|starting|bg|bg|bg|bg bound|bg|bg|bg e|bg e| |c|c| | | |cs|c cs|c cs|c r| | |] eqn:Hpc;
    try done; cbn [thread_ok] in Hok.
  4-9: apply inv_startup_run; rewrite ?Hpc; done.
  9-13: apply inv_shutdown_run; rewrite ?Hpc; done.
  all: unfold life_run; rewrite Hpc.
  - destruct c as [| | |wait cancel d].
    + by apply inv_enter_start.
    + by apply inv_enter_serve.
    + apply inv_neutral; try done. by rewrite Hpc.
    + by apply inv_enter_shutdown.
  - apply inv_wait_ready; try done. intros ->. by rewrite orb_false_r in Hrun.
  - by apply inv_initialize_enter.
  - by apply inv_serve_closed.
  - by apply inv_serving_done.
  - destruct Hok as [Hc _]. apply inv_leave; try done. by rewrite Hpc.
  - destruct Hok as [Hc _]. by apply inv_join_end.
  - by apply inv_drain.
Qed.

Lemma inv_exec l e :
  LifeInv l → life_enabled e l = true → threads_start e → goes l (life_exec e l).
Proof.
  intros Hi He Hs. destruct e as [|t c|t v|e]; cbn in *.
  - by apply inv_new.
  - apply andb_true_iff in He as [Ht%Nat.ltb_lt Hc].
    apply inv_neutral; try done; by destruct (pc_at l t).
  - apply andb_true_iff in He as [Ht%Nat.ltb_lt Hr]. by apply inv_run.
  - apply inv_same_flags; [done|]. apply andb_true_iff in He as [_ He%negb_true_iff].
    apply orb_false_iff in He as [He _]. apply tame_flags, tame_exec; [|done].
    by apply queue_limit_positive.
Qed.

Lemma inv_life_init : LifeInv life_init.
Proof. split; cbn; try done; try lia. constructor. Qed.

Lemma life_started_inv l : life_started sha256_hex repr_exn cfg l → LifeInv l.
Proof.
  intros [es Hs]. revert Hs. apply steps_invariant; [|apply inv_life_init].
  intros l1 e l2 Hi (Hst & He & <-). by apply (inv_exec l1 e).
Qed.
End LifecycleInv.
