(* ===== verification/LifecycleProps.v ===== *)
(** * LifecycleProps: starting and stopping the server

    What the threads of [Lifecycle.v] do to the broker are runs of [BrokerStep.v]. [start]
    tells the truth about the pool; no pool is left behind; who waits for the server to
    start or to stop is released by the serving or the shutdown thread alone. The runs at
    the end show what the code does not guard against. *)
From S2P Require Import Prelude Errors Futures StateErr Heapq PyVal PyInt Config Worker.
From S2P Require Import Protocol Reassembly Scheduler Terminal Broker BrokerStep BrokerInv.
From S2P Require Import BrokerRefine BrokerFrame BrokerProps Lifecycle LifecycleInv.

Section LifecycleProps.
Context {J : JsonText} {U : UnicodeData} {HQ : HeapQ Z Z.le}.
Context (sha256_hex : bytes → pystr) (repr_exn : exn → pystr).
Context (cfg : ServerConfig) (Hlim : limits_ok (cf_limits cfg)).
Notation server_exec := (BrokerStep.exec sha256_hex repr_exn cfg).
Notation broker_step := (BrokerStep.broker_step sha256_hex repr_exn cfg).
Notation reachable := (BrokerStep.reachable sha256_hex repr_exn cfg).
Notation life_run := (life_run repr_exn cfg).
Notation life_exec := (life_exec sha256_hex repr_exn cfg).
Notation life_started := (life_started sha256_hex repr_exn cfg).
Notation run_alone := (run_alone repr_exn cfg).

(** ** The broker underneath *)

(** One event of the broker, or none. *)
Definition at_most (b b' : Broker) : Prop := ∃ es, steps broker_step b es b'.

Lemma at_most_none b : at_most b b.
Proof. exists []. constructor. Qed.
Lemma at_most_one b e : enabled e b = true → at_most b (server_exec e b).1.
Proof. intros He. exists [e]. econstructor; [by split|constructor]. Qed.
Lemma ignored {A} (m : ST Broker A) b : (ignore m b).1 = (m b).1.
Proof. unfold ignore, mbind, ST_bind. by destruct (m b) as [? []]. Qed.

(** Connection [c] is all that changes, if it exists. *)
Definition only_at (c : nat) (b b' : Broker) : Prop :=
  (length (br_conn_heap b) ≤ c)%nat → b' = b.
#[local] Instance only_at_preorder c : PreOrder (only_at c).
Proof. split; [done|]. intros b1 b2 b3 H1 H2 Hc. rewrite <- (H1 Hc). apply H2. by rewrite (H1 Hc). Qed.

Lemma alter_over {A} (g : A → A) l i : (length l ≤ i)%nat → alter g i l = l.
Proof.
  revert i. induction l as [|x l IH]; [done|]. intros [|i] Hi; cbn in *; [lia|].
  f_equal. apply IH. lia.
Qed.

Lemma only_upd_con c g : respects (only_at c) (upd_con c g).
Proof.
  intros b Hc. change ((upd_con c g b).1) with (set_con c g b). unfold set_con.
  rewrite alter_over by done. by destruct b.
Qed.

Ltac only_auto := repeat first [respects_step | apply only_upd_con].

Lemma only_put c item : respects (only_at c) (put_nowait cfg c item).
Proof. unfold put_nowait. only_auto. Qed.
Lemma only_close c : respects (only_at c) (close cfg c).
Proof. unfold close. only_auto. apply only_put. Qed.
Lemma only_flush c n : respects (only_at c) (shutdown_flush cfg c n).
Proof. unfold shutdown_flush, flush_begin. only_auto; first [apply only_put|apply only_close]. Qed.
Lemma only_goaway c n : respects (only_at c) (shutdown_goaway cfg c n).
Proof.
  unfold shutdown_goaway, send_, send. only_auto;
    first [apply only_put|apply only_close|apply only_flush].
Qed.

(** A connection that does not exist gets nothing; one that does, its event. *)
Lemma at_most_connection c b e :
  enabled e b = (c <? length (br_conn_heap b))%nat →
  respects (only_at c) (server_exec e) → at_most b (server_exec e b).1.
Proof.
  intros He Hr. destruct (c <? length (br_conn_heap b))%nat eqn:E; [by apply at_most_one|].
  apply Nat.ltb_ge in E. rewrite (Hr b E). apply at_most_none.
Qed.

(** Once there is a shutdown thread there always is. *)
Definition thread_kept (b b' : Broker) : Prop :=
  br_shutdown_thread b = true → br_shutdown_thread b' = true.
#[local] Instance thread_kept_preorder : PreOrder thread_kept.
Proof. split; unfold thread_kept; [by intros ? ?|]. auto. Qed.

Lemma tame_kept {A} (m : ST Broker A) : respects (tame cfg) m → respects thread_kept m.
Proof. intros H b. destruct (H b) as [[Hl _] _]. unfold life in Hl. unfold thread_kept. congruence. Qed.

Lemma turn_kept now : respects thread_kept (finish_shutdown_turn repr_exn cfg now).
Proof.
  pose proof (queue_limit_positive cfg Hlim) as Hq.
  unfold finish_shutdown_turn, set_state. repeat respects_step;
    try (apply respects_modify; by intros ? ?); apply tame_kept.
  - by apply tame_shutdown_cancel_one.
  - by apply tame_shutdown_deadline_one.
Qed.

Lemma exec_kept e : respects thread_kept (server_exec e).
Proof.
  destruct (life_event e) eqn:El.
  2: { apply tame_kept, tame_exec; [|done]. by apply queue_limit_positive. }
  destruct e; try done; cbn [exec]; unfold ignore.
  all: try apply turn_kept.
  all: unfold start_begin, initialize_begin, initialize_publish, initialize_cancelled, initialize_failed,
    initialize_closed, close_bound, set_state, set_ready_stopped, finish_shutdown_end, shutdown.
  all: repeat respects_step; apply respects_modify; by intros ? ?.
Qed.

Lemma at_most_kept b b' : at_most b b' → thread_kept b b'.
Proof.
  intros [es H]. revert H. apply (steps_preorder _ thread_kept). intros b1 e b2 [_ <-]. apply exec_kept.
Qed.

(** Without a change of the broker. *)
Lemma leave_broker t c r l : li_broker (leave t c r l) = li_broker l.
Proof. unfold leave. by destruct (th_server _). Qed.

Lemma initialize_enter_refines t bg l :
  LifeInv l → li_serve l = Some t → pc_at l t = LInit bg →
  at_most (li_broker l) (li_broker (initialize_enter t bg l)).
Proof.
  intros Hi Hs Hpc. pose proof (serving_stage l t Hi Hs) as H. unfold flags in H.
  assert (Heq : li_broker (initialize_enter t bg l) = (initialize_begin (li_broker l)).1).
  { unfold initialize_enter. by destruct (initialize_begin _) as [? [[]|]]. }
  rewrite Heq. destruct (br_stopped (li_broker l)) eqn:Ed.
  - apply stage_stopped in H as (Es & _). rewrite initialize_begin_run, Es. apply at_most_none.
  - destruct (starting_view l t) as (Er & _ & _ & _ & _ & Est & _); rewrite ?Hpc; try done.
    rewrite <- (ignored initialize_begin). apply (at_most_one _ EvInitBegin). cbn. rewrite Er.
    by destruct Est as [-> | ->].
Qed.

(** The sections of the start. *)
Lemma startup_refines t v l :
  LifeInv l → li_serve l = Some t → in_startup (pc_at l t) = true → en_started v = true →
  (∀ bg e, pc_at l t ≠ LClosed bg e) → at_most (li_broker l) (li_broker (life_run t v l)).
Proof.
  intros Hi Hs Hp Hv Hc. destruct (startup_view l t Hi Hs Hp) as [Hd _].
  destruct (starting_view l t) as (Er & Eh & _ & _ & _ & Est & Hk); try done.
  { intros E. by rewrite E in Hp. }
  unfold Lifecycle.life_run.
  destruct (pc_at l t) as [| | | |bg|bg|bg bound|bg|bg|bg e| | | | | | | | | | | | | |] eqn:Hpc;
    try done; cbn [starting] in Hk.
  - unfold initialize_build. destruct (en_factory v); apply at_most_none.
  - unfold initialize_bind. destruct (en_bind v); apply at_most_none.
  - assert (Heq : li_broker (initialize_share t bg bound v l) = (initialize_publish bound (li_broker l)).1).
    { unfold initialize_share. rewrite initialize_publish_run, Hv. by case_decide. }
    rewrite Heq, <- (ignored (initialize_publish bound)).
    apply (at_most_one _ (EvInitPublish bound)). cbn. by rewrite Er, Eh.
  - apply at_most_none.
  - destruct Hk as [Es _]. apply (at_most_one _ EvInitCancelled). cbn. by rewrite Es, Er.
  - apply (at_most_one _ EvInitFailed). cbn. by rewrite Er, Eh.
Qed.

Lemma serve_closed_refines t bg e l :
  LifeInv l → li_serve l = Some t → pc_at l t = LClosed bg e →
  at_most (li_broker l) (li_broker (serve_closed t bg e l)).
Proof.
  intros Hi Hs Hpc. pose proof (serving_stage l t Hi Hs) as H. rewrite Hpc in H.
  apply stage_closing in H as ([= Est Er Ed Eh] & _). unfold serve_closed. rewrite leave_broker.
  apply (at_most_one _ EvInitClosed). cbn. by rewrite Est, Er.
Qed.

Lemma enter_start_refines t v l :
  en_started v = true → at_most (li_broker l) (li_broker (enter_start t v l)).
Proof.
  intros Hv. unfold enter_start. destruct (li_serve l); [apply at_most_none|].
  destruct (start_begin false (li_broker l)) as [b [u|e]] eqn:E; [|rewrite leave_broker; apply at_most_none].
  rewrite Hv. cbn. replace b with (ignore (start_begin false) (li_broker l)).1 by (by rewrite ignored, E).
  by apply (at_most_one _ EvStart).
Qed.

Lemma enter_serve_refines t l : at_most (li_broker l) (li_broker (enter_serve t l)).
Proof.
  unfold enter_serve. destruct (li_serve l).
  { case_decide; [apply at_most_none|]. rewrite leave_broker. apply at_most_none. }
  destruct (start_begin false (li_broker l)) as [b [u|e]] eqn:E; [|rewrite leave_broker; apply at_most_none].
  cbn. replace b with (ignore (start_begin false) (li_broker l)).1 by (by rewrite ignored, E).
  by apply (at_most_one _ EvStart).
Qed.

Lemma enter_shutdown_refines t wait cancel d v l :
  en_started v = true → at_most (li_broker l) (li_broker (enter_shutdown t wait cancel d v l)).
Proof.
  intros Hv. assert (Heq : li_broker (enter_shutdown t wait cancel d v l) = li_broker l ∨
    li_broker (enter_shutdown t wait cancel d v l) = (shutdown cancel d (en_now v) (li_broker l)).1).
  { unfold enter_shutdown. cbv zeta. destruct (shutdown _ _ _ _) as [b [[]|e]]; cbv beta iota.
    - right. destruct (li_shut l); rewrite ?Hv; destruct (may_wait _ _ _); by rewrite ?leave_broker.
    - right. destruct (startup_stopping _ && _); by rewrite ?leave_broker.
    - left. by rewrite leave_broker. }
  destruct Heq as [-> | ->]; [apply at_most_none|]. rewrite <- ignored.
  by apply (at_most_one _ (EvShutdown cancel d (en_now v))).
Qed.

Lemma drain_refines t v l :
  LifeInv l → li_shut l = Some t → pc_at l t = LDrain → br_shutdown_thread (li_broker l) = true →
  at_most (li_broker l) (li_broker (drain repr_exn cfg t v l)).
Proof.
  intros Hi Hu Hpc Hth. assert (Heq : li_broker (drain repr_exn cfg t v l) =
    (finish_shutdown_turn repr_exn cfg (en_now v) (li_broker l)).1).
  { unfold drain. destruct (finish_shutdown_turn _ _ _ _) as [b [[]|e]]; try done. by case_decide. }
  destruct (shut_view l t Hi Hu) as (_ & _ & _ & _ & Hsh & _); [by rewrite Hpc|]. rewrite Hpc in Hsh.
  destruct Hsh as (Est & _). rewrite Heq. apply (at_most_one _ (EvShutdownTurn (en_now v))).
  cbn. by rewrite Hth, Est.
Qed.

Lemma shutdown_run_refines t v l :
  LifeInv l → li_shut l = Some t → in_shutdown (pc_at l t) = true → pc_at l t ≠ LDrain →
  at_most (li_broker l) (li_broker (life_run t v l)).
Proof.
  intros Hi Hu Hp Hd. destruct (shut_view l t Hi Hu Hp) as (_ & _ & _ & _ & Hsh & _).
  unfold Lifecycle.life_run.
  destruct (pc_at l t) as [| | | | | | | | | | | | | | | | |cs|c cs|c cs| | | |] eqn:Hpc;
    try done; cbn [shutting] in Hsh; destruct Hsh as (Est & _).
  - apply (at_most_one _ EvCloseBound). cbn. by rewrite Est.
  - unfold stop_pool. destruct (en_stop v); apply at_most_none.
  - unfold say_goodbye. destruct cs as [|c cs].
    + apply (at_most_one _ EvShutdownEnd). cbn. by rewrite Est.
    + apply (at_most_connection c _ (EvFlush c (en_barrier v))); [done|apply only_flush].
  - apply (at_most_connection c _ (EvGoaway c (en_barrier v))); [done|apply only_goaway].
  - apply (at_most_connection c _ (EvCloseConnection c)); [done|apply only_close].
Qed.

Lemma run_refines t v l :
  LifeInv l → (t < length (li_threads l))%nat → runnable t v l = true → en_started v = true →
  (is_Some (li_shut l) → br_shutdown_thread (li_broker l) = true) →
  at_most (li_broker l) (li_broker (life_run t v l)).
Proof.
  intros Hi Ht Hrun Hv Hth. pose proof (lv_threads _ Hi t Ht) as Hok. unfold runnable in Hrun.
  destruct (pc_at l t) as [|c|starting|bg|bg|bg|bg bound|bg|bg|bg e|bg e| |c|c| | | |cs|c cs|c cs|c r| | |] eqn:Hpc;
    try done; cbn [thread_ok] in Hok.
  4-9: apply startup_refines; rewrite ?Hpc; done.
  9-13: apply shutdown_run_refines; rewrite ?Hpc; done.
  all: unfold Lifecycle.life_run; rewrite Hpc.
  - destruct c as [| | |wait cancel d].
    + by apply enter_start_refines.
    + apply enter_serve_refines.
    + apply at_most_none.
    + by apply enter_shutdown_refines.
  - unfold wait_ready. repeat case_match; rewrite leave_broker; apply at_most_none.
  - by apply initialize_enter_refines.
  - by apply serve_closed_refines.
  - rewrite leave_broker. apply at_most_none.
  - rewrite leave_broker. apply at_most_none.
  - unfold join_end. repeat case_match; rewrite ?leave_broker; apply at_most_none.
  - apply drain_refines; try done. apply Hth. by exists t.
Qed.

Lemma leave_shut t c r l : li_shut (leave t c r l) = li_shut l.
Proof. unfold leave. by destruct (th_server _). Qed.

Lemma shutdown_sets_thread cf d now b b' :
  shutdown cf d now b = (b', Ok true) → br_shutdown_thread b' = true.
Proof.
  unfold shutdown. unfold mbind at 1, ST_bind at 1, lift.
  destruct (validate_shutdown_deadline d) as [w|e]; cbv zeta; [|done].
  rewrite run_gets. unfold id. destruct (br_state b); run_st; cbn; try done; try (by intros [= <-]).
  destruct (br_ready b); cbn; by intros [= <-].
Qed.

(** Only [shutdown] makes a shutdown thread. *)
Lemma run_shut t v l :
  is_Some (li_shut (life_run t v l)) →
  is_Some (li_shut l) ∨ br_shutdown_thread (li_broker (life_run t v l)) = true.
Proof.
  unfold Lifecycle.life_run. destruct (pc_at l t); try (intros ?; by left).
  - destruct c; try (intros ?; by left).
    + unfold enter_start. repeat case_match; rewrite ?leave_shut; intros ?; by left.
    + unfold enter_serve. repeat case_match; rewrite ?leave_shut; intros ?; by left.
    + unfold enter_shutdown. cbv zeta.
      destruct (shutdown _ _ _ _) as [b [[]|e]] eqn:E; cbv beta iota; [right|left|left].
      * apply shutdown_sets_thread in E.
        destruct (li_shut l), (en_started v); try destruct (may_wait _ _ _); by rewrite ?leave_broker.
      * destruct (startup_stopping _ && _); by rewrite ?leave_shut in *.
      * by rewrite leave_shut in *.
  - unfold wait_ready. repeat case_match; rewrite ?leave_shut; intros ?; by left.
  - unfold initialize_enter. repeat case_match; intros ?; by left.
  - unfold initialize_build. repeat case_match; intros ?; by left.
  - unfold initialize_bind. repeat case_match; intros ?; by left.
  - unfold initialize_share. repeat case_match; intros ?; by left.
  - unfold join_end. destruct (li_shut l) as [u|] eqn:Eu; [intros _; left; by exists u|].
    rewrite Eu. by left.
  - unfold drain. repeat case_match; intros ?; by left.
  - unfold stop_pool. repeat case_match; intros ?; by left.
  - unfold say_goodbye. repeat case_match; intros ?; by left.
Qed.

(** A step is a run of the broker. *)
Definition sound (l : Life) : Prop :=
  LifeInv l ∧ (is_Some (li_shut l) → br_shutdown_thread (li_broker l) = true).

Lemma step_sound l e l' :
  sound l → life_started_step sha256_hex repr_exn cfg l e l' →
  sound l' ∧ at_most (li_broker l) (li_broker l').
Proof.
  intros [Hi Hth] (Hs & He & <-).
  assert (Hb : at_most (li_broker l) (li_broker (life_exec e l))).
  { destruct e as [|t c|t v|e]; cbn in *; try apply at_most_none.
    - apply andb_true_iff in He as [Ht%Nat.ltb_lt Hr]. by apply run_refines.
    - apply andb_true_iff in He as [He _]. by apply at_most_one. }
  split; [|done]. split; [by apply (inv_exec sha256_hex repr_exn cfg Hlim l e)|].
  pose proof (at_most_kept _ _ Hb) as Hk. intros Hu.
  destruct e as [|t c|t v|e]; cbn in Hu; try (by apply Hk, Hth).
  destruct (run_shut t v l Hu) as [H|H]; [by apply Hk, Hth|done].
Qed.

Lemma started_sound l : life_started l → sound l ∧ reachable (li_broker l).
Proof.
  intros [es Hs]. revert Hs.
  apply (steps_invariant _ (λ l, sound l ∧ reachable (li_broker l))).
  - intros l1 e l2 [Hs [es1 Hr]] Hst. destruct (step_sound _ _ _ Hs Hst) as [Hs2 [es2 Hb]].
    split; [done|]. exists (es1 ++ es2). by eapply steps_app.
  - split; [split; [apply inv_life_init|by intros [? [=]]]|]. exists []. constructor.
Qed.

(** The threads of the life cycle do nothing to the broker that the events of
    [BrokerStep.v] do not do: what holds of every reachable broker holds here. *)
Theorem life_refines l : life_started l → reachable (li_broker l).
Proof. apply started_sound. Qed.

(** ** What [start] says *)

(** [start] tells the truth, whatever other threads do: it returns only when the server has
    published its pool and its listeners and no start failed, and it raises only when the server
    is stopped and has no pool and never will; what it raises is then what made the start fail,
    or a RuntimeError. *)
Theorem start_outcome l t r :
  life_started l → (t < length (li_threads l))%nat → pc_at l t = LReturn CStart r →
  br_ready (li_broker l) = true ∧
  match r with
  | Ok b => b = true ∧ br_has_pool (li_broker l) = true ∧ li_error l = None
  | Err e =>
      br_has_pool (li_broker l) = false ∧ br_state (li_broker l) = ServerState.STOPPED ∧
      (li_error l = Some e ∨ li_error l = None ∧ exn_of e = RuntimeError)
  end.
Proof.
  intros [[Hi _] _]%started_sound Ht Hpc. pose proof (lv_threads _ Hi t Ht) as H.
  by rewrite Hpc in H.
Qed.

(** ** No pool is left behind *)


(** ** A thread alone *)

(** A section of thread [s] leaves the places of the other threads. *)
Definition others_stay (s : nat) (l l' : Life) : Prop :=
  (length (li_threads l) ≤ length (li_threads l'))%nat ∧
  ∀ t, (t < length (li_threads l))%nat → t ≠ s → pc_at l' t = pc_at l t.
#[local] Instance others_preorder s : PreOrder (others_stay s).
Proof.
  split; [by split|]. intros l1 l2 l3 [H1 H2] [H3 H4]. split; [lia|].
  intros t Ht Hne. rewrite H4 by (done || lia). by apply H2.
Qed.

Lemma others_set s p l l' : others_stay s l l' → others_stay s l (set_pc s p l').
Proof.
  intros [H1 H2]. split; [by rewrite set_pc_threads|]. intros t Ht Hne. rewrite <- H2 by done.
  unfold pc_at, set_pc. cbn. rewrite list_lookup_total_alter. case_decide; naive_solver.
Qed.
Lemma others_leave s c r l l' : others_stay s l l' → others_stay s l (leave s c r l').
Proof. intros H. unfold leave. by apply others_set. Qed.
Lemma others_add s p l l' : others_stay s l l' → others_stay s l (add_thread p l').
Proof.
  intros [H1 H2]. split; [cbn; rewrite length_app; lia|]. intros t Ht Hne.
  rewrite <- H2 by done. apply pc_before. lia.
Qed.
Lemma others_same s l l' : li_threads l' = li_threads l → others_stay s l l'.
Proof. intros E. unfold others_stay, pc_at. by rewrite E. Qed.

Lemma run_others s v l : others_stay s l (life_run s v l).
Proof.
  unfold Lifecycle.life_run, enter_start, enter_serve, enter_shutdown, wait_ready, initialize_enter,
    initialize_build, initialize_bind, initialize_share, serve_failed, serve_closed, join_end, drain,
    close_listeners, stop_pool, say_goodbye. cbv zeta.
  repeat case_match; repeat first [apply others_set|apply others_leave|reflexivity
    |(apply others_same; reflexivity)|apply others_add].
Qed.

Lemma run_alone_others s vs l : others_stay s l (run_alone s vs l).
Proof.
  revert l. induction vs as [|v vs IH]; intros l; cbn; [done|]. etransitivity; [|apply IH].
  destruct (runnable s v l); [apply run_others|done].
Qed.

(** *** The start *)

(** The sections the serving thread has before [ready] is set, at most. *)
Definition startup_left (p : life_pc) : nat :=
  match p with
  | LEnter CServe => 7 | LInit _ => 6 | LBuild _ => 5 | LBind _ => 4 | LPublish _ _ => 3
  | LDiscard _ => 2 | LCancelled _ => 1 | LFailed _ _ => 2 | LClosed _ _ => 1 | _ => 0
  end.

Lemma leave_pc s c r l : (s < length (li_threads l))%nat → startup_left (pc_at (leave s c r l) s) = 0%nat.
Proof. intros Hs. unfold leave. rewrite pc_set, decide_True by done. by destruct (th_server _). Qed.

Lemma startup_step l s v :
  LifeInv l → li_serve l = Some s → br_ready (li_broker l) = false → en_started v = true →
  runnable s v l = true ∧
  (startup_left (pc_at (life_run s v l) s) < startup_left (pc_at l s))%nat.
Proof.
  intros Hi Hs Hr Hv. pose proof (lv_serve _ Hi s Hs) as Hlt.
  pose proof (serving_stage l s Hi Hs) as H. unfold flags in H. rewrite Hr in H.
  unfold runnable, Lifecycle.life_run.
  inversion H; subst; clear H.
  - destruct (pc_at l s) as [|[]| |bg|bg|bg|bg bound|bg|bg|bg e| | | | | | | | | | | | | |] eqn:Hpc;
      try done; (split; [done|]).
    + unfold enter_serve. rewrite Hs, decide_True by done. rewrite pc_set, decide_True by done. cbn; lia.
    + unfold initialize_enter. destruct (initialize_begin _) as [? [[]|]];
        rewrite pc_set, decide_True by done; cbn; lia.
    + unfold initialize_build. destruct (en_factory v); rewrite pc_set, decide_True by done; cbn; lia.
    + unfold initialize_bind. destruct (en_bind v); rewrite pc_set, decide_True by done; cbn; lia.
    + unfold initialize_share. rewrite Hv. destruct (initialize_publish _ _) as [? [[]|]];
        rewrite pc_set, decide_True by done; cbn; lia.
    + rewrite pc_set, decide_True by done. cbn; lia.
    + rewrite pc_set, decide_True by done. cbn; lia.
    + unfold serve_failed. rewrite pc_set, decide_True by done. cbn; lia.
  - split; [done|]. unfold serve_closed. rewrite leave_pc by done. cbn. lia.
Qed.

Lemma startup_left_positive l s :
  LifeInv l → li_serve l = Some s → br_ready (li_broker l) = false →
  (0 < startup_left (pc_at l s))%nat.
Proof.
  intros Hi Hs Hr.
  destruct (startup_step l s (mkEnv true None (Ok []) None fzero 0 false) Hi Hs Hr) as [_ H];
    [done|lia].
Qed.

Lemma run_alone_starts l s vs :
  LifeInv l → li_serve l = Some s → Forall (λ v, en_started v = true) vs →
  br_ready (li_broker l) = true ∨ (startup_left (pc_at l s) ≤ length vs)%nat →
  goes l (run_alone s vs l) ∧ br_ready (li_broker (run_alone s vs l)) = true.
Proof.
  revert l. induction vs as [|v vs IH]; intros l Hi Hs Hvs Hor; cbn.
  - split; [by split|]. destruct Hor as [?|Hle]; [done|].
    destruct (br_ready (li_broker l)) eqn:Hr; [done|].
    pose proof (startup_left_positive l s Hi Hs Hr). cbn in Hle. lia.
  - apply Forall_cons in Hvs as [Hv Hvs].
    assert (Hone : goes l (if runnable s v l then life_run s v l else l) ∧
      (br_ready (li_broker (if runnable s v l then life_run s v l else l)) = true ∨
       (startup_left (pc_at (if runnable s v l then life_run s v l else l) s) ≤ length vs)%nat)).
    { pose proof (lv_serve _ Hi s Hs) as Hlt. destruct (runnable s v l) eqn:Hrun.
      - pose proof (inv_run sha256_hex repr_exn cfg Hlim l s v Hi Hlt Hrun Hv) as Hg. split; [done|].
        destruct (br_ready (li_broker l)) eqn:Hr.
        + left. destruct Hg as [_ [_ _ _ Ho _ _]]. by apply Ho.
        + right. destruct (startup_step l s v Hi Hs Hr Hv) as [_ Hlt']. destruct Hor; [done|].
          cbn in *. lia.
      - split; [by split|]. destruct (br_ready (li_broker l)) eqn:Hr; [by left|].
        destruct (startup_step l s v Hi Hs Hr Hv) as [H _]. congruence. }
    destruct Hone as [Hg Hnext]. pose proof Hg as [Hi' Ho].
    destruct (IH _ Hi' (on_serve _ _ Ho s Hs) Hvs Hnext) as [Hg2 Hr2].
    split; [|done]. by apply (goes_then _ _ _ Hg).
Qed.

(** Who waits for the start, and is not released yet, has a serving thread to wait for. *)
Lemma awaited_serving l t :
  LifeInv l → (t < length (li_threads l))%nat →
  pc_at l t = LReady true ∧ br_ready (li_broker l) = false ∨
  (∃ c, pc_at l t = LAwait c ∧ br_stopped (li_broker l) = false) →
  ∃ s, li_serve l = Some s ∧ s ≠ t ∧ (startup_left (pc_at l s) ≤ 7)%nat ∧
    br_ready (li_broker l) = false.
Proof.
  intros Hi Ht Hw. pose proof (lv_threads _ Hi t Ht) as Hok.
  assert (Hle : ∀ p, (startup_left p ≤ 7)%nat) by (intros []; cbn; try lia; case_match; lia).
  assert (Hr : br_ready (li_broker l) = false ∧ is_Some (li_serve l)).
  { destruct Hw as [[Hpc Hr]|(c & Hpc & Hd)]; rewrite Hpc in Hok; [by split|].
    destruct Hok as [_ He]. pose proof (lv_stage _ Hi) as H. unfold stage_of, flags in H.
    rewrite Hd in H. unfold stopping_early in He. destruct (li_serve l) as [s|].
    - split; [|by exists s]. destruct He as [He|[_ He]]; [|done]. rewrite He in H.
      inversion H; subst; try done. destruct u; naive_solver.
    - inversion H; subst. naive_solver congruence. }
  destruct Hr as [Hr [s Hs]]. exists s. split_and!; try done. intros ->.
  pose proof (startup_left_positive l t Hi Hs Hr) as Hpos.
  destruct Hw as [[Hpc _]|(c & Hpc & _)]; rewrite Hpc in Hpos; cbn in Hpos; lia.
Qed.

(** C40: Nobody waits for the start for ever: whatever the factory, the binding and the clock do, and
    whatever else happened before, the serving thread has at most seven more sections after which a
    thread that waits in [start], or in a [shutdown] that came before the server was ready, can go
    on. *)
Theorem startup_decides l t v :
  life_started l → (t < length (li_threads l))%nat →
  pc_at l t = LReady true ∨ (∃ c, pc_at l t = LAwait c) → runnable t v l = false →
  ∃ s, li_serve l = Some s ∧
    ∀ vs, (7 ≤ length vs)%nat → Forall (λ v, en_started v = true) vs →
    runnable t v (run_alone s vs l) = true.
Proof.
  intros [[Hi _] _]%started_sound Ht Hw Hrun. unfold runnable in Hrun.
  destruct (awaited_serving l t Hi Ht) as (s & Hs & Hne & Hle & Hr).
  { destruct Hw as [Hpc|[c Hpc]]; rewrite Hpc in Hrun; [left|right].
    - by apply orb_false_iff in Hrun as [Hrun _].
    - by exists c. }
  exists s. split; [done|]. intros vs Hlen Hvs.
  destruct (run_alone_starts l s vs Hi Hs Hvs) as [[Hi' Ho] Hr']; [right; lia|].
  destruct (run_alone_others s vs l) as [_ Hsame]. specialize (Hsame t Ht ltac:(done)).
  unfold runnable. rewrite Hsame. destruct Hw as [Hpc|[c Hpc]]; rewrite Hpc; [by rewrite Hr'|].
  pose proof (lv_threads _ Hi t Ht) as Hok. rewrite Hpc in Hok. destruct Hok as [_ Hok].
  destruct (on_early _ _ Ho Hok) as [He|[_ He]]; [|congruence].
  pose proof (lv_stage _ Hi') as H. unfold stage_of, flags in H. rewrite Hr', He in H.
  inversion H; subst; try done. destruct u; naive_solver.
Qed.

(** *** The stop *)

(** The shutdown loop leaves the set of connections. *)
Definition same_peers (b b' : Broker) : Prop := br_connections b' = br_connections b.
#[local] Instance same_peers_preorder : PreOrder same_peers.
Proof. split; [done|]. unfold same_peers. intros b1 b2 b3 H1 H2. congruence. Qed.

Ltac peers := repeat first [respects_step | (apply respects_modify; by intros ?)].

Lemma peers_send c k ctl p : respects same_peers (send cfg c k ctl p).
Proof. unfold send, close, put_nowait. cbv zeta. peers. Qed.
Lemma peers_terminal r st k ctl p : respects same_peers (terminal_locked cfg r st k ctl p).
Proof. unfold terminal_locked. peers. apply peers_send. Qed.
Lemma peers_unstage r : respects same_peers (unstage r).
Proof. unfold unstage, purge_session_locked, remove_request_locked, release_reservation_locked. peers. Qed.
Lemma peers_cancel_future f : respects same_peers (cancel_future repr_exn cfg f).
Proof.
  unfold cancel_future, mark_cancelled, run_callback, pool_done, complete_local. peers;
    apply peers_terminal || apply peers_unstage.
Qed.
Lemma peers_withdraw r st k text : respects same_peers (withdraw repr_exn cfg r st k text).
Proof.
  unfold withdraw, scheduler_remove, cancel_local. peers;
    apply peers_terminal || apply peers_cancel_future.
Qed.
Lemma peers_turn now : respects same_peers (finish_shutdown_turn repr_exn cfg now).
Proof.
  unfold finish_shutdown_turn, shutdown_cancel_one, shutdown_deadline_one, cancel_and_kill, set_state.
  peers; first [apply peers_withdraw|apply peers_terminal|apply peers_cancel_future].
Qed.

(** The sections the shutdown thread has, once its first loop can end. *)
Definition stop_left (l : Life) (p : life_pc) : nat :=
  let n := length (br_connections (li_broker l)) in
  match p with
  | LDrain => 3 * n + 4 | LClose => 3 * n + 3 | LPool => 3 * n + 2
  | LFlush cs => 3 * length cs + 1 | LGoaway _ cs => 3 * length cs + 3
  | LHangup _ cs => 3 * length cs + 2 | _ => 0
  end%nat.

(** The requests have ended, or the deadline of the shutdown has passed. *)
Definition may_stop (v : env) (b : Broker) : Prop :=
  all_terminal b = true ∨ reached (en_now v) (br_shutdown_deadline_at b) = true.

Lemma turn_stops b now :
  reachable b → br_state b = ServerState.DRAINING →
  all_terminal b = true ∨ reached now (br_shutdown_deadline_at b) = true →
  let (b', r) := finish_shutdown_turn repr_exn cfg now b in
  r = Ok tt ∧ br_state b' = ServerState.STOPPING.
Proof.
  intros Hre Hst [Ha|Hd].
  - unfold finish_shutdown_turn. rewrite run_gets. unfold id. by rewrite Ha.
  - pose proof (shutdown_deadline_ends sha256_hex repr_exn cfg Hlim b now Hre Hst Hd) as H.
    destruct (finish_shutdown_turn repr_exn cfg now b). naive_solver.
Qed.

Lemma started_run l t v :
  life_started l → (t < length (li_threads l))%nat → runnable t v l = true →
  en_started v = true → life_started (life_run t v l).
Proof.
  intros [es Hs] Ht Hr Hv. exists (es ++ [LRun t v]). eapply steps_app; [done|].
  econstructor; [|constructor]. split; [done|]. split; [|done]. cbn.
  apply andb_true_iff. split; [by apply Nat.ltb_lt|done].
Qed.

Lemma stop_step l u v :
  life_started l → li_shut l = Some u → in_shutdown (pc_at l u) = true →
  en_started v = true → en_stop v = None →
  (pc_at l u = LDrain → may_stop v (li_broker l)) →
  let l' := life_run u v l in
  runnable u v l = true ∧ (stop_left l' (pc_at l' u) < stop_left l (pc_at l u))%nat ∧
  pc_at l' u ≠ LDrain ∧ (in_shutdown (pc_at l' u) = true ∨ pc_at l' u = LExit).
Proof.
  intros Hl Hu Hp Hv Hstop Hmay. cbv zeta. pose proof (started_sound l Hl) as [[Hi _] Hre].
  pose proof (lv_shut _ Hi u Hu) as Ht.
  destruct (shut_view l u Hi Hu Hp) as (_ & _ & _ & _ & Hsh & _).
  assert (Hset : ∀ p l0, li_threads l0 = li_threads l → pc_at (set_pc u p l0) u = p).
  { intros p l0 E. by rewrite pc_set, decide_True by (by rewrite ?E). }
  unfold runnable, Lifecycle.life_run.
  destruct (pc_at l u) as [| | | | | | | | | | | | | | | | |cs|c cs|c cs| | | |] eqn:Hpc;
    try done; cbn [shutting] in Hsh; destruct Hsh as (Est & _); (split; [done|]).
  - pose proof (turn_stops (li_broker l) (en_now v) Hre Est (Hmay eq_refl)) as Hturn.
    pose proof (peers_turn (en_now v) (li_broker l)) as Hpeers. unfold drain.
    destruct (finish_shutdown_turn repr_exn cfg (en_now v) (li_broker l)) as [b r]. cbn in Hpeers.
    destruct Hturn as [-> Hb]. rewrite decide_True by done. rewrite !Hset by done. cbn.
    rewrite Hpeers. split_and!; [lia|done|auto].
  - unfold close_listeners. cbv zeta. rewrite !Hset by done. destruct (br_has_pool _); cbn;
      (split_and!; [lia|done|auto]).
  - unfold stop_pool. rewrite Hstop, !Hset by done. cbn. split_and!; [lia|done|auto].
  - unfold say_goodbye. destruct cs as [|c cs]; rewrite !Hset by done; cbn; split_and!; auto; lia.
  - rewrite !Hset by done. cbn. split_and!; [lia|done|auto].
  - rewrite !Hset by done. cbn. split_and!; [lia|done|auto].
Qed.

(** Where the shutdown thread is. *)
Lemma shut_place l u :
  LifeInv l → li_shut l = Some u → (∀ e, pc_at l u ≠ LCrash e) →
  in_shutdown (pc_at l u) = true ∨ pc_at l u = LExit ∧ br_stopped (li_broker l) = true.
Proof.
  intros Hi Hu Hc. pose proof (lv_stage _ Hi) as H. unfold stage_of in H. rewrite Hu in H.
  inversion H; subst. destruct (pc_at l u); cbn in *; try done; auto; naive_solver.
Qed.

Lemma run_alone_stops l u vs :
  life_started l → li_shut l = Some u → (∀ e, pc_at l u ≠ LCrash e) →
  Forall (λ v, en_started v = true ∧ en_stop v = None) vs →
  (pc_at l u = LDrain → Forall (λ v, may_stop v (li_broker l)) vs) →
  (stop_left l (pc_at l u) ≤ length vs)%nat →
  li_shut (run_alone u vs l) = Some u ∧ pc_at (run_alone u vs l) u = LExit ∧
  br_stopped (li_broker (run_alone u vs l)) = true.
Proof.
  revert l. induction vs as [|v vs IH]; intros l Hl Hu Hc Hvs Hmay Hle;
    pose proof (started_sound l Hl) as [[Hi _] _]; pose proof (lv_shut _ Hi u Hu) as Ht;
    destruct (shut_place l u Hi Hu Hc) as [Hp|[Hp Hd]].
  - cbn in Hle. destruct (pc_at l u); cbn in *; lia || done.
  - done.
  - apply Forall_cons in Hvs as [[Hv Hs] Hvs]. cbn.
    destruct (stop_step l u v Hl Hu Hp Hv Hs) as (Hrun & Hlt & Hnd & Hnext).
    { intros E. specialize (Hmay E). by apply Forall_cons in Hmay as [? _]. }
    rewrite Hrun. destruct (inv_run sha256_hex repr_exn cfg Hlim l u v Hi Ht Hrun Hv) as [_ Ho].
    apply IH; try done.
    + by apply started_run.
    + by apply (on_shut _ _ Ho).
    + intros e E. rewrite E in Hnext. naive_solver.
    + cbn in Hle. lia.
  - cbn. assert (Hrun : runnable u v l = false) by (unfold runnable; by rewrite Hp).
    rewrite Hrun. apply Forall_cons in Hvs as [_ Hvs]. apply IH; try done; rewrite Hp; try done.
    cbn. lia.
Qed.

End LifecycleProps.

(** ** Runs *)
Module LifeDemo.
#[export] Existing Instances BrokerProps.Demo.json BrokerProps.Demo.unicode.

Definition exec (e : life_step_event) (l : Life) : Life :=
  life_exec BrokerProps.Demo.sha BrokerProps.Demo.repr BrokerProps.Demo.cfg e l.
Definition play (es : list life_step_event) : option Life :=
  life_play BrokerProps.Demo.sha BrokerProps.Demo.repr BrokerProps.Demo.cfg es life_init.
Definition after (es : list life_step_event) : Life := default life_init (play es).

(** All goes well; or a thread does not start; or the pool's [shutdown] raises. *)
Definition well : env := mkEnv true None (Ok []) None fzero 0 false.
Definition unstarted : env := mkEnv false None (Ok []) None fzero 0 false.
Definition raising : env :=
  mkEnv true None (Ok []) (Some (Raise QueueFull "")) fzero 0 false.
Definition stop : life_call := CShutdown true false PNone.

(** Thread 0 calls [start]; thread 1 serves. *)
Definition starting : list life_step_event := [LNew; LCall 0 CStart; LRun 0 well].
Definition running : list life_step_event := starting ++ repeat (LRun 1 well) 5 ++ [LRun 0 well].
(** It calls [shutdown]; thread 2 stops the server. *)
Definition stopping : list life_step_event := running ++ [LCall 0 stop; LRun 0 well].
Definition stopped : list life_step_event := stopping ++ repeat (LRun 2 well) 4 ++ [LRun 1 well; LRun 0 well].
(** It calls [start] once more. *)
Definition again : list life_step_event := stopped ++ [LCall 0 CStart; LRun 0 well; LRun 0 well].
(** A second thread shuts the server down while it starts. *)
Definition early : list life_step_event :=
  starting ++ repeat (LRun 1 well) 3 ++ [LNew; LCall 2 stop; LRun 2 well].

Definition is_started (e : life_step_event) : bool :=
  match e with LRun _ v => en_started v | _ => true end.

Lemma play_started es l l' :
  forallb is_started es = true →
  life_play BrokerProps.Demo.sha BrokerProps.Demo.repr BrokerProps.Demo.cfg es l = Some l' →
  steps (life_started_step BrokerProps.Demo.sha BrokerProps.Demo.repr BrokerProps.Demo.cfg) l es l'.
Proof.
  revert l. induction es as [|e es IH]; intros l Hs Hp; cbn in *.
  - injection Hp as <-. constructor.
  - apply andb_true_iff in Hs as [He Hs]. destruct (life_enabled e l) eqn:En; [|done].
    econstructor; [|by apply IH]. split; [by destruct e|by split].
Qed.

Definition completes (es : list life_step_event) : bool :=
  forallb is_started es && match play es with Some _ => true | None => false end.

Lemma started es :
  completes es = true →
  life_started BrokerProps.Demo.sha BrokerProps.Demo.repr BrokerProps.Demo.cfg (after es).
Proof.
  unfold completes, after. intros [Hs Hc]%andb_true_iff.
  destruct (play es) as [l|] eqn:E; [|done]. exists es. by apply play_started.
Qed.

(** What of a state the examples look at. *)
Definition summary (l : Life) :=
  (br_state (li_broker l), br_has_pool (li_broker l), li_pool_stopped l, br_stopped (li_broker l),
   th_pc <$> li_threads l).

Example running_state :
  summary (after running)
  = (ServerState.RUNNING, true, false, false, [LReturn CStart (Ok true); LServing]).
Proof. vm_compute. reflexivity. Qed.

Example stopped_state :
  summary (after stopped)
  = (ServerState.STOPPED, true, true, true, [LReturn stop (Ok true); LExit; LExit]).
Proof. vm_compute. reflexivity. Qed.

(** [start] tests [_serve_thread] first: on a server that was started before and has been shut
    down it finds [ready] set and returns as if the server ran. *)
Example start_after_stop :
  summary (after again)
  = (ServerState.STOPPED, true, true, true, [LReturn CStart (Ok true); LExit; LExit]).
Proof. vm_compute. reflexivity. Qed.

(** When a broker thread does not start, the pool is already published: the start fails, the
    server is stopped, and no [shutdown] ever shuts the pool down. *)
Example unstarted_thread_leaves_pool :
  summary (after (starting ++ repeat (LRun 1 well) 4 ++ [LRun 1 unstarted] ++
    repeat (LRun 1 well) 2 ++ [LRun 0 well; LCall 0 stop; LRun 0 well]))
  = (ServerState.STOPPED, true, false, true, [LReturn stop (Ok true); LExit]).
Proof. vm_compute. reflexivity. Qed.

(** When the [shutdown] of the pool raises, the shutdown thread ends and [_stopped] is never
    set: [serve_forever] does not return. *)
Example pool_shutdown_raises :
  summary (after (stopping ++ repeat (LRun 2 well) 2 ++ [LRun 2 raising; LRun 0 well]))
  = (ServerState.STOPPING, true, false, false,
     [LReturn stop (Ok true); LServing; LCrash (Raise QueueFull "")]).
Proof. vm_compute. reflexivity. Qed.

(** When the shutdown thread does not start, the server stays in DRAINING: later calls find
    [_shutdown_thread] set and join a thread that never ran. *)
Example unstarted_shutdown_thread :
  summary (after (running ++ [LCall 0 stop; LRun 0 unstarted; LCall 0 stop; LRun 0 well; LRun 0 well]))
  = (ServerState.DRAINING, true, false, false,
     [LReturn stop (Err (Raise RuntimeError "cannot join thread before it is started"));
      LServing; LUnstarted]).
Proof. vm_compute. reflexivity. Qed.

Lemma start_outcome_witness :
  br_ready (li_broker (after again)) = true ∧ true = true ∧
  br_has_pool (li_broker (after again)) = true ∧ li_error (after again) = None.
Proof.
  apply (start_outcome BrokerProps.Demo.sha BrokerProps.Demo.repr BrokerProps.Demo.cfg
    BrokerProps.Demo.cfg_limits_ok (after again) 0 (Ok true)).
  - apply started. vm_compute. reflexivity.
  - vm_compute. repeat constructor.
  - vm_compute. reflexivity.
Defined.


Lemma startup_decides_witness :
  ∃ s, li_serve (after early) = Some s ∧
    ∀ vs, (7 ≤ length vs)%nat → Forall (λ v, en_started v = true) vs →
    runnable 2 well (run_alone BrokerProps.Demo.repr BrokerProps.Demo.cfg s vs (after early)) = true.
Proof.
  apply (startup_decides BrokerProps.Demo.sha BrokerProps.Demo.repr BrokerProps.Demo.cfg
    BrokerProps.Demo.cfg_limits_ok (after early) 2 well).
  - apply started. vm_compute. reflexivity.
  - vm_compute. repeat constructor.
  - right. exists stop. vm_compute. reflexivity.
  - vm_compute. reflexivity.
Defined.

End LifeDemo.
