(* ===== verification/Pool.v ===== *)
(** * Pool: the local process pool ([_pool.py])

    [Deadpool] is shared by the submitting threads, one runner thread, one
    supervisor thread per launched job and the threads that call [shutdown]. The
    model is one state and one operation per stretch of a thread between two points
    where it blocks or touches what another thread changes; the thread's position is
    part of the state. Processes, pipes and signals are the environment: what a
    worker sent, whether it lives, its memory, are arguments.

    The backlog is a [queue.PriorityQueue]: a [heapq] list with its count of
    unfinished tasks. [existing_workers] only feeds a statistic through weak
    references and is left out. *)
From S2P Require Import Prelude Errors Futures StateErr Heapq.

(** ** Data *)

(** [PrioritizedItem]; the job is named by its future, and [None] is the sentinel.
    [order=True] compares the priority, then the sequence number. *)
Record Item := mkItem { it_priority : Z; it_job : option nat; it_sequence : Z }.

Definition item_le (a b : Item) : Prop :=
  it_priority a < it_priority b ∨
  (it_priority a = it_priority b ∧ it_sequence a ≤ it_sequence b).

(** [WorkerProcess]: its process lives, its flag [ok], its pipes are closed, the
    number of jobs it was sent, its process ID. *)
Record Worker := mkWorker {
  wk_alive : bool;
  wk_ok : bool;
  wk_closed : bool;
  wk_tasks_ran : Z;
  wk_pid : Z }.

(** What arrives on the pipe of a worker: a value or an exception object. *)
Inductive reply (V : Type) := RValue (v : V) | RError (e : exn).
Arguments RValue {V} v.
Arguments RError {V} e.

(** [Future]. *)
Record PoolFuture (V : Type) := mkPoolFuture {
  pf_state : FutureState.t;
  pf_pid : option Z;
  pf_value : option (reply V) }.
Arguments mkPoolFuture {V}.
Arguments pf_state {V}.
Arguments pf_pid {V}.
Arguments pf_value {V}.

(** The runner thread: about to take a slot, waiting for a job, holding one, after
    the sentinel, cancelling what is left, gone. *)
Inductive runner_pc := RSlot | RGet | RCheck (f : nat) | RStop | RDrain | RExit.

(** What follows [done_with_process]. *)
Inductive after := AReturn | ARetry (retries w : nat).

(** A supervisor thread in [run_task]. *)
Inductive sup_pc :=
  | SLoop (retries : nat)                     (* the test of the [while] loop *)
  | SSized (retries : nat) (busy : Z)         (* [get_process], after reading busy_workers *)
  | SAdd (retries : nat)                      (* about to call [add_worker_to_pool] *)
  | STake (retries : nat)                     (* waiting in [workers.get] *)
  | SGot (retries : nat) (w : nat)            (* about to enter it in busy_workers *)
  | SHook (retries : nat) (w : nat)           (* about to call [_before_submit] *)
  | SSend (retries : nat) (w : nat)           (* about to send the job *)
  | SPublish (w : nat)
  | SWait (w : nat)                           (* polling for results *)
  | SDone (w : nat) (next : after)            (* [done_with_process] *)
  | SCount (w : nat) (busy : Z) (next : after)
  | SBack (w : nat) (busy idle : Z) (next : after)
  | SReplace (next : after)
  | SGiveUp                                   (* the [else] of the loop *)
  | SFinally                                  (* the [finally] block *)
  | SEnsure                                   (* its [if not fut.done()] *)
  | SLast                                     (* [set_exception] there *)
  | SFree                                     (* [running_jobs.get_nowait] *)
  | SEnd
  | SRaised.                                  (* an exception left the [finally] block *)

Record Supervisor := mkSup { su_future : nat; su_pc : sup_pc }.

(** A thread in [shutdown]. *)
Inductive shut_pc :=
  | HClose (wait cancel : bool)
  | HDrain (wait cancel : bool)
  | HPut (wait cancel : bool)
  | HList (wait cancel : bool)
  | HKill (futs : list nat)
  | HJoin
  | HIdle
  | HBusy
  | HEnd
  | HRaised (e : exn).

Record PoolStatistics := mkPoolStatistics {
  tasks_received : Z;
  tasks_launched : Z;
  tasks_failed : Z;
  worker_processes_created : Z;
  max_workers_busy_concurrently : Z }.

(** The constructor arguments the supervisor logic reads, after defaulting. *)
Record PoolConfig := mkPoolConfig {
  pool_size : Z;
  min_workers : Z;
  max_tasks_per_child : option Z;
  max_worker_memory_bytes : option Z;
  max_backlog : Z }.

(** [max_workers or len(os.sched_getaffinity(0))] and the default of [min_workers]. *)
Definition pool_config (max_workers min_workers_ : option Z) (cpus : Z)
    (max_tasks max_memory : option Z) (backlog : Z) : PoolConfig :=
  let size := match max_workers with Some n => if n =? 0 then cpus else n | None => cpus end in
  mkPoolConfig size (match min_workers_ with Some n => n | None => size end)
    max_tasks max_memory backlog.

Section Pool.
Context {V : Type}.
Context {HQ : HeapQ Item item_le}.

Record Pool := mkPool {
  po_queue : list Item;
  po_unfinished : Z;
  po_running : Z;
  po_closed : bool;
  po_idle : list nat;
  po_busy : list nat;
  po_workers : list Worker;
  po_futures : list (PoolFuture V);
  po_sequence : Z;
  po_running_futs : list nat;
  po_statistics : PoolStatistics;
  po_runner : runner_pc;
  po_threads : list Supervisor;
  po_putting : list (nat * Z * Z);     (* submitters about to put: future, priority, number *)
  po_refused : list nat;               (* futures whose submitter got [queue.Full] *)
  po_shutdowns : list shut_pc;
  po_killed : list Z }.                (* the process trees that were killed *)

#[export] Instance Worker_inhabited : Inhabited Worker := populate (mkWorker false false true 0 0).
#[export] Instance PoolFuture_inhabited : Inhabited (PoolFuture V) :=
  populate (mkPoolFuture FutureState.CANCELLED None None).
#[export] Instance Supervisor_inhabited : Inhabited Supervisor := populate (mkSup 0 SEnd).
#[export] Instance shut_pc_inhabited : Inhabited shut_pc := populate HEnd.

Notation M := (ST Pool).
Context (cfg : PoolConfig).

(** *** Changes of one field *)
Definition set_queue (g : list Item → list Item) (s : Pool) : Pool :=
  {| s with po_queue := g (po_queue s) |}.
Definition set_unfinished (n : Z) (s : Pool) : Pool := {| s with po_unfinished := n |}.
Definition set_running (g : Z → Z) (s : Pool) : Pool :=
  {| s with po_running := g (po_running s) |}.
Definition set_idle (g : list nat → list nat) (s : Pool) : Pool :=
  {| s with po_idle := g (po_idle s) |}.
Definition set_busy (g : list nat → list nat) (s : Pool) : Pool :=
  {| s with po_busy := g (po_busy s) |}.
Definition set_worker (w : nat) (g : Worker → Worker) (s : Pool) : Pool :=
  {| s with po_workers := alter g w (po_workers s) |}.
Definition set_future (f : nat) (g : PoolFuture V → PoolFuture V) (s : Pool) : Pool :=
  {| s with po_futures := alter g f (po_futures s) |}.
Definition set_statistics (g : PoolStatistics → PoolStatistics) (s : Pool) : Pool :=
  {| s with po_statistics := g (po_statistics s) |}.
Definition set_runner (pc : runner_pc) (s : Pool) : Pool := {| s with po_runner := pc |}.
Definition set_thread (t : nat) (pc : sup_pc) (s : Pool) : Pool :=
  {| s with po_threads := alter (λ x, mkSup (su_future x) pc) t (po_threads s) |}.
Definition set_shutdown (h : nat) (pc : shut_pc) (s : Pool) : Pool :=
  {| s with po_shutdowns := alter (λ _, pc) h (po_shutdowns s) |}.
Definition set_putting (g : list (nat * Z * Z) → list (nat * Z * Z)) (s : Pool) : Pool :=
  {| s with po_putting := g (po_putting s) |}.
Definition add_thread (f : nat) (s : Pool) : Pool :=
  {| s with po_threads := po_threads s ++ [mkSup f (SLoop 10)] |}.
Definition add_killed (pid : Z) (s : Pool) : Pool :=
  {| s with po_killed := po_killed s ++ [pid] |}.

Definition worker (s : Pool) (w : nat) : Worker := po_workers s !!! w.
Definition future (s : Pool) (f : nat) : PoolFuture V := po_futures s !!! f.
Definition pc_of (s : Pool) (t : nat) : sup_pc := su_pc (po_threads s !!! t).
Definition job_of (s : Pool) (t : nat) : nat := su_future (po_threads s !!! t).
Definition fut_done (s : Pool) (f : nat) : bool := FutureState.done (pf_state (future s f)).

(** ** Futures *)

(** [set_result] and [set_exception] of the standard library. *)
Definition fut_set (f : nat) (r : reply V) : M unit :=
  s ← gets id;
  if fut_done s f then raise (Raise InvalidStateError "the future is already done")
  else modify (set_future f (λ x, mkPoolFuture FutureState.FINISHED (pf_pid x) (Some r))).

(** [if not fut.done(): try: ... except InvalidStateError: pass]. *)
Definition fut_offer (f : nat) (r : reply V) : M unit :=
  s ← gets id;
  if fut_done s f then skip else swallow (fut_set f r).

(** [Future.cancel]. *)
Definition fut_cancel (f : nat) : M unit :=
  s ← gets id;
  if bool_decide (pf_state (future s f) = FutureState.PENDING)
  then modify (set_future f (λ x, mkPoolFuture FutureState.CANCELLED (pf_pid x) (pf_value x)))
  else skip.

(** [cancel_and_kill_if_running]; a PID of zero is not a process. *)
Definition fut_cancel_and_kill (f : nat) : M unit :=
  _ ← fut_cancel f;
  s ← gets id;
  match pf_pid (future s f) with
  | Some pid => if pid =? 0 then skip else modify (add_killed pid)
  | None => skip
  end.

(** ** The backlog *)

(** [Queue.task_done]. *)
Definition task_done : M unit :=
  s ← gets id;
  let n := po_unfinished s - 1 in
  if n <? 0 then raise (Raise ValueError "task_done() called too many times")
  else modify (set_unfinished n).

Definition backlog_full (s : Pool) : bool :=
  (0 <? max_backlog cfg) && (max_backlog cfg <=? Z.of_nat (length (po_queue s))).

(** The critical section of [Queue.put]. *)
Definition push (it : Item) : M unit :=
  _ ← modify (set_queue (λ q, heappush q it));
  s ← gets id;
  modify (set_unfinished (po_unfinished s + 1)).

(** [submit] up to [PriorityQueue.put]: the future exists and has its number. *)
Definition submit_begin (priority : Z) : M unit :=
  if priority <? 0 then raise (Raise ValueError "deadpool_priority must be >= 0")
  else
    s ← gets id;
    if po_closed s then raise (Raise PoolClosed "the pool is closed")
    else
      modify (λ s, {| s with
        po_futures := po_futures s ++ [mkPoolFuture FutureState.PENDING None None];
        po_putting := po_putting s ++ [(length (po_futures s), priority, po_sequence s)];
        po_sequence := po_sequence s + 1 |}).

Definition take_putting (k : nat) : list (nat * Z * Z) → list (nat * Z * Z) := delete k.

(** The put itself, when there is room. *)
Definition submit_put (k : nat) : M unit :=
  s ← gets id;
  match po_putting s !! k with
  | Some (f, priority, n) =>
      _ ← modify (set_putting (take_putting k));
      _ ← push (mkItem priority (Some f) n);
      modify (set_statistics (λ t, {| t with tasks_received := tasks_received t + 1 |}))
  | None => skip
  end.

(** With [block=False] and no room the submitter gets [queue.Full]. *)
Definition submit_full (k : nat) : M unit :=
  s ← gets id;
  match po_putting s !! k with
  | Some (f, _, _) =>
      _ ← modify (set_putting (take_putting k));
      _ ← modify (λ s, {| s with po_refused := po_refused s ++ [f] |});
      raise (Raise QueueFull "")
  | None => skip
  end.

(** [PriorityQueue.get] on a queue that is not empty. *)
Definition get_item (s : Pool) : option (Item * list Item) := heappop (po_queue s).

(** One turn of [cancel_all_futures_on_queue]: true when the queue was empty. The
    sentinel cannot be unpacked. *)
Definition cancel_queued_one : M bool :=
  s ← gets id;
  match get_item s with
  | None => mret true
  | Some (it, q) =>
      _ ← modify (set_queue (λ _, q));
      _ ← task_done;
      match it_job it with
      | Some f => _ ← fut_cancel f; mret false
      | None => raise (Raise TypeError "cannot unpack non-iterable NoneType object")
      end
  end.

(** ** Workers *)

Definition stat_created (s : Pool) : Pool :=
  set_statistics (λ t, {| t with
    worker_processes_created := worker_processes_created t + 1 |}) s.

(** [add_worker_to_pool]; [pid] is the new process, or why it could not start. *)
Definition add_worker_to_pool (pid : result exn Z) : M unit :=
  pid ← lift pid;
  _ ← modify (λ s, {| s with
        po_workers := po_workers s ++ [mkWorker true true false 0 pid];
        po_idle := po_idle s ++ [length (po_workers s)] |});
  modify stat_created.

(** [WorkerProcess.shutdown]: a living worker is told to exit and its pipes are closed. *)
Definition worker_shutdown (w : nat) : M unit :=
  modify (set_worker w (λ x, {| x with wk_closed := wk_alive x || wk_closed x |})).

(** [clear_workers], one turn. *)
Definition clear_worker : M unit :=
  s ← gets id;
  match po_idle s with
  | [] => skip
  | w :: idle => _ ← modify (set_idle (λ _, idle)); worker_shutdown w
  end.

(** ** The runner *)

Definition runner_slot : M unit :=
  _ ← modify (set_running (λ n, n + 1));
  modify (set_runner RGet).

Definition runner_get : M unit :=
  s ← gets id;
  match get_item s with
  | None => skip
  | Some (it, q) =>
      _ ← modify (set_queue (λ _, q));
      modify (set_runner match it_job it with Some f => RCheck f | None => RStop end)
  end.

(** [running_jobs.get]. *)
Definition free_slot (n : Z) : Z := n - 1.

Definition runner_check (f : nat) : M unit :=
  s ← gets id;
  if fut_done s f then
    _ ← task_done;
    _ ← modify (set_running free_slot);
    modify (set_runner RSlot)
  else
    _ ← modify (set_statistics (λ t, {| t with tasks_launched := tasks_launched t + 1 |}));
    _ ← modify (add_thread f);
    modify (set_runner RSlot).

(** After the sentinel. *)
Definition runner_stop : M unit :=
  _ ← task_done;
  _ ← modify (set_running free_slot);
  modify (set_runner RDrain).

(** The exception of [cancel_all_futures_on_queue] ends the thread. *)
Definition runner_drain : M unit := λ s,
  match cancel_queued_one s with
  | (s', Ok true) | (s', Err _) => (set_runner RExit s', Ok tt)
  | (s', Ok false) => (s', Ok tt)
  end.

(** ** The supervisor: [run_task] *)

(** An exception in the [try] block goes to the [finally] block. *)
Definition guarded (t : nat) (m : M unit) : M unit := λ s,
  match m s with
  | (s', Ok _) => (s', Ok tt)
  | (s', Err _) => (set_thread t SFinally s', Ok tt)
  end.

Definition goto (t : nat) (pc : sup_pc) : M unit := modify (set_thread t pc).

(** [while retry_count > 0: retry_count -= 1], then the first part of [get_process]. *)
Definition sup_loop (t retries : nat) : M unit :=
  match retries with
  | O => goto t SGiveUp
  | S n => s ← gets id; goto t (SSized n (Z.of_nat (length (po_busy s))))
  end.

Definition sup_size (t retries : nat) (busy : Z) : M unit :=
  s ← gets id;
  let qs := Z.of_nat (length (po_idle s)) in
  goto t (if (busy + qs <? pool_size cfg) && (qs =? 0) then SAdd retries else STake retries).

Definition sup_add (t retries : nat) (pid : result exn Z) : M unit :=
  guarded t (_ ← add_worker_to_pool pid; goto t (STake retries)).

(** [self.workers.get()]. *)
Definition sup_take (t retries : nat) : M unit :=
  s ← gets id;
  match po_idle s with
  | [] => skip
  | w :: idle => _ ← modify (set_idle (λ _, idle)); goto t (SGot retries w)
  end.

Definition set_add (w : nat) (l : list nat) : list nat :=
  if bool_decide (w ∈ l) then l else l ++ [w].

Definition sup_got (t retries w : nat) : M unit :=
  _ ← modify (set_busy (set_add w));
  s ← gets id;
  let busy := Z.of_nat (length (po_busy s)) in
  _ ← modify (set_statistics (λ x, {| x with
        max_workers_busy_concurrently := Z.max (max_workers_busy_concurrently x) busy |}));
  goto t (SHook retries w).

(** An exception of the [try] block around the submission: the clauses stand for a job
    that cannot be pickled and for a broken pipe; any other exception leaves [run_task],
    and so does the [InvalidStateError] of a future that is already done. *)
Definition unpicklable (e : exn) : bool :=
  isinstance e PicklingError || isinstance e AttributeError.

Definition sup_raised (t retries w : nat) (e : exn) : M unit :=
  s ← gets id;
  if unpicklable e then
    guarded t (_ ← fut_set (job_of s t) (RError e); goto t (SDone w AReturn))
  else if isinstance e BrokenPipeError then
    _ ← modify (set_worker w (λ x, {| x with wk_ok := false |}));
    goto t (SDone w (ARetry retries w))
  else guarded t (raise e).

(** [_before_submit], if the future has it, may refuse the job or raise. *)
Inductive hook_result := Proceed | Refused | HookRaises (e : exn).

Definition sup_hook (t retries w : nat) (res : hook_result) : M unit :=
  match res with
  | Proceed => goto t (SSend retries w)
  | Refused => goto t (SDone w AReturn)
  | HookRaises e => sup_raised t retries w e
  end.

(** [submit_job] with the two hooks around it: [None] when the job was sent. *)
Definition sup_send (t retries w : nat) (res : option exn) : M unit :=
  _ ← modify (set_worker w (λ x, {| x with wk_tasks_ran := wk_tasks_ran x + 1 |}));
  match res with
  | None => goto t (SPublish w)
  | Some e => sup_raised t retries w e
  end.

Definition sup_publish (t w : nat) : M unit :=
  s ← gets id;
  _ ← modify (set_future (job_of s t)
        (λ x, mkPoolFuture (pf_state x) (Some (wk_pid (worker s w))) (pf_value x)));
  _ ← modify (λ s', {| s' with po_running_futs := set_add (job_of s t) (po_running_futs s') |});
  goto t (SWait w).

(** What a poll of the pipe shows. *)
Inductive poll_result :=
  | Results (r : reply V)
  | Eof (message : exn)                   (* [EOFError]; the death message *)
  | RecvError (e : exn)
  | Dead (message : exn)                  (* nothing to read and the process is gone *)
  | PollError (e : exn).                  (* the poll itself raises *)

Definition stat_failed (s : Pool) : Pool :=
  set_statistics (λ t, {| t with tasks_failed := tasks_failed t + 1 |}) s.

Definition sup_poll (t w : nat) (res : poll_result) : M unit :=
  s ← gets id;
  let f := job_of s t in
  guarded t (_ ← match res with
      | Results (RValue v) => fut_offer f (RValue v)
      | Results (RError e) =>
          _ ← modify stat_failed;
          _ ← fut_offer f (RError e);
          if isinstance e PoolTimeoutError then
            _ ← modify stat_failed;
            modify (set_worker w (λ x, {| x with wk_ok := false |}))
          else skip
      | Eof e | RecvError e | Dead e =>
          _ ← modify stat_failed;
          fut_offer f (RError e)
      | PollError e => raise e
      end;
    goto t (SDone w AReturn)).

(** *** [done_with_process] *)

(** The first section: [set.remove] raises when the worker is gone from the set. *)
Definition sup_done (t w : nat) (next : after) : M unit :=
  s ← gets id;
  match list_del w (po_busy s) with
  | None => guarded t (raise (Raise KeyError ""))
  | Some busy =>
      _ ← modify (set_busy (λ _, busy));
      goto t (SCount w (Z.of_nat (length busy)) next)
  end.

Definition sup_count (t w : nat) (busy : Z) (next : after) : M unit :=
  s ← gets id;
  goto t (SBack w busy (Z.of_nat (length (po_idle s))) next).

(** Where the thread goes after [done_with_process]; a worker with a broken pipe is
    killed before the retry. *)
Definition resume (t : nat) (next : after) : M unit :=
  match next with
  | AReturn => goto t SFinally
  | ARetry n w =>
      s ← gets id;
      _ ← modify (add_killed (wk_pid (worker s w)));
      goto t (SLoop n)
  end.

(** [mem >= self.max_worker_memory_bytes]; without a limit the memory is not read. *)
Definition memory_hit (mem : Z) : bool :=
  match max_worker_memory_bytes cfg with Some m => m <=? mem | None => false end.
Definition tasks_hit (x : Worker) : bool :=
  match max_tasks_per_child cfg with Some m => m <=? wk_tasks_ran x | None => false end.

(** The decision; [mem] is [None] when reading the memory of the process raises. *)
Definition sup_back (t w : nat) (busy idle : Z) (next : after) (mem : option Z) : M unit :=
  s ← gets id;
  let x := worker s w in
  if (min_workers cfg <? busy + idle + 1) && (Z.of_nat (length (po_queue s)) =? 0) then
    _ ← worker_shutdown w; resume t next
  else if negb (wk_alive x) then goto t (SReplace next)
  else if negb (wk_ok x) then goto t (SReplace next)
  else if tasks_hit x then _ ← worker_shutdown w; goto t (SReplace next)
  else
    match max_worker_memory_bytes cfg, mem with
    | Some _, None => guarded t (raise (Raise Exception_ "psutil.NoSuchProcess"))
    | Some _, Some m =>
        if memory_hit m then _ ← worker_shutdown w; goto t (SReplace next)
        else _ ← modify (set_idle (λ l, l ++ [w])); resume t next
    | None, _ => _ ← modify (set_idle (λ l, l ++ [w])); resume t next
    end.

Definition sup_replace (t : nat) (next : after) (pid : result exn Z) : M unit :=
  guarded t (_ ← add_worker_to_pool pid; resume t next).

Definition sup_give_up (t : nat) : M unit :=
  s ← gets id;
  guarded t (_ ← fut_set (job_of s t) (RError (Raise ProcessError "Failed to submit job to worker"));
             goto t SFinally).

(** *** The [finally] block *)

(** An exception here ends the thread. *)
Definition ending (t : nat) (m : M unit) : M unit := λ s,
  match m s with
  | (s', Ok _) => (s', Ok tt)
  | (s', Err _) => (set_thread t SRaised s', Ok tt)
  end.

Definition sup_finally (t : nat) : M unit := ending t (_ ← task_done; goto t SEnsure).

Definition sup_ensure (t : nat) : M unit :=
  s ← gets id; goto t (if fut_done s (job_of s t) then SFree else SLast).

Definition sup_last (t : nat) : M unit :=
  s ← gets id;
  ending t (_ ← fut_set (job_of s t)
                  (RError (Raise ProcessError "Somehow no result got set on fut."));
            goto t SFree).

(** [get_nowait]; [Empty] is only logged. *)
Definition sup_free (t : nat) : M unit :=
  _ ← modify (set_running (λ n, if 0 <? n then free_slot n else n));
  goto t SEnd.

(** ** [shutdown] *)

Definition shutdown_begin (wait cancel : bool) : M unit :=
  s ← gets id;
  if po_closed s then skip
  else
    modify (λ s, {| s with po_shutdowns := po_shutdowns s ++ [HClose wait cancel] |}).

Definition shutdown_close (h : nat) (wait cancel : bool) : M unit :=
  _ ← modify (λ s, {| s with po_closed := true |});
  modify (set_shutdown h (if cancel then HDrain wait cancel else HPut wait cancel)).

Definition shutdown_drain (h : nat) (wait cancel : bool) : M unit := λ s,
  match cancel_queued_one s with
  | (s', Ok true) => (set_shutdown h (HPut wait cancel) s', Ok tt)
  | (s', Ok false) => (s', Ok tt)
  | (s', Err e) => (set_shutdown h (HRaised e) s', Err e)
  end.

(** [sys.maxsize]. *)
Definition maxsize : Z := 2 ^ 63 - 1.

(** The sentinel goes last or first. *)
Definition shutdown_put (h : nat) (wait cancel : bool) : M unit :=
  s ← gets id;
  _ ← push (mkItem (if wait then maxsize else -1) None (po_sequence s));
  _ ← modify (λ s, {| s with po_sequence := po_sequence s + 1 |});
  modify (set_shutdown h (HList wait cancel)).

(** The put timed out: [queue.Full] is not a [TimeoutError] and leaves [shutdown]. *)
Definition shutdown_full (h : nat) : M unit :=
  _ ← modify (λ s, {| s with po_sequence := po_sequence s + 1 |});
  _ ← modify (set_shutdown h (HRaised (Raise QueueFull "")));
  raise (Raise QueueFull "").

(** Running jobs are killed only when the caller cancels and does not wait. *)
Definition shutdown_list (h : nat) (wait cancel : bool) : M unit :=
  s ← gets id;
  modify (set_shutdown h (HKill (if negb wait && cancel then po_running_futs s else []))).

(** One turn of the loop over the running futures. *)
Definition shutdown_kill (h : nat) (futs : list nat) : M unit :=
  match futs with
  | [] => modify (set_shutdown h HJoin)
  | f :: futs' => _ ← fut_cancel_and_kill f; modify (set_shutdown h (HKill futs'))
  end.

(** [submitted_jobs.join()] returned. *)
Definition shutdown_join (h : nat) : M unit := modify (set_shutdown h HIdle).

(** One turn of the loop over the idle workers. *)
Definition shutdown_idle (h : nat) : M unit :=
  s ← gets id;
  match po_idle s with
  | [] => modify (set_shutdown h HBusy)
  | w :: idle => _ ← modify (set_idle (λ _, idle)); worker_shutdown w
  end.

Definition shutdown_busy (h : nat) : M unit :=
  s ← gets id;
  _ ← modify (set_busy (λ _, []));
  _ ← for_each (po_busy s) worker_shutdown;
  modify (set_shutdown h HEnd).

(** ** Statistics *)

Definition get_statistics (s : Pool) : list (string * Z) :=
  let t := po_statistics s in
  [("tasks_received", tasks_received t); ("tasks_launched", tasks_launched t);
   ("tasks_failed", tasks_failed t);
   ("worker_processes_created", worker_processes_created t);
   ("max_workers_busy_concurrently", max_workers_busy_concurrently t);
   ("worker_processes_busy", Z.of_nat (length (po_busy s)));
   ("worker_processes_idle", Z.of_nat (length (po_idle s)))]%string.

(** ** The pool as a transition system *)

(** [Deadpool.__init__]: the workers of the given processes are idle. *)
Definition pool_init (pids : list Z) : Pool :=
  mkPool [] 0 0 false (seq 0 (length pids)) [] ((λ p, mkWorker true true false 0 p) <$> pids) [] 0 []
    (mkPoolStatistics 0 0 0 (Z.of_nat (length pids)) 0) RSlot [] [] [] [] [].

Inductive event :=
  | EvSubmit (priority : Z)
  | EvPut (k : nat)
  | EvPutFull (k : nat)
  | EvRunner
  | EvThread (t : nat) (pid : result exn Z) (hook : hook_result) (sent : option exn)
      (polled : poll_result) (mem : option Z)
  | EvShutdown (wait cancel : bool)
  | EvShutdownStep (h : nat)
  | EvShutdownFull (h : nat)
  | EvCancel (f : nat)
  | EvClear
  | EvDie (w : nat).

(** The next stretch of a supervisor. *)
Definition sup_step (t : nat) (pc : sup_pc) (pid : result exn Z) (hook : hook_result)
    (sent : option exn) (polled : poll_result) (mem : option Z) : M unit :=
  match pc with
  | SLoop n => sup_loop t n
  | SSized n b => sup_size t n b
  | SAdd n => sup_add t n pid
  | STake n => sup_take t n
  | SGot n w => sup_got t n w
  | SHook n w => sup_hook t n w hook
  | SSend n w => sup_send t n w sent
  | SPublish w => sup_publish t w
  | SWait w => sup_poll t w polled
  | SDone w next => sup_done t w next
  | SCount w b next => sup_count t w b next
  | SBack w b q next => sup_back t w b q next mem
  | SReplace next => sup_replace t next pid
  | SGiveUp => sup_give_up t
  | SFinally => sup_finally t
  | SEnsure => sup_ensure t
  | SLast => sup_last t
  | SFree => sup_free t
  | SEnd | SRaised => skip
  end.

Definition runner_step (pc : runner_pc) : M unit :=
  match pc with
  | RSlot => runner_slot
  | RGet => runner_get
  | RCheck f => runner_check f
  | RStop => runner_stop
  | RDrain => runner_drain
  | RExit => skip
  end.

Definition shut_step (h : nat) (pc : shut_pc) : M unit :=
  match pc with
  | HClose wait cancel => shutdown_close h wait cancel
  | HDrain wait cancel => shutdown_drain h wait cancel
  | HPut wait cancel => shutdown_put h wait cancel
  | HList wait cancel => shutdown_list h wait cancel
  | HKill futs => shutdown_kill h futs
  | HJoin => shutdown_join h
  | HIdle => shutdown_idle h
  | HBusy => shutdown_busy h
  | HEnd | HRaised _ => skip
  end.

Definition exec (e : event) : M unit :=
  match e with
  | EvSubmit priority => submit_begin priority
  | EvPut k => submit_put k
  | EvPutFull k => submit_full k
  | EvRunner => s ← gets id; runner_step (po_runner s)
  | EvThread t pid hook sent polled mem =>
      s ← gets id; sup_step t (pc_of s t) pid hook sent polled mem
  | EvShutdown wait cancel => shutdown_begin wait cancel
  | EvShutdownStep h => s ← gets id; shut_step h (po_shutdowns s !!! h)
  | EvShutdownFull h => shutdown_full h
  | EvCancel f => fut_cancel f
  | EvClear => clear_worker
  | EvDie w => modify (set_worker w (λ x, {| x with wk_alive := false |}))
  end.

(** What a thread must wait for: a slot, a job, a worker, the end of all tasks. *)
Definition enabled (e : event) (s : Pool) : bool :=
  match e with
  | EvPut k => (k <? length (po_putting s))%nat && negb (backlog_full s)
  | EvPutFull k => (k <? length (po_putting s))%nat && backlog_full s
  | EvRunner =>
      match po_runner s with
      | RSlot => (pool_size cfg <=? 0) || (po_running s <? pool_size cfg)
      | RGet => match po_queue s with [] => false | _ => true end
      | RExit => false
      | _ => true
      end
  | EvThread t _ _ _ _ _ =>
      (t <? length (po_threads s))%nat
      && match pc_of s t with
         | STake _ => match po_idle s with [] => false | _ => true end
         | SEnd | SRaised => false
         | _ => true
         end
  | EvShutdownStep h =>
      (h <? length (po_shutdowns s))%nat
      && match po_shutdowns s !!! h with
         | HPut _ _ => negb (backlog_full s)
         | HJoin => po_unfinished s =? 0
         | HEnd | HRaised _ => false
         | _ => true
         end
  | EvShutdownFull h =>
      (h <? length (po_shutdowns s))%nat && backlog_full s
      && match po_shutdowns s !!! h with HPut _ _ => true | _ => false end
  | _ => true
  end.

Definition pool_step (s : Pool) (e : event) (s' : Pool) : Prop :=
  enabled e s = true ∧ (exec e s).1 = s'.

(** The states a pool reaches that was built with one process per worker. *)
Definition reachable (s : Pool) : Prop :=
  ∃ pids es, Z.of_nat (length pids) = pool_size cfg ∧ steps pool_step (pool_init pids) es s.

Fixpoint run (s : Pool) (es : list event) : option Pool :=
  match es with
  | [] => Some s
  | e :: es' => if enabled e s then run (exec e s).1 es' else None
  end.

Lemma pool_run_steps s es s' : run s es = Some s' → steps pool_step s es s'.
Proof.
  revert s. induction es as [|e es IH]; simpl; intros s.
  - intros [= <-]. constructor.
  - destruct (enabled e s) eqn:E; [|done]. intros H%IH. by econstructor.
Qed.
End Pool.

(** Runs the body of an operation to its last state. *)
Ltac run_sup :=
  unfold guarded, ending, resume, worker_shutdown, goto;
  cbv [mbind ST_bind gets modify lift raise skip mret ST_ret swallow id]; cbn.
