(* ===== verification/PoolProps.v ===== *)
(** * PoolProps: the invariants of the local pool

    [PoolInv] relates the two counters of the pool (slots of [running_jobs] and
    unfinished tasks of the backlog), its workers and its futures to the positions
    of the threads; [move] is the one lemma behind most operations: a supervisor goes
    from one position to another and the counters follow. *)
From S2P Require Import Prelude Errors Futures StateErr Heapq Pool.

(** ** What a thread holds at a position *)

(** A slot of [running_jobs]; a thread that raised in its [finally] block keeps it. *)
Definition occ (pc : sup_pc) : Z := match pc with SEnd => 0 | _ => 1 end.

(** A worker that is in nobody else's hands, or the right to add one. *)
Definition holds (pc : sup_pc) : Z :=
  match pc with
  | SAdd _ | SGot _ _ | SHook _ _ | SSend _ _ | SPublish _ | SWait _ | SDone _ _
  | SCount _ _ _ | SBack _ _ _ _ | SReplace _ => 1
  | _ => 0
  end.

(** An unfinished task of the backlog. *)
Definition pend (pc : sup_pc) : Z :=
  match pc with SEnsure | SLast | SFree | SEnd | SRaised => 0 | _ => 1 end.

Definition sealed (pc : sup_pc) : bool :=
  match pc with SFree | SEnd | SRaised => true | _ => false end.

Definition runner_occ (pc : runner_pc) : Z :=
  match pc with RGet | RCheck _ | RStop => 1 | _ => 0 end.
Definition runner_pend (pc : runner_pc) : Z :=
  match pc with RCheck _ | RStop => 1 | _ => 0 end.

Section PoolProps.
Context {V : Type} {HQ : HeapQ Item item_le}.
Context (cfg : PoolConfig) (Hsize : 0 < pool_size cfg).
Notation Pool := (Pool (V := V)).
Notation exec := (exec (V := V) cfg).
Notation pool_step := (pool_step (V := V) cfg).
Notation reachable := (reachable (V := V) cfg).

Definition total (g : sup_pc → Z) (s : Pool) : Z := zsum (λ x, g (su_pc x)) (po_threads s).

(** Where a future that is not done may still be. *)
Definition waiting (s : Pool) (f : nat) : Prop :=
  f ∈ (λ x, x.1.1) <$> po_putting s ∨ f ∈ po_refused s ∨
  Some f ∈ it_job <$> po_queue s ∨ po_runner s = RCheck f ∨
  f ∈ su_future <$> po_threads s.

Record PoolInv (s : Pool) : Prop := {
  pi_heap : is_heap (po_queue s);
  pi_slots : po_running s = total occ s + runner_occ (po_runner s);
  pi_bound : po_running s ≤ pool_size cfg;
  pi_workers : Z.of_nat (length (po_idle s)) + total holds s ≤ pool_size cfg;
  pi_unfinished : po_unfinished s
    = Z.of_nat (length (po_queue s)) + total pend s + runner_pend (po_runner s);
  pi_sealed : ∀ t, (t < length (po_threads s))%nat → sealed (pc_of s t) = true →
    fut_done s (job_of s t) = true;
  pi_known : ∀ f, waiting s f → (f < length (po_futures s))%nat;
  pi_kept : ∀ f, (f < length (po_futures s))%nat → fut_done s f = true ∨ waiting s f;
  pi_states : ∀ f, pf_state (future s f) ≠ FutureState.RUNNING }.

(** ** Sums over the threads *)

Lemma occ_bound pc : 0 ≤ occ pc ≤ 1. Proof. destruct pc; simpl; lia. Qed.
Lemma holds_bound pc : 0 ≤ holds pc ≤ occ pc. Proof. destruct pc; simpl; lia. Qed.
Lemma pend_bound pc : 0 ≤ pend pc ≤ 1. Proof. destruct pc; simpl; lia. Qed.

Lemma total_nonneg g s : (∀ pc, 0 ≤ g pc) → 0 ≤ total g s.
Proof. intros Hg. apply zsum_nonneg. intros x. apply Hg. Qed.

Lemma zsum_le {A} (g h : A → Z) l : (∀ x, g x ≤ h x) → zsum g l ≤ zsum h l.
Proof.
  intros H. unfold zsum. induction l as [|x l IH]; csimpl; cbn [foldr]; [lia|]. specialize (H x). lia.
Qed.

Lemma total_set g s t pc :
  (t < length (po_threads s))%nat →
  total g (set_thread t pc s) = total g s - g (pc_of s t) + g pc.
Proof. intros Ht. unfold total, pc_of. simpl. by rewrite zsum_alter. Qed.

(** One summand is at most the sum. *)
Lemma zsum_elem {A} `{Inhabited A} (g : A → Z) (l : list A) i :
  (∀ x, 0 ≤ g x) → (i < length l)%nat → g (l !!! i) ≤ zsum g l.
Proof.
  intros Hg. revert i. induction l as [|x l IH]; intros [|i] Hi; cbn [length] in Hi; try lia;
    rewrite zsum_cons.
  - change ((x :: l) !!! 0%nat) with x. pose proof (zsum_nonneg g l Hg). lia.
  - change ((x :: l) !!! S i) with (l !!! i). specialize (IH i ltac:(lia)).
    specialize (Hg x). lia.
Qed.

Lemma total_split g s t :
  (∀ pc, 0 ≤ g pc) → (t < length (po_threads s))%nat → g (pc_of s t) ≤ total g s.
Proof.
  intros Hg Ht. apply (zsum_elem (λ x, g (su_pc x)) (po_threads s)); [|done]. intros; apply Hg.
Qed.

(** ** The [move] lemma *)

(** Futures are only added, a done one stays as it is, and none is marked running. *)
Definition futures_le (s s' : Pool) : Prop :=
  (length (po_futures s) ≤ length (po_futures s'))%nat ∧
  (∀ f, (f < length (po_futures s))%nat → fut_done s f = true →
    pf_state (future s' f) = pf_state (future s f) ∧
    pf_value (future s' f) = pf_value (future s f)) ∧
  (∀ f, pf_state (future s' f) = FutureState.RUNNING → pf_state (future s f) = FutureState.RUNNING).

#[export] Instance futures_le_preorder : PreOrder futures_le.
Proof.
  split; [intros s; unfold futures_le; by split_and!|]. intros s s' s'' (L1 & H1 & R1) (L2 & H2 & R2).
  unfold futures_le. split_and!; [lia| |auto].
  intros f Hf Hd. destruct (H1 f Hf Hd) as [E1 E2]. destruct (H2 f) as [F1 F2]; [lia| |by rewrite F1, F2].
  unfold fut_done in *. by rewrite E1.
Qed.

Lemma futures_le_done s s' f :
  futures_le s s' → (f < length (po_futures s))%nat → fut_done s f = true → fut_done s' f = true.
Proof. intros (_ & H & _) Hf Hd. destruct (H f Hf Hd) as [E _]. unfold fut_done in *. by rewrite E. Qed.

Lemma futures_same s s' : po_futures s' = po_futures s → futures_le s s'.
Proof. intros H. unfold futures_le, fut_done, future. by rewrite H. Qed.

(** Everything about [s] that a supervisor's move leaves alone. *)
Record frame (s s' : Pool) : Prop := {
  fr_queue : po_queue s' = po_queue s;
  fr_runner : po_runner s' = po_runner s;
  fr_putting : po_putting s' = po_putting s;
  fr_refused : po_refused s' = po_refused s;
  fr_length : length (po_futures s') = length (po_futures s);
  fr_futures : futures_le s s' }.

Lemma move s s' t pc' :
  PoolInv s → (t < length (po_threads s))%nat → frame s s' →
  po_threads s' = po_threads (set_thread t pc' s) →
  po_running s' = po_running s - occ (pc_of s t) + occ pc' →
  occ pc' ≤ occ (pc_of s t) →
  Z.of_nat (length (po_idle s')) + (total holds s - holds (pc_of s t) + holds pc')
    ≤ pool_size cfg →
  po_unfinished s' = po_unfinished s - pend (pc_of s t) + pend pc' →
  (sealed pc' = true → fut_done s' (job_of s t) = true) →
  PoolInv s'.
Proof.
  intros [] Ht [Eq Er Ep Ef El Hle] Eth Hrun Hocc Hidle Hun Hsealed.
  assert (Htot : ∀ g, total g s' = total g s - g (pc_of s t) + g pc').
  { intros g. rewrite <- total_set by done. unfold total. by rewrite Eth. }
  assert (Hjobs : ∀ t', job_of s' t' = job_of s t').
  { intros t'. unfold job_of. rewrite Eth. simpl. rewrite list_lookup_total_alter.
    case_decide as Hd; [by destruct Hd as [<- _]|done]. }
  assert (Hlen : length (po_threads s') = length (po_threads s))
    by (rewrite Eth; simpl; apply length_alter).
  assert (Hw : ∀ f, waiting s' f ↔ waiting s f).
  { intros f. unfold waiting. rewrite Eq, Er, Ep, Ef.
    assert (su_future <$> po_threads s' = su_future <$> po_threads s) as ->; [|done].
    rewrite Eth. simpl. apply list_eq. intros i. rewrite !list_lookup_fmap, list_lookup_alter.
    case_decide; [subst|done]. by destruct (po_threads s !! i). }
  split.
  - by rewrite Eq.
  - rewrite Htot, Er. lia.
  - lia.
  - rewrite Htot. lia.
  - rewrite Htot, Eq, Er. lia.
  - intros t' Ht' Hs. rewrite Hjobs. rewrite Hlen in Ht'. unfold pc_of in Hs. rewrite Eth in Hs.
    simpl in Hs. rewrite list_lookup_total_alter in Hs. case_decide as Hd.
    + destruct Hd as [<- _]. by apply Hsealed.
    + eapply futures_le_done; [done| |by apply pi_sealed0]. apply pi_known0.
      do 4 right. apply list_elem_of_fmap. exists (po_threads s !!! t'). split; [done|].
      by apply list_elem_of_lookup_total_2.
  - intros f Hf%Hw. rewrite El. by apply pi_known0.
  - intros f. rewrite El. intros Hf. destruct (pi_kept0 f Hf) as [Hd|Hd]; [left|right].
    + by eapply futures_le_done.
    + by apply Hw.
  - intros f Hf. by apply (pi_states0 f), Hle.
Qed.

(** ** The supervisors keep the invariant *)

(** What [move] asks of one stretch of the thread [t]. *)
Definition moved (t : nat) (s s' : Pool) : Prop :=
  ∃ pc', frame s s' ∧ po_threads s' = po_threads (set_thread t pc' s) ∧
    po_running s' = po_running s - occ (pc_of s t) + occ pc' ∧
    occ pc' ≤ occ (pc_of s t) ∧
    Z.of_nat (length (po_idle s')) + (total holds s - holds (pc_of s t) + holds pc')
      ≤ pool_size cfg ∧
    po_unfinished s' = po_unfinished s - pend (pc_of s t) + pend pc' ∧
    (sealed pc' = true → fut_done s' (job_of s t) = true).

Lemma moved_inv t s s' :
  PoolInv s → (t < length (po_threads s))%nat → moved t s s' → PoolInv s'.
Proof. intros ? ? (pc' & ? & ? & ? & ? & ? & ? & ?). by apply (move s s' t pc'). Qed.

Lemma frame_refl_of s s' :
  po_queue s' = po_queue s → po_runner s' = po_runner s → po_putting s' = po_putting s →
  po_refused s' = po_refused s → po_futures s' = po_futures s → frame s s'.
Proof. intros. split; try done; [congruence|by apply futures_same]. Qed.

(** Setting a future that is not done. *)
Lemma futures_le_alter s s' f g :
  fut_done s f = false → (∀ x, pf_state (g x) ≠ FutureState.RUNNING) →
  po_futures s' = alter g f (po_futures s) → futures_le s s'.
Proof.
  intros Hd Hg E. unfold futures_le. rewrite E, length_alter. split_and!; [done| |].
  - intros f' Hf' Hd'. unfold future. rewrite E, list_lookup_total_alter_ne; [done|].
    intros ->. congruence.
  - intros f' H'. unfold future in *. rewrite E, list_lookup_total_alter in H'.
    case_decide; [|done]. by apply Hg in H'.
Qed.

Lemma frame_alter s s' f g :
  fut_done s f = false → (∀ x, pf_state (g x) ≠ FutureState.RUNNING) →
  po_futures s' = alter g f (po_futures s) →
  po_queue s' = po_queue s → po_runner s' = po_runner s → po_putting s' = po_putting s →
  po_refused s' = po_refused s → frame s s'.
Proof.
  intros ? ? E **. split; try done; [by rewrite E, length_alter|by eapply futures_le_alter].
Qed.

(** The frame of a body that finishes a future. *)
Ltac alter_frame := eapply frame_alter; [eassumption| |reflexivity..]; done.

(** Discharges the conditions of [moved] once the body has run. *)
Ltac do_move Hpc :=
  eexists; split_and!;
  [first [by apply frame_refl_of|idtac]|reflexivity|..]; rewrite ?Hpc; cbn; try lia; try done.

Lemma sup_loop_moved t s n : PoolInv s → pc_of s t = SLoop n → moved t s (sup_loop t n s).1.
Proof. intros [] Hpc. destruct n as [|n]; unfold sup_loop; run_sup; do_move Hpc. Qed.

Lemma runner_occ_nonneg pc : 0 ≤ runner_occ pc.
Proof. destruct pc; cbn; lia. Qed.

Lemma zsum_sub {A} (g h : A → Z) l : zsum (λ x, g x - h x) l = zsum g l - zsum h l.
Proof. induction l as [|x l IH]; [done|]. rewrite !zsum_cons, IH. lia. Qed.

(** A thread that holds no worker leaves room for one. *)
Lemma room_for_one s t :
  PoolInv s → (t < length (po_threads s))%nat → holds (pc_of s t) < occ (pc_of s t) →
  total holds s < pool_size cfg.
Proof.
  intros [] Ht Hpc.
  pose proof (total_split (λ pc, occ pc - holds pc) s t) as H; cbn in H.
  assert (total (λ pc, occ pc - holds pc) s = total occ s - total holds s) as H2 by apply zsum_sub.
  pose proof (runner_occ_nonneg (po_runner s)).
  specialize (H ltac:(intros pc; pose proof (holds_bound pc); lia) Ht). lia.
Qed.

Lemma sup_size_moved t s n b :
  PoolInv s → (t < length (po_threads s))%nat → pc_of s t = SSized n b →
  moved t s (sup_size cfg t n b s).1.
Proof.
  intros HI Ht Hpc. pose proof HI as []. pose proof (room_for_one s t HI Ht) as Hroom.
  rewrite Hpc in Hroom; cbn in Hroom. unfold sup_size; run_sup.
  destruct (_ && _) eqn:E; do_move Hpc.
Qed.

Lemma sup_add_moved t s n pid :
  PoolInv s → pc_of s t = SAdd n → moved t s (sup_add t n pid s).1.
Proof.
  intros [] Hpc. unfold sup_add, add_worker_to_pool, stat_created. run_sup.
  destruct pid as [p|e]; cbn; do_move Hpc. rewrite length_app; cbn. lia.
Qed.

Lemma sup_take_moved t s n :
  PoolInv s → pc_of s t = STake n → po_idle s ≠ [] → moved t s (sup_take t n s).1.
Proof.
  intros [] Hpc Hidle. unfold sup_take. run_sup. destruct (po_idle s) as [|w idle] eqn:E; [done|].
  cbn in pi_workers0. cbn. do_move Hpc.
Qed.

Lemma sup_got_moved t s n w : PoolInv s → pc_of s t = SGot n w → moved t s (sup_got t n w s).1.
Proof. intros [] Hpc. unfold sup_got. run_sup. do_move Hpc. Qed.

Lemma sup_raised_moved t s n w e :
  PoolInv s → pend (pc_of s t) = 1 → occ (pc_of s t) = 1 → holds (pc_of s t) = 1 →
  moved t s (sup_raised t n w e s).1.
Proof.
  intros [] Hp Ho Hh. unfold sup_raised, fut_set. run_sup.
  destruct (unpicklable e); [|destruct (isinstance e BrokenPipeError)].
  - destruct (fut_done s (job_of s t)) eqn:E; cbn.
    + eexists; split_and!; [by apply frame_refl_of|reflexivity|..]; cbn; try lia; done.
    + eexists; split_and!; [alter_frame|reflexivity|..]; cbn; try lia; done.
  - eexists; split_and!; [by apply frame_refl_of|reflexivity|..]; cbn; try lia; done.
  - eexists; split_and!; [by apply frame_refl_of|reflexivity|..]; cbn; try lia; done.
Qed.

(** Changes of the workers, the busy set and the counters are out of sight. *)
Definition aside (s s1 : Pool) : Prop :=
  po_queue s1 = po_queue s ∧ po_runner s1 = po_runner s ∧ po_putting s1 = po_putting s ∧
  po_refused s1 = po_refused s ∧ po_futures s1 = po_futures s ∧ po_threads s1 = po_threads s ∧
  po_running s1 = po_running s ∧ po_idle s1 = po_idle s ∧ po_unfinished s1 = po_unfinished s.

Lemma aside_waiting s s1 f : aside s s1 → waiting s1 f ↔ waiting s f.
Proof. intros (Eq & Er & Ep & Ef & _ & Et & _). unfold waiting. by rewrite Eq, Er, Ep, Ef, Et. Qed.

Lemma aside_inv s s1 : aside s s1 → PoolInv s → PoolInv s1.
Proof.
  intros Ha []. pose proof Ha as (Eq & Er & Ep & Ef & Eu & Et & En & Ei & Ec).
  split; unfold total, fut_done, future, pc_of, job_of in *; rewrite ?Eq, ?Er, ?Eu, ?Et, ?En, ?Ei, ?Ec;
    try done.
  - intros f Hf%(aside_waiting s s1 f Ha). by apply pi_known0.
  - intros f Hf. destruct (pi_kept0 f Hf) as [H|H]; [by left|right]. by apply (aside_waiting s s1 f Ha).
Qed.

Lemma aside_moved t s s1 s' : aside s s1 → moved t s1 s' → moved t s s'.
Proof.
  intros (Eq & Er & Ep & Ef & Eu & Et & En & Ei & Ec) (pc' & [] & Hth & Hn & Ho & Hi & Hu & Hs).
  unfold total, pc_of, job_of in *. rewrite Et in Hn, Ho, Hi, Hu, Hs. rewrite En in Hn.
  rewrite Ec in Hu. exists pc'. unfold total, pc_of, job_of. split_and!; try done.
  - split; try congruence. destruct fr_futures0 as (L & H & R).
    unfold futures_le, fut_done, future in *. by rewrite Eu in *.
  - rewrite Hth. cbn. by rewrite Et.
Qed.

Lemma sup_hook_moved t s n w r : PoolInv s → pc_of s t = SHook n w → moved t s (sup_hook t n w r s).1.
Proof.
  intros HI Hpc. pose proof HI as []. unfold sup_hook. destruct r as [| |e].
  - run_sup. do_move Hpc.
  - run_sup. do_move Hpc.
  - by apply sup_raised_moved; rewrite ?Hpc.
Qed.

Lemma sup_send_moved t s n w r : PoolInv s → pc_of s t = SSend n w → moved t s (sup_send t n w r s).1.
Proof.
  intros HI Hpc. unfold sup_send. run_body. destruct r as [e|].
  - eapply aside_moved; [|apply sup_raised_moved; [eapply aside_inv; [|done]|..]].
    1,2: done. all: change (pc_of _ t) with (pc_of s t); by rewrite Hpc.
  - pose proof HI as []. run_sup. do_move Hpc.
Qed.

Lemma sup_publish_moved t s w :
  PoolInv s → pc_of s t = SPublish w → moved t s (sup_publish t w s).1.
Proof.
  intros [] Hpc. unfold sup_publish. run_sup. do_move Hpc.
  split; try done; cbn; [apply length_alter|]. split_and!; [cbn; by rewrite length_alter| |].
  all: intros f; unfold future; cbn; rewrite list_lookup_total_alter; case_decide as Hx; try done.
  all: by destruct Hx as [-> _].
Qed.

Lemma sup_poll_moved t s w r : PoolInv s → pc_of s t = SWait w → moved t s (sup_poll t w r s).1.
Proof.
  intros [] Hpc. unfold sup_poll, fut_offer, fut_set, stat_failed. run_sup.
  assert (Hd : fut_done s (job_of s t) = true ∨ fut_done s (job_of s t) = false)
    by (destruct (fut_done _ _); auto).
  destruct r as [[v|e]|e|e|e|e]; try destruct (isinstance e PoolTimeoutError); cbn;
    unfold fut_done, future in *; cbn in *; destruct Hd as [Hd|Hd]; rewrite ?Hd; cbn; rewrite ?Hd; cbn;
    do_move Hpc; alter_frame.
Qed.

Lemma sup_done_moved t s w nx : PoolInv s → pc_of s t = SDone w nx → moved t s (sup_done t w nx s).1.
Proof.
  intros [] Hpc. unfold sup_done. run_sup. destruct (list_del w (po_busy s)); run_sup; do_move Hpc.
Qed.

Lemma sup_count_moved t s w b nx :
  PoolInv s → pc_of s t = SCount w b nx → moved t s (sup_count t w b nx s).1.
Proof. intros [] Hpc. unfold sup_count. run_sup. do_move Hpc. Qed.

Lemma sup_back_moved t s w b q nx mem :
  PoolInv s → pc_of s t = SBack w b q nx → moved t s (sup_back cfg t w b q nx mem s).1.
Proof.
  intros [] Hpc. unfold sup_back. run_sup.
  repeat match goal with |- context [if ?b then _ else _] => destruct b eqn:? end;
    repeat match goal with |- context [match ?x with _ => _ end] =>
      first [is_var x; destruct x | destruct x eqn:?] end;
    run_sup; do_move Hpc; rewrite ?length_app; cbn; lia.
Qed.

Lemma sup_replace_moved t s nx pid :
  PoolInv s → pc_of s t = SReplace nx → moved t s (sup_replace t nx pid s).1.
Proof.
  intros [] Hpc. unfold sup_replace, add_worker_to_pool, stat_created. run_sup.
  destruct pid as [p|e], nx as [|n w]; cbn; do_move Hpc; rewrite length_app; cbn; lia.
Qed.

Lemma sup_give_up_moved t s : PoolInv s → pc_of s t = SGiveUp → moved t s (sup_give_up t s).1.
Proof.
  intros [] Hpc. unfold sup_give_up, fut_set. run_sup.
  destruct (fut_done s (job_of s t)) eqn:E; cbn; do_move Hpc; alter_frame.
Qed.

Lemma pending_positive s t :
  PoolInv s → (t < length (po_threads s))%nat → pend (pc_of s t) = 1 → 1 ≤ po_unfinished s.
Proof.
  intros [] Ht Hp. pose proof (total_split pend s t) as H. rewrite Hp in H.
  assert (0 ≤ runner_pend (po_runner s)) by (destruct (po_runner s); cbn; lia).
  specialize (H ltac:(intros pc; destruct (pend_bound pc); lia) Ht). lia.
Qed.

Lemma sup_finally_moved t s :
  PoolInv s → (t < length (po_threads s))%nat → pc_of s t = SFinally → moved t s (sup_finally t s).1.
Proof.
  intros HI Ht Hpc. pose proof (pending_positive s t HI Ht) as Hp. rewrite Hpc in Hp.
  specialize (Hp eq_refl). pose proof HI as []. unfold sup_finally, task_done. run_sup.
  destruct (_ <? 0) eqn:E; [lia|]. run_sup. do_move Hpc.
Qed.

Lemma sup_ensure_moved t s : PoolInv s → pc_of s t = SEnsure → moved t s (sup_ensure t s).1.
Proof.
  intros [] Hpc. unfold sup_ensure. run_sup. destruct (fut_done s (job_of s t)) eqn:E; do_move Hpc.
Qed.

Lemma fut_set_done (s : Pool) f r :
  (f < length (po_futures s))%nat → fut_done (set_future f (λ x, mkPoolFuture FutureState.FINISHED (pf_pid x) r) s) f = true.
Proof. intros Hf. unfold fut_done, future. cbn. by rewrite list_lookup_total_alter_eq. Qed.

Lemma job_known s t :
  PoolInv s → (t < length (po_threads s))%nat → (job_of s t < length (po_futures s))%nat.
Proof.
  intros [] Ht. apply pi_known0. do 4 right. apply list_elem_of_fmap.
  exists (po_threads s !!! t). split; [done|]. by apply list_elem_of_lookup_total_2.
Qed.

Lemma sup_last_moved t s :
  PoolInv s → (t < length (po_threads s))%nat → pc_of s t = SLast → moved t s (sup_last t s).1.
Proof.
  intros HI Ht Hpc. pose proof (job_known s t HI Ht). pose proof HI as [].
  unfold sup_last, fut_set. run_sup. destruct (fut_done s (job_of s t)) eqn:E; cbn; do_move Hpc.
  - alter_frame.
  - intros _. by apply (fut_set_done s).
Qed.

Lemma sup_free_moved t s :
  PoolInv s → (t < length (po_threads s))%nat → pc_of s t = SFree → moved t s (sup_free t s).1.
Proof.
  intros HI Ht Hpc. pose proof HI as []. unfold sup_free, free_slot. run_sup. do_move Hpc.
  - pose proof (total_split occ s t) as H. rewrite Hpc in H; cbn in H.
    pose proof (runner_occ_nonneg (po_runner s)).
    specialize (H ltac:(intros pc; destruct (occ_bound pc); lia) Ht).
    destruct (0 <? po_running s) eqn:E; lia.
  - intros _. apply pi_sealed0; [done|]. by rewrite Hpc.
Qed.

Lemma sup_step_inv s t pid hook sent polled mem :
  PoolInv s → enabled cfg (EvThread t pid hook sent polled mem) s = true →
  PoolInv (sup_step cfg t (pc_of s t) pid hook sent polled mem s).1.
Proof.
  intros HI [Ht%Nat.ltb_lt Hen]%andb_true_iff. apply (moved_inv t s); [done|done|].
  destruct (pc_of s t) eqn:Hpc; cbn [sup_step].
  - by apply sup_loop_moved.
  - by apply sup_size_moved.
  - by apply sup_add_moved.
  - apply sup_take_moved; [done|done|]. by destruct (po_idle s).
  - by apply sup_got_moved.
  - by apply sup_hook_moved.
  - by apply sup_send_moved.
  - by apply sup_publish_moved.
  - by apply sup_poll_moved.
  - by apply sup_done_moved.
  - by apply sup_count_moved.
  - by apply sup_back_moved.
  - by apply sup_replace_moved.
  - by apply sup_give_up_moved.
  - by apply sup_finally_moved.
  - by apply sup_ensure_moved.
  - by apply sup_last_moved.
  - by apply sup_free_moved.
  - done.
  - done.
Qed.

(** ** The other threads *)

(** A change outside the supervisors, which may launch [new] ones. *)
Lemma inv_change s s' new :
  PoolInv s → futures_le s s' → po_threads s' = po_threads s ++ new →
  Forall (λ x, su_pc x = SLoop 10) new → is_heap (po_queue s') →
  po_running s' - runner_occ (po_runner s') - Z.of_nat (length new)
    = po_running s - runner_occ (po_runner s) →
  po_running s' ≤ pool_size cfg → (length (po_idle s') ≤ length (po_idle s))%nat →
  po_unfinished s' - Z.of_nat (length (po_queue s')) - runner_pend (po_runner s')
      - Z.of_nat (length new)
    = po_unfinished s - Z.of_nat (length (po_queue s)) - runner_pend (po_runner s) →
  (∀ f, waiting s f → fut_done s' f = true ∨ waiting s' f) →
  (∀ f, waiting s' f → waiting s f ∨ (length (po_futures s) ≤ f < length (po_futures s'))%nat) →
  (∀ f, (length (po_futures s) ≤ f < length (po_futures s'))%nat → waiting s' f) →
  PoolInv s'.
Proof.
  intros HI Hle Eth Hnew Hheap Hrun Hbound Hidle Hun Hkeep Hknown Hfresh. pose proof HI as [].
  assert (Hnew' : ∀ g, zsum (λ x, g (su_pc x)) new = g (SLoop 10) * Z.of_nat (length new)).
  { intros g. clear -Hnew. induction Hnew as [|x l Hx _ IH]; [cbn; lia|].
    rewrite zsum_cons, IH, Hx. cbn [length]. lia. }
  assert (Htot : ∀ g, total g s' = total g s + g (SLoop 10) * Z.of_nat (length new)).
  { intros g. unfold total. by rewrite Eth, zsum_app, Hnew'. }
  split.
  - done.
  - rewrite Htot. cbn. lia.
  - done.
  - rewrite Htot. cbn. lia.
  - rewrite Htot. cbn. lia.
  - intros t Ht Hs. unfold pc_of, job_of in *. rewrite Eth in *.
    destruct (Nat.lt_ge_cases t (length (po_threads s))) as [Hl|Hl].
    + rewrite lookup_total_app_l in * by done. eapply futures_le_done; [done| |by apply pi_sealed0].
      by apply (job_known s t).
    + rewrite lookup_total_app_r in Hs by done. rewrite length_app in Ht.
      rewrite Forall_lookup_total in Hnew. by rewrite Hnew in Hs by lia.
  - intros f [Hf%pi_known0|Hf]%Hknown; [|lia]. destruct Hle. lia.
  - intros f Hf. destruct (Nat.lt_ge_cases f (length (po_futures s))) as [Hl|Hl]; [|right; by apply Hfresh].
    destruct (pi_kept0 f Hl) as [Hd|Hw]; [left|by apply Hkeep]. by eapply futures_le_done.
  - intros f Hf. by apply (pi_states0 f), Hle.
Qed.

(** The common case: no thread is launched. *)
Lemma inv_same s s' :
  PoolInv s → futures_le s s' → po_threads s' = po_threads s → is_heap (po_queue s') →
  po_running s' - runner_occ (po_runner s') = po_running s - runner_occ (po_runner s) →
  po_running s' ≤ pool_size cfg → (length (po_idle s') ≤ length (po_idle s))%nat →
  po_unfinished s' - Z.of_nat (length (po_queue s')) - runner_pend (po_runner s')
    = po_unfinished s - Z.of_nat (length (po_queue s)) - runner_pend (po_runner s) →
  (∀ f, waiting s f → fut_done s' f = true ∨ waiting s' f) →
  (∀ f, waiting s' f → waiting s f ∨ (length (po_futures s) ≤ f < length (po_futures s'))%nat) →
  (∀ f, (length (po_futures s) ≤ f < length (po_futures s'))%nat → waiting s' f) →
  PoolInv s'.
Proof.
  intros. apply (inv_change s s' []); try done; [by rewrite app_nil_r|cbn; lia..].
Qed.

(** No change of the queue, the futures' places or the runner. *)
Lemma inv_idle s s' :
  PoolInv s → futures_le s s' → length (po_futures s') = length (po_futures s) →
  po_threads s' = po_threads s → po_queue s' = po_queue s →
  po_running s' = po_running s → po_runner s' = po_runner s → po_unfinished s' = po_unfinished s →
  po_putting s' = po_putting s → po_refused s' = po_refused s →
  (length (po_idle s') ≤ length (po_idle s))%nat → PoolInv s'.
Proof.
  intros HI ? El Eth Eq Er Eu En Ep Ef ?. pose proof HI as [].
  apply (inv_same s); unfold waiting; rewrite ?Eq, ?Er, ?Eu, ?En, ?Ep, ?Ef, ?Eth, ?El; try done; auto; lia.
Qed.

(** *** The backlog *)

Lemma queue_pop_spec (s : Pool) it q :
  is_heap (po_queue s) → get_item s = Some (it, q) → is_heap q ∧ po_queue s ≡ₚ it :: q.
Proof.
  unfold get_item. intros Hh Hg. destruct (po_queue s) as [|x h] eqn:E.
  - by rewrite heappop_nil in Hg.
  - destruct (heappop_cons x h Hh) as (h' & Hp & Hh' & Hperm). rewrite Hp in Hg.
    injection Hg as <- <-. split; [done|by rewrite Hperm].
Qed.

Lemma pop_none (s : Pool) : is_heap (po_queue s) → get_item s = None → po_queue s = [].
Proof.
  unfold get_item. intros Hh Hg. destruct (po_queue s) as [|x h] eqn:E; [done|].
  destruct (heappop_cons x h Hh) as (h' & Hp & _). by rewrite Hp in Hg.
Qed.

(** [s'] differs from [s] in its futures alone. *)
Definition only_futures (s s' : Pool) : Prop :=
  s' = {| s with po_futures := po_futures s' |} ∧ futures_le s s' ∧
  length (po_futures s') = length (po_futures s).

Lemma fut_cancel_only (s : Pool) f : only_futures s (fut_cancel f s).1.
Proof.
  unfold fut_cancel. run_sup. case_bool_decide as E; cbn; [|by destruct s].
  split_and!; [done| |cbn; apply length_alter].
  apply (futures_le_alter _ _ f (λ x, mkPoolFuture FutureState.CANCELLED (pf_pid x) (pf_value x)));
    try done. unfold fut_done. by rewrite E.
Qed.

Lemma fut_cancel_ok (s : Pool) f : (fut_cancel f s).2 = Ok tt.
Proof. unfold fut_cancel. run_sup. by case_bool_decide. Qed.

Lemma fut_cancel_done (s : Pool) f :
  (f < length (po_futures s))%nat → pf_state (future s f) ≠ FutureState.RUNNING →
  fut_done (fut_cancel f s).1 f = true.
Proof.
  intros Hf Hr. unfold fut_cancel. run_sup. case_bool_decide as E; cbn.
  - unfold fut_done, future. cbn. by rewrite list_lookup_total_alter_eq.
  - unfold fut_done. by destruct (pf_state (future s f)).
Qed.

Lemma only_futures_inv (s s' : Pool) : only_futures s s' → PoolInv s → PoolInv s'.
Proof. intros (E & Hle & El) HI. rewrite E in *. by apply (inv_idle s). Qed.

Lemma submit_begin_inv s p : PoolInv s → PoolInv (submit_begin p s).1.
Proof.
  intros HI. pose proof HI as []. unfold submit_begin.
  destruct (p <? 0); [done|]. run_sup. destruct (po_closed s); [done|]. cbn.
  apply (inv_same s); cbn; try done; rewrite ?length_app; cbn.
  - unfold futures_le, future; cbn. rewrite length_app. split_and!; [lia| |].
    + intros f Hf _. by rewrite lookup_total_app_l.
    + intros f. destruct (Nat.lt_ge_cases f (length (po_futures s))) as [Hl|Hl];
        [by rewrite lookup_total_app_l|]. rewrite lookup_total_app_r by done.
      destruct (f - _)%nat as [|[]]; done.
  - intros f Hf. right. unfold waiting in *; cbn. rewrite fmap_app, elem_of_app. tauto.
  - intros f Hf. unfold waiting in *; cbn in Hf. rewrite fmap_app, elem_of_app in Hf.
    cbn in Hf. rewrite list_elem_of_singleton in Hf.
    destruct Hf as [[?| ->]|?]; [left; tauto|right; lia|left; tauto].
  - intros f Hf. left. cbn. rewrite fmap_app, elem_of_app. right. cbn.
    apply list_elem_of_singleton. lia.
Qed.

Lemma delete_fmap_perm {A B} (g : A → B) (l : list A) k x :
  l !! k = Some x → g <$> l ≡ₚ g x :: (g <$> delete k l).
Proof. intros H. by rewrite (fmap_Permutation g _ _ (delete_Permutation l k x H)). Qed.

Lemma delete_lookup_elem {A B} (g : A → B) (l : list A) k x y :
  l !! k = Some x → y ∈ g <$> l → y = g x ∨ y ∈ g <$> delete k l.
Proof. intros Hk Hy. rewrite (delete_fmap_perm g l k x Hk) in Hy. by apply elem_of_cons in Hy. Qed.

Lemma delete_elem {A B} (g : A → B) (l : list A) k y : y ∈ g <$> delete k l → y ∈ g <$> l.
Proof.
  intros Hy. apply list_elem_of_fmap in Hy as (x & -> & Hx). apply list_elem_of_fmap_2.
  apply list_elem_of_lookup in Hx as (i & Hi). apply list_elem_of_lookup.
  destruct (Nat.lt_ge_cases i k).
  - exists i. by rewrite list_lookup_delete_lt in Hi.
  - exists (S i). by rewrite list_lookup_delete_ge in Hi.
Qed.

Lemma lookup_fmap_elem {A B} (g : A → B) (l : list A) k x : l !! k = Some x → g x ∈ g <$> l.
Proof. intros H. apply list_elem_of_fmap. exists x. split; [done|]. by eapply list_elem_of_lookup_2. Qed.

Lemma submit_put_inv s k : PoolInv s → PoolInv (submit_put k s).1.
Proof.
  intros HI. pose proof HI as []. unfold submit_put, push, take_putting. run_sup.
  destruct (po_putting s !! k) as [[[f p] n]|] eqn:E; [|done]. cbn.
  set (it := mkItem p (Some f) n).
  pose proof (heappush_perm (po_queue s) it pi_heap0) as Hperm.
  apply (inv_same s); cbn; try done.
  - by apply heappush_heap.
  - rewrite Hperm. cbn. lia.
  - intros f' Hf'. right. unfold waiting in *; cbn. rewrite Hperm; cbn. rewrite elem_of_cons.
    destruct Hf' as [Hf'|Hf']; [|tauto].
    destruct (delete_lookup_elem _ _ _ _ _ E Hf') as [->|]; [|tauto]. tauto.
  - intros f' Hf'. left. unfold waiting in *; cbn in *. rewrite Hperm in Hf'; cbn in Hf'.
    rewrite elem_of_cons in Hf'. destruct Hf' as [H|[?|[[[= ->]|?]|?]]]; try tauto.
    + left. by eapply delete_elem.
    + left. by apply (lookup_fmap_elem (λ x, x.1.1) _ _ _ E).
  - lia.
Qed.

Lemma submit_full_inv s k : PoolInv s → PoolInv (submit_full k s).1.
Proof.
  intros HI. pose proof HI as []. unfold submit_full, take_putting. run_sup.
  destruct (po_putting s !! k) as [[[f p] n]|] eqn:E; [|done]. cbn.
  apply (inv_same s); cbn; try done.
  - intros f' Hf'. right. unfold waiting in *; cbn. rewrite elem_of_app, list_elem_of_singleton.
    destruct Hf' as [Hf'|Hf']; [|tauto].
    destruct (delete_lookup_elem _ _ _ _ _ E Hf') as [->|]; tauto.
  - intros f' Hf'. left. unfold waiting in *; cbn in *.
    rewrite elem_of_app, list_elem_of_singleton in Hf'.
    destruct Hf' as [H|[[?| ->]|?]]; try tauto.
    + left. by eapply delete_elem.
    + left. by apply (lookup_fmap_elem (λ x, x.1.1) _ _ _ E).
  - lia.
Qed.

Lemma pend_total_nonneg (s : Pool) : 0 ≤ total pend s.
Proof. apply total_nonneg. intros pc. destruct (pend_bound pc); lia. Qed.

Lemma runner_pend_nonneg pc : 0 ≤ runner_pend pc.
Proof. destruct pc; cbn; lia. Qed.

(** A task that is taken off the queue is accounted for. *)
Lemma task_done_ok (s : Pool) :
  1 ≤ po_unfinished s → task_done s = (set_unfinished (po_unfinished s - 1) s, Ok tt).
Proof. intros H. unfold task_done. run_sup. destruct (_ <? 0) eqn:E; [lia|done]. Qed.

Lemma cancel_queued_one_inv s : PoolInv s → PoolInv (cancel_queued_one s).1.
Proof.
  intros HI. pose proof HI as []. unfold cancel_queued_one. run_body. unfold id.
  destruct (get_item s) as [[it q]|] eqn:E; [|done].
  destruct (queue_pop_spec s it q pi_heap0 E) as [Hq Hperm].
  pose proof (pend_total_nonneg s). pose proof (runner_pend_nonneg (po_runner s)).
  assert (Hlen : length (po_queue s) = S (length q)) by (by rewrite Hperm).
  run_body. unfold mbind at 1, ST_bind. rewrite task_done_ok by (cbn; lia).
  set (s1 := set_unfinished _ _).
  destruct (it_job it) as [f|] eqn:Ef.
  - assert (Hfl : (f < length (po_futures s))%nat).
    { apply pi_known0. right; right; left. rewrite Hperm; cbn. rewrite Ef. left. }
    unfold mbind, ST_bind. pose proof (fut_cancel_only s1 f) as (E1 & Hle & El).
    pose proof (fut_cancel_done s1 f Hfl (pi_states0 f)) as Hdone.
    pose proof (fut_cancel_ok s1 f) as Hok.
    destruct (fut_cancel f s1) as [s2 r]; cbn in *; subst r. cbn.
    remember (po_futures s2) as fs eqn:Efs. clear Efs. subst s2. cbn in *.
    apply (inv_same s); cbn; try done; try lia.
    + intros f' [?|[?|[Hf'|?]]]; try (right; unfold waiting; cbn; tauto).
      rewrite Hperm in Hf'; cbn in Hf'. rewrite Ef in Hf'. apply elem_of_cons in Hf' as [[= ->]|Hf'].
      * by left.
      * right. unfold waiting; cbn. tauto.
    + intros f' Hw. left. unfold waiting in *; cbn in *. rewrite Hperm; cbn. rewrite elem_of_cons. tauto.
  - cbn. apply (inv_same s); cbn; try done; try lia.
    + intros f' Hw. right. unfold waiting in *; cbn. rewrite Hperm in Hw; cbn in Hw.
      rewrite Ef, elem_of_cons in Hw. destruct Hw as [?|[?|[[?|?]|?]]]; try tauto; done.
    + intros f' Hw. left. unfold waiting in *; cbn in *. rewrite Hperm; cbn. rewrite elem_of_cons. tauto.
Qed.

(** *** The runner *)

Lemma runner_slot_inv s :
  PoolInv s → po_runner s = RSlot → enabled cfg EvRunner s = true → PoolInv (runner_slot s).1.
Proof.
  intros HI Hr Hen. pose proof HI as []. cbn in Hen. rewrite Hr in *. unfold runner_slot. run_sup.
  apply (inv_same s); cbn; rewrite ?Hr; cbn; try done; try lia.
  - intros f Hw. right. unfold waiting in *; cbn. rewrite Hr in Hw. intuition discriminate.
  - intros f Hw. left. unfold waiting in *; cbn in *. rewrite Hr. intuition discriminate.
Qed.

Lemma runner_get_inv s : PoolInv s → po_runner s = RGet → PoolInv (runner_get s).1.
Proof.
  intros HI Hr. pose proof HI as []. unfold runner_get. run_body. unfold id.
  destruct (get_item s) as [[it q]|] eqn:E; [|done]. run_sup.
  destruct (queue_pop_spec s it q pi_heap0 E) as [Hq Hperm].
  assert (Hlen : length (po_queue s) = S (length q)) by (by rewrite Hperm).
  rewrite Hr in *. cbn in *.
  apply (inv_same s); cbn; rewrite ?Hr; try done; try (destruct (it_job it); cbn; lia).
  - intros f Hw. right. unfold waiting in *; cbn. rewrite Hperm in Hw; cbn in Hw.
    rewrite Hr, elem_of_cons in Hw. destruct Hw as [?|[?|[[<-|?]|[?|?]]]]; try tauto; done.
  - intros f Hw. left. unfold waiting in *; cbn in *. rewrite Hperm; cbn. rewrite elem_of_cons.
    destruct Hw as [?|[?|[?|[Hc|?]]]]; try tauto. destruct (it_job it) eqn:Ej; [|done].
    injection Hc as ->. tauto.
Qed.

Lemma runner_check_inv s f : PoolInv s → po_runner s = RCheck f → PoolInv (runner_check f s).1.
Proof.
  intros HI Hr. pose proof HI as []. pose proof (pend_total_nonneg s). rewrite Hr in *. cbn in *.
  unfold runner_check, free_slot. run_body. unfold id. destruct (fut_done s f) eqn:Ed.
  - unfold mbind, ST_bind. rewrite task_done_ok by (cbn; lia). cbn.
    apply (inv_same s); cbn; rewrite ?Hr; cbn; try done; try lia.
    + intros f' Hw. unfold waiting in *; cbn in *. rewrite Hr in Hw.
      destruct Hw as [?|[?|[?|[Hc|?]]]]; try tauto. injection Hc as <-. by left.
    + intros f' Hw. left. unfold waiting in *; cbn in *. rewrite Hr. intuition discriminate.
  - run_sup. apply (inv_change s _ [mkSup f (SLoop 10)]); cbn; rewrite ?Hr; cbn; try done; try lia.
    + by constructor.
    + intros f' Hw. right. unfold waiting in *; cbn in *. rewrite fmap_app, elem_of_app; cbn.
      rewrite list_elem_of_singleton. rewrite Hr in Hw.
      destruct Hw as [?|[?|[?|[Hc|?]]]]; try tauto. injection Hc as <-. tauto.
    + intros f' Hw. left. unfold waiting in *; cbn in *. rewrite fmap_app, elem_of_app in Hw; cbn in Hw.
      rewrite list_elem_of_singleton in Hw. rewrite Hr.
      destruct Hw as [?|[?|[?|[Hc|[?| ->]]]]]; try tauto; done.
Qed.

Lemma runner_stop_inv s : PoolInv s → po_runner s = RStop → PoolInv (runner_stop s).1.
Proof.
  intros HI Hr. pose proof HI as []. pose proof (pend_total_nonneg s). rewrite Hr in *. cbn in *.
  unfold runner_stop, free_slot, mbind, ST_bind. rewrite task_done_ok by (cbn; lia). cbn.
  apply (inv_same s); cbn; rewrite ?Hr; cbn; try done; try lia.
  - intros f' Hw. right. unfold waiting in *; cbn in *. rewrite Hr in Hw. intuition discriminate.
  - intros f' Hw. left. unfold waiting in *; cbn in *. rewrite Hr. intuition discriminate.
Qed.

(** The runner leaves. *)
Lemma set_runner_exit_inv s : PoolInv s → po_runner s = RDrain → PoolInv (set_runner RExit s).
Proof.
  intros HI Hr. pose proof HI as []. rewrite Hr in *. cbn in *.
  apply (inv_same s); cbn; rewrite ?Hr; cbn; try done; try lia.
  - intros f' Hw. right. unfold waiting in *; cbn in *. rewrite Hr in Hw. intuition discriminate.
  - intros f' Hw. left. unfold waiting in *; cbn in *. rewrite Hr. intuition discriminate.
Qed.

Lemma cancel_queued_one_runner (s : Pool) : po_runner (cancel_queued_one s).1 = po_runner s.
Proof.
  unfold cancel_queued_one. run_body. unfold id. destruct (get_item s) as [[it q]|]; [|done].
  run_body. unfold mbind at 1, ST_bind. unfold task_done. run_body. unfold id. cbn.
  destruct (_ <? 0); [done|]. run_sup. destruct (it_job it) as [f|]; [|done].
  pose proof (fut_cancel_only (set_unfinished (po_unfinished s - 1) (set_queue (λ _, q) s)) f)
    as (E & _). cbn in *.
  destruct (fut_cancel f _) as [s2 [?|?]]; cbn in *; by rewrite E.
Qed.

Lemma runner_drain_inv s : PoolInv s → po_runner s = RDrain → PoolInv (runner_drain s).1.
Proof.
  intros HI Hr. pose proof (cancel_queued_one_inv s HI) as H.
  pose proof (cancel_queued_one_runner s) as Hr'. unfold runner_drain.
  destruct (cancel_queued_one s) as [s' [[|]|?]]; cbn in *; try done;
    apply set_runner_exit_inv; congruence.
Qed.

Lemma runner_step_inv s :
  PoolInv s → enabled cfg EvRunner s = true → PoolInv (runner_step (po_runner s) s).1.
Proof.
  intros HI Hen. destruct (po_runner s) eqn:E; cbn [runner_step].
  - by apply runner_slot_inv.
  - by apply runner_get_inv.
  - by apply runner_check_inv.
  - by apply runner_stop_inv.
  - by apply runner_drain_inv.
  - done.
Qed.

(** *** Shutdown *)

Lemma fut_cancel_inv s f : PoolInv s → PoolInv (fut_cancel f s).1.
Proof. intros HI. eapply only_futures_inv; [apply fut_cancel_only|done]. Qed.

Lemma fut_cancel_and_kill_inv s f : PoolInv s → PoolInv (fut_cancel_and_kill f s).1.
Proof.
  intros HI. unfold fut_cancel_and_kill, mbind, ST_bind.
  pose proof (fut_cancel_inv s f HI) as H. pose proof (fut_cancel_ok s f) as Hok.
  destruct (fut_cancel f s) as [s1 r]; cbn in *; subst r. cbn.
  destruct (pf_pid _) as [p|]; [|done]. by destruct (p =? 0); [|eapply aside_inv; [|done]].
Qed.

Lemma set_shutdown_inv s h pc : PoolInv s → PoolInv (set_shutdown h pc s).
Proof. intros HI. by eapply aside_inv; [|done]. Qed.

(** The sentinel joins the queue. *)
Lemma push_sentinel_inv s p n :
  PoolInv s → PoolInv (push (mkItem p None n) s).1.
Proof.
  intros HI. pose proof HI as []. unfold push. run_sup. set (it := mkItem p None n).
  pose proof (heappush_perm (po_queue s) it pi_heap0) as Hperm.
  apply (inv_same s); cbn; try done.
  - by apply heappush_heap.
  - rewrite Hperm. cbn. lia.
  - intros f Hf. right. unfold waiting in *; cbn. rewrite Hperm; cbn. rewrite elem_of_cons. tauto.
  - intros f Hf. left. unfold waiting in *; cbn in *. rewrite Hperm in Hf; cbn in Hf. rewrite elem_of_cons in Hf. intuition discriminate.
  - lia.
Qed.

Lemma shutdown_idle_inv s h : PoolInv s → PoolInv (shutdown_idle h s).1.
Proof.
  intros HI. unfold shutdown_idle. run_sup. destruct (po_idle s) as [|w idle] eqn:E; cbn.
  - by apply set_shutdown_inv.
  - apply (inv_idle s); cbn; rewrite ?E; cbn; try done. lia.
Qed.

Lemma clear_worker_inv s : PoolInv s → PoolInv (clear_worker s).1.
Proof.
  intros HI. unfold clear_worker. run_sup. destruct (po_idle s) as [|w idle] eqn:E; cbn; [done|].
  apply (inv_idle s); cbn; rewrite ?E; cbn; try done. lia.
Qed.

Lemma worker_shutdown_aside s w : aside s (worker_shutdown w s).1 ∧ (worker_shutdown w s).2 = Ok tt.
Proof. done. Qed.

Lemma shutdown_busy_inv s h : PoolInv s → PoolInv (shutdown_busy h s).1.
Proof.
  intros HI. unfold shutdown_busy. run_body. unfold id.
  set (s1 := set_busy _ s). assert (H1 : PoolInv s1) by (by eapply aside_inv; [|done]).
  clearbody s1. revert s1 H1. induction (po_busy s) as [|w l IH]; intros s1 H1; cbn.
  - run_body. by apply set_shutdown_inv.
  - rewrite run_assoc. change ((λ a, _) tt) with (tt). unfold worker_shutdown. run_body.
    apply IH. by eapply aside_inv; [|done].
Qed.

Lemma shut_step_inv s h :
  PoolInv s → PoolInv (shut_step h (po_shutdowns s !!! h) s).1.
Proof.
  intros HI. destruct (po_shutdowns s !!! h) as [w c|w c|w c|w c|fs| | | | |]; cbn [shut_step].
  - unfold shutdown_close. run_sup. by eapply aside_inv; [|done].
  - pose proof (cancel_queued_one_inv s HI) as H. unfold shutdown_drain.
    destruct (cancel_queued_one s) as [s' [[|]|?]]; cbn in *; try done; by apply set_shutdown_inv.
  - unfold shutdown_put. run_body. unfold id. unfold mbind at 1, ST_bind.
    pose proof (push_sentinel_inv s (if w then maxsize else -1) (po_sequence s) HI) as H.
    destruct (push _ s) as [s' [?|?]]; cbn in *; [|done]. by eapply aside_inv; [|done].
  - unfold shutdown_list. run_sup. by apply set_shutdown_inv.
  - destruct fs as [|f fs]; cbn [shutdown_kill]; [by apply set_shutdown_inv|].
    pose proof (fut_cancel_and_kill_inv s f HI) as H. unfold mbind, ST_bind.
    destruct (fut_cancel_and_kill f s) as [s' [?|?]]; cbn in *; [by apply set_shutdown_inv|done].
  - by apply set_shutdown_inv.
  - by apply shutdown_idle_inv.
  - by apply shutdown_busy_inv.
  - done.
  - done.
Qed.

(** *** Every event *)

Lemma exec_inv s e : PoolInv s → enabled cfg e s = true → PoolInv (exec e s).1.
Proof.
  intros HI Hen. destruct e; cbn [Pool.exec].
  - by apply submit_begin_inv.
  - by apply submit_put_inv.
  - by apply submit_full_inv.
  - by apply runner_step_inv.
  - by apply sup_step_inv.
  - unfold shutdown_begin. run_sup. destruct (po_closed s); [done|]. by eapply aside_inv; [|done].
  - by apply shut_step_inv.
  - unfold shutdown_full. run_sup. by eapply aside_inv; [|done].
  - by apply fut_cancel_inv.
  - by apply clear_worker_inv.
  - by eapply aside_inv; [|done].
Qed.

Lemma init_inv pids : Z.of_nat (length pids) = pool_size cfg → PoolInv (pool_init pids).
Proof.
  intros Hp. split; cbn; try done; try lia.
  - apply heap_nil.
  - rewrite length_seq. cbn. lia.
  - intros f Hf. unfold waiting in Hf; cbn in Hf.
    rewrite !elem_of_nil in Hf. intuition discriminate.
Qed.

Lemma step_inv s e s' : PoolInv s → pool_step s e s' → PoolInv s'.
Proof. intros HI [Hen <-]. by apply exec_inv. Qed.

Lemma pool_reachable_inv s : reachable s → PoolInv s.
Proof.
  intros (pids & es & Hp & Hst). eapply (steps_invariant pool_step PoolInv); [|by apply init_inv|done].
  intros. by eapply step_inv.
Qed.
End PoolProps.
