(* ===== verification/PoolWorkers.v ===== *)
(** * PoolWorkers: who holds which worker of the local pool

    A worker is idle, held by one supervisor, or gone: [WorkInv] says so, and that a
    worker is only ever given a job while it is fit for one. [wmove] is to it what
    [move] is to the counters of [PoolProps]. *)
From S2P Require Import Prelude Errors Futures StateErr Heapq Pool PoolProps.

(** The worker a supervisor holds, from [workers.get] to the end of [done_with_process]. *)
Definition worker_of (pc : sup_pc) : option nat :=
  match pc with
  | SGot _ w | SHook _ w | SSend _ w | SPublish w | SWait w | SDone w _ | SCount w _ _
  | SBack w _ _ _ => Some w
  | _ => None
  end.

(** The worker that is about to be sent a job. *)
Definition chosen (pc : sup_pc) : option nat :=
  match pc with SGot _ w | SHook _ w | SSend _ w => Some w | _ => None end.

(** The worker that must be in [busy_workers]. *)
Definition entered (pc : sup_pc) : option nat :=
  match pc with
  | SHook _ w | SSend _ w | SPublish w | SWait w | SDone w _ => Some w
  | _ => None
  end.

Section PoolWorkers.
Context {V : Type} {HQ : HeapQ Item item_le}.
Context (cfg : PoolConfig).
Notation Pool := (Pool (V := V)).
Notation exec := (exec (V := V) cfg).
Notation pool_step := (pool_step (V := V) cfg).
Notation reachable := (reachable (V := V) cfg).

(** The number of jobs a worker may have been sent before it is replaced. *)
Definition within_tasks (n : Z) : Prop :=
  match max_tasks_per_child cfg with Some m => n = 0 ∨ n < m | None => True end.

(** Fit for another job. *)
Definition fit (x : Worker) : Prop := wk_ok x = true ∧ within_tasks (wk_tasks_ran x).

Definition held (s : Pool) : list nat := omap (λ x, worker_of (su_pc x)) (po_threads s).

Record WorkInv (s : Pool) : Prop := {
  wi_nodup : NoDup (po_idle s ++ held s);
  wi_known : ∀ w, w ∈ po_idle s ++ held s → (w < length (po_workers s))%nat;
  wi_idle : ∀ w, w ∈ po_idle s → fit (worker s w);
  wi_chosen : ∀ t w, (t < length (po_threads s))%nat → chosen (pc_of s t) = Some w →
    fit (worker s w);
  wi_entered : HEnd ∉ po_shutdowns s → ∀ t w, (t < length (po_threads s))%nat →
    entered (pc_of s t) = Some w → w ∈ po_busy s;
  wi_tasks : ∀ w m, max_tasks_per_child cfg = Some m → wk_tasks_ran (worker s w) ≤ Z.max 1 m }.

(** ** The list of the held workers *)

(** A thread's move changes only its own share of the list. *)
Lemma omap_alter_split {A B} `{Inhabited A} (g : A → option B) f (l : list A) i :
  (i < length l)%nat →
  ∃ rest, omap g l ≡ₚ option_list (g (l !!! i)) ++ rest ∧
    omap g (alter f i l) ≡ₚ option_list (g (f (l !!! i))) ++ rest.
Proof.
  revert i. induction l as [|x l IH]; intros [|i] Hi; cbn [length] in Hi; try lia.
  - exists (omap g l). change ((x :: l) !!! 0%nat) with x. cbn.
    destruct (g x), (g (f x)); done.
  - destruct (IH i ltac:(lia)) as (rest & H1 & H2). change ((x :: l) !!! S i) with (l !!! i).
    exists (option_list (g x) ++ rest). cbn. destruct (g x); cbn; rewrite H1, H2; [|done].
    split; by rewrite Permutation_middle.
Qed.

Lemma submseteq_NoDup {A} (l k : list A) : l ⊆+ k → NoDup k → NoDup l.
Proof. intros (r & ->)%submseteq_Permutation H. apply NoDup_app in H. tauto. Qed.

Lemma elem_of_option_list {A} (o : option A) x : x ∈ option_list o ↔ o = Some x.
Proof.
  destruct o as [y|]; cbn; [rewrite list_elem_of_singleton|rewrite elem_of_nil]; split; congruence || done.
Qed.

Lemma chosen_held pc w : chosen pc = Some w → worker_of pc = Some w.
Proof. by destruct pc. Qed.
Lemma entered_held pc w : entered pc = Some w → worker_of pc = Some w.
Proof. by destruct pc. Qed.

Lemma elem_of_held (s : Pool) t w :
  (t < length (po_threads s))%nat → worker_of (pc_of s t) = Some w → w ∈ held s.
Proof.
  intros Ht Hw. unfold held. apply list_elem_of_omap. exists (po_threads s !!! t). split; [|done].
  by apply list_elem_of_lookup_total_2.
Qed.

(** Two threads do not hold one worker. *)
Lemma held_once (s : Pool) t t' w :
  NoDup (held s) → (t < length (po_threads s))%nat → (t' < length (po_threads s))%nat →
  worker_of (pc_of s t) = Some w → worker_of (pc_of s t') = Some w → t = t'.
Proof.
  unfold held, pc_of. generalize (po_threads s). intros l. revert t t'.
  induction l as [|x l IH]; intros t t' Hn Ht Ht' Hw Hw'; [cbn in Ht; lia|].
  assert (Hin : ∀ i, (i < length l)%nat → worker_of (su_pc (l !!! i)) = Some w →
    w ∈ omap (λ x, worker_of (su_pc x)) l).
  { intros i Hi Hx. apply list_elem_of_omap. exists (l !!! i). split; [|done].
    by apply list_elem_of_lookup_total_2. }
  cbn in Hn. cbn [length] in *. destruct t as [|t], t' as [|t']; try done.
  - change ((x :: l) !!! 0%nat) with x in Hw. rewrite Hw in Hn. apply NoDup_cons in Hn as [Hn _].
    destruct Hn. apply (Hin t'); [lia|done].
  - change ((x :: l) !!! 0%nat) with x in Hw'. rewrite Hw' in Hn. apply NoDup_cons in Hn as [Hn _].
    destruct Hn. apply (Hin t); [lia|done].
  - f_equal. apply IH; try lia; try done. destruct (worker_of (su_pc x)); [by apply NoDup_cons in Hn as [_ ?]|done].
Qed.

(** ** The move lemma *)

(** What a stretch that takes the thread [t] to [pc'] may do with the workers. *)
Record wmoved (t : nat) (pc' : sup_pc) (s s' : Pool) : Prop := {
  wm_threads : po_threads s' = po_threads (set_thread t pc' s);
  wm_workers : (length (po_workers s) ≤ length (po_workers s'))%nat;
  wm_list : po_idle s' ++ option_list (worker_of pc') ⊆+
    po_idle s ++ option_list (worker_of (pc_of s t))
      ++ seq (length (po_workers s)) (length (po_workers s') - length (po_workers s));
  wm_others : ∀ w, (w < length (po_workers s))%nat → worker_of (pc_of s t) ≠ Some w →
    worker s' w = worker s w;
  wm_added : ∀ w, (length (po_workers s) ≤ w < length (po_workers s'))%nat → fit (worker s' w);
  wm_own : ∀ w, worker_of (pc_of s t) = Some w → w ∈ po_idle s' → fit (worker s' w);
  wm_chosen : ∀ w, chosen pc' = Some w → fit (worker s' w);
  wm_tasks : ∀ w m, max_tasks_per_child cfg = Some m → wk_tasks_ran (worker s' w) ≤ Z.max 1 m;
  wm_shut : po_shutdowns s' = po_shutdowns s;
  wm_busy : ∀ w, w ∈ po_busy s → worker_of (pc_of s t) ≠ Some w → w ∈ po_busy s';
  wm_entered : HEnd ∉ po_shutdowns s → ∀ w, entered pc' = Some w → w ∈ po_busy s' }.

Lemma wmove t pc' s s' :
  WorkInv s → (t < length (po_threads s))%nat → wmoved t pc' s s' → WorkInv s'.
Proof.
  intros [] Ht []. set (ids := seq _ _) in *.
  destruct (omap_alter_split (λ x, worker_of (su_pc x)) (λ x, mkSup (su_future x) pc') (po_threads s) t Ht)
    as (rest & Hold & Hnew).
  cbn in Hnew. change (omap _ (alter _ _ _)) with (held (set_thread t pc' s)) in Hnew.
  change (omap _ _) with (held s) in Hold. change (worker_of (su_pc (po_threads s !!! t)))
    with (worker_of (pc_of s t)) in Hold.
  assert (Hheld : held s' ≡ₚ option_list (worker_of pc') ++ rest).
  { rewrite <- Hnew. unfold held. by rewrite wm_threads0. }
  assert (Hsub : po_idle s' ++ held s' ⊆+ (po_idle s ++ held s) ++ ids).
  { rewrite Hheld, Hold, !app_assoc. etransitivity; [apply submseteq_skips_r, wm_list0|].
    rewrite <- !app_assoc. do 2 apply submseteq_skips_l. by rewrite (Permutation_app_comm ids). }
  assert (Hids : ∀ w, w ∈ ids ↔ (length (po_workers s) ≤ w < length (po_workers s'))%nat).
  { intros w. unfold ids. rewrite elem_of_seq. lia. }
  assert (Hin : ∀ w, w ∈ po_idle s' → w ∈ po_idle s ∨ worker_of (pc_of s t) = Some w ∨ w ∈ ids).
  { intros w Hw. assert (w ∈ po_idle s ++ option_list (worker_of (pc_of s t)) ++ ids) as Hx.
    { eapply elem_of_submseteq; [|exact wm_list0]. apply elem_of_app. by left. }
    rewrite !elem_of_app, elem_of_option_list in Hx. tauto. }
  assert (Hpc : ∀ t', pc_of s' t' = if decide (t' = t) then pc' else pc_of s t').
  { intros t'. unfold pc_of. rewrite wm_threads0. cbn. rewrite list_lookup_total_alter.
    repeat case_decide; naive_solver. }
  assert (Hlen : length (po_threads s') = length (po_threads s))
    by (rewrite wm_threads0; cbn; apply length_alter).
  assert (Hnd : NoDup (held s)) by (apply NoDup_app in wi_nodup0; tauto).
  split.
  - eapply submseteq_NoDup; [exact Hsub|]. apply NoDup_app. split_and!; [done| |apply NoDup_seq].
    intros w Hw%wi_known0 ?%Hids. lia.
  - intros w Hw. apply (elem_of_submseteq _ _ _ Hw) in Hsub. apply elem_of_app in Hsub as [?%wi_known0|?%Hids]; lia.
  - intros w Hw. destruct (decide (worker_of (pc_of s t) = Some w)) as [E|E]; [by apply wm_own0|].
    destruct (Hin w Hw) as [Hi|[?|?%Hids]]; [|done|by apply wm_added0].
    rewrite wm_others0; [by apply wi_idle0| |done]. apply wi_known0. set_solver.
  - intros t' w Ht' Hc. rewrite Hpc in Hc. case_decide; [by apply wm_chosen0|]. rewrite Hlen in Ht'.
    pose proof (chosen_held _ _ Hc) as Hw. rewrite wm_others0; [by apply (wi_chosen0 t')| |].
    + apply wi_known0, elem_of_app. right. by eapply elem_of_held.
    + intros ?. by destruct (held_once s t' t w Hnd Ht' Ht Hw).
  - rewrite wm_shut0. intros Hend t' w Ht' Hc. rewrite Hpc in Hc.
    case_decide; [by apply wm_entered0|]. rewrite Hlen in Ht'.
    apply wm_busy0; [by apply (wi_entered0 Hend t')|]. intros ?.
    by destruct (held_once s t' t w Hnd Ht' Ht (entered_held _ _ Hc)).
  - done.
Qed.

(** A worker that is held is not idle. *)
Lemma held_not_idle (s : Pool) t w :
  WorkInv s → (t < length (po_threads s))%nat → worker_of (pc_of s t) = Some w → w ∉ po_idle s.
Proof.
  intros [] Ht Hw Hi. apply NoDup_app in wi_nodup0 as (_ & H & _). apply (H w Hi).
  by eapply elem_of_held.
Qed.

(** The common case: the idle workers stay the same. *)
Lemma wkeep t pc' s s' :
  WorkInv s → (t < length (po_threads s))%nat → po_threads s' = po_threads (set_thread t pc' s) →
  length (po_workers s') = length (po_workers s) → po_idle s' = po_idle s →
  worker_of pc' = worker_of (pc_of s t) ∨ worker_of pc' = None →
  (∀ w, worker_of (pc_of s t) ≠ Some w → worker s' w = worker s w) →
  (∀ w, worker_of (pc_of s t) = Some w →
    (chosen pc' = Some w → fit (worker s' w)) ∧
    ∀ m, max_tasks_per_child cfg = Some m → wk_tasks_ran (worker s' w) ≤ Z.max 1 m) →
  po_shutdowns s' = po_shutdowns s →
  (∀ w, w ∈ po_busy s → worker_of (pc_of s t) ≠ Some w → w ∈ po_busy s') →
  (HEnd ∉ po_shutdowns s → ∀ w, entered pc' = Some w → w ∈ po_busy s') →
  WorkInv s'.
Proof.
  intros HI Ht Hth Hlen Hidle Hpc Hothers Hown Hshut Hbusy Hent.
  apply (wmove t pc' s); [done|done|]. pose proof HI as [].
  split; rewrite ?Hlen; try done; try lia.
  - rewrite Hidle, Nat.sub_diag. cbn. rewrite app_nil_r.
    destruct Hpc as [->| ->]; [done|]. rewrite app_nil_r. apply submseteq_inserts_r. done.
  - intros w _ Hw. by apply Hothers.
  - intros w Hw Hi. rewrite Hidle in Hi. by destruct (held_not_idle s t w).
  - intros w Hc. apply Hown; [|done]. destruct Hpc as [Hp|Hp];
      [rewrite <- Hp; by apply chosen_held|]. apply chosen_held in Hc. congruence.
  - intros w m Hm. destruct (decide (worker_of (pc_of s t) = Some w)) as [E|E]; [by apply Hown|].
    rewrite Hothers by done. by apply wi_tasks0.
Qed.

(** The workers stay the same too. *)
Lemma wquiet t pc' s s' :
  WorkInv s → (t < length (po_threads s))%nat → po_threads s' = po_threads (set_thread t pc' s) →
  po_workers s' = po_workers s → po_idle s' = po_idle s → po_busy s' = po_busy s →
  po_shutdowns s' = po_shutdowns s →
  worker_of pc' = worker_of (pc_of s t) ∨ worker_of pc' = None →
  (∀ w, chosen pc' = Some w → chosen (pc_of s t) = Some w) →
  (∀ w, entered pc' = Some w → entered (pc_of s t) = Some w) →
  WorkInv s'.
Proof.
  intros HI Ht Hth Hw Hi Hb Hs Hpc Hc He. pose proof HI as []. unfold worker in *.
  apply (wkeep t pc' s); unfold worker; rewrite ?Hw, ?Hi, ?Hb; try done.
  - intros w Hw'. split; [|by apply wi_tasks0]. intros ?%Hc. by apply (wi_chosen0 t).
  - intros Hend w Hx%He. by apply (wi_entered0 Hend t).
Qed.

(** A new worker joins the idle ones. *)
Lemma wadd t pc' s s' p :
  WorkInv s → (t < length (po_threads s))%nat → po_threads s' = po_threads (set_thread t pc' s) →
  po_workers s' = po_workers s ++ [mkWorker true true false 0 p] →
  po_idle s' = po_idle s ++ [length (po_workers s)] → po_busy s' = po_busy s →
  po_shutdowns s' = po_shutdowns s → worker_of pc' = None →
  WorkInv s'.
Proof.
  intros HI Ht Hth Hw Hi Hb Hs Hpc. apply (wmove t pc' s); [done|done|]. pose proof HI as [].
  assert (Hold : ∀ w, (w < length (po_workers s))%nat → worker s' w = worker s w).
  { intros w Hl. unfold worker. by rewrite Hw, lookup_total_app_l. }
  assert (Hnew : worker s' (length (po_workers s)) = mkWorker true true false 0 p).
  { unfold worker. by rewrite Hw, lookup_total_last. }
  assert (Hfit : fit (mkWorker true true false 0 p)).
  { split; [done|]. unfold within_tasks. cbn. destruct (max_tasks_per_child cfg); auto. }
  assert (Hl : length (po_workers s') = S (length (po_workers s))) by (rewrite Hw, length_app; cbn; lia).
  split; rewrite ?Hl; try done; try lia.
  - rewrite Hi, Hpc. replace (S _ - _)%nat with 1%nat by lia. cbn. rewrite app_nil_r.
    apply submseteq_skips_l. by apply submseteq_inserts_l.
  - intros w Hw1 _. by apply Hold.
  - intros w Hx. assert (w = length (po_workers s)) as -> by lia. by rewrite Hnew.
  - intros w Hown Hx. rewrite Hi in Hx. apply elem_of_app in Hx as [Hx|Hx%list_elem_of_singleton].
    + by destruct (held_not_idle s t w).
    + subst w. by rewrite Hnew.
  - intros w Hc%chosen_held. congruence.
  - intros w m Hm. destruct (Nat.lt_trichotomy w (length (po_workers s))) as [?|[->|?]].
    + rewrite Hold by done. by apply wi_tasks0.
    + rewrite Hnew. cbn. lia.
    + unfold worker. rewrite list_lookup_total_alt, (proj2 (lookup_ge_None _ _)) by lia. cbn. lia.
  - by rewrite Hb.
  - intros _ w Hc%entered_held. congruence.
Qed.

(** ** The supervisors *)

Ltac quiet Ht Hpc :=
  eapply wquiet; [eassumption|exact Ht|reflexivity..|rewrite ?Hpc; cbn; auto; done
    |rewrite ?Hpc; cbn; congruence|rewrite ?Hpc; cbn; congruence].

Lemma sup_take_work s t n :
  WorkInv s → (t < length (po_threads s))%nat → pc_of s t = STake n → WorkInv (sup_take t n s).1.
Proof.
  intros HI Ht Hpc. pose proof HI as []. unfold sup_take. run_sup.
  destruct (po_idle s) as [|w idle] eqn:E; [done|]. cbn. apply (wmove t (SGot n w) s); [done|done|].
  split; cbn; rewrite ?Hpc, ?E, ?Nat.sub_diag; cbn; try done; try lia.
  - by rewrite Permutation_app_comm, app_nil_r.
  - intros w' [= <-]. apply wi_idle0. left.
Qed.

Lemma sup_got_work s t n w :
  WorkInv s → (t < length (po_threads s))%nat → pc_of s t = SGot n w → WorkInv (sup_got t n w s).1.
Proof.
  intros HI Ht Hpc. pose proof HI as []. unfold sup_got. run_sup.
  apply (wkeep t (SHook n w) s); rewrite ?Hpc; cbn; try done; auto.
  - intros w' [= <-]. split; [|by apply wi_tasks0]. intros _. apply (wi_chosen0 t); [done|by rewrite Hpc].
  - intros w' Hw' _. unfold set_add. case_bool_decide; [done|]. set_solver.
  - intros _ w' [= <-]. unfold set_add. case_bool_decide; [done|]. set_solver.
Qed.

(** An exception of the submission; [s1] is [s] with the job counted, if it was. *)
Lemma sup_raised_work s s1 t n w e :
  WorkInv s → (t < length (po_threads s))%nat → worker_of (pc_of s t) = Some w →
  entered (pc_of s t) = Some w →
  po_threads s1 = po_threads s → po_idle s1 = po_idle s → po_busy s1 = po_busy s →
  po_shutdowns s1 = po_shutdowns s → length (po_workers s1) = length (po_workers s) →
  (∀ w', w' ≠ w → worker s1 w' = worker s w') →
  (∀ m, max_tasks_per_child cfg = Some m → wk_tasks_ran (worker s1 w) ≤ Z.max 1 m) →
  WorkInv (sup_raised t n w e s1).1.
Proof.
  intros HI Ht Hw He Eth Ei Eb Es El Eo Em. pose proof HI as [].
  assert (Hkeep : ∀ pc' s', po_threads s' = po_threads (set_thread t pc' s1) →
    po_idle s' = po_idle s1 → po_busy s' = po_busy s1 → po_shutdowns s' = po_shutdowns s1 →
    length (po_workers s') = length (po_workers s1) →
    (∀ w', w' ≠ w → worker s' w' = worker s1 w') → wk_tasks_ran (worker s' w) = wk_tasks_ran (worker s1 w) →
    worker_of pc' = Some w ∨ worker_of pc' = None → chosen pc' = None → WorkInv s').
  { intros pc' s' F1 F2 F3 F4 F5 F6 F7 Hp Hc. apply (wkeep t pc' s); try congruence.
    - rewrite F1. cbn. by rewrite Eth.
    - intros w' Hne. assert (w' ≠ w) by congruence. by rewrite F6, Eo.
    - intros w' Hw'. assert (w' = w) as -> by congruence. split; [congruence|]. rewrite F7. exact Em.
    - intros Hend w' Hw'. rewrite F3, Eb. assert (w' = w) as -> by (apply entered_held in Hw'; destruct Hp; congruence).
      by apply (wi_entered0 Hend t). }
  unfold sup_raised, fut_set. run_sup.
  destruct (unpicklable e); [|destruct (isinstance e BrokenPipeError)].
  - destruct (fut_done s1 (job_of s1 t)); cbn; eapply Hkeep; first [reflexivity|auto].
  - cbn. eapply Hkeep; try reflexivity; cbn; auto.
    + apply length_alter.
    + intros w' Hne. unfold worker. cbn. by apply list_lookup_total_alter_ne.
    + unfold worker. cbn. rewrite list_lookup_total_alter.
      by case_decide.
  - cbn. eapply Hkeep; first [reflexivity|auto].
Qed.

Lemma sup_hook_work s t n w r :
  WorkInv s → (t < length (po_threads s))%nat → pc_of s t = SHook n w → WorkInv (sup_hook t n w r s).1.
Proof.
  intros HI Ht Hpc. pose proof HI as []. unfold sup_hook. destruct r as [| |e].
  - run_sup. quiet Ht Hpc.
  - run_sup. quiet Ht Hpc.
  - apply (sup_raised_work s); rewrite ?Hpc; auto.
Qed.

(** Sending a job counts it. *)
Lemma counted_tasks s t n w m :
  WorkInv s → (t < length (po_threads s))%nat → pc_of s t = SSend n w →
  max_tasks_per_child cfg = Some m →
  wk_tasks_ran (worker (set_worker w (λ x, {| x with wk_tasks_ran := wk_tasks_ran x + 1 |}) s) w)
    ≤ Z.max 1 m.
Proof.
  intros [] Ht Hpc Hm. unfold worker. cbn. rewrite list_lookup_total_alter.
  case_decide as Hd; [|by apply wi_tasks0]. cbn. fold (worker s w).
  pose proof (wi_chosen0 t w Ht) as Hf. rewrite Hpc in Hf. destruct (Hf eq_refl) as [_ Hf'].
  unfold within_tasks in Hf'. rewrite Hm in Hf'. lia.
Qed.

Lemma sup_send_work s t n w r :
  WorkInv s → (t < length (po_threads s))%nat → pc_of s t = SSend n w → WorkInv (sup_send t n w r s).1.
Proof.
  intros HI Ht Hpc. pose proof HI as []. unfold sup_send. run_body.
  assert (Hne : ∀ w' g, w' ≠ w → worker (set_worker w g s) w' = worker s w').
  { intros w' g Hne. unfold worker. cbn. by apply list_lookup_total_alter_ne. }
  destruct r as [e|].
  - apply (sup_raised_work s); rewrite ?Hpc; auto.
    + apply length_alter.
    + intros m Hm. by apply (counted_tasks s t n).
  - unfold goto. run_body. cbn [fst]. apply (wkeep t (SPublish w) s); rewrite ?Hpc; cbn; auto.
    + apply length_alter.
    + intros w' Hx. apply Hne. congruence.
    + intros w' [= <-]. split; [done|]. intros m Hm. by apply (counted_tasks s t n).
    + intros Hend w' [= <-]. apply (wi_entered0 Hend t w Ht). by rewrite Hpc.
Qed.

(** The thread changes its own worker, but not its count of jobs, and is done with it. *)
Lemma wtouch t pc' s s' w g :
  WorkInv s → (t < length (po_threads s))%nat → worker_of (pc_of s t) = Some w →
  po_threads s' = po_threads (set_thread t pc' s) →
  po_workers s' = alter g w (po_workers s) → po_idle s' = po_idle s → po_busy s' = po_busy s →
  po_shutdowns s' = po_shutdowns s →
  worker_of pc' = Some w ∨ worker_of pc' = None → chosen pc' = None →
  (∀ w', entered pc' = Some w' → entered (pc_of s t) = Some w') →
  (∀ x, wk_tasks_ran (g x) = wk_tasks_ran x) → WorkInv s'.
Proof.
  intros HI Ht Hw Hth Hwk Hi Hb Hs Hpc Hc He Hg. pose proof HI as [].
  apply (wkeep t pc' s); try done.
  - by rewrite Hwk, length_alter.
  - by rewrite Hw.
  - intros w' Hne. unfold worker. rewrite Hwk. apply list_lookup_total_alter_ne. congruence.
  - intros w' Hw'. split; [congruence|]. intros m Hm. unfold worker. rewrite Hwk, list_lookup_total_alter.
    case_decide; rewrite ?Hg; by apply wi_tasks0.
  - rewrite Hb. auto.
  - intros Hend w' Hx%He. rewrite Hb. by apply (wi_entered0 Hend t).
Qed.

Ltac touch Ht Hpc :=
  eapply wtouch; [eassumption|exact Ht|rewrite Hpc; reflexivity|reflexivity..|cbn; auto; done
    |reflexivity|rewrite ?Hpc; cbn; congruence|done].

Lemma sup_poll_work s t w r :
  WorkInv s → (t < length (po_threads s))%nat → pc_of s t = SWait w → WorkInv (sup_poll t w r s).1.
Proof.
  intros HI Ht Hpc. unfold sup_poll, fut_offer, fut_set, stat_failed. run_sup.
  assert (Hd : fut_done s (job_of s t) = true ∨ fut_done s (job_of s t) = false)
    by (destruct (fut_done _ _); auto).
  destruct r as [[v|e]|e|e|e|e]; try destruct (isinstance e PoolTimeoutError); cbn;
    unfold fut_done, future in *; cbn in *; destruct Hd as [Hd|Hd]; rewrite ?Hd; cbn; rewrite ?Hd; cbn;
    first [quiet Ht Hpc|touch Ht Hpc].
Qed.

Lemma sup_done_work s t w nx :
  WorkInv s → (t < length (po_threads s))%nat → pc_of s t = SDone w nx → WorkInv (sup_done t w nx s).1.
Proof.
  intros HI Ht Hpc. pose proof HI as []. unfold sup_done. run_sup.
  destruct (list_del w (po_busy s)) as [busy|] eqn:E; [|run_sup; quiet Ht Hpc]. run_sup.
  apply (wkeep t (SCount w (Z.of_nat (length busy)) nx) s); rewrite ?Hpc; cbn; auto.
  - intros w' _. split; [done|]. intros m Hm. by apply wi_tasks0.
  - intros w' Hw' Hne. rewrite (list_del_Permutation _ _ _ E) in Hw'.
    apply elem_of_cons in Hw' as [->|?]; [congruence|done].
  - done.
Qed.

(** The worker returns to the queue only if it may be given another job. *)
Lemma put_back_work s s' t pc' w :
  WorkInv s → (t < length (po_threads s))%nat → worker_of (pc_of s t) = Some w →
  po_threads s' = po_threads (set_thread t pc' s) → po_workers s' = po_workers s →
  po_idle s' = po_idle s ++ [w] → po_busy s' = po_busy s → po_shutdowns s' = po_shutdowns s →
  worker_of pc' = None → fit (worker s w) → WorkInv s'.
Proof.
  intros HI Ht Hw Hth Hwk Hi Hb Hs Hpc Hfit. apply (wmove t pc' s); [done|done|]. pose proof HI as [].
  unfold worker in *. split; unfold worker; rewrite ?Hwk, ?Nat.sub_diag, ?Hw; try done; try lia.
  - rewrite Hi, Hpc. cbn. by rewrite app_nil_r.
  - by intros ? [= <-].
  - intros w' Hc%chosen_held. congruence.
  - rewrite Hb. auto.
  - intros _ w' Hc%entered_held. congruence.
Qed.

Lemma sup_back_work s t w b q nx mem :
  WorkInv s → (t < length (po_threads s))%nat → pc_of s t = SBack w b q nx →
  WorkInv (sup_back cfg t w b q nx mem s).1.
Proof.
  intros HI Ht Hpc. unfold sup_back. run_sup.
  destruct (_ && _); [destruct nx; cbn; touch Ht Hpc|].
  destruct (negb (wk_alive _)); [cbn; quiet Ht Hpc|].
  destruct (negb (wk_ok _)) eqn:Eok; [cbn; quiet Ht Hpc|].
  destruct (tasks_hit _ _) eqn:Etk; [cbn; touch Ht Hpc|].
  assert (Hfit : fit (worker s w)).
  { split; [by destruct (wk_ok (worker s w))|]. unfold within_tasks, tasks_hit in *.
    destruct (max_tasks_per_child cfg); [right; lia|done]. }
  assert (Hput : WorkInv (resume t nx (set_idle (λ l, l ++ [w]) s)).1).
  { destruct nx as [|n w']; cbn;
      (eapply put_back_work; [eassumption|exact Ht|by rewrite Hpc|reflexivity..|exact Hfit]). }
  destruct (max_worker_memory_bytes cfg) as [m|] eqn:Em; [|exact Hput].
  destruct mem as [mem|]; [|clear Hput; cbn; quiet Ht Hpc].
  destruct (memory_hit _ _); [clear Hput; cbn; touch Ht Hpc|exact Hput].
Qed.

Lemma sup_add_work s t n pid :
  WorkInv s → (t < length (po_threads s))%nat → pc_of s t = SAdd n → WorkInv (sup_add t n pid s).1.
Proof.
  intros HI Ht Hpc. unfold sup_add, add_worker_to_pool, stat_created. run_sup.
  destruct pid as [p|e]; cbn; [|quiet Ht Hpc].
  eapply (wadd t (STake n) s); done.
Qed.

Lemma sup_replace_work s t nx pid :
  WorkInv s → (t < length (po_threads s))%nat → pc_of s t = SReplace nx →
  WorkInv (sup_replace t nx pid s).1.
Proof.
  intros HI Ht Hpc. unfold sup_replace, add_worker_to_pool, stat_created. run_sup.
  destruct pid as [p|e]; cbn; [|quiet Ht Hpc].
  destruct nx as [|n w]; cbn; [eapply (wadd t SFinally s)|eapply (wadd t (SLoop n) s)]; done.
Qed.

Lemma sup_step_work s t pid hook sent polled mem :
  WorkInv s → (t < length (po_threads s))%nat →
  WorkInv (sup_step cfg t (pc_of s t) pid hook sent polled mem s).1.
Proof.
  intros HI Ht. destruct (pc_of s t) eqn:Hpc; cbn [sup_step].
  - destruct retries; cbn; unfold sup_loop; run_sup; quiet Ht Hpc.
  - unfold sup_size. run_sup. destruct (_ && _); quiet Ht Hpc.
  - by apply sup_add_work.
  - by apply sup_take_work.
  - by apply sup_got_work.
  - by apply sup_hook_work.
  - by apply sup_send_work.
  - unfold sup_publish. run_sup. quiet Ht Hpc.
  - by apply sup_poll_work.
  - by apply sup_done_work.
  - unfold sup_count. run_sup. quiet Ht Hpc.
  - by apply sup_back_work.
  - by apply sup_replace_work.
  - unfold sup_give_up, fut_set. run_sup. destruct (fut_done _ _); cbn; quiet Ht Hpc.
  - unfold sup_finally, task_done. run_sup. destruct (_ <? 0); cbn; quiet Ht Hpc.
  - unfold sup_ensure. run_sup. destruct (fut_done _ _); quiet Ht Hpc.
  - unfold sup_last, fut_set. run_sup. destruct (fut_done _ _); cbn; quiet Ht Hpc.
  - unfold sup_free. run_sup. quiet Ht Hpc.
  - done.
  - done.
Qed.

(** ** The other threads *)

Definition same_workers (s s' : Pool) : Prop :=
  length (po_workers s') = length (po_workers s) ∧
  ∀ w, wk_ok (worker s' w) = wk_ok (worker s w) ∧ wk_tasks_ran (worker s' w) = wk_tasks_ran (worker s w).

Lemma wother s s' new :
  WorkInv s → po_threads s' = po_threads s ++ new → Forall (λ x, su_pc x = SLoop 10) new →
  po_idle s' ⊆+ po_idle s → same_workers s s' →
  (HEnd ∉ po_shutdowns s' → HEnd ∉ po_shutdowns s ∧ po_busy s' = po_busy s) →
  WorkInv s'.
Proof.
  intros [] Hth Hnew Hidle [Hlen Hsame] Hbusy.
  assert (Hheld : held s' = held s).
  { unfold held. rewrite Hth, omap_app. rewrite <- (app_nil_r (omap _ (po_threads s))) at 2. f_equal.
    clear -Hnew. induction Hnew as [|x l Hx _ IH]; cbn; [done|]. by rewrite Hx. }
  assert (Hfit : ∀ w, fit (worker s w) → fit (worker s' w)).
  { intros w. unfold fit, within_tasks. destruct (Hsame w) as [-> ->]. done. }
  assert (Hpc : ∀ t, (t < length (po_threads s'))%nat →
    pc_of s' t = SLoop 10 ∨ (t < length (po_threads s))%nat ∧ pc_of s' t = pc_of s t).
  { intros t Ht. unfold pc_of. rewrite Hth in *. rewrite length_app in Ht.
    destruct (Nat.lt_ge_cases t (length (po_threads s))) as [Hl|Hl].
    - right. by rewrite lookup_total_app_l.
    - left. rewrite lookup_total_app_r by done. rewrite Forall_lookup_total in Hnew. apply Hnew. lia. }
  split; rewrite ?Hheld, ?Hlen.
  - apply (submseteq_NoDup _ (po_idle s ++ held s)); [by apply submseteq_skips_r|done].
  - intros w Hw. apply wi_known0. eapply elem_of_submseteq; [exact Hw|by apply submseteq_skips_r].
  - intros w Hw. apply Hfit, wi_idle0. by eapply elem_of_submseteq.
  - intros t w Ht Hc. destruct (Hpc t Ht) as [E|[Hl E]]; rewrite E in Hc; [done|].
    by apply Hfit, (wi_chosen0 t).
  - intros Hend t w Ht Hc. destruct (Hbusy Hend) as [H1 ->].
    destruct (Hpc t Ht) as [E|[Hl E]]; rewrite E in Hc; [done|]. by apply (wi_entered0 H1 t).
  - intros w m Hm. destruct (Hsame w) as [_ ->]. by apply wi_tasks0.
Qed.

Lemma wsame s s' :
  WorkInv s → po_threads s' = po_threads s → po_idle s' = po_idle s → po_workers s' = po_workers s →
  (HEnd ∉ po_shutdowns s' → HEnd ∉ po_shutdowns s ∧ po_busy s' = po_busy s) → WorkInv s'.
Proof.
  intros HI Hth Hi Hw Hb. apply (wother s s' []); try done; [by rewrite app_nil_r|by rewrite Hi|].
  unfold same_workers, worker. by rewrite Hw.
Qed.

Lemma no_end_set (s : Pool) h pc :
  po_shutdowns s !!! h ≠ HEnd →
  HEnd ∉ po_shutdowns (set_shutdown h pc s) → HEnd ∉ po_shutdowns s.
Proof.
  cbn. intros Hh Hn (i & Hi)%list_elem_of_lookup. apply Hn. apply list_elem_of_lookup. exists i.
  rewrite list_lookup_alter. case_decide as E; [|done]. subst i. exfalso. apply Hh.
  by rewrite list_lookup_total_alt, Hi.
Qed.

Lemma set_shutdown_work s h pc :
  po_shutdowns s !!! h ≠ HEnd → WorkInv s → WorkInv (set_shutdown h pc s).
Proof.
  intros Hh HI. apply (wsame s); try done. intros Hn. split; [by eapply no_end_set|done].
Qed.

Lemma same_workers_alter (s s' : Pool) w g :
  po_workers s' = alter g w (po_workers s) →
  (∀ x, wk_ok (g x) = wk_ok x ∧ wk_tasks_ran (g x) = wk_tasks_ran x) → same_workers s s'.
Proof.
  intros E Hg. split; [by rewrite E, length_alter|]. intros w'. unfold worker.
  rewrite E, list_lookup_total_alter. case_decide as H; [destruct H as [<- _]; apply Hg|done].
Qed.

Lemma worker_shutdown_work s w : WorkInv s → WorkInv (worker_shutdown w s).1.
Proof.
  intros HI. unfold worker_shutdown. run_body. cbn [fst].
  apply (wother s _ []); try done; [by rewrite app_nil_r|]. by eapply same_workers_alter.
Qed.

(** An idle worker is taken and told to exit. *)
Lemma drop_idle_work s w idle :
  WorkInv s → po_idle s = w :: idle → WorkInv (worker_shutdown w (set_idle (λ _, idle) s)).1.
Proof.
  intros HI E. apply worker_shutdown_work. apply (wother s _ []); try done; [by rewrite app_nil_r|].
  cbn. rewrite E. by apply submseteq_cons.
Qed.

Lemma only_futures_work s s' : only_futures s s' → WorkInv s → WorkInv s'.
Proof. intros (E & _) HI. rewrite E. by apply (wsame s). Qed.

(** What the operations on the backlog leave alone. *)
Definition same_work (s s' : Pool) : Prop :=
  po_threads s' = po_threads s ∧ po_idle s' = po_idle s ∧ po_workers s' = po_workers s ∧
  po_shutdowns s' = po_shutdowns s ∧ po_busy s' = po_busy s.

#[export] Instance same_work_preorder : PreOrder same_work.
Proof.
  split; [by intros s|]. intros s s' s'' (?&?&?&?&?) (?&?&?&?&?). unfold same_work. split_and!; congruence.
Qed.

Lemma same_work_inv s s' : same_work s s' → WorkInv s → WorkInv s'.
Proof. intros (? & ? & ? & E & ?) HI. apply (wsame s); try done. by rewrite E. Qed.

Lemma same_work_fut_cancel f : respects same_work (fut_cancel (V := V) f).
Proof. unfold fut_cancel. repeat respects_step. by apply respects_modify. Qed.

Lemma same_work_task_done : respects same_work (task_done (V := V)).
Proof. unfold task_done. repeat respects_step. by apply respects_modify. Qed.

Lemma same_work_push it : respects same_work (push (V := V) it).
Proof. unfold push. repeat respects_step; by apply respects_modify. Qed.

Lemma same_work_cancel_queued_one : respects same_work (cancel_queued_one (V := V)).
Proof.
  unfold cancel_queued_one.
  repeat first [respects_step|apply same_work_task_done|apply same_work_fut_cancel|by apply respects_modify].
Qed.

Lemma same_work_cancel_and_kill f : respects same_work (fut_cancel_and_kill (V := V) f).
Proof.
  unfold fut_cancel_and_kill.
  repeat first [respects_step|apply same_work_fut_cancel|by apply respects_modify].
Qed.

Ltac same_work_step :=
  first [respects_step|apply same_work_task_done|apply same_work_fut_cancel|apply same_work_push
    |apply same_work_cancel_queued_one|apply same_work_cancel_and_kill|by apply respects_modify].

(** Launching a supervisor. *)
Lemma runner_check_work s f : WorkInv s → WorkInv (runner_check f s).1.
Proof.
  intros HI. unfold runner_check. run_body. unfold id. destruct (fut_done s f).
  - eapply same_work_inv; [|exact HI].
    assert (H : respects same_work (_ ← task_done; _ ← modify (set_running (V := V) free_slot);
      modify (set_runner RSlot))) by (repeat same_work_step).
    apply H.
  - run_sup. apply (wother s _ [mkSup f (SLoop 10)]); try done. by constructor.
Qed.

Lemma runner_step_work s : WorkInv s → WorkInv (runner_step (po_runner s) s).1.
Proof.
  intros HI. destruct (po_runner s) as [| |f| | |]; cbn [runner_step];
    [| |by apply runner_check_work|..]; (eapply same_work_inv; [|exact HI]).
  - assert (H : respects same_work (runner_slot (V := V))) by (unfold runner_slot; repeat same_work_step).
    apply H.
  - assert (H : respects same_work (runner_get (V := V))) by (unfold runner_get; repeat same_work_step).
    apply H.
  - assert (H : respects same_work (runner_stop (V := V))) by (unfold runner_stop; repeat same_work_step).
    apply H.
  - unfold runner_drain. pose proof (same_work_cancel_queued_one s) as H.
    by destruct (cancel_queued_one s) as [s' [[|]|?]].
  - done.
Qed.

Lemma shutdown_busy_work s h :
  po_shutdowns s !!! h ≠ HEnd → (h < length (po_shutdowns s))%nat → WorkInv s →
  WorkInv (shutdown_busy h s).1.
Proof.
  intros Hne Hh HI. unfold shutdown_busy. run_body. unfold id.
  assert (Hloop : ∀ l s1, ∃ s2, for_each l worker_shutdown s1 = (s2, Ok tt) ∧
    po_threads s2 = po_threads s1 ∧ po_idle s2 = po_idle s1 ∧ po_shutdowns s2 = po_shutdowns s1 ∧
    same_workers s1 s2).
  { induction l as [|w l IH]; intros s1; cbn; [by exists s1|].
    destruct (IH (set_worker w (λ x, {| x with wk_closed := wk_alive x || wk_closed x |}) s1))
      as (s2 & E1 & E2 & E3 & E4 & E5 & E6).
    exists s2. split_and!; [exact E1|done..|]. split.
    - rewrite E5. cbn. apply length_alter.
    - intros w'. destruct (E6 w') as [-> ->].
      by apply (same_workers_alter s1 _ w (λ x, {| x with wk_closed := wk_alive x || wk_closed x |})). }
  destruct (Hloop (po_busy s) (set_busy (λ _, []) s)) as (s2 & E1 & E2 & E3 & E4 & E5).
  unfold mbind, ST_bind. rewrite E1. unfold modify. cbn [fst].
  apply (wother s _ []); try done.
  - cbn. by rewrite E2, app_nil_r.
  - cbn. by rewrite E3.
  - intros Hn. exfalso. apply Hn. apply list_elem_of_lookup. exists h. cbn. rewrite E4. cbn.
    rewrite list_lookup_alter. case_decide; [|tauto].
    destruct (lookup_lt_is_Some_2 _ _ Hh) as [x Hx]. by rewrite Hx.
Qed.

Lemma shut_step_work s h :
  (h < length (po_shutdowns s))%nat → WorkInv s → WorkInv (shut_step h (po_shutdowns s !!! h) s).1.
Proof.
  intros Hh HI. destruct (po_shutdowns s !!! h) as [w c|w c|w c|w c|fs| | | | |] eqn:E;
    cbn [shut_step]; try done; try (by apply set_shutdown_work; rewrite ?E).
  - unfold shutdown_close. run_sup. apply set_shutdown_work; [cbn; by rewrite E|]. by apply (wsame s).
  - pose proof (same_work_cancel_queued_one s) as H. unfold shutdown_drain.
    destruct (cancel_queued_one s) as [s' [[|]|?]]; cbn in *; try (by eapply same_work_inv);
      (apply set_shutdown_work; [destruct H as (_ & _ & _ & -> & _); by rewrite E|by eapply same_work_inv]).
  - unfold shutdown_put. run_body. unfold id, mbind at 1, ST_bind.
    pose proof (same_work_push (mkItem (if w then maxsize else -1) None (po_sequence s)) s) as H.
    destruct (push _ s) as [s' [?|?]]; cbn in *; [|by eapply same_work_inv].
    apply set_shutdown_work; [destruct H as (_ & _ & _ & Hs & _); cbn; by rewrite Hs, E|].
    apply (wsame s'); try done. by eapply same_work_inv.
  - destruct fs as [|f fs]; cbn [shutdown_kill]; [by apply set_shutdown_work; rewrite ?E|].
    pose proof (same_work_cancel_and_kill f s) as H. unfold mbind, ST_bind.
    destruct (fut_cancel_and_kill f s) as [s' [?|?]]; cbn in *; [|by eapply same_work_inv].
    apply set_shutdown_work; [destruct H as (_ & _ & _ & -> & _); by rewrite E|by eapply same_work_inv].
  - unfold shutdown_idle. run_body. unfold id. destruct (po_idle s) as [|w idle] eqn:Ei.
    + run_body. by apply set_shutdown_work; rewrite ?E.
    + run_body. by apply drop_idle_work.
  - apply shutdown_busy_work; [by rewrite E|done|done].
Qed.

Lemma exec_work s e : WorkInv s → enabled cfg e s = true → WorkInv (exec e s).1.
Proof.
  intros HI Hen. destruct e; cbn [Pool.exec].
  - eapply same_work_inv; [|exact HI]. unfold submit_begin. destruct (_ <? 0); [done|]. run_sup.
    by destruct (po_closed s).
  - eapply same_work_inv; [|exact HI]. unfold submit_put. run_body. unfold id.
    destruct (po_putting s !! k) as [[[f p] n]|]; [|done].
    assert (H : respects same_work (_ ← modify (set_putting (V := V) (take_putting k));
      _ ← push (mkItem p (Some f) n);
      modify (set_statistics (λ t, {| t with tasks_received := tasks_received t + 1 |}))))
      by (repeat same_work_step). apply H.
  - eapply same_work_inv; [|exact HI]. unfold submit_full. run_sup.
    by destruct (po_putting s !! k) as [[[f p] n]|].
  - by apply runner_step_work.
  - apply andb_true_iff in Hen as [Ht%Nat.ltb_lt _]. by apply sup_step_work.
  - unfold shutdown_begin. run_sup. destruct (po_closed s); [done|]. cbn. apply (wsame s); try done.
    cbn. rewrite elem_of_app. tauto.
  - apply andb_true_iff in Hen as [Hh%Nat.ltb_lt _]. by apply shut_step_work.
  - apply andb_true_iff in Hen as [_ Hh]. unfold shutdown_full. run_sup.
    apply set_shutdown_work; [by destruct (po_shutdowns s !!! h)|]. by apply (wsame s).
  - eapply same_work_inv; [apply same_work_fut_cancel|done].
  - unfold clear_worker. run_body. unfold id. destruct (po_idle s) as [|w idle] eqn:Ei; [done|].
    run_body. by apply drop_idle_work.
  - run_body. cbn [fst]. apply (wother s _ []); try done; [by rewrite app_nil_r|].
    by eapply same_workers_alter.
Qed.

Lemma init_work pids : WorkInv (pool_init pids).
Proof.
  assert (Hw : ∀ w m, max_tasks_per_child cfg = Some m → wk_tasks_ran (worker (V := V) (pool_init pids) w) ≤ Z.max 1 m).
  { intros w m Hm. unfold worker. cbn. rewrite list_lookup_total_alt, list_lookup_fmap.
    destruct (pids !! w); cbn; lia. }
  split; cbn; try done; try lia.
  - rewrite app_nil_r. apply NoDup_seq.
  - intros w. rewrite app_nil_r, elem_of_seq, length_fmap. lia.
  - intros w Hx%elem_of_seq. unfold worker. cbn. rewrite list_lookup_total_alt, list_lookup_fmap.
    destruct (lookup_lt_is_Some_2 pids w) as [x ->]; [lia|]. cbn. split; [done|]. unfold within_tasks. cbn. destruct (max_tasks_per_child cfg); auto.
Qed.

Lemma reachable_work s : reachable s → WorkInv s.
Proof.
  intros (pids & es & Hp & Hst). eapply (steps_invariant pool_step WorkInv); [|apply init_work|done].
  intros s1 e s2 HI [Hen <-]. by apply exec_work.
Qed.
End PoolWorkers.
