(* ===== verification/PoolSafety.v ===== *)
(** * PoolSafety: the properties of the local pool

    Consequences of [PoolInv] and [WorkInv], with a pool of one or two workers as the
    instance that shows the hypotheses can hold, and two runs of the pool that end in
    states it cannot leave. *)
From S2P Require Import Prelude Errors Futures StateErr Heapq Pool PoolProps PoolWorkers.

(** ** An executable instance *)
#[export] Instance item_le_dec : RelDecision item_le.
Proof. intros a b. unfold item_le. solve_decision. Defined.
#[export] Instance item_le_preorder : PreOrder item_le.
Proof. unfold item_le. split; [intros a; lia|intros a b c; lia]. Qed.
#[export] Instance item_le_total : Total item_le.
Proof. intros a b. unfold item_le. lia. Qed.

Module PoolDemo.
#[export] Instance heap : HeapQ Item item_le := sorted_heapq item_le.

(** A pool of [n] workers that keeps at least [m]. *)
Definition cfg (n m : Z) : PoolConfig := pool_config (Some n) (Some m) 8 (Some 5) None 1000.

Definition start (n : Z) : Pool (V := Z) := pool_init (seqZ 100 n).

(** One stretch of the supervisor [t], whose job is sent and answers [r]. *)
Definition work (t : nat) (r : reply Z) : event (V := Z) :=
  EvThread t (Ok 200) Proceed None (Results r) None.
Definition sup (t : nat) : event (V := Z) := work t (RValue 7).

(** A job is submitted and the runner launches its supervisor. *)
Definition launch (priority : Z) : list (event (V := Z)) := [EvSubmit priority; EvPut 0; EvRunner; EvRunner; EvRunner].

(** Up to the poll for its result, and all the way. *)
Definition until_wait (t : nat) : list (event (V := Z)) := repeat (sup t) 7.
Definition to_the_end (t : nat) : list (event (V := Z)) := repeat (sup t) 14.

Definition after (n m : Z) (es : list (event (V := Z))) : Pool (V := Z) := default (start n) (run (cfg n m) (start n) es).
Definition completes (n m : Z) (es : list (event (V := Z))) : bool :=
  match run (cfg n m) (start n) es with Some _ => true | None => false end.

Lemma pool_reached n m es :
  pool_size (cfg n m) = n → 0 ≤ n → completes n m es = true → reachable (cfg n m) (after n m es).
Proof.
  intros Hn H0. unfold completes, after. destruct (run _ _ es) as [s|] eqn:E; [|done].
  intros _. exists (seqZ 100 n), es. split; [|by apply pool_run_steps].
  rewrite length_seqZ. lia.
Qed.
End PoolDemo.

Section Futures.
Context {V : Type} {HQ : HeapQ Item item_le}.
Context (cfg : PoolConfig).
Notation Pool := (Pool (V := V)).
Notation exec := (exec (V := V) cfg).
Notation pool_step := (pool_step (V := V) cfg).
Notation reachable := (reachable (V := V) cfg).

(** ** Futures are set once *)

(** A body that only adds futures and ends those that have not ended. *)
Definition settles {A} (m : ST Pool A) : Prop := respects futures_le m.

Lemma settles_modify g : (∀ s, po_futures (g s) = po_futures s) → settles (modify g).
Proof. intros H. apply respects_modify. intros s. by apply futures_same. Qed.

Lemma settles_fut_set f r : settles (fut_set f r).
Proof.
  intros s. unfold fut_set. run_body. unfold id. destruct (fut_done s f) eqn:E; [done|].
  eapply futures_le_alter; [eassumption| |reflexivity]; done.
Qed.

Lemma settles_fut_cancel f : settles (fut_cancel f).
Proof. intros s. destruct (fut_cancel_only s f) as (_ & H & _). exact H. Qed.

Lemma settles_guarded t m : settles m → settles (guarded t m).
Proof.
  intros H s. unfold guarded. specialize (H s). destruct (m s) as [s' [?|?]]; [done|].
  etransitivity; [exact H|by apply futures_same].
Qed.
Lemma settles_ending t m : settles m → settles (ending t m).
Proof.
  intros H s. unfold ending. specialize (H s). destruct (m s) as [s' [?|?]]; [done|].
  etransitivity; [exact H|by apply futures_same].
Qed.

Lemma settles_publish t w : settles (sup_publish t w).
Proof.
  intros s. unfold sup_publish. run_body. cbn [fst]. split_and!; cbn; [by rewrite length_alter|..].
  all: intros f; unfold future; cbn; rewrite list_lookup_total_alter; case_decide as Hx; try done.
  all: by destruct Hx as [-> _].
Qed.

Lemma settles_submit_begin p : settles (submit_begin p).
Proof.
  intros s. unfold submit_begin. destruct (_ <? 0); [done|]. run_body. unfold id.
  destruct (po_closed s); [done|]. unfold modify, futures_le, future; cbn. rewrite length_app.
  split_and!; [lia| |].
  - intros f Hf _. by rewrite lookup_total_app_l.
  - intros f. destruct (Nat.lt_ge_cases f (length (po_futures s))) as [Hl|Hl];
      [by rewrite lookup_total_app_l|]. rewrite lookup_total_app_r by done.
    destruct (f - _)%nat as [|[]]; done.
Qed.

Ltac settle :=
  repeat first
    [respects_step | apply settles_fut_set | apply settles_fut_cancel
    | apply settles_guarded; unfold settles | apply settles_ending; unfold settles
    | by apply settles_modify].

Lemma settles_task_done : settles task_done.
Proof. unfold settles, task_done. settle. Qed.

Lemma settles_cancel_queued_one : settles cancel_queued_one.
Proof. unfold settles, cancel_queued_one, get_item. settle. apply settles_task_done. Qed.

Lemma settles_resume t nx : settles (resume t nx).
Proof. unfold settles, resume, goto. settle. Qed.

Lemma settles_raised t n w e : settles (sup_raised t n w e).
Proof. unfold settles, sup_raised, goto. settle. Qed.

Lemma settles_offer f r : settles (fut_offer f r).
Proof. unfold settles, fut_offer. settle. Qed.

Lemma settles_add_worker pid : settles (add_worker_to_pool pid).
Proof. unfold settles, add_worker_to_pool. settle. Qed.

Lemma settles_sup_step t pc pid hook sent polled mem :
  settles (sup_step cfg t pc pid hook sent polled mem).
Proof.
  unfold settles, sup_step, sup_loop, sup_size, sup_add, sup_take, sup_got, sup_hook, sup_send,
    sup_poll, sup_done, sup_count, sup_back, sup_replace, sup_give_up, sup_finally, sup_ensure,
    sup_last, sup_free, worker_shutdown, goto.
  settle; first [apply settles_task_done|apply settles_resume|apply settles_raised|apply settles_offer
    |apply settles_add_worker|apply settles_publish].
Qed.

Lemma settles_runner_step pc : settles (runner_step pc).
Proof.
  destruct pc; unfold settles, runner_step, runner_slot, runner_get, runner_check, runner_stop;
    settle; try apply settles_task_done.
  intros s. unfold runner_drain. pose proof (settles_cancel_queued_one s) as H.
  destruct (cancel_queued_one s) as [s' [[|]|?]]; cbn in *; try done;
    (etransitivity; [exact H|by apply futures_same]).
Qed.

Lemma settles_shut_step h pc : settles (shut_step h pc).
Proof.
  destruct pc; unfold settles, shut_step, shutdown_close, shutdown_put, push, shutdown_list,
    shutdown_kill, fut_cancel_and_kill, shutdown_join, shutdown_idle, shutdown_busy, worker_shutdown;
    settle.
  intros s. unfold shutdown_drain. pose proof (settles_cancel_queued_one s) as H.
  destruct (cancel_queued_one s) as [s' [[|]|?]]; cbn in *; try done;
    (etransitivity; [exact H|by apply futures_same]).
Qed.

Lemma settles_exec e : settles (exec e).
Proof.
  destruct e; cbn [Pool.exec].
  - apply settles_submit_begin.
  - unfold settles, submit_put, push. settle.
  - unfold settles, submit_full. settle.
  - apply respects_bind; [apply _|settle|intros s; apply settles_runner_step].
  - apply respects_bind; [apply _|settle|intros s; apply settles_sup_step].
  - unfold settles, shutdown_begin. settle.
  - apply respects_bind; [apply _|settle|intros s; apply settles_shut_step].
  - unfold settles, shutdown_full. settle.
  - apply settles_fut_cancel.
  - unfold settles, clear_worker, worker_shutdown. settle.
  - unfold settles. settle.
Qed.
End Futures.

(** ** Submission numbers *)
Section Numbers.
Context {V : Type} {HQ : HeapQ Item item_le}.
Context (cfg : PoolConfig) (Hsize : 0 < pool_size cfg).
Notation Pool := (Pool (V := V)).
Notation exec := (exec (V := V) cfg).
Notation pool_step := (pool_step (V := V) cfg).
Notation reachable := (reachable (V := V) cfg).

(** The numbers in use: those of the submitters that wait to put, and of the queue. *)
Definition numbers (s : Pool) : list Z := (po_putting s).*2 ++ (it_sequence <$> po_queue s).

Definition SeqInv (s : Pool) : Prop :=
  NoDup (numbers s) ∧ ∀ n, n ∈ numbers s → n < po_sequence s.

(** A body that uses no number but the next one. *)
Definition counts (s s' : Pool) : Prop :=
  po_sequence s ≤ po_sequence s' ∧
  (numbers s' ⊆+ numbers s ∨
   po_sequence s < po_sequence s' ∧ numbers s' ⊆+ po_sequence s :: numbers s).

Lemma counts_inv s s' : counts s s' → SeqInv s → SeqInv s'.
Proof.
  intros [Hle Hsub] [Hnd Hlt]. destruct Hsub as [Hsub|[Hle' Hsub]].
  - split; [by eapply submseteq_NoDup|]. intros n Hn. apply (elem_of_submseteq _ _ _ Hn) in Hsub.
    specialize (Hlt n Hsub). lia.
  - split.
    + eapply submseteq_NoDup; [exact Hsub|]. constructor; [|done]. intros H%Hlt. lia.
    + intros n Hn. apply (elem_of_submseteq _ _ _ Hn) in Hsub.
      apply elem_of_cons in Hsub as [->|H]; [lia|]. specialize (Hlt n H). lia.
Qed.

(** What most operations leave alone. *)
Definition same_numbers (s s' : Pool) : Prop :=
  po_queue s' = po_queue s ∧ po_putting s' = po_putting s ∧ po_sequence s' = po_sequence s.

#[local] Instance same_numbers_preorder : PreOrder same_numbers.
Proof.
  split; [by intros s|]. intros s s' s'' (?&?&?) (?&?&?). unfold same_numbers. split_and!; congruence.
Qed.

Lemma same_numbers_counts s s' : same_numbers s s' → counts s s'.
Proof. intros (E1 & E2 & E3). unfold counts, numbers. rewrite E1, E2, E3. split; [done|by left]. Qed.

Lemma same_numbers_modify g :
  (∀ s, po_queue (g s) = po_queue s) → (∀ s, po_putting (g s) = po_putting s) →
  (∀ s, po_sequence (g s) = po_sequence s) → respects same_numbers (modify g).
Proof. intros H1 H2 H3. by apply respects_modify. Qed.

Lemma same_numbers_guarded t m : respects same_numbers m → respects same_numbers (guarded t m).
Proof. intros H s. unfold guarded. specialize (H s). by destruct (m s) as [s' [?|?]]. Qed.
Lemma same_numbers_ending t m : respects same_numbers m → respects same_numbers (ending t m).
Proof. intros H s. unfold ending. specialize (H s). by destruct (m s) as [s' [?|?]]. Qed.

Ltac quiet_numbers :=
  repeat first [respects_step | apply same_numbers_guarded | apply same_numbers_ending
    | by apply same_numbers_modify].

Lemma same_numbers_fut_cancel f : respects same_numbers (fut_cancel f).
Proof. unfold fut_cancel. quiet_numbers. Qed.

Lemma same_numbers_sup_step t pc pid hook sent polled mem :
  respects same_numbers (sup_step cfg t pc pid hook sent polled mem).
Proof.
  unfold sup_step, sup_loop, sup_size, sup_add, sup_take, sup_got, sup_hook, sup_send, sup_raised,
    sup_publish, sup_poll, sup_done, sup_count, sup_back, sup_replace, sup_give_up, sup_finally,
    sup_ensure, sup_last, sup_free, add_worker_to_pool, fut_offer, fut_set, resume, task_done,
    worker_shutdown, goto.
  quiet_numbers.
Qed.

(** Taking the head off the queue. *)
Lemma pop_counts s it q :
  is_heap (po_queue s) → get_item s = Some (it, q) → counts s (set_queue (λ _, q) s).
Proof.
  intros Hh Hg. destruct (queue_pop_spec s it q Hh Hg) as [_ Hp]. split; [done|left].
  unfold numbers. cbn. apply submseteq_skips_l. rewrite Hp. cbn. by apply submseteq_cons.
Qed.

Lemma counts_same_r s s1 s' : counts s s1 → same_numbers s1 s' → counts s s'.
Proof. unfold counts, numbers. intros H (-> & -> & ->). exact H. Qed.

Lemma cancel_queued_one_counts s : is_heap (po_queue s) → counts s (cancel_queued_one s).1.
Proof.
  intros Hh. unfold cancel_queued_one. run_body. unfold id.
  destruct (get_item s) as [[it q]|] eqn:E; [|by apply same_numbers_counts].
  run_body. eapply counts_same_r; [by eapply pop_counts|].
  assert (H : respects same_numbers (_ ← task_done (V := V); match it_job it with
    | Some f => _ ← fut_cancel f; mret false
    | None => raise (Raise TypeError "cannot unpack non-iterable NoneType object") end)).
  { unfold task_done. quiet_numbers. apply same_numbers_fut_cancel. }
  apply H.
Qed.

Lemma push_counts s it (Hh : is_heap (po_queue s)) :
  it_sequence it = po_sequence s →
  counts s {| (push it s).1 with po_sequence := po_sequence s + 1 |}.
Proof.
  intros Hs. unfold push. run_body. cbn. split; cbn; [lia|right]. split; [lia|].
  unfold numbers. cbn. rewrite (heappush_perm _ it Hh). cbn. rewrite Hs.
  by rewrite (Permutation_middle ((po_putting s).*2)).
Qed.

Lemma submit_put_counts s k : is_heap (po_queue s) → counts s (submit_put k s).1.
Proof.
  intros Hh. unfold submit_put, push, take_putting. run_body. unfold id.
  destruct (po_putting s !! k) as [[[f p] n]|] eqn:E; [|by apply same_numbers_counts].
  run_body. cbn. split; [done|left]. unfold numbers. cbn.
  rewrite (heappush_perm _ _ Hh). cbn. rewrite (delete_fmap_perm snd _ _ _ E). cbn.
  by rewrite Permutation_middle.
Qed.

Lemma submit_full_counts s k : counts s (submit_full k s).1.
Proof.
  unfold submit_full, take_putting. run_body. unfold id.
  destruct (po_putting s !! k) as [[[f p] n]|] eqn:E; [|by apply same_numbers_counts].
  run_body. cbn. split; [done|left]. unfold numbers. cbn. apply submseteq_skips_r.
  rewrite (delete_fmap_perm snd _ _ _ E). cbn. by apply submseteq_cons.
Qed.

Lemma submit_begin_counts s p : counts s (submit_begin p s).1.
Proof.
  unfold submit_begin. destruct (_ <? 0); [by apply same_numbers_counts|]. run_body. unfold id.
  destruct (po_closed s); [by apply same_numbers_counts|]. run_body. cbn. split; cbn; [lia|right].
  split; [lia|]. unfold numbers. cbn. rewrite fmap_app, <- app_assoc. cbn.
  by rewrite <- Permutation_middle.
Qed.

Lemma runner_step_counts s pc : is_heap (po_queue s) → counts s (runner_step pc s).1.
Proof.
  intros Hh. destruct pc; cbn [runner_step].
  - apply same_numbers_counts. assert (H : respects same_numbers (runner_slot (V := V)))
      by (unfold runner_slot; quiet_numbers). apply H.
  - unfold runner_get. run_body. unfold id.
    destruct (get_item s) as [[it q]|] eqn:E; [|by apply same_numbers_counts].
    run_body. eapply counts_same_r; [by eapply pop_counts|done].
  - apply same_numbers_counts. assert (H : respects same_numbers (runner_check (V := V) f))
      by (unfold runner_check, task_done; quiet_numbers). apply H.
  - apply same_numbers_counts. assert (H : respects same_numbers (runner_stop (V := V)))
      by (unfold runner_stop, task_done; quiet_numbers). apply H.
  - unfold runner_drain. pose proof (cancel_queued_one_counts s Hh) as H.
    by destruct (cancel_queued_one s) as [s' [[|]|?]].
  - by apply same_numbers_counts.
Qed.

Lemma shut_step_counts s h pc : is_heap (po_queue s) → counts s (shut_step h pc s).1.
Proof.
  intros Hh. destruct pc as [w c|w c|w c|w c|fs| | | | |]; cbn [shut_step].
  - by apply same_numbers_counts.
  - unfold shutdown_drain. pose proof (cancel_queued_one_counts s Hh) as H.
    by destruct (cancel_queued_one s) as [s' [[|]|?]].
  - unfold shutdown_put. run_body. unfold id.
    pose proof (push_counts s (mkItem (if w then maxsize else -1) None (po_sequence s)) Hh eq_refl) as H.
    exact H.
  - by apply same_numbers_counts.
  - apply same_numbers_counts. assert (H : respects same_numbers (shutdown_kill (V := V) h fs))
      by (unfold shutdown_kill, fut_cancel_and_kill; quiet_numbers; apply same_numbers_fut_cancel). apply H.
  - by apply same_numbers_counts.
  - apply same_numbers_counts. assert (H : respects same_numbers (shutdown_idle (V := V) h))
      by (unfold shutdown_idle, worker_shutdown; quiet_numbers). apply H.
  - apply same_numbers_counts. assert (H : respects same_numbers (shutdown_busy (V := V) h))
      by (unfold shutdown_busy, worker_shutdown; quiet_numbers). apply H.
  - by apply same_numbers_counts.
  - by apply same_numbers_counts.
Qed.

Lemma exec_counts s e : is_heap (po_queue s) → counts s (exec e s).1.
Proof.
  intros Hh. destruct e; cbn [Pool.exec].
  - apply submit_begin_counts.
  - by apply submit_put_counts.
  - apply submit_full_counts.
  - by apply runner_step_counts.
  - apply same_numbers_counts, same_numbers_sup_step.
  - apply same_numbers_counts. assert (H : respects same_numbers (shutdown_begin (V := V) wait cancel))
      by (unfold shutdown_begin; quiet_numbers). apply H.
  - by apply shut_step_counts.
  - unfold shutdown_full. run_body. cbn. split; cbn; [lia|by left].
  - apply same_numbers_counts, same_numbers_fut_cancel.
  - apply same_numbers_counts. assert (H : respects same_numbers (clear_worker (V := V)))
      by (unfold clear_worker, worker_shutdown; quiet_numbers). apply H.
  - by apply same_numbers_counts.
Qed.

Lemma reachable_numbers s : reachable s → SeqInv s.
Proof.
  intros Hr. enough (PoolInv cfg s ∧ SeqInv s) by tauto. destruct Hr as (pids & es & Hp & Hst).
  eapply (steps_invariant pool_step (λ s, PoolInv cfg s ∧ SeqInv s)); [| |exact Hst].
  - intros s1 e s2 [HI HS] Hs. split; [by eapply step_inv|]. destruct Hs as [_ <-].
    eapply counts_inv; [apply exec_counts|done]. apply HI.
  - split; [by apply init_inv|]. split; [constructor|]. intros n Hn. by apply elem_of_nil in Hn.
Qed.
End Numbers.

(** ** Properties *)
Section Properties.
Context {V : Type} {HQ : HeapQ Item item_le}.
Context (cfg : PoolConfig) (Hsize : 0 < pool_size cfg).
Notation Pool := (Pool (V := V)).
Notation exec := (exec (V := V) cfg).
Notation pool_step := (pool_step (V := V) cfg).
Notation reachable := (reachable (V := V) cfg).

Lemma held_holds (s : Pool) : Z.of_nat (length (held s)) ≤ total holds s.
Proof.
  unfold held, total. induction (po_threads s) as [|x l IH]; [done|].
  rewrite zsum_cons. cbn. destruct (su_pc x); cbn in *; lia.
Qed.

(** The supervisors that run. *)
Definition active (s : Pool) : Z := total occ s.

(** C12: In every reachable state the idle workers and those in a supervisor's hands are at most
    [max_workers], and so are the supervisors that have not ended: neither [get_process] nor
    [done_with_process] ever adds a worker too many, whatever threads run between their counts. *)
Theorem pool_workers_bounded s :
  reachable s →
  Z.of_nat (length (po_idle s) + length (held s)) ≤ pool_size cfg ∧ active s ≤ pool_size cfg.
Proof.
  intros HI%(pool_reachable_inv cfg Hsize). destruct HI. pose proof (held_holds s).
  pose proof (runner_occ_nonneg (po_runner s)). unfold active. lia.
Qed.

(** C13: A worker is never shared: no two supervisors hold it, none holds one that waits in the
    pool, and it is in [busy_workers] from the submission to [done_with_process] until a
    [shutdown] has finished, so that its removal there cannot fail. *)
Theorem worker_exclusive s t w :
  reachable s → (t < length (po_threads s))%nat → worker_of (pc_of s t) = Some w →
  (∀ t', (t' < length (po_threads s))%nat → worker_of (pc_of s t') = Some w → t' = t) ∧
  w ∉ po_idle s ∧
  (HEnd ∉ po_shutdowns s → entered (pc_of s t) = Some w → list_del w (po_busy s) ≠ None).
Proof.
  intros HI%(reachable_work cfg) Ht Hw. pose proof HI as []. split_and!.
  - intros t' Ht' Hw'. apply (held_once s t' t w); try done. apply NoDup_app in wi_nodup. tauto.
  - by apply (held_not_idle cfg s t).
  - intros Hend He. destruct (list_del_Some w (po_busy s)) as [l ->]; [|done].
    by apply (wi_entered Hend t).
Qed.

(** A job is only sent to a worker whose pipe has not failed and whose job has not timed
    out, and no worker is ever sent more than [max_tasks_per_child] jobs (one, if the limit is
    smaller). *)
Theorem job_worker_fit s t n w m :
  reachable s → (t < length (po_threads s))%nat → pc_of s t = SSend n w →
  wk_ok (worker s w) = true ∧
  (max_tasks_per_child cfg = Some m → ∀ w', wk_tasks_ran (worker s w') ≤ Z.max 1 m).
Proof.
  intros HI%(reachable_work cfg) Ht Hpc. destruct HI. split.
  - apply (wi_chosen t w); [done|]. by rewrite Hpc.
  - intros Hm w'. by apply wi_tasks.
Qed.

(** No unfinished task is left: nothing is queued, in the runner's hands or being run. *)
Lemma drained s :
  reachable s → po_unfinished s = 0 →
  po_queue s = [] ∧ runner_pend (po_runner s) = 0 ∧
  ∀ t, (t < length (po_threads s))%nat → pend (pc_of s t) = 0.
Proof.
  intros HI%(pool_reachable_inv cfg Hsize) Hzero. pose proof HI as [].
  pose proof (pend_total_nonneg s). pose proof (runner_pend_nonneg (po_runner s)). split_and!.
  - destruct (po_queue s); [done|cbn in *; lia].
  - lia.
  - intros t Ht. pose proof (total_split pend s t) as Hs.
    specialize (Hs ltac:(intros pc; destruct (pend_bound pc); lia) Ht).
    pose proof (pend_bound (pc_of s t)). lia.
Qed.


(** No job is lost: a future that is not done still has its submitter, its place in the
    backlog, the runner or a supervisor that has not ended; only a submission that was refused
    with [queue.Full] leaves its future pending. *)
Theorem job_kept s f :
  reachable s → (f < length (po_futures s))%nat → fut_done s f = false → f ∉ po_refused s →
  f ∈ (λ x, x.1.1) <$> po_putting s ∨ Some f ∈ it_job <$> po_queue s ∨ po_runner s = RCheck f ∨
  ∃ t, (t < length (po_threads s))%nat ∧ job_of s t = f ∧ sealed (pc_of s t) = false.
Proof.
  intros HI%(pool_reachable_inv cfg Hsize) Hf Hd Hr. destruct HI.
  destruct (pi_kept f Hf) as [?|[?|[?|[?|[?|Hx]]]]]; [congruence|by left|done|auto..|].
  right; right; right. apply list_elem_of_fmap in Hx as (x & -> & (t & Ht)%list_elem_of_lookup).
  pose proof (lookup_lt_Some _ _ _ Ht) as Hl. exists t.
  assert (Hx : po_threads s !!! t = x) by (by apply list_lookup_total_correct).
  assert (Hjob : job_of s t = su_future x) by (unfold job_of; by rewrite Hx).
  split_and!; [done|done|]. destruct (sealed (pc_of s t)) eqn:E; [|done].
  pose proof (pi_sealed t Hl E). congruence.
Qed.

(** The outcome of a job is final: whatever the threads do afterwards, the state and the
    value of a future that is done stay as they are. *)
Theorem pool_outcome_final s es s' f :
  steps pool_step s es s' → (f < length (po_futures s))%nat → fut_done s f = true →
  pf_state (future s' f) = pf_state (future s f) ∧ pf_value (future s' f) = pf_value (future s f).
Proof.
  intros Hs Hf Hd. assert (futures_le s s') as (_ & H & _); [|by apply H].
  eapply (steps_preorder pool_step futures_le); [|exact Hs].
  intros s1 e s2 [_ <-]. apply settles_exec.
Qed.

(** The runner serves the backlog in order: it takes the item with the least priority and,
    among equal ones, the one numbered first, and every other item comes strictly after it. *)
Theorem runner_serves_in_order s :
  reachable s → po_runner s = RGet → po_queue s ≠ [] →
  ∃ it q, (runner_get s).1 = set_runner (match it_job it with Some f => RCheck f | None => RStop end)
                               (set_queue (λ _, q) s) ∧
    po_queue s ≡ₚ it :: q ∧ ∀ it', it' ∈ q → item_le it it' ∧ ¬ item_le it' it.
Proof.
  intros Hr Hpc Hq. destruct (pool_reachable_inv cfg Hsize s Hr). destruct (reachable_numbers cfg Hsize s Hr) as [Hnd _].
  unfold runner_get. run_body. unfold id. destruct (get_item s) as [[it q]|] eqn:E.
  2: { exfalso. apply Hq. by apply pop_none. }
  destruct (queue_pop_spec s it q pi_heap E) as [_ Hp]. run_body. exists it, q. split_and!; [done|done|].
  intros it' Hit. unfold get_item in E. destruct (po_queue s) as [|x h] eqn:Eq; [done|].
  destruct (heappop_cons x h pi_heap) as (h' & Hpop & _ & Hh'). rewrite Hpop in E. injection E as -> ->.
  assert (Hin : it' ∈ h) by (by rewrite <- Hh').
  pose proof (heap_head_min _ _ _ pi_heap Hin) as Hle. split; [done|]. intros Hle'.
  unfold numbers in Hnd. rewrite Eq in Hnd. apply NoDup_app in Hnd as (_ & _ & Hnd).
  cbn in Hnd. apply NoDup_cons in Hnd as [Hn _]. apply Hn. apply list_elem_of_fmap.
  exists it'. split; [|done]. unfold item_le in *. lia.
Qed.
End Properties.

Import (hints) PoolDemo.
#[local] Opaque PoolDemo.after.

(** Two jobs: the first at the poll of its worker, the second in the backlog. *)
Definition two_jobs : list (event (V := Z)) :=
  PoolDemo.launch 3 ++ PoolDemo.until_wait 0 ++ [EvSubmit 5; EvPut 0; EvSubmit 4; EvPut 0; EvRunner].

Lemma pool_workers_bounded_witness :
  let s := PoolDemo.after 2 1 two_jobs in
  reachable (PoolDemo.cfg 2 1) s ∧ Z.of_nat (length (po_idle s) + length (held s)) ≤ 2 ∧ active s ≤ 2.
Proof.
  assert (Hr : reachable (PoolDemo.cfg 2 1) (PoolDemo.after 2 1 two_jobs))
    by (apply PoolDemo.pool_reached; vm_compute; done).
  split; [exact Hr|]. exact (pool_workers_bounded (PoolDemo.cfg 2 1) eq_refl _ Hr).
Defined.

Lemma worker_exclusive_witness :
  let s := PoolDemo.after 2 1 two_jobs in
  worker_of (pc_of s 0) = Some 0%nat ∧ 0%nat ∉ po_idle s ∧ list_del 0%nat (po_busy s) ≠ None.
Proof.
  assert (Hr : reachable (PoolDemo.cfg 2 1) (PoolDemo.after 2 1 two_jobs))
    by (apply PoolDemo.pool_reached; vm_compute; done).
  destruct (worker_exclusive (PoolDemo.cfg 2 1) _ 0 0 Hr) as (_ & H1 & H2);
    [vm_compute; lia|vm_compute; done|].
  split_and!; [vm_compute; done|exact H1|]. apply H2; [|vm_compute; done].
  replace (po_shutdowns (PoolDemo.after 2 1 two_jobs)) with (@nil shut_pc) by (vm_compute; done).
  apply not_elem_of_nil.
Defined.

(** The job is about to be sent. *)
Definition about_to_send : list (event (V := Z)) := PoolDemo.launch 3 ++ repeat (PoolDemo.sup 0) 5.

Lemma job_worker_fit_witness :
  let s := PoolDemo.after 1 1 about_to_send in
  pc_of s 0 = SSend 9 0 ∧ wk_ok (worker s 0) = true ∧ ∀ w, wk_tasks_ran (worker s w) ≤ 5.
Proof.
  assert (Hr : reachable (PoolDemo.cfg 1 1) (PoolDemo.after 1 1 about_to_send))
    by (apply PoolDemo.pool_reached; vm_compute; done).
  assert (Hpc : pc_of (PoolDemo.after 1 1 about_to_send) 0 = SSend 9 0) by (vm_compute; done).
  destruct (job_worker_fit (PoolDemo.cfg 1 1) _ 0 9 0 5 Hr) as [H1 H2];
    [vm_compute; lia|exact Hpc|].
  split_and!; [exact Hpc|exact H1|exact (H2 eq_refl)].
Defined.


Lemma job_kept_witness :
  let s := PoolDemo.after 2 1 two_jobs in
  fut_done s 2 = false ∧
  (2%nat ∈ (λ x, x.1.1) <$> po_putting s ∨ Some 2%nat ∈ it_job <$> po_queue s ∨
   po_runner s = RCheck 2 ∨
   ∃ t, (t < length (po_threads s))%nat ∧ job_of s t = 2%nat ∧ sealed (pc_of s t) = false).
Proof.
  assert (Hr : reachable (PoolDemo.cfg 2 1) (PoolDemo.after 2 1 two_jobs))
    by (apply PoolDemo.pool_reached; vm_compute; done).
  split; [vm_compute; done|].
  apply (job_kept (PoolDemo.cfg 2 1) eq_refl _ 2 Hr); [vm_compute; lia|vm_compute; done|].
  replace (po_refused (PoolDemo.after 2 1 two_jobs)) with (@nil nat) by (vm_compute; done).
  apply not_elem_of_nil.
Defined.

Lemma pool_outcome_final_witness :
  let s := PoolDemo.after 2 1 (PoolDemo.launch 3 ++ PoolDemo.to_the_end 0) in
  let s' := (exec (PoolDemo.cfg 2 1) (EvCancel 0) s).1 in
  pf_value (future s' 0) = Some (RValue 7).
Proof.
  intros s s'.
  assert (Hs : steps (pool_step (PoolDemo.cfg 2 1)) s [EvCancel 0] s').
  { eapply (steps_cons _ s (EvCancel 0) s'); [exact (conj eq_refl eq_refl)|constructor]. }
  destruct (pool_outcome_final (PoolDemo.cfg 2 1) s [EvCancel 0] s' 0 Hs) as [_ ->];
    [vm_compute; lia|vm_compute; done|vm_compute; done].
Defined.

Lemma runner_serves_in_order_witness :
  let s := PoolDemo.after 2 1 two_jobs in
  ∃ it q, po_queue s ≡ₚ it :: q ∧ ∀ it', it' ∈ q → item_le it it' ∧ ¬ item_le it' it.
Proof.
  assert (Hr : reachable (PoolDemo.cfg 2 1) (PoolDemo.after 2 1 two_jobs))
    by (apply PoolDemo.pool_reached; vm_compute; done).
  destruct (runner_serves_in_order (PoolDemo.cfg 2 1) eq_refl _ Hr) as (it & q & _ & H1 & H2);
    [vm_compute; done|vm_compute; done|].
  exists it, q. split; [exact H1|exact H2].
Defined.
