(* ===== verification/PoolLiveness.v ===== *)
(** * PoolLiveness: when the local pool can make progress, and when it cannot

    [pool_progress] is the absence of deadlock: as long as a future is not done, some
    thread of the pool can run. It needs [min_workers] to be at least one and the steps
    to be [benign]; the last section shows that both matter, with runs of the code that
    leave a pool which can never serve a job again. *)
From S2P Require Import Prelude Errors Futures StateErr Heapq Pool PoolProps PoolWorkers PoolSafety.

(** A supervisor that holds a worker, or will add one, and does not give it up: the
    counts of [done_with_process] decide. *)
Definition supplies (pc : sup_pc) : bool :=
  match pc with
  | SAdd _ | SGot _ _ | SHook _ _ | SSend _ _ | SPublish _ | SWait _ | SDone _ _ | SReplace _ => true
  | SCount _ b _ => b =? 0
  | SBack _ b q _ => (b =? 0) && (q =? 0)
  | _ => false
  end.

Lemma entered_supplies pc w : entered pc = Some w → supplies pc = true.
Proof. by destruct pc. Qed.

Section Progress.
Context {V : Type} {HQ : HeapQ Item item_le}.
Context (cfg : PoolConfig) (Hsize : 0 < pool_size cfg) (Hmin : 1 ≤ min_workers cfg).
Notation Pool := (Pool (V := V)).
Notation exec := (exec (V := V) cfg).
Notation pool_step := (pool_step (V := V) cfg).
Notation reachable := (reachable (V := V) cfg).
Notation event := (event (V := V)).

(** The exceptions of a submission after which the worker is returned. *)
Definition handled (s : Pool) (t : nat) (e : exn) : Prop :=
  if unpicklable e then fut_done s (job_of s t) = false else isinstance e BrokenPipeError = true.

(** What the environment must not do: fail to start a process, raise where [run_task] does
    not handle it, cancel a future inside the two windows of [run_task], clear or shut the pool. *)
Definition benign (s : Pool) (e : event) : Prop :=
  match e with
  | EvClear | EvShutdown _ _ => False
  | EvThread t pid hook sent polled mem =>
      match pc_of s t with
      | SAdd _ | SReplace _ => ∃ p, pid = Ok p
      | SHook _ _ => match hook with HookRaises e => handled s t e | _ => True end
      | SSend _ _ => match sent with Some e => handled s t e | None => True end
      | SWait _ => match polled with PollError _ => False | _ => True end
      | SBack _ _ _ _ => max_worker_memory_bytes cfg = None ∨ is_Some mem
      | SLast => fut_done s (job_of s t) = false
      | _ => True
      end
  | _ => True
  end.

Record LiveInv (s : Pool) : Prop := {
  li_shut : po_shutdowns s = [];
  li_runner : match po_runner s with RStop | RDrain | RExit => False | _ => True end;
  li_jobs : Forall (λ it, is_Some (it_job it)) (po_queue s);
  li_raised : ∀ t, (t < length (po_threads s))%nat → pc_of s t ≠ SRaised;
  li_nodup : NoDup (po_busy s);
  li_busy : ∀ w, w ∈ po_busy s →
    ∃ t, (t < length (po_threads s))%nat ∧ entered (pc_of s t) = Some w;
  li_supply : po_idle s ≠ [] ∨
    ∃ t, (t < length (po_threads s))%nat ∧ supplies (pc_of s t) = true }.

(** ** The supervisors *)

Record lmoved (t : nat) (pc' : sup_pc) (s s' : Pool) : Prop := {
  lm_threads : po_threads s' = po_threads (set_thread t pc' s);
  lm_shut : po_shutdowns s' = po_shutdowns s;
  lm_runner : po_runner s' = po_runner s;
  lm_queue : po_queue s' = po_queue s;
  lm_raised : pc' ≠ SRaised;
  lm_nodup : NoDup (po_busy s) → NoDup (po_busy s');
  lm_busy : ∀ w, w ∈ po_busy s' → entered pc' = Some w ∨
    w ∈ po_busy s ∧ entered (pc_of s t) ≠ Some w;
  lm_supply : po_idle s ≠ [] ∨ supplies (pc_of s t) = true →
    po_idle s' ≠ [] ∨ supplies pc' = true ∨ po_busy s' ≠ [] }.

Lemma pc_of_set (s s' : Pool) t pc' :
  (t < length (po_threads s))%nat → po_threads s' = po_threads (set_thread t pc' s) →
  pc_of s' t = pc' ∧ ∀ t', t' ≠ t → pc_of s' t' = pc_of s t'.
Proof.
  intros Ht E. unfold pc_of. rewrite E. cbn. split.
  - by rewrite list_lookup_total_alter_eq.
  - intros t' Hne. by rewrite list_lookup_total_alter_ne.
Qed.

Lemma lmove t pc' s s' :
  LiveInv s → (t < length (po_threads s))%nat → lmoved t pc' s s' → LiveInv s'.
Proof.
  intros [] Ht []. destruct (pc_of_set s s' t pc' Ht lm_threads0) as [Hself Hother].
  assert (Hlen : length (po_threads s') = length (po_threads s))
    by (rewrite lm_threads0; cbn; apply length_alter).
  assert (Hbusy : ∀ w, w ∈ po_busy s' →
    ∃ t, (t < length (po_threads s'))%nat ∧ entered (pc_of s' t) = Some w).
  { intros w [Hw|[Hw Hne]]%lm_busy0; rewrite Hlen.
    - exists t. by rewrite Hself.
    - destruct (li_busy0 w Hw) as (t' & Ht' & He). exists t'. split; [done|].
      rewrite Hother; [done|]. by intros ->. }
  split; rewrite ?lm_shut0, ?lm_runner0, ?lm_queue0; try done; auto.
  - intros t' Ht'. destruct (decide (t' = t)) as [->|Hne]; [by rewrite Hself|].
    rewrite Hother by done. apply li_raised0. lia.
  - assert (Hsup : (po_idle s ≠ [] ∨ supplies (pc_of s t) = true) ∨
      ∃ t', t' ≠ t ∧ (t' < length (po_threads s))%nat ∧ supplies (pc_of s t') = true).
    { destruct li_supply0 as [?|(t' & Ht' & Hs)]; [by left; left|].
      destruct (decide (t' = t)) as [->|Hne]; [by left; right|right; eauto]. }
    destruct Hsup as [[?|[?|Hb]]%lm_supply0|(t' & Hne & Ht' & Hs)].
    + by left.
    + right. exists t. rewrite Hself, Hlen. done.
    + destruct (po_busy s') as [|w l] eqn:Eb; [done|]. destruct (Hbusy w) as (t' & Ht' & He); [left|].
      right. exists t'. split; [done|]. by eapply entered_supplies.
    + right. exists t'. rewrite Hother, Hlen by done. done.
Qed.

(** The thread moves and the busy set stays. *)
Lemma lquiet t pc' s s' :
  LiveInv s → (t < length (po_threads s))%nat →
  po_threads s' = po_threads (set_thread t pc' s) → po_shutdowns s' = po_shutdowns s →
  po_runner s' = po_runner s → po_queue s' = po_queue s → po_busy s' = po_busy s →
  pc' ≠ SRaised → (∀ w, entered (pc_of s t) = Some w → entered pc' = Some w) →
  (po_idle s ≠ [] ∨ supplies (pc_of s t) = true → po_idle s' ≠ [] ∨ supplies pc' = true) →
  LiveInv s'.
Proof.
  intros HI Ht Hth Hs Hr Hq Hb Hpc He Hsup. apply (lmove t pc' s); [done|done|].
  split; try done; rewrite ?Hb; auto.
  - intros w Hw. destruct (decide (entered (pc_of s t) = Some w)) as [E|E]; [left; auto|by right].
  - intros H%Hsup. tauto.
Qed.

Ltac lq Ht Hpc :=
  eapply lquiet; [eassumption|exact Ht|reflexivity..|done|rewrite ?Hpc; cbn; congruence|rewrite ?Hpc; cbn; try tauto].

(** An exception that is handled leads to [done_with_process]. *)
Lemma sup_raised_live s s1 t n w e :
  LiveInv s → (t < length (po_threads s))%nat → entered (pc_of s t) = Some w →
  po_threads s1 = po_threads s → po_shutdowns s1 = po_shutdowns s → po_runner s1 = po_runner s →
  po_queue s1 = po_queue s → po_busy s1 = po_busy s → po_futures s1 = po_futures s →
  po_idle s1 = po_idle s → handled s t e → LiveInv (sup_raised t n w e s1).1.
Proof.
  intros HI Ht He Eth Es Er Eq Eb Ef Ei Hh. unfold sup_raised, fut_set, handled in *. run_sup.
  assert (Hgo : ∀ nx s', po_threads s' = po_threads (set_thread t (SDone w nx) s1) →
    po_shutdowns s' = po_shutdowns s1 → po_runner s' = po_runner s1 → po_queue s' = po_queue s1 →
    po_busy s' = po_busy s1 → LiveInv s').
  { intros nx s' F1 F2 F3 F4 F5. apply (lquiet t (SDone w nx) s s'); try congruence; try done.
    - rewrite F1. cbn. by rewrite Eth.
    - intros w'. rewrite He. cbn. auto.
    - intros _. by right. }
  destruct (unpicklable e).
  - assert (Hd : fut_done s1 (job_of s1 t) = false) by (unfold fut_done, future, job_of in *; by rewrite Ef, Eth).
    rewrite Hd. cbn. eapply (Hgo AReturn); reflexivity.
  - rewrite Hh. cbn. eapply (Hgo (ARetry n w)); reflexivity.
Qed.

Lemma sup_take_live s t n :
  LiveInv s → (t < length (po_threads s))%nat → pc_of s t = STake n → LiveInv (sup_take t n s).1.
Proof.
  intros HI Ht Hpc. unfold sup_take. run_sup. destruct (po_idle s); [done|]. cbn. lq Ht Hpc.
Qed.

Lemma sup_got_live s t n w :
  LiveInv s → (t < length (po_threads s))%nat → pc_of s t = SGot n w → LiveInv (sup_got t n w s).1.
Proof.
  intros HI Ht Hpc. unfold sup_got. run_sup. apply (lmove t (SHook n w) s); [done|done|].
  split; cbn; rewrite ?Hpc; try done; unfold set_add; case_bool_decide; try done; auto.
  - intros Hn. apply NoDup_app. split_and!; [done| |apply NoDup_singleton].
    intros w' Hw ->%list_elem_of_singleton. done.
  - intros w' [Hw| ->%list_elem_of_singleton]%elem_of_app; [by right|by left].
Qed.

Lemma sup_done_live s t w nx :
  LiveInv s → WorkInv cfg s → (t < length (po_threads s))%nat → pc_of s t = SDone w nx →
  LiveInv (sup_done t w nx s).1.
Proof.
  intros HI HW Ht Hpc. pose proof HI as []. unfold sup_done. run_sup.
  destruct (list_del w (po_busy s)) as [busy|] eqn:E.
  2: { apply list_del_None in E. destruct E. destruct HW. apply (wi_entered) with t; [|done|by rewrite Hpc].
       rewrite li_shut0. apply not_elem_of_nil. }
  pose proof (list_del_Permutation _ _ _ E) as Hp. rewrite Hp in li_nodup0.
  apply NoDup_cons in li_nodup0 as [Hnin Hnd]. run_sup.
  apply (lmove t (SCount w (Z.of_nat (length busy)) nx) s); [done|done|].
  split; cbn; rewrite ?Hpc; try done.
  - intros w' Hw'. right. split; [rewrite Hp; by right|]. intros [= <-]. done.
  - intros _. right. destruct busy; [by left|by right].
Qed.

Lemma sup_back_live s t w b q nx mem :
  LiveInv s → (t < length (po_threads s))%nat → pc_of s t = SBack w b q nx → 0 ≤ b → 0 ≤ q →
  max_worker_memory_bytes cfg = None ∨ is_Some mem → LiveInv (sup_back cfg t w b q nx mem s).1.
Proof.
  intros HI Ht Hpc Hb Hq Hmem. unfold sup_back. run_sup.
  destruct (_ && _) eqn:E.
  { apply andb_true_iff in E as [E%Z.ltb_lt _]. destruct nx; cbn; lq Ht Hpc;
      (intros [?|[??]%andb_true_iff]; [by left|lia]). }
  destruct (negb (wk_alive _)); [cbn; lq Ht Hpc|].
  destruct (negb (wk_ok _)); [cbn; lq Ht Hpc|].
  destruct (tasks_hit _ _); [cbn; lq Ht Hpc|].
  assert (Hput : ∀ pc', pc' = SFinally ∨ (∃ n, pc' = SLoop n) → ∀ s',
    po_threads s' = po_threads (set_thread t pc' s) → po_shutdowns s' = po_shutdowns s →
    po_runner s' = po_runner s → po_queue s' = po_queue s → po_busy s' = po_busy s →
    po_idle s' = po_idle s ++ [w] → LiveInv s').
  { intros pc' Hpc' s' F1 F2 F3 F4 F5 F6. apply (lquiet t pc' s s'); try done.
    - by destruct Hpc' as [->|[? ->]].
    - rewrite Hpc. done.
    - intros _. left. rewrite F6. by destruct (po_idle s). }
  destruct (max_worker_memory_bytes cfg) as [m|].
  - destruct Hmem as [?|[x ->]]; [done|]. destruct (memory_hit _ _); [clear Hput; cbn; lq Ht Hpc|].
    destruct nx as [|n w']; [by apply (Hput SFinally); auto|by apply (Hput (SLoop n)); eauto].
  - destruct nx as [|n w']; [by apply (Hput SFinally); auto|by apply (Hput (SLoop n)); eauto].
Qed.

Lemma sup_replace_live s t nx p :
  LiveInv s → (t < length (po_threads s))%nat → pc_of s t = SReplace nx →
  LiveInv (sup_replace t nx (Ok p) s).1.
Proof.
  intros HI Ht Hpc. unfold sup_replace, add_worker_to_pool, stat_created. run_sup.
  destruct nx; cbn; lq Ht Hpc; (intros _; left; by destruct (po_idle s)).
Qed.

(** *** Every benign stretch *)

Lemma sup_finally_live s t :
  LiveInv s → PoolInv cfg s → (t < length (po_threads s))%nat → pc_of s t = SFinally →
  LiveInv (sup_finally t s).1.
Proof.
  intros HI HP Ht Hpc. pose proof (pending_positive cfg s t HP Ht) as Hp. rewrite Hpc in Hp.
  specialize (Hp eq_refl). unfold sup_finally, task_done. run_sup.
  destruct (_ <? 0) eqn:E; [lia|]. cbn. lq Ht Hpc.
Qed.

(** The counts of [done_with_process] are not negative. *)
Definition counted (pc : sup_pc) : bool :=
  match pc with SCount _ b _ => 0 <=? b | SBack _ b q _ => (0 <=? b) && (0 <=? q) | _ => true end.

Definition CountInv (s : Pool) : Prop :=
  ∀ t, (t < length (po_threads s))%nat → counted (pc_of s t) = true.

Lemma sup_step_live s t pid hook sent polled mem :
  LiveInv s → PoolInv cfg s → WorkInv cfg s → (t < length (po_threads s))%nat →
  counted (pc_of s t) = true → benign s (EvThread t pid hook sent polled mem) →
  LiveInv (sup_step cfg t (pc_of s t) pid hook sent polled mem s).1.
Proof.
  intros HI HP HW Ht Hc Hben. cbn in Hben. destruct (pc_of s t) eqn:Hpc; cbn [sup_step].
  - destruct retries; unfold sup_loop; run_sup; lq Ht Hpc.
  - unfold sup_size. run_sup. destruct (_ && _); lq Ht Hpc.
  - destruct Hben as [p ->]. unfold sup_add, add_worker_to_pool, stat_created. run_sup. lq Ht Hpc.
    intros _. left. by destruct (po_idle s).
  - by apply sup_take_live.
  - by apply sup_got_live.
  - destruct hook as [| |e]; cbn.
    + unfold goto. run_body. cbn. lq Ht Hpc.
    + unfold goto. run_body. cbn. lq Ht Hpc.
    + eapply sup_raised_live; try done. by rewrite Hpc.
  - unfold sup_send. run_body. destruct sent as [e|].
    + eapply sup_raised_live; try done. by rewrite Hpc.
    + unfold goto. run_body. cbn. lq Ht Hpc.
  - unfold sup_publish. run_sup. lq Ht Hpc.
  - unfold sup_poll, fut_offer, fut_set, stat_failed. run_sup.
    assert (Hd : fut_done s (job_of s t) = true ∨ fut_done s (job_of s t) = false)
      by (destruct (fut_done _ _); auto).
    destruct polled as [[v|e]|e|e|e|e]; try destruct (isinstance e PoolTimeoutError); cbn; try done;
      unfold fut_done, future in *; cbn in *; destruct Hd as [Hd|Hd]; rewrite ?Hd; cbn; rewrite ?Hd; cbn;
      lq Ht Hpc.
  - by apply sup_done_live.
  - unfold sup_count. run_sup. lq Ht Hpc. cbn in Hc. intros [?|Hb]; [by left|].
    destruct (po_idle s) eqn:Ei; [right; cbn; by rewrite Hb|by left].
  - cbn in Hc. apply andb_true_iff in Hc as [??]. apply sup_back_live; try done; lia.
  - destruct Hben as [p ->]. by apply sup_replace_live.
  - unfold sup_give_up, fut_set. run_sup. destruct (fut_done _ _); cbn; lq Ht Hpc.
  - by apply sup_finally_live.
  - unfold sup_ensure. run_sup. destruct (fut_done _ _); lq Ht Hpc.
  - unfold sup_last, fut_set. run_sup. rewrite Hben. cbn. lq Ht Hpc.
  - unfold sup_free. run_sup. lq Ht Hpc.
  - done.
  - done.
Qed.

Definition keeps_counts (s s' : Pool) : Prop := CountInv s → CountInv s'.
#[local] Instance keeps_counts_preorder : PreOrder keeps_counts.
Proof. unfold keeps_counts. split; [by intros s|intros s s' s''; auto]. Qed.

Lemma keeps_counts_modify g : (∀ s, po_threads (g s) = po_threads s) → respects keeps_counts (modify g).
Proof.
  intros H. apply respects_modify. intros s Hs t Ht. unfold pc_of in *. rewrite H in *. by apply Hs.
Qed.

Lemma keeps_counts_set t pc : counted pc = true → respects keeps_counts (modify (set_thread t pc)).
Proof.
  intros Hpc. apply respects_modify. intros s Hs t' Ht'. unfold pc_of. cbn in *.
  rewrite length_alter in Ht'. rewrite list_lookup_total_alter. case_decide; [done|by apply Hs].
Qed.

Lemma keeps_counts_guarded t m : respects keeps_counts m → respects keeps_counts (guarded t m).
Proof.
  intros H s. unfold guarded. specialize (H s). destruct (m s) as [s' [?|?]]; [done|].
  intros Hs. by apply (keeps_counts_set t SFinally eq_refl s'), H.
Qed.
Lemma keeps_counts_ending t m : respects keeps_counts m → respects keeps_counts (ending t m).
Proof.
  intros H s. unfold ending. specialize (H s). destruct (m s) as [s' [?|?]]; [done|].
  intros Hs. by apply (keeps_counts_set t SRaised eq_refl s'), H.
Qed.

Lemma sup_step_counted t pc pid hook sent polled mem :
  counted pc = true → respects keeps_counts (sup_step cfg t pc pid hook sent polled mem).
Proof.
  intros Hpc. destruct pc; cbn [sup_step];
  unfold sup_step, sup_loop, sup_size, sup_add, sup_take, sup_got, sup_hook, sup_send, sup_raised,
    sup_publish, sup_poll, sup_done, sup_count, sup_back, sup_replace, sup_give_up, sup_finally,
    sup_ensure, sup_last, sup_free, add_worker_to_pool, fut_offer, fut_set, resume, task_done,
    worker_shutdown, goto;
  repeat first [respects_step | apply keeps_counts_guarded | apply keeps_counts_ending
    | by apply keeps_counts_modify | apply keeps_counts_set; try done].
  all: cbn in *; try (by case_match).
  - by apply Z.leb_le; lia.
  - rewrite Hpc. by apply Z.leb_le; lia.
Qed.

Lemma launch_counted (s s' : Pool) new :
  po_threads s' = po_threads s ++ new → Forall (λ x, counted (su_pc x) = true) new → CountInv s → CountInv s'.
Proof.
  intros E Hn Hs t Ht. unfold pc_of. rewrite E in *. rewrite length_app in Ht.
  destruct (Nat.lt_ge_cases t (length (po_threads s))) as [Hl|Hl].
  - rewrite lookup_total_app_l by done. by apply Hs.
  - rewrite lookup_total_app_r by done. rewrite Forall_lookup_total in Hn. apply Hn. lia.
Qed.

(** ** The other threads *)

(** The supervisors are the old ones and those that were launched. *)
Lemma lother s s' new :
  LiveInv s → po_threads s' = po_threads s ++ new → Forall (λ x, su_pc x = SLoop 10) new →
  po_shutdowns s' = po_shutdowns s → po_busy s' = po_busy s → po_idle s' = po_idle s →
  match po_runner s' with RStop | RDrain | RExit => False | _ => True end →
  Forall (λ it, is_Some (it_job it)) (po_queue s') → LiveInv s'.
Proof.
  intros [] Hth Hnew Hs Hb Hi Hr Hq.
  assert (Hold : ∀ t, (t < length (po_threads s))%nat →
    (t < length (po_threads s'))%nat ∧ pc_of s' t = pc_of s t).
  { intros t Ht. unfold pc_of. rewrite Hth, length_app, lookup_total_app_l by done. split; [lia|done]. }
  split; rewrite ?Hs, ?Hb, ?Hi; try done.
  - intros t Ht. unfold pc_of. rewrite Hth in *. rewrite length_app in Ht.
    destruct (Nat.lt_ge_cases t (length (po_threads s))) as [Hl|Hl].
    + rewrite lookup_total_app_l by done. by apply li_raised0.
    + rewrite lookup_total_app_r by done. rewrite Forall_lookup_total in Hnew. rewrite Hnew by lia. done.
  - intros w (t & Ht & He)%li_busy0. exists t. by destruct (Hold t Ht) as [? ->].
  - destruct li_supply0 as [?|(t & Ht & He)]; [by left|right]. exists t. by destruct (Hold t Ht) as [? ->].
Qed.

Lemma lsame s s' :
  LiveInv s → po_threads s' = po_threads s →
  po_shutdowns s' = po_shutdowns s → po_busy s' = po_busy s → po_idle s' = po_idle s →
  po_runner s' = po_runner s → po_queue s' = po_queue s → LiveInv s'.
Proof.
  intros HI Hth ? ? ? Hr Hq. apply (lother s s' []); try done; [by rewrite app_nil_r|..].
  - rewrite Hr. apply HI.
  - rewrite Hq. apply HI.
Qed.

Lemma runner_step_live s :
  LiveInv s → PoolInv cfg s → CountInv s →
  LiveInv (runner_step (po_runner s) s).1 ∧ CountInv (runner_step (po_runner s) s).1.
Proof.
  intros HI HP HC. pose proof HI as []. pose proof (pend_total_nonneg s).
  destruct (po_runner s) as [| |f| | |] eqn:E; cbn [runner_step]; try done.
  - unfold runner_get. run_body. unfold id. destruct (get_item s) as [[it q]|] eqn:Eg; [|done].
    destruct HP. destruct (queue_pop_spec s it q pi_heap Eg) as [_ Hp]. run_sup.
    rewrite Hp in li_jobs0. apply Forall_cons in li_jobs0 as [[f Hf] Hq]. rewrite Hf.
    split; [|exact HC]. by apply (lother s _ []); rewrite ?app_nil_r.
  - pose proof (pi_unfinished cfg s HP) as Hun. rewrite E in Hun. cbn in Hun.
    unfold runner_check. run_body. unfold id. destruct (fut_done s f).
    + unfold mbind, ST_bind. rewrite task_done_ok by lia. cbn.
      split; [|exact HC]. by apply (lother s _ []); rewrite ?app_nil_r.
    + run_sup. split.
      * apply (lother s _ [mkSup f (SLoop 10)]); try done. by constructor.
      * apply (launch_counted s _ [mkSup f (SLoop 10)]); [done| |done]. by constructor.
Qed.

Definition AllInv (s : Pool) : Prop := PoolInv cfg s ∧ WorkInv cfg s ∧ LiveInv s ∧ CountInv s.

Lemma exec_live s e :
  AllInv s → enabled cfg e s = true → benign s e → AllInv (exec e s).1.
Proof.
  intros (HP & HW & HI & HC) Hen Hb. pose proof HI as []. split_and!;
    [by apply exec_inv|by apply exec_work| |].
  - destruct e; cbn [Pool.exec]; try done.
    + unfold submit_begin. destruct (_ <? 0); [done|]. run_sup. destruct (po_closed s); [done|].
      by apply (lsame s).
    + unfold submit_put, push. run_body. unfold id.
      destruct (po_putting s !! k) as [[[f p] n]|]; [|done]. run_sup.
      apply (lother s _ []); try done; [by rewrite app_nil_r|]. cbn. destruct HP.
      rewrite (heappush_perm _ _ pi_heap). by constructor.
    + unfold submit_full. run_sup. destruct (po_putting s !! k) as [[[f p] n]|]; [|done].
      by apply (lsame s).
    + by apply runner_step_live.
    + apply andb_true_iff in Hen as [Ht%Nat.ltb_lt _]. apply sup_step_live; try done. by apply HC.
    + cbn in Hen. by rewrite li_shut0 in Hen.
    + cbn in Hen. by rewrite li_shut0 in Hen.
    + unfold fut_cancel. run_sup. case_bool_decide; [|done]. by apply (lsame s).
  - destruct e; cbn [Pool.exec]; try exact HC; try done.
    + unfold submit_begin. destruct (_ <? 0); [done|]. run_sup. destruct (po_closed s); exact HC.
    + unfold submit_put, push. run_sup. destruct (po_putting s !! k) as [[[f p] n]|]; exact HC.
    + unfold submit_full. run_sup. destruct (po_putting s !! k) as [[[f p] n]|]; exact HC.
    + by apply runner_step_live.
    + apply andb_true_iff in Hen as [Ht%Nat.ltb_lt _]. run_body. unfold id.
      apply sup_step_counted; [by apply HC|done].
    + cbn in Hen. by rewrite li_shut0 in Hen.
    + unfold fut_cancel. run_sup. case_bool_decide; exact HC.
Qed.

(** Runs whose steps are all benign. *)
Definition benign_step (s : Pool) (e : event) (s' : Pool) : Prop := pool_step s e s' ∧ benign s e.

Definition benign_reachable (s : Pool) : Prop :=
  ∃ pids es, Z.of_nat (length pids) = pool_size cfg ∧ steps benign_step (pool_init pids) es s.

Lemma benign_inv s : benign_reachable s → AllInv s.
Proof.
  intros (pids & es & Hp & Hst). eapply (steps_invariant benign_step AllInv); [| |exact Hst].
  - intros s1 e s2 HI [[Hen <-] Hb]. by apply exec_live.
  - split_and!; [by apply init_inv|apply init_work| |intros t Ht; cbn in Ht; lia].
    split; cbn; try done; try lia; [constructor|intros w Hw; by apply elem_of_nil in Hw|].
    left. destruct pids; [cbn in Hp; lia|done].
Qed.

Lemma benign_is_reachable s : benign_reachable s → reachable s.
Proof.
  intros (pids & es & Hp & Hst). exists pids, es. split; [done|].
  induction Hst as [|s l s1 ls s2 [H _]]; [constructor|by econstructor].
Qed.

(** The events that are a thread of the pool or a blocked submitter going on. *)
Definition own (e : event) : bool :=
  match e with EvPut _ | EvRunner | EvThread _ _ _ _ _ _ => true | _ => false end.

Definition ended (pc : sup_pc) : bool := match pc with SEnd => true | _ => false end.

Lemma all_ended_occ (s : Pool) :
  existsb (λ x, negb (ended (su_pc x))) (po_threads s) = false → total occ s = 0.
Proof.
  unfold total. induction (po_threads s) as [|x l IH]; [done|].
  cbn [existsb]. intros [Hx Hl%IH]%orb_false_iff. rewrite zsum_cons, Hl. by destruct (su_pc x).
Qed.

(** A supervisor that has not ended can run, or another one can. *)
Lemma supervisor_runs s t :
  LiveInv s → (t < length (po_threads s))%nat → ended (pc_of s t) = false →
  ∃ e, own e = true ∧ enabled cfg e s = true.
Proof.
  intros [] Ht Hpc.
  set (go := λ t, EvThread (V := V) t (Ok 0) Proceed None (PollError (Raise OSError "")) None).
  assert (Hgo : ∀ t, (t < length (po_threads s))%nat →
    match pc_of s t with STake _ => po_idle s ≠ [] | SEnd | SRaised => False | _ => True end →
    enabled cfg (go t) s = true).
  { intros t' Ht'%Nat.ltb_lt Hp. unfold go, enabled. rewrite Ht'. cbn. destruct (pc_of s t'); try done.
    by destruct (po_idle s). }
  pose proof (li_raised0 t Ht) as Hnr.
  destruct li_supply0 as [Hidle|(t' & Ht' & Hs)].
  - exists (go t). split; [done|]. apply Hgo; [done|]. by destruct (pc_of s t).
  - exists (go t'). split; [done|]. apply Hgo; [done|]. by destruct (pc_of s t').
Qed.

(** The pool does not deadlock: with [min_workers] at least one and after any benign run, a
    future that is not done and was not refused with [queue.Full] leaves some thread that can run. *)
Theorem pool_progress s f :
  benign_reachable s → (f < length (po_futures s))%nat → fut_done s f = false → f ∉ po_refused s →
  ∃ e, own e = true ∧ enabled cfg e s = true.
Proof.
  intros Hr Hf Hd Href. pose proof (benign_is_reachable s Hr) as Hreach.
  destruct (benign_inv s Hr) as (HP & _ & HI & _).
  destruct (existsb (λ x, negb (ended (su_pc x))) (po_threads s)) eqn:Eall.
  { apply existsb_exists in Eall as (x & Hx & Hpc%negb_true_iff).
    apply list_elem_of_In, list_elem_of_lookup in Hx as (t & Hx).
    apply (supervisor_runs s t HI); [by eapply lookup_lt_Some|].
    unfold pc_of. by rewrite (list_lookup_total_correct _ _ _ Hx). }
  pose proof (all_ended_occ s Eall) as H0. destruct HI, HP.
  destruct (po_runner s) as [| |g| | |] eqn:Er; try done.
  - exists EvRunner. split; [done|]. cbn. rewrite Er. cbn in pi_slots. lia.
  - destruct (po_queue s) as [|it q] eqn:Eq.
    + destruct (job_kept cfg Hsize s f Hreach Hf Hd Href) as [Hp|[Hq|[Hc|(t & Ht & _ & Hs)]]].
      * exists (EvPut 0). split; [done|]. cbn. unfold backlog_full. rewrite Eq.
        destruct (po_putting s); [by apply elem_of_nil in Hp|]. cbn.
        destruct (0 <? max_backlog cfg) eqn:E1; cbn; [|done].
        by rewrite (proj2 (Z.leb_gt _ _)) by lia.
      * rewrite Eq in Hq. by apply elem_of_nil in Hq.
      * congruence.
      * assert (Hends : ended (pc_of s t) = true); [|by destruct (pc_of s t)].
        destruct (ended (pc_of s t)) eqn:Ee; [done|].
        assert (existsb (λ x, negb (ended (su_pc x))) (po_threads s) = true) as Hx; [|congruence].
        apply existsb_exists. exists (po_threads s !!! t). split.
        -- apply list_elem_of_In. by apply list_elem_of_lookup_total_2.
        -- unfold pc_of in Ee. by rewrite Ee.
    + exists EvRunner. split; [done|]. cbn. by rewrite Er, Eq.
  - exists EvRunner. split; [done|]. cbn. by rewrite Er.
Qed.
End Progress.

(** ** What a poll does *)
Section Poll.
Context {V : Type} {HQ : HeapQ Item item_le}.
Notation Pool := (Pool (V := V)).

(** The outcome that a poll has for the future, and how often it counts as a failure. *)
Definition poll_reply (res : poll_result) : option (reply V) :=
  match res with
  | Results r => Some r
  | Eof e | RecvError e | Dead e => Some (RError e)
  | PollError _ => None
  end.

Definition poll_failures (res : poll_result (V := V)) : Z :=
  match res with
  | Results (RValue _) | PollError _ => 0
  | Results (RError e) => if isinstance e PoolTimeoutError then 2 else 1
  | Eof _ | RecvError _ | Dead _ => 1
  end.

(** A poll that ends the wait gives the future what the worker sent, or the exception that
    tells how it died, unless the future is done; it counts every failure once but a timeout
    twice, and a timeout is what makes the worker unfit. *)
Theorem poll_outcome s t w res r :
  (t < length (po_threads s))%nat → (job_of s t < length (po_futures s))%nat → poll_reply res = Some r →
  let s' := (sup_poll t w res s).1 in
  pc_of s' t = SDone w AReturn ∧
  future s' (job_of s t) =
    (if fut_done s (job_of s t) then future s (job_of s t)
     else mkPoolFuture FutureState.FINISHED (pf_pid (future s (job_of s t))) (Some r)) ∧
  tasks_failed (po_statistics s') = tasks_failed (po_statistics s) + poll_failures res ∧
  wk_ok (worker s' w) = wk_ok (worker s w) &&
    match r with RError e => negb (isinstance e PoolTimeoutError) || (if res is Results _ then false else true)
    | RValue _ => true end.
Proof.
  intros Ht Hf Hr. unfold sup_poll, fut_offer, fut_set, stat_failed. run_sup.
  assert (Hpc : ∀ s1 : Pool, po_threads s1 = po_threads s →
    pc_of (set_thread t (SDone w AReturn) s1) t = SDone w AReturn).
  { intros s1 E. unfold pc_of. cbn. rewrite E. by rewrite list_lookup_total_alter_eq. }
  assert (Hd : fut_done s (job_of s t) = true ∨ fut_done s (job_of s t) = false)
    by (destruct (fut_done _ _); auto).
  destruct res as [[v|e]|e|e|e|e]; cbn in Hr; simplify_eq; cbn;
    try destruct (isinstance e PoolTimeoutError) eqn:Et; cbn;
    unfold fut_done, future, worker in *; cbn in *; destruct Hd as [Hd|Hd]; rewrite ?Hd; cbn;
    rewrite ?Hd; cbn; (split; [by apply Hpc|]); cbn.
  all: rewrite ?list_lookup_total_alter_eq by done; rewrite ?andb_true_r, ?andb_false_r.
  all: split_and!; try done; try lia.
  all: rewrite list_lookup_total_alter; case_decide as Hx; [done|].
  all: rewrite list_lookup_total_alt, (proj2 (lookup_ge_None _ _)); [done|].
  all: destruct (Nat.lt_ge_cases w (length (po_workers s))); [|done]; destruct Hx; done.
Qed.
End Poll.

Import (hints) PoolDemo.
#[local] Opaque PoolDemo.after.

(** ** Pools that stop *)

(** A pool of one worker; the job of the first supervisor cannot be pickled, which
    [pickle] reports as a [TypeError]; a second job waits for the worker. *)
Definition cannot_pickle : exn := Raise TypeError "cannot pickle '_thread.lock' object".
Definition unsendable : event (V := Z) := EvThread 0 (Ok 200) Proceed (Some cannot_pickle) (Results (RValue 0)) None.
Definition wedge : list (event (V := Z)) :=
  PoolDemo.launch 0 ++ repeat (PoolDemo.sup 0) 5 ++ [unsendable] ++ repeat (PoolDemo.sup 0) 4 ++
  PoolDemo.launch 0 ++ repeat (PoolDemo.sup 1) 2.

(** The one slot is taken by a supervisor that waits for a worker, and there is none. *)
Record Wedged (s : Pool (V := Z)) : Prop := {
  wd_idle : po_idle s = [];
  wd_shut : po_shutdowns s = [];
  wd_runner : po_runner s = RSlot;
  wd_running : po_running s = 1;
  wd_threads : po_threads s = [mkSup 0 SEnd; mkSup 1 (STake 9)];
  wd_futures : ∀ f, (1 ≤ f)%nat → pf_state (future s f) ≠ FutureState.FINISHED }.

Definition no_shutdown (e : event (V := Z)) : Prop := match e with EvShutdown _ _ => False | _ => True end.

Lemma wedged_step s e s' :
  Wedged s → no_shutdown e → pool_step (PoolDemo.cfg 1 1) s e s' → Wedged s'.
Proof.
  intros [] Hns [Hen <-]. destruct e; cbn [Pool.exec]; try done.
  - unfold submit_begin. destruct (_ <? 0); [done|]. run_sup. destruct (po_closed s); [done|].
    split; try done. intros f Hf. unfold future. cbn.
    destruct (Nat.lt_ge_cases f (length (po_futures s))).
    + rewrite lookup_total_app_l by done. by apply wd_futures0.
    + rewrite lookup_total_app_r by done. by destruct (f - _)%nat as [|[]].
  - unfold submit_put, push. run_sup. destruct (po_putting s !! k) as [[[f p] n]|]; done.
  - unfold submit_full. run_sup. destruct (po_putting s !! k) as [[[f p] n]|]; done.
  - cbn in Hen. rewrite wd_runner0, wd_running0 in Hen. done.
  - exfalso. cbn in Hen. unfold pc_of in Hen. rewrite wd_threads0, wd_idle0 in Hen. cbn in Hen.
    destruct t as [|[|t]]; cbn in Hen; try done.
  - cbn in Hen. by rewrite wd_shut0 in Hen.
  - cbn in Hen. by rewrite wd_shut0 in Hen.
  - unfold fut_cancel. run_sup. case_bool_decide; [|done]. split; try done. intros g Hg. unfold future. cbn.
    rewrite list_lookup_total_alter. case_decide; [done|]. by apply wd_futures0.
  - unfold clear_worker. run_sup. by rewrite wd_idle0.
Qed.

Lemma wedge_reached : reachable (PoolDemo.cfg 1 1) (PoolDemo.after 1 1 wedge).
Proof. apply PoolDemo.pool_reached; vm_compute; done. Qed.

Lemma wedge_wedged : Wedged (PoolDemo.after 1 1 wedge).
Proof.
  split; try (vm_compute; done). intros [|[|f]] Hf; [lia|vm_compute; done|].
  replace (future (PoolDemo.after 1 1 wedge) (S (S f))) with (mkPoolFuture (V := Z) FutureState.CANCELLED None None); [done|].
  unfold future. rewrite list_lookup_total_alt, (proj2 (lookup_ge_None _ _)); [done|].
  replace (length (po_futures (PoolDemo.after 1 1 wedge))) with 2%nat by (vm_compute; done). lia.
Qed.

(** A job that [pickle] rejects with another exception than [PicklingError] or
    [AttributeError] costs the pool its worker: [run_task] leaves it in [busy_workers], where
    it counts against [max_workers] for ever. A pool of one worker never again finishes a job,
    whatever happens short of a [shutdown]; the jobs submitted later can only be cancelled. *)
Theorem unpicklable_job_wedges_pool es s' f :
  steps (pool_step (PoolDemo.cfg 1 1)) (PoolDemo.after 1 1 wedge) es s' →
  Forall no_shutdown es → (1 ≤ f)%nat → pf_state (future s' f) ≠ FutureState.FINISHED.
Proof.
  intros Hst Hns Hf. enough (Wedged s') as []; [by apply wd_futures0|].
  pose proof wedge_wedged as Hw. revert Hw. generalize dependent (PoolDemo.after 1 1 wedge).
  induction 1 as [s|s e s1 es s2 Hs Hst IH]; intros HW; [done|].
  apply Forall_cons in Hns as [He Hns]. apply IH; [done|]. by eapply wedged_step.
Qed.

Lemma unpicklable_job_wedges_pool_witness :
  reachable (PoolDemo.cfg 1 1) (PoolDemo.after 1 1 wedge) ∧
  let s' := PoolDemo.after 1 1 (wedge ++ [EvSubmit 0; EvPut 0]) in
  po_busy s' = [0%nat] ∧ pf_state (future s' 2) ≠ FutureState.FINISHED.
Proof.
  split; [apply wedge_reached|]. intros s'. split; [vm_compute; done|].
  apply (unpicklable_job_wedges_pool [EvSubmit 0; EvPut 0] s' 2); [|repeat constructor|lia].
  apply pool_run_steps. vm_compute. done.
Defined.

(** A pool that keeps no worker: the first job shrinks it to one, the next two both see it
    idle and neither adds one; the first takes it and retires it. *)
Definition stall : list (event (V := Z)) :=
  PoolDemo.launch 0 ++ PoolDemo.to_the_end 0 ++
  [EvSubmit 0; EvPut 0; EvSubmit 0; EvPut 0] ++ repeat EvRunner 6 ++
  repeat (PoolDemo.sup 1) 2 ++ repeat (PoolDemo.sup 2) 2 ++ repeat (PoolDemo.sup 1) 12 ++ [EvRunner].

(** With [min_workers=0] two concurrent jobs can stall the pool: both count the one idle
    worker and wait for it, the first retires it when it is done, and no thread of the pool can
    run although the second job has not been done. *)
Theorem min_workers_zero_stalls :
  let s := PoolDemo.after 2 0 stall in
  reachable (PoolDemo.cfg 2 0) s ∧ (2 < length (po_futures s))%nat ∧ fut_done s 2 = false ∧
  ∀ e, own e = true → enabled (PoolDemo.cfg 2 0) e s = false.
Proof.
  intros s. assert (Hr : po_runner s = RGet) by (vm_compute; done).
  assert (Hq : po_queue s = []) by (vm_compute; done).
  assert (Hp : po_putting s = []) by (vm_compute; done).
  assert (Hi : po_idle s = []) by (vm_compute; done).
  assert (Ht : po_threads s = [mkSup 0 SEnd; mkSup 1 SEnd; mkSup 2 (STake 9)]) by (vm_compute; done).
  split_and!; [apply PoolDemo.pool_reached; vm_compute; done|vm_compute; lia|vm_compute; done|].
  clearbody s. intros e He. destruct e; try done; cbn.
  - by rewrite Hp.
  - by rewrite Hr, Hq.
  - unfold pc_of. rewrite Ht, Hi. cbn. by destruct t as [|[|[|t]]].
Qed.

Lemma pool_progress_witness :
  ∃ e : event (V := Z), own e = true ∧
    enabled (PoolDemo.cfg 1 1) e (PoolDemo.after 1 1 (PoolDemo.launch 3)) = true.
Proof.
  apply (pool_progress (PoolDemo.cfg 1 1) eq_refl ltac:(vm_compute; done) _ 0%nat).
  - exists [100], (PoolDemo.launch 3). split; [done|].
    assert (H : ∀ s es s', run (PoolDemo.cfg 1 1) s es = Some s' → Forall (λ e, no_shutdown e ∧ match e with EvThread _ _ _ _ _ _ | EvClear => False | _ => True end) es →
      steps (benign_step (PoolDemo.cfg 1 1)) s es s').
    { intros s es. revert s. induction es as [|e es IH]; cbn; intros s s' Hrun Hall.
      - injection Hrun as <-. constructor.
      - destruct (enabled _ e s) eqn:E; [|done]. apply Forall_cons in Hall as [[He1 He2] Hall].
        econstructor; [|by apply IH]. split; [by split|]. by destruct e. }
    apply H; [vm_compute; done|repeat constructor].
  - vm_compute; lia.
  - vm_compute; done.
  - replace (po_refused (PoolDemo.after 1 1 (PoolDemo.launch 3))) with (@nil nat) by (vm_compute; done).
    apply not_elem_of_nil.
Defined.

Lemma poll_outcome_witness :
  let s := PoolDemo.after 2 1 (PoolDemo.launch 3 ++ PoolDemo.until_wait 0) in
  let s' := (sup_poll 0 0 (Results (RError (Raise PoolTimeoutError "late"))) s).1 in
  tasks_failed (po_statistics s') = tasks_failed (po_statistics s) + 2 ∧ wk_ok (worker s' 0) = false.
Proof.
  intros s s'.
  destruct (poll_outcome s 0 0 (Results (RError (Raise PoolTimeoutError "late"))) (RError (Raise PoolTimeoutError "late")))
    as (_ & _ & H1 & H2); [vm_compute; lia|vm_compute; lia|done|].
  split; [exact H1|]. unfold s'. rewrite H2. vm_compute. done.
Defined.
