(* ===== verification/PoolTrack.v ===== *)
(** * PoolTrack: which futures the pool may touch

    What the threads of the pool do on their own concerns the jobs they know: those of
    the backlog, the runner, the supervisors and the lists of running futures. No step
    changes another future, none makes a job known that was not, and a job is sent to a
    worker only after its hook agreed. [Node.v] needs this to share futures between the
    pool and the server. *)
From S2P Require Import Prelude Errors Futures StateErr Heapq Pool PoolProps.

(** The job has been or is being sent to a worker. *)
Definition sending (pc : sup_pc) : bool :=
  match pc with SSend _ _ | SPublish _ | SWait _ => true | _ => false end.

Section Track.
Context {V : Type} {HQ : HeapQ Item item_le}.
Context (cfg : PoolConfig).
Notation Pool := (Pool (V := V)).
Notation exec := (exec (V := V) cfg).
Notation event := (event (V := V)).
Notation PoolFuture := (PoolFuture V).

(** The future of a job is left alone, ended with an outcome, or cancelled. *)
Definition moves (x y : PoolFuture) : Prop :=
  (pf_state y = pf_state x ∧ pf_value y = pf_value x) ∨
  (FutureState.done (pf_state x) = false ∧ pf_state y = FutureState.FINISHED ∧
    is_Some (pf_value y)) ∨
  (pf_state x = FutureState.PENDING ∧ pf_state y = FutureState.CANCELLED).

#[export] Instance moves_preorder : PreOrder moves.
Proof.
  split; [by left|]. intros x y z H K. unfold moves in *.
  destruct H as [[H1 H2]|[(H1 & H2 & H3)|[H1 H2]]].
  - rewrite H1, H2 in K. exact K.
  - right; left. destruct K as [[K1 K2]|[(K1 & _)|[K1 _]]]; [|by rewrite H2 in K1|congruence].
    split_and!; [done|congruence|by rewrite K2].
  - right; right. destruct K as [[K1 _]|[(K1 & _)|[K1 _]]]; [|by rewrite H2 in K1|congruence].
    split; [done|congruence].
Qed.

(** A job some thread of the pool can find. *)
Definition knows (s : Pool) (i : nat) : Prop :=
  Some i ∈ it_job <$> po_queue s ∨ po_runner s = RCheck i ∨ i ∈ su_future <$> po_threads s ∨
  i ∈ po_running_futs s ∨ ∃ l, HKill l ∈ po_shutdowns s ∧ i ∈ l.

(** One step, with the jobs it may touch, the supervisors that may be sending after it
    and the supervisor that takes it. *)
Section Within.
Context (K : nat → Prop) (T : nat → Prop) (t0 : option nat).

Record good (s : Pool) : Prop := {
  gd_heap : is_heap (po_queue s);
  gd_knows i : knows s i → K i;
  gd_self t : t0 = Some t → K (job_of s t);
  gd_sending t : sending (pc_of s t) = true → T t }.

Record tracks (s s' : Pool) : Prop := {
  tk_length : length (po_futures s') = length (po_futures s);
  tk_future i : future s' i = future s i ∨ K i ∧ moves (future s i) (future s' i);
  tk_putting : po_putting s' = po_putting s;
  tk_refused : po_refused s' = po_refused s;
  tk_threads : (length (po_threads s) ≤ length (po_threads s'))%nat;
  tk_job t : (t < length (po_threads s))%nat → job_of s' t = job_of s t }.

Definition within (s s' : Pool) : Prop := good s → good s' ∧ tracks s s'.

#[export] Instance within_preorder : PreOrder within.
Proof.
  split; [by intros s Hg; split; [|split; auto]|].
  intros s s' s'' H H' Hg. destruct (H Hg) as [Hg' []]. destruct (H' Hg') as [Hg'' []].
  split; [done|]. split; [congruence| |congruence|congruence|lia|].
  - intros i. destruct (tk_future0 i) as [E|[Hk Hm]], (tk_future1 i) as [E'|[Hk' Hm']].
    + left. congruence.
    + right. by rewrite <- E.
    + right. by rewrite E'.
    + right. split; [done|]. by etransitivity.
  - intros t Ht. rewrite tk_job1 by lia. by apply tk_job0.
Qed.

Lemma within_assume s s' : (good s → within s s') → within s s'.
Proof. intros H Hg. by apply H. Qed.

(** A body that reads the state first may use what is known of it. *)
Lemma within_read {A} (f : Pool → ST Pool A) :
  (∀ s, good s → respects within (f s)) → respects within (gets id ≫= f).
Proof. intros H s Hg. rewrite run_gets. by apply H. Qed.

Lemma within_modify g :
  (∀ s, po_futures (g s) = po_futures s ∧ po_queue (g s) = po_queue s ∧
    po_runner (g s) = po_runner s ∧ po_threads (g s) = po_threads s ∧
    po_running_futs (g s) = po_running_futs s ∧ po_shutdowns (g s) = po_shutdowns s ∧
    po_putting (g s) = po_putting s ∧ po_refused (g s) = po_refused s) →
  respects within (modify g).
Proof.
  intros Hg s. simpl. destruct (Hg s) as (E1 & E2 & E3 & E4 & E5 & E6 & E7 & E8).
  intros [H1 H2 H3 H4]. split.
  - split; [by rewrite E2| |unfold job_of; by rewrite E4|unfold pc_of; by rewrite E4].
    intros i. unfold knows. rewrite E2, E3, E4, E5, E6. apply H2.
  - split; try done; [by rewrite E1| |by rewrite E4|unfold job_of; by rewrite E4].
    intros i. left. unfold future. by rewrite E1.
Qed.

(** Changes of what is known. *)
Lemma within_knows s s' :
  is_heap (po_queue s') → po_futures s' = po_futures s → po_threads s' = po_threads s →
  po_putting s' = po_putting s → po_refused s' = po_refused s →
  (good s → ∀ i, knows s' i → knows s i ∨ K i) → within s s'.
Proof.
  intros Hh Ef Et Ep Er Hk Hg. specialize (Hk Hg). destruct Hg as [H1 H2 H3 H4]. split.
  - split; [done| |unfold job_of; by rewrite Et|unfold pc_of; by rewrite Et].
    intros i Hi. destruct (Hk i Hi); auto.
  - split; try done; [by rewrite Ef| |by rewrite Et|unfold job_of; by rewrite Et].
    intros i. left. unfold future. by rewrite Ef.
Qed.

Lemma within_set_thread t pc s :
  (good s → sending pc = true → T t) → within s (set_thread t pc s).
Proof.
  intros Hpc Hg. specialize (Hpc Hg). destruct Hg as [H1 H2 H3 H4].
  assert (Hj : ∀ t', job_of (set_thread t pc s) t' = job_of s t').
  { intros t'. unfold job_of. simpl. rewrite list_lookup_total_alter.
    case_decide as Hd; [by destruct Hd as [<- _]|done]. }
  split; [split; [done| | |]|split; auto; simpl; by rewrite length_alter].
  - intros i Hi. apply H2. unfold knows in *. simpl in Hi.
    assert (E : su_future <$> alter (λ x, mkSup (su_future x) pc) t (po_threads s) =
      su_future <$> po_threads s); [|by rewrite E in Hi].
    apply list_eq. intros k. rewrite !list_lookup_fmap, list_lookup_alter.
    case_decide; [subst|done]. by destruct (po_threads s !! k).
  - intros t' Ht. rewrite Hj. by apply H3.
  - intros t'. unfold pc_of in *. simpl. rewrite list_lookup_total_alter.
    case_decide as Hd; [|apply H4]. destruct Hd as [<- _]. exact Hpc.
Qed.

Lemma within_set_future f g s :
  (good s → K f) → moves (future s f) (g (future s f)) → within s (set_future f g s).
Proof.
  intros Hk Hm Hg. specialize (Hk Hg). destruct Hg as [H1 H2 H3 H4]. split; [by split|].
  split; try done; [simpl; by rewrite length_alter|]. intros i. unfold future in *. simpl.
  rewrite list_lookup_total_alter. case_decide as Hd; [|by left]. destruct Hd as [<- _]. by right.
Qed.

Lemma within_fut_set f r : K f → respects within (fut_set f r).
Proof.
  intros Hf s. unfold fut_set. rewrite run_gets. unfold id.
  destruct (fut_done s f) eqn:E; [reflexivity|]. apply within_set_future; [done|].
  right; left. split_and!; [exact E|done|by eexists].
Qed.

Lemma within_fut_cancel f : K f → respects within (fut_cancel f).
Proof.
  intros Hf s. unfold fut_cancel. rewrite run_gets. unfold id.
  case_bool_decide as E; [|reflexivity]. apply within_set_future; [done|]. by right; right.
Qed.

Lemma within_guarded t m : respects within m → respects within (guarded t m).
Proof.
  intros H s. unfold guarded. specialize (H s). destruct (m s) as [s' [?|?]]; [done|].
  etransitivity; [exact H|by apply within_set_thread].
Qed.
Lemma within_ending t m : respects within m → respects within (ending t m).
Proof.
  intros H s. unfold ending. specialize (H s). destruct (m s) as [s' [?|?]]; [done|].
  etransitivity; [exact H|by apply within_set_thread].
Qed.
Lemma within_goto t pc : (sending pc = true → T t) → respects within (goto t pc).
Proof. intros H s. by apply within_set_thread. Qed.

#[local] Ltac track_leaf := by apply within_modify.
#[local] Ltac track :=
  repeat first
    [match goal with |- respects _ (mbind _ (gets id)) => apply within_read; intros ? ? end
    | respects_step | apply within_guarded
    | apply within_ending | apply within_goto
    | match goal with |- respects _ (modify _) => track_leaf end].

Lemma within_task_done : respects within task_done.
Proof. unfold task_done. track. Qed.

Lemma within_pop s it q :
  good s → get_item s = Some (it, q) → within s (set_queue (λ _, q) s) ∧
    ∀ f, it_job it = Some f → K f.
Proof.
  intros Hg E. destruct (queue_pop_spec s it q (gd_heap _ Hg) E) as [Hh Hp]. split.
  - apply within_knows; try done. intros _ i Hi. left. unfold knows in *. simpl in Hi.
    destruct Hi as [Hi|?]; [left|by right]. rewrite Hp. by right.
  - intros f Hf. apply (gd_knows _ Hg). left. rewrite Hp, <- Hf. by left.
Qed.

Lemma within_cancel_queued_one : respects within cancel_queued_one.
Proof.
  intros s. unfold cancel_queued_one. rewrite run_gets. unfold id.
  destruct (get_item s) as [[it q]|] eqn:E; [|reflexivity].
  apply within_assume. intros Hg. destruct (within_pop s it q Hg E) as [Hw Hk]. rewrite run_modify.
  etransitivity; [exact Hw|].
  match goal with |- within ?s1 (?m ?s1).1 => assert (H : respects within m); [|apply H] end.
  respects_step; [apply within_task_done|]. destruct (it_job it) as [f|]; [|track].
  track. by apply within_fut_cancel, Hk.
Qed.

Lemma within_kill f : K f → respects within (fut_cancel_and_kill f).
Proof. intros Hf. unfold fut_cancel_and_kill. track. by apply within_fut_cancel. Qed.

Lemma within_offer f r : K f → respects within (fut_offer f r).
Proof. intros Hf. unfold fut_offer. track. by apply within_fut_set. Qed.

Lemma within_add_worker pid : respects within (add_worker_to_pool pid).
Proof. unfold add_worker_to_pool. track. Qed.

Lemma within_resume t nx : respects within (resume t nx).
Proof. unfold resume. track; done. Qed.

Lemma within_raised t n w e : t0 = Some t → respects within (sup_raised t n w e).
Proof.
  intros Ht. unfold sup_raised. track; try done. apply within_fut_set. by eapply gd_self.
Qed.

(** *** The supervisors *)

Lemma within_publish t w :
  t0 = Some t → T t → respects within (sup_publish t w).
Proof.
  intros Ht HT. unfold sup_publish. apply within_read. intros s Hs.
  pose proof (gd_self _ Hs t Ht) as Hk. respects_step.
  { intros s1. apply within_set_future; [done|by left]. }
  respects_step; [|by apply within_goto].
  intros s1. apply within_assume. intros [Hh _ _ _]. apply within_knows; try done.
  intros _ i Hi. unfold knows in *. simpl in Hi.
  destruct Hi as [?|[?|[?|[Hi|?]]]]; [by left; auto..| |by left; auto 6].
  unfold set_add in Hi. case_bool_decide; [left; auto 6|].
  apply elem_of_app in Hi as [?|Hi%list_elem_of_singleton]; [left; auto 6|]. subst. by right.
Qed.

Lemma within_poll t w res : t0 = Some t → respects within (sup_poll t w res).
Proof.
  intros Ht. unfold sup_poll. apply within_read. intros s Hs.
  pose proof (gd_self _ Hs t Ht) as Hk. apply within_guarded. track; try done.
  all: by apply within_offer.
Qed.

Lemma within_sup_step t pc pid hook sent polled mem :
  t0 = Some t → (sending pc = true → T t) →
  match pc, hook with SHook _ _, Proceed => T t | _, _ => True end →
  respects within (sup_step cfg t pc pid hook sent polled mem).
Proof.
  intros Ht Hs Hh. destruct pc; cbn [sup_step]; simpl in Hs.
  all: unfold sup_loop, sup_size, sup_add, sup_take, sup_got, sup_done, sup_count, sup_back,
    sup_replace, sup_give_up, sup_finally, sup_ensure, sup_last, sup_free, worker_shutdown.
  - track; done.
  - track. by destruct (_ && _).
  - track; [apply within_add_worker|done].
  - track. done.
  - track. done.
  - unfold sup_hook. destruct hook; [by apply within_goto|by apply within_goto|].
    by apply within_raised.
  - unfold sup_send. track; [by apply within_raised|by intros _; apply Hs].
  - apply within_publish; [done|by apply Hs].
  - by apply within_poll.
  - track. done.
  - track. done.
  - track; first [apply within_resume|done].
  - track; [apply within_add_worker|apply within_resume].
  - track; [apply within_fut_set; by eapply gd_self|done].
  - track; [apply within_task_done|done].
  - track. by destruct (fut_done _ _).
  - track; [apply within_fut_set; by eapply gd_self|done].
  - track. done.
  - track.
  - track.
Qed.

(** *** The runner and [shutdown] *)

Lemma within_set_runner pc :
  (∀ f, pc = RCheck f → K f) → respects within (modify (set_runner pc)).
Proof.
  intros Hpc s. apply within_assume. intros [Hh _ _ _]. apply within_knows; try done.
  intros _ i Hi. unfold knows in *. simpl in Hi. destruct Hi as [?|[Hi|?]]; auto.
Qed.

Lemma within_add_thread f : K f → respects within (modify (add_thread f)).
Proof.
  intros Hf s [H1 H2 H3 H4]. split; [split; simpl; try done|split; try done].
  - intros i Hi. unfold knows in *. simpl in Hi. rewrite fmap_app in Hi.
    destruct Hi as [?|[?|[Hi|?]]]; [apply H2; auto|apply H2; auto| |apply H2; auto].
    apply elem_of_app in Hi as [?|Hi%list_elem_of_singleton]; [apply H2; auto|]. by subst.
  - intros t Ht. pose proof (H3 t Ht) as Hk. unfold job_of in *. simpl.
    destruct (Nat.lt_ge_cases t (length (po_threads s))).
    + by rewrite lookup_total_app_l.
    + rewrite lookup_total_app_r by done. destruct (t - _)%nat as [|[]]; [done|..].
      all: by rewrite list_lookup_total_alt, lookup_ge_None_2 in Hk.
  - intros t. pose proof (H4 t) as Hk. unfold pc_of in *. simpl.
    destruct (Nat.lt_ge_cases t (length (po_threads s))).
    + by rewrite lookup_total_app_l.
    + rewrite lookup_total_app_r by done. by destruct (t - _)%nat as [|[]].
  - intros i. by left.
  - simpl. rewrite length_app. lia.
  - intros t Ht. unfold job_of. simpl. by rewrite lookup_total_app_l.
Qed.

Lemma within_runner_step pc :
  (∀ f, pc = RCheck f → K f) → respects within (runner_step pc).
Proof.
  intros Hpc. destruct pc; cbn [runner_step].
  - unfold runner_slot. track. by apply within_set_runner.
  - intros s. unfold runner_get. rewrite run_gets. unfold id.
    destruct (get_item s) as [[it q]|] eqn:E; [|reflexivity].
    apply within_assume. intros Hg. destruct (within_pop s it q Hg E) as [Hw Hk].
    rewrite run_modify. etransitivity; [exact Hw|]. apply within_set_runner.
    intros f Hf. apply Hk. destruct (it_job it); congruence.
  - unfold runner_check. track; try apply within_task_done; try by apply within_set_runner.
    by apply within_add_thread, Hpc.
  - unfold runner_stop. track; [apply within_task_done|by apply within_set_runner].
  - intros s. unfold runner_drain. pose proof (within_cancel_queued_one s) as H.
    destruct (cancel_queued_one s) as [s' [[|]|?]]; try done;
      (etransitivity; [exact H|by apply (within_set_runner RExit)]).
  - apply respects_skip. apply _.
Qed.

Lemma within_set_shutdown h pc :
  (∀ l i, pc = HKill l → i ∈ l → K i) → respects within (modify (set_shutdown h pc)).
Proof.
  intros Hpc s. apply within_assume. intros [Hh _ _ _]. apply within_knows; try done.
  intros _ i Hi. unfold knows in *. simpl in Hi.
  destruct Hi as [?|[?|[?|[?|(l & Hl & Hi)]]]]; [left; auto 6..|].
  apply list_elem_of_lookup in Hl as [k Hl]. rewrite list_lookup_alter in Hl. case_decide as Hd.
  - apply fmap_Some in Hl as (x & _ & Hx). right. by eapply Hpc.
  - left. do 4 right. exists l. split; [by eapply list_elem_of_lookup_2|done].
Qed.

Lemma within_shut_step h pc :
  (∀ l i, pc = HKill l → i ∈ l → K i) → respects within (shut_step h pc).
Proof.
  intros Hpc. destruct pc as [wt c|wt c|wt c|wt c|fs| | | | |]; cbn [shut_step].
  - unfold shutdown_close. track. apply within_set_shutdown. by destruct c.
  - intros s. unfold shutdown_drain. pose proof (within_cancel_queued_one s) as H.
    destruct (cancel_queued_one s) as [s' [[|]|?]]; try done;
      (etransitivity; [exact H|]); [by apply (within_set_shutdown h (HPut wt c))
        |by apply (within_set_shutdown h (HRaised e))].
  - intros s. apply within_assume. intros [Hh _ _ _]. unfold shutdown_put, push.
    rewrite run_gets, run_assoc, run_modify, run_assoc, run_gets, run_modify.
    set (it := mkItem _ None _).
    transitivity (set_queue (λ q, heappush q it) s).
    + apply within_knows; try done; [by apply heappush_heap|]. intros _ i Hi. left.
      unfold knows in *. simpl in Hi. destruct Hi as [Hi|?]; [left|by right].
      rewrite (heappush_perm _ it Hh) in Hi. by apply elem_of_cons in Hi as [|].
    + match goal with |- within ?s1 (_ (set_unfinished ?n ?s1)).1 =>
        transitivity (set_unfinished n s1); [by apply (within_modify (set_unfinished n))|] end.
      match goal with |- within ?s1 (?m ?s1).1 => assert (H : respects within m); [|apply H] end.
      track. by apply within_set_shutdown.
  - unfold shutdown_list. apply within_read. intros s Hs. apply within_set_shutdown.
    intros l i Hl Hi. apply (gd_knows _ Hs). do 3 right. left.
    destruct (negb wt && c); injection Hl as <-; [done|by apply elem_of_nil in Hi].
  - unfold shutdown_kill. destruct fs as [|f fs]; [by apply within_set_shutdown|].
    track; [apply within_kill, (Hpc (f :: fs)); [done|by left]|].
    apply within_set_shutdown. intros l i [= <-] Hi. apply (Hpc (f :: fs)); [done|by right].
  - by apply within_set_shutdown.
  - unfold shutdown_idle, worker_shutdown. track. by apply within_set_shutdown.
  - unfold shutdown_busy, worker_shutdown. track. by apply within_set_shutdown.
  - apply respects_skip. apply _.
  - apply respects_skip. apply _.
Qed.

Lemma within_clear : respects within clear_worker.
Proof. unfold clear_worker, worker_shutdown. track. Qed.
End Within.

(** ** One step of the pool on its own *)

(** The submitters and whoever cancels are the client's threads. *)
Definition own_event (e : event) : bool :=
  match e with EvSubmit _ | EvPut _ | EvPutFull _ | EvCancel _ => false | _ => true end.

(** The supervisors that may be sending after the step. *)
Definition may_send (s : Pool) (e : event) (t : nat) : Prop :=
  sending (pc_of s t) = true ∨
  match e with
  | EvThread t' _ Proceed _ _ _ => t = t' ∧ ∃ n w, pc_of s t = SHook n w
  | _ => False
  end.

Definition self (e : event) : option nat := match e with EvThread t _ _ _ _ _ => Some t | _ => None end.

Lemma own_step_within s e :
  is_heap (po_queue s) → own_event e = true → enabled cfg e s = true →
  within (knows s) (may_send s e) (self e) s (exec e s).1.
Proof.
  intros Hh Hown Hen. apply within_assume. intros Hg. destruct e; try discriminate Hown; cbn [Pool.exec self].
  - rewrite run_gets. apply within_runner_step. intros f Hf. right; left. exact Hf.
  - rewrite run_gets. apply within_sup_step; [done|by left|].
    destruct (pc_of (id s) t) eqn:E; try done. destruct hook; try done. right. eauto.
  - unfold shutdown_begin. rewrite run_gets. unfold id. destruct (po_closed s); [reflexivity|].
    apply within_knows; try done. intros _ i Hi. left. unfold knows in *. simpl in Hi.
    destruct Hi as [?|[?|[?|[?|(l & Hl & Hi)]]]]; [auto 6..|]. do 4 right. exists l.
    split; [|done]. apply elem_of_app in Hl as [|Hl%list_elem_of_singleton]; done.
  - rewrite run_gets. apply within_shut_step. intros l i Hl Hi. do 4 right. exists l.
    split; [|done]. rewrite <- Hl. apply list_elem_of_lookup_total_2.
    cbn in Hen. apply andb_true_iff in Hen as [Hlt%Nat.ltb_lt _]. exact Hlt.
  - unfold shutdown_full. rewrite run_modify, run_modify.
    match goal with |- within _ _ _ s (_ (set_shutdown ?h ?pc ?s1)).1 =>
      transitivity s1; [by apply (within_modify _ _ _ (λ s, {| s with po_sequence := po_sequence s + 1 |}))
                       |by apply (within_set_shutdown _ _ _ h pc)] end.
  - apply within_clear.
  - by apply within_modify.
Qed.

(** What such a step does to the futures and to what the pool knows. *)
Lemma own_step_tracks s e :
  is_heap (po_queue s) → own_event e = true → enabled cfg e s = true →
  let s' := (exec e s).1 in
  (∀ i, knows s' i → knows s i) ∧
  (∀ t, sending (pc_of s' t) = true → may_send s e t) ∧
  tracks (knows s) s s'.
Proof.
  intros Hh Hown Hen s'. destruct (own_step_within s e Hh Hown Hen) as [[] ?]; [|done].
  split; [done|auto| |by left]. intros t Ht. right; right; left. destruct e; try discriminate Ht.
  injection Ht as <-. cbn in Hen. apply andb_true_iff in Hen as [Hlt%Nat.ltb_lt _].
  apply list_elem_of_fmap. exists (po_threads s !!! t0). split; [done|].
  by apply list_elem_of_lookup_total_2.
Qed.
End Track.
