(* ===== verification/RawRunner.v ===== *)
(** * RawRunner: the process side of the local pool ([raw_runner2] of [_pool.py])

    The loop of a worker process over what its pipe delivers, and what it sends back.
    Running the job, pickling, the pipe and the timer are the environment: a job comes
    with what happens when it runs. The killing of the process tree is the last state. *)
From S2P Require Import Prelude Errors Pool.

Section RawRunner.
Context {V : Type}.

(** What calling the function does: it returns a value, which may or may not be
    picklable; it raises an exception, which may or may not be picklable and whose
    description may raise in turn; or it does not end in time. *)
Inductive call :=
  | Returns (v : V) (picklable : bool)
  | Raises (e : exn) (picklable : bool) (describable : bool)
  | Overruns.

(** A job: whether it has a timeout, its call, and whether the pipe takes the reply. *)
Record job := mkJob { jb_timeout : bool; jb_call : call; jb_pipe : bool }.

(** What [recv] delivers. *)
Inductive received := RecvJob (j : job) | RecvNone | RecvEof | RecvInterrupt | RecvFails.

(** Where the process is. *)
Inductive status :=
  | Waiting            (* in [recv] *)
  | Hung               (* in the call of a job *)
  | Exited             (* after the loop: the finalizer has run and the process killed itself *)
  | TimedOut           (* killed by its own timer *)
  | Crashed.           (* an exception left the loop *)

Record child := mkChild { ch_sent : list (reply V); ch_taken : nat; ch_status : status }.

(** [conn_send_safe]: whatever [send] raises is logged. *)
Definition conn_send_safe (pipe picklable : bool) (r : reply V) : list (reply V) :=
  if pipe && picklable then [r] else [].

(** The message of the traceback is text the environment renders. *)
Context (traceback : exn → string) (pid : string).

Definition newline : string := String (Ascii.ascii_of_nat 10) EmptyString.

(** The exception object that is sent: itself with the traceback in its message, or a
    [ProcessError] that describes it. *)
Definition described (e : exn) : exn := Raise (exn_of e) (exn_msg e +:+ newline +:+ traceback e).
Definition presented (e : exn) (picklable : bool) : exn :=
  if picklable then described e
  else described (Raise ProcessError ("An exception occurred but pickling it failed." +:+ exn_msg e)).

Definition timeout_error : exn :=
  Raise PoolTimeoutError ("Process " +:+ pid +:+ " timed out, self-destructing.").

(** One job: what is sent, and the state unless the loop goes on. *)
Definition run_job (j : job) : list (reply V) * option status :=
  match jb_call j with
  | Returns v picklable => (conn_send_safe (jb_pipe j) picklable (RValue v), None)
  | Raises e picklable true => (conn_send_safe (jb_pipe j) true (RError (presented e picklable)), None)
  | Raises e _ false => ([], Some Crashed)
  | Overruns =>
      if jb_timeout j then (conn_send_safe (jb_pipe j) true (RError timeout_error), Some TimedOut)
      else ([], Some Hung)
  end.

(** The loop; [inbox] is what the pipe will deliver. *)
Fixpoint raw_runner2 (inbox : list received) : child :=
  match inbox with
  | [] => mkChild [] 0 Waiting
  | RecvJob j :: inbox' =>
      match run_job j with
      | (sent, None) =>
          let c := raw_runner2 inbox' in mkChild (sent ++ ch_sent c) (S (ch_taken c)) (ch_status c)
      | (sent, Some st) => mkChild sent 1 st
      end
  | (RecvNone | RecvEof | RecvInterrupt | RecvFails) :: _ => mkChild [] 0 Exited
  end.

(** After a job: memory is given back above the threshold. *)
Definition trims (threshold : option Z) (rss : Z) : bool :=
  match threshold with Some t => t <? rss | None => false end.

(** *** Around the loop *)

(** [initializer_environ_propagator]: the environment is updated, then the initializer runs in it. *)
Definition environ_propagator (environ os_environ : list (string * string)) (original : option (result exn unit))
    : list (string * string) * result exn unit :=
  (foldl (λ d kv, dict_set d kv.1 kv.2) os_environ environ, match original with Some r => r | None => Ok tt end).

(** What the initializer and the finalizer do, if there are any. *)
Record life := mkLife {
  li_child : option child;             (* the loop, if the process came to it *)
  li_finalized : bool;                 (* the finalizer was called *)
  li_killed : bool }.                  (* the process killed its own tree at the end *)

Definition worker_life (initializer finitializer : option (result exn unit)) (inbox : list received) : life :=
  let loop :=
    let c := raw_runner2 inbox in
    match ch_status c with
    | Exited => mkLife (Some c) (if finitializer is Some _ then true else false) true
    | TimedOut => mkLife (Some c) false true
    | _ => mkLife (Some c) false false
    end in
  match initializer with
  | Some (Err e) => if isinstance e Exception_ then loop else mkLife None false false
  | _ => loop
  end.

(** The thread that watches the parent: at each poll, whether the event is set and whether the
    parent exists. *)
Inductive watch := Watching | Deactivated | SelfDestructed.
Fixpoint watchdog (polls : list (bool * bool)) : watch :=
  match polls with
  | [] => Watching
  | (true, _) :: _ => Deactivated
  | (false, true) :: polls' => watchdog polls'
  | (false, false) :: _ => SelfDestructed
  end.

(** ** What the parent may rely on *)

(** The jobs before the first thing that ends the loop. *)
Fixpoint jobs_of (inbox : list received) : list job :=
  match inbox with RecvJob j :: inbox' => j :: jobs_of inbox' | _ => [] end.

Definition continues (j : job) : bool := match run_job j with (_, None) => true | _ => false end.


(** An initializer that raises an [Exception] does not keep the process from its jobs; the
    finalizer is called exactly when the loop was left by a request to exit, and then the
    process kills itself, also when the finalizer raises. *)
Lemma worker_life_spec initializer finitializer inbox :
  (∀ e, initializer = Some (Err e) → isinstance e Exception_ = true) →
  let l := worker_life initializer finitializer inbox in
  li_child l = Some (raw_runner2 inbox) ∧
  (li_finalized l = true ↔ is_Some finitializer ∧ ch_status (raw_runner2 inbox) = Exited) ∧
  (ch_status (raw_runner2 inbox) = Exited → li_killed l = true).
Proof.
  intros Hi. unfold worker_life.
  assert (match initializer with Some (Err e) => isinstance e Exception_ | _ => true end = true) as Hok
    by (destruct initializer as [[]|]; auto).
  destruct initializer as [[[]|e]|]; [|rewrite Hok|]; destruct (ch_status (raw_runner2 inbox)) eqn:E; cbn;
    (split_and!; [done| |done]); destruct finitializer; split; try done; intros [[??] ?]; done.
Qed.

(** The watcher destroys the process exactly when the parent is gone before it was told to stop. *)
Lemma watchdog_spec polls :
  watchdog polls = SelfDestructed ↔
  ∃ l rest, polls = l ++ (false, false) :: rest ∧ Forall (.= (false, true)) l.
Proof.
  induction polls as [|[[] []] polls IH]; cbn; split; try done.
  - intros (l & rest & H & _). by destruct l.
  - intros (l & rest & H & Hl). destruct l as [|x l]; [done|]. injection H as <- _. by apply Forall_cons in Hl as [? _].
  - intros (l & rest & H & Hl). destruct l as [|x l]; [done|]. injection H as <- _. by apply Forall_cons in Hl as [? _].
  - rewrite IH. intros (l & rest & -> & Hl). exists ((false, true) :: l), rest. split; [done|by constructor].
  - rewrite IH. intros (l & rest & H & Hl). destruct l as [|x l]; [done|]. injection H as _ ->. apply Forall_cons in Hl as [_ Hl]. by exists l, rest.
  - intros _. by exists [], polls.
Qed.

(** A reply is what the call did, and a failure that cannot be pickled is described. *)
Lemma run_job_reply j r :
  (run_job j).1 = [r] → r =
    match jb_call j with
    | Returns v _ => RValue v
    | Raises e p _ => RError (presented e p)
    | Overruns => RError timeout_error
    end.
Proof.
  destruct j as [t [v p|e p [|]|] k]; unfold run_job, conn_send_safe; cbn; repeat case_match; naive_solver.
Qed.

(** A job whose value cannot be pickled gets no reply at all: the exception of [send] is
    logged, the process goes back to wait for the next job and stays alive, so that the
    supervisor of the job polls for ever. *)
Theorem unpicklable_value_not_answered inbox v t k :
  let c := raw_runner2 (RecvJob (mkJob t (Returns v false) k) :: inbox) in
  ch_sent c = ch_sent (raw_runner2 inbox) ∧ ch_status c = ch_status (raw_runner2 inbox) ∧
  raw_runner2 [RecvJob (mkJob t (Returns v false) k)] = mkChild [] 1 Waiting.
Proof. cbn. unfold conn_send_safe. by rewrite andb_false_r. Qed.
End RawRunner.
