(* ===== verification/Processes.v ===== *)
(** * Processes: counters, process IDs and signals of the local pool ([_pool.py])

    What [Pool.v] takes as single steps of the environment: the counters and their
    lock, the callback that tells the process ID of a future, the message about a
    dead worker, and the signals to a process tree. *)
From stdpp Require Import gmap.
From S2P Require Import Prelude Errors StateErr PyVal PyInt.

(** ** [Stat]: increments are under the lock, [set] is not *)

Module Stat.
(** [self.value += value] reads, then writes. *)
Inductive pc := Increment (value : Z) | Write (read value : Z) | Release | SetTo (value : Z) | Finished.
Record t := mk { value : Z; locked : option nat; threads : list pc }.

Definition move (i : nat) (p : pc) (s : t) : t := {| s with threads := alter (λ _, p) i (threads s) |}.
(** A thread with [with self.lock] waits for the lock; the one with [set] never does. *)
Definition step (i : nat) (s : t) : option t :=
  match threads s !! i with
  | Some (Increment v) =>
      match locked s with
      | None => let s := move i (Write (value s) v) s in Some {| s with locked := Some i |}
      | Some _ => None
      end
  | Some (Write r v) => let s := move i Release s in Some {| s with value := r + v |}
  | Some Release => let s := move i Finished s in Some {| s with locked := None |}
  | Some (SetTo v) => let s := move i Finished s in Some {| s with value := v |}
  | _ => None
  end.
Fixpoint run (js : list nat) (s : t) : option t :=
  match js with [] => Some s | i :: js' => s' ← step i s; run js' s' end.
Definition init (v : Z) (l : list pc) : t := mk v None l.
End Stat.

(** [Statistics.reset_counters], [Statistics.to_dict]. *)
Record Counters := mkCounters {
  st_received : Z; st_launched : Z; st_failed : Z; st_created : Z; st_busy : Z }.
Definition reset_counters (s : Counters) : Counters := mkCounters 0 0 0 0 0.
Definition to_dict (s : Counters) : list (string * Z) :=
  [("tasks_received", st_received s); ("tasks_launched", st_launched s); ("tasks_failed", st_failed s);
   ("worker_processes_created", st_created s); ("max_workers_busy_concurrently", st_busy s)]%string.

(** ** The process ID of a future ([Future.pid], [add_pid_callback]) *)

Module Pid.
(** The supervisor that sets the ID and the thread that adds the callback. *)
Inductive setter := SAssign | STest | SDone.
Inductive adder := AAssign | ATest | ADone.
Record t := mk { pid : option Z; callback : bool; calls : nat; s_pc : setter; a_pc : adder }.
Definition init : t := mk None false 0 SAssign AAssign.
(** Testing and calling; an exception of the callback is logged. *)
Definition set_step (p : Z) (s : t) : option t :=
  match s_pc s with
  | SAssign => Some {| s with pid := Some p; s_pc := STest |}
  | STest => Some {| s with calls := if callback s then S (calls s) else calls s; s_pc := SDone |}
  | SDone => None
  end.
Definition add_step (s : t) : option t :=
  match a_pc s with
  | AAssign => Some {| s with callback := true; a_pc := ATest |}
  | ATest => Some {| s with calls := if pid s is Some _ then S (calls s) else calls s; a_pc := ADone |}
  | ADone => None
  end.
Inductive step (p : Z) : t → bool → t → Prop :=
  | step_set s s' : set_step p s = Some s' → step p s true s'
  | step_add s s' : add_step s = Some s' → step p s false s'.
End Pid.

(** ** Signals to a process tree ([kill_proc_tree]) *)

(** What the system and psutil do: [sy_other] is what happens to the processes before the
    n-th call, [sy_children] lists the descendants in a process table, [sy_wait] is the
    answer of [wait_procs], [sy_fatal] tells whether a process dies of a signal. *)
Notation table := (gmap Z Z).           (* a process and its parent *)
Class System := {
  sy_other : nat → table → table;
  sy_children : table → Z → list Z;
  sy_wait : table → list Z → list Z * list Z;
  sy_fatal : Z → Z → bool;
  sy_self : Z;
  sy_strsignal : Z → result exn (option pystr) }.

Record Sys := mkSys { sy_table : table; sy_calls : nat; sy_signalled : list Z }.

Section Kill.
Context {Y : System}.
Notation M := (ST Sys).

Definition call : M unit :=
  modify (λ s, mkSys (sy_other (sy_calls s) (sy_table s)) (S (sy_calls s)) (sy_signalled s)).
Definition running (p : Z) (s : Sys) : bool := bool_decide (is_Some (sy_table s !! p)).

(** [p.send_signal(sig)] with [except psutil.NoSuchProcess: pass]. *)
Definition send_signal (sig p : Z) : M unit :=
  _ ← call;
  s ← gets id;
  if running p s then
    modify (λ s, mkSys (if sy_fatal sig p then delete p (sy_table s) else sy_table s) (sy_calls s) (p :: sy_signalled s))
  else skip.

(** [psutil.wait_procs]. *)
Definition wait_procs (l : list Z) : M (list Z * list Z) :=
  _ ← call; gets (λ s, sy_wait (sy_table s) l).

Definition kill_proc_tree (pid sig : Z) (include_parent allow_kill_self : bool) : M (option (list Z * list Z)) :=
  if negb allow_kill_self && (pid =? sy_self) then raise (Raise ValueError "Won't kill myself")
  else
    _ ← call;
    s ← gets id;
    if negb (running pid s) then mret None
    else
      _ ← call;
      s ← gets id;
      let children := sy_children (sy_table s) pid in
      let children := if include_parent then children ++ [pid] else children in
      _ ← for_each children (send_signal sig);
      r ← wait_procs children;
      mret (Some r).

(** [Future.cancel_and_kill_if_running] once the future is cancelled; exceptions are logged. *)
Definition SIGKILL : Z := 9.
Definition kill_if_running (pid : option Z) : M unit :=
  match pid with
  | Some p => if p =? 0 then skip else swallow (_ ← kill_proc_tree p SIGKILL true false; skip)
  | None => skip
  end.
End Kill.

(** ** The message about a dead worker ([format_death_message]) *)

(** [before] and [after] are the exit codes before and after [join(timeout)]. *)
Definition death_message {Y : System} (pid : Z) (before after : option Z) : result exn pystr :=
  let exitcode := match before with Some c => Some c | None => after end in
  match exitcode with
  | None => Ok (py "Worker process died unexpectedly")
  | Some c =>
      signame ← match sy_strsignal (- c) with
                | Ok (Some n) => Ok n
                | Ok None => Ok (py "None")
                | Err e => if isinstance e ValueError || isinstance e TypeError then Ok (py "Unknown") else Err e
                end;
      Ok (py "Subprocess " ++ str_of_int pid ++ py " completed unexpectedly with exitcode " ++
          str_of_int c ++ py " (" ++ signame ++ py ")")
  end.

(** ** Counters *)

(** What the threads still have to add. *)
Definition pending (p : Stat.pc) : Z :=
  match p with Stat.Increment v | Stat.Write _ v => v | _ => 0 end.
Definition total (l : list Stat.pc) : Z := foldr (λ p n, pending p + n) 0 l.
Lemma total_alter i p q l : l !! i = Some q → total (alter (λ _, p) i l) = total l - pending q + pending p.
Proof.
  revert i. induction l as [|x l IH]; intros [|i] H; try done; [injection H as ->; cbn; lia|].
  change (pending x + total (alter (λ _, p) i l) = pending x + total l - pending q + pending p). rewrite (IH i H). lia.
Qed.

(** The lock: who is past the read holds it, and what was read is still the value. *)
Definition no_set (p : Stat.pc) : Prop := match p with Stat.SetTo _ => False | _ => True end.
Record locked_ok (s : Stat.t) : Prop := {
  lo_write i r v : Stat.threads s !! i = Some (Stat.Write r v) → Stat.locked s = Some i ∧ r = Stat.value s;
  lo_release i : Stat.threads s !! i = Some Stat.Release → Stat.locked s = Some i;
  lo_set : Forall no_set (Stat.threads s) }.

Lemma move_lookup i p l j q :
  (alter (λ _, p) i l : list Stat.pc) !! j = Some q → (j = i ∧ q = p) ∨ (j ≠ i ∧ l !! j = Some q).
Proof.
  destruct (decide (i = j)) as [->|]; [|rewrite list_lookup_alter_ne by done; naive_solver].
  rewrite list_lookup_alter_eq. intros (x & _ & ->)%fmap_Some. by left.
Qed.

Lemma increment_step i s s' :
  locked_ok s → Stat.step i s = Some s' →
  locked_ok s' ∧ Stat.value s' + total (Stat.threads s') = Stat.value s + total (Stat.threads s).
Proof.
  intros [Hw Hr Hset] H. unfold Stat.step in H. destruct (Stat.threads s !! i) as [[v|r v| |v|]|] eqn:Hi; try done.
  - destruct (Stat.locked s) eqn:Hl; [done|]. injection H as <-. split; cbn; [|rewrite (total_alter _ _ _ _ Hi); cbn; lia].
    split; cbn; [intros j r v' [[-> [= -> ->]]|[Hj [??]%Hw]]%move_lookup; [done|congruence]|
      intros j [[-> ?]|[Hj ?%Hr]]%move_lookup; [done|congruence]|].
    apply Forall_alter; [done|by intros].
  - injection H as <-. destruct (Hw i r v Hi) as [Hl ->]. split; cbn; [|rewrite (total_alter _ _ _ _ Hi); cbn; lia].
    split; cbn; [intros j r v' [[-> ?]|[Hj [??]%Hw]]%move_lookup; [done|congruence]|
      intros j [[-> ?]|[Hj ?%Hr]]%move_lookup; [done|congruence]|].
    apply Forall_alter; [done|by intros].
  - injection H as <-. pose proof (Hr i Hi) as Hl. split; cbn; [|rewrite (total_alter _ _ _ _ Hi); cbn; lia].
    split; cbn; [intros j r v' [[-> ?]|[Hj [??]%Hw]]%move_lookup; [done|congruence]|
      intros j [[-> ?]|[Hj ?%Hr]]%move_lookup; [done|congruence]|].
    apply Forall_alter; [done|by intros].
  - rewrite Forall_lookup in Hset. by destruct (Hset i _ Hi).
Qed.

(** Concurrent increments are never lost: when all have finished, the counter has grown by
    their sum. *)
Theorem increments_exact js v0 vs s :
  Stat.run js (Stat.init v0 (Stat.Increment <$> vs)) = Some s → Forall (.= Stat.Finished) (Stat.threads s) →
  Stat.value s = v0 + foldr Z.add 0 vs.
Proof.
  intros H Hfin.
  assert (Hrun : ∀ js s0 s, locked_ok s0 → Stat.run js s0 = Some s →
    Stat.value s + total (Stat.threads s) = Stat.value s0 + total (Stat.threads s0)).
  { clear. induction js as [|i js IH]; cbn; intros s0 s Hok H; [by injection H as ->|].
    apply bind_Some in H as (s1 & H1 & H2). destruct (increment_step i s0 s1 Hok H1) as [Hok1 He].
    rewrite (IH s1 s Hok1 H2). done. }
  apply Hrun in H.
  - assert (total (Stat.threads s) = 0) as H0 by (induction Hfin as [|p l -> _ IH]; cbn; [done|by unfold total in IH; rewrite IH]).
    assert (total (Stat.Increment <$> vs) = foldr Z.add 0 vs) as Hv by (clear; induction vs as [|v vs IH]; cbn; [done|by unfold total in IH; rewrite IH]).
    change (Stat.value s + total (Stat.threads s) = v0 + total (Stat.Increment <$> vs)) in H. lia.
  - split; cbn; [intros i r v Hi|intros i Hi|]; try (rewrite list_lookup_fmap in Hi; by destruct (vs !! i)).
    apply Forall_fmap, Forall_true. done.
Qed.

(** A reset is not under the lock: an increment that has read the counter undoes it. *)
Lemma reset_undone :
  ∃ s, Stat.run [0; 1; 0; 0]%nat (Stat.init 5 [Stat.Increment 1; Stat.SetTo 0]) = Some s ∧ Stat.value s = 6.
Proof. by eexists. Qed.

(** ** The process ID of a future *)

(** The callback is never lost: once the ID is set and the callback added, by two threads in
    any order, it has been called; at most twice, and once when neither meets the other. *)
Record pid_ok (p : Z) (s : Pid.t) : Prop := {
  po_set : Pid.pid s = match Pid.s_pc s with Pid.SAssign => None | _ => Some p end;
  po_add : Pid.callback s = match Pid.a_pc s with Pid.AAssign => false | _ => true end;
  po_calls : match Pid.s_pc s, Pid.a_pc s with
             | Pid.SDone, Pid.ADone => Pid.calls s = 1%nat ∨ Pid.calls s = 2%nat
             | Pid.SDone, _ | _, Pid.ADone => (Pid.calls s ≤ 1)%nat
             | _, _ => Pid.calls s = 0%nat
             end;
  (** Whoever tests last sees what the other assigned. *)
  po_last : match Pid.s_pc s, Pid.a_pc s with
            | Pid.SDone, Pid.AAssign | Pid.SAssign, Pid.ADone => Pid.calls s = 0%nat
            | _, _ => True
            end }.

Lemma pid_ok_step p s e s' : pid_ok p s → Pid.step p s e s' → pid_ok p s'.
Proof.
  intros Hok Hs. destruct Hs as [s s' Hs|s s' Hs]; destruct s as [pid cb n [] []]; cbn in Hs; try discriminate Hs;
    injection Hs as <-; destruct Hok as [H1 H2 H3 H4]; cbn in *; subst; split; cbn; auto; lia.
Qed.

Theorem pid_callback_called p es s :
  steps (Pid.step p) Pid.init es s → Pid.s_pc s = Pid.SDone → Pid.a_pc s = Pid.ADone →
  Pid.calls s = 1%nat ∨ Pid.calls s = 2%nat.
Proof.
  intros Hs H1 H2. assert (pid_ok p s) as [_ _ H _].
  { eapply steps_invariant; [| |exact Hs]; [by intros; eapply pid_ok_step|by split]. }
  by rewrite H1, H2 in H.
Qed.

(** Two calls: both threads assign before either tests. *)
Lemma pid_callback_twice :
  ∃ s, (s ← Pid.set_step 7 Pid.init; s ← Pid.add_step s; s ← Pid.set_step 7 s; Pid.add_step s) = Some s ∧ Pid.calls s = 2%nat.
Proof. by eexists. Qed.

(** ** Signals *)

Section Signals.
Context {Y : System}.

(** Whatever else happens on the machine, only the process and its descendants, as they
    were listed, are sent the signal. *)
Lemma send_signal_to sig p s : sy_signalled (send_signal sig p s).1 ⊆ p :: sy_signalled s.
Proof.
  unfold send_signal, call, gets, modify, skip, mbind, ST_bind, mret, ST_ret. destruct (running _ _); cbn; set_solver.
Qed.
Lemma send_signals_to sig l s :
  sy_signalled (for_each l (send_signal sig) s).1 ⊆ l ++ sy_signalled s ∧ (for_each l (send_signal sig) s).2 = Ok tt.
Proof.
  revert s. induction l as [|p l IH]; intros s; [done|]. cbn [for_each]. unfold mbind, ST_bind.
  pose proof (send_signal_to sig p s) as H1.
  assert ((send_signal sig p s).2 = Ok tt) as H2.
  { unfold send_signal, call, gets, modify, skip, mbind, ST_bind, mret, ST_ret. by destruct (running _ _). }
  destruct (send_signal sig p s) as [s1 r]. cbn [fst snd] in *. subst r. destruct (IH s1) as [H3 H4]. split; [|done]. set_solver.
Qed.

(** On a machine that does nothing else: exactly the tree is gone when the signal is fatal. *)
Context (Hquiet : ∀ n t, sy_other n t = t).
(** [wait_procs] returns those that are gone and those that are alive. *)
Context (Hwait : ∀ t l, sy_wait t l = (filter (λ p, t !! p = None) l, filter (λ p, is_Some (t !! p)) l)).
Lemma send_signals_run sig l s :
  (∀ p, p ∈ l → sy_fatal sig p = true) →
  ∃ s', for_each l (send_signal sig) s = (s', Ok tt) ∧ ∀ p, sy_table s' !! p = if decide (p ∈ l) then None else sy_table s !! p.
Proof.
  revert s. induction l as [|p l IH]; intros s Hf; [exists s; split; [done|]; intros p; by rewrite decide_False by set_solver|].
  cbn [for_each]. assert (∃ s1, send_signal sig p s = (s1, Ok tt) ∧ sy_table s1 = delete p (sy_table s)) as (s1 & E & Ht).
  { unfold send_signal, call, gets, modify, skip, mbind, ST_bind, mret, ST_ret. cbn. rewrite Hquiet. unfold running. cbn.
    case_bool_decide as Hr; [rewrite (Hf p) by set_solver; by eexists|]. eexists. split; [done|]. cbn.
    rewrite delete_id; [done|]. by apply eq_None_not_Some. }
  unfold mbind, ST_bind. rewrite E. destruct (IH s1) as (s' & E' & H'); [set_solver|]. exists s'. split; [done|].
  intros q. rewrite H', Ht. destruct (decide (q = p)) as [->|Hne].
  - rewrite lookup_delete_eq. rewrite (decide_True (P := p ∈ p :: l)) by set_solver. by case_decide.
  - rewrite lookup_delete_ne by done. by destruct (decide (q ∈ l)); [rewrite decide_True by set_solver|rewrite decide_False by set_solver].
Qed.

Lemma filter_gone (t : table) (l : list Z) : (∀ p, p ∈ l → t !! p = None) → filter (λ p, t !! p = None) l = l.
Proof.
  induction l as [|p l IH]; intros H; [done|]. rewrite filter_cons_True by (apply H; set_solver). f_equal. apply IH; set_solver.
Qed.
Lemma filter_alive (t : table) (l : list Z) : (∀ p, p ∈ l → t !! p = None) → filter (λ p, is_Some (t !! p)) l = [].
Proof.
  induction l as [|p l IH]; intros H; [done|]. rewrite filter_cons_False by (rewrite (H p) by set_solver; by intros [? ?]). apply IH; set_solver.
Qed.

Theorem kill_proc_tree_kills pid sig s :
  pid ≠ sy_self → is_Some (sy_table s !! pid) →
  let tree := sy_children (sy_table s) pid ++ [pid] in
  (∀ p, p ∈ tree → sy_fatal sig p = true) →
  ∃ s' gone, kill_proc_tree pid sig true false s = (s', Ok (Some (gone, []))) ∧ gone = tree ∧
    ∀ p, sy_table s' !! p = if decide (p ∈ tree) then None else sy_table s !! p.
Proof.
  intros Hself Hrun tree Hf. unfold kill_proc_tree. rewrite (proj2 (Z.eqb_neq _ _) Hself). cbn [negb andb].
  unfold call at 1 2, modify, gets, mbind, ST_bind. cbn [sy_table]. rewrite !Hquiet. unfold running at 1. cbn [id sy_table].
  rewrite bool_decide_true by done. cbn [negb sy_table id]. rewrite !Hquiet.
  match goal with |- context [for_each ?l ?f ?t] => destruct (send_signals_run sig l t Hf) as (s1 & E & H1); rewrite E end.
  unfold wait_procs, call, modify, gets, mbind, ST_bind, mret, ST_ret. cbn [sy_table]. rewrite Hquiet, Hwait.
  change (sy_children (sy_table s) pid ++ [pid]) with tree.
  assert (Hgone : ∀ p, p ∈ tree → sy_table s1 !! p = None) by (intros p Hp; by rewrite H1, decide_True by done).
  rewrite (filter_gone _ _ Hgone), (filter_alive _ _ Hgone).
  eexists _, tree. split_and!; [done|done|]. cbn. exact H1.
Qed.
End Signals.

(** The exit code that [join] waits for names the signal in the message. *)
Lemma death_message_names_signal {Y : System} pid sig name :
  sy_strsignal sig = Ok (Some name) →
  ∃ a, death_message pid None (Some (- sig)) = Ok (a ++ name ++ py ")").
Proof.
  intros H. unfold death_message. cbn [mbind result_bind]. rewrite Z.opp_involutive, H. cbn [mbind result_bind].
  eexists. f_equal. rewrite !app_assoc. reflexivity.
Qed.
