(* ===== verification/RemoteFuture.v ===== *)
(** * RemoteFuture: the client's future of one request ([remote/_future.py])

    Every method runs under the future's own lock, so each is one function from the
    future to the future it leaves behind; those that end the future also return the
    callbacks to dispatch. A future inherited across a fork is in [Fork.v]. *)
From S2P Require Import Prelude Errors Futures PyVal.

Module SubmissionState.
Inductive t :=
  LOCAL_PENDING | SENT_UNACKNOWLEDGED | ACCEPTED_QUEUED | RUNNING | SUCCEEDED | TASK_FAILED
  | CANCELLED | FAILED.
#[export] Instance submission_eq_dec : EqDecision t.
Proof. solve_decision. Defined.
End SubmissionState.
Export (hints) SubmissionState.

(** An exception that ends a future: one of the remote classes with its certainties, or
    any other exception object. *)
Inductive failure := Remote (e : remote_error) | Plain (e : exn).

Inductive outcome (V : Type) := OValue (v : V) | OFailed (e : failure).
Arguments OValue {V} v.
Arguments OFailed {V} e.

Section RemoteFuture.
Context {V : Type}.

Record RemoteFuture := mkRemoteFuture {
  rf_request_id : pystr;
  rf_submission : SubmissionState.t;
  rf_base : FutureState.t;
  rf_outcome : option (outcome V);
  rf_pid : pyval;
  rf_worker_id : pyval;
  rf_callbacks : list nat }.

#[export] Instance RemoteFuture_inhabited : Inhabited RemoteFuture :=
  populate (mkRemoteFuture [] SubmissionState.CANCELLED FutureState.CANCELLED_AND_NOTIFIED None PNone PNone []).

Definition remote_future_init (request_id : pystr) : RemoteFuture :=
  mkRemoteFuture request_id SubmissionState.LOCAL_PENDING FutureState.PENDING None PNone PNone [].

Definition rf_done (f : RemoteFuture) : bool := FutureState.done (rf_base f).

Definition rf_running (f : RemoteFuture) : bool :=
  bool_decide (rf_submission f = SubmissionState.RUNNING) && negb (rf_done f).

Definition set_submission (st : SubmissionState.t) (f : RemoteFuture) : RemoteFuture :=
  {| f with rf_submission := st |}.

(** [_set_sent]: false when the future ended before it was sent. *)
Definition set_sent (f : RemoteFuture) : RemoteFuture * bool :=
  if rf_done f then (f, false)
  else (set_submission SubmissionState.SENT_UNACKNOWLEDGED f, true).

Definition set_accepted (f : RemoteFuture) : RemoteFuture :=
  if rf_done f then f else set_submission SubmissionState.ACCEPTED_QUEUED f.

Definition set_running (pid worker_id : pyval) (f : RemoteFuture) : RemoteFuture :=
  if rf_done f then f
  else {| f with rf_pid := pid; rf_worker_id := worker_id;
                 rf_submission := SubmissionState.RUNNING |}.

(** The future ends; its callbacks are taken out. *)
Definition rf_end (st : SubmissionState.t) (base : FutureState.t) (out : option (outcome V))
    (f : RemoteFuture) : RemoteFuture * list nat :=
  if rf_done f then (f, [])
  else ({| f with rf_submission := st; rf_base := base; rf_outcome := out; rf_callbacks := [] |},
        rf_callbacks f).

Definition rf_set_result (v : V) : RemoteFuture → RemoteFuture * list nat :=
  rf_end SubmissionState.SUCCEEDED FutureState.FINISHED (Some (OValue v)).

Definition rf_set_exception (e : failure) (task : bool) : RemoteFuture → RemoteFuture * list nat :=
  rf_end (if task then SubmissionState.TASK_FAILED else SubmissionState.FAILED)
    FutureState.FINISHED (Some (OFailed e)).

(** [_set_cancelled] with [_cancel_and_notify_waiters]. *)
Definition rf_set_cancelled : RemoteFuture → RemoteFuture * list nat :=
  rf_end SubmissionState.CANCELLED FutureState.CANCELLED_AND_NOTIFIED None.

(** What the first part of [cancel] decides: an answer, or that the server must. *)
Definition rf_cancel (f : RemoteFuture) : RemoteFuture * list nat * option bool :=
  if rf_done f then (f, [], Some false)
  else if decide (rf_submission f = SubmissionState.LOCAL_PENDING)
    then (rf_set_cancelled f, Some true)
  else (f, [], None).

(** [add_done_callback]: true when the callback must be called at once. *)
Definition rf_add_callback (fn : nat) (f : RemoteFuture) : RemoteFuture * bool :=
  if rf_done f then (f, true) else ({| f with rf_callbacks := rf_callbacks f ++ [fn] |}, false).

(** ** The state machine of one future *)

(** Whether the outcome fits the state. *)
Definition rf_ok (f : RemoteFuture) : Prop :=
  match rf_base f with
  | FutureState.PENDING =>
      rf_outcome f = None ∧ rf_submission f ∈
        [SubmissionState.LOCAL_PENDING; SubmissionState.SENT_UNACKNOWLEDGED;
         SubmissionState.ACCEPTED_QUEUED; SubmissionState.RUNNING]
  | FutureState.FINISHED =>
      rf_callbacks f = [] ∧
      match rf_outcome f with
      | Some (OValue _) => rf_submission f = SubmissionState.SUCCEEDED
      | Some (OFailed _) => rf_submission f = SubmissionState.TASK_FAILED ∨
                            rf_submission f = SubmissionState.FAILED
      | None => False
      end
  | FutureState.CANCELLED_AND_NOTIFIED =>
      rf_callbacks f = [] ∧ rf_outcome f = None ∧ rf_submission f = SubmissionState.CANCELLED
  | _ => False
  end.

(** What every method keeps: an ended future stays as it is, a pending one that was handed
    to the sender is never local again, and the request keeps its ID. *)
Definition rf_le (f f' : RemoteFuture) : Prop :=
  rf_request_id f' = rf_request_id f ∧ (rf_ok f → rf_ok f') ∧
  (rf_done f = true → f' = f) ∧
  (rf_submission f ≠ SubmissionState.LOCAL_PENDING → rf_submission f' ≠ SubmissionState.LOCAL_PENDING).

#[export] Instance rf_le_preorder : PreOrder rf_le.
Proof.
  split; [by intros f; split_and!; auto|].
  intros f f' f'' (E1 & K1 & D1 & L1) (E2 & K2 & D2 & L2).
  unfold rf_le. split_and!; [congruence|auto| |auto].
  intros Hd. specialize (D1 Hd). subst f'. by apply D2.
Qed.

Ltac rf_cases :=
  unfold rf_le, set_sent, set_accepted, set_running, rf_set_result, rf_set_exception,
    rf_set_cancelled, rf_add_callback, rf_end, rf_done, rf_ok, set_submission;
  intros [rid sub base out pid0 wid0 cb]; destruct base; cbn; split_and!; try done;
  try (intros (? & ?); split_and!; try done; set_solver).

Lemma set_sent_le f : rf_le f (set_sent f).1. Proof. revert f. rf_cases. Qed.
Lemma set_accepted_le f : rf_le f (set_accepted f). Proof. revert f. rf_cases. Qed.
Lemma set_running_le p w f : rf_le f (set_running p w f). Proof. revert f. rf_cases. Qed.
Lemma set_result_le v f : rf_le f (rf_set_result v f).1. Proof. revert f. rf_cases. Qed.
Lemma set_exception_le e task f : rf_le f (rf_set_exception e task f).1.
Proof. revert f. destruct task; rf_cases; naive_solver. Qed.
Lemma set_cancelled_le f : rf_le f (rf_set_cancelled f).1. Proof. revert f. rf_cases. Qed.
Lemma add_callback_le fn f : rf_le f (rf_add_callback fn f).1. Proof. revert f. rf_cases. Qed.
Lemma cancel_le f : rf_le f (rf_cancel f).1.1.
Proof.
  unfold rf_cancel. destruct (rf_done f); [done|]. case_decide; [|done]. apply set_cancelled_le.
Qed.
End RemoteFuture.
Arguments RemoteFuture : clear implicits.
