(* ===== verification/Client.v ===== *)
(** * Client: the client executor ([remote/client.py])

    [DeadpoolClient] is shared by the submitting threads, a sender, a receiver, the one
    thread of the completion executor, the callback threads and the thread that shuts it
    down. As for the server and the pool, the model is one state, a position per thread
    and one operation per stretch between two points where a thread blocks or touches
    what another one changes. The socket, the serializer and the clock are the
    environment. A session rebuilt after a fork ([_ensure_process]) is not modelled. *)
From stdpp Require Import pretty.
From S2P Require Import Prelude Errors Futures StateErr PyVal PyInt Config Protocol RemoteFuture.

(** ** Submission options *)

(** [_positive_timeout]. *)
Definition positive_timeout (value : pyval) (name : string) : result exn pyfloat :=
  bad ← bad_duration true value;
  _ ← raise_if bad (Raise ValueError (name +:+ " must be finite and greater than zero"));
  to_float value.

Record SubmissionOptions := mkOptions {
  op_priority : pyval;
  op_execution_timeout : pyval;
  op_queue_timeout : pyval;
  op_submission_timeout : pyfloat;
  op_group_id : pyval;
  op_metadata : pyval }.

(** The check of an optional duration. *)
Definition check_duration (value : pyval) (name : string) : result exn unit :=
  if is_none value then Ok tt
  else bad ← bad_duration false value;
       raise_if bad (Raise ValueError (name +:+ " must be finite and non-negative")).

(** [_submission_options] on the keyword arguments. *)
Definition submission_options (kwargs : pydict) (default_timeout : pyfloat)
    : result exn SubmissionOptions :=
  let execution_timeout := get_or kwargs "deadpool_timeout" PNone in
  let queue_timeout := get_or kwargs "deadpool_queue_timeout" PNone in
  let group_id := get_or kwargs "deadpool_group_id" PNone in
  let metadata := get_or kwargs "deadpool_metadata" (PDict []) in
  _ ← check_duration execution_timeout "execution_timeout";
  _ ← check_duration queue_timeout "queue_timeout";
  timeout ← positive_timeout
    (get_or kwargs "deadpool_submission_timeout" (PFloat default_timeout)) "submission_timeout";
  _ ← (if is_none group_id then Ok tt
       else
         _ ← raise_if (negb (is_str group_id))
               (Raise TypeError "deadpool_group_id must be a string or None");
         raise_if (negb (py_truthy group_id)) (Raise ValueError "deadpool_group_id must be non-empty"));
  _ ← raise_if (negb (is_dict metadata)) (Raise TypeError "deadpool_metadata must be a dict");
  Ok (mkOptions (get_or kwargs "deadpool_priority" (PInt 0)) execution_timeout queue_timeout
        timeout group_id metadata).

(** The test of the priority in [_submit]. *)
Definition check_priority (priority : pyval) : result exn unit :=
  raise_if (negb (is_int priority) || is_bool priority || lt_zero priority)
    (Raise ValueError "deadpool_priority must be a non-negative integer").

(** ** Data *)

(** An exception of a remote class with its default certainties. *)
Definition remote_failure (c : exn_class) (message : string) (rid : pystr)
    (acc : certainty_arg AcceptanceCertainty) (exe : certainty_arg ExecutionCertainty) : failure :=
  match remote_executor_error_init c message (Some rid) acc exe with
  | Ok e => Remote e
  | Err e => Plain e
  end.

(** The functions handed to the completion executor. *)
Inductive task :=
  | TAccepted (f : nat)
  | TRunning (f : nat) (pid worker_id : pyval)
  | TComplete (f : nat) (m : Message)
  | TReject (f : nat) (control : pydict)
  | TFail (f : nat) (e : failure).

(** A thread inside [_connection_lost]. *)
Inductive lost_pc :=
  | LBegin (e : exn)
  | LRpc (e : exn) (slots futs : list nat)          (* about to release the waiters *)
  | LScan (e : exn) (futs : list nat)               (* at the head of the loop *)
  | LState (e : exn) (f : nat) (futs : list nat)    (* about to read the submission state *)
  | LSchedule (e : exn) (t : task) (futs : list nat)  (* waiting for a completion slot *)
  | LEnd.

(** The sender thread. *)
Inductive sender_pc :=
  | XGet
  | XItem (m : option Message) (f : option nat)
  | XForget (f : nat)
  | XSock (m : Message) (f : option nat)            (* about to read the socket *)
  | XSend (m : Message) (f : option nat)
  | XLost (l : lost_pc)
  | XStopped.

(** The receiver thread. *)
Inductive receiver_pc :=
  | RRead                                            (* about to read the socket *)
  | RRecv
  | RMessage (m : Message)
  | RTerminal (f : nat) (m : Message)                (* about to note the terminal message *)
  | RSchedule (t : task)                             (* waiting for a completion slot *)
  | RRelease (slot : nat)                            (* about to set the event of a call *)
  | RLost (l : lost_pc) (stop : bool)
  | RStopped.

(** The completion thread, or a thread that runs a completion itself because the
    executor has been shut down. *)
Inductive exec_pc :=
  | EIdle
  | ERun (t : task)
  | EAck (f : nat)
  | ELost (f : nat) (l : lost_pc)
  | EForget (f : nat)
  | EDiscard (f : nat)
  | EForgetOnly (f : nat)
  | EGone.

(** A thread in [_submit]. *)
Inductive submit_pc :=
  | PRegister (o : SubmissionOptions) (mode operation : pyval) (payload : bytes)
  | PValidate (f : nat) (m : Message)
  | PLate (f : nat) (m : Message)
  | PPut (f : nat) (m : Message)
  | PReturned (f : nat)
  | PRaised (f : option nat) (e : exn).

(** A thread in [_cancel] or [_rpc_request]. *)
Inductive call_pc :=
  | KRegister (kind : MessageType) (control : pydict) (key : pystr)
  | KEnqueue (kind : MessageType) (control : pydict) (token : pystr) (slot : nat)
  | KWait (token : pystr) (slot : nat)
  | KCancelled (token : pystr)                       (* about to call [_set_cancelled] *)
  | KPop (token : pystr) (answer : result exn pydict)
  | KEnd (answer : result exn pydict).

(** The thread of [shutdown] and [_finish_shutdown]. *)
Inductive fin_pc :=
  | FCancel (futs rest : list nat)                   (* cancelling the futures one by one *)
  | FCancelling (call : nat) (futs rest : list nat)
  | FWait (futs : list nat)
  | FClose
  | FCalling (call : nat)
  | FSentinel
  | FSocket
  | FDrain
  | FDispatch
  | FExecutors
  | FEnd.

(** The event and the response of a call, with its token. *)
Record Rpc := mkRpc {
  rpc_token : pystr; rpc_set : bool; rpc_response : pydict; rpc_error : option exn }.

(** A call: the future a cancellation is about, and its position. *)
Record Call := mkCall { ca_future : option nat; ca_pc : call_pc }.

Definition WIRE : pystr := py "experimental-deadpool-private-v1".

Section Client.
Context {J : JsonText} {V : Type}.
Context (limits : RemoteLimits) (client_id : pystr) (sha256_hex : bytes → pystr).

(** [serializer.loads]: a value, or an exception object. *)
Context (loads : bytes → result exn (V + exn)).
Notation RemoteFuture := (RemoteFuture (V + exn)).

Record Client := mkClient {
  cl_sequence : Z;
  cl_socket : bool;                                  (* [self._socket is not None] *)
  cl_outbound : list (option Message * option nat);
  cl_futures : list (pystr * nat);
  cl_terminal : list pystr;
  cl_rpc : list (pystr * nat);
  cl_closed : bool;
  cl_failed : bool;
  cl_tasks : list task;                              (* the completion executor's queue *)
  cl_slots : Z;                                      (* free completion slots *)
  cl_executor_down : bool;
  cl_dispatch : list (list nat * nat);               (* callback batches to dispatch *)
  cl_dispatch_closed : bool;
  cl_batches : list (list nat * nat);                (* callback batches that run *)
  cl_invoked : list (nat * nat);                     (* callbacks that were called *)
  cl_fut_heap : list RemoteFuture;
  cl_rpc_heap : list Rpc;
  cl_written : list (Message * option nat);          (* what was handed to the socket *)
  cl_sender : sender_pc;
  cl_receiver : receiver_pc;
  cl_execs : list exec_pc;                           (* the first is the executor's thread *)
  cl_submits : list submit_pc;
  cl_calls : list Call;
  cl_fin : option fin_pc;
  cl_callbacks : nat }.                              (* callbacks that were registered *)

#[export] Instance Rpc_inhabited : Inhabited Rpc := populate (mkRpc [] false [] None).
#[export] Instance exec_pc_inhabited : Inhabited exec_pc := populate EGone.
#[export] Instance submit_pc_inhabited : Inhabited submit_pc := populate (PRaised None (Raise BaseException "")).
#[export] Instance Call_inhabited : Inhabited Call := populate (mkCall None (KEnd (Err (Raise BaseException "")))).

Notation M := (ST Client).

Definition fut (s : Client) (f : nat) : RemoteFuture := cl_fut_heap s !!! f.
Definition rid (s : Client) (f : nat) : pystr := rf_request_id (fut s f).
Definition rpc (s : Client) (k : nat) : Rpc := cl_rpc_heap s !!! k.

(** *** Changes of one field *)
Definition set_fut (f : nat) (g : RemoteFuture → RemoteFuture) (s : Client) : Client :=
  {| s with cl_fut_heap := alter g f (cl_fut_heap s) |}.
Definition set_futures (g : list (pystr * nat) → list (pystr * nat)) (s : Client) : Client :=
  {| s with cl_futures := g (cl_futures s) |}.
Definition set_outbound (g : list (option Message * option nat) → list (option Message * option nat))
    (s : Client) : Client := {| s with cl_outbound := g (cl_outbound s) |}.
Definition set_terminal (g : list pystr → list pystr) (s : Client) : Client :=
  {| s with cl_terminal := g (cl_terminal s) |}.
Definition set_rpc (g : list (pystr * nat) → list (pystr * nat)) (s : Client) : Client :=
  {| s with cl_rpc := g (cl_rpc s) |}.
Definition set_rpc_slot (k : nat) (g : Rpc → Rpc) (s : Client) : Client :=
  {| s with cl_rpc_heap := alter g k (cl_rpc_heap s) |}.
Definition set_slots (g : Z → Z) (s : Client) : Client := {| s with cl_slots := g (cl_slots s) |}.
Definition set_sender (pc : sender_pc) (s : Client) : Client := {| s with cl_sender := pc |}.
Definition set_receiver (pc : receiver_pc) (s : Client) : Client := {| s with cl_receiver := pc |}.
Definition set_exec (x : nat) (pc : exec_pc) (s : Client) : Client :=
  {| s with cl_execs := alter (λ _, pc) x (cl_execs s) |}.
Definition set_submit (k : nat) (pc : submit_pc) (s : Client) : Client :=
  {| s with cl_submits := alter (λ _, pc) k (cl_submits s) |}.
Definition set_call (k : nat) (pc : call_pc) (s : Client) : Client :=
  {| s with cl_calls := alter (λ c, mkCall (ca_future c) pc) k (cl_calls s) |}.
Definition set_fin (pc : fin_pc) (s : Client) : Client := {| s with cl_fin := Some pc |}.
Definition add_dispatch (b : list nat * nat) (s : Client) : Client :=
  {| s with cl_dispatch := cl_dispatch s ++ [b] |}.
Definition add_invoked (b : list nat * nat) (s : Client) : Client :=
  {| s with cl_invoked := cl_invoked s ++ ((λ cb, (cb, b.2)) <$> b.1) |}.
Definition add_task (t : task) (s : Client) : Client := {| s with cl_tasks := cl_tasks s ++ [t] |}.
Definition add_exec (pc : exec_pc) (s : Client) : Client :=
  {| s with cl_execs := cl_execs s ++ [pc] |}.
Definition add_written (m : Message) (f : option nat) (s : Client) : Client :=
  {| s with cl_written := cl_written s ++ [(m, f)] |}.
Definition add_call (f : option nat) (pc : call_pc) (s : Client) : Client :=
  {| s with cl_calls := cl_calls s ++ [mkCall f pc] |}.

(** ** Futures and their callbacks *)

(** [_schedule_callbacks]; without a dispatcher the caller invokes them. *)
Definition schedule_callbacks (callbacks : list nat) (f : nat) : M unit :=
  match callbacks with
  | [] => skip
  | _ =>
      s ← gets id;
      if cl_dispatch_closed s then modify (add_invoked (callbacks, f))
      else modify (add_dispatch (callbacks, f))
  end.

(** A method that may end the future. *)
Definition end_future (f : nat) (op : RemoteFuture → RemoteFuture * list nat) : M unit :=
  s ← gets id;
  _ ← modify (set_fut f (λ x, (op x).1));
  schedule_callbacks (op (fut s f)).2 f.

(** [add_done_callback] with a fresh callback. *)
Definition add_done_callback (f : nat) : M unit :=
  s ← gets id;
  let cb := cl_callbacks s in
  _ ← modify (λ s, {| s with cl_callbacks := S cb |});
  _ ← modify (set_fut f (λ x, (rf_add_callback cb x).1));
  if (rf_add_callback cb (fut s f)).2 then modify (add_invoked ([cb], f)) else skip.

(** One turn of [_callback_dispatcher_loop], and one callback of a batch that runs. *)
Definition dispatcher_turn : M unit :=
  s ← gets id;
  match cl_dispatch s with
  | [] => skip
  | b :: rest =>
      modify (λ s, {| s with cl_dispatch := rest; cl_batches := cl_batches s ++ [b] |})
  end.

Definition batch_turn (k : nat) : M unit :=
  s ← gets id;
  match cl_batches s !! k with
  | Some (cb :: cbs, f) =>
      _ ← modify (λ s, {| s with cl_batches := alter (λ _, (cbs, f)) k (cl_batches s) |});
      modify (add_invoked ([cb], f))
  | _ => skip
  end.

(** ** Completions *)

(** [_schedule_completion] once a slot is free: the caller runs the function itself when the
    executor has been shut down. *)
Definition schedule_completion (t : task) : M unit :=
  s ← gets id;
  if cl_executor_down s then modify (add_exec (ERun t))
  else _ ← modify (set_slots (λ n, n - 1)); modify (add_task t).

Definition forget (f : nat) : M unit := modify (λ s, set_futures (λ d, dict_del d (rid s f)) s).

(** What [_complete] does to the future; [loads] may raise. *)
Definition remote_error_or (e : exn) (rid : pystr) : failure :=
  if isinstance e RemoteExecutorError then Plain e
  else remote_failure RemoteProtocolError "" rid ArgNone ArgNone.

Definition task_failure (m : Message) (rid : pystr) : failure :=
  let undecoded := remote_failure RemoteTaskError "remote task failed" rid ArgNone ArgNone in
  match m_payload m with
  | [] => undecoded
  | payload => match loads payload with Ok (inr e) => Plain e | _ => undecoded end
  end.

Definition complete_op (m : Message) (rid : pystr) : RemoteFuture → RemoteFuture * list nat :=
  match m_kind m with
  | RESULT =>
      match loads (m_payload m) with
      | Ok v => rf_set_result v
      | Err e => rf_set_exception (remote_error_or e rid) false
      end
  | TASK_ERROR => rf_set_exception (task_failure m rid) true
  | TIMED_OUT => rf_set_exception (Plain (Raise PoolTimeoutError "remote task timed out")) false
  | CANCELLED_ => rf_set_cancelled
  | QUEUE_TIMED_OUT_ =>
      rf_set_exception (remote_failure RemoteQueueTimeout "remote queue wait expired" rid ArgNone ArgNone) false
  | WORKER_LOST_ =>
      rf_set_exception (remote_failure RemoteProcessError "worker lost" rid ArgNone ArgNone) false
  | RESULT_ENCODING_FAILED_ =>
      rf_set_exception (remote_failure RemoteResultEncodingError "result encoding failed" rid ArgNone ArgNone) false
  | RESULT_TOO_LARGE_ =>
      rf_set_exception (remote_failure RemoteResultTooLarge "result too large" rid ArgNone ArgNone) false
  | _ => λ x, (x, [])
  end.

(** The exception [_reject] chooses. *)
Definition reject_failure (control : pydict) (rid : pystr) : failure :=
  match get_or control "reason" (PStr (py "rejected")) with
  | PStr reason =>
      if decide (reason = py "queue_full")
      then remote_failure RemoteQueueFull "server queue is full" rid ArgNone ArgNone
      else if decide (reason = py "queue_timeout")
      then remote_failure RemoteQueueTimeout "server queue wait expired" rid ArgNone ArgNone
      else remote_failure RemoteExecutorError "remote submission rejected" rid
             (ArgMember NOT_ACCEPTED) (ArgMember NOT_STARTED)
  | _ => remote_failure RemoteExecutorError "remote submission rejected" rid
           (ArgMember NOT_ACCEPTED) (ArgMember NOT_STARTED)
  end.

(** [Queue.full] of the outbound queue. *)
Definition outbound_full (s : Client) : bool :=
  (0 <? outbound_queue_size limits)
  && (outbound_queue_size limits <=? Z.of_nat (length (cl_outbound s))).

(** ** [_connection_lost] *)

(** The exception of a future that was in the given state when the connection was lost. *)
Definition lost_failure (st : SubmissionState.t) (rid : pystr) : failure :=
  match st with
  | SubmissionState.LOCAL_PENDING => remote_failure RemoteExecutorUnavailable "" rid ArgNone ArgNone
  | SubmissionState.SENT_UNACKNOWLEDGED => remote_failure SubmissionOutcomeUnknown "" rid ArgNone ArgNone
  | _ => remote_failure RemoteConnectionLost "" rid (ArgMember ACCEPTED) (ArgMember MAY_HAVE_RUN)
  end.

Definition release_waiter (e : exn) (k : nat) : M unit :=
  modify (set_rpc_slot k (λ r, mkRpc (rpc_token r) true (rpc_response r) (Some e))).

(** The next stretch, and where the thread is then. *)
Definition lost_step (l : lost_pc) : M lost_pc :=
  match l with
  | LBegin e =>
      s ← gets id;
      if cl_failed s then mret LEnd
      else
        _ ← modify (λ s, {| s with cl_failed := true; cl_socket := false; cl_rpc := [] |});
        mret (LRpc e (cl_rpc s).*2 (cl_futures s).*2)
  | LRpc e slots futs => _ ← for_each slots (release_waiter e); mret (LScan e futs)
  | LScan e [] => mret LEnd
  | LScan e (f :: futs) =>
      s ← gets id;
      if rf_done (fut s f) || bool_decide (rid s f ∈ cl_terminal s) then mret (LScan e futs)
      else mret (LState e f futs)
  | LState e f futs =>
      s ← gets id;
      mret (LSchedule e (TFail f (lost_failure (rf_submission (fut s f)) (rid s f))) futs)
  | LSchedule e t futs => _ ← schedule_completion t; mret (LScan e futs)
  | LEnd => mret LEnd
  end.

(** ** The sender *)

Definition sender_get : M unit :=
  s ← gets id;
  match cl_outbound s with
  | [] => skip
  | (m, f) :: rest => _ ← modify (set_outbound (λ _, rest)); modify (set_sender (XItem m f))
  end.

Definition sender_item (m : option Message) (f : option nat) : M unit :=
  match m, f with
  | None, _ => modify (set_sender XStopped)
  | Some m, None => modify (set_sender (XSock m None))
  | Some m, Some f =>
      s ← gets id;
      _ ← modify (set_fut f (λ x, (set_sent x).1));
      modify (set_sender (if (set_sent (fut s f)).2 then XSock m (Some f) else XForget f))
  end.

Definition sender_sock (m : Message) (f : option nat) : M unit :=
  s ← gets id;
  modify (set_sender (if cl_socket s then XSend m f
                      else XLost (LBegin (Raise OSError "connection is closed")))).

(** [send_message]: it may write a part before it raises. *)
Definition sender_send (m : Message) (f : option nat) (res : option exn) : M unit :=
  _ ← modify (add_written m f);
  modify (set_sender match res with None => XGet | Some e => XLost (LBegin e) end).

Definition sender_step (pc : sender_pc) (res : option exn) : M unit :=
  match pc with
  | XGet => sender_get
  | XItem m f => sender_item m f
  | XForget f => _ ← forget f; modify (set_sender XGet)
  | XSock m f => sender_sock m f
  | XSend m f => sender_send m f res
  | XLost LEnd => modify (set_sender XStopped)
  | XLost l => l' ← lost_step l; modify (set_sender (XLost l'))
  | XStopped => skip
  end.

(** ** The receiver *)

Definition is_terminal (k : MessageType) : bool :=
  bool_decide (k ∈ [RESULT; TASK_ERROR; TIMED_OUT; CANCELLED_; WORKER_LOST_;
                    RESULT_ENCODING_FAILED_; RESULT_TOO_LARGE_; QUEUE_TIMED_OUT_]).
Definition is_response (k : MessageType) : bool :=
  bool_decide (k ∈ [CANCEL_RESPONSE; CANCEL_GROUP_RESPONSE; STATUS_RESPONSE; STATS_RESPONSE;
                    PONG; CLOSE_SESSION_RESPONSE]).

(** The future a message is about. *)
Definition future_of (s : Client) (m : Message) : option nat :=
  match get (m_control m) "request_id" with PStr id => dict_get (cl_futures s) id | _ => None end.

(** [message.control.get("token") or message.control.get("nonce")]. *)
Definition token_of (m : Message) : pyval :=
  let t := get (m_control m) "token" in if py_truthy t then t else get (m_control m) "nonce".

(** Where [_receive] goes. *)
Definition receive (m : Message) : M unit :=
  s ← gets id;
  let kind := m_kind m in
  let other :=
    if is_response kind then
      match token_of m with
      | PStr token =>
          match dict_get (cl_rpc s) token with
          | Some k =>
              _ ← modify (set_rpc (λ d, dict_del d token));
              _ ← modify (set_rpc_slot k (λ r, mkRpc (rpc_token r) (rpc_set r) (m_control m) (rpc_error r)));
              modify (set_receiver (RRelease k))
          | None => modify (set_receiver RRead)
          end
      | _ => modify (set_receiver RRead)
      end
    else if decide (kind = GOAWAY) then
      modify (set_receiver (RLost (LBegin (Raise RemoteConnectionLost "server closed the session")) false))
    else if decide (kind = PROTOCOL_ERROR ∨ kind = HANDSHAKE_REJECTED) then
      modify (set_receiver (RLost (LBegin (Raise RemoteProtocolError "")) false))
    else modify (set_receiver RRead) in
  match future_of s m with
  | Some f =>
      if decide (kind = ACCEPTED_) then modify (set_receiver (RSchedule (TAccepted f)))
      else if decide (kind = RUNNING_) then
        modify (set_receiver (RSchedule
          (TRunning f (get (m_control m) "pid") (get (m_control m) "worker_id"))))
      else if is_terminal kind then modify (set_receiver (RTerminal f m))
      else if decide (kind = REJECTED) then
        modify (set_receiver (RSchedule (TReject f (m_control m))))
      else other
  | None => other
  end.

Definition receiver_read : M unit :=
  s ← gets id; modify (set_receiver (if cl_socket s then RRecv else RStopped)).

Definition set_add (x : pystr) (l : list pystr) : list pystr :=
  if bool_decide (x ∈ l) then l else l ++ [x].

Definition receiver_terminal (f : nat) (m : Message) : M unit :=
  s ← gets id;
  _ ← modify (set_terminal (set_add (rid s f)));
  modify (set_receiver (RSchedule (TComplete f m))).

Definition receiver_release (k : nat) : M unit :=
  _ ← modify (set_rpc_slot k (λ r, mkRpc (rpc_token r) true (rpc_response r) (rpc_error r)));
  modify (set_receiver RRead).

(** [res] is what [MessageReader.receive] returns. *)
Definition receiver_step (pc : receiver_pc) (res : result exn Message) : M unit :=
  match pc with
  | RRead => receiver_read
  | RRecv =>
      modify (set_receiver match res with Ok m => RMessage m | Err e => RLost (LBegin e) true end)
  | RMessage m => receive m
  | RTerminal f m => receiver_terminal f m
  | RSchedule t => _ ← schedule_completion t; modify (set_receiver RRead)
  | RRelease k => receiver_release k
  | RLost LEnd stop => modify (set_receiver (if stop then RStopped else RRead))
  | RLost l stop => l' ← lost_step l; modify (set_receiver (RLost l' stop))
  | RStopped => skip
  end.

(** ** The completion thread *)

(** The end of [_run_bounded]: the slot is released by the executor's thread. *)
Definition exec_finish (x : nat) : M unit :=
  match x with
  | O => _ ← modify (set_slots (λ n, n + 1)); modify (set_exec 0 EIdle)
  | _ => modify (set_exec x EGone)
  end.

Definition exec_take : M unit :=
  s ← gets id;
  match cl_tasks s with
  | [] => skip
  | t :: rest =>
      _ ← modify (λ s, {| s with cl_tasks := rest |});
      modify (set_exec 0 (ERun t))
  end.

Definition exec_run (x : nat) (t : task) : M unit :=
  s ← gets id;
  match t with
  | TAccepted f => _ ← modify (set_fut f set_accepted); exec_finish x
  | TRunning f pid worker_id => _ ← modify (set_fut f (set_running pid worker_id)); exec_finish x
  | TComplete f m => _ ← end_future f (complete_op m (rid s f)); modify (set_exec x (EAck f))
  | TReject f control =>
      _ ← end_future f (rf_set_exception (reject_failure control (rid s f)) false);
      modify (set_exec x (EForgetOnly f))
  | TFail f e =>
      _ ← end_future f (rf_set_exception e false);
      modify (set_exec x (EForgetOnly f))
  end.

(** The acknowledgement is queued, or the wait for room ends the connection. *)
Definition result_ack (s : Client) (f : nat) : Message :=
  mkMessage RESULT_ACK (mkdict [("request_id", PStr (rid s f))])%string [].

Definition exec_ack (x f : nat) (full : bool) : M unit :=
  s ← gets id;
  if full then
    modify (set_exec x (ELost f (LBegin (Raise RemoteConnectionLost "client outbound control queue is full"))))
  else
    _ ← modify (set_outbound (λ q, q ++ [(Some (result_ack s f), None)]));
    modify (set_exec x (EForget f)).

Definition exec_step (x : nat) (pc : exec_pc) (full : bool) : M unit :=
  match pc with
  | EIdle => exec_take
  | ERun t => exec_run x t
  | EAck f => exec_ack x f full
  | ELost f LEnd => modify (set_exec x (EForget f))
  | ELost f l => l' ← lost_step l; modify (set_exec x (ELost f l'))
  | EForget f => _ ← forget f; modify (set_exec x (EDiscard f))
  | EDiscard f =>
      s ← gets id;
      _ ← modify (set_terminal (filter (.≠ rid s f)));
      exec_finish x
  | EForgetOnly f => _ ← forget f; exec_finish x
  | EGone => skip
  end.

(** ** Submissions *)

(** [_submit] up to the serialization; [payload] is what [_serialize_invocation] returns. *)
Definition submit_begin (kwargs : pydict) (default_timeout : pyfloat) (mode operation : pyval)
    (payload : result exn bytes) : M unit :=
  s ← gets id;
  if cl_closed s then raise (Raise RuntimeError "cannot schedule new futures after shutdown")
  else
    o ← lift (submission_options kwargs default_timeout);
    _ ← lift (check_priority (op_priority o));
    payload ← lift payload;
    modify (λ s, {| s with cl_submits := cl_submits s ++ [PRegister o mode operation payload] |}).

(** [f"{self._client_id}:{self._sequence}"]. *)
Definition request_id_of (sequence : Z) : pystr := client_id ++ colon :: str_of_int sequence.

Definition submit_control (o : SubmissionOptions) (rid : pystr) (mode operation : pyval)
    (payload : bytes) : pydict :=
  mkdict
    [("request_id", PStr rid);
     ("digest", PStr (sha256_hex payload));
     ("mode", mode);
     ("operation", operation);
     ("priority", op_priority o);
     ("execution_timeout", op_execution_timeout o);
     ("queue_timeout", op_queue_timeout o);
     ("group_id", op_group_id o);
     ("metadata", op_metadata o)]%string.

(** The registration, in one critical section, and the message. *)
Definition submit_register (k : nat) (o : SubmissionOptions) (mode operation : pyval)
    (payload : bytes) : M unit :=
  s ← gets id;
  if cl_closed s then
    modify (set_submit k (PRaised None (Raise RuntimeError "cannot schedule new futures after shutdown")))
  else if cl_failed s || negb (cl_socket s) then
    modify (set_submit k (PRaised None (Raise RemoteExecutorUnavailable "connection is unavailable")))
  else
    let n := cl_sequence s + 1 in
    let f := length (cl_fut_heap s) in
    let id := request_id_of n in
    _ ← modify (λ s, {| s with
          cl_sequence := n;
          cl_fut_heap := cl_fut_heap s ++ [remote_future_init id];
          cl_futures := dict_set (cl_futures s) id f |});
    modify (set_submit k (PValidate f (mkMessage SUBMIT (submit_control o id mode operation payload) payload))).

(** A submission that fails takes its future out of the table. *)
Definition submit_abandon (k f : nat) (e : exn) : M unit :=
  _ ← forget f; modify (set_submit k (PRaised (Some f) e)).

Definition submit_validate (k f : nat) (m : Message) : M unit :=
  match validate_control (m_control m) limits with
  | Ok _ => modify (set_submit k (PLate f m))
  | Err e => submit_abandon k f e
  end.

(** [late]: the deadline has passed. *)
Definition submit_late (k f : nat) (m : Message) (late : bool) : M unit :=
  if late then submit_abandon k f (Raise RemoteSubmissionTimeout "local submission work exceeded its timeout")
  else modify (set_submit k (PPut f m)).

(** The put, or its timeout. *)
Definition submit_put (k f : nat) (m : Message) (full : bool) : M unit :=
  if full then submit_abandon k f (Raise RemoteSubmissionTimeout "client outbound queue is full")
  else
    _ ← modify (set_outbound (λ q, q ++ [(Some m, Some f)]));
    modify (set_submit k (PReturned f)).

(** [flag]: the deadline has passed, or the put has timed out. *)
Definition submit_step (k : nat) (pc : submit_pc) (flag : bool) : M unit :=
  match pc with
  | PRegister o mode operation payload => submit_register k o mode operation payload
  | PValidate f m => submit_validate k f m
  | PLate f m => submit_late k f m flag
  | PPut f m => submit_put k f m flag
  | PReturned _ | PRaised _ _ => skip
  end.

(** ** Calls *)

(** [RemoteFuture.cancel] and [cancel_and_kill_if_running] before they ask the server. *)
Definition cancel_control (s : Client) (f : nat) (hard : bool) : pydict :=
  mkdict [("request_id", PStr (rid s f)); ("hard", PBool hard)]%string.

Definition future_cancel (f : nat) : M unit :=
  s ← gets id;
  match rf_cancel (fut s f) with
  | (_, Some false) => skip
  | (_, Some true) => end_future f rf_set_cancelled
  | (_, None) => modify (add_call (Some f) (KRegister CANCEL_REQUEST (cancel_control s f false) (py "token")))
  end.

Definition future_kill (f : nat) : M unit :=
  s ← gets id;
  if rf_done (fut s f) then skip
  else modify (add_call (Some f) (KRegister CANCEL_REQUEST (cancel_control s f true) (py "token"))).

(** [_rpc_request]. *)
Definition rpc_request (kind : MessageType) (control : pydict) : M unit :=
  modify (add_call None (KRegister kind control (py (if decide (kind = PING) then "nonce" else "token")))).

(** The exception of a call whose connection is gone: a cancellation has its own. *)
Definition unavailable (f : option nat) : exn :=
  match f with
  | Some _ => Raise RemoteCancellationOutcomeUnknown "connection is unavailable"
  | None => Raise RemoteConnectionLost "connection is unavailable"
  end.
Definition timed_out (f : option nat) : exn :=
  match f with
  | Some _ => Raise RemoteCancellationOutcomeUnknown "timed out waiting for cancellation decision"
  | None => Raise TimeoutError_ "remote control request timed out"
  end.

(** The waiter is registered in the section that checks the connection. *)
Definition call_register (k : nat) (c : Call) (kind : MessageType) (control : pydict) (key token : pystr)
    : M unit :=
  s ← gets id;
  if negb (cl_socket s) then modify (set_call k (KEnd (Err (unavailable (ca_future c)))))
  else
    let slot := length (cl_rpc_heap s) in
    _ ← modify (λ s, {| s with
          cl_rpc_heap := cl_rpc_heap s ++ [mkRpc token false [] None];
          cl_rpc := dict_set (cl_rpc s) token slot |});
    modify (set_call k (KEnqueue kind (control ++ [(PStr key, PStr token)]) token slot)).

(** [_enqueue_control]. *)
Definition call_enqueue (k : nat) (kind : MessageType) (control : pydict) (token : pystr) (slot : nat)
    (full : bool) : M unit :=
  if full then
    modify (set_call k (KPop token (Err (Raise RemoteConnectionLost "client outbound control queue is full"))))
  else
    _ ← modify (set_outbound (λ q, q ++ [(Some (mkMessage kind control []), None)]));
    modify (set_call k (KWait token slot)).

(** The wait is over: the event was set, or the time ran out. *)
Definition call_wait (k : nat) (c : Call) (token : pystr) (slot : nat) (late : bool) : M unit :=
  s ← gets id;
  let r := rpc s slot in
  if negb (rpc_set r) then modify (set_call k (KPop token (Err (timed_out (ca_future c)))))
  else
    match ca_future c with
    | None =>
        modify (set_call k (KPop token
          match rpc_error r with
          | Some _ => Err (Raise RemoteConnectionLost "")
          | None => Ok (rpc_response r)
          end))
    | Some f =>
        match get (rpc_response r) "response" with
        | PStr d =>
            if decide (d = py "cancelled") then modify (set_call k (KCancelled token))
            else if decide (d = py "running" ∨ d = py "terminal")
            then modify (set_call k (KPop token (Ok (rpc_response r))))
            else modify (set_call k (KPop token (Err (Raise RemoteCancellationOutcomeUnknown ""))))
        | PList _ | PDict _ => modify (set_call k (KPop token (Err (Raise TypeError "unhashable type"))))
        | _ => modify (set_call k (KPop token (Err (Raise RemoteCancellationOutcomeUnknown ""))))
        end
    end.

Definition call_cancelled (k : nat) (c : Call) (token : pystr) : M unit :=
  match ca_future c with
  | Some f => _ ← end_future f rf_set_cancelled; modify (set_call k (KPop token (Ok [])))
  | None => skip
  end.

Definition call_pop (k : nat) (token : pystr) (answer : result exn pydict) : M unit :=
  _ ← modify (set_rpc (λ d, dict_del d token)); modify (set_call k (KEnd answer)).

(** [token] is the one [uuid4] makes, [flag] a timeout. *)
Definition call_step (k : nat) (c : Call) (token : pystr) (flag : bool) : M unit :=
  match ca_pc c with
  | KRegister kind control key => call_register k c kind control key token
  | KEnqueue kind control tok slot => call_enqueue k kind control tok slot flag
  | KWait tok slot => call_wait k c tok slot flag
  | KCancelled tok => call_cancelled k c tok
  | KPop tok answer => call_pop k tok answer
  | KEnd _ => skip
  end.

(** ** Shutdown *)

(** [shutdown]; with [cancel_futures] the calling thread cancels every future first, and an
    exception of a cancellation is dropped. *)
Definition shutdown (cancel_futures : bool) : M unit :=
  s ← gets id;
  if cl_closed s then skip
  else
    _ ← modify (λ s, {| s with cl_closed := true |});
    modify (set_fin (if cancel_futures then FCancel (cl_futures s).*2 (cl_futures s).*2
                     else FWait (cl_futures s).*2)).

(** [_finish_shutdown], one stretch at a time; [full]: the sentinel could not be put. *)
Definition fin_step (pc : fin_pc) (full : bool) : M unit :=
  match pc with
  | FCancel futs [] => modify (set_fin (FWait futs))
  | FCancel futs (f :: rest) =>
      s ← gets id;
      if rf_done (fut s f) then modify (set_fin (FCancel futs rest))
      else
        _ ← future_cancel f;
        s' ← gets id;
        modify (set_fin (if decide (length (cl_calls s') = length (cl_calls s))
                         then FCancel futs rest else FCancelling (length (cl_calls s)) futs rest))
  | FCancelling _ futs rest => modify (set_fin (FCancel futs rest))
  | FWait _ => modify (set_fin FClose)
  | FClose =>
      s ← gets id;
      if cl_socket s && negb (cl_failed s) then
        _ ← rpc_request CLOSE_SESSION [];
        modify (set_fin (FCalling (length (cl_calls s))))
      else modify (set_fin FSentinel)
  | FCalling _ => modify (set_fin FSentinel)
  | FSentinel =>
      _ ← (if full then skip else modify (set_outbound (λ q, q ++ [(None, None)])));
      modify (set_fin FSocket)
  | FSocket => _ ← modify (λ s, {| s with cl_socket := false |}); modify (set_fin FDrain)
  | FDrain => modify (set_fin FDispatch)
  | FDispatch => _ ← modify (λ s, {| s with cl_dispatch_closed := true |}); modify (set_fin FExecutors)
  | FExecutors => _ ← modify (λ s, {| s with cl_executor_down := true |}); modify (set_fin FEnd)
  | FEnd => skip
  end.

(** ** The client as a transition system *)

(** [DeadpoolClient.__init__] after a successful handshake. *)
Definition client_init : Client :=
  mkClient 0 true [] [] [] [] false false [] (inbound_queue_size limits) false [] false [] [] [] [] []
    XGet RRead [EIdle] [] [] None 0.

Inductive event :=
  | EvSubmit (kwargs : pydict) (default_timeout : pyfloat) (mode operation : pyval) (payload : result exn bytes)
  | EvSubmitStep (k : nat) (flag : bool)
  | EvSender (res : option exn)
  | EvReceiver (res : result exn Message)
  | EvExec (x : nat) (full : bool)
  | EvCancel (f : nat)
  | EvKill (f : nat)
  | EvRpc (kind : MessageType) (control : pydict)
  | EvCall (k : nat) (token : pystr) (flag : bool)
  | EvCallback (f : nat)
  | EvDispatcher
  | EvBatch (k : nat)
  | EvShutdown (cancel_futures : bool)
  | EvFin (full : bool).

Definition exec (e : event) : M unit :=
  match e with
  | EvSubmit kwargs d mode operation payload => submit_begin kwargs d mode operation payload
  | EvSubmitStep k flag => s ← gets id; submit_step k (cl_submits s !!! k) flag
  | EvSender res => s ← gets id; sender_step (cl_sender s) res
  | EvReceiver res => s ← gets id; receiver_step (cl_receiver s) res
  | EvExec x full => s ← gets id; exec_step x (cl_execs s !!! x) full
  | EvCancel f => future_cancel f
  | EvKill f => future_kill f
  | EvRpc kind control => rpc_request kind control
  | EvCall k token flag => s ← gets id; call_step k (cl_calls s !!! k) token flag
  | EvCallback f => add_done_callback f
  | EvDispatcher => dispatcher_turn
  | EvBatch k => batch_turn k
  | EvShutdown cancel_futures => shutdown cancel_futures
  | EvFin full => s ← gets id; match cl_fin s with Some pc => fin_step pc full | None => skip end
  end.

(** A completion slot is free: a thread that schedules a completion waits for one. *)
Definition lost_enabled (s : Client) (l : lost_pc) : bool :=
  match l with LSchedule _ _ _ => 0 <? cl_slots s | _ => true end.

(** What a thread must wait for; a put that times out found the queue full. *)
Definition enabled (e : event) (s : Client) : bool :=
  match e with
  | EvSubmitStep k flag =>
      (k <? length (cl_submits s))%nat
      && match cl_submits s !!! k with
         | PPut _ _ => Bool.eqb flag (outbound_full s)
         | PReturned _ | PRaised _ _ => false
         | _ => true
         end
  | EvSender _ =>
      match cl_sender s with
      | XGet => negb (bool_decide (cl_outbound s = []))
      | XLost l => lost_enabled s l
      | XStopped => false
      | _ => true
      end
  | EvReceiver _ =>
      match cl_receiver s with
      | RSchedule _ => 0 <? cl_slots s
      | RLost l _ => lost_enabled s l
      | RStopped => false
      | _ => true
      end
  | EvExec x full =>
      (x <? length (cl_execs s))%nat
      && match cl_execs s !!! x with
         | EIdle => match x with O => negb (match cl_tasks s with [] => true | _ => false end) | _ => false end
         | EAck _ => Bool.eqb full (outbound_full s)
         | ELost _ l => lost_enabled s l
         | EGone => false
         | _ => true
         end
  | EvCancel f | EvKill f | EvCallback f => (f <? length (cl_fut_heap s))%nat
  | EvCall k token flag =>
      (k <? length (cl_calls s))%nat
      && match ca_pc (cl_calls s !!! k) with
         | KRegister _ _ _ => bool_decide (token ∉ rpc_token <$> cl_rpc_heap s)
         | KEnqueue _ _ _ _ => Bool.eqb flag (outbound_full s)
         | KWait _ slot => rpc_set (rpc s slot) || flag
         | KEnd _ => false
         | _ => true
         end
  | EvFin full =>
      match cl_fin s with
      | Some (FWait futs) => forallb (λ f, rf_done (fut s f)) futs
      | Some (FCalling k) | Some (FCancelling k _ _) => match ca_pc (cl_calls s !!! k) with KEnd _ => true | _ => false end
      | Some FSentinel => Bool.eqb full (outbound_full s)
      | Some FDrain => cl_slots s =? inbound_queue_size limits
      | Some FEnd | None => false
      | _ => true
      end
  | _ => true
  end.

Definition client_step (s : Client) (e : event) (s' : Client) : Prop :=
  enabled e s = true ∧ (exec e s).1 = s'.

Definition client_reachable (s : Client) : Prop := ∃ es, steps client_step client_init es s.

Fixpoint client_run (s : Client) (es : list event) : option Client :=
  match es with
  | [] => Some s
  | e :: es' => if enabled e s then client_run (exec e s).1 es' else None
  end.

Lemma client_run_steps s es s' : client_run s es = Some s' → steps client_step s es s'.
Proof.
  revert s. induction es as [|e es IH]; cbn; intros s.
  - intros [= <-]. constructor.
  - destruct (enabled e s) eqn:E; [|done]. intros H%IH. by econstructor.
Qed.
End Client.
