(* ===== verification/ClientConnect.v ===== *)
(** * ClientConnect: opening a session and preparing a submission ([client.py])

    [_connect]: the HELLO, what the client makes of the answer, what becomes of
    the socket and which exception the application sees. [_submit] up to the
    registration of the future: the checks, the size limit and
    [_serialize_invocation]. *)
From S2P Require Import Prelude Errors StateErr PyVal PyInt Config Protocol Client.

(** ** The HELLO *)

(** The arguments of the client and the process it runs in; the authenticator is
    the user's and may raise. *)
Record ClientSetup := mkSetup {
  cs_limits : RemoteLimits;
  cs_client_id : pystr;
  cs_serializer_name : pystr;
  cs_serializer_protocol : pyval;
  cs_python : Z * Z;
  cs_implementation : pystr;
  cs_version : pystr;
  cs_application_fingerprint : option pystr;
  cs_registry_fingerprint : option pystr;
  cs_authenticator : option (result exn pyval) }.

Definition or_none (v : option pystr) : pyval := match v with Some s => PStr s | None => PNone end.

Definition hello_fields (c : ClientSetup) (authentication : pyval) : pydict :=
  mkdict [("versions", PList [PList [PInt MAJOR; PInt MINOR]]);
          ("features", PList [PStr (py "chunking")]);
          ("wire", PStr WIRE);
          ("client_instance_id", PStr (cs_client_id c));
          ("serializer", PStr (cs_serializer_name c));
          ("serializer_protocol", cs_serializer_protocol c);
          ("python", PList [PInt (cs_python c).1; PInt (cs_python c).2]);
          ("implementation", PStr (cs_implementation c));
          ("deadpool_version", PStr (cs_version c));
          ("capabilities", PList [PStr (py "callable"); PStr (py "registered")]);
          ("application_fingerprint", or_none (cs_application_fingerprint c));
          ("registry_fingerprint", or_none (cs_registry_fingerprint c));
          ("authentication", authentication);
          ("max_result_bytes", PInt (max_result_bytes (cs_limits c)));
          ("wire_limits", PDict (wire_limits (cs_limits c)))]%string.

Definition hello_control (c : ClientSetup) : result exn pydict :=
  authentication ← match cs_authenticator c with Some r => r | None => Ok PNone end;
  Ok (hello_fields c authentication).

(** ** The answer *)

Definition is_str_value (v : pyval) (t : pystr) : bool :=
  match v with PStr s => bool_decide (s = t) | _ => false end.

(** From the test of the kind to that of the wire limits, which are returned. *)
Definition check_response (limits : RemoteLimits) (response : Message) : result exn pydict :=
  let control := m_control response in
  if bool_decide (m_kind response = HANDSHAKE_REJECTED) then
    Err (Raise (if is_str_value (get control "reason") (py "authentication")
                then RemoteAuthenticationError else RemoteCompatibilityError)
           "remote handshake rejected")
  else if negb (bool_decide (m_kind response = WELCOME)) then
    Err (Raise RemoteProtocolError "server did not send WELCOME")
  else if negb (is_str_value (get control "wire") WIRE) then
    Err (Raise RemoteCompatibilityError "server selected an incompatible wire protocol")
  else
    server_wire_limits ← validate_wire_limits (get control "wire_limits");
    if negb (same_wire_limits limits server_wire_limits) then
      Err (Raise RemoteCompatibilityError "server selected incompatible wire limits")
    else Ok server_wire_limits.

(** ** The socket *)

Inductive sock_state := Unbound | Opened | Closed.
#[export] Instance sock_state_eq_dec : EqDecision sock_state.
Proof. solve_decision. Defined.

(** What the network does at each call: [None] is success. *)
Record Network := {
  nw_dial : option exn;
  nw_settimeout : option exn;
  nw_send : option exn;
  nw_receive : result exn Message;
  nw_unset : option exn;
  nw_close : option exn }.

Record Connecting := mkConnecting {
  co_sock : sock_state;
  co_sent : list Message;
  co_self_socket : bool;                (* [self._socket is sock] *)
  co_session : option (pyval * pyval * pyval);  (* server_id, epoch, session_id *)
  co_negotiated : pydict }.
Definition connecting_init : Connecting := mkConnecting Unbound [] false None [].

Definition set_sock (k : sock_state) (s : Connecting) : Connecting := {| s with co_sock := k |}.

(** [try: ... except BaseException as error: ...]. *)
Definition try_except {S A} (m : ST S A) (h : exn → ST S A) : ST S A := λ s,
  match m s with (s', Err e) => h e s' | r => r end.

(** One element of the list that [dict] is built from: a key and a value. *)
Definition pair_of (v : pyval) : result exn (pyval * pyval) :=
  match v with
  | PList [k; x] => if is_list k || is_dict k then Err (Raise TypeError "unhashable type") else Ok (k, x)
  | PStr [k; x] => Ok (PStr [k], PStr [x])
  | PDict [(k, _); (x, _)] => Ok (k, x)
  | PStr _ | PList _ | PDict _ => Err (Raise ValueError "dictionary update sequence element")
  | _ => Err (Raise TypeError "cannot convert dictionary update sequence element")
  end.

(** [d[k] = v]; keys that are not strings are never looked up and stay apart. *)
Fixpoint pd_set (d : pydict) (k v : pyval) : pydict :=
  match d with
  | [] => [(k, v)]
  | (k', v') :: d' =>
      match k, k' with
      | PStr a, PStr b => if decide (a = b) then (k', v) :: d' else (k', v') :: pd_set d' k v
      | _, _ => (k', v') :: pd_set d' k v
      end
  end.
(** [{**a, **b}]. *)
Definition pd_merge (a b : pydict) : pydict := foldl (λ d kv, pd_set d kv.1 kv.2) a b.

(** [dict(pairs)]. *)
Fixpoint dict_of_pairs (d : pydict) (l : list pyval) : result exn pydict :=
  match l with
  | [] => Ok d
  | v :: l' => kv ← pair_of v; dict_of_pairs (pd_set d kv.1 kv.2) l'
  end.

(** [dict(v or {})] of a JSON value. *)
Definition dict_or_empty (v : pyval) : result exn pydict :=
  if negb (py_truthy v) then Ok []
  else match v with
       | PDict d => Ok d
       | PList l => dict_of_pairs [] l
       | PStr _ => Err (Raise ValueError "dictionary update sequence element")
       | _ => Err (Raise TypeError "object is not iterable")
       end.

Section Connect.
Context (c : ClientSetup) (nw : Network).
Notation M := (ST Connecting).

Definition call (r : option exn) : M unit := match r with Some e => raise e | None => skip end.

(** The [try]: the exchange, in the order of the code. *)
Definition exchange : M (Message * pydict) :=
  _ ← call (nw_dial nw);
  _ ← modify (set_sock Opened);
  _ ← call (nw_settimeout nw);
  hello ← lift (hello_control c);
  _ ← call (nw_send nw);
  _ ← modify (λ s, {| s with co_sent := co_sent s ++ [mkMessage HELLO hello []] |});
  response ← lift (nw_receive nw);
  limits ← lift (check_response (cs_limits c) response);
  _ ← call (nw_unset nw);
  mret (response, limits).

(** [try: sock.close() except (UnboundLocalError, OSError): pass]. *)
Definition close_quietly : M unit :=
  s ← gets co_sock;
  if bool_decide (s = Unbound) then skip
  else
    _ ← modify (set_sock Closed);
    match nw_close nw with
    | Some e => if isinstance e OSError then skip else raise e
    | None => skip
    end.

(** What the application sees of an exception. *)
Definition reported (e : exn) : exn :=
  if isinstance e RemoteExecutorError then e else Raise RemoteExecutorUnavailable (exn_msg e).

(** The assignments under the lock. *)
Definition adopt (response : Message) (server_wire_limits : pydict) : M unit :=
  let control := m_control response in
  _ ← modify (λ s, {| s with co_self_socket := true;
        co_session := Some (get control "server_id", get control "epoch", get control "session_id") |});
  limits ← lift (dict_or_empty (get control "limits"));
  modify (λ s, {| s with co_negotiated := pd_merge limits server_wire_limits |}).

Definition connect : M unit :=
  '(response, limits) ← try_except exchange (λ e, _ ← close_quietly; raise (reported e));
  adopt response limits.
End Connect.

(** ** The size limit of an invocation *)

(** [int(v)]. *)
Definition int_of {U : UnicodeData} (v : pyval) : result exn Z :=
  match v with
  | PInt _ | PBool _ => Ok (int_value v)
  | PFloat f => int_of_float f
  | PStr t => int_of_str t
  | _ => Err (Raise TypeError "int() argument must be a string or a number")
  end.

Definition invocation_limit {U : UnicodeData} (limits : RemoteLimits) (negotiated : pydict) : result exn Z :=
  n ← int_of (get_or negotiated "max_invocation_bytes" (PInt (max_invocation_bytes limits)));
  Ok (Z.min (max_invocation_bytes limits) n).

(** [submit_task] checks its name before [_submit]. *)
Definition check_operation (operation : pyval) : result exn unit :=
  raise_if (negb (is_str operation && py_truthy operation)) (Raise ValueError "operation must be a non-empty string").

(** ** The calls of the application over [_rpc_request] *)

Definition group_request (group_id : pyval) (hard : bool) : result exn (MessageType * pydict) :=
  _ ← raise_if (negb (is_str group_id && py_truthy group_id)) (Raise ValueError "group_id must be a non-empty string");
  Ok (CANCEL_GROUP, mkdict [("group_id", group_id); ("hard", PBool hard)]%string).
Definition group_names : list string := ["cancelled"; "running"; "terminal"; "unknown"]%string.
Fixpoint group_answer {U : UnicodeData} (response : pydict) (names : list string) : result exn (list (string * Z)) :=
  match names with
  | [] => Ok []
  | n :: names' =>
      z ← int_of (get_or response n (PInt 0));
      rest ← group_answer response names'; Ok ((n, z) :: rest)
  end.

Definition health_request : MessageType * pydict := (PING, []).
Definition health_answer (response : pydict) : bool :=
  match pd_get response (py "nonce") with Some _ => true | None => false end.

Definition statistics_request : MessageType * pydict := (STATS_REQUEST, []).
Definition statistics_answer (response : pydict) : result exn pydict :=
  match pd_get response (py "error") with
  | Some _ => Err (Raise RemoteExecutorError "")
  | None => dict_or_empty (get response "statistics")
  end.

Definition status_request (request_id : pyval) : MessageType * pydict :=
  (STATUS_REQUEST, mkdict [("request_id", request_id)]%string).
(** [str(state)] where the server answers with a string. *)
Definition status_answer (response : pydict) : option pystr := as_str (get_or response "state" (PStr (py "UNKNOWN"))).
