(* ===== verification/Serialization.v ===== *)
(** * Serialization: the serializer lane of the client ([client.py], [_serialize_invocation])

    Threads that submit wait for one of [outbound_queue_size] slots, hand the
    invocation to the serialization executor and wait for its bytes until their
    deadline. The slot belongs to the work once the executor has it: it is given
    back when the work has ended and the callback is registered, whichever comes
    last, also when the thread that asked has given up. *)
From S2P Require Import Prelude Errors StateErr PyVal.

(** The work in the executor, with the thread that submitted it and whether
    [add_done_callback] was called. *)
Inductive work_state := WQueued | WRunning | WDone (r : result exn bytes) | WCancelled.
Record Work := mkWork { wk_state : work_state; wk_callback : bool; wk_owner : nat }.

(** A thread in [_serialize_invocation]. *)
Inductive ser_pc :=
  | SNew
  | SHolding                            (* has a slot, about to submit *)
  | SRegister (k : nat)                 (* about to add the callback *)
  | SWaiting (k : nat)                  (* in [work.result] *)
  | SEnd (r : result exn bytes).

Record Lane := mkLane {
  la_slots : Z;
  la_works : list Work;
  la_threads : list ser_pc;
  la_down : bool }.

Notation M := (ST Lane).
Definition release : M unit := modify (λ s, {| s with la_slots := la_slots s + 1 |}).
Definition set_pc (t : nat) (pc : ser_pc) : M unit :=
  modify (λ s, {| s with la_threads := alter (λ _, pc) t (la_threads s) |}).
Definition set_work (k : nat) (f : Work → Work) : M unit :=
  modify (λ s, {| s with la_works := alter f k (la_works s) |}).
Definition ended (w : Work) : bool := match wk_state w with WDone _ | WCancelled => true | _ => false end.

(** [_set_result], [cancel]: the work ends, and its callback runs. *)
Definition end_work (k : nat) (st : work_state) : M unit :=
  s ← gets la_works;
  _ ← set_work k (λ w, mkWork st (wk_callback w) (wk_owner w));
  match s !! k with Some w => if wk_callback w then release else skip | None => skip end.

Definition capacity_timeout : exn := Raise RemoteSubmissionTimeout "serializer capacity wait timed out".
Definition serialization_timeout : exn := Raise RemoteSubmissionTimeout "invocation serialization exceeded submission timeout".

(** The stretches of [_serialize_invocation]; [late] tells that the deadline passed. *)
Definition acquire (t : nat) (late : bool) : M unit :=
  if late then set_pc t (SEnd (Err capacity_timeout))
  else _ ← modify (λ s, {| s with la_slots := la_slots s - 1 |}); set_pc t SHolding.

Definition hand_over (t : nat) : M unit :=
  s ← gets (λ s, s);
  if la_down s then
    _ ← release; set_pc t (SEnd (Err (Raise RuntimeError "cannot schedule new futures after shutdown")))
  else
    _ ← modify (λ s, {| s with la_works := la_works s ++ [mkWork WQueued false t] |});
    set_pc t (SRegister (length (la_works s))).

Definition register (t k : nat) : M unit :=
  s ← gets la_works;
  _ ← set_work k (λ w, mkWork (wk_state w) true (wk_owner w));
  _ ← match s !! k with Some w => if ended w then release else skip | None => skip end;
  set_pc t (SWaiting k).

(** [except concurrent.futures.TimeoutError]: also one the serializer raised. *)
Definition wait (t k : nat) : M unit :=
  s ← gets la_works;
  match wk_state <$> s !! k with
  | Some (WDone (Ok b)) => set_pc t (SEnd (Ok b))
  | Some (WDone (Err e)) =>
      set_pc t (SEnd (Err (if isinstance e TimeoutError_ then serialization_timeout else e)))
  | Some WCancelled => set_pc t (SEnd (Err (Raise FuturesCancelledError "")))
  | Some WQueued => _ ← end_work k WCancelled; set_pc t (SEnd (Err serialization_timeout))
  | _ => set_pc t (SEnd (Err serialization_timeout))
  end.

Definition thread_step (t : nat) (pc : ser_pc) (late : bool) : M unit :=
  match pc with
  | SNew => acquire t late
  | SHolding => hand_over t
  | SRegister k => register t k
  | SWaiting k => wait t k
  | SEnd _ => skip
  end.

(** ** The lane as a transition system *)

Inductive event :=
  | EvEnter
  | EvThread (t : nat) (late : bool)
  | EvTake (k : nat)                    (* the executor starts a work *)
  | EvDone (k : nat) (r : result exn bytes)   (* [serializer.dumps] ends *)
  | EvDown.                             (* [executor.shutdown(wait=False)] *)

Definition exec (e : event) : M unit :=
  match e with
  | EvEnter => modify (λ s, {| s with la_threads := la_threads s ++ [SNew] |})
  | EvThread t late => s ← gets la_threads; match s !! t with Some pc => thread_step t pc late | None => skip end
  | EvTake k => set_work k (λ w, mkWork WRunning (wk_callback w) (wk_owner w))
  | EvDone k r => end_work k (WDone r)
  | EvDown => modify (λ s, {| s with la_down := true |})
  end.

(** A slot is acquired when there is one; [result] returns when the work has ended or the
    deadline passed; the executor starts what is queued and ends what runs. *)
Definition enabled (e : event) (s : Lane) : bool :=
  match e with
  | EvThread t late =>
      match la_threads s !! t with
      | Some SNew => late || (0 <? la_slots s)
      | Some (SWaiting k) => late || match la_works s !! k with Some w => ended w | None => false end
      | Some (SEnd _) | None => false
      | _ => true
      end
  | EvTake k => match wk_state <$> la_works s !! k with Some WQueued => true | _ => false end
  | EvDone k _ => match wk_state <$> la_works s !! k with Some WRunning => true | _ => false end
  | _ => true
  end.

Definition lane_init (size : Z) : Lane := mkLane size [] [] false.
Definition lane_step (s : Lane) (e : event) (s' : Lane) : Prop := enabled e s = true ∧ (exec e s).1 = s'.
Definition lane_reachable (size : Z) (s : Lane) : Prop := ∃ es, steps lane_step (lane_init size) es s.

(** ** Slots *)

Definition count {A} (p : A → bool) (l : list A) : Z := foldr (λ x n, Z.b2z (p x) + n) 0 l.
Lemma count_app {A} (p : A → bool) l1 l2 : count p (l1 ++ l2) = count p l1 + count p l2.
Proof. induction l1 as [|x l1 IH]; cbn; [done|]. unfold count in *. lia. Qed.
Lemma count_alter {A} (p : A → bool) f i l x :
  l !! i = Some x → count p (alter f i l) = count p l - Z.b2z (p x) + Z.b2z (p (f x)).
Proof.
  revert i. induction l as [|y l IH]; intros [|i] H; try done.
  - injection H as ->. cbn. unfold count. lia.
  - cbn. change (alter f (S i) (y :: l)) with (y :: alter f i l). cbn. unfold count in IH. rewrite (IH i H). lia.
Qed.
Lemma count_nonneg {A} (p : A → bool) l : 0 ≤ count p l.
Proof. induction l as [|x l IH]; cbn; [done|]. unfold count in IH. destruct (p x); cbn; lia. Qed.

(** Who has a slot: a thread between its wait and the executor, and a work that has not
    ended or has no callback yet. *)
Definition thread_holds (pc : ser_pc) : bool := match pc with SHolding => true | _ => false end.
Definition work_holds (w : Work) : bool := negb (ended w && wk_callback w).
Definition held (s : Lane) : Z := count thread_holds (la_threads s) + count work_holds (la_works s).

Record lane_ok (size : Z) (s : Lane) : Prop := {
  lk_exact : la_slots s + held s = size;
  lk_slots : 0 ≤ la_slots s;
  lk_register t k : la_threads s !! t = Some (SRegister k) →
    ∃ w, la_works s !! k = Some w ∧ wk_owner w = t ∧ wk_callback w = false;
  lk_waiting t k : la_threads s !! t = Some (SWaiting k) →
    ∃ w, la_works s !! k = Some w ∧ wk_owner w = t ∧ wk_callback w = true;
  lk_result t b : la_threads s !! t = Some (SEnd (Ok b)) →
    ∃ k w, la_works s !! k = Some w ∧ wk_owner w = t ∧ wk_state w = WDone (Ok b) }.

Lemma lookup_alter_if {A} (f : A → A) (l : list A) (i j : nat) : alter f i l !! j = if decide (i = j) then f <$> l !! j else l !! j.
Proof. case_decide as H; [subst; apply list_lookup_alter_eq|by apply list_lookup_alter_ne]. Qed.

(** A thread moves and perhaps a work changes, with its callback kept unless the thread is
    the one that registers it. *)
Lemma lane_ok_move size s t old pc slots ws down :
  lane_ok size s → la_threads s !! t = Some old →
  slots + count work_holds ws - Z.b2z (thread_holds old) + Z.b2z (thread_holds pc) = la_slots s + count work_holds (la_works s) →
  0 ≤ slots →
  (∀ k w, la_works s !! k = Some w → ∃ w', ws !! k = Some w' ∧ wk_owner w' = wk_owner w ∧
     (wk_owner w ≠ t → wk_callback w' = wk_callback w) ∧ (∀ b, wk_state w = WDone (Ok b) → wk_state w' = WDone (Ok b))) →
  match pc with
  | SRegister k => ∃ w, ws !! k = Some w ∧ wk_owner w = t ∧ wk_callback w = false
  | SWaiting k => ∃ w, ws !! k = Some w ∧ wk_owner w = t ∧ wk_callback w = true
  | SEnd (Ok b) => ∃ k w, ws !! k = Some w ∧ wk_owner w = t ∧ wk_state w = WDone (Ok b)
  | _ => True
  end →
  lane_ok size (mkLane slots ws (alter (λ _, pc) t (la_threads s)) down).
Proof.
  intros [He Hs Hr Hw Hv] Ht Hcount Hslots Hws Hpc. unfold held in He. split; unfold held; cbn [la_slots la_works la_threads].
  - rewrite (count_alter _ _ _ _ _ Ht). lia.
  - done.
  - intros t' k. rewrite lookup_alter_if. case_decide as Hd; [subst t'; rewrite Ht; intros [= ->]; exact Hpc|].
    intros (w & Hk & Ho & Hc)%Hr. destruct (Hws k w Hk) as (w' & ? & ? & Hcb & _). exists w'. split_and!; [done|congruence|].
    rewrite Hcb; congruence.
  - intros t' k. rewrite lookup_alter_if. case_decide as Hd; [subst t'; rewrite Ht; intros [= ->]; exact Hpc|].
    intros (w & Hk & Ho & Hc)%Hw. destruct (Hws k w Hk) as (w' & ? & ? & Hcb & _). exists w'. split_and!; [done|congruence|].
    rewrite Hcb; congruence.
  - intros t' b. rewrite lookup_alter_if. case_decide as Hd; [subst t'; rewrite Ht; intros [= ->]; exact Hpc|].
    intros (k & w & Hk & Ho & Hc)%Hv. destruct (Hws k w Hk) as (w' & ? & ? & _ & Hst). exists k, w'. split_and!; [done|congruence|auto].
Qed.

(** The executor changes a work. *)
Lemma lane_ok_works size s slots ws :
  lane_ok size s →
  slots + count work_holds ws = la_slots s + count work_holds (la_works s) → 0 ≤ slots →
  (∀ k w, la_works s !! k = Some w → ∃ w', ws !! k = Some w' ∧ wk_owner w' = wk_owner w ∧
     wk_callback w' = wk_callback w ∧ (∀ b, wk_state w = WDone (Ok b) → wk_state w' = WDone (Ok b))) →
  lane_ok size (mkLane slots ws (la_threads s) (la_down s)).
Proof.
  intros [He Hs Hr Hw Hv] Hcount Hslots Hws. unfold held in He. split; unfold held; cbn [la_slots la_works la_threads].
  - lia.
  - done.
  - intros t k (w & Hk & Ho & Hc)%Hr. destruct (Hws k w Hk) as (w' & ? & ? & Hcb & _). exists w'. split_and!; congruence.
  - intros t k (w & Hk & Ho & Hc)%Hw. destruct (Hws k w Hk) as (w' & ? & ? & Hcb & _). exists w'. split_and!; congruence.
  - intros t b (k & w & Hk & Ho & Hc)%Hv. destruct (Hws k w Hk) as (w' & ? & ? & _ & Hst). exists k, w'. split_and!; [done|congruence|auto].
Qed.

(** Every work stays what it is but the one that changes. *)
Lemma alter_work (P : Work → Work → Prop) f (ws : list Work) k w0 :
  ws !! k = Some w0 → (∀ w, P w w) → P w0 (f w0) →
  ∀ j w, ws !! j = Some w → ∃ w', alter f k ws !! j = Some w' ∧ P w w'.
Proof.
  intros Hk Hrefl Hf j w Hj. rewrite lookup_alter_if. case_decide as Hd; [|by eauto].
  subst j. rewrite Hj. assert (w = w0) as -> by congruence. cbn. by eauto.
Qed.

(** Ending a work gives its slot back if the callback is there. *)
Lemma end_work_run k st w s :
  la_works s !! k = Some w →
  end_work k st s = (mkLane (la_slots s + Z.b2z (wk_callback w)) (alter (λ w, mkWork st (wk_callback w) (wk_owner w)) k (la_works s))
                       (la_threads s) (la_down s), Ok tt).
Proof.
  intros Hk. unfold end_work, gets, set_work, release, modify, skip, mbind, ST_bind, mret, ST_ret. rewrite Hk.
  destruct (wk_callback w); [done|]. cbn. by rewrite Z.add_0_r.
Qed.
Lemma end_work_count k st w ws :
  ws !! k = Some w → ended w = false → ended (mkWork st true 0) = true →
  Z.b2z (wk_callback w) + count work_holds (alter (λ w, mkWork st (wk_callback w) (wk_owner w)) k ws) = count work_holds ws.
Proof.
  intros Hk He Hst. rewrite (count_alter _ _ _ _ _ Hk). unfold work_holds. rewrite He.
  assert (ended (mkWork st (wk_callback w) (wk_owner w)) = true) as -> by (by destruct st).
  destruct (wk_callback w); cbn; lia.
Qed.

Lemma lane_ok_thread size s t pc late :
  lane_ok size s → la_threads s !! t = Some pc → enabled (EvThread t late) s = true →
  lane_ok size (thread_step t pc late s).1.
Proof.
  intros Hok Ht Hen. pose proof Hok as [He Hs Hr Hw Hv]. cbn in Hen. rewrite Ht in Hen.
  assert (Hsame : ∀ k w, la_works s !! k = Some w → ∃ w', la_works s !! k = Some w' ∧ wk_owner w' = wk_owner w ∧
     (wk_owner w ≠ t → wk_callback w' = wk_callback w) ∧ (∀ b, wk_state w = WDone (Ok b) → wk_state w' = WDone (Ok b))) by eauto 10.
  destruct pc as [| |k|k|]; cbn [thread_step].
  - unfold acquire. destruct late; [|apply Z.ltb_lt in Hen]; (eapply (lane_ok_move size s); [done|done| | |exact Hsame|done]); cbn [thread_holds Z.b2z la_slots la_works]; lia.
  - unfold hand_over, gets, mbind, ST_bind. destruct (la_down s) eqn:Ed.
    + eapply (lane_ok_move size s); [done|done| | |exact Hsame|done]; cbn [thread_holds Z.b2z la_slots la_works]; lia.
    + eapply (lane_ok_move size s); [done|done| | | |].
      * cbn [la_works la_slots thread_holds Z.b2z]. rewrite count_app.
        change (count work_holds [mkWork WQueued false t]) with 1. lia.
      * done.
      * intros k w Hk. exists w. split; [by apply lookup_app_l_Some|done].
      * exists (mkWork WQueued false t). split; [|done]. cbn [la_works]. by rewrite lookup_app_r, Nat.sub_diag by lia.
  - destruct (Hr t k Ht) as (w & Hk & Ho & Hc). unfold register, gets, set_work, modify, release, skip, mbind, ST_bind, mret, ST_ret.
    rewrite Hk.
    assert (Hmove : lane_ok size (mkLane (la_slots s + Z.b2z (ended w)) (alter (λ w, mkWork (wk_state w) true (wk_owner w)) k (la_works s))
      (alter (λ _, SWaiting k) t (la_threads s)) (la_down s))).
    { eapply (lane_ok_move size s); [done|done| | | |].
      - rewrite (count_alter _ _ _ _ _ Hk). unfold work_holds, ended. cbn [wk_state wk_callback]. rewrite Hc. destruct (wk_state w); cbn; lia.
      - destruct (ended w); cbn; lia.
      - eapply (alter_work (λ w w', _)); [exact Hk|by intros; split_and!|]. cbn. by split_and!.
      - eexists. rewrite lookup_alter_if, decide_True, Hk by done. split; [done|]. by cbn. }
    destruct (ended w); [exact Hmove|]. cbn in Hmove. by rewrite Z.add_0_r in Hmove.
  - destruct (Hw t k Ht) as (w & Hk & Ho & Hc). rewrite Hk in Hen. unfold wait, gets. unfold mbind at 1, ST_bind at 1. rewrite Hk. cbn [fmap option_fmap option_map].
    destruct (wk_state w) as [| |[b|e]|] eqn:Est.
    + unfold mbind, ST_bind. rewrite (end_work_run k WCancelled w s Hk). eapply (lane_ok_move size s); [done|done| | | |done].
      * pose proof (end_work_count k WCancelled w (la_works s) Hk ltac:(unfold ended; by rewrite Est) eq_refl).
        cbn [thread_holds Z.b2z la_slots la_works]. lia.
      * destruct (wk_callback w); cbn; lia.
      * eapply (alter_work (λ w w', _)); [exact Hk|by intros; split_and!|]. cbn. split_and!; [done|done|]. by rewrite Est.
    + eapply (lane_ok_move size s); [done|done| | |exact Hsame|done]; cbn [thread_holds Z.b2z la_slots la_works]; lia.
    + eapply (lane_ok_move size s); [done|done| | |exact Hsame|]; [cbn [thread_holds Z.b2z]; lia|done|]. by exists k, w.
    + eapply (lane_ok_move size s); [done|done| | |exact Hsame|done]; cbn [thread_holds Z.b2z la_slots la_works]; lia.
    + eapply (lane_ok_move size s); [done|done| | |exact Hsame|done]; cbn [thread_holds Z.b2z la_slots la_works]; lia.
  - done.
Qed.

Lemma lane_ok_step size s e s' : lane_ok size s → lane_step s e s' → lane_ok size s'.
Proof.
  intros Hok [Hen <-]. pose proof Hok as [He Hs Hr Hw Hv]. destruct e as [|t late|k|k r|]; cbn [exec].
  - split; unfold held in *; cbn [fst modify la_slots la_works la_threads]; [rewrite count_app; cbn; lia|done|..];
      intros t' x H; apply lookup_app_Some in H as [H|[_ H]]; eauto; by apply list_lookup_singleton_Some in H as [_ ?].
  - unfold gets, mbind, ST_bind. destruct (la_threads s !! t) as [pc|] eqn:Ht; [|done]. by apply lane_ok_thread.
  - cbn in Hen. destruct (la_works s !! k) as [w|] eqn:Hk; [|done]. cbn in Hen. destruct (wk_state w) eqn:Est; try done.
    eapply (lane_ok_works size s); [done| |done|].
    + cbn [la_slots la_works]. rewrite (count_alter _ _ _ _ _ Hk). assert (work_holds w = true) as -> by (unfold work_holds, ended; by rewrite Est).
      change (work_holds (mkWork WRunning (wk_callback w) (wk_owner w))) with true. cbn [Z.b2z]. ring.
    + eapply (alter_work (λ w w', _)); [exact Hk|by intros; split_and!|]. cbn. split_and!; [done|done|]. by rewrite Est.
  - cbn in Hen. destruct (la_works s !! k) as [w|] eqn:Hk; [|done]. cbn in Hen. destruct (wk_state w) eqn:Est; try done.
    rewrite (end_work_run k (WDone r) w s Hk). eapply (lane_ok_works size s); [done| | |].
    + pose proof (end_work_count k (WDone r) w (la_works s) Hk ltac:(unfold ended; by rewrite Est) eq_refl).
      cbn [la_slots la_works]. lia.
    + destruct (wk_callback w); cbn; lia.
    + eapply (alter_work (λ w w', _)); [exact Hk|by intros; split_and!|]. cbn. split_and!; [done|done|]. by rewrite Est.
  - by split.
Qed.

(** C26: the slots of the serializer lane are exact, whatever is interleaved: the free slots
    and those in use always add up to the size of the lane, so none is lost or given back
    twice, although a submission that times out leaves its work behind; and the bytes a
    submission gets are those its own work made. *)
Theorem serialization_slots_exact size s :
  0 ≤ size → lane_reachable size s →
  la_slots s + held s = size ∧ 0 ≤ la_slots s ∧ 0 ≤ held s ∧
  ∀ t b, la_threads s !! t = Some (SEnd (Ok b)) →
    ∃ k w, la_works s !! k = Some w ∧ wk_owner w = t ∧ wk_state w = WDone (Ok b).
Proof.
  intros Hsize [es Hes]. assert (lane_ok size s) as [He Hs _ _ Hv].
  { eapply steps_invariant; [| |exact Hes]; [by intros; eapply lane_ok_step|]. split; [unfold held; cbn; lia|done|by intros t ?; cbn; rewrite lookup_nil..]. }
  split_and!; [done|done| |done]. unfold held. pose proof (count_nonneg thread_holds (la_threads s)).
  pose proof (count_nonneg work_holds (la_works s)). lia.
Qed.

Fixpoint lane_run (s : Lane) (es : list event) : option Lane :=
  match es with
  | [] => Some s
  | e :: es' => if enabled e s then lane_run (exec e s).1 es' else None
  end.
Lemma lane_run_steps s es s' : lane_run s es = Some s' → steps lane_step s es s'.
Proof.
  revert s. induction es as [|e es IH]; cbn; intros s; [intros [= <-]; constructor|].
  destruct (enabled e s) eqn:E; [|done]. intros H%IH. by econstructor.
Qed.

(** Two submissions on one slot: the first times out while its work runs, the second waits
    for the slot until that work has ended, and gets its own bytes. *)
Definition two_submissions : list event :=
  [EvEnter; EvEnter; EvThread 0 false; EvThread 0 false; EvTake 0; EvThread 0 false; EvThread 0 true;
   EvDone 0 (Ok [x01]); EvThread 1 false; EvThread 1 false; EvTake 1; EvDone 1 (Ok [x02]); EvThread 1 false; EvThread 1 false].
Lemma serialization_slots_exact_witness :
  ∃ s, lane_run (lane_init 1) two_submissions = Some s ∧
    la_threads s = [SEnd (Err serialization_timeout); SEnd (Ok [x02])] ∧ la_slots s + held s = 1.
Proof.
  destruct (lane_run (lane_init 1) two_submissions) as [s|] eqn:E; [|by vm_compute in E].
  exists s. split; [done|]. split; [vm_compute in E; by injection E as <-|].
  exact (proj1 (serialization_slots_exact 1 s ltac:(lia) (ex_intro _ _ (lane_run_steps _ _ _ E)))).
Defined.
