(* ===== verification/ClientInv.v ===== *)
(** * ClientInv: the invariant of the client executor

    [ReqInv] says where every outstanding request is: which messages were handed to the
    socket, which completions are due, and who still has to fail which future. It is kept
    by every primitive change under a condition, and every stretch is a sequence of such
    changes. *)
From stdpp Require Import pretty.
From S2P Require Import Prelude Errors Futures StateErr PyVal PyInt Config Protocol RemoteFuture Client.

(** ** What a thread has in hand at a position *)

(** The completion a thread waits to schedule. *)
Definition lost_task (l : lost_pc) : list task := match l with LSchedule _ t _ => [t] | _ => [] end.
Definition sender_task (pc : sender_pc) : list task := match pc with XLost l => lost_task l | _ => [] end.
Definition receiver_task (pc : receiver_pc) : list task :=
  match pc with RSchedule t => [t] | RLost l _ => lost_task l | _ => [] end.
Definition exec_task (pc : exec_pc) : list task :=
  match pc with ERun t => [t] | ELost _ l => lost_task l | _ => [] end.

(** The futures it still has to look at in [_connection_lost]. *)
Definition lost_todo (l : lost_pc) : list nat :=
  match l with
  | LRpc _ _ futs | LScan _ futs | LSchedule _ _ futs => futs
  | LState _ f futs => f :: futs
  | LBegin _ | LEnd => []
  end.
Definition sender_todo (pc : sender_pc) : list nat := match pc with XLost l => lost_todo l | _ => [] end.
Definition receiver_todo (pc : receiver_pc) : list nat := match pc with RLost l _ => lost_todo l | _ => [] end.
Definition exec_todo (pc : exec_pc) : list nat := match pc with ELost _ l => lost_todo l | _ => [] end.

(** Whether it is past the section of [_connection_lost] that marks the failure. *)
Definition lost_past (l : lost_pc) : bool := match l with LBegin _ | LEnd => false | _ => true end.
Definition sender_past (pc : sender_pc) : bool := match pc with XLost l => lost_past l | _ => false end.
Definition receiver_past (pc : receiver_pc) : bool := match pc with RLost l _ => lost_past l | _ => false end.
Definition exec_past (pc : exec_pc) : bool := match pc with ELost _ l => lost_past l | _ => false end.

Definition task_future (t : task) : nat :=
  match t with TAccepted f | TRunning f _ _ | TComplete f _ | TReject f _ | TFail f _ => f end.

(** A completion that ends its future. *)
Definition ending_task (t : task) : bool :=
  match t with TComplete _ _ | TFail _ _ => true | _ => false end.

Definition task_ok (t : task) : Prop :=
  match t with TComplete _ m => is_terminal (m_kind m) = true | _ => True end.

(** The failure that promises the request was never sent. *)
Definition unavailable_failure (e : failure) : bool :=
  match e with Remote e => bool_decide (re_class e = RemoteExecutorUnavailable) | Plain _ => false end.
Definition unavailable_outcome {A} (o : option (outcome A)) : bool :=
  match o with Some (OFailed e) => unavailable_failure e | _ => false end.
Definition unavailable_task (t : task) : bool :=
  match t with TFail _ e => unavailable_failure e | _ => false end.

(** The future whose message the sender holds or has handed to the socket. *)
Definition sender_marked (pc : sender_pc) : option nat :=
  match pc with XSock _ f | XSend _ f => f | _ => None end.
Definition sender_handed (pc : sender_pc) : option nat := match pc with XSend _ f => f | _ => None end.

(** Futures a position relies on being done, and futures it only names. *)
Definition sender_done (pc : sender_pc) : option nat := match pc with XForget f => Some f | _ => None end.
Definition exec_done (pc : exec_pc) : option nat :=
  match pc with EAck f | ELost f _ | EForget f | EDiscard f | EForgetOnly f => Some f | _ => None end.
Definition submit_names (pc : submit_pc) : option nat :=
  match pc with PValidate f _ | PLate f _ | PPut f _ | PReturned f => Some f | _ => None end.
Definition submit_dropped (pc : submit_pc) : option nat :=
  match pc with PRaised f _ => f | _ => None end.

Section ClientInv.
Context {J : JsonText} {V : Type}.
Context (limits : RemoteLimits) (client_id : pystr) (sha256_hex : bytes → pystr).
Context (loads : bytes → result exn (V + exn)).
Notation RemoteFuture := (RemoteFuture (V + exn)).
Notation Client := (Client (V := V)).
Notation exec := (exec limits client_id sha256_hex loads).
Notation client_step := (client_step limits client_id sha256_hex loads).
Notation client_reachable := (client_reachable limits client_id sha256_hex loads).

(** Some completing thread satisfies [P]. *)
Definition some_exec (P : exec_pc → Prop) (s : Client) : Prop :=
  ∃ x, (x < length (cl_execs s))%nat ∧ P (cl_execs s !!! x).

Definition pend (s : Client) (t : task) : Prop :=
  t ∈ cl_tasks s ∨ t ∈ sender_task (cl_sender s) ∨ t ∈ receiver_task (cl_receiver s) ∨
  some_exec (λ pc, t ∈ exec_task pc) s.
Definition todo (s : Client) (f : nat) : Prop :=
  f ∈ sender_todo (cl_sender s) ∨ f ∈ receiver_todo (cl_receiver s) ∨
  some_exec (λ pc, f ∈ exec_todo pc) s.
Definition past (s : Client) : Prop :=
  sender_past (cl_sender s) = true ∨ receiver_past (cl_receiver s) = true ∨
  some_exec (λ pc, exec_past pc = true) s.
Definition handed (s : Client) (f : nat) : Prop :=
  sender_handed (cl_sender s) = Some f ∨ Some f ∈ (cl_written s).*2.
Definition marked (s : Client) (f : nat) : Prop :=
  sender_marked (cl_sender s) = Some f ∨ handed s f.
Definition dropped (s : Client) (f : nat) : Prop :=
  ∃ k, (k < length (cl_submits s))%nat ∧ submit_dropped (cl_submits s !!! k) = Some f.
Definition fdone (s : Client) (f : nat) : Prop := rf_done (fut s f) = true.
Definition known (s : Client) (f : nat) : Prop := (f < length (cl_fut_heap s))%nat.
Definition due (s : Client) (f : nat) : Prop :=
  ∃ t, pend s t ∧ ending_task t = true ∧ task_future t = f.

Record ReqInv (s : Client) : Prop := {
  ri_seq : cl_sequence s = Z.of_nat (length (cl_fut_heap s));
  ri_rid : ∀ f, known s f → rid s f = request_id_of client_id (Z.of_nat f + 1);
  ri_ok : ∀ f, known s f → rf_ok (fut s f);
  ri_wf : dict_wf (cl_futures s);
  ri_table : ∀ k f, (k, f) ∈ cl_futures s → known s f ∧ k = rid s f;
  ri_kept : ∀ f, known s f → fdone s f ∨ dropped s f ∨ (rid s f, f) ∈ cl_futures s;
  ri_marked : ∀ f, marked s f → known s f ∧ rf_submission (fut s f) ≠ SubmissionState.LOCAL_PENDING;
  ri_failed : cl_failed s = true → cl_socket s = false;
  ri_unav : ∀ f, unavailable_outcome (rf_outcome (fut s f)) = true → cl_failed s = true ∧ ¬ handed s f;
  ri_unavt : ∀ t, pend s t → unavailable_task t = true → cl_failed s = true ∧ ¬ handed s (task_future t);
  ri_tasks : ∀ t, pend s t → known s (task_future t) ∧ task_ok t;
  ri_todo : ∀ f, todo s f → known s f;
  ri_past : past s → cl_failed s = true;
  ri_term : ∀ f, known s f → rid s f ∈ cl_terminal s → fdone s f ∨ due s f;
  ri_terms : ∀ r, r ∈ cl_terminal s → ∃ f, known s f ∧ r = rid s f;
  ri_covered : cl_failed s = true → ∀ f, known s f → fdone s f ∨ dropped s f ∨ todo s f ∨ due s f;
  ri_out : ∀ m f, (m, Some f) ∈ cl_outbound s → known s f;
  ri_sender : match cl_sender s with
              | XItem _ (Some f) => known s f
              | XForget f => known s f ∧ fdone s f
              | _ => True
              end;
  ri_receiver : match cl_receiver s with
                | RTerminal f m => known s f ∧ is_terminal (m_kind m) = true
                | _ => True
                end;
  ri_execs : ∀ x f, (x < length (cl_execs s))%nat → exec_done (cl_execs s !!! x) = Some f →
    known s f ∧ fdone s f;
  ri_names : ∀ k f, (k < length (cl_submits s))%nat → submit_names (cl_submits s !!! k) = Some f →
    known s f }.

(** ** Primitive changes *)

(** Nothing the invariant speaks of changes, except that the socket may be closed. *)
Definition aside (s s' : Client) : Prop :=
  cl_sequence s' = cl_sequence s ∧ cl_fut_heap s' = cl_fut_heap s ∧ cl_futures s' = cl_futures s ∧
  cl_terminal s' = cl_terminal s ∧ cl_failed s' = cl_failed s ∧
  (cl_socket s' = true → cl_socket s = true) ∧ cl_tasks s' = cl_tasks s ∧
  cl_sender s' = cl_sender s ∧ cl_receiver s' = cl_receiver s ∧ cl_execs s' = cl_execs s ∧
  cl_submits s' = cl_submits s ∧ cl_written s' = cl_written s ∧ cl_outbound s' = cl_outbound s.

Lemma req_aside s s' : aside s s' → ReqInv s → ReqInv s'.
Proof.
  unfold aside. intros E [H1 H2 H3 H4 H5 H6 H7 Hf H9 H10 H11 H12 H13 H14 H15 H16 H17 H18 H19 H20 H21].
  destruct s, s'. cbn in E. destruct_and! E. subst. split; try assumption.
  cbn in *. intros Hfail. specialize (Hf Hfail). match goal with |- ?b = false => destruct b end; [|done].
  match goal with H : true = true → _ |- _ => specialize (H eq_refl); congruence end.
Qed.

(** A change of the threads' positions, the queues and what was written. *)
Lemma req_move s s' :
  ReqInv s →
  cl_sequence s' = cl_sequence s → cl_fut_heap s' = cl_fut_heap s → cl_futures s' = cl_futures s →
  cl_terminal s' = cl_terminal s → cl_failed s' = cl_failed s → cl_socket s' = cl_socket s →
  cl_submits s' = cl_submits s →
  (∀ t, pend s' t → pend s t ∨ known s (task_future t) ∧ task_ok t ∧
    (unavailable_task t = true → cl_failed s = true ∧ ¬ handed s (task_future t))) →
  (∀ f, todo s' f → todo s f ∨ known s f) →
  (past s' → past s ∨ cl_failed s = true) →
  (∀ f, marked s' f → marked s f ∨
    known s f ∧ rf_submission (fut s f) ≠ SubmissionState.LOCAL_PENDING) →
  (∀ f, handed s' f → handed s f ∨ cl_socket s = true) →
  (∀ f, todo s f → cl_failed s = true → fdone s f ∨ todo s' f ∨ due s' f) →
  (∀ f, due s f → fdone s f ∨ due s' f) →
  (∀ m f, (m, Some f) ∈ cl_outbound s' → known s f) →
  match cl_sender s' with
  | XItem _ (Some f) => known s f | XForget f => known s f ∧ fdone s f | _ => True end →
  match cl_receiver s' with
  | RTerminal f m => known s f ∧ is_terminal (m_kind m) = true | _ => True end →
  (∀ x f, (x < length (cl_execs s'))%nat → exec_done (cl_execs s' !!! x) = Some f →
    known s f ∧ fdone s f) →
  ReqInv s'.
Proof.
  intros [] E1 E2 E3 E4 E5 E6 E7 Hp Ht Hpast Hm Hh Htodo Hdue Ho Hs Hr Hx.
  assert (Hfut : ∀ f, fut s' f = fut s f) by (intros f; unfold fut; by rewrite E2).
  assert (Hrid : ∀ f, rid s' f = rid s f) by (intros f; unfold rid; by rewrite Hfut).
  assert (Hk : ∀ f, known s' f ↔ known s f) by (intros f; unfold known; by rewrite E2).
  assert (Hd : ∀ f, fdone s' f ↔ fdone s f) by (intros f; unfold fdone; by rewrite Hfut).
  assert (Hdr : ∀ f, dropped s' f ↔ dropped s f) by (intros f; unfold dropped; by rewrite E7).
  assert (Hun : ∀ f, cl_failed s = true → ¬ handed s f → ¬ handed s' f).
  { intros f Hf Hn [?|Hsock]%Hh; [done|]. by rewrite (ri_failed0 Hf) in Hsock. }
  split; rewrite ?E1, ?E2, ?E3, ?E4, ?E5, ?E6, ?E7; try done.
  - intros f Hf%Hk. rewrite Hrid. auto.
  - intros f Hf%Hk. rewrite Hfut. auto.
  - intros k f Hf. rewrite Hk, Hrid. by apply ri_table0.
  - intros f Hf%Hk. rewrite Hd, Hdr, Hrid. auto.
  - intros f Hf. rewrite Hk, Hfut. destruct (Hm f Hf); auto.
  - intros f Hf. rewrite Hfut in Hf. destruct (ri_unav0 f Hf). auto.
  - intros t Hpt Hu. destruct (Hp t Hpt) as [Ho1|(_ & _ & Hnew)].
    + destruct (ri_unavt0 t Ho1 Hu). auto.
    + destruct (Hnew Hu). auto.
  - intros t Hpt. rewrite Hk. destruct (Hp t Hpt) as [?|(? & ? & _)]; auto.
  - intros f Hf. rewrite Hk. destruct (Ht f Hf); auto.
  - intros Hpa. destruct (Hpast Hpa); auto.
  - intros f Hf%Hk. rewrite Hrid, Hd. intros Hin. destruct (ri_term0 f Hf Hin) as [?|H]; [by left|].
    by apply Hdue.
  - intros r (f & Hf & ->)%ri_terms0. exists f. by rewrite Hk, Hrid.
  - intros Hf f Hkf%Hk. rewrite Hd, Hdr. destruct (ri_covered0 Hf f Hkf) as [?|[?|[H|H]]]; [by left|auto|..].
    + destruct (Htodo f H Hf) as [?|[?|?]]; auto.
    + destruct (Hdue f H) as [?|?]; auto.
  - intros m f Hin. rewrite Hk. by eapply Ho.
  - destruct (cl_sender s') as [|? [?|]| | | | |]; rewrite ?Hk, ?Hd; done.
  - destruct (cl_receiver s'); rewrite ?Hk; done.
  - intros x f Hxl Hxd. rewrite Hk, Hd. by apply (Hx x).
  - intros k f. rewrite Hk. apply ri_names0.
Qed.

(** A change of one future. *)
Lemma req_fut s f op :
  ReqInv s → (∀ x, rf_le x (op x)) →
  (∀ x, unavailable_outcome (rf_outcome (op x)) = true →
    unavailable_outcome (rf_outcome x) = true ∨ cl_failed s = true ∧ ¬ handed s f) →
  ReqInv (set_fut f op s).
Proof.
  intros [] Hle Hout. set (s' := set_fut f op s).
  assert (Hfut : ∀ g, rf_le (fut s g) (fut s' g)).
  { intros g. unfold fut, s'. cbn. rewrite list_lookup_total_alter. by case_decide as H; [destruct H as [<- _]; apply Hle|]. }
  assert (Hrid : ∀ g, rid s' g = rid s g) by (intros g; apply Hfut).
  assert (Hk : ∀ g, known s' g ↔ known s g) by (intros g; unfold known, s'; cbn; by rewrite length_alter).
  assert (Hd : ∀ g, fdone s g → fdone s' g).
  { intros g H. unfold fdone in *. destruct (Hfut g) as (_ & _ & E & _). by rewrite E. }
  assert (Hnl : ∀ g, rf_submission (fut s g) ≠ SubmissionState.LOCAL_PENDING →
    rf_submission (fut s' g) ≠ SubmissionState.LOCAL_PENDING) by (intros g; apply Hfut).
  split; try done.
  - cbn. by rewrite length_alter.
  - intros g Hg%Hk. rewrite Hrid. auto.
  - intros g Hg%Hk. destruct (Hfut g) as (_ & H & _). auto.
  - intros k g Hg. rewrite Hk, Hrid. by apply ri_table0.
  - intros g Hg%Hk. rewrite Hrid. destruct (ri_kept0 g Hg) as [?|[?|?]]; auto.
  - intros g Hg. rewrite Hk. destruct (ri_marked0 g Hg). auto.
  - intros g Hg. unfold fut, s' in Hg. cbn in Hg. rewrite list_lookup_total_alter in Hg.
    case_decide as H; [destruct H as [<- _]|by apply ri_unav0].
    apply Hout in Hg as [Hg|Hg]; [by apply ri_unav0|exact Hg].
  - intros t Ht. rewrite Hk. by apply ri_tasks0.
  - intros g Hg. rewrite Hk. by apply ri_todo0.
  - intros g Hg%Hk. rewrite Hrid. intros Hin. destruct (ri_term0 g Hg Hin); auto.
  - intros r (g & Hg & ->)%ri_terms0. exists g. by rewrite Hk, Hrid.
  - intros Hf g Hg%Hk. destruct (ri_covered0 Hf g Hg) as [?|?]; auto.
  - intros m g Hin. rewrite Hk. by eapply ri_out0.
  - change (cl_sender s') with (cl_sender s). destruct (cl_sender s) as [|? [?|]| | | | |]; rewrite ?Hk; naive_solver.
  - change (cl_receiver s') with (cl_receiver s). destruct (cl_receiver s); rewrite ?Hk; done.
  - intros x g Hx Hxd. rewrite Hk. destruct (ri_execs0 x g Hx Hxd). auto.
  - intros k g. rewrite Hk. apply ri_names0.
Qed.

(** *** A thread moves *)

(** The completions, the futures and the mark of every thread but one. *)
Definition some_exec_but (x : nat) (P : exec_pc → Prop) (s : Client) : Prop :=
  ∃ y, y ≠ x ∧ (y < length (cl_execs s))%nat ∧ P (cl_execs s !!! y).

Definition fresh (s : Client) (t : task) : Prop :=
  known s (task_future t) ∧ task_ok t ∧
  (unavailable_task t = true → cl_failed s = true ∧ ¬ handed s (task_future t)).

(** What a thread may do with the completion and the futures it has in hand: [R] says which
    completions are elsewhere. *)
Record hand_over (s : Client) (R : task → Prop) (oldt newt : list task) (oldd newd : list nat)
    (newp : bool) : Prop := {
  ho_tasks : ∀ t, t ∈ newt → pend s t ∨ fresh s t;
  ho_todo : ∀ f, f ∈ newd → known s f;
  ho_past : newp = true → cl_failed s = true;
  ho_kept : ∀ t, t ∈ oldt → ending_task t = true → fdone s (task_future t) ∨ t ∈ newt ∨ R t;
  ho_covered : cl_failed s = true → ∀ f, f ∈ oldd →
    f ∈ newd ∨ fdone s f ∨ due s f ∨ ∃ t, t ∈ newt ∧ ending_task t = true ∧ task_future t = f }.

Lemma req_thread s s' R oldt newt D oldd newd newp :
  ReqInv s →
  cl_sequence s' = cl_sequence s → cl_fut_heap s' = cl_fut_heap s → cl_futures s' = cl_futures s →
  cl_terminal s' = cl_terminal s → cl_failed s' = cl_failed s → cl_socket s' = cl_socket s →
  cl_submits s' = cl_submits s → cl_outbound s' = cl_outbound s →
  hand_over s R oldt newt oldd newd newp →
  (∀ t, pend s t ↔ t ∈ oldt ∨ R t) → (∀ t, pend s' t ↔ t ∈ newt ∨ R t) →
  (∀ f, todo s f ↔ f ∈ oldd ∨ D f) → (∀ f, todo s' f ↔ f ∈ newd ∨ D f) →
  (past s' → past s ∨ newp = true) →
  (∀ f, marked s' f → marked s f ∨
    known s f ∧ rf_submission (fut s f) ≠ SubmissionState.LOCAL_PENDING) →
  (∀ f, handed s' f → handed s f ∨ cl_socket s = true) →
  match cl_sender s' with
  | XItem _ (Some f) => known s f | XForget f => known s f ∧ fdone s f | _ => True end →
  match cl_receiver s' with
  | RTerminal f m => known s f ∧ is_terminal (m_kind m) = true | _ => True end →
  (∀ x f, (x < length (cl_execs s'))%nat → exec_done (cl_execs s' !!! x) = Some f →
    known s f ∧ fdone s f) →
  ReqInv s'.
Proof.
  intros HI E1 E2 E3 E4 E5 E6 E7 E8 [] Hp Hp' Ht Ht' Hpa Hm Hh Hs Hr Hx.
  assert (Hdue : ∀ f, due s f → fdone s f ∨ due s' f).
  { intros f (t & [Ho|HR]%Hp & He & <-).
    - destruct (ho_kept0 t Ho He) as [?|Hn]; [by left|right]. exists t. by rewrite Hp'.
    - right. exists t. rewrite Hp'. auto. }
  apply (req_move s s'); try done; intros.
  - match goal with H : pend s' _ |- _ => apply Hp' in H as [H|H] end.
    + destruct (ho_tasks0 _ H) as [?|?]; [by left|right; done].
    + left. apply Hp. by right.
  - match goal with H : todo s' _ |- _ => apply Ht' in H as [H|H] end; [right; auto|left].
    apply Ht. by right.
  - destruct (Hpa H); auto.
  - match goal with H : todo s _ |- _ => apply Ht in H as [H|H] end.
    + destruct (ho_covered0 ltac:(done) f H) as [?|[?|[Hd|(t & ? & ? & ?)]]].
      * right; left. apply Ht'. by left.
      * by left.
      * destruct (Hdue f Hd); auto.
      * right; right. exists t. rewrite Hp'. auto.
    + right; left. apply Ht'. by right.
  - rewrite E8 in *. by eapply (ri_out s HI).
Qed.

Lemma some_exec_split P s x :
  (x < length (cl_execs s))%nat → some_exec P s ↔ P (cl_execs s !!! x) ∨ some_exec_but x P s.
Proof.
  intros Hx. split.
  - intros (y & Hy & HP). destruct (decide (y = x)) as [->|]; [by left|right; by exists y].
  - intros [?|(y & _ & Hy & HP)]; [by exists x|by exists y].
Qed.

Lemma exec_lookup (s : Client) x pc y :
  (x < length (cl_execs s))%nat →
  cl_execs (set_exec x pc s) !!! y = if decide (y = x) then pc else cl_execs s !!! y.
Proof.
  intros Hx. cbn. rewrite list_lookup_total_alter. case_decide as H; destruct (decide (y = x)); subst; naive_solver.
Qed.

Lemma some_exec_set P s x pc :
  (x < length (cl_execs s))%nat → some_exec P (set_exec x pc s) ↔ P pc ∨ some_exec_but x P s.
Proof.
  intros Hx. assert (Hl : length (cl_execs (set_exec x pc s)) = length (cl_execs s)) by (cbn; apply length_alter).
  rewrite (some_exec_split P _ x) by lia. rewrite exec_lookup, decide_True by done.
  apply or_iff_compat_l. unfold some_exec_but. rewrite Hl.
  split; intros (y & Hne & Hy & HP); exists y; rewrite exec_lookup, decide_False in * by done; done.
Qed.

Lemma req_sender s pc :
  ReqInv s →
  hand_over s (λ t, t ∈ cl_tasks s ∨ t ∈ receiver_task (cl_receiver s) ∨ some_exec (λ p, t ∈ exec_task p) s)
    (sender_task (cl_sender s)) (sender_task pc) (sender_todo (cl_sender s)) (sender_todo pc) (sender_past pc) →
  (∀ f, sender_marked pc = Some f → marked s f ∨
    known s f ∧ rf_submission (fut s f) ≠ SubmissionState.LOCAL_PENDING) →
  (∀ f, sender_handed pc = Some f → handed s f ∨ cl_socket s = true) →
  match pc with XItem _ (Some f) => known s f | XForget f => known s f ∧ fdone s f | _ => True end →
  ReqInv (set_sender pc s).
Proof.
  intros HI HO Hm Hh Hs. pose proof HI as [].
  eapply (req_thread s _ _ _ _
    (λ f, f ∈ receiver_todo (cl_receiver s) ∨ some_exec (λ p, f ∈ exec_todo p) s)); try done; try exact HO.
  - intros t. unfold pend. tauto.
  - intros t. unfold pend, some_exec. cbn. tauto.
  - unfold past, some_exec. cbn. tauto.
  - intros f [?|[H|H]]; [by apply Hm|cbn in H; destruct pc; by apply Hm|left; right; by right].
  - intros f [?|H]; [by apply Hh|left; by right].
Qed.

Lemma req_receiver s pc :
  ReqInv s →
  hand_over s (λ t, t ∈ cl_tasks s ∨ t ∈ sender_task (cl_sender s) ∨ some_exec (λ p, t ∈ exec_task p) s)
    (receiver_task (cl_receiver s)) (receiver_task pc) (receiver_todo (cl_receiver s)) (receiver_todo pc)
    (receiver_past pc) →
  match pc with RTerminal f m => known s f ∧ is_terminal (m_kind m) = true | _ => True end →
  ReqInv (set_receiver pc s).
Proof.
  intros HI HO Hr. pose proof HI as [].
  eapply (req_thread s _ _ _ _
    (λ f, f ∈ sender_todo (cl_sender s) ∨ some_exec (λ p, f ∈ exec_todo p) s)); try done; try exact HO.
  - intros t. unfold pend. tauto.
  - intros t. unfold pend, some_exec. cbn. tauto.
  - intros f. unfold todo. tauto.
  - intros f. unfold todo, some_exec. cbn. tauto.
  - unfold past, some_exec. cbn. tauto.
  - intros f H. left. exact H.
  - intros f H. left. exact H.
Qed.

Lemma req_exec s x pc :
  ReqInv s → (x < length (cl_execs s))%nat →
  hand_over s (λ t, t ∈ cl_tasks s ∨ t ∈ sender_task (cl_sender s) ∨ t ∈ receiver_task (cl_receiver s) ∨
                    some_exec_but x (λ p, t ∈ exec_task p) s)
    (exec_task (cl_execs s !!! x)) (exec_task pc) (exec_todo (cl_execs s !!! x)) (exec_todo pc)
    (exec_past pc) →
  (∀ f, exec_done pc = Some f → known s f ∧ fdone s f) →
  ReqInv (set_exec x pc s).
Proof.
  intros HI Hx HO Hd. pose proof HI as [].
  eapply (req_thread s _ _ _ _
    (λ f, f ∈ sender_todo (cl_sender s) ∨ f ∈ receiver_todo (cl_receiver s) ∨
          some_exec_but x (λ p, f ∈ exec_todo p) s)); try done; try exact HO.
  - intros t. unfold pend. rewrite (some_exec_split _ s x Hx). tauto.
  - intros t. unfold pend. rewrite some_exec_set by done. cbn. tauto.
  - intros f. unfold todo. rewrite (some_exec_split _ s x Hx). tauto.
  - intros f. unfold todo. rewrite some_exec_set by done. cbn. tauto.
  - unfold past. rewrite some_exec_set by done. rewrite (some_exec_split _ s x Hx). cbn. tauto.
  - intros f H. left. exact H.
  - intros f H. left. exact H.
  - intros y f Hy. cbn in Hy. rewrite length_alter in Hy. rewrite exec_lookup by done.
    case_decide; [apply Hd|by apply ri_execs0].
Qed.

(** *** The queue of completions *)

Lemma req_pend s s' :
  ReqInv s →
  cl_sequence s' = cl_sequence s → cl_fut_heap s' = cl_fut_heap s → cl_futures s' = cl_futures s →
  cl_terminal s' = cl_terminal s → cl_failed s' = cl_failed s → cl_socket s' = cl_socket s →
  cl_submits s' = cl_submits s → cl_outbound s' = cl_outbound s → cl_sender s' = cl_sender s →
  cl_receiver s' = cl_receiver s → cl_written s' = cl_written s →
  (∀ t, pend s' t ↔ pend s t) → (∀ f, todo s' f ↔ todo s f) → (past s' → past s) →
  (∀ x f, (x < length (cl_execs s'))%nat → exec_done (cl_execs s' !!! x) = Some f →
    known s f ∧ fdone s f) →
  ReqInv s'.
Proof.
  intros HI E1 E2 E3 E4 E5 E6 E7 E8 E9 E10 E11 Hp Ht Hpa Hx.
  assert (Hdue : ∀ f, due s f → due s' f) by (intros f (t & ? & ?); exists t; by rewrite Hp).
  apply (req_move s s'); try done; unfold marked, handed; rewrite ?E8, ?E9, ?E10, ?E11; try (by apply HI).
  - intros t Hpt%Hp. by left.
  - intros f Hf%Ht. by left.
  - intros H. left. by apply Hpa.
  - intros f H. by left.
  - intros f H. by left.
  - intros f H _. right; left. by apply Ht.
  - intros f H. right. by apply Hdue.
Qed.

Lemma req_add_task s t : ReqInv s → pend s t → ReqInv (add_task t s).
Proof.
  intros HI Hp. apply (req_pend s); try done; [|by apply HI].
  intros t'. unfold pend, some_exec. cbn. rewrite elem_of_app, list_elem_of_singleton.
  split; [|tauto]. intros [[?| ->]|?]; [tauto|exact Hp|tauto].
Qed.

Lemma some_exec_snoc P s pc : some_exec P (add_exec pc s) ↔ some_exec P s ∨ P pc.
Proof.
  unfold some_exec. cbn. rewrite length_app. cbn. split.
  - intros (x & Hx & HP). destruct (decide (x = length (cl_execs s))) as [->|].
    + right. by rewrite lookup_total_last in HP.
    + left. exists x. rewrite lookup_total_snoc in HP by lia. split; [lia|done].
  - intros [(x & Hx & HP)|HP].
    + exists x. rewrite lookup_total_snoc by done. split; [lia|done].
    + exists (length (cl_execs s)). rewrite lookup_total_last. split; [lia|done].
Qed.

Lemma req_add_exec s t : ReqInv s → pend s t → ReqInv (add_exec (ERun t) s).
Proof.
  intros HI Hp. apply (req_pend s); try done.
  - intros t'. unfold pend. rewrite some_exec_snoc. cbn. rewrite list_elem_of_singleton.
    split; [|tauto]. intros [?|[?|[?|[?| ->]]]]; try tauto; exact Hp.
  - intros f. unfold todo. rewrite some_exec_snoc. cbn. rewrite elem_of_nil. tauto.
  - unfold past. rewrite some_exec_snoc. cbn. intros [?|[?|[?|?]]]; tauto || done.
  - intros x f Hx. cbn in Hx. rewrite length_app in Hx. cbn in Hx. cbn [cl_execs add_exec].
    destruct (decide (x = length (cl_execs s))) as [->|]; [by rewrite lookup_total_last|].
    rewrite lookup_total_snoc by lia. apply HI. lia.
Qed.

Lemma req_drop_task s t rest :
  ReqInv s → cl_tasks s = t :: rest → some_exec (λ pc, t ∈ exec_task pc) s →
  ReqInv {| s with cl_tasks := rest |}.
Proof.
  intros HI Hq Ht. apply (req_pend s); try done; [|by apply HI].
  intros t'. unfold pend. rewrite Hq, elem_of_cons. unfold some_exec in *. cbn. naive_solver.
Qed.

(** *** Other changes *)

Lemma req_outbound s g :
  ReqInv s → (∀ m f, (m, Some f) ∈ g (cl_outbound s) → known s f) → ReqInv (set_outbound g s).
Proof. intros [] Ho. by split. Qed.

Lemma req_submits s l :
  ReqInv s → (∀ f, dropped s f → ∃ k, (k < length l)%nat ∧ submit_dropped (l !!! k) = Some f) →
  (∀ k f, (k < length l)%nat → submit_names (l !!! k) = Some f → known s f) →
  ReqInv {| s with cl_submits := l |}.
Proof.
  intros [] Hd Hn. split; try done.
  - intros f Hf. destruct (ri_kept0 f Hf) as [?|[?|?]]; [by left|right; left; by apply Hd|auto].
  - intros Hf f Hk. destruct (ri_covered0 Hf f Hk) as [?|[?|?]]; [by left|right; left; by apply Hd|auto].
Qed.

Lemma req_submit s k pc :
  ReqInv s → (k < length (cl_submits s))%nat → submit_dropped (cl_submits s !!! k) = None →
  (∀ f, submit_names pc = Some f → known s f) →
  ReqInv (set_submit k pc s) ∧ (∀ f, submit_dropped pc = Some f → dropped (set_submit k pc s) f).
Proof.
  intros HI Hk Hold Hn.
  assert (Hl : ∀ j, cl_submits (set_submit k pc s) !!! j = if decide (j = k) then pc else cl_submits s !!! j).
  { intros j. cbn. rewrite list_lookup_total_alter. case_decide as H; destruct (decide (j = k)); naive_solver. }
  split.
  - apply req_submits; rewrite ?length_alter; [done|..].
    + intros f (j & Hj & Hf). exists j. split; [done|]. specialize (Hl j). cbn in Hl.
      rewrite Hl. case_decide; [congruence|done].
    + intros j f Hj. specialize (Hl j). cbn in Hl. rewrite Hl. case_decide; [apply Hn|by apply HI].
  - intros f Hf. exists k. split; [cbn; by rewrite length_alter|]. rewrite Hl, decide_True by done. done.
Qed.

Lemma rid_inj s f g : ReqInv s → known s f → known s g → rid s f = rid s g → f = g.
Proof.
  intros HI Hf Hg. rewrite (ri_rid s HI f Hf), (ri_rid s HI g Hg). unfold request_id_of, str_of_int.
  intros [= Hs]%app_inv_head. apply py_inj, pretty_Z_inj in Hs. lia.
Qed.

Lemma req_forget s f :
  ReqInv s → known s f → fdone s f ∨ dropped s f → ReqInv (set_futures (λ d, dict_del d (rid s f)) s).
Proof.
  intros HI Hf Hd. pose proof HI as []. split; try done.
  - by apply dict_del_wf.
  - intros k g Hg. apply (ri_table0 k g). exact (dict_del_subseteq _ _ _ Hg).
  - intros g Hg. destruct (ri_kept0 g Hg) as [?|[?|Hin]]; [by left|auto|].
    destruct (decide (g = f)) as [->|Hne]; [naive_solver|]. right; right.
    apply dict_get_Some_elem. cbn. change (rid (set_futures _ s) g) with (rid s g).
    rewrite dict_get_del_ne; [by apply dict_get_elem|]. intros E. by apply Hne, (rid_inj s).
Qed.

Lemma req_terminal_add s f :
  ReqInv s → known s f → fdone s f ∨ due s f → ReqInv (set_terminal (set_add (rid s f)) s).
Proof.
  intros HI Hf Hd. pose proof HI as []. split; try done.
  - intros g Hg Hin. change (rid (set_terminal _ s) g) with (rid s g) in Hin.
    unfold set_add in Hin. cbn in Hin. case_bool_decide; [by apply ri_term0|].
    apply elem_of_app in Hin as [?|E%list_elem_of_singleton]; [by apply ri_term0|].
    apply (rid_inj s) in E; [|done..]. by subst.
  - intros r Hin. unfold set_add in Hin. cbn in Hin. case_bool_decide; [by apply ri_terms0|].
    apply elem_of_app in Hin as [?| ->%list_elem_of_singleton]; [by apply ri_terms0|by exists f].
Qed.

Lemma req_terminal_filter s r : ReqInv s → ReqInv (set_terminal (filter (.≠ r)) s).
Proof.
  intros []. split; try done.
  - intros g Hg [_ Hin]%list_elem_of_filter. by apply ri_term0.
  - intros x [_ Hin]%list_elem_of_filter. by apply ri_terms0.
Qed.

(** A new request. *)
Definition registered (s : Client) : Client :=
  let n := cl_sequence s + 1 in
  {| s with
     cl_sequence := n;
     cl_fut_heap := cl_fut_heap s ++ [remote_future_init (request_id_of client_id n)];
     cl_futures := dict_set (cl_futures s) (request_id_of client_id n) (length (cl_fut_heap s)) |}.

Lemma fut_registered s f : f ≠ length (cl_fut_heap s) → fut (registered s) f = fut s f.
Proof.
  intros Hf. unfold fut. cbn. destruct (decide (f < length (cl_fut_heap s))%nat).
  - by apply lookup_total_snoc.
  - rewrite !list_lookup_total_alt, !(proj2 (lookup_ge_None _ _)); [done|lia|].
    rewrite length_app. cbn. lia.
Qed.

Lemma fut_registered_new s :
  fut (registered s) (length (cl_fut_heap s)) =
  remote_future_init (request_id_of client_id (cl_sequence s + 1)).
Proof. apply lookup_total_last. Qed.

Lemma request_id_inj m n : request_id_of client_id m = request_id_of client_id n → m = n.
Proof. unfold request_id_of, str_of_int. by intros [= Hs%py_inj%pretty_Z_inj]%app_inv_head. Qed.

Lemma req_register s : ReqInv s → cl_failed s = false → ReqInv (registered s).
Proof.
  intros HI Hfail. pose proof HI as [].
  set (n := length (cl_fut_heap s)). set (s' := registered s).
  assert (Hk : ∀ f, known s' f ↔ known s f ∨ f = n).
  { intros f. unfold known, s', n. cbn. rewrite length_app. cbn. lia. }
  assert (Hne : ∀ f, known s f → f ≠ n) by (unfold known, n; lia).
  assert (Hfut : ∀ f, f ≠ n → fut s' f = fut s f) by (intros f; apply fut_registered).
  assert (Hrid : ∀ f, known s f → rid s' f = rid s f) by (intros f Hf; unfold rid; by rewrite Hfut by auto).
  assert (Hdone : ∀ f, known s f → fdone s' f ↔ fdone s f) by (intros f Hf; unfold fdone; by rewrite Hfut by auto).
  assert (Hrn : rid s' n = request_id_of client_id (Z.of_nat n + 1)).
  { unfold rid, s', n. rewrite fut_registered_new, ri_seq0. done. }
  assert (Hnew : request_id_of client_id (Z.of_nat n + 1) ∉ (cl_futures s).*1).
  { intros ([k g] & E & Hin)%list_elem_of_fmap. destruct (ri_table0 _ _ Hin) as [Hg Hkey]. cbn in E.
    rewrite Hkey, (ri_rid0 g Hg) in E. apply request_id_inj in E. unfold known, n in *. lia. }
  assert (Htab : cl_futures s' = cl_futures s ++ [(request_id_of client_id (Z.of_nat n + 1), n)]).
  { unfold s', registered. cbn. rewrite ri_seq0. by apply dict_set_new. }
  assert (Hdue : ∀ f, due s f → due s' f) by done.
  split; try done; rewrite ?Hfail; try done.
  - cbn. rewrite length_app, ri_seq0. cbn. lia.
  - intros f [Hf| ->]%Hk; [rewrite Hrid by done; auto|done].
  - intros f [Hf| ->]%Hk; [rewrite Hfut by auto; auto|]. unfold s', n. rewrite fut_registered_new.
    cbn. split; [done|set_solver].
  - by apply dict_set_wf.
  - intros k f. rewrite Htab, elem_of_app, list_elem_of_singleton. rewrite Hk. intros [H|[= -> ->]].
    + destruct (ri_table0 k f H) as [Hf ->]. rewrite Hrid by done. auto.
    + rewrite Hrn. auto.
  - intros f. rewrite Htab, elem_of_app, list_elem_of_singleton. intros [Hf| ->]%Hk.
    + rewrite Hdone, Hrid by done. destruct (ri_kept0 f Hf) as [?|[?|?]]; auto.
    + rewrite Hrn. auto.
  - intros f Hm. destruct (ri_marked0 f Hm) as [Hf ?]. rewrite Hk, Hfut by auto. auto.
  - intros f Hu. destruct (decide (f = n)) as [->|].
    + unfold s', n in Hu. by rewrite fut_registered_new in Hu.
    + rewrite Hfut in Hu by done. destruct (ri_unav0 f Hu). congruence.
  - intros t Ht. rewrite Hk. destruct (ri_tasks0 t Ht). auto.
  - intros f Hf. rewrite Hk. auto.
  - intros f [Hf| ->]%Hk Hin.
    + rewrite Hrid in Hin by done. rewrite Hdone by done. destruct (ri_term0 f Hf Hin); auto.
    + rewrite Hrn in Hin. destruct (ri_terms0 _ Hin) as (g & Hg & E). rewrite (ri_rid0 g Hg) in E.
      apply request_id_inj in E. unfold known, n in *. lia.
  - intros r (f & Hf & ->)%ri_terms0. exists f. rewrite Hk, Hrid by done. auto.
  - cbn. congruence.
  - intros m f Hin. rewrite Hk. left. by eapply ri_out0.
  - change (cl_sender s') with (cl_sender s). destruct (cl_sender s) as [|? [?|]|f| | | |]; rewrite ?Hk; auto.
    destruct ri_sender0 as [Hf ?]. rewrite Hdone by done. auto.
  - change (cl_receiver s') with (cl_receiver s). destruct (cl_receiver s); rewrite ?Hk; naive_solver.
  - intros x f Hx Hd. destruct (ri_execs0 x f Hx Hd). rewrite Hk, Hdone by done. auto.
  - intros k f Hl Hf. rewrite Hk. left. by apply (ri_names0 k).
Qed.

(** *** The connection is lost *)

Lemma req_fail s s' :
  ReqInv s →
  cl_sequence s' = cl_sequence s → cl_fut_heap s' = cl_fut_heap s → cl_futures s' = cl_futures s →
  cl_terminal s' = cl_terminal s → cl_submits s' = cl_submits s → cl_outbound s' = cl_outbound s →
  cl_failed s' = true → cl_socket s' = false →
  (∀ t, pend s' t ↔ pend s t) →
  (∀ f, todo s' f ↔ todo s f ∨ f ∈ (cl_futures s).*2) →
  (∀ f, marked s' f → marked s f) → (∀ f, handed s' f → handed s f) →
  match cl_sender s' with
  | XItem _ (Some f) => known s f | XForget f => known s f ∧ fdone s f | _ => True end →
  match cl_receiver s' with
  | RTerminal f m => known s f ∧ is_terminal (m_kind m) = true | _ => True end →
  (∀ x f, (x < length (cl_execs s'))%nat → exec_done (cl_execs s' !!! x) = Some f →
    known s f ∧ fdone s f) →
  ReqInv s'.
Proof.
  intros [] E1 E2 E3 E4 E5 E6 E7 E8 Hp Ht Hm Hh Hs Hr Hx.
  assert (Hfut : ∀ f, fut s' f = fut s f) by (intros f; unfold fut; by rewrite E2).
  assert (Hrid : ∀ f, rid s' f = rid s f) by (intros f; unfold rid; by rewrite Hfut).
  assert (Hk : ∀ f, known s' f ↔ known s f) by (intros f; unfold known; by rewrite E2).
  assert (Hd : ∀ f, fdone s' f ↔ fdone s f) by (intros f; unfold fdone; by rewrite Hfut).
  assert (Hdr : ∀ f, dropped s' f ↔ dropped s f) by (intros f; unfold dropped; by rewrite E5).
  assert (Hdue : ∀ f, due s' f ↔ due s f) by (intros f; unfold due; by setoid_rewrite Hp).
  split; rewrite ?E1, ?E2, ?E3, ?E4, ?E5, ?E6, ?E7, ?E8; try done.
  - intros f Hf%Hk. rewrite Hrid. auto.
  - intros f Hf%Hk. rewrite Hfut. auto.
  - intros k f Hf. rewrite Hk, Hrid. by apply ri_table0.
  - intros f Hf%Hk. rewrite Hd, Hdr, Hrid. auto.
  - intros f Hf%Hm. rewrite Hk, Hfut. auto.
  - intros f Hf. rewrite Hfut in Hf. destruct (ri_unav0 f Hf) as [? Hn]. split; [done|]. by intros ?%Hh.
  - intros t Hpt%Hp Hu. destruct (ri_unavt0 t Hpt Hu) as [? Hn]. split; [done|]. by intros ?%Hh.
  - intros t Hpt%Hp. rewrite Hk. auto.
  - intros f [?|([k g] & -> & Hin)%list_elem_of_fmap]%Ht; rewrite Hk; [auto|]. by apply (ri_table0 k).
  - intros f Hf%Hk. rewrite Hrid, Hd, Hdue. auto.
  - intros r (f & Hf & ->)%ri_terms0. exists f. by rewrite Hk, Hrid.
  - intros _ f Hf%Hk. rewrite Hd, Hdr, Ht. destruct (ri_kept0 f Hf) as [?|[?|Hin]]; [auto|auto|].
    right; right; left; right. apply list_elem_of_fmap. by exists (rid s f, f).
  - intros m f Hin. rewrite Hk. by eapply ri_out0.
  - destruct (cl_sender s') as [|? [?|]| | | | |]; rewrite ?Hk, ?Hd; done.
  - destruct (cl_receiver s'); rewrite ?Hk; done.
  - intros x f Hxl Hxd. rewrite Hk, Hd. by apply (Hx x).
  - intros k f. rewrite Hk. apply ri_names0.
Qed.

(** *** Scheduling a completion *)

(** The completion is queued, or in the hands of a new thread. *)
Definition delivered (s s1 : Client) (t : task) : Prop :=
  t ∈ cl_tasks s1 ∨
  ∃ y, (length (cl_execs s) ≤ y < length (cl_execs s1))%nat ∧ t ∈ exec_task (cl_execs s1 !!! y).

(** The threads are where they were and the futures as they were. *)
Definition settled (s s1 : Client) : Prop :=
  cl_sender s1 = cl_sender s ∧ cl_receiver s1 = cl_receiver s ∧ cl_fut_heap s1 = cl_fut_heap s ∧
  cl_failed s1 = cl_failed s ∧ cl_terminal s1 = cl_terminal s ∧ cl_written s1 = cl_written s ∧
  (length (cl_execs s) ≤ length (cl_execs s1))%nat ∧
  ∀ x, (x < length (cl_execs s))%nat → cl_execs s1 !!! x = cl_execs s !!! x.

Lemma schedule_inv s t :
  ReqInv s → pend s t →
  ∃ s1, schedule_completion t s = (s1, Ok tt) ∧ ReqInv s1 ∧ settled s s1 ∧ delivered s s1 t.
Proof.
  intros HI Hp. unfold schedule_completion. rewrite run_gets. unfold id.
  destruct (cl_executor_down s) eqn:E.
  - exists (add_exec (ERun t) s). rewrite run_last. split_and!; [done|by apply req_add_exec| |].
    + unfold settled. cbn. rewrite length_app. split_and!; try done; [lia|]. intros x Hx. by apply lookup_total_snoc.
    + right. exists (length (cl_execs s)). cbn. rewrite length_app, lookup_total_last. cbn.
      split; [lia|by left].
  - exists (add_task t (set_slots (λ n, n - 1) s)). split_and!; [done| | |].
    + apply req_add_task; [|exact Hp]. apply (req_aside s); done.
    + done.
    + left. cbn. apply elem_of_app. right. by left.
Qed.

Lemma settled_known s s1 f : settled s s1 → known s1 f ↔ known s f.
Proof. intros (_ & _ & E & _). unfold known. by rewrite E. Qed.
Lemma settled_fdone s s1 f : settled s s1 → fdone s1 f ↔ fdone s f.
Proof. intros (_ & _ & E & _). unfold fdone, fut. by rewrite E. Qed.

(** *** The loop of [_connection_lost] *)

#[export] Instance aside_preorder : PreOrder aside.
Proof.
  split; [by unfold aside|]. intros s1 s2 s3. unfold aside. intros H1 H2. destruct_and! H1. destruct_and! H2.
  split_and!; try congruence. auto.
Qed.

Lemma release_aside slots e : respects aside (for_each slots (release_waiter (V := V) e)).
Proof. repeat respects_step. by apply respects_modify. Qed.

Lemma release_ok slots e s : ∃ s1, for_each slots (release_waiter (V := V) e) s = (s1, Ok tt).
Proof.
  revert s. induction slots as [|k slots IH]; intros s; [by eexists|].
  exact (IH (release_waiter e k s).1).
Qed.

Definition beginning (l : lost_pc) : bool := match l with LBegin _ => true | _ => false end.

(** What the position promises about the rest of the state. *)
Definition lost_here (s : Client) (l : lost_pc) : Prop :=
  (∀ t, t ∈ lost_task l → pend s t) ∧ (∀ f, f ∈ lost_todo l → known s f) ∧
  (lost_past l = true ∨ beginning l = true → cl_failed s = true).

Lemma lost_step_inv s l :
  ReqInv s → lost_here s l →
  ∃ s1 l', lost_step l s = (s1, Ok l') ∧ ReqInv s1 ∧ settled s s1 ∧
    (∀ t, t ∈ lost_task l' → pend s1 t ∨ fresh s1 t) ∧
    (∀ f, f ∈ lost_todo l' → f ∈ lost_todo l) ∧
    (lost_past l' = true → cl_failed s1 = true) ∧
    (∀ t, t ∈ lost_task l → t ∈ lost_task l' ∨ delivered s s1 t) ∧
    (∀ f, f ∈ lost_todo l → f ∈ lost_todo l' ∨ fdone s1 f ∨ due s1 f ∨
       ∃ t, t ∈ lost_task l' ∧ ending_task t = true ∧ task_future t = f).
Proof.
  intros HI (Ht & Hf & Hpast). pose proof HI as [].
  assert (Hset : settled s s) by done.
  destruct l as [e|e slots futs|e [|f futs]|e f futs|e t futs|]; cbn [lost_step lost_past beginning] in *.
  - exists s, LEnd. rewrite run_gets. unfold id. rewrite Hpast by auto.
    split_and!; try done; by intros ? ?%elem_of_nil.
  - pose proof (release_aside slots e s) as Ha. destruct (release_ok slots e s) as [s1 E].
    unfold mbind, ST_bind. rewrite E in *. cbn in Ha. pose proof (req_aside _ _ Ha HI).
    unfold aside in Ha. destruct Ha as (E1 & E2 & E3 & E4 & E5 & _ & E7 & E8 & E9 & E10 & E11 & E12 & E13).
    exists s1, (LScan e futs).
    split_and!; try done; cbn; try (by intros ? ?%elem_of_nil).
    + unfold settled. split_and!; try done; rewrite ?E10; done.
    + intros _. rewrite E5. auto.
    + auto.
  - exists s, LEnd. split_and!; try done; by intros ? ?%elem_of_nil.
  - rewrite run_gets. unfold id. specialize (Hpast (or_introl eq_refl)).
    destruct (rf_done (fut s f) || bool_decide (rid s f ∈ cl_terminal s)) eqn:E.
    + exists s, (LScan e futs). split_and!; try done; cbn; try (by intros ? ?%elem_of_nil); [by right|].
      intros g [->|Hg]%elem_of_cons; [|by left]. right.
      apply orb_true_iff in E as [?|E%bool_decide_eq_true]; [by left|].
      destruct (ri_term0 f) as [?|?]; [apply Hf; by left|done|by left|by right; left].
    + exists s, (LState e f futs). split_and!; try done; cbn; try (by intros ? ?%elem_of_nil). auto.
  - rewrite run_gets. unfold id. specialize (Hpast (or_introl eq_refl)).
    assert (Hkf : known s f) by (apply Hf; by left).
    eexists s, _. split_and!; [done|done|done|..]; cbn.
    + intros t ->%list_elem_of_singleton. right. split_and!; [done|done|]. cbn. intros Hu. split; [done|].
      intros Hh. destruct (ri_marked0 f) as [_ Hl]; [by right|].
      destruct (rf_submission (fut s f)) eqn:E; [done|..]; by vm_compute in Hu.
    + by right.
    + done.
    + by intros ? ?%elem_of_nil.
    + intros g [->|Hg]%elem_of_cons; [|by left]. right; right; right. eexists. split; [by left|done].
  - destruct (schedule_inv s t HI) as (s1 & E & HI1 & Hs1 & Hd); [apply Ht; by left|].
    exists s1, (LScan e futs). unfold mbind, ST_bind. rewrite E. split_and!; try done; cbn.
    + by intros ? ?%elem_of_nil.
    + intros _. destruct Hs1 as (_ & _ & _ & -> & _). auto.
    + intros t' ->%list_elem_of_singleton. by right.
    + by left.
  - exists s, LEnd. split_and!; try done; by intros ? ?%elem_of_nil.
Qed.

Lemma lost_hand s s1 l l' (R : task → Prop) :
  ReqInv s → settled s s1 → lost_here s l →
  (∀ t, t ∈ lost_task l' → pend s1 t ∨ fresh s1 t) →
  (∀ f, f ∈ lost_todo l' → f ∈ lost_todo l) →
  (lost_past l' = true → cl_failed s1 = true) →
  (∀ t, t ∈ lost_task l → t ∈ lost_task l' ∨ delivered s s1 t) →
  (∀ f, f ∈ lost_todo l → f ∈ lost_todo l' ∨ fdone s1 f ∨ due s1 f ∨
     ∃ t, t ∈ lost_task l' ∧ ending_task t = true ∧ task_future t = f) →
  (∀ t, delivered s s1 t → R t) →
  hand_over s1 R (lost_task l) (lost_task l') (lost_todo l) (lost_todo l') (lost_past l').
Proof.
  intros HI Hset (_ & Hk & _) Ht Hf Hp Hd Hc HR. split; [done| |done| |].
  - intros f ?%Hf. rewrite (settled_known s) by done. auto.
  - intros t Hin _. destruct (Hd t Hin); auto.
  - intros _ f Hin. auto.
Qed.

Lemma hand_nil s R : hand_over s R [] [] [] [] false.
Proof. split; try done; try by intros ? ?%elem_of_nil. by intros _ ? ?%elem_of_nil. Qed.
#[local] Hint Resolve hand_nil : core.

(** The state after the failure is marked. *)
Definition failed_state (s : Client) : Client :=
  {| s with cl_failed := true; cl_socket := false; cl_rpc := [] |}.

Lemma lost_begin s e :
  lost_step (LBegin e) s =
  if cl_failed s then (s, Ok LEnd)
  else (failed_state s, Ok (LRpc e (cl_rpc s).*2 (cl_futures s).*2)).
Proof. cbn [lost_step]. rewrite run_gets. unfold id. by destruct (cl_failed s). Qed.

Lemma lost_end l : l = LEnd ∨ l ≠ LEnd.
Proof. destruct l; (by left) || (by right). Qed.

(** ** The sender *)

Lemma sender_here s l : ReqInv s → cl_sender s = XLost l → beginning l = false → lost_here s l.
Proof.
  intros [] E Hb. split_and!.
  - intros t Ht. right; left. by rewrite E.
  - intros f Hf. apply ri_todo0. left. by rewrite E.
  - rewrite Hb. intros [H|]; [|done]. apply ri_past0. left. by rewrite E.
Qed.

Lemma req_written s m f :
  ReqInv s → cl_sender s = XSend m f → ReqInv (add_written m f s).
Proof.
  intros HI E. assert (Hh : ∀ g, handed (add_written m f s) g → handed s g).
  { intros g [H|H]; [by left|]. cbn in H. rewrite fmap_app, elem_of_app in H. destruct H as [H|H]; [by right|].
    cbn in H. apply list_elem_of_singleton in H as <-. left. by rewrite E. }
  apply (req_move s); try done; try (by apply HI); try (by auto).
  - intros g [H|H%Hh]; [left; by left|left; by right].
Qed.

Lemma sender_lost_inv s l : ReqInv s → cl_sender s = XLost l → l ≠ LEnd →
  ∃ s1 l', lost_step l s = (s1, Ok l') ∧ ReqInv (set_sender (XLost l') s1).
Proof.
  intros HI E Hne. destruct (beginning l) eqn:Hb.
  - destruct l as [e| | | | |]; try done. rewrite lost_begin. destruct (cl_failed s) eqn:Ef.
    + exists s, LEnd. split; [done|]. apply req_sender; [done| |done..]. by rewrite E.
    + eexists _, _. split; [done|]. pose proof HI as [].
      apply (req_fail s); try done.
      * intros t. unfold pend, some_exec. cbn. by rewrite E.
      * intros f. unfold todo, some_exec. cbn. rewrite E. cbn. rewrite elem_of_nil. naive_solver.
      * intros f [H|[H|H]]; [done|done|right; by right].
      * intros f [H|H]; [done|by right].
  - pose proof (sender_here s l HI E Hb) as Hh.
    destruct (lost_step_inv s l HI Hh) as (s1 & l' & El & HI1 & Hset & H1 & H2 & H3 & H4 & H5).
    exists s1, l'. split; [done|]. pose proof Hset as (Es & Er & _).
    apply req_sender; [done| |done..]. rewrite Es, E.
    eapply (lost_hand s); try done.
    intros t [?|(y & Hy & Hin)]; [by left|right; right]. exists y. split; [lia|done].
Qed.

Lemma sender_inv s res : ReqInv s → ReqInv (sender_step (cl_sender s) res s).1.
Proof.
  intros HI. pose proof HI as [].
  assert (Hplain : ∀ s0 pc, ReqInv s0 → sender_task (cl_sender s0) = [] → sender_todo (cl_sender s0) = [] →
    sender_task pc = [] → sender_todo pc = [] → sender_past pc = false → sender_marked pc = None →
    match pc with XItem _ (Some f) => known s0 f | XForget f => known s0 f ∧ fdone s0 f | _ => True end →
    ReqInv (set_sender pc s0)).
  { intros s0 pc HI0 E1 E2 E3 E4 E5 E6 Hpc. apply req_sender; [done| | | |done].
    - rewrite E1, E2, E3, E4, E5. done.
    - intros f. by rewrite E6.
    - intros f. destruct pc; try done. cbn in E6. subst. done. }
  destruct (cl_sender s) as [|m f|f|m f|m f|l|] eqn:E; cbn [sender_step].
  - unfold sender_get. rewrite run_gets. unfold id. destruct (cl_outbound s) as [|[m f] rest] eqn:Eo; [done|].
    rewrite run_modify, run_last. apply Hplain; try done; try (cbn; by rewrite E).
    + apply req_outbound; [done|]. intros m' g Hg. apply (ri_out0 m'). rewrite ?Eo. by right.
    + destruct f as [f|]; [|done]. apply (ri_out0 m). rewrite ?Eo. by left.
  - destruct m as [m|], f as [f|]; cbn [sender_item]; rewrite ?run_last; try (apply Hplain; try done; by rewrite E).
    rewrite run_gets, run_modify, run_last. unfold id.
    assert (HI1 : ReqInv (set_fut f (λ x, (set_sent x).1) s)).
    { apply req_fut; [done|apply set_sent_le|]. intros x Hx. left. unfold set_sent in Hx. by destruct (rf_done x). }
    assert (Hl : fut (set_fut f (λ x, (set_sent x).1) s) f = (set_sent (fut s f)).1).
    { unfold fut. cbn. rewrite list_lookup_total_alter, decide_True; done. }
    destruct (set_sent (fut s f)).2 eqn:Es.
    + apply req_sender; [done|cbn; by rewrite E| |done|done].
      intros g [= <-]. right. split; [unfold known; cbn; by rewrite length_alter|]. rewrite Hl.
      unfold set_sent in *. by destruct (rf_done (fut s f)).
    + apply Hplain; try done; try (cbn; by rewrite E). split; [unfold known; cbn; by rewrite length_alter|].
      unfold fdone. rewrite Hl. unfold set_sent in *. by destruct (rf_done (fut s f)) eqn:?.
  - unfold forget. rewrite run_modify, run_last. destruct ri_sender0 as [Hf Hd].
    apply Hplain; try done; try (cbn; by rewrite E). apply req_forget; auto.
  - unfold sender_sock. rewrite run_gets, run_last. unfold id. destruct (cl_socket s) eqn:Es.
    + apply req_sender; [done|by rewrite E| |auto|done]. intros g Hg. left. left. rewrite E. exact Hg.
    + apply Hplain; try done; by rewrite E.
  - unfold sender_send. rewrite run_modify, run_last. apply Hplain; try (by destruct res); [|cbn; by rewrite E..].
    by apply req_written.
  - destruct (lost_end l) as [->|Hne].
    + rewrite run_last. apply Hplain; try done; by rewrite E.
    + destruct (sender_lost_inv s l HI E Hne) as (s1 & l' & El & HI1).
      replace (_.1) with (set_sender (XLost l') s1); [done|].
      destruct l; try done; unfold mbind, ST_bind; by rewrite El.
  - done.
Qed.

(** ** The receiver *)

Lemma receiver_here s l b : ReqInv s → cl_receiver s = RLost l b → beginning l = false → lost_here s l.
Proof.
  intros [] E Hb. split_and!.
  - intros t Ht. right; right; left. by rewrite E.
  - intros f Hf. apply ri_todo0. right; left. by rewrite E.
  - rewrite Hb. intros [H|]; [|done]. apply ri_past0. right; left. by rewrite E.
Qed.

Lemma receiver_lost_inv s l b : ReqInv s → cl_receiver s = RLost l b → l ≠ LEnd →
  ∃ s1 l', lost_step l s = (s1, Ok l') ∧ ReqInv (set_receiver (RLost l' b) s1).
Proof.
  intros HI E Hne. destruct (beginning l) eqn:Hb.
  - destruct l as [e| | | | |]; try done. rewrite lost_begin. destruct (cl_failed s) eqn:Ef.
    + exists s, LEnd. split; [done|]. apply req_receiver; [done| |done]. by rewrite E.
    + eexists _, _. split; [done|]. pose proof HI as [].
      apply (req_fail s); try done.
      * intros t. unfold pend, some_exec. cbn. by rewrite E.
      * intros f. unfold todo, some_exec. cbn. rewrite E. cbn. rewrite elem_of_nil. naive_solver.
  - pose proof (receiver_here s l b HI E Hb) as Hh.
    destruct (lost_step_inv s l HI Hh) as (s1 & l' & El & HI1 & Hset & H1 & H2 & H3 & H4 & H5).
    exists s1, l'. split; [done|]. pose proof Hset as (Es & Er & _).
    apply req_receiver; [done| |done]. rewrite Er, E.
    eapply (lost_hand s); try done.
    intros t [?|(y & Hy & Hin)]; [by left|right; right]. exists y. split; [lia|done].
Qed.

(** A completion the receiver is about to schedule. *)
Lemma receiver_schedule s t :
  ReqInv s → receiver_task (cl_receiver s) = [] → receiver_todo (cl_receiver s) = [] →
  known s (task_future t) → task_ok t → unavailable_task t = false →
  ReqInv (set_receiver (RSchedule t) s).
Proof.
  intros HI E1 E2 Hk Ht Hu. apply req_receiver; [done| |done]. rewrite E1, E2. cbn.
  split; try done; try by intros ? ?%elem_of_nil.
  - intros t' ->%list_elem_of_singleton. right. split_and!; [done|done|]. by rewrite Hu.
  - by intros _ ? ?%elem_of_nil.
Qed.

Lemma future_of_known s m f : ReqInv s → future_of s m = Some f → known s f.
Proof.
  intros [] H. unfold future_of in H. destruct (get (m_control m) "request_id"); try done.
  by apply dict_get_Some_elem, ri_table0 in H as [? _].
Qed.

Lemma receive_inv s m :
  ReqInv s → receiver_task (cl_receiver s) = [] → receiver_todo (cl_receiver s) = [] →
  ReqInv (receive m s).1.
Proof.
  intros HI E1 E2.
  assert (Hplain : ∀ s0 pc, ReqInv s0 → cl_receiver s0 = cl_receiver s → receiver_task pc = [] →
    receiver_todo pc = [] → receiver_past pc = false →
    match pc with RTerminal f m => known s0 f ∧ is_terminal (m_kind m) = true | _ => True end →
    ReqInv (set_receiver pc s0)).
  { intros s0 pc HI0 E0 E3 E4 E5 Hpc. apply req_receiver; [done| |done]. rewrite E0, E1, E2, E3, E4, E5. done. }
  unfold receive. rewrite run_gets. unfold id.
  set (other := if is_response (m_kind m) then _ else _).
  assert (Hother : ReqInv (other s).1).
  { subst other. destruct (is_response (m_kind m)).
    - destruct (token_of m) as [| | | |tok| | |]; try (by apply Hplain). destruct (dict_get (cl_rpc s) tok) as [k|]; [|by apply Hplain].
      rewrite !run_modify, run_last. apply Hplain; try done. apply (req_aside s); done.
    - repeat case_decide; by apply Hplain. }
  destruct (future_of s m) as [f|] eqn:Ef; [|done]. pose proof (future_of_known s m f HI Ef) as Hf.
  case_decide; [by apply receiver_schedule|]. case_decide; [by apply receiver_schedule|].
  destruct (is_terminal (m_kind m)) eqn:Et; [by apply Hplain|].
  case_decide; [by apply receiver_schedule|done].
Qed.

Lemma receiver_inv s res : ReqInv s → ReqInv (receiver_step (cl_receiver s) res s).1.
Proof.
  intros HI. pose proof HI as [].
  assert (Hplain : ∀ s0 pc, ReqInv s0 → receiver_task (cl_receiver s0) = [] → receiver_todo (cl_receiver s0) = [] →
    receiver_task pc = [] → receiver_todo pc = [] → receiver_past pc = false →
    match pc with RTerminal f m => False | _ => True end → ReqInv (set_receiver pc s0)).
  { intros s0 pc HI0 E1 E2 E3 E4 E5 Hpc. apply req_receiver; [done| |by destruct pc]. rewrite E1, E2, E3, E4, E5. done. }
  destruct (cl_receiver s) as [| |m|f m|t|k|l b|] eqn:E; cbn [receiver_step].
  - unfold receiver_read. rewrite run_gets, run_last. unfold id. apply Hplain; try (by rewrite E); try done; by destruct (cl_socket s).
  - apply Hplain; try (by rewrite E); try done; by destruct res.
  - apply receive_inv; [done|by rewrite E..].
  - unfold receiver_terminal. rewrite run_gets, run_modify, run_last. unfold id.
    destruct ri_receiver0 as [Hf Hm].
    change (set_receiver _ (set_terminal (set_add (rid s f)) s))
      with (set_terminal (set_add (rid s f)) (set_receiver (RSchedule (TComplete f m)) s)).
    change (rid s f) with (rid (set_receiver (RSchedule (TComplete f m)) s) f).
    apply req_terminal_add; [|done|].
    + apply receiver_schedule; try done; by rewrite E.
    + right. exists (TComplete f m). split_and!; [|done|done]. right; right; left. by left.
  - assert (Hp : pend s t) by (right; right; left; rewrite E; by left).
    destruct (schedule_inv s t HI Hp) as (s1 & Es & HI1 & Hset & Hd).
    unfold mbind, ST_bind. rewrite Es. rewrite run_last. apply req_receiver; [done| |done].
    destruct Hset as (_ & Er & _ & _ & _ & _ & _). rewrite Er, E. cbn.
    split; try done; try by intros ? ?%elem_of_nil.
    + intros t' ->%list_elem_of_singleton _. right; right. destruct Hd as [?|(y & Hy & Hin)]; [by left|right; right].
      exists y. split; [lia|done].
    + by intros _ ? ?%elem_of_nil.
  - unfold receiver_release. rewrite run_modify, run_last.
    apply Hplain; try (cbn; by rewrite E); try done. apply (req_aside s); done.
  - destruct (lost_end l) as [->|Hne].
    + rewrite run_last. apply Hplain; try (by rewrite E); try done; by destruct b.
    + destruct (receiver_lost_inv s l b HI E Hne) as (s1 & l' & El & HI1).
      replace (_.1) with (set_receiver (RLost l' b) s1); [done|].
      destruct l; try done; unfold mbind, ST_bind; by rewrite El.
  - done.
Qed.

(** ** Ending a future *)

Lemma callbacks_aside cbs f : respects aside (schedule_callbacks (V := V) cbs f).
Proof. unfold schedule_callbacks. repeat respects_step; by apply respects_modify. Qed.

Lemma callbacks_ok cbs f (s : Client) : ∃ s1, schedule_callbacks cbs f s = (s1, Ok tt).
Proof.
  unfold schedule_callbacks. destruct cbs; [by eexists|]. rewrite run_gets.
  destruct (cl_dispatch_closed (id s)); by eexists.
Qed.

Lemma end_future_inv s f op :
  ReqInv s → (∀ x, rf_le x (op x).1) →
  (∀ x, unavailable_outcome (rf_outcome (op x).1) = true →
    unavailable_outcome (rf_outcome x) = true ∨ cl_failed s = true ∧ ¬ handed s f) →
  ∃ s1, end_future f op s = (s1, Ok tt) ∧ ReqInv s1 ∧ aside (set_fut f (λ x, (op x).1) s) s1.
Proof.
  intros HI Hle Hu. unfold end_future. rewrite run_gets, run_modify.
  set (s0 := set_fut f _ s). destruct (callbacks_ok (op (fut (id s) f)).2 f s0) as [s1 E].
  assert (Ha : aside s0 s1) by (pose proof (callbacks_aside (op (fut (id s) f)).2 f s0) as Ha; by rewrite E in Ha).
  exists s1. split_and!; [done| |done]. apply (req_aside s0); [done|]. by apply req_fut.
Qed.

Lemma rf_end_unavailable {A} st b (out : option (outcome A)) x :
  unavailable_outcome (rf_outcome (rf_end st b out x).1) = true →
  unavailable_outcome (rf_outcome x) = true ∨ unavailable_outcome out = true.
Proof. unfold rf_end. destruct (rf_done x); auto. Qed.

Lemma rf_end_done {A} st b (out : option (outcome A)) x :
  FutureState.done b = true → rf_done (rf_end st b out x).1 = true.
Proof. unfold rf_end. by destruct (rf_done x) eqn:E. Qed.

Lemma complete_le m r x : rf_le x (complete_op loads m r x).1.
Proof.
  unfold complete_op. destruct (m_kind m); try done; try apply set_exception_le; try apply set_cancelled_le.
  destruct (loads (m_payload m)); [apply set_result_le|apply set_exception_le].
Qed.

Lemma task_failure_available m r : unavailable_failure (task_failure loads m r) = false.
Proof. unfold task_failure. destruct (m_payload m); [done|]. by destruct (loads _) as [[]|]. Qed.

Lemma complete_unavailable m r x :
  unavailable_outcome (rf_outcome (complete_op loads m r x).1) = true → unavailable_outcome (rf_outcome x) = true.
Proof.
  unfold complete_op, rf_set_result, rf_set_exception, rf_set_cancelled.
  destruct (m_kind m); try done; [destruct (loads (m_payload m))|..];
    intros [?|Hu]%rf_end_unavailable; try done; cbn in Hu.
  - unfold remote_error_or in Hu. by destruct (isinstance _ _).
  - by rewrite task_failure_available in Hu.
Qed.

Lemma complete_done m r x : is_terminal (m_kind m) = true → rf_done (complete_op loads m r x).1 = true.
Proof.
  unfold complete_op. destruct (m_kind m); try done; intros _; try by apply rf_end_done.
  destruct (loads (m_payload m)); by apply rf_end_done.
Qed.

Lemma reject_available control r : unavailable_failure (reject_failure control r) = false.
Proof. unfold reject_failure. destruct (get_or _ _ _); try done. by repeat case_decide. Qed.

(** ** The completion threads *)

Lemma exec_here s x f l :
  ReqInv s → (x < length (cl_execs s))%nat → cl_execs s !!! x = ELost f l → beginning l = false → lost_here s l.
Proof.
  intros [] Hx E Hb. split_and!.
  - intros t Ht. right; right; right. exists x. by rewrite E.
  - intros g Hg. apply ri_todo0. right; right. exists x. by rewrite E.
  - rewrite Hb. intros [H|]; [|done]. apply ri_past0. right; right. exists x. by rewrite E.
Qed.

Lemma exec_lost_inv s x f l :
  ReqInv s → (x < length (cl_execs s))%nat → cl_execs s !!! x = ELost f l → l ≠ LEnd →
  ∃ s1 l', lost_step l s = (s1, Ok l') ∧ ReqInv (set_exec x (ELost f l') s1).
Proof.
  intros HI Hx E Hne. destruct (ri_execs s HI x f Hx) as [Hf Hd]; [by rewrite E|].
  destruct (beginning l) eqn:Hb.
  - destruct l as [e| | | | |]; try done. rewrite lost_begin. destruct (cl_failed s) eqn:Ef.
    + exists s, LEnd. split; [done|]. apply req_exec; [done|done|by rewrite E|]. by intros g [= <-].
    + eexists _, _. split; [done|]. pose proof HI as [].
      apply (req_fail s); try done.
      * intros t. unfold pend. rewrite some_exec_set by done. rewrite (some_exec_split _ s x Hx), E.
        unfold some_exec_but. cbn. tauto.
      * intros g. unfold todo. rewrite some_exec_set by done. rewrite (some_exec_split _ s x Hx), E.
        unfold some_exec_but. cbn. rewrite elem_of_nil. tauto.
      * intros y g Hy. cbn in Hy. rewrite length_alter in Hy. rewrite exec_lookup by done.
        case_decide; [by intros [= <-]|by apply ri_execs0].
  - pose proof (exec_here s x f l HI Hx E Hb) as Hh.
    destruct (lost_step_inv s l HI Hh) as (s1 & l' & El & HI1 & Hset & H1 & H2 & H3 & H4 & H5).
    exists s1, l'. split; [done|]. pose proof Hset as (Es & Er & _ & _ & _ & _ & Hl & Hxs).
    apply req_exec; [done|lia| |].
    + rewrite (Hxs x Hx), E. eapply (lost_hand s); try done.
      intros t [?|(y & Hy & Hin)]; [by left|right; right; right]. exists y. split_and!; [lia|lia|done].
    + intros g [= <-]. by rewrite (settled_known s), (settled_fdone s).
Qed.

(** A thread with nothing in hand, or with a completion that does not matter any more. *)
Lemma exec_plain s x pc :
  ReqInv s → (x < length (cl_execs s))%nat → exec_todo (cl_execs s !!! x) = [] →
  (∀ t, t ∈ exec_task (cl_execs s !!! x) → ending_task t = true → fdone s (task_future t)) →
  exec_task pc = [] → exec_todo pc = [] → exec_past pc = false →
  (∀ f, exec_done pc = Some f → known s f ∧ fdone s f) →
  ReqInv (set_exec x pc s).
Proof.
  intros HI Hx E1 Ht E2 E3 E4 Hd. apply req_exec; [done|done| |done]. rewrite E1, E2, E3, E4.
  split; try done; try by intros ? ?%elem_of_nil.
  - intros t Hin He. left. by apply Ht.
  - by intros _ ? ?%elem_of_nil.
Qed.

Lemma exec_finish_inv s x :
  ReqInv s → (x < length (cl_execs s))%nat → exec_todo (cl_execs s !!! x) = [] →
  (∀ t, t ∈ exec_task (cl_execs s !!! x) → ending_task t = true → fdone s (task_future t)) →
  ReqInv (exec_finish x s).1.
Proof.
  intros HI Hx E Ht. destruct x as [|x]; cbn [exec_finish]; rewrite ?run_modify, run_last; apply exec_plain; try done.
  by apply (req_aside s).
Qed.

(** What running a completion does to its future: it leaves [x] behind, and then the thread
    names the future as done. *)
Lemma exec_end_inv s x t f op pc :
  ReqInv s → (x < length (cl_execs s))%nat → cl_execs s !!! x = ERun t → task_future t = f →
  (∀ y, rf_le y (op y).1) → (∀ y, rf_done (op y).1 = true) →
  (∀ y, unavailable_outcome (rf_outcome (op y).1) = true →
    unavailable_outcome (rf_outcome y) = true ∨ cl_failed s = true ∧ ¬ handed s f) →
  exec_task pc = [] → exec_todo pc = [] → exec_past pc = false →
  (∀ g, exec_done pc = Some g → g = f) →
  ReqInv ((_ ← end_future f op; modify (set_exec x pc)) s).1.
Proof.
  intros HI Hx E Htf Hle Hd Hu E1 E2 E3 Hg.
  assert (Hf : known s f).
  { subst f. apply (ri_tasks s HI). right; right; right. exists x. rewrite E. split; [done|by left]. }
  destruct (end_future_inv s f op HI Hle Hu) as (s1 & Es & HI1 & Ha).
  unfold mbind, ST_bind. rewrite Es, run_last.
  unfold aside in Ha. destruct Ha as (_ & A2 & _ & _ & _ & _ & _ & _ & _ & A10 & _).
  assert (Hdone : fdone s1 f).
  { unfold fdone, fut. rewrite A2. cbn. rewrite list_lookup_total_alter, decide_True; [apply Hd|done]. }
  assert (Hf1 : known s1 f) by (unfold known; rewrite A2; cbn; by rewrite length_alter).
  apply exec_plain; rewrite ?A10; try done; cbn; rewrite ?E; try done.
  - intros t' ->%list_elem_of_singleton _. by rewrite Htf.
  - intros g ->%Hg. done.
Qed.

Lemma exec_run_inv s x t :
  ReqInv s → (x < length (cl_execs s))%nat → cl_execs s !!! x = ERun t → ReqInv (exec_run loads x t s).1.
Proof.
  intros HI Hx E. assert (Hp : pend s t) by (right; right; right; exists x; rewrite E; split; [done|by left]).
  destruct (ri_tasks s HI t Hp) as [Hf Hok]. unfold exec_run. rewrite run_gets. unfold id.
  assert (Hquiet : ∀ f op, (∀ y, rf_le y (op y)) → (∀ y, rf_outcome (op y) = rf_outcome y) → ending_task t = false →
    ReqInv (exec_finish x (set_fut f op s)).1).
  { intros f op Hle Ho He. apply exec_finish_inv; [|done|cbn; by rewrite E|].
    - apply req_fut; [done..|]. intros y. rewrite Ho. auto.
    - cbn. rewrite E. intros t' ->%list_elem_of_singleton. by rewrite He. }
  destruct t as [f|f p w|f m|f c|f e]; rewrite ?run_modify; cbn [task_future] in *.
  - apply Hquiet; [apply set_accepted_le| |done]. intros y. unfold set_accepted. by destruct (rf_done y).
  - apply Hquiet; [apply set_running_le| |done]. intros y. unfold set_running. by destruct (rf_done y).
  - apply (exec_end_inv s x (TComplete f m)); try done.
    + apply complete_le.
    + intros y. by apply complete_done.
    + intros y Hu. left. by eapply complete_unavailable.
    + by intros g [= <-].
  - apply (exec_end_inv s x (TReject f c)); try done.
    + apply set_exception_le.
    + intros y. by apply rf_end_done.
    + intros y [?|Hu]%rf_end_unavailable; [by left|]. cbn in Hu. by rewrite reject_available in Hu.
    + by intros g [= <-].
  - apply (exec_end_inv s x (TFail f e)); try done.
    + apply set_exception_le.
    + intros y. by apply rf_end_done.
    + intros y [?|Hu]%rf_end_unavailable; [by left|right]. by apply (ri_unavt s HI (TFail f e)).
    + by intros g [= <-].
Qed.

Lemma exec_forget_inv s f : ReqInv s → known s f → fdone s f → ReqInv (forget f s).1.
Proof. intros HI Hf Hd. apply req_forget; auto. Qed.

Lemma exec_thread_inv s x full :
  ReqInv s → (x < length (cl_execs s))%nat → (cl_execs s !!! x = EIdle → x = O) →
  ReqInv (exec_step loads x (cl_execs s !!! x) full s).1.
Proof.
  intros HI Hx H0. pose proof (ri_execs s HI x) as Hex.
  assert (Hplain : ∀ s0 pc, ReqInv s0 → cl_execs s0 = cl_execs s → exec_task (cl_execs s !!! x) = [] →
    exec_todo (cl_execs s !!! x) = [] → exec_task pc = [] → exec_todo pc = [] → exec_past pc = false →
    (∀ f, exec_done pc = Some f → known s0 f ∧ fdone s0 f) → ReqInv (set_exec x pc s0)).
  { intros s0 pc HI0 E0 E1 E2 E3 E4 E5 Hd. apply exec_plain; rewrite ?E0; try done.
    rewrite E1. by intros t ?%elem_of_nil. }
  destruct (cl_execs s !!! x) as [|t|f|f l|f|f|f|] eqn:E; cbn [exec_step].
  - rewrite (H0 eq_refl) in *. unfold exec_take. rewrite run_gets. unfold id.
    destruct (cl_tasks s) as [|t rest] eqn:Eq; [done|]. rewrite run_modify, run_last.
    change (set_exec 0 (ERun t) _) with ({| (set_exec 0 (ERun t) s) with cl_tasks := rest |}).
    apply (req_drop_task _ t); [|done|].
    + apply req_exec; [done|done| |done]. rewrite E. cbn. split; try done; try by intros ? ?%elem_of_nil.
      * intros t' ->%list_elem_of_singleton. left. left. rewrite Eq. by left.
      * by intros _ ? ?%elem_of_nil.
    + apply some_exec_set; [done|]. left. by left.
  - by apply exec_run_inv.
  - unfold exec_ack. rewrite run_gets. unfold id. destruct full; rewrite ?run_modify, run_last; apply Hplain; try done.
    + by intros g [= <-]; apply Hex.
    + apply req_outbound; [done|]. intros m g [Hin|Hin]%elem_of_app; [by apply (ri_out s HI m)|].
      by apply list_elem_of_singleton in Hin.
    + by intros g [= <-]; apply Hex.
  - destruct (lost_end l) as [->|Hne].
    + rewrite run_last. apply Hplain; try done. by intros g [= <-]; apply Hex.
    + destruct (exec_lost_inv s x f l HI Hx E Hne) as (s1 & l' & El & HI1).
      replace (_.1) with (set_exec x (ELost f l') s1); [done|].
      destruct l; try done; unfold mbind, ST_bind; by rewrite El.
  - destruct (Hex f Hx eq_refl). unfold forget. rewrite run_modify, run_last.
    apply Hplain; try done; [by apply exec_forget_inv|]. by intros g [= <-].
  - rewrite run_gets, run_modify. unfold id. apply exec_finish_inv; [by apply req_terminal_filter|done|cbn; by rewrite E|].
    cbn. rewrite E. by intros t ?%elem_of_nil.
  - destruct (Hex f Hx eq_refl). unfold forget. rewrite run_modify.
    apply exec_finish_inv; [by apply exec_forget_inv|done|cbn; by rewrite E|].
    cbn. rewrite E. by intros t ?%elem_of_nil.
  - done.
Qed.

(** ** Submissions *)

Lemma client_submit_begin_inv s kwargs d mode op payload :
  ReqInv s → ReqInv (submit_begin (V := V) kwargs d mode op payload s).1.
Proof.
  intros HI. unfold submit_begin. rewrite run_gets. unfold id. destruct (cl_closed s); [done|].
  unfold lift, mbind, ST_bind. destruct (submission_options kwargs d) as [o|]; [|done].
  destruct (check_priority (op_priority o)); [|done]. destruct payload as [b|]; [|done].
  apply req_submits; [done|..].
  - intros f (k & Hk & Hf). exists k. rewrite lookup_total_snoc, length_app by done. split; [lia|done].
  - intros k f Hk. rewrite length_app in Hk. cbn in Hk. destruct (decide (k = length (cl_submits s))) as [->|].
    + by rewrite lookup_total_last.
    + rewrite lookup_total_snoc by lia. apply HI. lia.
Qed.

Lemma submit_abandon_inv s k f e :
  ReqInv s → (k < length (cl_submits s))%nat → submit_dropped (cl_submits s !!! k) = None → known s f →
  ReqInv (submit_abandon k f e s).1.
Proof.
  intros HI Hk Hold Hf. unfold submit_abandon, forget. rewrite run_modify, run_last.
  change (set_submit k _ _)
    with (set_futures (λ d, dict_del d (rid s f)) (set_submit k (PRaised (Some f) e) s)).
  change (rid s f) with (rid (set_submit k (PRaised (Some f) e) s) f).
  destruct (req_submit s k (PRaised (Some f) e)) as [HI1 Hd]; [done..|].
  apply req_forget; [done|done|]. right. by apply Hd.
Qed.

Lemma submit_inv s k flag :
  ReqInv s → (k < length (cl_submits s))%nat →
  ReqInv (submit_step limits client_id sha256_hex k (cl_submits s !!! k) flag s).1.
Proof.
  intros HI Hk. pose proof (ri_names s HI k) as Hn.
  assert (Hset : ∀ s0 pc, ReqInv s0 → cl_submits s0 = cl_submits s → submit_dropped (cl_submits s !!! k) = None →
    (∀ f, submit_names pc = Some f → known s0 f) → ReqInv (set_submit k pc s0)).
  { intros s0 pc HI0 E Hd Hpc. apply req_submit; rewrite ?E; done. }
  destruct (cl_submits s !!! k) as [o mode op payload|f m|f m|f m|f|f e] eqn:E; cbn [submit_step]; try done.
  - unfold submit_register. rewrite run_gets. unfold id.
    destruct (cl_closed s); [by apply Hset|]. destruct (cl_failed s || negb (cl_socket s)) eqn:Ef; [by apply Hset|].
    apply orb_false_iff in Ef as [Ef _]. rewrite run_modify, run_last.
    apply (Hset (registered s)); [by apply req_register|done|done|].
    intros g [= <-]. unfold known. cbn. rewrite length_app. cbn. lia.
  - unfold submit_validate. destruct (validate_control _ _).
    + apply Hset; try done. intros g [= <-]. by apply Hn.
    + apply submit_abandon_inv; try done; [by rewrite E|by apply Hn].
  - unfold submit_late. destruct flag.
    + apply submit_abandon_inv; try done; [by rewrite E|by apply Hn].
    + apply Hset; try done. intros g [= <-]. by apply Hn.
  - unfold submit_put. destruct flag.
    + apply submit_abandon_inv; try done; [by rewrite E|by apply Hn].
    + rewrite run_modify, run_last. apply Hset; try done.
      * apply req_outbound; [done|]. intros m' g [Hin|Hin]%elem_of_app; [by apply (ri_out s HI m')|].
        apply list_elem_of_singleton in Hin as [= -> ->]. by apply Hn.
      * intros g [= <-]. by apply Hn.
Qed.

(** ** Calls, callbacks and shutdown *)

(** A change of the outbound queue that adds a control message. *)
Lemma req_control s m : ReqInv s → ReqInv (set_outbound (λ q, q ++ [(m, None)]) s).
Proof.
  intros HI. apply req_outbound; [done|]. intros m' g [Hin|Hin]%elem_of_app; [by apply (ri_out s HI m')|].
  by apply list_elem_of_singleton in Hin.
Qed.

Ltac req_aside_step s := match goal with |- ReqInv ?s' => apply (req_aside s); [by unfold aside|] end.

Lemma future_cancel_inv s f : ReqInv s → ReqInv (future_cancel f s).1.
Proof.
  intros HI. unfold future_cancel, rf_cancel. rewrite run_gets. unfold id.
  destruct (rf_done (fut s f)); [done|]. case_decide.
  - destruct (end_future_inv s f rf_set_cancelled HI) as (s1 & E & HI1 & _).
    + apply set_cancelled_le.
    + intros x [?|Hu]%rf_end_unavailable; [by left|done].
    + destruct (rf_set_cancelled (fut s f)). by rewrite E.
  - by apply (req_aside s).
Qed.

Lemma call_inv s k token flag : ReqInv s → ReqInv (call_step k (cl_calls s !!! k) token flag s).1.
Proof.
  intros HI. destruct (ca_pc (cl_calls s !!! k)) as [kind c key|kind c tok slot|tok slot|tok|tok a|a] eqn:E;
    unfold call_step; rewrite E.
  - unfold call_register. rewrite run_gets. unfold id. destruct (cl_socket s) eqn:Es; by apply (req_aside s).
  - unfold call_enqueue. destruct flag; rewrite ?run_modify, run_last; [by apply (req_aside s)|].
    apply (req_aside (set_outbound (λ q, q ++ [(Some (mkMessage kind c []), None)]) s)); [done|by apply req_control].
  - unfold call_wait. rewrite run_gets. unfold id. destruct (rpc_set _); [|by apply (req_aside s)].
    destruct (ca_future _); [|by apply (req_aside s)].
    destruct (get _ _); try (by apply (req_aside s)); cbn. repeat case_decide; by apply (req_aside s).
  - unfold call_cancelled. destruct (ca_future _) as [f|]; [|done].
    destruct (end_future_inv s f rf_set_cancelled HI) as (s1 & Es & HI1 & _).
    + apply set_cancelled_le.
    + intros x [?|Hu]%rf_end_unavailable; [by left|done].
    + unfold mbind, ST_bind. rewrite Es, run_last. by apply (req_aside s1).
  - unfold call_pop. rewrite run_modify, run_last. by apply (req_aside s).
  - done.
Qed.

Lemma fin_inv s pc full : ReqInv s → ReqInv (fin_step (V := V) pc full s).1.
Proof.
  intros HI. destruct pc as [futs [|f rest]|c futs rest|futs| |c| | | | | |]; cbn [fin_step]; try done;
    rewrite ?run_modify, ?run_last; try (by apply (req_aside s)).
  - rewrite run_gets. unfold id. destruct (rf_done (fut s f)); [by apply (req_aside s)|].
    pose proof (future_cancel_inv s f HI) as HI1. unfold mbind, ST_bind.
    destruct (future_cancel f s) as [s1 [[]|e]]; [|done]. cbn in HI1 |- *. by apply (req_aside s1).
  - rewrite run_gets. unfold id. destruct (cl_socket s && negb (cl_failed s)) eqn:E; by apply (req_aside s).
  - destruct full; rewrite ?run_skip, ?run_modify, run_last; [by apply (req_aside s)|].
    apply (req_aside (set_outbound (λ q, q ++ [(None, None)]) s)); [done|by apply req_control].
Qed.

Lemma add_done_callback_inv s f : ReqInv s → ReqInv (add_done_callback f s).1.
Proof.
  intros HI. unfold add_done_callback. rewrite run_gets, !run_modify. unfold id.
  set (s0 := set_fut f _ _).
  assert (HI0 : ReqInv s0).
  { apply (req_fut {| s with cl_callbacks := S (cl_callbacks s) |}); [by apply (req_aside s)|apply add_callback_le|].
    intros x Hx. left. unfold rf_add_callback in Hx. by destruct (rf_done x). }
  destruct (rf_add_callback _ _).2; [by apply (req_aside s0)|done].
Qed.

(** ** Every event *)

Theorem client_exec_inv s e : ReqInv s → enabled limits e s = true → ReqInv (exec e s).1.
Proof.
  intros HI He. destruct e as [kw d mode op payload|k flag|res|res|x full|f|f|kind c|k tok flag|f| |k|c|full];
    cbn [exec]; rewrite ?run_gets; unfold id; cbn in He.
  - by apply client_submit_begin_inv.
  - apply andb_true_iff in He as [Hk%Nat.ltb_lt _]. by apply submit_inv.
  - by apply sender_inv.
  - by apply receiver_inv.
  - apply andb_true_iff in He as [Hx%Nat.ltb_lt Hpc]. apply exec_thread_inv; [done|done|].
    intros E. rewrite E in Hpc. by destruct x.
  - by apply future_cancel_inv.
  - unfold future_kill. rewrite run_gets. unfold id. destruct (rf_done _); [done|by apply (req_aside s)].
  - by apply (req_aside s).
  - by apply call_inv.
  - by apply add_done_callback_inv.
  - unfold dispatcher_turn. rewrite run_gets. unfold id. destruct (cl_dispatch s); [done|by apply (req_aside s)].
  - unfold batch_turn. rewrite run_gets. unfold id. destruct (cl_batches s !! k) as [[[|cb cbs] f]|]; try done.
    rewrite run_modify, run_last. by apply (req_aside s).
  - unfold shutdown. rewrite run_gets. unfold id. destruct (cl_closed s); [done|].
    rewrite run_modify, run_last. by apply (req_aside s).
  - destruct (cl_fin s); [by apply fin_inv|done].
Qed.

Theorem client_init_inv : ReqInv (client_init limits).
Proof.
  assert (Hx : ∀ P : exec_pc → Prop, some_exec P (client_init limits) → P EIdle).
  { intros P (x & Hx & H). cbn in Hx, H. by destruct x; [|lia]. }
  assert (Hk : ∀ f, ¬ known (client_init limits) f) by (intros f; unfold known; cbn; lia).
  assert (Hp : ∀ t, ¬ pend (client_init limits) t).
  { intros t [H|[H|[H|H%Hx]]]; by apply elem_of_nil in H. }
  split; try done; try (by intros f Hf%Hk).
  - apply dict_wf_nil.
  - by intros k f ?%elem_of_nil.
  - intros f [H|[H|H]]; try done. by apply elem_of_nil in H.
  - by intros t ?%Hp.
  - by intros t ?%Hp.
  - intros f [H|[H|H%Hx]]; by apply elem_of_nil in H.
  - by intros [H|[H|H%Hx]].
  - by intros r ?%elem_of_nil.
  - by intros m f ?%elem_of_nil.
  - intros x f Hl. cbn in Hl. by destruct x; [|lia].
Qed.

Theorem client_reachable_inv s : client_reachable s → ReqInv s.
Proof.
  intros (es & Hs). eapply (steps_invariant client_step ReqInv); [|apply client_init_inv|exact Hs].
  intros s1 e s2 HI [He <-]. by apply client_exec_inv.
Qed.
End ClientInv.
