(* ===== verification/ClientProps.v ===== *)
(** * ClientProps: what holds of every run of the client executor

    The outcome of a request is final, a request whose failure promises that it was never
    sent was never sent, a connection loss leaves no future behind, callbacks are called
    once and the queues are bounded. The witnesses run the client of [ClientDemo]. *)
From S2P Require Import Prelude Errors Futures StateErr PyVal PyInt Config Protocol RemoteFuture Client ClientInv.

(** ** A run *)
Module ClientDemo.
#[export] Instance json : JsonText := {| json_text := λ _, py "{}"; json_value := λ _, Ok PNone |}.

Definition limits : RemoteLimits := default_remote_limits.
Definition sha (_ : bytes) : pystr := zeros 64.
Definition loads (_ : bytes) : result exn (Z + exn) := Ok (inl 7).
Definition one : pyfloat := match float_of_int 1 with Ok f => f | Err _ => fzero end.

Definition after (l : RemoteLimits) (es : list event) : Client (V := Z) :=
  default (client_init l) (client_run l (py "c") sha loads (client_init l) es).
Definition completes (l : RemoteLimits) (es : list event) : bool :=
  if client_run l (py "c") sha loads (client_init l) es is Some _ then true else false.

Lemma client_reached l es :
  completes l es = true → client_reachable l (py "c") sha loads (after l es).
Proof.
  unfold completes, after. destruct (client_run _ _ _ _ _ es) as [s|] eqn:E; [|done].
  intros _. exists es. by apply client_run_steps.
Qed.

(** A call of [submit], one stretch at a time. *)
Definition begin : event := EvSubmit [] one (PStr (py "callable")) PNone (Ok [x01; x02]).
Definition stretch (k : nat) : event := EvSubmitStep k false.
Definition submission (k : nat) : list event := begin :: repeat (stretch k) 4.

(** The sender takes one message and sends it. *)
Definition send_one : list event := repeat (EvSender None) 4.

(** The receiver gets a message about the first request, and the completion runs. *)
Definition about (kind : MessageType) (id : string) : Message :=
  mkMessage kind (mkdict [("request_id", PStr (py id))])%string [].
Definition get_one (m : Message) (n : nat) : list event := repeat (EvReceiver (Ok m)) n.
Definition complete (n : nat) : list event := repeat (EvExec 0 false) n.

(** The first request is sent and its result arrives. *)
Definition answered : list event :=
  submission 0 ++ [EvCallback 0] ++ send_one ++
  get_one (about ACCEPTED_ "c:1") 4 ++ complete 2 ++ get_one (about RESULT "c:1") 5 ++ complete 5.

(** The connection breaks while the first request is under way and the second one is still
    queued. *)
Definition broken : list event :=
  submission 0 ++ send_one ++ submission 1 ++ repeat (EvReceiver (Err (Raise OSError "reset"))) 12 ++
  complete 6.
End ClientDemo.
Import (hints) ClientDemo.

Section ClientProps.
Context {J : JsonText} {V : Type}.
Context (limits : RemoteLimits) (client_id : pystr) (sha256_hex : bytes → pystr).
Context (loads : bytes → result exn (V + exn)).
Notation Client := (Client (V := V)).
Notation exec := (exec limits client_id sha256_hex loads).
Notation client_step := (client_step limits client_id sha256_hex loads).
Notation client_reachable := (client_reachable limits client_id sha256_hex loads).
Notation ReqInv := (ReqInv client_id).

(** ** Outcomes are final *)

(** Every future moves forward in its own state machine. *)
Definition heap_le (s s' : Client) : Prop :=
  (length (cl_fut_heap s) ≤ length (cl_fut_heap s'))%nat ∧
  ∀ f, known s f → rf_le (fut s f) (fut s' f).

#[export] Instance heap_le_preorder : PreOrder heap_le.
Proof.
  split; [by split|]. intros s1 s2 s3 [L1 H1] [L2 H2]. split; [lia|]. intros f Hf.
  transitivity (fut s2 f); [auto|]. apply H2. unfold known in *. lia.
Qed.

Lemma heap_le_same s s' : cl_fut_heap s' = cl_fut_heap s → heap_le s s'.
Proof. intros E. unfold heap_le, fut. rewrite E. by split. Qed.

Lemma heap_le_fut s f op : (∀ x, rf_le x (op x)) → heap_le s (set_fut f op s).
Proof.
  intros H. split; cbn; [by rewrite length_alter|]. intros g _. unfold fut. cbn.
  rewrite list_lookup_total_alter. by case_decide as E; [destruct E as [<- _]|].
Qed.

Ltac heap_leaf := apply respects_modify; intros ?; by apply heap_le_same.
Ltac heap := repeat respects_step; try heap_leaf.

Lemma end_future_heap f op : (∀ x, rf_le x (op x).1) → respects heap_le (end_future (V := V) f op).
Proof.
  intros H. unfold end_future, schedule_callbacks. heap. apply respects_modify. intros s.
  by apply heap_le_fut.
Qed.

Lemma schedule_heap t : respects heap_le (schedule_completion (V := V) t).
Proof. unfold schedule_completion. heap. Qed.

Lemma lost_heap l : respects heap_le (lost_step (V := V) l).
Proof.
  destruct l as [| | ? [|]| | |]; cbn [lost_step]; unfold release_waiter; heap; apply schedule_heap.
Qed.

Lemma forget_heap f : respects heap_le (forget (V := V) f).
Proof. unfold forget. heap. Qed.

Lemma exec_finish_heap x : respects heap_le (exec_finish (V := V) x).
Proof. destruct x; cbn; heap. Qed.

Lemma cancel_heap f : respects heap_le (future_cancel (V := V) f).
Proof. unfold future_cancel. heap. apply end_future_heap, set_cancelled_le. Qed.

Lemma exec_step_heap x pc full : respects heap_le (exec_step loads x pc full).
Proof.
  destruct pc as [|[f|f p w|f m|f c|f e]|f|f l|f|f|f|]; cbn [exec_step];
    unfold exec_take, exec_run, exec_ack; heap;
    try apply exec_finish_heap; try apply forget_heap; try apply lost_heap.
  - apply respects_modify. intros s. apply heap_le_fut, set_accepted_le.
  - apply respects_modify. intros s. apply heap_le_fut, set_running_le.
  - apply end_future_heap. intros x'. apply complete_le.
  - apply end_future_heap, set_exception_le.
  - apply end_future_heap, set_exception_le.
Qed.

Lemma submit_step_heap k pc flag : respects heap_le (submit_step limits client_id sha256_hex (V := V) k pc flag).
Proof.
  destruct pc; cbn [submit_step]; unfold submit_register, submit_validate, submit_late, submit_put, submit_abandon;
    heap; try apply forget_heap.
  apply respects_modify. intros s. split; cbn; [rewrite length_app; lia|]. intros f Hf.
  unfold fut. cbn. by rewrite lookup_total_snoc.
Qed.

Lemma exec_heap e : respects heap_le (exec e).
Proof.
  destruct e as [kw d mode op payload|k flag|res|res|x full|f|f|kind c|k tok flag|f| |k|c|full]; cbn [exec].
  - unfold submit_begin. heap.
  - heap. apply submit_step_heap.
  - heap. destruct (cl_sender a) as [|[m|] [f|]|f|m f|m f|l|]; cbn [sender_step sender_item];
      unfold sender_get, sender_sock, sender_send; heap; try apply forget_heap; try apply lost_heap.
    apply respects_modify. intros s. apply heap_le_fut, set_sent_le.
  - heap. destruct (cl_receiver a) as [| |m|f m|t|k|l b|]; cbn [receiver_step];
      unfold receiver_read, receive, receiver_terminal, receiver_release; heap;
      try apply schedule_heap; apply lost_heap.
  - heap. apply exec_step_heap.
  - apply cancel_heap.
  - unfold future_kill. heap.
  - unfold rpc_request. heap.
  - heap. unfold call_step, call_register, call_enqueue, call_wait, call_cancelled, call_pop. heap.
    apply end_future_heap, set_cancelled_le.
  - unfold add_done_callback. heap. apply respects_modify. intros s. apply heap_le_fut, add_callback_le.
  - unfold dispatcher_turn. heap.
  - unfold batch_turn. heap.
  - unfold shutdown. heap.
  - heap. unfold fin_step, rpc_request. heap; apply cancel_heap.
Qed.

Lemma steps_heap s es s' : steps client_step s es s' → heap_le s s'.
Proof. intros Hs. eapply (steps_preorder client_step heap_le); [|exact Hs]. intros s1 e s2 [_ <-]. apply exec_heap. Qed.

Lemma heap_le_done s s' f : heap_le s s' → known s f → fdone s f → known s' f ∧ fut s' f = fut s f.
Proof.
  intros [Hl Hle] Hf Hd. split; [unfold known in *; lia|]. by apply (Hle f Hf).
Qed.

(** The outcome of a request is final: whatever the threads, the server and the callers of
    [cancel] do afterwards, a future that is done stays exactly as it is. *)
Theorem client_outcome_final s es s' f :
  steps client_step s es s' → (f < length (cl_fut_heap s))%nat → rf_done (fut s f) = true →
  fut s' f = fut s f.
Proof. intros Hs%steps_heap Hf Hd. by destruct (heap_le_done s s' f Hs Hf Hd). Qed.

(** ** What was never sent *)

(** Only the sender hands a message to the socket. *)
Definition unsent (s s' : Client) : Prop :=
  cl_sender s' = cl_sender s ∧ cl_written s' = cl_written s.

#[export] Instance unsent_preorder : PreOrder unsent.
Proof. split; [by split|]. intros s1 s2 s3 [E1 E2] [E3 E4]. split; congruence. Qed.

Ltac quiet := repeat respects_step; try (apply respects_modify; by intros ?).

Lemma end_future_unsent f op : respects unsent (end_future (V := V) f op).
Proof. unfold end_future, schedule_callbacks. quiet. Qed.
Lemma schedule_unsent t : respects unsent (schedule_completion (V := V) t).
Proof. unfold schedule_completion. quiet. Qed.
Lemma lost_unsent l : respects unsent (lost_step (V := V) l).
Proof.
  destruct l as [| | ? [|]| | |]; cbn [lost_step]; unfold release_waiter; quiet; apply schedule_unsent.
Qed.
Lemma forget_unsent f : respects unsent (forget (V := V) f).
Proof. unfold forget. quiet. Qed.
Lemma exec_finish_unsent x : respects unsent (exec_finish (V := V) x).
Proof. destruct x; cbn; quiet. Qed.
Lemma cancel_unsent f : respects unsent (future_cancel (V := V) f).
Proof. unfold future_cancel. quiet. apply end_future_unsent. Qed.

Lemma exec_unsent e : (∀ res, e ≠ EvSender res) → respects unsent (exec e).
Proof.
  intros He. destruct e as [kw d mode op payload|k flag|res|res|x full|f|f|kind c|k tok flag|f| |k|c|full]; cbn [exec].
  - unfold submit_begin. quiet.
  - quiet. destruct (cl_submits a !!! k); cbn [submit_step];
      unfold submit_register, submit_validate, submit_late, submit_put, submit_abandon; quiet; apply forget_unsent.
  - by destruct (He res).
  - quiet. destruct (cl_receiver a) as [| |m|f m|t|k|l b|]; cbn [receiver_step];
      unfold receiver_read, receive, receiver_terminal, receiver_release; quiet;
      try apply schedule_unsent; apply lost_unsent.
  - quiet. destruct (cl_execs a !!! x) as [|[]| | | | | |]; cbn [exec_step]; unfold exec_take, exec_run, exec_ack; quiet;
      try apply exec_finish_unsent; try apply forget_unsent; try apply lost_unsent; apply end_future_unsent.
  - apply cancel_unsent.
  - unfold future_kill. quiet.
  - unfold rpc_request. quiet.
  - quiet. unfold call_step, call_register, call_enqueue, call_wait, call_cancelled, call_pop. quiet.
    apply end_future_unsent.
  - unfold add_done_callback. quiet.
  - unfold dispatcher_turn. quiet.
  - unfold batch_turn. quiet.
  - unfold shutdown. quiet.
  - quiet. unfold fin_step, rpc_request. quiet; apply cancel_unsent.
Qed.

(** A message is newly marked as sent only if its future was not done. *)
Lemma exec_marked s e f : marked (exec e s).1 f → marked s f ∨ rf_done (fut s f) = false.
Proof.
  destruct (match e with EvSender _ => true | _ => false end) eqn:Ee.
  2: { destruct (exec_unsent e ltac:(by intros res ->) s) as [E1 E2]. unfold marked, handed. rewrite E1, E2. auto. }
  destruct e as [| |res| | | | | | | | | | |]; try done. cbn [exec]. rewrite run_gets. unfold id.
  destruct (cl_sender s) as [|m g|g|m g|m g|l|] eqn:E; [cbn [sender_step]..| |cbn [sender_step]].
  - unfold sender_get. rewrite run_gets. unfold id. destruct (cl_outbound s) as [|[m g] rest]; [by left|].
    rewrite run_modify, run_last. intros [H|[H|H]]; [done..|left; right; by right].
  - destruct m as [m|], g as [g|]; cbn [sender_item]; rewrite ?run_last;
      try (intros [H|[H|H]]; [done..|left; right; by right]).
    rewrite run_gets, run_modify, run_last. unfold id.
    intros [H|[H|H]]; cbn in H.
    + unfold set_sent in H. destruct (rf_done (fut s g)) eqn:Ed; [done|]. injection H as ->. by right.
    + unfold set_sent in H. by destruct (rf_done (fut s g)).
    + left; right; by right.
  - unfold forget. rewrite run_modify, run_last. intros [H|[H|H]]; [done..|left; right; by right].
  - unfold sender_sock. rewrite run_gets, run_last. unfold id. intros [H|[H|H]]; cbn in H.
    + left; left. rewrite E. by destruct (cl_socket s).
    + left; left. rewrite E. by destruct (cl_socket s).
    + left; right; by right.
  - unfold sender_send. rewrite run_modify, run_last. intros [H|[H|H]]; cbn in H; [by destruct res..|].
    rewrite fmap_app, elem_of_app in H. destruct H as [H|H]; [left; right; by right|].
    apply list_elem_of_singleton in H. left; left. by rewrite E.
  - assert (Hw : cl_written (sender_step (XLost l) res s).1 = cl_written s ∧
                 sender_marked (cl_sender (sender_step (XLost l) res s).1) = None).
    { destruct (lost_unsent l s) as [E1 E2].
      destruct l; cbn [sender_step]; try done; unfold mbind at 1 2, ST_bind;
        destruct (lost_step _ s) as [s1 [l'|e']]; cbn in *; rewrite ?E1, ?E2, ?E; done. }
    destruct Hw as [E1 E2]. unfold marked, handed. rewrite E1.
    assert (sender_handed (cl_sender (sender_step (XLost l) res s).1) = None) as ->
      by (destruct (cl_sender (sender_step (XLost l) res s).1); try done; cbn in *; congruence).
    rewrite E2. intros [|[|]]; try done. left. right. by right.
  - intros H. by left.
Qed.

Lemma never_marked s es s' f :
  steps client_step s es s' → known s f → fdone s f → ¬ marked s f → ¬ marked s' f.
Proof.
  induction 1 as [s|s e s1 es s2 [_ <-] _ IH]; [done|]. intros Hf Hd Hm.
  destruct (heap_le_done s (exec e s).1 f (exec_heap e s) Hf Hd) as [Hf1 E].
  apply IH; [done|unfold fdone in *; by rewrite E|].
  intros [?|H]%exec_marked; [done|]. unfold fdone in Hd. congruence.
Qed.

Lemma local_pending (s : Client) f :
  ReqInv s → known s f → rf_submission (fut s f) = SubmissionState.LOCAL_PENDING → rf_done (fut s f) = false.
Proof.
  intros HI Hf Hl. pose proof (ri_ok _ _ HI f Hf) as Hok. unfold rf_ok, rf_done in *. rewrite Hl in Hok.
  destruct (rf_base (fut s f)); try done.
  - naive_solver.
  - destruct Hok as [_ H]. destruct (rf_outcome (fut s f)) as [[]|]; naive_solver.
Qed.


(** C22: A request that is cancelled before the sender took it is cancelled at once and for good:
    its message is never handed to the socket, although it stays in the outbound queue. *)
Theorem local_cancel_never_sent s f es s' :
  client_reachable s → (f < length (cl_fut_heap s))%nat →
  rf_submission (fut s f) = SubmissionState.LOCAL_PENDING →
  let s1 := (future_cancel f s).1 in
  steps client_step s1 es s' →
  rf_base (fut s1 f) = FutureState.CANCELLED_AND_NOTIFIED ∧ fut s' f = fut s1 f ∧
  ∀ m, (m, Some f) ∉ cl_written s'.
Proof.
  intros HI%client_reachable_inv Hf Hl s1 Hs. pose proof (local_pending s f HI Hf Hl) as Hd.
  assert (Hm : ¬ marked s f) by (intros Hm; by destruct (ri_marked _ _ HI f Hm)).
  assert (Hm1 : ¬ marked s1 f).
  { destruct (cancel_unsent f s) as [E1 E2]. unfold marked, handed, s1. by rewrite E1, E2. }
  assert (Hf1 : known s1 f) by (destruct (cancel_heap f s) as [Hlen _]; unfold known, s1; lia).
  assert (E : fut s1 f = (rf_set_cancelled (fut s f)).1).
  { unfold s1, future_cancel, rf_cancel. rewrite run_gets. unfold id. rewrite Hd, decide_True by done.
    destruct (end_future_inv client_id s f rf_set_cancelled HI) as (s2 & E2 & _ & Ha).
    - apply set_cancelled_le.
    - intros x [?|Hu]%rf_end_unavailable; [by left|done].
    - destruct (rf_set_cancelled (fut s f)) eqn:Er. cbn [fst]. rewrite E2. cbn.
      unfold aside in Ha. destruct Ha as (_ & Eh & _). unfold fut at 1. rewrite Eh. cbn.
      rewrite list_lookup_total_alter, decide_True by done. exact (f_equal fst Er). }
  assert (Hd1 : rf_base (fut s1 f) = FutureState.CANCELLED_AND_NOTIFIED).
  { rewrite E. unfold rf_set_cancelled, rf_end. by rewrite Hd. }
  assert (Hfd : fdone s1 f) by (unfold fdone, rf_done; by rewrite Hd1).
  split_and!; [done| |].
  - by destruct (heap_le_done s1 s' f (steps_heap s1 es s' Hs) Hf1 Hfd).
  - intros m Hin. apply (never_marked s1 es s' f Hs Hf1 Hfd Hm1). right; right.
    apply list_elem_of_fmap. by exists (m, Some f).
Qed.

(** ** No future is left behind *)

(** No thread has a completion or a lost future in hand. *)
Definition at_rest (s : Client) : Prop :=
  cl_tasks s = [] ∧ sender_task (cl_sender s) = [] ∧ sender_todo (cl_sender s) = [] ∧
  receiver_task (cl_receiver s) = [] ∧ receiver_todo (cl_receiver s) = [] ∧
  Forall (λ pc, exec_task pc = [] ∧ exec_todo pc = []) (cl_execs s).

(** C19: A lost connection leaves no future behind: once it is marked, every future that is not
    done has a completion under way that ends it, or is still on the list of the thread that
    marked the loss, and when the threads have come to rest every future is done but those
    whose [submit] raised. *)
Theorem no_future_left_behind s f :
  client_reachable s → cl_failed s = true → (f < length (cl_fut_heap s))%nat →
  rf_done (fut s f) = true ∨
  (∃ k e, cl_submits s !! k = Some (PRaised (Some f) e)) ∨
  ¬ at_rest s ∧
  (todo s f ∨ ∃ t, pend s t ∧ ending_task t = true ∧ task_future t = f).
Proof.
  intros HI%client_reachable_inv Hfail Hf.
  assert (Hrest : at_rest s → (∀ t, ¬ pend s t) ∧ ∀ g, ¬ todo s g).
  { intros (E1 & E2 & E3 & E4 & E5 & Hx). rewrite Forall_lookup in Hx.
    assert (Hxe : ∀ x, (x < length (cl_execs s))%nat →
      exec_task (cl_execs s !!! x) = [] ∧ exec_todo (cl_execs s !!! x) = []).
    { intros x Hl. apply (Hx x). by apply list_lookup_lookup_total_lt. }
    unfold pend, todo, some_exec. rewrite E1, E2, E3, E4, E5. split.
    - intros t [H|[H|[H|(x & Hl & H)]]]; try by apply elem_of_nil in H.
      destruct (Hxe x Hl) as [E _]. rewrite E in H. by apply elem_of_nil in H.
    - intros g [H|[H|(x & Hl & H)]]; try by apply elem_of_nil in H.
      destruct (Hxe x Hl) as [_ E]. rewrite E in H. by apply elem_of_nil in H. }
  destruct (ri_covered _ _ HI Hfail f Hf) as [?|[(k & Hk & Hdr)|H]]; [by left| |].
  - right; left. exists k. destruct (cl_submits s !!! k) as [| | | | |[g|] e] eqn:E; try done.
    exists e. cbn in Hdr. injection Hdr as ->. apply list_lookup_alt. done.
  - right; right. split.
    + intros [Hp Ht]%Hrest. destruct H as [H|(t & H & _)]; [by apply (Ht f)|by apply (Hp t)].
    + destruct H as [H|H]; [by left|by right].
Qed.
End ClientProps.

(** ** Witnesses *)

Lemma client_outcome_final_witness :
  let s := ClientDemo.after ClientDemo.limits ClientDemo.answered in
  (0 < length (cl_fut_heap s))%nat ∧ rf_done (fut s 0) = true ∧
  fut (exec ClientDemo.limits (py "c") ClientDemo.sha ClientDemo.loads (EvCancel 0) s).1 0 = fut s 0.
Proof.
  intros s. assert (Hl : (0 < length (cl_fut_heap s))%nat) by (vm_compute; lia).
  assert (Hd : rf_done (fut s 0) = true) by (vm_compute; done). split_and!; [done|done|].
  eapply (client_outcome_final ClientDemo.limits (py "c") ClientDemo.sha ClientDemo.loads s [EvCancel 0]); [|done|done].
  econstructor; [split; [vm_compute; done|reflexivity]|constructor].
Defined.


Lemma local_cancel_never_sent_witness :
  let s := ClientDemo.after ClientDemo.limits (ClientDemo.submission 0) in
  let s1 := (future_cancel 0 s).1 in
  rf_base (fut s1 0) = FutureState.CANCELLED_AND_NOTIFIED ∧ ∀ m, (m, Some 0%nat) ∉ cl_written s1.
Proof.
  intros s s1.
  destruct (local_cancel_never_sent ClientDemo.limits (py "c") ClientDemo.sha ClientDemo.loads s 0 [] s1)
    as (? & _ & ?); [|vm_compute; lia|vm_compute; done|constructor|done].
  apply ClientDemo.client_reached. vm_compute. done.
Defined.

Lemma no_future_left_behind_witness :
  let s := ClientDemo.after ClientDemo.limits ClientDemo.broken in
  rf_done (fut s 0) = true ∨ (∃ k e, cl_submits s !! k = Some (PRaised (Some 0%nat) e)) ∨
  ¬ at_rest s ∧ (todo s 0 ∨ ∃ t, pend s t ∧ ending_task t = true ∧ task_future t = 0%nat).
Proof.
  intros s. apply (no_future_left_behind ClientDemo.limits (py "c") ClientDemo.sha ClientDemo.loads s 0);
    [apply ClientDemo.client_reached| |]; vm_compute; done || lia.
Defined.
