(* ===== verification/ClientQueues.v ===== *)
(** * ClientQueues: the queues, slots and callbacks of the client executor

    The completion slots account for every completion that is queued or runs, the outbound
    queue keeps its bound, a completion thread that loses the connection while the lane is
    full waits for itself, and every callback is called once. *)
From S2P Require Import Prelude Errors Futures StateErr PyVal PyInt Config Protocol RemoteFuture Client ClientInv ClientProps.
Import (hints) ClientDemo.

Section ClientQueues.
Context {J : JsonText} {V : Type}.
Context (limits : RemoteLimits) (client_id : pystr) (sha256_hex : bytes → pystr).
Context (loads : bytes → result exn (V + exn)).
Notation Client := (Client (V := V)).
Notation exec := (exec limits client_id sha256_hex loads).
Notation enabled := (enabled limits).
Notation client_step := (client_step limits client_id sha256_hex loads).
Notation client_reachable := (client_reachable limits client_id sha256_hex loads).

(** ** The completion lane *)

(** The lane is as it was. *)
Definition lanes (s s' : Client) : Prop :=
  cl_slots s' = cl_slots s ∧ cl_tasks s' = cl_tasks s ∧ cl_execs s' = cl_execs s.

#[export] Instance lanes_preorder : PreOrder lanes.
Proof. split; [by unfold lanes|]. unfold lanes. intros s1 s2 s3 H1 H2. destruct_and! H1. destruct_and! H2. split_and!; congruence. Qed.

(** It is, or it has taken one more completion, for which there was a free slot. *)
Inductive lane_grow (s s' : Client) : Prop :=
  | GSame : lanes s s' → lane_grow s s'
  | GQueue t : 0 < cl_slots s → cl_slots s' = cl_slots s - 1 → cl_tasks s' = cl_tasks s ++ [t] →
      cl_execs s' = cl_execs s → lane_grow s s'
  | GInline t : 0 < cl_slots s → cl_slots s' = cl_slots s → cl_tasks s' = cl_tasks s →
      cl_execs s' = cl_execs s ++ [ERun t] → lane_grow s s'.

(** What one event does to it. *)
Inductive lane_move (s s' : Client) : Prop :=
  | LGrow : lane_grow s s' → lane_move s s'
  | LTake t rest : (0 < length (cl_execs s))%nat → cl_execs s !!! 0%nat = EIdle → cl_tasks s = t :: rest →
      cl_slots s' = cl_slots s → cl_tasks s' = rest → cl_execs s' = alter (λ _, ERun t) 0%nat (cl_execs s) →
      lane_move s s'
  | LExec x pc s1 : (x < length (cl_execs s))%nat → cl_execs s !!! x ≠ EIdle → pc ≠ EIdle →
      (∀ f l, cl_execs s !!! x = ELost f l → lost_enabled s l = true) →
      lane_grow s s1 → lanes (set_exec x pc s1) s' → lane_move s s'
  | LFinish : (0 < length (cl_execs s))%nat → cl_execs s !!! 0%nat ≠ EIdle →
      (∀ f l, cl_execs s !!! 0%nat ≠ ELost f l) →
      cl_slots s' = cl_slots s + 1 → cl_tasks s' = cl_tasks s →
      cl_execs s' = alter (λ _, EIdle) 0%nat (cl_execs s) → lane_move s s'.

Ltac lane_leaf := apply respects_modify; by intros ?.
Ltac lane := repeat respects_step; try lane_leaf.

Lemma end_future_lanes f op : respects lanes (end_future (V := V) f op).
Proof. unfold end_future, schedule_callbacks. lane. Qed.
Lemma forget_lanes f : respects lanes (forget (V := V) f).
Proof. unfold forget. lane. Qed.
Lemma cancel_lanes f : respects lanes (future_cancel (V := V) f).
Proof. unfold future_cancel. lane. apply end_future_lanes. Qed.
Lemma release_lanes slots e : respects lanes (for_each slots (release_waiter (V := V) e)).
Proof. unfold release_waiter. lane. Qed.

Lemma schedule_grow s t : 0 < cl_slots s → lane_grow s (schedule_completion t s).1.
Proof.
  intros H. unfold schedule_completion. rewrite run_gets. unfold id. destruct (cl_executor_down s).
  - rewrite run_last. by apply (GInline s _ t).
  - rewrite run_modify, run_last. by apply (GQueue s _ t).
Qed.

Lemma lost_grow s l : lost_enabled s l = true → lane_grow s (lost_step l s).1.
Proof.
  intros H. destruct l as [e|e slots futs|e [|f futs]|e f futs|e t futs|]; cbn [lost_step];
    try (apply GSame; by unfold lanes).
  - rewrite run_gets. unfold id. destruct (cl_failed s); by apply GSame.
  - apply GSame. pose proof (release_lanes slots e s) as Hr. unfold mbind, ST_bind.
    by destruct (for_each slots (release_waiter e) s) as [s1 [[]|e']].
  - rewrite run_gets. apply GSame. unfold id. by destruct (_ || _).
  - cbn in H. pose proof (schedule_grow s t ltac:(lia)) as Hg. unfold mbind, ST_bind.
    by destruct (schedule_completion t s) as [s1 [[]|e']].
Qed.

Lemma lost_exec s l x f :
  (x < length (cl_execs s))%nat → cl_execs s !!! x = ELost f l → l ≠ LEnd → lost_enabled s l = true →
  lane_move s ((l' ← lost_step l; modify (set_exec x (ELost f l'))) s).1.
Proof.
  intros Hx E Hne Hl. pose proof (lost_grow s l Hl) as Hg. unfold mbind, ST_bind.
  destruct (lost_step l s) as [s1 [l'|e]]; cbn in *; [|by apply LGrow].
  apply (LExec s _ x (ELost f l') s1); try done; rewrite E; [done|]. by intros ? ? [= -> ->].
Qed.

(** A change of the lane's thread alone. *)
Lemma exec_only s s' x pc :
  (x < length (cl_execs s))%nat → cl_execs s !!! x ≠ EIdle → pc ≠ EIdle →
  (∀ f l, cl_execs s !!! x = ELost f l → lost_enabled s l = true) →
  lanes (set_exec x pc s) s' → lane_move s s'.
Proof. intros. by apply (LExec s s' x pc s); [..|apply GSame|]. Qed.

Lemma exec_finish_move s s0 x :
  lanes s s0 → (x < length (cl_execs s))%nat → cl_execs s !!! x ≠ EIdle →
  (∀ f l, cl_execs s !!! x ≠ ELost f l) → lane_move s (exec_finish x s0).1.
Proof.
  intros (E1 & E2 & E3) Hx He Hl. destruct x as [|x]; cbn [exec_finish].
  - rewrite run_modify, run_last. apply LFinish; try done; cbn; congruence.
  - rewrite run_last. apply (exec_only s _ (S x) EGone); try done.
    + intros f l E. by apply Hl in E.
    + unfold lanes. cbn. by rewrite E1, E2, E3.
Qed.

Lemma exec_lane s x full :
  (x < length (cl_execs s))%nat → enabled (EvExec x full) s = true →
  lane_move s (exec_step loads x (cl_execs s !!! x) full s).1.
Proof.
  intros Hx He. cbn in He. apply andb_true_iff in He as [_ He].
  assert (Hone : ∀ s' pc, lanes s s' → cl_execs s !!! x ≠ EIdle → pc ≠ EIdle →
    (∀ f l, cl_execs s !!! x = ELost f l → lost_enabled s l = true) → lane_move s (set_exec x pc s')).
  { intros s' pc (E1 & E2 & E3) H1 H2 H3. apply (exec_only s _ x pc); try done.
    unfold lanes. cbn. by rewrite E1, E2, E3. }
  assert (Hrun : ∀ f op pc, cl_execs s !!! x ≠ EIdle → pc ≠ EIdle → (∀ f l, cl_execs s !!! x ≠ ELost f l) →
    lane_move s ((_ ← end_future f op; modify (set_exec x pc)) s).1).
  { intros f op pc H1 H2 H3. pose proof (end_future_lanes f op s) as Hl. unfold mbind, ST_bind.
    destruct (end_future f op s) as [s1 [[]|e]]; cbn in *; [|by apply LGrow, GSame].
    apply Hone; try done. intros g l E. by apply H3 in E. }
  destruct (cl_execs s !!! x) as [|t|f|f l|f|f|f|] eqn:E; cbn [exec_step].
  - destruct x; [|done]. unfold exec_take. rewrite run_gets. unfold id.
    destruct (cl_tasks s) as [|t rest] eqn:Eq; [done|]. rewrite run_modify, run_last.
    by apply (LTake s _ t rest).
  - unfold exec_run. rewrite run_gets. unfold id.
    destruct t; try (by apply Hrun); rewrite run_modify; apply exec_finish_move; by rewrite ?E.
  - unfold exec_ack. rewrite run_gets. unfold id. destruct full; rewrite ?run_modify, run_last; by apply Hone.
  - destruct (lost_end l) as [->|Hne].
    + rewrite run_last. apply Hone; try done. by intros ? ? [= <- <-].
    + pose proof (lost_exec s l x f Hx E Hne He) as Hm. by destruct l.
  - unfold forget. rewrite run_modify, run_last. by apply Hone.
  - rewrite run_gets, run_modify. apply exec_finish_move; by rewrite ?E.
  - unfold forget. rewrite run_modify. apply exec_finish_move; by rewrite ?E.
  - by apply LGrow, GSame.
Qed.

Lemma lost_move s l (m : lost_pc → ST Client unit) :
  lost_enabled s l = true → (∀ l', respects lanes (m l')) → lane_move s ((l' ← lost_step l; m l') s).1.
Proof.
  intros Hl Hm. pose proof (lost_grow s l Hl) as Hg. unfold mbind, ST_bind.
  destruct (lost_step l s) as [s1 [l'|e]]; cbn in *; [|by apply LGrow]. apply LGrow.
  destruct (Hm l' s1) as (E1 & E2 & E3). destruct Hg as [(E4 & E5 & E6)|t ?|t ?].
  - apply GSame. unfold lanes. by rewrite E1, E2, E3.
  - apply (GQueue s _ t); congruence.
  - apply (GInline s _ t); congruence.
Qed.

Ltac by_body :=
  match goal with |- lanes ?s (?m ?s).1 => let H := fresh in cut (respects lanes m); [intros H; apply H|] end.

Lemma sender_move s res : enabled (EvSender res) s = true → lane_move s (sender_step (cl_sender s) res s).1.
Proof.
  intros He. cbn in He. destruct (cl_sender s) as [|m f|f|m f|m f|l|] eqn:E; cbn [sender_step].
  1-5: apply LGrow, GSame.
  - by_body. unfold sender_get; lane.
  - by_body. unfold sender_item; lane.
  - by_body. lane; apply forget_lanes.
  - by_body. unfold sender_sock; lane.
  - by_body. unfold sender_send; lane.
  - destruct l; try (by apply LGrow, GSame); apply lost_move; try done; intros l'; lane.
  - by apply LGrow, GSame.
Qed.

Lemma receiver_move s res : enabled (EvReceiver res) s = true → lane_move s (receiver_step (cl_receiver s) res s).1.
Proof.
  intros He. cbn in He. destruct (cl_receiver s) as [| |m|f m|t|k|l b|] eqn:E; cbn [receiver_step].
  1-4,6: apply LGrow, GSame.
  - by_body. unfold receiver_read; lane.
  - done.
  - by_body. unfold receive; lane.
  - by_body. unfold receiver_terminal; lane.
  - by_body. unfold receiver_release; lane.
  - apply Z.ltb_lt in He. pose proof (schedule_grow s t He) as Hg. unfold mbind, ST_bind.
    destruct (schedule_completion t s) as [s1 [[]|e]]; cbn in *; [|by apply LGrow]. apply LGrow.
    destruct Hg as [(E1 & E2 & E3)|t' ?|t' ?]; [by apply GSame|by apply (GQueue s _ t')|by apply (GInline s _ t')].
  - destruct l; try (by apply LGrow, GSame); apply lost_move; try done; intros l'; lane.
  - by apply LGrow, GSame.
Qed.

(** Every event moves the lane as described. *)
Lemma exec_move s e : enabled e s = true → lane_move s (exec e s).1.
Proof.
  intros He. destruct e as [kw d mode op payload|k flag|res|res|x full|f|f|kind c|k tok flag|f| |k|c|full]; cbn [exec];
    rewrite ?run_gets; unfold id.
  - apply LGrow, GSame. by_body. unfold submit_begin; lane.
  - apply LGrow, GSame. by_body.
    destruct (cl_submits s !!! k); cbn [submit_step];
      unfold submit_register, submit_validate, submit_late, submit_put, submit_abandon; lane; apply forget_lanes.
  - by apply sender_move.
  - by apply receiver_move.
  - apply exec_lane; [|done]. cbn in He. by apply andb_true_iff in He as [?%Nat.ltb_lt _].
  - apply LGrow, GSame, cancel_lanes.
  - apply LGrow, GSame. unfold future_kill. rewrite run_gets. by destruct (rf_done _).
  - by apply LGrow, GSame.
  - apply LGrow, GSame. by_body.
    unfold call_step, call_register, call_enqueue, call_wait, call_cancelled, call_pop. lane. apply end_future_lanes.
  - apply LGrow, GSame. by_body. unfold add_done_callback; lane.
  - apply LGrow, GSame. by_body. unfold dispatcher_turn; lane.
  - apply LGrow, GSame. by_body. unfold batch_turn; lane.
  - apply LGrow, GSame. by_body. unfold shutdown; lane.
  - apply LGrow, GSame. destruct (cl_fin s) as [pc|]; [|done].
    by_body.
    unfold fin_step, rpc_request. lane; apply cancel_lanes.
Qed.

(** *** The slots *)

Definition lane_busy (s : Client) : Z := match cl_execs s !!! 0%nat with EIdle => 0 | _ => 1 end.

(** A slot is free, or belongs to a completion that is queued or runs on the lane. *)
Definition SlotInv (s : Client) : Prop :=
  (0 < length (cl_execs s))%nat ∧ 0 ≤ cl_slots s ∧
  cl_slots s + Z.of_nat (length (cl_tasks s)) + lane_busy s = inbound_queue_size limits.

Lemma lane_alter (l : list exec_pc) x pc :
  (x < length l)%nat → alter (λ _, pc) x l !!! 0%nat = if decide (x = 0%nat) then pc else l !!! 0%nat.
Proof. intros Hx. rewrite list_lookup_total_alter. case_decide as H; case_decide; naive_solver. Qed.

Lemma grow_slots s s' :
  SlotInv s → lane_grow s s' → SlotInv s' ∧ (length (cl_execs s) ≤ length (cl_execs s'))%nat ∧
    ∀ x, (x < length (cl_execs s))%nat → cl_execs s' !!! x = cl_execs s !!! x.
Proof.
  unfold SlotInv, lane_busy. intros (H0 & Hs & Hsum) [(E1 & E2 & E3)|t H E1 E2 E3|t H E1 E2 E3]; rewrite E1, E2, E3.
  - done.
  - rewrite length_app. cbn. split_and!; try done; lia.
  - rewrite length_app, lookup_total_snoc by done. cbn. split_and!; try done; try lia.
    intros x Hx. by apply lookup_total_snoc.
Qed.

Lemma move_slots s s' : SlotInv s → lane_move s s' → SlotInv s'.
Proof.
  intros HS [Hg|t rest H0 E Eq E1 E2 E3|x pc s1 Hx E Hpc _ Hg (E1 & E2 & E3)|H0 E _ E1 E2 E3].
  - by apply (grow_slots s).
  - destruct HS as (_ & Hs & Hsum). unfold SlotInv, lane_busy in *. rewrite E1, E2, E3, length_alter, lane_alter by done.
    rewrite E, Eq in Hsum. rewrite decide_True by done. cbn in *. lia.
  - destruct (grow_slots s s1 HS Hg) as ((H0 & Hs & Hsum) & Hl & Hsame). unfold SlotInv, lane_busy in *.
    rewrite E1, E2, E3. cbn [cl_slots cl_tasks cl_execs set_exec]. rewrite length_alter, lane_alter by lia.
    split_and!; [done|done|]. destruct (decide (x = 0%nat)) as [->|]; [|done].
    rewrite Hsame in Hsum by done. destruct (cl_execs s !!! 0%nat), pc; done.
  - destruct HS as (_ & Hs & Hsum). unfold SlotInv, lane_busy in *. rewrite E1, E2, E3, length_alter, lane_alter by done.
    rewrite decide_True by done. destruct (cl_execs s !!! 0%nat); try done; split_and!; try done; lia.
Qed.

(** *** The outbound queue *)

(** It grows by one message at most, and not when it is full. *)
Definition outbound_ok (s s' : Client) : Prop :=
  (length (cl_outbound s') ≤ length (cl_outbound s))%nat ∨
  outbound_full limits s = false ∧ (length (cl_outbound s') ≤ S (length (cl_outbound s)))%nat.

Definition no_put (s s' : Client) : Prop := cl_outbound s' = cl_outbound s.
#[export] Instance no_put_preorder : PreOrder no_put.
Proof. split; [by unfold no_put|]. unfold no_put. intros s1 s2 s3 E1 E2. congruence. Qed.

Lemma no_put_ok s s' : no_put s s' → outbound_ok s s'.
Proof. unfold no_put. intros E. left. by rewrite E. Qed.

Ltac calm := repeat respects_step; try (apply respects_modify; by intros ?).
Ltac calm_body :=
  apply no_put_ok;
  match goal with |- no_put ?s (?m ?s).1 => let H := fresh in cut (respects no_put m); [intros H; apply H|] end.

Lemma end_future_calm f op : respects no_put (end_future (V := V) f op).
Proof. unfold end_future, schedule_callbacks. calm. Qed.
Lemma schedule_calm t : respects no_put (schedule_completion (V := V) t).
Proof. unfold schedule_completion. calm. Qed.
Lemma lost_calm l : respects no_put (lost_step (V := V) l).
Proof. destruct l as [| | ? [|]| | |]; cbn [lost_step]; unfold release_waiter; calm; apply schedule_calm. Qed.
Lemma cancel_calm f : respects no_put (future_cancel (V := V) f).
Proof. unfold future_cancel. calm. apply end_future_calm. Qed.
Lemma exec_finish_calm x : respects no_put (exec_finish (V := V) x).
Proof. destruct x; cbn; calm. Qed.

Lemma put_ok s s' m : outbound_full limits s = false → cl_outbound s' = cl_outbound s ++ [m] → outbound_ok s s'.
Proof. intros H E. right. rewrite E, length_app. cbn. split; [done|lia]. Qed.

Lemma sender_outbound s res : outbound_ok s (sender_step (cl_sender s) res s).1.
Proof.
  destruct (cl_sender s) as [|m f|f|m f|m f|l|]; cbn [sender_step].
  - unfold sender_get. rewrite run_gets. unfold id. destruct (cl_outbound s) as [|[m f] rest] eqn:E; [by apply no_put_ok|].
    rewrite run_modify, run_last. left. rewrite E. cbn. lia.
  - calm_body. unfold sender_item. calm.
  - calm_body. calm.
  - calm_body. unfold sender_sock. calm.
  - calm_body. unfold sender_send. calm.
  - destruct l; calm_body; calm; apply lost_calm.
  - by apply no_put_ok.
Qed.

Lemma exec_step_outbound s x full :
  (∀ f, cl_execs s !!! x = EAck f → full = outbound_full limits s) →
  outbound_ok s (exec_step loads x (cl_execs s !!! x) full s).1.
Proof.
  intros Hfull. destruct (cl_execs s !!! x) as [|t|f|f l|f|f|f|]; cbn [exec_step].
  - calm_body. unfold exec_take. calm.
  - calm_body. unfold exec_run. calm; first [apply exec_finish_calm|apply end_future_calm].
  - rewrite (Hfull f) by done. unfold exec_ack. rewrite run_gets. unfold id.
    destruct (outbound_full limits s) eqn:Ef; [by apply no_put_ok|]. by eapply put_ok.
  - calm_body. calm; apply lost_calm.
  - calm_body. calm.
  - calm_body. calm. apply exec_finish_calm.
  - calm_body. calm; apply exec_finish_calm.
  - by apply no_put_ok.
Qed.

Lemma exec_outbound s e : enabled e s = true → outbound_ok s (exec e s).1.
Proof.
  intros He. destruct e as [kw d mode op payload|k flag|res|res|x full|f|f|kind c|k tok flag|f| |k|c|full]; cbn [exec];
    rewrite ?run_gets; unfold id.
  - calm_body. unfold submit_begin. calm.
  - cbn in He. apply andb_true_iff in He as [_ He]. destruct (cl_submits s !!! k); cbn [submit_step];
      try by (calm_body; unfold submit_register, submit_validate, submit_late, submit_abandon; calm).
    apply eqb_prop in He as ->. unfold submit_put. destruct (outbound_full limits s) eqn:Ef.
    + calm_body. unfold submit_abandon. calm.
    + by eapply put_ok.
  - apply sender_outbound.
  - calm_body. destruct (cl_receiver s) as [| |m|f m|t|k|l b|]; cbn [receiver_step];
      unfold receiver_read, receive, receiver_terminal, receiver_release; calm; try apply schedule_calm; apply lost_calm.
  - cbn in He. apply andb_true_iff in He as [_ He]. apply exec_step_outbound.
    intros f E. rewrite E in He. by apply eqb_prop in He.
  - calm_body. apply cancel_calm.
  - calm_body. unfold future_kill. calm.
  - calm_body. unfold rpc_request. calm.
  - cbn in He. apply andb_true_iff in He as [_ He]. unfold call_step.
    destruct (ca_pc (cl_calls s !!! k)) eqn:E;
      try by (calm_body; unfold call_register, call_wait, call_cancelled, call_pop; calm; apply end_future_calm).
    apply eqb_prop in He as ->. unfold call_enqueue. destruct (outbound_full limits s) eqn:Ef; [by apply no_put_ok|].
    by eapply put_ok.
  - calm_body. unfold add_done_callback. calm.
  - calm_body. unfold dispatcher_turn. calm.
  - calm_body. unfold batch_turn. calm.
  - calm_body. unfold shutdown. calm.
  - cbn in He. destruct (cl_fin s) as [pc|]; [|by apply no_put_ok]. destruct pc; cbn [fin_step];
      try by (calm_body; unfold rpc_request; calm; apply cancel_calm).
    apply eqb_prop in He as ->. destruct (outbound_full limits s) eqn:Ef; [by apply no_put_ok|].
    by eapply put_ok.
Qed.


(** *** The lane waits for itself *)

(** The completion lane can wait for itself: when [_complete] finds no room for its
    acknowledgement it calls [_connection_lost], which schedules the other futures' failures
    through slots that only the lane releases. With no slot free it waits for ever, whatever
    the other threads do: no completion runs any more, and a [shutdown] that has come to drain
    the slots never returns. *)
Theorem completion_lane_deadlock s es s' f e t futs :
  (0 < length (cl_execs s))%nat → cl_execs s !!! 0%nat = ELost f (LSchedule e t futs) → cl_slots s = 0 →
  0 < inbound_queue_size limits → steps client_step s es s' →
  cl_execs s' !!! 0%nat = ELost f (LSchedule e t futs) ∧ cl_tasks s' = cl_tasks s ∧
  (∀ full, enabled (EvExec 0 full) s' = false) ∧
  (cl_fin s' = Some FDrain → ∀ full, enabled (EvFin full) s' = false).
Proof.
  intros Hl E Hz Hin Hs.
  set (stuck := λ s1 : Client, (0 < length (cl_execs s1))%nat ∧ cl_execs s1 !!! 0%nat = ELost f (LSchedule e t futs) ∧
    cl_slots s1 = 0 ∧ cl_tasks s1 = cl_tasks s).
  assert (Hstuck : stuck s').
  { eapply (steps_invariant client_step stuck); [|by unfold stuck|exact Hs]. clear s' Hs.
    intros s1 ev s2 (Hl1 & E1 & Hz1 & Ht1) [He <-].
    assert (Hgrow : ∀ s3, lane_grow s1 s3 → lanes s1 s3) by (intros s3 [?| |]; [done|lia..]).
    destruct (exec_move s1 ev He) as [Hg|t' rest H0 E0|x pc s3 Hx Hne Hpc Hen Hg (E2 & E3 & E4)|H0 Hne Hnl].
    - apply Hgrow in Hg as (E2 & E3 & E4). unfold stuck. by rewrite E2, E3, E4.
    - by rewrite E0 in E1.
    - apply Hgrow in Hg as (E5 & E6 & E7). unfold stuck. rewrite E2, E3, E4.
      cbn [cl_slots cl_tasks cl_execs set_exec]. rewrite E5, E6, E7, length_alter, lane_alter by done.
      destruct (decide (x = 0%nat)) as [->|]; [|done]. specialize (Hen _ _ E1). cbn in Hen. lia.
    - by apply Hnl in E1. }
  destruct Hstuck as (Hl' & E' & Hz' & Ht'). split_and!; [done|done| |].
  - intros full. cbn. rewrite E'. cbn. rewrite Hz'. apply andb_false_r.
  - intros Ef full. cbn. rewrite Ef. rewrite Hz'. lia.
Qed.
End ClientQueues.

(** ** A client with one slot *)
Module TinyDemo.
Definition raw : RawLimits := {| default_limits with inbound_queue_size := PInt 1; outbound_queue_size := PInt 1 |}.
Definition limits : RemoteLimits := typed_limits raw.

(** The configuration is valid. *)
Lemma limits_valid : RemoteLimits_init raw = Ok limits.
Proof. reflexivity. Qed.

Import ClientDemo.

(** One request is answered while the sender is in the middle of sending the second one and
    the third one fills the queue; the acknowledgement finds no room in time. *)
Definition wedge : list event :=
  submission 0 ++ send_one ++ get_one (about RESULT "c:1") 5 ++
  submission 1 ++ repeat (EvSender None) 3 ++ submission 2 ++
  complete 2 ++ [EvExec 0 true] ++ complete 5.
End TinyDemo.

#[local] Opaque ClientDemo.after.


Lemma completion_lane_deadlock_witness :
  let s := ClientDemo.after TinyDemo.limits TinyDemo.wedge in
  let s' := ClientDemo.after TinyDemo.limits (TinyDemo.wedge ++ [EvSender (Some (Raise OSError "reset")); EvSender None]) in
  client_reachable TinyDemo.limits (py "c") ClientDemo.sha ClientDemo.loads s ∧
  rf_done (fut s 1) = false ∧
  ∀ full, enabled TinyDemo.limits (EvExec 0 full) s' = false.
Proof.
  intros s s'. split_and!; [apply ClientDemo.client_reached; vm_compute; done|vm_compute; done|].
  destruct (cl_execs s !!! 0%nat) as [| | |f [| | | |e t futs|]| | | |] eqn:E; try (vm_compute in E; discriminate).
  assert (Hl : (0 < length (cl_execs s))%nat) by (vm_compute; lia).
  assert (Hz : cl_slots s = 0) by (vm_compute; done).
  assert (Hs : client_run TinyDemo.limits (py "c") ClientDemo.sha ClientDemo.loads s
    [EvSender (Some (Raise OSError "reset")); EvSender None] = Some s') by (vm_compute; reflexivity).
  apply client_run_steps in Hs.
  exact (proj1 (proj2 (proj2 (completion_lane_deadlock TinyDemo.limits (py "c") ClientDemo.sha ClientDemo.loads
    s _ s' f e t futs Hl E Hz eq_refl Hs)))).
Defined.
