(* ===== verification/ClientCallbacks.v ===== *)
(** * ClientCallbacks: every callback is called once, with its own future

    A callback waits at its future, in a batch for the dispatcher, in a batch that runs, or
    was called. Every event keeps the four together; only [add_done_callback] adds one. *)
From S2P Require Import Prelude Errors Futures StateErr PyVal PyInt Config Protocol RemoteFuture Client ClientInv ClientProps.
Import (hints) ClientDemo.

(** ** Lists with indices *)

Lemma imap_alter_Permutation {A B} `{Inhabited A} (F : nat → A → list B) g i l :
  (i < length l)%nat →
  concat (imap F (alter g i l)) ++ F i (l !!! i) ≡ₚ concat (imap F l) ++ F i (g (l !!! i)).
Proof.
  revert F i. induction l as [|x l IH]; intros F [|i] Hi; cbn [length] in Hi; try lia.
  - change (alter g 0%nat (x :: l)) with (g x :: l). rewrite !imap_cons. cbn [concat].
    change ((x :: l) !!! 0%nat) with x. rewrite (Permutation_app_comm (F 0%nat (g x))), <- !app_assoc.
    rewrite (Permutation_app_comm (F 0%nat (g x))). rewrite !app_assoc. apply Permutation_app_tail, Permutation_app_comm.
  - change (alter g (S i) (x :: l)) with (x :: alter g i l). rewrite !imap_cons. cbn [concat].
    change ((x :: l) !!! S i) with (l !!! i). rewrite <- !app_assoc. apply Permutation_app_head.
    apply (IH (F ∘ S) i). lia.
Qed.

Section ClientCallbacks.
Context {J : JsonText} {V : Type}.
Context (limits : RemoteLimits) (client_id : pystr) (sha256_hex : bytes → pystr).
Context (loads : bytes → result exn (V + exn)).
Notation Client := (Client (V := V)).
Notation RemoteFuture := (RemoteFuture (V + exn)).
Notation exec := (exec limits client_id sha256_hex loads).
Notation client_step := (client_step limits client_id sha256_hex loads).

(** The callbacks of a batch, each with the future it is called with. *)
Definition bpairs (b : list nat * nat) : list (nat * nat) := (λ cb, (cb, b.2)) <$> b.1.
Definition fpairs (f : nat) (x : RemoteFuture) : list (nat * nat) := bpairs (rf_callbacks x, f).

Definition waiting (s : Client) : list (nat * nat) :=
  concat (imap fpairs (cl_fut_heap s)) ++ concat (bpairs <$> cl_dispatch s) ++ concat (bpairs <$> cl_batches s).
Definition account (s : Client) : list (nat * nat) := waiting s ++ cl_invoked s.

(** The account balances. *)
Definition balanced (s s' : Client) : Prop :=
  account s' ≡ₚ account s ∧ cl_callbacks s' = cl_callbacks s.

#[export] Instance balanced_preorder : PreOrder balanced.
Proof.
  split; [by split|]. intros s1 s2 s3 [E1 E2] [E3 E4]. split; [by rewrite E3|congruence].
Qed.

Lemma balanced_same s s' :
  cl_fut_heap s' = cl_fut_heap s → cl_dispatch s' = cl_dispatch s → cl_batches s' = cl_batches s →
  cl_invoked s' = cl_invoked s → cl_callbacks s' = cl_callbacks s → balanced s s'.
Proof. intros E1 E2 E3 E4 E5. split; [|done]. unfold account, waiting. by rewrite E1, E2, E3, E4. Qed.

Ltac settle := repeat respects_step; try (apply respects_modify; intros ?; by apply balanced_same).

Lemma heap_alter s f op :
  (f < length (cl_fut_heap s))%nat →
  concat (imap fpairs (alter op f (cl_fut_heap s))) ++ fpairs f (fut s f) ≡ₚ
  concat (imap fpairs (cl_fut_heap s)) ++ fpairs f (op (fut s f)).
Proof. intros Hf. by apply imap_alter_Permutation. Qed.

(** A change of a future that keeps its callbacks. *)
Lemma balanced_fut s f op : (∀ x, rf_callbacks (op x) = rf_callbacks x) → balanced s (set_fut f op s).
Proof.
  intros H. split; [|done]. unfold account, waiting. cbn. rewrite <- !app_assoc.
  apply Permutation_app_tail. destruct (decide (f < length (cl_fut_heap s))%nat) as [Hf|Hf].
  - pose proof (heap_alter s f op Hf) as Hp. unfold fpairs at 2 4 in Hp. rewrite H in Hp.
    by apply Permutation_app_inv_r in Hp.
  - by rewrite alter_beyond by lia.
Qed.

(** Taking the callbacks out of a future and handing them on. *)
Lemma schedule_callbacks_account cbs f s :
  ∃ s', schedule_callbacks cbs f s = (s', Ok tt) ∧ account s' ≡ₚ account s ++ bpairs (cbs, f) ∧
    cl_callbacks s' = cl_callbacks s.
Proof.
  unfold schedule_callbacks. destruct cbs as [|cb cbs].
  { exists s. rewrite app_nil_r. done. }
  rewrite run_gets. unfold id. destruct (cl_dispatch_closed s); eexists; (split; [done|]);
    unfold account, waiting; cbn [cl_fut_heap cl_dispatch cl_batches cl_invoked cl_callbacks add_invoked add_dispatch];
    (split; [|done]).
  - by rewrite <- !app_assoc.
  - rewrite fmap_app, concat_app. cbn [fmap list_fmap concat]. rewrite app_nil_r, <- !app_assoc.
    apply Permutation_app_head, Permutation_app_head. rewrite (Permutation_app_comm (bpairs _)), <- !app_assoc. done.
Qed.

Lemma balanced_end_future f (op : RemoteFuture → RemoteFuture * list nat) :
  (∀ x, rf_done x = true → op x = (x, [])) → (∀ x, (op x).2 ++ rf_callbacks (op x).1 = rf_callbacks x) →
  respects balanced (end_future f op).
Proof.
  intros Hd Hop s. unfold end_future. rewrite run_gets, run_modify. unfold id.
  set (s0 := set_fut f _ s). destruct (schedule_callbacks_account (op (fut s f)).2 f s0) as (s' & -> & Ha & Hc).
  cbn [fst]. split; [|by rewrite Hc]. rewrite Ha. unfold account, waiting. cbn [s0 cl_fut_heap cl_dispatch cl_batches cl_invoked set_fut].
  destruct (decide (f < length (cl_fut_heap s))%nat) as [Hf|Hf].
  - pose proof (heap_alter s f (λ x, (op x).1) Hf) as Hp.
    assert (Hsplit : fpairs f (fut s f) ≡ₚ bpairs ((op (fut s f)).2, f) ++ fpairs f (op (fut s f)).1).
    { unfold fpairs, bpairs. cbn [fst snd]. rewrite <- (Hop (fut s f)) at 1. by rewrite fmap_app. }
    rewrite Hsplit in Hp. cbn beta in Hp. rewrite app_assoc in Hp. apply Permutation_app_inv_r in Hp.
    rewrite <- !app_assoc. rewrite (Permutation_app_comm (cl_invoked s)).
    rewrite (app_assoc (concat (bpairs <$> cl_dispatch s))), (app_assoc _ _ (cl_invoked s)).
    rewrite (Permutation_app_comm _ (bpairs ((op (fut s f)).2, f))).
    rewrite !app_assoc. rewrite Hp. done.
  - assert (Ho : op (fut s f) = (fut s f, [])).
    { apply Hd. unfold fut. rewrite list_lookup_total_alt, (proj2 (lookup_ge_None _ _)); [done|lia]. }
    rewrite Ho, alter_beyond by lia. unfold bpairs at 3. cbn. by rewrite app_nil_r.
Qed.

(** What every method that ends a future does with its callbacks. *)
Definition hands_over (op : RemoteFuture → RemoteFuture * list nat) : Prop :=
  (∀ x, rf_done x = true → op x = (x, [])) ∧ ∀ x, (op x).2 ++ rf_callbacks (op x).1 = rf_callbacks x.

Lemma rf_end_hands st b out : hands_over (rf_end st b out).
Proof.
  split; intros x; unfold rf_end; [by intros ->|]. destruct (rf_done x); [done|]. cbn. apply app_nil_r.
Qed.

Lemma complete_hands m r : hands_over (complete_op loads m r).
Proof.
  unfold complete_op. destruct (m_kind m); try apply rf_end_hands; try done.
  destruct (loads (m_payload m)); apply rf_end_hands.
Qed.

Lemma end_future_account f op : hands_over op → respects balanced (end_future f op).
Proof. intros [H1 H2]. by apply balanced_end_future. Qed.

Lemma schedule_account t : respects balanced (schedule_completion (V := V) t).
Proof. unfold schedule_completion. settle. Qed.
Lemma lost_account l : respects balanced (lost_step (V := V) l).
Proof. destruct l as [| | ? [|]| | |]; cbn [lost_step]; unfold release_waiter; settle; apply schedule_account. Qed.
Lemma exec_finish_account x : respects balanced (exec_finish (V := V) x).
Proof. destruct x; cbn; settle. Qed.
Lemma cancel_account f : respects balanced (future_cancel (V := V) f).
Proof. unfold future_cancel. settle. apply end_future_account, rf_end_hands. Qed.

Lemma registered_account n id f :
  respects balanced (modify (λ s : Client, {| s with
      cl_sequence := n; cl_fut_heap := cl_fut_heap s ++ [remote_future_init id];
      cl_futures := dict_set (cl_futures s) id f |})).
Proof.
  apply respects_modify. intros s. split; [|done]. unfold account, waiting. cbn.
  rewrite imap_app, concat_app. cbn. by rewrite app_nil_r.
Qed.

(** The callbacks an event registers. *)
Definition registers (s : Client) (e : event) : list (nat * nat) :=
  match e with EvCallback f => [(cl_callbacks s, f)] | _ => [] end.

Lemma add_callback_account f s :
  account (add_done_callback f s).1 ≡ₚ account s ++ [(cl_callbacks s, f)] ∧
  cl_callbacks (add_done_callback f s).1 = S (cl_callbacks s).
Proof.
  unfold add_done_callback. rewrite run_gets, !run_modify. unfold id.
  set (cb := cl_callbacks s). set (s1 := {| s with cl_callbacks := S cb |}).
  change (fut s f) with (fut s1 f).
  assert (Hcb : concat (imap fpairs (alter (λ x, (rf_add_callback cb x).1) f (cl_fut_heap s))) ≡ₚ
    concat (imap fpairs (cl_fut_heap s)) ++ if rf_done (fut s1 f) then [] else [(cb, f)]).
  { destruct (decide (f < length (cl_fut_heap s))%nat) as [Hf|Hf].
    - pose proof (heap_alter s1 f (λ x, (rf_add_callback cb x).1) Hf) as Hp. cbn beta in Hp.
      unfold rf_add_callback at 2 in Hp. destruct (rf_done (fut s1 f)).
      + rewrite app_nil_r. by apply Permutation_app_inv_r in Hp.
      + unfold fpairs at 4, bpairs in Hp. cbn [fst snd rf_callbacks] in Hp. rewrite fmap_app in Hp. cbn [fmap list_fmap] in Hp.
        rewrite (Permutation_app_comm _ [(cb, f)]), (app_assoc _ [(cb, f)]) in Hp. by apply Permutation_app_inv_r in Hp.
    - rewrite alter_beyond by lia. unfold fut. cbn [cl_fut_heap s1].
      rewrite list_lookup_total_alt, (proj2 (lookup_ge_None _ _)) by lia. by rewrite app_nil_r. }
  assert (Hb : (rf_add_callback cb (fut s1 f)).2 = rf_done (fut s1 f)).
  { unfold rf_add_callback. by destruct (rf_done (fut s1 f)). }
  rewrite Hb. destruct (rf_done (fut s1 f)).
  - rewrite run_last. split; [|done]. unfold account, waiting.
    cbn [fst cl_fut_heap cl_dispatch cl_batches cl_invoked add_invoked set_fut s1].
    rewrite Hcb, app_nil_r. by rewrite <- !app_assoc.
  - split; [|done]. unfold account, waiting, skip, mret, ST_ret.
    cbn [fst cl_fut_heap cl_dispatch cl_batches cl_invoked set_fut s1].
    rewrite Hcb. rewrite <- !app_assoc. apply Permutation_app_head.
    by rewrite (Permutation_app_comm [(cb, f)]), <- !app_assoc.
Qed.

Lemma dispatcher_account : respects balanced (dispatcher_turn (V := V)).
Proof.
  intros s. unfold dispatcher_turn. rewrite run_gets. unfold id. destruct (cl_dispatch s) as [|b rest] eqn:E; [done|].
  rewrite run_last. split; [|done]. unfold account, waiting. cbn [fst cl_fut_heap cl_dispatch cl_batches cl_invoked].
  rewrite E, fmap_app, fmap_cons, concat_app. cbn [fmap list_fmap concat]. rewrite app_nil_r, <- !app_assoc.
  apply Permutation_app_head. rewrite (Permutation_app_swap_app (bpairs b)). apply Permutation_app_head.
  by rewrite (Permutation_app_swap_app (bpairs b)).
Qed.

Lemma batch_account k : respects balanced (batch_turn (V := V) k).
Proof.
  intros s. unfold batch_turn. rewrite run_gets. unfold id.
  destruct (cl_batches s !! k) as [[[|cb cbs] f]|] eqn:E; try done.
  rewrite run_modify, run_last. split; [|done]. unfold account, waiting.
  cbn [fst cl_fut_heap cl_dispatch cl_batches cl_invoked add_invoked].
  rewrite <- !app_assoc. apply Permutation_app_head, Permutation_app_head.
  rewrite (Permutation_app_comm (cl_invoked s)), !app_assoc. apply Permutation_app_tail.
  apply list_elem_of_split_length in E as (l1 & l2 & -> & ->).
  rewrite !fmap_app, !fmap_cons, !concat_app. cbn [fmap list_fmap concat].
  assert (Ha : alter (λ _, (cbs, f)) (length l1) (l1 ++ (cb :: cbs, f) :: l2) = l1 ++ (cbs, f) :: l2).
  { clear. induction l1 as [|x l1 IH]; [done|]. cbn [length app].
    change (x :: alter (λ _, (cbs, f)) (length l1) (l1 ++ (cb :: cbs, f) :: l2) = x :: l1 ++ (cbs, f) :: l2). by rewrite IH. }
  rewrite Ha, fmap_app, fmap_cons, concat_app. cbn [concat]. rewrite <- !app_assoc. apply Permutation_app_head.
  change (bpairs (cb :: cbs, f)) with ([(cb, f)] ++ bpairs (cbs, f)). rewrite <- app_assoc.
  by rewrite (Permutation_app_comm [(cb, f)]), <- app_assoc.
Qed.

(** Every event keeps the account, but for the callback it registers. *)
Lemma exec_account s e :
  account (exec e s).1 ≡ₚ account s ++ registers s e ∧
  cl_callbacks (exec e s).1 = (cl_callbacks s + length (registers s e))%nat.
Proof.
  assert (Hb : ∀ s', balanced s s' → account s' ≡ₚ account s ++ [] ∧ cl_callbacks s' = (cl_callbacks s + 0)%nat).
  { intros s' [E1 E2]. rewrite app_nil_r. split; [done|lia]. }
  destruct e as [kw d mode op payload|k flag|res|res|x full|f|f|kind c|k tok flag|f| |k|c|full]; cbn [registers length];
    try apply Hb; cbn [exec].
  - assert (respects balanced (submit_begin (V := V) kw d mode op payload)) as H by (unfold submit_begin; settle). apply H.
  - rewrite run_gets. unfold id.
    assert (respects balanced (submit_step limits client_id sha256_hex (V := V) k (cl_submits s !!! k) flag)) as H; [|apply H].
    destruct (cl_submits s !!! k); cbn [submit_step]; unfold submit_validate, submit_late, submit_put, submit_abandon; settle.
    unfold submit_register. settle. apply registered_account.
  - rewrite run_gets. unfold id. assert (respects balanced (sender_step (V := V) (cl_sender s) res)) as H; [|apply H].
    destruct (cl_sender s) as [|[m|] [f|]|f|m f|m f|l|]; cbn [sender_step sender_item];
      unfold sender_get, sender_sock, sender_send; settle; try apply lost_account.
    apply respects_modify. intros s1. apply balanced_fut. intros x. unfold set_sent. by destruct (rf_done x).
  - rewrite run_gets. unfold id. assert (respects balanced (receiver_step (V := V) (cl_receiver s) res)) as H; [|apply H].
    destruct (cl_receiver s) as [| |m|f m|t|k|l b|]; cbn [receiver_step];
      unfold receiver_read, receive, receiver_terminal, receiver_release; settle; try apply schedule_account; apply lost_account.
  - rewrite run_gets. unfold id. assert (respects balanced (exec_step loads x (cl_execs s !!! x) full)) as H; [|apply H].
    destruct (cl_execs s !!! x) as [|[f|f p w|f m|f c|f e]|f|f l|f|f|f|]; cbn [exec_step];
      unfold exec_take, exec_run, exec_ack; settle; try apply exec_finish_account; try apply lost_account.
    + apply respects_modify. intros s1. apply balanced_fut. intros y. unfold set_accepted. by destruct (rf_done y).
    + apply respects_modify. intros s1. apply balanced_fut. intros y. unfold set_running. by destruct (rf_done y).
    + apply end_future_account, complete_hands.
    + apply end_future_account, rf_end_hands.
    + apply end_future_account, rf_end_hands.
  - apply cancel_account.
  - assert (respects balanced (future_kill (V := V) f)) as H by (unfold future_kill; settle). apply H.
  - assert (respects balanced (rpc_request (V := V) kind c)) as H by (unfold rpc_request; settle). apply H.
  - rewrite run_gets. unfold id. assert (respects balanced (call_step (V := V) k (cl_calls s !!! k) tok flag)) as H; [|apply H].
    unfold call_step, call_register, call_enqueue, call_wait, call_cancelled, call_pop. settle.
    apply end_future_account, rf_end_hands.
  - destruct (add_callback_account f s) as [E1 E2]. split; [done|]. rewrite E2. lia.
  - apply dispatcher_account.
  - apply batch_account.
  - assert (respects balanced (shutdown (V := V) c)) as H by (unfold shutdown; settle). apply H.
  - rewrite run_gets. unfold id. destruct (cl_fin s) as [pc|]; [|done].
    assert (respects balanced (fin_step (V := V) pc full)) as H; [|apply H].
    unfold fin_step, rpc_request. settle; apply cancel_account.
Qed.

(** The calls of [add_done_callback] in a run, numbered in order. *)
Fixpoint callback_log (n : nat) (es : list event) : list (nat * nat) :=
  match es with
  | [] => []
  | EvCallback f :: es' => (n, f) :: callback_log (S n) es'
  | _ :: es' => callback_log n es'
  end.

Lemma callback_log_ge n es x : x ∈ (callback_log n es).*1 → (n ≤ x)%nat.
Proof.
  revert n. induction es as [|e es IH]; intros n; [by intros ?%elem_of_nil|].
  destruct e; try apply IH. cbn. intros [->|H%IH]%elem_of_cons; lia.
Qed.

Lemma callback_log_NoDup n es : NoDup (callback_log n es).*1.
Proof.
  revert n. induction es as [|e es IH]; intros n; [apply NoDup_nil_2|].
  destruct e; try apply IH. cbn. apply NoDup_cons. split; [intros H%callback_log_ge; lia|apply IH].
Qed.

Lemma steps_account s es s' :
  steps client_step s es s' → account s' ≡ₚ account s ++ callback_log (cl_callbacks s) es.
Proof.
  induction 1 as [s|s e s1 es s2 [_ <-] _ IH]; [by rewrite app_nil_r|].
  destruct (exec_account s e) as [E1 E2]. rewrite IH, E1, E2, <- app_assoc. apply Permutation_app_head.
  destruct e; cbn [registers callback_log length app]; rewrite ?Nat.add_0_r, ?Nat.add_1_r; done.
Qed.

End ClientCallbacks.

#[local] Opaque ClientDemo.after.

