(* ===== verification/ClientCalls.v ===== *)
(** * ClientCalls: the waiters of cancellations and control requests

    A call registers a waiter under a fresh token; the answer of the server or the loss of
    the connection releases it. *)
From S2P Require Import Prelude Errors Futures StateErr PyVal PyInt Config Protocol RemoteFuture Client ClientInv ClientProps.
Import (hints) ClientDemo.

(** The token a call has, and the waiter it waits for. *)
Definition call_token (pc : call_pc) : option pystr :=
  match pc with
  | KEnqueue _ _ tok _ | KWait tok _ | KCancelled tok | KPop tok _ => Some tok
  | KRegister _ _ _ | KEnd _ => None
  end.
Definition call_slot (pc : call_pc) : option nat :=
  match pc with KEnqueue _ _ _ k | KWait _ k => Some k | _ => None end.

(** The waiters a thread in [_connection_lost] is about to release. *)
Definition lost_slots (l : lost_pc) : list nat := match l with LRpc _ slots _ => slots | _ => [] end.
Definition sender_slots (pc : sender_pc) : list nat := match pc with XLost l => lost_slots l | _ => [] end.
Definition receiver_slots (pc : receiver_pc) : list nat :=
  match pc with RRelease k => [k] | RLost l _ => lost_slots l | _ => [] end.
Definition exec_slots (pc : exec_pc) : list nat := match pc with ELost _ l => lost_slots l | _ => [] end.

Section ClientCalls.
Context {J : JsonText} {V : Type}.
Context (limits : RemoteLimits) (client_id : pystr) (sha256_hex : bytes → pystr).
Context (loads : bytes → result exn (V + exn)).
Notation Client := (Client (V := V)).
Notation exec := (exec limits client_id sha256_hex loads).
Notation enabled := (enabled limits).
Notation client_step := (client_step limits client_id sha256_hex loads).
Notation client_reachable := (client_reachable limits client_id sha256_hex loads).

(** Some thread is about to release the waiter. *)
Definition releasing (s : Client) (k : nat) : Prop :=
  k ∈ sender_slots (cl_sender s) ∨ k ∈ receiver_slots (cl_receiver s) ∨
  some_exec (λ pc, k ∈ exec_slots pc) s.

(** The waiter is released, or will be by whoever has it. *)
Definition served (s : Client) (k : nat) : Prop :=
  rpc_set (rpc s k) = true ∨ (rpc_token (rpc s k), k) ∈ cl_rpc s ∨ releasing s k.

Definition waiter (s : Client) (k : nat) : Prop := (k < length (cl_rpc_heap s))%nat.

Record CallInv (s : Client) : Prop := {
  ci_wf : dict_wf (cl_rpc s);
  ci_table : ∀ tok k, (tok, k) ∈ cl_rpc s → waiter s k ∧ rpc_token (rpc s k) = tok;
  ci_failed : cl_failed s = true → cl_rpc s = [];
  ci_tokens : ∀ i tok, (i < length (cl_calls s))%nat → call_token (ca_pc (cl_calls s !!! i)) = Some tok →
    ∃ k, waiter s k ∧ rpc_token (rpc s k) = tok;
  ci_own : ∀ i j tok, (i < length (cl_calls s))%nat → (j < length (cl_calls s))%nat →
    call_token (ca_pc (cl_calls s !!! i)) = Some tok → call_token (ca_pc (cl_calls s !!! j)) = Some tok → i = j;
  ci_slot : ∀ i tok k, (i < length (cl_calls s))%nat →
    call_token (ca_pc (cl_calls s !!! i)) = Some tok → call_slot (ca_pc (cl_calls s !!! i)) = Some k →
    waiter s k ∧ rpc_token (rpc s k) = tok ∧ served s k }.

(** ** Changes that leave the waiters alone *)

(** Nobody drops a waiter that somebody is about to release. *)
Definition patient (s s' : Client) : Prop :=
  cl_rpc s' = cl_rpc s ∧ cl_rpc_heap s' = cl_rpc_heap s ∧ (cl_failed s' = cl_failed s) ∧ cl_calls s' = cl_calls s ∧
  ∀ k, releasing s k → releasing s' k.

#[export] Instance patient_preorder : PreOrder patient.
Proof.
  split; [by unfold patient|]. unfold patient. intros s1 s2 s3 (A1 & A2 & A3 & A4 & A5) (B1 & B2 & B3 & B4 & B5).
  split_and!; try congruence. auto.
Qed.

Lemma patient_inv s s' : patient s s' → CallInv s → CallInv s'.
Proof.
  intros (E1 & E2 & E3 & E4 & Hr) [].
  assert (Hrpc : ∀ k, rpc s' k = rpc s k) by (intros k; unfold rpc; by rewrite E2).
  assert (Hw : ∀ k, waiter s' k ↔ waiter s k) by (intros k; unfold waiter; by rewrite E2).
  split; rewrite ?E1, ?E3, ?E4; try done.
  - intros tok k. rewrite Hw, Hrpc. apply ci_table0.
  - intros i tok. setoid_rewrite Hw. setoid_rewrite Hrpc. apply ci_tokens0.
  - intros i tok k Hi Ht Hk. rewrite Hw, Hrpc. destruct (ci_slot0 i tok k Hi Ht Hk) as (? & ? & Hs).
    split_and!; try done. unfold served. rewrite Hrpc, E1. destruct Hs as [?|[?|?]]; auto.
Qed.

(** ** Changes that touch them *)

Lemma calls_inv s s' :
  CallInv s →
  (∀ k, waiter s k → waiter s' k ∧ rpc_token (rpc s' k) = rpc_token (rpc s k)) →
  dict_wf (cl_rpc s') → cl_rpc s' ⊆ cl_rpc s → (cl_failed s' = true → cl_rpc s' = []) →
  length (cl_calls s') = length (cl_calls s) →
  (∀ i, (i < length (cl_calls s))%nat →
    let pc := ca_pc (cl_calls s !!! i) in let pc' := ca_pc (cl_calls s' !!! i) in
    (call_token pc' = call_token pc ∨ call_token pc' = None) ∧ (call_slot pc' = call_slot pc ∨ call_slot pc' = None)) →
  (∀ i k, (i < length (cl_calls s))%nat → call_slot (ca_pc (cl_calls s' !!! i)) = Some k →
    waiter s k → served s k → served s' k) →
  CallInv s'.
Proof.
  intros [] Hw Hwf Hsub Hf Hl Hpc Hs.
  assert (Htok : ∀ i tok, (i < length (cl_calls s))%nat → call_token (ca_pc (cl_calls s' !!! i)) = Some tok →
    call_token (ca_pc (cl_calls s !!! i)) = Some tok).
  { intros i tok Hi Ht. destruct (Hpc i Hi) as [[E|E] _]; congruence. }
  split; rewrite ?Hl; try done.
  - intros tok k [Hk E]%Hsub%ci_table0. destruct (Hw k Hk) as [? ->]. done.
  - intros i tok Hi Ht%Htok; [|done]. destruct (ci_tokens0 i tok Hi Ht) as (k & Hk & E).
    exists k. destruct (Hw k Hk) as [? ->]. done.
  - intros i j tok Hi Hj Ht%Htok Ht'%Htok; [|done..]. by eapply ci_own0.
  - intros i tok k Hi Ht Hk. assert (Hk0 : call_slot (ca_pc (cl_calls s !!! i)) = Some k).
    { destruct (Hpc i Hi) as [_ [E|E]]; congruence. }
    destruct (ci_slot0 i tok k Hi (Htok i tok Hi Ht) Hk0) as (Hwk & E & Hsv).
    destruct (Hw k Hwk) as [? ->]. split_and!; try done. by eapply Hs.
Qed.

(** A thread moves and what is about to be released stays so. *)
Lemma calls_patient s s' : CallInv s → patient s s' → CallInv s'.
Proof. intros HI Hp. by eapply patient_inv. Qed.

(** New calls have no token yet. *)
Lemma calls_add s f pc : CallInv s → call_token pc = None → CallInv (add_call f pc s).
Proof.
  intros [] Hn.
  assert (Hold : ∀ i tok, (i < length (cl_calls (add_call f pc s)))%nat →
    call_token (ca_pc (cl_calls (add_call f pc s) !!! i)) = Some tok →
    (i < length (cl_calls s))%nat ∧ cl_calls (add_call f pc s) !!! i = cl_calls s !!! i).
  { intros i tok Hi Ht. cbn in *. rewrite length_app in Hi. cbn in Hi.
    destruct (decide (i = length (cl_calls s))) as [->|].
    - rewrite lookup_total_last in Ht. cbn in Ht. congruence.
    - split; [lia|]. apply lookup_total_snoc. lia. }
  split; try done.
  - intros i tok Hi Ht. destruct (Hold i tok Hi Ht) as [Hi' E]. rewrite E in Ht. by apply (ci_tokens0 i).
  - intros i j tok Hi Hj Ht Ht'. destruct (Hold i tok Hi Ht) as [Hi' E]. destruct (Hold j tok Hj Ht') as [Hj' E'].
    rewrite E in Ht. rewrite E' in Ht'. by eapply ci_own0.
  - intros i tok k Hi Ht Hk. destruct (Hold i tok Hi Ht) as [Hi' E]. rewrite E in Ht, Hk. by apply (ci_slot0 i).
Qed.

Lemma call_lookup (s : Client) k pc i :
  cl_calls (set_call k pc s) !!! i =
  if decide (i = k ∧ (k < length (cl_calls s))%nat) then mkCall (ca_future (cl_calls s !!! k)) pc else cl_calls s !!! i.
Proof.
  cbn. rewrite list_lookup_total_alter. repeat case_decide; naive_solver.
Qed.

(** A call moves on without a new token or waiter. *)
Lemma calls_set s k pc :
  CallInv s →
  (call_token pc = call_token (ca_pc (cl_calls s !!! k)) ∨ call_token pc = None) →
  (call_slot pc = call_slot (ca_pc (cl_calls s !!! k)) ∨ call_slot pc = None) →
  CallInv (set_call k pc s).
Proof.
  intros HI Ht Hs. pose proof HI as []. apply (calls_inv s); try done; [apply length_alter|].
  intros i Hi. cbn zeta. rewrite call_lookup. case_decide as H; [destruct H as [-> _]|]; cbn; auto.
Qed.

Lemma release_rpc (s : Client) k j g :
  rpc_token (g (rpc s k)) = rpc_token (rpc s k) → (rpc_set (rpc s k) = true → rpc_set (g (rpc s k)) = true) →
  rpc_token (rpc (set_rpc_slot k g s) j) = rpc_token (rpc s j) ∧
  (rpc_set (rpc s j) = true → rpc_set (rpc (set_rpc_slot k g s) j) = true).
Proof.
  intros Ht Hs. unfold rpc in *. cbn. rewrite list_lookup_total_alter.
  case_decide as H; [destruct H as [<- _]|]; auto.
Qed.

(** A waiter gets its answer or its event. *)
Lemma calls_slot s k g :
  CallInv s → (∀ x, rpc_token (g x) = rpc_token x) → (∀ x, rpc_set x = true → rpc_set (g x) = true) →
  CallInv (set_rpc_slot k g s).
Proof.
  intros HI Ht Hs. pose proof HI as [].
  assert (Hr : ∀ j, rpc_token (rpc (set_rpc_slot k g s) j) = rpc_token (rpc s j) ∧
    (rpc_set (rpc s j) = true → rpc_set (rpc (set_rpc_slot k g s) j) = true)) by (intros j; apply release_rpc; auto).
  apply (calls_inv s); try done.
  - intros j Hj. split; [|apply Hr]. unfold waiter. cbn. by rewrite length_alter.
  - intros i Hi. cbn zeta. auto.
  - intros i j _ _ _. unfold served. destruct (Hr j) as [-> Hset]. intros [?|[?|?]]; auto.
Qed.

(** A token leaves the table, its waiter released or its call past the wait. *)
Lemma calls_del s tok :
  CallInv s →
  (∀ i k, (i < length (cl_calls s))%nat → call_slot (ca_pc (cl_calls s !!! i)) = Some k → waiter s k →
    rpc_token (rpc s k) = tok → served s k → rpc_set (rpc s k) = true ∨ releasing s k) →
  CallInv (set_rpc (λ d, dict_del d tok) s).
Proof.
  intros HI Hk. pose proof HI as []. apply (calls_inv s); try done.
  - by apply dict_del_wf.
  - apply dict_del_subseteq.
  - intros Hf. cbn. by rewrite ci_failed0.
  - intros i Hi. cbn zeta. auto.
  - intros i k Hi Hc Hw Hs. unfold served. change (rpc (set_rpc _ s) k) with (rpc s k).
    destruct (decide (rpc_token (rpc s k) = tok)) as [E|E].
    + destruct (Hk i k Hi Hc Hw E Hs); auto.
    + destruct Hs as [?|[Hin|?]]; auto. right; left. cbn. apply dict_get_Some_elem.
      rewrite dict_get_del_ne; [by apply dict_get_elem|done].
Qed.

(** A new waiter with a fresh token. *)
Lemma calls_register s k kind c tok :
  CallInv s → (k < length (cl_calls s))%nat → cl_failed s = false → tok ∉ rpc_token <$> cl_rpc_heap s →
  CallInv (set_call k (KEnqueue kind c tok (length (cl_rpc_heap s)))
    {| s with cl_rpc_heap := cl_rpc_heap s ++ [mkRpc tok false [] None];
              cl_rpc := dict_set (cl_rpc s) tok (length (cl_rpc_heap s)) |}).
Proof.
  intros [] Hk Hfail Hfresh. set (n := length (cl_rpc_heap s)).
  set (s1 := {| s with cl_rpc_heap := cl_rpc_heap s ++ [mkRpc tok false [] None]; cl_rpc := dict_set (cl_rpc s) tok n |}).
  set (s' := set_call k (KEnqueue kind c tok n) s1).
  assert (Hw : ∀ j, waiter s' j ↔ waiter s j ∨ j = n).
  { intros j. unfold waiter, n. cbn. rewrite length_app. cbn. lia. }
  assert (Hrpc : ∀ j, waiter s j → rpc s' j = rpc s j).
  { intros j Hj. unfold rpc. cbn. by apply lookup_total_snoc. }
  assert (Hn : rpc s' n = mkRpc tok false [] None) by apply lookup_total_last.
  assert (Hne : ∀ j, waiter s j → rpc_token (rpc s j) ≠ tok).
  { intros j Hj E. apply Hfresh. rewrite <- E. apply list_elem_of_fmap. exists (rpc s j). split; [done|].
    apply list_elem_of_lookup. exists j. by apply list_lookup_lookup_total_lt. }
  assert (Hnew : tok ∉ (cl_rpc s).*1).
  { intros ([t j] & E & Hin)%list_elem_of_fmap. cbn in E. destruct (ci_table0 t j Hin) as [Hj Ht].
    apply (Hne j Hj). congruence. }
  assert (Htab : cl_rpc s' = cl_rpc s ++ [(tok, n)]) by (by apply dict_set_new).
  assert (Hcall : ∀ i, cl_calls s' !!! i = if decide (i = k) then mkCall (ca_future (cl_calls s !!! k)) (KEnqueue kind c tok n)
    else cl_calls s !!! i).
  { intros i. unfold s'. rewrite call_lookup. cbn. repeat case_decide; naive_solver. }
  assert (Hl : length (cl_calls s') = length (cl_calls s)) by (cbn; apply length_alter).
  assert (Hother : ∀ i t, (i < length (cl_calls s))%nat → call_token (ca_pc (cl_calls s !!! i)) = Some t → t ≠ tok).
  { intros i t Hi Ht ->. destruct (ci_tokens0 i tok Hi Ht) as (j & Hj & E). by apply (Hne j). }
  split; rewrite ?Hl.
  - by apply dict_set_wf.
  - intros t j. rewrite Htab, elem_of_app, list_elem_of_singleton, Hw. intros [Hin|[= -> ->]].
    + destruct (ci_table0 t j Hin) as [Hj E]. rewrite Hrpc by done. auto.
    + rewrite Hn. auto.
  - cbn. congruence.
  - intros i t Hi. rewrite Hcall. setoid_rewrite Hw. case_decide as Hik.
    + intros [= <-]. exists n. rewrite Hn. auto.
    + intros Ht. destruct (ci_tokens0 i t Hi Ht) as (j & Hj & E). exists j. rewrite Hrpc by done. auto.
  - intros i j t Hi Hj. rewrite !Hcall. repeat case_decide; subst; try done.
    + intros [= <-] Ht. by destruct (Hother j tok Hj Ht).
    + intros Ht [= <-]. by destruct (Hother i tok Hi Ht).
    + by apply ci_own0.
  - intros i t j Hi. rewrite Hcall, Hw. case_decide as Hik.
    + intros [= <-] [= <-]. rewrite Hn. split_and!; [auto|done|]. right; left. rewrite Htab, Hn.
      apply elem_of_app. right. by left.
    + intros Ht Hj. destruct (ci_slot0 i t j Hi Ht Hj) as (Hwj & E & Hs). rewrite Hrpc by done.
      split_and!; [auto|done|]. unfold served. rewrite Hrpc, Htab, elem_of_app by done.
      destruct Hs as [?|[?|?]]; auto.
Qed.

(** A thread moves: what it was about to release is released or still about to be. *)
Lemma calls_thread s s' :
  CallInv s → cl_rpc s' = cl_rpc s → cl_rpc_heap s' = cl_rpc_heap s → cl_failed s' = cl_failed s →
  cl_calls s' = cl_calls s →
  (∀ k, waiter s k → releasing s k → rpc_set (rpc s k) = true ∨ releasing s' k) →
  CallInv s'.
Proof.
  intros HI E1 E2 E3 E4 Hr. pose proof HI as [].
  assert (Hrpc : ∀ k, rpc s' k = rpc s k) by (intros k; unfold rpc; by rewrite E2).
  apply (calls_inv s); try done; rewrite ?E1, ?E3, ?E4; try done.
  - intros k Hk. unfold waiter. by rewrite E2, Hrpc.
  - intros i Hi. cbn zeta. auto.
  - intros i k _ _ Hw. unfold served. rewrite Hrpc, E1. intros [?|[?|Hk]]; [by left|auto|].
    destruct (Hr k Hw Hk); auto.
Qed.

Lemma release_all slots e s :
  CallInv s → let s1 := (for_each slots (release_waiter (V := V) e) s).1 in
  CallInv s1 ∧ (∀ k, k ∈ slots → waiter s k → rpc_set (rpc s1 k) = true) ∧
  (∀ k, rpc_set (rpc s k) = true → rpc_set (rpc s1 k) = true) ∧
  cl_sender s1 = cl_sender s ∧ cl_receiver s1 = cl_receiver s ∧ cl_execs s1 = cl_execs s ∧
  length (cl_rpc_heap s1) = length (cl_rpc_heap s).
Proof.
  revert s. induction slots as [|j slots IH]; intros s HI; cbn zeta.
  { split_and!; try done. by intros k ?%elem_of_nil. }
  set (s0 := set_rpc_slot j (λ r, mkRpc (rpc_token r) true (rpc_response r) (Some e)) s).
  change (for_each (j :: slots) (release_waiter e) s) with (for_each slots (release_waiter (V := V) e) s0).
  assert (HI0 : CallInv s0) by (by apply calls_slot).
  destruct (IH s0 HI0) as (H1 & H2 & H3 & H4 & H5 & H6 & H7).
  assert (Hl : length (cl_rpc_heap s0) = length (cl_rpc_heap s)) by (cbn; apply length_alter).
  split_and!; try done; [| |congruence].
  - intros k [->|Hk]%elem_of_cons Hw; [|apply H2; [done|unfold waiter in *; by rewrite Hl]].
    apply H3. unfold rpc. cbn. by rewrite list_lookup_total_alter, decide_True.
  - intros k Hk. apply H3. by apply release_rpc.
Qed.

(** The threads are where they were; new ones have nothing to release. *)
Definition same_threads (s s1 : Client) : Prop :=
  cl_sender s1 = cl_sender s ∧ cl_receiver s1 = cl_receiver s ∧
  (length (cl_execs s) ≤ length (cl_execs s1))%nat ∧
  (∀ x, (x < length (cl_execs s))%nat → cl_execs s1 !!! x = cl_execs s !!! x) ∧
  ∀ x, (length (cl_execs s) ≤ x < length (cl_execs s1))%nat → exec_slots (cl_execs s1 !!! x) = [].

Lemma same_exec s s1 (P : nat → Prop) k :
  same_threads s s1 →
  (∃ y, P y ∧ (y < length (cl_execs s1))%nat ∧ k ∈ exec_slots (cl_execs s1 !!! y)) ↔
  (∃ y, P y ∧ (y < length (cl_execs s))%nat ∧ k ∈ exec_slots (cl_execs s !!! y)).
Proof.
  intros (_ & _ & Hl & Hold & Hnew). split; intros (y & HP & Hy & Hk); exists y; (split; [done|]).
  - destruct (decide (y < length (cl_execs s))%nat) as [Hlt|].
    + by rewrite Hold in Hk.
    + rewrite Hnew in Hk by lia. by apply elem_of_nil in Hk.
  - rewrite Hold by done. split; [lia|done].
Qed.

Lemma same_some_exec s s1 k :
  same_threads s s1 → some_exec (λ pc, k ∈ exec_slots pc) s1 ↔ some_exec (λ pc, k ∈ exec_slots pc) s.
Proof.
  intros Hs. pose proof (same_exec s s1 (λ _, True) k Hs) as H. unfold some_exec.
  naive_solver.
Qed.

Definition quiet_rpc (s s1 : Client) : Prop :=
  cl_rpc s1 = cl_rpc s ∧ cl_rpc_heap s1 = cl_rpc_heap s ∧ cl_failed s1 = cl_failed s ∧ cl_calls s1 = cl_calls s.

Lemma same_threads_eq s s1 :
  cl_sender s1 = cl_sender s → cl_receiver s1 = cl_receiver s → cl_execs s1 = cl_execs s → same_threads s s1.
Proof. intros E1 E2 E3. unfold same_threads. rewrite E3. split_and!; try done. lia. Qed.

Lemma schedule_quiet s t : quiet_rpc s (schedule_completion t s).1 ∧ same_threads s (schedule_completion t s).1.
Proof.
  unfold schedule_completion. rewrite run_gets. unfold id. destruct (cl_executor_down s).
  - rewrite run_last. cbn [fst]. split; [by unfold quiet_rpc|]. unfold same_threads. cbn. rewrite length_app. cbn.
    split_and!; try done; [lia|intros x Hx; by apply lookup_total_snoc|].
    intros x Hx. replace x with (length (cl_execs s)) by lia. by rewrite lookup_total_last.
  - rewrite run_modify, run_last. split; [by unfold quiet_rpc|by apply same_threads_eq].
Qed.

(** What a turn of [_connection_lost] does to the waiters. *)
Lemma lost_cases s l :
  ∃ s1 l', lost_step l s = (s1, Ok l') ∧
  ((quiet_rpc s s1 ∧ same_threads s s1 ∧ lost_slots l = [] ∧ lost_slots l' = []) ∨
   (cl_failed s = false ∧ s1 = failed_state s ∧ lost_slots l = [] ∧ lost_slots l' = (cl_rpc s).*2) ∨
   (∃ e, s1 = (for_each (lost_slots l) (release_waiter e) s).1 ∧ lost_slots l' = [])).
Proof.
  assert (Hs : same_threads s s) by (by apply same_threads_eq).
  destruct l as [e|e slots futs|e [|f futs]|e f futs|e t futs|].
  - rewrite lost_begin. destruct (cl_failed s) eqn:E; eexists _, _; (split; [done|]); [by left|].
    right; left. done.
  - destruct (release_ok slots e s) as [s1 E]. exists s1, (LScan e futs). split.
    + cbn [lost_step]. unfold mbind, ST_bind. by rewrite E.
    + right; right. exists e. cbn [lost_slots]. by rewrite E.
  - exists s, LEnd. split; [done|by left].
  - cbn [lost_step]. rewrite run_gets. unfold id. destruct (_ || _); eexists _, _; (split; [done|by left]).
  - eexists _, _. split; [done|by left].
  - pose proof (schedule_quiet s t) as [H1 H2]. cbn [lost_step]. unfold mbind, ST_bind.
    assert (∃ s1, schedule_completion t s = (s1, Ok tt)) as [s1 E].
    { unfold schedule_completion. rewrite run_gets. destruct (cl_executor_down (id s)); by eexists. }
    rewrite E in *. exists s1, (LScan e futs). split; [done|]. by left.
  - exists s, LEnd. split; [done|by left].
Qed.

(** A thread in [_connection_lost] moves; [place] puts it where it is then, and [R] tells what
    the other threads are about to release. *)
Lemma lost_calls s l (place : lost_pc → Client → Client) (R : nat → Prop) :
  CallInv s →
  (∀ l' s1, quiet_rpc s1 (place l' s1)) →
  (∀ l' s1 k, same_threads s s1 → releasing (place l' s1) k ↔ k ∈ lost_slots l' ∨ R k) →
  (∀ s1 k, same_threads s s1 → releasing s1 k ↔ k ∈ lost_slots l ∨ R k) →
  CallInv ((l' ← lost_step l; modify (place l')) s).1.
Proof.
  intros HI Hq Hp Hr. pose proof HI as []. assert (Hself : same_threads s s) by (by apply same_threads_eq).
  destruct (lost_cases s l) as (s1 & l' & E & H). unfold mbind, ST_bind. rewrite E, run_last. cbn [fst].
  destruct (Hq l' s1) as (E1 & E2 & E3 & E4).
  destruct H as [((Q1 & Q2 & Q3 & Q4) & Hs & Hl & Hl')|[(Hf & -> & Hl & Hl')|(e & -> & Hl')]].
  - apply (calls_thread s); try congruence. intros k _. rewrite (Hr s k Hself), (Hp _ _ _ Hs), Hl, Hl'. tauto.
  - apply (calls_inv s); rewrite ?E1, ?E3, ?E4; try done.
    + intros k Hk. unfold waiter, rpc. by rewrite E2.
    + apply dict_wf_nil.
    + apply list_subseteq_nil.
    + intros i Hi. cbn zeta. auto.
    + intros i k _ _ Hk. unfold served, rpc. rewrite E2, E1. cbn [cl_rpc_heap failed_state cl_rpc].
      fold (rpc s k). rewrite Hp by done. rewrite (Hr s k Hself), Hl, Hl'. intros [?|[Hin|[H|?]]]; [by left| |by apply elem_of_nil in H|auto].
      right; right; left. apply list_elem_of_fmap. by exists (rpc_token (rpc s k), k).
  - destruct (release_all (lost_slots l) e s HI) as (HI1 & H1 & H2 & H3 & H4 & H5 & H6).
    set (s1 := (for_each (lost_slots l) (release_waiter e) s).1) in *.
    assert (Hs : same_threads s s1) by (by apply same_threads_eq).
    apply (calls_thread s1); try done. intros k Hk. rewrite (Hr s1 k Hs), (Hp _ _ _ Hs).
    intros [Hin|?]; [left; apply H1; [done|unfold waiter in *; by rewrite <- H6]|right; by right].
Qed.

Lemma sender_calls s res : CallInv s → CallInv (sender_step (cl_sender s) res s).1.
Proof.
  intros HI. destruct (cl_sender s) as [|m f|f|m f|m f|l|] eqn:E.
  6: { assert (Hl : CallInv ((l' ← lost_step l; modify (λ s1, set_sender (XLost l') s1)) s).1).
       { apply (lost_calls s l (λ l' s1, set_sender (XLost l') s1)
           (λ k, k ∈ receiver_slots (cl_receiver s) ∨ some_exec (λ pc, k ∈ exec_slots pc) s)); try done.
         - intros l' s1 k Hs. rewrite <- (same_some_exec s s1) by done. destruct Hs as (_ & <- & _). done.
         - intros s1 k Hs. unfold releasing. rewrite (same_some_exec s s1) by done. destruct Hs as (-> & -> & _). by rewrite E. }
       destruct l; try done. apply (calls_thread s); try done. intros k _. unfold releasing. rewrite E. cbn. tauto. }
  all: cbn [sender_step].
  all: assert (Hone : ∀ s0 pc, CallInv s0 → sender_slots (cl_sender s0) = [] → CallInv (set_sender pc s0)) by
    (intros s0 pc HI0 E0; apply (calls_thread s0); try done; intros k _; unfold releasing; rewrite E0; unfold some_exec; cbn;
     rewrite elem_of_nil; tauto).
  - unfold sender_get. rewrite run_gets. unfold id. destruct (cl_outbound s) as [|[m f] rest]; [done|].
    rewrite run_modify, run_last. apply Hone; [|cbn; by rewrite E]. by apply (calls_thread s); auto.
  - destruct m as [m|], f as [f|]; cbn [sender_item]; rewrite ?run_gets, ?run_modify, ?run_last;
      (apply Hone; [|cbn; by rewrite E]); try done. by apply (calls_thread s); auto.
  - unfold forget. rewrite run_modify, run_last. apply Hone; [|cbn; by rewrite E]. by apply (calls_thread s); auto.
  - unfold sender_sock. rewrite run_gets, run_last. apply Hone; [done|cbn; by rewrite E].
  - unfold sender_send. rewrite run_modify, run_last. apply Hone; [|cbn; by rewrite E]. by apply (calls_thread s); auto.
  - done.
Qed.

(** The receiver moves with nothing to release before. *)
Lemma receiver_plain s pc : CallInv s → receiver_slots (cl_receiver s) = [] → CallInv (set_receiver pc s).
Proof.
  intros HI E. apply (calls_thread s); try done. intros k _. unfold releasing. rewrite E. unfold some_exec. cbn.
  rewrite elem_of_nil. tauto.
Qed.

Lemma receive_calls s m : CallInv s → receiver_slots (cl_receiver s) = [] → CallInv (receive m s).1.
Proof.
  intros HI E. pose proof HI as []. unfold receive. rewrite run_gets. unfold id.
  set (other := if is_response (m_kind m) then _ else _).
  assert (Hother : CallInv (other s).1).
  { subst other. destruct (is_response (m_kind m)).
    - destruct (token_of m) as [| | | |tok| | |]; try (by apply receiver_plain).
      destruct (dict_get (cl_rpc s) tok) as [k|] eqn:Ek; [|by apply receiver_plain].
      rewrite !run_modify, run_last.
      change (CallInv (set_rpc_slot k (λ r, mkRpc (rpc_token r) (rpc_set r) (m_control m) (rpc_error r))
        (set_rpc (λ d, dict_del d tok) (set_receiver (RRelease k) s)))).
      apply calls_slot; try done. apply calls_del; [by apply receiver_plain|].
      intros i j Hi Hj Hw Ht [?|[Hin|?]]; [by left| |by right]. right. right; left. cbn.
      cbn in Hin, Ht. change (rpc (set_receiver _ s) j) with (rpc s j) in *.
      rewrite Ht in Hin. apply dict_get_elem in Hin; [|done]. rewrite Ek in Hin. injection Hin as ->. by left.
    - repeat case_decide; by apply receiver_plain. }
  destruct (future_of s m); [|done]. do 2 (case_decide; [by apply receiver_plain|]).
  destruct (is_terminal (m_kind m)); [by apply receiver_plain|]. case_decide; [by apply receiver_plain|done].
Qed.

Lemma receiver_calls s res : CallInv s → CallInv (receiver_step (cl_receiver s) res s).1.
Proof.
  intros HI. destruct (cl_receiver s) as [| |m|f m|t|k|l b|] eqn:E.
  7: { assert (Hl : CallInv ((l' ← lost_step l; modify (λ s1, set_receiver (RLost l' b) s1)) s).1).
       { apply (lost_calls s l (λ l' s1, set_receiver (RLost l' b) s1)
           (λ k, k ∈ sender_slots (cl_sender s) ∨ some_exec (λ pc, k ∈ exec_slots pc) s)); try done.
         - intros l' s1 k Hs. rewrite <- (same_some_exec s s1) by done. destruct Hs as (<- & _).
           unfold releasing, some_exec. cbn. tauto.
         - intros s1 k Hs. unfold releasing. rewrite (same_some_exec s s1) by done. destruct Hs as (-> & -> & _).
           rewrite E. cbn. tauto. }
       destruct l; try done. cbn [receiver_step]. rewrite run_last. apply receiver_plain; [done|by rewrite E]. }
  all: cbn [receiver_step].
  - unfold receiver_read. rewrite run_gets, run_last. apply receiver_plain; [done|by rewrite E].
  - apply receiver_plain; [done|by rewrite E].
  - apply receive_calls; [done|by rewrite E].
  - unfold receiver_terminal. rewrite run_gets, run_modify, run_last.
    apply receiver_plain; [by apply (calls_thread s); auto|cbn; by rewrite E].
  - destruct (schedule_quiet s t) as [(Q1 & Q2 & Q3 & Q4) Hs]. pose proof Hs as (T1 & T2 & _). unfold mbind, ST_bind.
    destruct (schedule_completion t s) as [s1 [[]|e]]; cbn [fst] in *;
      assert (HI1 : CallInv s1) by (apply (calls_thread s); try done; intros j _; unfold releasing; rewrite T1, T2, (same_some_exec s s1) by done; auto);
      [|done]. apply receiver_plain; [done|by rewrite T2, E].
  - unfold receiver_release. rewrite run_modify, run_last.
    set (s0 := set_rpc_slot k _ s). assert (HI0 : CallInv s0) by (by apply calls_slot).
    apply (calls_thread s0); try done. intros j Hw. unfold releasing. cbn [cl_sender cl_receiver cl_execs s0 set_rpc_slot].
    rewrite E. unfold some_exec. cbn. rewrite list_elem_of_singleton. intros [?|[->|?]]; [auto| |auto].
    left. unfold rpc. cbn. rewrite list_lookup_total_alter, decide_True; [done|].
    split; [done|]. unfold waiter in Hw. cbn in Hw. by rewrite length_alter in Hw.
  - done.
Qed.

Lemma exec_calls_plain s x pc :
  CallInv s → (x < length (cl_execs s))%nat → exec_slots (cl_execs s !!! x) = [] → CallInv (set_exec x pc s).
Proof.
  intros HI Hx E. apply (calls_thread s); try done. intros k _. unfold releasing.
  rewrite some_exec_set by done. rewrite (some_exec_split _ s x Hx), E, elem_of_nil. cbn. tauto.
Qed.

(** A body that leaves calls, waiters and threads alone. *)
Definition calls_same (s s' : Client) : Prop :=
  quiet_rpc s s' ∧ cl_sender s' = cl_sender s ∧ cl_receiver s' = cl_receiver s ∧ cl_execs s' = cl_execs s.

#[export] Instance calls_same_preorder : PreOrder calls_same.
Proof.
  split; [by unfold calls_same|]. unfold calls_same, quiet_rpc. intros s1 s2 s3 H1 H2.
  destruct_and! H1. destruct_and! H2. split_and!; congruence.
Qed.

Lemma calls_same_inv s s' : CallInv s → calls_same s s' → CallInv s'.
Proof.
  intros HI ((E1 & E2 & E3 & E4) & E5 & E6 & E7). apply (calls_thread s); try done. intros k _.
  unfold releasing, some_exec. rewrite E5, E6, E7. auto.
Qed.

Ltac same_calls := repeat respects_step; try (apply respects_modify; by intros ?).

Lemma end_future_same f op : respects calls_same (end_future (V := V) f op).
Proof. unfold end_future, schedule_callbacks. same_calls. Qed.

Lemma exec_finish_calls s x :
  CallInv s → (x < length (cl_execs s))%nat → exec_slots (cl_execs s !!! x) = [] → CallInv (exec_finish x s).1.
Proof.
  intros HI Hx E. destruct x; cbn [exec_finish]; rewrite ?run_modify, run_last; apply exec_calls_plain; try done.
  by apply (calls_same_inv s).
Qed.

Lemma exec_lost_calls s x f l :
  CallInv s → (x < length (cl_execs s))%nat → cl_execs s !!! x = ELost f l →
  CallInv ((l' ← lost_step l; modify (λ s1, set_exec x (ELost f l') s1)) s).1.
Proof.
  intros HI Hx E.
  apply (lost_calls s l (λ l' s1, set_exec x (ELost f l') s1)
    (λ k, k ∈ sender_slots (cl_sender s) ∨ k ∈ receiver_slots (cl_receiver s) ∨
          some_exec_but x (λ pc, k ∈ exec_slots pc) s)); try done.
  - intros l' s1 k Hs. pose proof (same_exec s s1 (λ y, y ≠ x) k Hs) as He.
    destruct Hs as (Es & Er & Hl & _). unfold releasing. rewrite some_exec_set by lia.
    cbn [cl_sender cl_receiver set_exec]. rewrite Es, Er. unfold some_exec_but. rewrite He. cbn. tauto.
  - intros s1 k Hs. unfold releasing. rewrite (same_some_exec s s1) by done. destruct Hs as (-> & -> & _).
    rewrite (some_exec_split _ s x Hx), E. cbn. tauto.
Qed.

Lemma exec_calls s x full :
  CallInv s → (x < length (cl_execs s))%nat → (cl_execs s !!! x = EIdle → x = O) →
  CallInv (exec_step loads x (cl_execs s !!! x) full s).1.
Proof.
  intros HI Hx H0.
  assert (Hplain : ∀ s0 pc, calls_same s s0 → exec_slots (cl_execs s !!! x) = [] → CallInv (set_exec x pc s0)).
  { intros s0 pc Hs E. pose proof (calls_same_inv s s0 HI Hs). destruct Hs as (_ & _ & _ & Ex).
    apply exec_calls_plain; rewrite ?Ex; done. }
  assert (Hfin : ∀ s0, calls_same s s0 → exec_slots (cl_execs s !!! x) = [] → CallInv (exec_finish x s0).1).
  { intros s0 Hs E. pose proof (calls_same_inv s s0 HI Hs). destruct Hs as (_ & _ & _ & Ex).
    apply exec_finish_calls; rewrite ?Ex; done. }
  assert (Hend : ∀ f op pc, exec_slots (cl_execs s !!! x) = [] →
    CallInv ((_ ← end_future f op; modify (set_exec x pc)) s).1).
  { intros f op pc E. pose proof (end_future_same f op s) as Hs. unfold mbind, ST_bind.
    destruct (end_future f op s) as [s1 [[]|e]]; cbn [fst] in *; [by apply Hplain|by apply (calls_same_inv s)]. }
  destruct (cl_execs s !!! x) as [|t|f|f l|f|f|f|] eqn:E.
  4: { assert (Hl : CallInv ((l' ← lost_step l; modify (λ s1, set_exec x (ELost f l') s1)) s).1) by
         (apply (exec_lost_calls s x f l); done).
       destruct l; try done. cbn [exec_step]. rewrite run_last. by apply Hplain. }
  all: cbn [exec_step].
  - rewrite (H0 eq_refl) in *. unfold exec_take. rewrite run_gets. unfold id. destruct (cl_tasks s) as [|t rest]; [done|].
    rewrite run_modify, run_last. by apply Hplain.
  - unfold exec_run. rewrite run_gets. destruct t; rewrite ?run_modify; try (by apply Hend); by apply Hfin.
  - unfold exec_ack. rewrite run_gets. destruct full; rewrite ?run_modify, run_last; by apply Hplain.
  - unfold forget. rewrite run_modify, run_last. by apply Hplain.
  - rewrite run_gets, run_modify. by apply Hfin.
  - unfold forget. rewrite run_modify. by apply Hfin.
  - done.
Qed.

(** ** The calls themselves *)

Lemma call_calls s k tok flag :
  CallInv s → ReqInv client_id s → (k < length (cl_calls s))%nat → enabled (EvCall k tok flag) s = true →
  CallInv (call_step k (cl_calls s !!! k) tok flag s).1.
Proof.
  intros HI HR Hk He. cbn in He. apply andb_true_iff in He as [_ He]. unfold call_step.
  pose proof (calls_set s k) as Hset.
  destruct (ca_pc (cl_calls s !!! k)) as [kind c key|kind c tok' slot|tok' slot|tok'|tok' a|a] eqn:E.
  - unfold call_register. rewrite run_gets. unfold id. destruct (cl_socket s) eqn:Es; cbn [negb].
    + rewrite run_modify, run_last. apply calls_register; [done|done| |by apply bool_decide_eq_true in He].
      destruct (cl_failed s) eqn:Ef; [|done]. by rewrite (ri_failed _ _ HR Ef) in Es.
    + rewrite run_last. apply Hset; auto.
  - unfold call_enqueue. destruct flag; rewrite ?run_modify, run_last; [apply Hset; auto|].
    assert (HI1 : CallInv (set_outbound (λ q, q ++ [(Some (mkMessage kind c []), None)]) s)) by (by apply (calls_same_inv s)).
    apply calls_set; [done|cbn; rewrite E; auto..].
  - unfold call_wait. rewrite run_gets. unfold id. destruct (rpc_set _); [|apply Hset; auto].
    destruct (ca_future _); [|apply Hset; auto].
    destruct (get _ _); try (apply Hset; auto); cbn. repeat case_decide; apply Hset; auto.
  - unfold call_cancelled. destruct (ca_future _) as [f|]; [|done].
    pose proof (end_future_same f rf_set_cancelled s) as Hs. unfold mbind, ST_bind.
    destruct (end_future f rf_set_cancelled s) as [s1 [[]|e]]; cbn [fst] in *; pose proof (calls_same_inv s s1 HI Hs) as HI1;
      [|done]. destruct Hs as ((_ & _ & _ & Ec) & _). apply calls_set; [done|rewrite Ec, E; auto..].
  - unfold call_pop. rewrite run_modify, run_last.
    assert (HI1 : CallInv (set_rpc (λ d, dict_del d tok') s)).
    { apply calls_del; [done|]. intros i j Hi Hj Hw Ht _. exfalso.
      assert (Hti : call_token (ca_pc (cl_calls s !!! i)) = Some tok').
      { destruct (call_token (ca_pc (cl_calls s !!! i))) as [t|] eqn:Et.
        - destruct (ci_slot s HI i t j Hi Et Hj) as (_ & <- & _). by rewrite Ht.
        - by destruct (ca_pc (cl_calls s !!! i)). }
      assert (i = k) as -> by (eapply (ci_own s HI); [done|done|done|by rewrite E]). by rewrite E in Hj. }
    apply calls_set; [done|auto..].
  - done.
Qed.

Lemma cancel_calls s f : CallInv s → CallInv (future_cancel f s).1.
Proof.
  intros HI. unfold future_cancel, rf_cancel. rewrite run_gets. unfold id. destruct (rf_done (fut s f)); [done|].
  case_decide.
  - destruct (rf_set_cancelled (fut s f)). apply (calls_same_inv s); [done|apply end_future_same].
  - by apply calls_add.
Qed.

Lemma fin_calls s pc full : CallInv s → CallInv (fin_step (V := V) pc full s).1.
Proof.
  intros HI. destruct pc as [futs [|f rest]|c futs rest|futs| |c| | | | | |]; cbn [fin_step]; try done;
    rewrite ?run_modify, ?run_last; try (by apply (calls_same_inv s)).
  - rewrite run_gets. unfold id. destruct (rf_done (fut s f)); [by apply (calls_same_inv s)|].
    pose proof (cancel_calls s f HI) as HI1. unfold mbind, ST_bind.
    destruct (future_cancel f s) as [s1 [[]|e]]; [|done]. cbn in HI1 |- *. by apply (calls_same_inv s1).
  - rewrite run_gets. unfold id. destruct (cl_socket s && negb (cl_failed s)); [|by apply (calls_same_inv s)].
    unfold rpc_request. rewrite run_modify, run_last.
    apply (calls_same_inv (add_call None (KRegister CLOSE_SESSION [] (py "token")) s)); [by apply calls_add|done].
  - destruct full; rewrite ?run_skip, ?run_modify, run_last; by apply (calls_same_inv s).
Qed.

Lemma exec_call_inv s e : CallInv s → ReqInv client_id s → enabled e s = true → CallInv (exec e s).1.
Proof.
  intros HI HR He. destruct e as [kw d mode op payload|k flag|res|res|x full|f|f|kind c|k tok flag|f| |k|c|full];
    cbn [exec]; rewrite ?run_gets; unfold id.
  - apply (calls_same_inv s); [done|].
    assert (respects calls_same (submit_begin (V := V) kw d mode op payload)) as H by (unfold submit_begin; same_calls). apply H.
  - apply (calls_same_inv s); [done|].
    assert (respects calls_same (submit_step limits client_id sha256_hex (V := V) k (cl_submits s !!! k) flag)) as H; [|apply H].
    destruct (cl_submits s !!! k); cbn [submit_step];
      unfold submit_register, submit_validate, submit_late, submit_put, submit_abandon, forget; same_calls.
  - by apply sender_calls.
  - by apply receiver_calls.
  - cbn in He. apply andb_true_iff in He as [Hx%Nat.ltb_lt Hpc]. apply exec_calls; [done|done|].
    intros E. rewrite E in Hpc. by destruct x.
  - by apply cancel_calls.
  - unfold future_kill. rewrite run_gets. unfold id. destruct (rf_done _); [done|by apply calls_add].
  - by apply calls_add.
  - apply call_calls; try done. cbn in He. by apply andb_true_iff in He as [?%Nat.ltb_lt _].
  - apply (calls_same_inv s); [done|].
    assert (respects calls_same (add_done_callback (V := V) f)) as H by (unfold add_done_callback; same_calls). apply H.
  - apply (calls_same_inv s); [done|].
    assert (respects calls_same (dispatcher_turn (V := V))) as H by (unfold dispatcher_turn; same_calls). apply H.
  - apply (calls_same_inv s); [done|].
    assert (respects calls_same (batch_turn (V := V) k)) as H by (unfold batch_turn; same_calls). apply H.
  - apply (calls_same_inv s); [done|].
    assert (respects calls_same (shutdown (V := V) c)) as H by (unfold shutdown; same_calls). apply H.
  - destruct (cl_fin s) as [pc|]; [by apply fin_calls|done].
Qed.

Lemma init_calls : CallInv (client_init limits).
Proof. split; try done; [apply dict_wf_nil|by intros tok k ?%elem_of_nil]. Qed.

Lemma reachable_calls s : client_reachable s → CallInv s.
Proof.
  intros (es & Hs). cut (CallInv s ∧ ReqInv client_id s); [tauto|].
  eapply (steps_invariant client_step (λ s, CallInv s ∧ ReqInv client_id s)); [| |exact Hs].
  - intros s1 e s2 [HI HR] [He <-]. split; [by apply exec_call_inv|].
    by apply (client_exec_inv limits client_id sha256_hex loads).
  - split; [apply init_calls|apply client_init_inv].
Qed.

(** C21: No call waits in vain for a lost connection: once the loss is marked, the waiter of every
    call of [cancel], [get_status] and the like is released, or still on the list of the thread
    that releases it, so that the call goes on without running into its timeout. *)
Theorem waiters_released s i tok k :
  client_reachable s → cl_failed s = true → (i < length (cl_calls s))%nat →
  ca_pc (cl_calls s !!! i) = KWait tok k →
  releasing s k ∨ rpc_set (rpc s k) = true ∧ ∀ token, enabled (EvCall i token false) s = true.
Proof.
  intros HI%reachable_calls Hf Hi E. pose proof HI as [].
  destruct (ci_slot0 i tok k Hi) as (_ & _ & [Hs|[Hin|?]]); rewrite ?E; try done; [|by rewrite ci_failed0 in Hin by done; apply elem_of_nil in Hin|by left].
  right. split; [done|]. intros token. unfold Client.enabled. rewrite E, Hs. apply Nat.ltb_lt in Hi. by rewrite Hi.
Qed.
End ClientCalls.

(** A cancellation of a request that was sent, and the connection breaks while it waits. *)
Definition interrupted_call : list event :=
  ClientDemo.submission 0 ++ ClientDemo.send_one ++ [EvCancel 0] ++
  [EvCall 0 (py "t") false; EvCall 0 [] false] ++ repeat (EvReceiver (Err (Raise OSError "reset"))) 4.

Lemma waiters_released_witness :
  let s := ClientDemo.after ClientDemo.limits interrupted_call in
  releasing s 0 ∨ rpc_set (rpc s 0) = true ∧ ∀ token, enabled ClientDemo.limits (EvCall 0 token false) s = true.
Proof.
  intros s. apply (waiters_released ClientDemo.limits (py "c") ClientDemo.sha ClientDemo.loads s 0 (py "t") 0);
    [apply ClientDemo.client_reached| | |]; vm_compute; done || lia.
Defined.
