(* ===== verification/Handshake.v ===== *)
(** * Handshake: opening a session, seen from both ends

    What the application can observe of [_connect], whatever the network does; and
    that the answer of the server's handshake to the HELLO of a client is the one
    the client understands: it admits exactly the compatible clients. *)
From stdpp Require Import pretty.
From S2P Require Import Prelude Errors Futures StateErr Heapq PyVal PyInt Config Worker Protocol Scheduler Terminal Broker BrokerStep BrokerProps RemoteFuture Client ClientConnect.

(** ** The client alone *)

Section Connect.
Context (c : ClientSetup) (nw : Network).

(** Every way out of the exchange but the last leaves the session unset. *)
Lemma exchange_run s :
  co_sock s = Unbound →
  let '(s', r) := exchange c nw s in
  co_self_socket s' = co_self_socket s ∧ co_session s' = co_session s ∧
  match r with
  | Ok (response, lim) =>
      co_sock s' = Opened ∧ ∃ hello, hello_control c = Ok hello ∧
      co_sent s' = co_sent s ++ [mkMessage HELLO hello []] ∧
      nw_receive nw = Ok response ∧ check_response (cs_limits c) response = Ok lim
  | Err _ => True
  end.
Proof.
  intros Hs. unfold exchange, call, lift, raise, skip, modify, mbind, ST_bind, mret, ST_ret.
  destruct (nw_dial nw); [by split_and!|]. destruct (nw_settimeout nw); [by split_and!|].
  destruct (hello_control c) as [hello|] eqn:Eh; [|by split_and!]. destruct (nw_send nw); [by split_and!|].
  destruct (nw_receive nw) as [response|] eqn:Er; [|by split_and!].
  destruct (check_response _ response) as [lim|] eqn:El; [|by split_and!].
  destruct (nw_unset nw); split_and!; try done. by exists hello.
Qed.

Lemma reported_remote e : isinstance (reported e) RemoteExecutorError = true.
Proof. unfold reported. destruct (isinstance e RemoteExecutorError) eqn:E; [done|]. by vm_compute. Qed.

(** C37: whatever the network does, [_connect] either returns with the socket open and
    installed after sending the HELLO and receiving a WELCOME it accepts; or raises a
    remote exception (or what closing raised) with the socket closed and no session; or
    the WELCOME had a [limits] that is no dictionary, and the exception of [dict] leaves
    the socket open. *)
Theorem connect_outcome :
  let '(s', r) := connect c nw connecting_init in
  match r with
  | Ok _ => co_sock s' = Opened ∧ co_self_socket s' = true ∧
      ∃ hello response lim, hello_control c = Ok hello ∧ co_sent s' = [mkMessage HELLO hello []] ∧
        nw_receive nw = Ok response ∧ check_response (cs_limits c) response = Ok lim
  | Err e =>
      (co_sock s' ≠ Opened ∧ co_self_socket s' = false ∧ co_session s' = None ∧
       (isinstance e RemoteExecutorError = true ∨ nw_close nw = Some e)) ∨
      (co_sock s' = Opened ∧ co_self_socket s' = true ∧
       ∃ response, nw_receive nw = Ok response ∧ dict_or_empty (get (m_control response) "limits") = Err e)
  end.
Proof.
  unfold connect. unfold mbind at 1, ST_bind at 1, try_except.
  pose proof (exchange_run connecting_init eq_refl) as H. destruct (exchange c nw connecting_init) as [s1 [[response lim]|e]].
  - destruct H as (_ & _ & Ho & hello & Hh & Hsent & Hr & Hl). unfold adopt, modify, lift, mbind, ST_bind.
    destruct (dict_or_empty _) as [d|e] eqn:Ed.
    + split_and!; [done|done|]. by exists hello, response, lim.
    + right. split_and!; [done|done|]. by exists response.
  - destruct H as (Hself & Hses & _). unfold close_quietly, gets, modify, skip, raise, mbind, ST_bind, mret, ST_ret.
    case_bool_decide as Hu; [left; split_and!; [congruence|done|done|]; left; apply reported_remote|].
    destruct (nw_close nw) as [x|]; [destruct (isinstance x OSError)|]; left; split_and!; try done;
      first [by right|left; apply reported_remote].
Qed.
End Connect.

(** ** Both ends *)

(** Arguments a client can be made from: the identity is [uuid4().hex], the serializer's
    name is not empty and its protocol a string or an integer. *)
Record setup_ok (cl : ClientSetup) : Prop := {
  so_id : cs_client_id cl ≠ []; so_id_short : (length (cs_client_id cl) ≤ 128)%nat;
  so_name : cs_serializer_name cl ≠ [];
  so_protocol : (∃ t, cs_serializer_protocol cl = PStr t) ∨ (∃ z, cs_serializer_protocol cl = PInt z);
  so_limits : limits_ok (cs_limits cl) }.

Lemma wire_limits_valid l : limits_ok l → validate_wire_limits (PDict (wire_limits l)) = Ok (wire_limits l).
Proof.
  intros [Hpos _ _ _ _ _ _ _ _ _]. unfold validate_wire_limits.
  assert (keys_are (wire_limits l) WIRE_LIMIT_FIELDS = true) as -> by by vm_compute.
  cbn [negb raise_if]. unfold int_fields in Hpos. repeat (apply Forall_cons in Hpos as [? Hpos]).
  assert (res_forM (λ kv, raise_if (is_bool kv.2 || negb (is_int kv.2) || le_zero kv.2)
    (protocol_error "wire limit must be a positive integer")) (wire_limits l) = Ok tt) as ->; [|done].
  apply res_forM_Ok. unfold wire_limits, mkdict. cbn [fmap list_fmap].
  repeat (apply Forall_cons; split; [apply raise_if_Ok; cbn; by apply Z.leb_gt|]). constructor.
Qed.

(** [==] of wire limits is equality of the five fields. *)
Lemma same_wire_limits_spec l1 l2 : same_wire_limits l1 (wire_limits l2) = true ↔ wire_limits l1 = wire_limits l2.
Proof.
  unfold same_wire_limits, wire_limits, mkdict. cbn [fmap list_fmap forallb fst snd].
  vm_compute (pd_get _ _). split.
  - rewrite !andb_true_iff, !Z.eqb_eq. intros (-> & -> & -> & -> & -> & _). done.
  - intros [= -> -> -> -> ->]. by rewrite !Z.eqb_refl.
Qed.

Lemma hello_valid cl a : setup_ok cl → validate_hello (hello_fields cl a) = Ok tt.
Proof.
  intros [Hid Hshort Hname Hproto Hl]. unfold validate_hello.
  assert (forallb (has_key (hello_fields cl a)) hello_required = true) as -> by by vm_compute.
  assert (get (hello_fields cl a) "client_instance_id" = PStr (cs_client_id cl)) as Hg1 by reflexivity.
  assert (get (hello_fields cl a) "wire_limits" = PDict (wire_limits (cs_limits cl))) as Hg2 by reflexivity.
  assert (get (hello_fields cl a) "serializer_protocol" = cs_serializer_protocol cl) as Hg3 by reflexivity.
  rewrite Hg1, Hg2, Hg3, wire_limits_valid by done. cbn [negb].
  do 4 (apply bind_Ok; exists tt; split; [apply raise_if_Ok; reflexivity|]).
  apply bind_Ok; exists tt; split.
  { apply res_forM_Ok. repeat (apply Forall_cons; split; [apply raise_if_Ok|]); [..|constructor]; cbn.
    - change (negb (negb (bool_decide (cs_client_id cl = []))) = false). by rewrite bool_decide_false.
    - change (negb (negb (bool_decide (cs_serializer_name cl = []))) = false). by rewrite bool_decide_false.
    - done. }
  apply bind_Ok; exists tt; split; [apply raise_if_Ok, Z.ltb_ge; lia|].
  apply bind_Ok; exists tt; split; [apply raise_if_Ok; by destruct Hproto as [[? ->]|[? ->]]|].
  cbn [mbind]. apply raise_if_Ok. destruct Hl as [Hpos _ _ _ _ _ _ _ _ _].
  unfold int_fields in Hpos. do 5 (apply Forall_cons in Hpos as [? Hpos]).
  change (negb (negb (max_result_bytes (cs_limits cl) <=? 0)) = false). rewrite negb_involutive. by apply Z.leb_gt.
Qed.

Section Agreement.
Context {J : JsonText} {U : UnicodeData} {HQ : HeapQ Z Z.le}.
Context (sha256_hex : bytes → pystr) (cfg : ServerConfig) (cl : ClientSetup).

(** What makes a client incompatible, in terms of the two configurations. *)
Definition accepts_fingerprint (expected actual : option pystr) : bool :=
  match expected with None => true | Some f => bool_decide (actual = Some f) end.
Definition mismatch : option string :=
  if negb (same_wire_limits (cf_limits cfg) (wire_limits (cs_limits cl))) then Some "wire_limits"%string
  else if negb (bool_decide (cs_serializer_name cl = cf_serializer_name cfg))
          || negb (bool_decide (str_value (cs_serializer_protocol cl) = str_value (cf_serializer_protocol cfg)))
       then Some "serializer"%string
  else if negb (bool_decide (cs_python cl = cf_python cfg)) then Some "python"%string
  else if negb (accepts_fingerprint (cf_registry_fingerprint cfg) (cs_registry_fingerprint cl))
       then Some "registry_fingerprint"%string
  else if negb (accepts_fingerprint (cf_application_fingerprint cfg) (cs_application_fingerprint cl))
       then Some "application_fingerprint"%string
  else None.

Lemma fingerprint_agrees expected actual : fingerprint_ok expected (or_none actual) = accepts_fingerprint expected actual.
Proof.
  destruct expected as [f|], actual as [g|]; try done. cbn. apply bool_decide_ext. naive_solver.
Qed.
Lemma is_pair_agrees p q : is_pair (PList [PInt p.1; PInt p.2]) q.1 q.2 = bool_decide (p = q :> Z * Z).
Proof.
  destruct p as [a b], q as [x y]. cbn. case_bool_decide as H; [injection H as -> ->; by rewrite !Z.eqb_refl|].
  apply andb_false_iff. rewrite !Z.eqb_neq. destruct (decide (a = x)); naive_solver.
Qed.

(** The six tests of the server come to [mismatch]. *)
Lemma check_compatible_run c a s :
  setup_ok cl →
  match mismatch with
  | Some why => ∃ msg, check_compatible cfg c (hello_fields cl a) s = reject_hello cfg c why msg s
  | None => check_compatible cfg c (hello_fields cl a) s = (s, Ok tt)
  end.
Proof.
  intros Hok. unfold check_compatible, mismatch. rewrite hello_valid by done.
  assert (get (hello_fields cl a) "wire_limits" = PDict (wire_limits (cs_limits cl))) as -> by reflexivity.
  assert (get (hello_fields cl a) "versions" = PList [PList [PInt MAJOR; PInt MINOR]]) as -> by reflexivity.
  assert (get (hello_fields cl a) "serializer" = PStr (cs_serializer_name cl)) as -> by reflexivity.
  assert (get (hello_fields cl a) "serializer_protocol" = cs_serializer_protocol cl) as -> by reflexivity.
  assert (has_str (get (hello_fields cl a) "capabilities") "callable" = true) as -> by reflexivity.
  assert (get (hello_fields cl a) "python" = PList [PInt (cs_python cl).1; PInt (cs_python cl).2]) as -> by reflexivity.
  assert (get (hello_fields cl a) "registry_fingerprint" = or_none (cs_registry_fingerprint cl)) as -> by reflexivity.
  assert (get (hello_fields cl a) "application_fingerprint" = or_none (cs_application_fingerprint cl)) as -> by reflexivity.
  rewrite is_pair_agrees, !fingerprint_agrees. unfold lift, mbind, ST_bind at 1.
  assert (Hrej : ∀ {A B} why msg (f : A → ST Broker B) t, (reject_hello cfg c why msg ≫= f) t = reject_hello cfg c why msg t).
  { intros. unfold reject_hello, mbind, ST_bind, raise. by destruct (send_ _ _ _ _ _) as [? []]. }
  destruct (same_wire_limits _ _); cbn [negb]; [|eexists; apply Hrej].
  unfold skip, mret, ST_ret. cbn -[reject_hello accepts_fingerprint].
  destruct (_ || _); [eexists; apply Hrej|].
  destruct (bool_decide (cs_python cl = _)); cbn -[reject_hello accepts_fingerprint]; [|eexists; apply Hrej].
  destruct (accepts_fingerprint (cf_registry_fingerprint cfg) _); cbn -[reject_hello accepts_fingerprint]; [|eexists; apply Hrej].
  destruct (accepts_fingerprint _ _); cbn -[reject_hello]; [done|by eexists].
Qed.

(** *** Answering *)

(** The connection is open and its outbound queue takes another message. *)
Definition has_room (c : nat) (s : Broker) : Prop :=
  (c < length (br_conn_heap s))%nat ∧ cn_closed (con s c) = false ∧
  Z.of_nat (length (cn_outbound (con s c))) < outbound_queue_size (cf_limits cfg).
Definition answers (c : nat) (s s' : Broker) (m : Message) : Prop :=
  ∃ q, cn_outbound (con s' c) = cn_outbound (con s c) ++ [(q, OMessage m)].
Record same_sessions (s s' : Broker) : Prop := {
  ss_sessions : br_sessions s' = br_sessions s; ss_clients : br_client_sessions s' = br_client_sessions s;
  ss_heap : br_session_heap s' = br_session_heap s }.

Lemma send_room c kind control s :
  has_room c s → ∃ s', send_ cfg c kind control s = (s', Ok tt) ∧ answers c s s' (mkMessage kind control []) ∧ same_sessions s s'.
Proof.
  intros (Hc & Hopen & Hroom). unfold send_, send, put_nowait, gets, upd_con, modify, skip, mbind, ST_bind, mret, ST_ret.
  rewrite Hopen. assert ((outbound_queue_size (cf_limits cfg) <=? Z.of_nat (length (cn_outbound (con s c)))) = false) as ->
    by by apply Z.leb_gt.
  rewrite andb_false_r. eexists. split; [reflexivity|]. split; [|by split].
  exists (cn_sequence (con s c)). unfold con, set_con. cbn [br_conn_heap]. rewrite list_lookup_total_alter.
  by rewrite decide_True.
Qed.

Lemma reject_room {A} c why msg s :
  has_room c s → ∃ s' e, reject_hello (A := A) cfg c why msg s = (s', Err e) ∧
    answers c s s' (mkMessage HANDSHAKE_REJECTED (reason why) []) ∧ same_sessions s s'.
Proof.
  intros Hroom. destruct (send_room c HANDSHAKE_REJECTED (reason why) s Hroom) as (s' & E & H).
  exists s', (protocol_error msg). unfold reject_hello, mbind, ST_bind. by rewrite E.
Qed.

(** What the client makes of a rejection. *)
Definition rejection (why : string) : exn :=
  Raise (if bool_decide (why = "authentication"%string) then RemoteAuthenticationError else RemoteCompatibilityError)
    "remote handshake rejected".
(** The reasons of a rejection. *)
Definition reasons : list string :=
  ["wire_limits"; "serializer"; "python"; "registry_fingerprint"; "application_fingerprint";
    "authentication"; "duplicate_client_instance"; "connection_limit"]%string.
Ltac known := by apply (bool_decide_unpack _).

Lemma rejected why : why ∈ reasons →
  check_response (cs_limits cl) (mkMessage HANDSHAKE_REJECTED (reason why) []) = Err (rejection why).
Proof. intros H. repeat (apply elem_of_cons in H as [->|H]; [by vm_compute|]). by apply elem_of_nil in H. Qed.

(** *** The verdict of the server *)

(** The principal the authentication gives the peer. *)
Definition principal_of (s : Broker) (c : nat) (peer : PeerInfo) (h : pydict) : option pystr :=
  match authenticate sha256_hex cfg (cn_transport (con s c)) peer h with
  | Ok (APrincipal name) => if bool_decide (name = []) then None else Some name
  | _ => None
  end.
Definition verdict (s : Broker) (c : nat) (peer : PeerInfo) (h : pydict) : option string :=
  match mismatch with
  | Some why => Some why
  | None =>
      match principal_of s c peer h with
      | None => Some "authentication"%string
      | Some name =>
          match dict_get (br_client_sessions s) (cs_client_id cl) with
          | Some _ => Some "duplicate_client_instance"%string
          | None =>
              if Z.of_nat (length (filter (λ i, ss_principal (ses s i) = name) (br_sessions s).*2))
                 >=? max_connections_per_principal (cf_limits cfg)
              then Some "connection_limit"%string else None
          end
      end
  end.

Lemma reject_bind {A B} c why msg (f : A → ST Broker B) s :
  (reject_hello (A := A) cfg c why msg ≫= f) s = reject_hello (A := B) cfg c why msg s.
Proof. unfold reject_hello, mbind, ST_bind, raise. by destruct (send_ _ _ _ _ _) as [? []]. Qed.

(** A rejection is the one answer, and what the client makes of it. *)
Lemma refused {A} c why msg s s' (r : result exn A) :
  has_room c s → reject_hello cfg c why msg s = (s', r) →
  why ∈ reasons →
  ∃ m, answers c s s' m ∧ is_Ok r = false ∧ same_sessions s s' ∧
    check_response (cs_limits cl) m = Err (rejection why).
Proof.
  intros Hroom H Hwhy. destruct (reject_room (A := A) c why msg s Hroom) as (s1 & e & E & Ha & Hs).
  rewrite E in H. injection H as <- <-. eexists. split; [exact Ha|]. split_and!; [done|done|by apply rejected].
Qed.
Lemma mismatch_known why : mismatch = Some why →
  why ∈ reasons.
Proof. unfold mismatch. repeat case_match; intros [= <-]; known. Qed.

(** The welcome, and the session it speaks of. *)
Lemma welcomed c name sid s :
  has_room c s → same_wire_limits (cf_limits cfg) (wire_limits (cs_limits cl)) = true → setup_ok cl →
  dict_get (br_client_sessions s) (cs_client_id cl) = None →
  (Z.of_nat (length (filter (λ i, ss_principal (ses s i) = name) (br_sessions s).*2))
    >=? max_connections_per_principal (cf_limits cfg)) = false →
  let limit := effective_result_limit cfg (max_result_bytes (cs_limits cl)) in
  let session := mkSession sid (cs_client_id cl) name c limit 0 0 0 [] in
  ∃ s', (_ ← open_session cfg c session; send_ cfg c WELCOME (welcome cfg sid limit)) s = (s', Ok tt) ∧
    answers c s s' (mkMessage WELCOME (welcome cfg sid limit) []) ∧
    (∃ i, dict_get (br_sessions s') sid = Some i ∧ ses s' i = session) ∧
    check_response (cs_limits cl) (mkMessage WELCOME (welcome cfg sid limit) []) = Ok (wire_limits (cs_limits cl)).
Proof.
  intros Hroom Hwl Hok Hdup Hmax limit session. unfold open_session. cbn [ss_client_id ss_principal ss_session_id session].
  unfold mbind at 1, ST_bind at 1. unfold mbind at 1, ST_bind at 1. unfold gets at 1. cbn [id].
  rewrite Hdup, Hmax. unfold mbind at 1, ST_bind at 1. unfold modify at 1, upd_con, modify.
  set (s1 := set_con c _ _).
  destruct (send_room c WELCOME (welcome cfg sid limit) s1) as (s' & E & [q Ha] & [Hs _ Hh]).
  { destruct Hroom as (Hc & Ho & Hn). unfold s1, has_room, con, set_con. cbn [br_conn_heap]. rewrite length_alter.
    rewrite list_lookup_total_alter, decide_True by done. done. }
  exists s'. split; [exact E|]. split_and!.
  - exists q. rewrite Ha. unfold s1, con, set_con. cbn [br_conn_heap].
    rewrite list_lookup_total_alter, decide_True by (by destruct Hroom). done.
  - exists (length (br_session_heap s)). rewrite Hs. unfold ses. rewrite Hh. unfold s1, set_con. cbn [br_sessions br_session_heap].
    split; [by rewrite dict_get_set_eq|]. rewrite lookup_total_app_r, Nat.sub_diag by lia. done.
  - unfold check_response. cbn [m_kind m_control]. rewrite !bool_decide_false, bool_decide_true by done. cbn [negb].
    assert (is_str_value (get (welcome cfg sid limit) "wire") WIRE = true) as -> by by vm_compute.
    assert (get (welcome cfg sid limit) "wire_limits" = PDict (wire_limits (cf_limits cfg))) as -> by reflexivity.
    apply same_wire_limits_spec in Hwl. rewrite Hwl. cbn [negb]. rewrite wire_limits_valid by by destruct Hok.
    unfold mbind, result_bind. by rewrite (proj2 (same_wire_limits_spec _ _) eq_refl).
Qed.

(** The size the client will keep its invocations to. *)
Lemma negotiated sid limit :
  ∃ d, dict_or_empty (get (welcome cfg sid limit) "limits") = Ok d ∧
    invocation_limit (cs_limits cl) (pd_merge d (wire_limits (cs_limits cl))) =
      Ok (Z.min (max_invocation_bytes (cs_limits cl)) (max_invocation_bytes (cf_limits cfg))).
Proof. eexists. split; reflexivity. Qed.

(** C36: the two ends agree on a handshake. A compatible client of a peer that
    authenticates, with an identity not in use and room for one more connection of its
    principal, is welcomed: the server registers its session and the client accepts the
    answer, and takes its invocation limit from it. Any other client is refused: no session is registered, and the client raises
    [RemoteAuthenticationError] when the authentication failed and
    [RemoteCompatibilityError] otherwise. There is exactly one answer either way. *)
Theorem handshake_agreement h c s peer sid s' r :
  setup_ok cl → hello_control cl = Ok h → has_room c s →
  (∀ e, authenticate sha256_hex cfg (cn_transport (con s c)) peer h = Err e → isinstance e Exception_ = true) →
  handshake sha256_hex cfg c h (Ok peer) sid s = (s', r) →
  ∃ m, answers c s s' m ∧
    match verdict s c peer h with
    | Some why => is_Ok r = false ∧ same_sessions s s' ∧ check_response (cs_limits cl) m = Err (rejection why)
    | None => r = Ok tt ∧ check_response (cs_limits cl) m = Ok (wire_limits (cs_limits cl)) ∧
        get (m_control m) "session_id" = PStr sid ∧
        (∃ d, dict_or_empty (get (m_control m) "limits") = Ok d ∧
           invocation_limit (cs_limits cl) (pd_merge d (wire_limits (cs_limits cl))) =
             Ok (Z.min (max_invocation_bytes (cs_limits cl)) (max_invocation_bytes (cf_limits cfg)))) ∧
        ∃ i name, dict_get (br_sessions s') sid = Some i ∧ principal_of s c peer h = Some name ∧
          ses s' i = mkSession sid (cs_client_id cl) name c
                       (effective_result_limit cfg (max_result_bytes (cs_limits cl))) 0 0 0 []
    end.
Proof.
  intros Hok Hh Hroom Hauth. assert (∃ a, h = hello_fields cl a) as [a ->].
  { unfold hello_control in Hh. apply bind_Ok in Hh as (a & _ & [= <-]). by exists a. }
  clear Hh. unfold handshake, verdict. pose proof (check_compatible_run c a s Hok) as Hcc.
  destruct mismatch as [why|] eqn:Em.
  { destruct Hcc as [msg Hcc]. unfold mbind at 1, ST_bind at 1. rewrite Hcc. intros H.
    destruct (reject_room (A := unit) c why msg s Hroom) as (s1 & e & E & Ha & Hs). rewrite E in H. injection H as <- <-.
    eexists. split; [exact Ha|]. split_and!; [done|done|]. by apply rejected, mismatch_known. }
  unfold mbind at 1, ST_bind at 1. rewrite Hcc. unfold lift at 1, mbind at 1, ST_bind at 1.
  rewrite run_gets. unfold principal_of.
  destruct (authenticate _ _ _ _ _) as [[name|]|e] eqn:Ea; cycle 1.
  { rewrite reject_bind. intros H. eapply refused in H; [exact H|done|known]. }
  { rewrite (Hauth e eq_refl), reject_bind. intros H. eapply refused in H; [exact H|done|known]. }
  case_bool_decide as Hname.
  { rewrite reject_bind. intros H. eapply refused in H; [exact H|done|known]. }
  unfold mbind at 1, ST_bind at 1. unfold mret at 1, ST_ret at 1.
  assert (get (hello_fields cl a) "max_result_bytes" = PInt (max_result_bytes (cs_limits cl))) as -> by reflexivity.
  assert (get (hello_fields cl a) "client_instance_id" = PStr (cs_client_id cl)) as -> by reflexivity.
  assert (positive_plain_int (PInt (max_result_bytes (cs_limits cl))) = true) as ->.
  { destruct Hok as [_ _ _ _ [Hpos _ _ _ _ _ _ _ _ _]]. unfold int_fields in Hpos. do 5 (apply Forall_cons in Hpos as [? Hpos]).
    change (negb (max_result_bytes (cs_limits cl) <=? 0) = true). rewrite negb_true_iff. by apply Z.leb_gt. }
  cbn [negb int_value].
  assert (Hwl : same_wire_limits (cf_limits cfg) (wire_limits (cs_limits cl)) = true).
  { unfold mismatch in Em. by destruct (same_wire_limits _ _). }
  destruct (dict_get (br_client_sessions s) (cs_client_id cl)) as [i|] eqn:Hdup.
  { unfold open_session. cbn [ss_client_id]. rewrite run_assoc, run_gets. cbn [id]. rewrite Hdup, reject_bind. intros H.
    eapply refused in H; [exact H|done|known]. }
  destruct (_ >=? _) eqn:Hmax.
  { unfold open_session. cbn [ss_client_id ss_principal]. rewrite run_assoc, run_gets. cbn [id]. rewrite Hdup, Hmax, reject_bind. intros H.
    eapply refused in H; [exact H|done|known]. }
  destruct (welcomed c name sid s Hroom Hwl Hok Hdup Hmax) as (s1 & E & Ha & (i & Hi & Hs) & Hr).
  rewrite E. intros [= <- <-]. eexists. split; [exact Ha|]. split_and!; [done|done|done|apply negotiated|]. by exists i, name.
Qed.
End Agreement.

(** ** A client and a server *)
Module HandshakeDemo.
Import Demo.
#[local] Existing Instance ascii_data.
Definition setup : ClientSetup :=
  mkSetup default_remote_limits (py "c") (py "pickle") (PInt 5) (3, 13) (py "CPython") (py "1") None None None.
Definition prepared : Broker := state_after [EvStart; EvInitBegin; EvInitPublish []; EvAccept 0; EvPrepare 0 Unix].
Definition peer : Broker.PeerInfo := mkPeer (Some 1000) None.
Definition shaken := handshake sha cfg 0 (hello_fields setup PNone) (Ok peer) (py "session") prepared.

Lemma setup_is_ok : setup_ok setup.
Proof. split; [done|cbn; lia|done|right; by eexists|apply default_limits_ok]. Qed.

Lemma handshake_agreement_witness :
  ∃ m, answers 0 prepared shaken.1 m ∧ shaken.2 = Ok tt ∧
    check_response default_remote_limits m = Ok (wire_limits default_remote_limits).
Proof.
  destruct (handshake_agreement sha cfg setup (hello_fields setup PNone) 0 prepared peer (py "session") shaken.1 shaken.2)
    as (m & Ha & Hv).
  - exact setup_is_ok.
  - reflexivity.
  - split; [|split]; vm_compute; [lia|done|done].
  - intros e H. assert (E : authenticate sha cfg (cn_transport (con prepared 0)) peer (hello_fields setup PNone) =
      Ok (APrincipal (py "uid:1000"))) by by vm_compute. rewrite E in H. discriminate H.
  - exact (surjective_pairing shaken).
  - exists m. split; [exact Ha|]. assert (E : verdict sha cfg setup prepared 0 peer (hello_fields setup PNone) = None) by by vm_compute.
    rewrite E in Hv. split; [exact (proj1 Hv)|exact (proj1 (proj2 Hv))].
Defined.

(** The server requires the HELLO to name a wire protocol and compares it with nothing:
    it welcomes a client that speaks another one. *)
Lemma other_wire_welcomed :
  get (m_control hello) "wire" = PStr (py "w") ∧ py "w" ≠ WIRE ∧
  (handshake sha cfg 0 (m_control hello) (Ok peer) (py "session") prepared).2 = Ok tt.
Proof. by vm_compute. Qed.
End HandshakeDemo.
