(* ===== verification/Fork.v ===== *)
(** * Fork: a client used in a child process ([client.py], [_ensure_process]; [_future.py], [_check_process])

    A child inherits the client's memory but not its threads. The public methods
    first rebuild the client from nothing and open a session of its own; a future
    of the parent refuses every operation. *)
From S2P Require Import Prelude Errors StateErr PyVal PyInt Config Protocol RemoteFuture Client ClientConnect Handshake.

(** [_check_process], then the method. *)
Definition in_process {A} (owner pid : Z) (m : result exn A) : result exn A :=
  if pid =? owner then m
  else Err (Raise RemoteForkedProcessError "RemoteFuture was inherited across fork and is not valid in the child").

(** A connection that was made is installed. *)
Lemma connected c nw s r : connect c nw connecting_init = (s, r) → is_Ok r = true → co_sock s = Opened ∧ co_self_socket s = true.
Proof.
  unfold connect. unfold mbind at 1, ST_bind at 1, try_except.
  pose proof (exchange_run c nw connecting_init eq_refl) as H. destruct (exchange c nw connecting_init) as [s1 [[response lim]|e]].
  - destruct H as (_ & _ & Ho & _). unfold adopt, modify, lift, mbind, ST_bind. by destruct (dict_or_empty _); intros [= <- <-].
  - unfold close_quietly, gets, modify, skip, raise, mbind, ST_bind, mret, ST_ret.
    destruct (bool_decide _); [by intros [= <- <-]|]. destruct (nw_close nw) as [x|]; [destruct (isinstance x OSError)|]; by intros [= <- <-].
Qed.

Section Fork.
Context {V : Type} (setup : ClientSetup).
Notation limits := (cs_limits setup).

(** The client with the process that owns it; [ow_inherited] is the descriptor the child
    has of the parent's connection, [ow_threads] tells that the client has its threads. *)
Record Owned := mkOwned {
  ow_pid : Z;
  ow_client_id : pystr;
  ow_client : Client (V := V);
  ow_inherited : sock_state;
  ow_connected : sock_state;
  ow_threads : bool }.

(** The attributes [_ensure_process] assigns, before [_connect]. *)
Definition rebuilt : Client (V := V) := let s := client_init limits in {| s with cl_socket := false |}.

(** [pid] is [os.getpid()], [fresh] is [uuid4().hex], [nw] what the network does. *)
Definition ensure_process (pid : Z) (fresh : pystr) (nw : Network) (o : Owned) : Owned * result exn unit :=
  if pid =? ow_pid o then (o, Ok tt)
  else
    let inherited := if cl_socket (ow_client o) then Closed else ow_inherited o in
    let me := mkSetup limits fresh (cs_serializer_name setup) (cs_serializer_protocol setup) (cs_python setup)
                (cs_implementation setup) (cs_version setup) (cs_application_fingerprint setup)
                (cs_registry_fingerprint setup) (cs_authenticator setup) in
    let '(co, r) := connect me nw connecting_init in
    let client := let s := rebuilt in {| s with cl_socket := co_self_socket co |} in
    (mkOwned pid fresh client inherited (co_sock co) (is_Ok r), r).

(** After a fork, a client call first leaves a client that owns nothing of the parent:
    whether connecting succeeds or not, the inherited descriptor is closed, every table and
    queue is empty and the identity is the fresh one; and it has its threads exactly when
    connecting succeeded. *)
Lemma fork_isolated pid fresh nw o o' r :
  pid ≠ ow_pid o → cl_socket (ow_client o) = true → ensure_process pid fresh nw o = (o', r) →
  ow_pid o' = pid ∧ ow_client_id o' = fresh ∧ ow_inherited o' = Closed ∧ ow_threads o' = is_Ok r ∧
  cl_futures (ow_client o') = [] ∧ cl_outbound (ow_client o') = [] ∧ cl_rpc (ow_client o') = [] ∧
  cl_written (ow_client o') = [] ∧ cl_submits (ow_client o') = [] ∧ cl_sequence (ow_client o') = 0 ∧
  (is_Ok r = true → cl_socket (ow_client o') = true ∧ ow_connected o' = Opened).
Proof.
  intros Hpid Hsock. unfold ensure_process. rewrite (proj2 (Z.eqb_neq _ _) Hpid), Hsock.
  set (me := mkSetup _ _ _ _ _ _ _ _ _ _). destruct (connect me nw connecting_init) as [co r'] eqn:E. intros [= <- <-].
  split_and!; try done. intros Hok. destruct (connected _ _ _ _ E Hok) as [H1 H2]. done.
Qed.

(** A second call in the child does not connect again, whatever became of the first. *)
Lemma fork_once pid fresh fresh' nw nw' o :
  let o1 := (ensure_process pid fresh nw o).1 in ensure_process pid fresh' nw' o1 = (o1, Ok tt).
Proof.
  cbn. unfold ensure_process at 1. assert (ow_pid (ensure_process pid fresh nw o).1 = pid) as ->; [|by rewrite Z.eqb_refl].
  unfold ensure_process. destruct (Z.eqb_spec pid (ow_pid o)); [done|]. by destruct (connect _ _ _).
Qed.
End Fork.

(** Request IDs of two clients differ when their identities do, as [uuid4().hex] of equal
    length do. *)
Lemma request_ids_apart id1 id2 n1 n2 :
  length id1 = length id2 → id1 ≠ id2 → request_id_of id1 n1 ≠ request_id_of id2 n2.
Proof. unfold request_id_of. intros Hl Hne H. by apply app_inj_1 in H as [? _]. Qed.
