(* ===== verification/Composition.v ===== *)
(** * Composition: the client and the server together

    What the client calls a request, the server can read; and two threads that submit at the
    same time can have one of their requests refused. *)
From stdpp Require Import pretty.
From S2P Require Import Prelude Errors Futures StateErr Heapq PyVal PyInt Config Worker Protocol Reassembly Scheduler Terminal Broker BrokerStep BrokerInv BrokerRefine BrokerFrame BrokerProps RemoteFuture Client ClientInv ClientProps.

(** ** Request IDs *)

Section RequestId.
Context {U : UnicodeData}.

(** The tables the interpreter has for the ten ASCII digits. *)
Context (Hdecimal : ∀ d, 0 ≤ d < 10 → uni_decimal (48 + Z.to_N d) = Some d).
Context (Hspace : ∀ d, 0 ≤ d < 10 → uni_space (48 + Z.to_N d) = false).

Lemma digits_decimal zs b : decimal zs → zs ≠ [] ∨ b = true → digits b (digit <$> zs) = Some zs.
Proof.
  intros Hz. revert b. induction Hz as [|d zs Hd Hz IH]; intros b Hb.
  - by destruct Hb as [?| ->].
  - cbn [fmap list_fmap digits]. unfold digit at 1. assert (((48 + Z.to_N d) =? c_underscore)%N = false) as ->.
    { apply N.eqb_neq. unfold c_underscore. lia. }
    unfold digit at 1. rewrite Hdecimal by done. by rewrite IH by auto.
Qed.

Lemma lstrip_decimal zs : decimal zs → lstrip (digit <$> zs) = digit <$> zs.
Proof. intros [|d zs' Hd Hz]; [done|]. cbn. unfold digit at 1. by rewrite Hspace. Qed.

Lemma rev_decimal zs : rev (digit <$> zs) = digit <$> rev zs.
Proof. induction zs as [|d zs IH]; [done|]. cbn. rewrite fmap_app. by rewrite <- IH. Qed.

Lemma strip_decimal zs : decimal zs → strip (digit <$> zs) = digit <$> zs.
Proof.
  intros Hz. unfold strip. rewrite (lstrip_decimal zs Hz), rev_decimal, lstrip_decimal.
  - by rewrite rev_decimal, rev_involutive.
  - apply Forall_forall. intros d Hd. apply (proj1 (Forall_forall _ _) Hz). by apply list_elem_of_In, in_rev, list_elem_of_In.
Qed.

Lemma int_of_decimal zs :
  decimal zs → zs ≠ [] → Z.of_nat (length zs) ≤ MAX_STR_DIGITS → int_of_str (digit <$> zs) = Ok (of_digits zs).
Proof.
  intros Hz Hne Hl. unfold int_of_str. rewrite strip_decimal by done.
  destruct zs as [|d zs]; [done|]. rewrite fmap_cons. pose proof Hz as [Hd _]%Forall_cons.
  assert ((digit d =? c_minus)%N = false) as -> by (apply N.eqb_neq; unfold digit, c_minus; lia).
  assert ((digit d =? c_plus)%N = false) as -> by (apply N.eqb_neq; unfold digit, c_plus; lia).
  rewrite <- fmap_cons, digits_decimal by auto. assert (MAX_STR_DIGITS <? Z.of_nat (length (d :: zs)) = false) as -> by (apply Z.ltb_ge; lia).
  f_equal. lia.
Qed.

Lemma after_last_app sep s t : sep ∉ t → after_last sep (s ++ sep :: t) = Some t.
Proof.
  intros Ht. assert (Hnone : after_last sep t = None).
  { induction t as [|c t IH]; [done|]. apply not_elem_of_cons in Ht as [Hc Ht]. cbn. rewrite IH by done.
    by rewrite decide_False by congruence. }
  induction s as [|c s IH]; cbn; [by rewrite Hnone, decide_True|by rewrite IH].
Qed.

(** The server reads the request IDs the client makes, whatever the name of the client (it may
    hold colons): the ID begins with the client's own name and the number after its last colon
    is the sequence number, for every number Python can print and read. *)
Theorem request_id_roundtrip client_id n :
  0 ≤ n < 10 ^ MAX_STR_DIGITS →
  startswith (request_id_of client_id n) (client_id ++ [colon]) = true ∧
  ∃ t, after_last colon (request_id_of client_id n) = Some t ∧ int_of_str t = Ok n.
Proof.
  intros [Hn Hmax]. destruct (str_of_int_decimal n Hn) as (zs & E & Hz & Hne & Hv & _ & Hl).
  unfold request_id_of. rewrite E. split.
  - replace (client_id ++ colon :: (digit <$> zs)) with ((client_id ++ [colon]) ++ (digit <$> zs)) by (by rewrite <- app_assoc).
    generalize (client_id ++ [colon]), (digit <$> zs). clear. intros l t. induction l as [|c l IH]; cbn; [by destruct t|].
    by rewrite bool_decide_true, IH.
  - exists (digit <$> zs). split.
    + apply after_last_app. intros (d & Hd & Hin)%list_elem_of_fmap.
      apply (proj1 (Forall_forall _ _) Hz) in Hin. unfold digit, colon in Hd. lia.
    + rewrite int_of_decimal; [by rewrite Hv|done|done|].
      pose proof (Hl (Z.to_nat MAX_STR_DIGITS)) as Hk. unfold MAX_STR_DIGITS in *. rewrite Z2Nat.id in Hk by lia.
      specialize (Hk Hmax ltac:(lia)). lia.
Qed.
End RequestId.

Lemma ascii_digits d :
  0 ≤ d < 10 → uni_decimal (UnicodeData := ascii_data) (48 + Z.to_N d) = Some d ∧
              uni_space (UnicodeData := ascii_data) (48 + Z.to_N d) = false.
Proof.
  intros Hd. assert (d = 0 ∨ d = 1 ∨ d = 2 ∨ d = 3 ∨ d = 4 ∨ d = 5 ∨ d = 6 ∨ d = 7 ∨ d = 8 ∨ d = 9) by lia.
  by destruct_or!; subst.
Qed.

Lemma request_id_roundtrip_witness :
  ∃ t, after_last colon (request_id_of (py "a:b") 1234) = Some t ∧ int_of_str (U := ascii_data) t = Ok 1234.
Proof.
  apply (request_id_roundtrip (U := ascii_data) (λ d Hd, proj1 (ascii_digits d Hd)) (λ d Hd, proj2 (ascii_digits d Hd))
    (py "a:b") 1234).
  vm_compute. by split.
Defined.

(** ** Submissions at the same time *)

Module TwoSubmissions.
Import Demo ClientDemo.

(** Two threads submit; the one that was registered second puts its message first, which the
    client allows: the sequence number is taken in one critical section, the message is put
    outside of it. The sender sends both. *)
Definition client_run_ : list Client.event :=
  [begin; begin; stretch 0; stretch 1] ++ repeat (stretch 1) 3 ++ repeat (stretch 0) 3 ++ send_one ++ send_one.

Definition client : Client (V := Z) := after limits client_run_.

(** What was sent, in order. *)
Definition sent : list Message := (cl_written client).*1.

(** The server gets it and writes its answers. *)
Definition server_run : list BrokerStep.event :=
  connected ++ ((λ m, BrokerStep.EvMessage 0 m fzero) <$> sent).
Definition server : Broker := state_after server_run.

Definition answers : list Message :=
  omap (λ x, match x.2 with OMessage m => Some m | _ => None end) (cn_outbound (con server 0)).

(** The client gets the answers about its requests. *)
Definition refused : list Client.event :=
  client_run_ ++ concat ((λ m, get_one m 4 ++ complete 3) <$> filter (λ m, m_kind m = REJECTED) answers).

End TwoSubmissions.
