(* ===== verification/Node.v ===== *)
(** * Node: the server and its local pool together

    [_PoolFuture] is one object: the server creates it, the pool ends it, either cancels
    it. The server ([Broker.v]) and the pool ([Pool.v]) each model it in their own state;
    here the two run as one system in which it is shared. A step is a step of one of
    them, and what it does to a shared future happens to the other's copy in the same
    step, as events of the other. [nd_links] names, for each future of the pool, the
    local future of the server it is.

    [_submit_future] runs in the thread of the dispatcher, in two steps: the test of
    [closed] with the choice of a number, and the [put] that finds room or raises
    [queue.Full]. The hook of a job, called by its supervisor, is the claim
    ([_claim_dispatch]), and its answer decides what the supervisor does. The pool is
    built in [_initialize], before the dispatcher runs, and shut down by
    [_finish_shutdown] once the server is stopping. *)
From S2P Require Import Prelude Errors Futures StateErr Heapq PyVal PyInt Config Worker.
From S2P Require Import Protocol Reassembly Scheduler Terminal Broker BrokerStep.
From S2P Require Import Pool PoolProps PoolTrack.

(** What a job leaves in its future: the worker's outcome, or something else. *)
Notation value := (option WorkerOutcome).
Notation LocalPool := (Pool.Pool (V := value)).
Notation pool_event := (Pool.event (V := value)).
Notation server_event := BrokerStep.event.

(** [future.result()] as [_pool_done] sees it. *)
Definition outcome_of (r : option (reply value)) : outcome :=
  match r with
  | Some (RValue (Some w)) => OWorker w
  | Some (RError e) => OError e
  | _ => OInvalid
  end.

Section Node.
Context {J : JsonText} {U : UnicodeData} {HQ : HeapQ Z Z.le} {HI : HeapQ Item item_le}.
Context (sha256_hex : bytes → pystr) (repr_exn : exn → pystr).
Context (cfg : ServerConfig) (pcfg : PoolConfig).

Record Node := mkNode {
  nd_broker : Broker;
  nd_pool : LocalPool;
  nd_links : list nat }.

Definition node_init (pids : list Z) : Node := mkNode broker_init (pool_init pids) [].

Notation server_exec := (BrokerStep.exec sha256_hex repr_exn cfg).
Notation pool_exec := (Pool.exec (V := value) pcfg).

(** A thread runs events one after the other. *)
Definition play_server (es : list server_event) (b : Broker) : Broker :=
  foldl (λ b e, (server_exec e b).1) b es.
Definition play_pool (es : list pool_event) (p : LocalPool) : LocalPool :=
  foldl (λ p e, (pool_exec e p).1) p es.

(** ** The shared futures *)

(** The futures of the pool with the local futures they are. *)
Definition shared (links : list nat) : list (nat * nat) := zip (seq 0 (length links)) links.

(** What the server cancelled is cancelled for the pool. *)
Definition cancelled (b : Broker) (links : list nat) : list nat :=
  omap (λ '(i, f), if decide (lf_state (fut b f) = FutureState.CANCELLED)
                   then Some i else None) (shared links).
Definition cancels (b : Broker) (links : list nat) : list pool_event :=
  EvCancel <$> cancelled b links.

(** What a step of the pool did to one future, as events of the server. *)
Definition reflect_one (p p' : LocalPool) (i f : nat) : list server_event :=
  let x := future p i in
  let y := future p' i in
  (if decide (pf_state y = pf_state x) then []
   else match pf_state y with
        | FutureState.FINISHED => [EvFinish f (outcome_of (pf_value y))]
        | _ => [EvPoolCancel f]
        end) ++
  (if decide (pf_pid y = pf_pid x) then []
   else match pf_pid y with Some pid => [EvPid f pid] | None => [] end).

Definition reflect (p p' : LocalPool) (links : list nat) : list server_event :=
  concat ((λ '(i, f), reflect_one p p' i f) <$> shared links).

(** A step of the server, then of the pool. *)
Definition after_server (b : Broker) (n : Node) : Node :=
  mkNode b (play_pool (cancels b (nd_links n)) (nd_pool n)) (nd_links n).
Definition after_pool (p : LocalPool) (n : Node) : Node :=
  mkNode (play_server (reflect (nd_pool n) p (nd_links n)) (nd_broker n)) p (nd_links n).

(** ** Steps *)

Inductive node_event :=
  | NServer (e : server_event)              (* a section of a thread of the server *)
  | NOffer                                  (* the dispatcher enters [_submit_future] *)
  | NPut                                    (* its put finds room *)
  | NFull                                   (* its put raises [queue.Full] *)
  | NPool (e : pool_event) (now : pyfloat). (* a thread of the pool; the time of a claim *)

(** The events of the server that are not the pool's doing. *)
Definition server_own (e : server_event) : bool :=
  match e with
  | BrokerStep.EvSubmit _ | EvClaim _ _ _ | EvNotifyRunning _ | EvFinish _ _ | EvPoolCancel _ | EvPid _ _ => false
  | _ => true
  end.

(** [_submit_future] up to the put; when the pool is closed the exception goes to
    [_complete_local]. *)
Definition node_offer (n : Node) : Node :=
  let b := nd_broker n in
  match br_dispatcher b with
  | DSubmitting r f =>
      match submit_begin (rq_priority (req b r)) (nd_pool n) with
      | (p, Ok _) => after_server b (mkNode b p (nd_links n ++ [f]))
      | (p, Err e) =>
          after_server (server_exec (BrokerStep.EvSubmit (SubmitError e)) b).1 (mkNode b p (nd_links n))
      end
  | _ => n
  end.

Definition node_put (n : Node) : Node :=
  after_server (server_exec (BrokerStep.EvSubmit Submitted) (nd_broker n)).1
    (mkNode (nd_broker n) (pool_exec (EvPut 0) (nd_pool n)).1 (nd_links n)).
Definition node_full (n : Node) : Node :=
  after_server (server_exec (BrokerStep.EvSubmit SubmitFull) (nd_broker n)).1
    (mkNode (nd_broker n) (pool_exec (EvPutFull 0) (nd_pool n)).1 (nd_links n)).

(** [_before_submit(worker.pid)], if the supervisor is about to call it: the claim runs,
    and the event of the supervisor gets its answer. *)
Definition node_claim (e : pool_event) (now : pyfloat) (n : Node) : Node * pool_event :=
  match e with
  | EvThread t pid _ sent polled mem =>
      match pc_of (nd_pool n) t with
      | SHook _ w =>
          let b := nd_broker n in
          let f := nd_links n !!! job_of (nd_pool n) t in
          let (b', answer) := claim_dispatch repr_exn cfg (lf_record (fut b f))
                                (wk_pid (worker (nd_pool n) w)) now b in
          let hook := match answer with
                      | Ok true => Proceed
                      | Ok false => Refused
                      | Err ex => HookRaises ex
                      end in
          (after_server b' n, EvThread t pid hook sent polled mem)
      | _ => (n, e)
      end
  | _ => (n, e)
  end.

Definition node_pool (e : pool_event) (now : pyfloat) (n : Node) : Node :=
  let (n', e') := node_claim e now n in
  after_pool (pool_exec e' (nd_pool n')).1 n'.

Definition node_exec (e : node_event) (n : Node) : Node :=
  match e with
  | NServer e => after_server (server_exec e (nd_broker n)).1 n
  | NOffer => node_offer n
  | NPut => node_put n
  | NFull => node_full n
  | NPool e now => node_pool e now n
  end.

Definition submitting (b : Broker) : bool :=
  match br_dispatcher b with DSubmitting _ _ => true | _ => false end.
Definition offered (p : LocalPool) : bool := match po_putting p with [] => false | _ => true end.

(** [self._pool.shutdown(wait=True, cancel_futures=False)] of the shutdown thread. *)
Definition may_shut (b : Broker) (p : LocalPool) (wait cancel : bool) : bool :=
  wait && negb cancel && bool_decide (br_state b = ServerState.STOPPING)
  && br_shutdown_thread b && bool_decide (length (po_shutdowns p) = 0%nat).

(** [shutdown] of the pool has returned. *)
Definition shut_down (p : LocalPool) : bool :=
  existsb (λ h, match h with HEnd => true | _ => false end) (po_shutdowns p).

Definition node_enabled (e : node_event) (n : Node) : bool :=
  let b := nd_broker n in
  let p := nd_pool n in
  match e with
  | NServer e =>
      server_own e && BrokerStep.enabled e b
      && match e with EvShutdownEnd => shut_down p | _ => true end
  | NOffer => submitting b && negb (offered p)
  | NPut => submitting b && Pool.enabled pcfg (EvPut 0) p
  | NFull => submitting b && Pool.enabled pcfg (EvPutFull 0) p
  | NPool e _ =>
      own_event e && Pool.enabled pcfg e p
      && match e with EvShutdown wait cancel => may_shut b p wait cancel | _ => true end
  end.

Definition node_step (n : Node) (e : node_event) (n' : Node) : Prop :=
  node_enabled e n = true ∧ node_exec e n = n'.

Definition node_reachable (n : Node) : Prop :=
  ∃ pids es, Z.of_nat (length pids) = pool_size pcfg ∧ steps node_step (node_init pids) es n.

Fixpoint node_run (n : Node) (es : list node_event) : option Node :=
  match es with
  | [] => Some n
  | e :: es' => if node_enabled e n then node_run (node_exec e n) es' else None
  end.

Lemma node_run_steps n es n' : node_run n es = Some n' → steps node_step n es n'.
Proof.
  revert n. induction es as [|e es IH]; simpl; intros n.
  - intros [= <-]. constructor.
  - destruct (node_enabled e n) eqn:E; [|done]. intros H%IH. by econstructor.
Qed.
End Node.
