(* ===== verification/NodeInv.v ===== *)
(** * NodeInv: the shared futures agree

    A step of [Node] is a sequence of steps of the server and one of the pool, so what
    was proved of either holds of the two together; [NodeInv] adds what connects them:
    both copies of a future agree, the pool only knows jobs the server gave it, and what
    is sent to a worker was claimed. *)
From S2P Require Import Prelude Errors Futures StateErr Heapq PyVal PyInt Config Worker.
From S2P Require Import Protocol Reassembly Scheduler Terminal Broker BrokerStep BrokerInv.
From S2P Require Import BrokerRefine BrokerProps BrokerSettle.
From S2P Require Import Pool PoolProps PoolTrack Node.

Section NodeInv.
Context {J : JsonText} {U : UnicodeData} {HQ : HeapQ Z Z.le} {HI : HeapQ Item item_le}.
Context (sha256_hex : bytes → pystr) (repr_exn : exn → pystr).
Context (cfg : ServerConfig) (pcfg : PoolConfig).
Context (Hlim : limits_ok (cf_limits cfg)) (Hsize : 0 < pool_size pcfg).
(** A condition on the steps of the pool's threads, of which submissions and
    cancellations are free. *)
Context (Q : LocalPool → pool_event → Prop)
  (Qfree : ∀ p e, match e with EvSubmit _ | EvPut _ | EvPutFull _ | EvCancel _ => Q p e | _ => True end).
Notation server_exec := (BrokerStep.exec sha256_hex repr_exn cfg).
Notation server_step := (BrokerStep.broker_step sha256_hex repr_exn cfg).
Notation pool_exec := (Pool.exec (V := value) pcfg).
Notation pool_step := (Pool.pool_step (V := value) pcfg).
Notation play_server := (play_server sha256_hex repr_exn cfg).
Notation play_pool := (play_pool pcfg).
Notation after_server := (after_server pcfg).
Notation after_pool := (after_pool sha256_hex repr_exn cfg).
Notation node_exec := (node_exec sha256_hex repr_exn cfg pcfg).
Notation node_step := (node_step sha256_hex repr_exn cfg pcfg).
Notation node_reachable := (node_reachable sha256_hex repr_exn cfg pcfg).

(** ** Runs of the parts *)

Definition server_runs (b b' : Broker) : Prop := ∃ es, steps server_step b es b'.
Definition pool_step_in (p : LocalPool) (e : pool_event) (p' : LocalPool) : Prop :=
  pool_step p e p' ∧ Q p e.
Definition pool_runs (p p' : LocalPool) : Prop := ∃ es, steps pool_step_in p es p'.

#[export] Instance server_runs_preorder : PreOrder server_runs.
Proof.
  split; [intros b; exists []; constructor|].
  intros b1 b2 b3 [es H] [es' H']. exists (es ++ es'). by eapply steps_app.
Qed.
#[export] Instance pool_runs_preorder : PreOrder pool_runs.
Proof.
  split; [intros b; exists []; constructor|].
  intros b1 b2 b3 [es H] [es' H']. exists (es ++ es'). by eapply steps_app.
Qed.

Lemma server_runs_one e b : BrokerStep.enabled e b = true → server_runs b (server_exec e b).1.
Proof. intros H. exists [e]. econstructor; [by split|constructor]. Qed.
Lemma pool_runs_one e p :
  Pool.enabled pcfg e p = true → Q p e → pool_runs p (pool_exec e p).1.
Proof. intros H HQe. exists [e]. econstructor; [by split; [split|]|constructor]. Qed.

Lemma pool_runs_steps p p' : pool_runs p p' → ∃ es, steps pool_step p es p'.
Proof.
  intros [es H]. exists es. induction H as [|p1 e p2 es p3 [H _] _ IH]; [constructor|].
  by econstructor.
Qed.

(** ** The links *)

Lemma shared_elem links i f : (i, f) ∈ shared links ↔ links !! i = Some f.
Proof.
  unfold shared. rewrite list_elem_of_lookup. split.
  - intros (k & Hk). apply lookup_zip_Some in Hk as [Hi Hf]. apply lookup_seq in Hi as [-> _]. done.
  - intros Hf. exists i. apply lookup_zip_Some. split; [|done]. apply lookup_seq.
    pose proof (lookup_lt_Some _ _ _ Hf). lia.
Qed.

Lemma shared_snd links : (shared links).*2 = links.
Proof. unfold shared. apply snd_zip. by rewrite length_seq. Qed.

Lemma cancelled_elem b links i :
  i ∈ cancelled b links ↔
  ∃ f, links !! i = Some f ∧ lf_state (fut b f) = FutureState.CANCELLED.
Proof.
  unfold cancelled. rewrite list_elem_of_omap. split.
  - intros ([k f] & Hk%shared_elem & Hc). case_decide; [|done]. injection Hc as <-. eauto.
  - intros (f & Hf & Hc). exists (i, f). split; [by apply shared_elem|by rewrite decide_True].
Qed.

(** ** What the server does to the pool's futures *)

Definition mark (x : PoolFuture value) : PoolFuture value :=
  mkPoolFuture FutureState.CANCELLED (pf_pid x) (pf_value x).

(** The pool is as before, but for its futures. *)
Definition same_but_futures (p p' : LocalPool) : Prop :=
  p' = {| p with po_futures := po_futures p' |} ∧ length (po_futures p') = length (po_futures p).

Lemma cancel_one p i :
  let p' := (pool_exec (EvCancel i) p).1 in
  same_but_futures p p' ∧
  ∀ k, future p' k =
    if decide (k = i ∧ pf_state (future p i) = FutureState.PENDING) then mark (future p k)
    else future p k.
Proof.
  intros p'. unfold p'. cbn [Pool.exec]. unfold fut_cancel. rewrite run_gets. unfold id.
  case_bool_decide as E.
  - split; [split; [done|simpl; by rewrite length_alter]|]. intros k. unfold future in *. simpl.
    assert (Hl : (i < length (po_futures p))%nat).
    { destruct (Nat.lt_ge_cases i (length (po_futures p))) as [|Hl]; [done|].
      by rewrite list_lookup_total_alt, lookup_ge_None_2 in E. }
    rewrite list_lookup_total_alter. destruct (decide (k = i)) as [->|Hk].
    + by rewrite !decide_True.
    + by rewrite !decide_False by naive_solver.
  - split; [split; [by destruct p|done]|]. intros k. by rewrite decide_False by naive_solver.
Qed.

Lemma same_but_futures_trans p1 p2 p3 :
  same_but_futures p1 p2 → same_but_futures p2 p3 → same_but_futures p1 p3.
Proof. intros [E L] [E' L']. split; [|congruence]. rewrite E', E. done. Qed.

Lemma play_cancels l p :
  let p' := play_pool (EvCancel <$> l) p in
  pool_runs p p' ∧ same_but_futures p p' ∧
  ∀ i, future p' i =
    if decide (i ∈ l ∧ pf_state (future p i) = FutureState.PENDING) then mark (future p i)
    else future p i.
Proof.
  revert p. induction l as [|k l IH]; intros p; csimpl.
  - split_and!; [reflexivity|split; [by destruct p|done]|].
    done.
  - unfold Node.play_pool. cbn [foldl]. fold (play_pool (EvCancel <$> l)).
    destruct (cancel_one p k) as [H1 H2]. set (p1 := (pool_exec (EvCancel k) p).1) in *.
    destruct (IH p1) as (R & H3 & H4). split_and!.
    + transitivity p1; [by apply pool_runs_one, (Qfree p (EvCancel k))|exact R].
    + by eapply same_but_futures_trans.
    + intros i. change (foldl _ p1 _) with (play_pool (EvCancel <$> l) p1). rewrite H4, H2.
      destruct (decide (i = k ∧ _)) as [[-> Hp]|Hn].
      * rewrite decide_False by (by intros [_ ?]).
        rewrite decide_True; [done|]. split; [by left|done].
      * apply decide_ext. rewrite elem_of_cons. naive_solver.
Qed.

(** ** What the pool does to the server's futures *)

(** Two copies of one future. *)
Definition agree (x : LocalFuture) (y : PoolFuture value) : Prop :=
  lf_state x = pf_state y ∧
  (pf_state y = FutureState.FINISHED → lf_outcome x = Some (outcome_of (pf_value y))).

(** The server is as before, but for the futures in [F]. *)
Record touched (F : nat → Prop) (b b' : Broker) : Prop := {
  to_rest : b' = {| b with br_future_heap := br_future_heap b' |};
  to_length : length (br_future_heap b') = length (br_future_heap b);
  to_other f : ¬ F f → fut b' f = fut b f;
  to_record f : lf_record (fut b' f) = lf_record (fut b f) }.

#[export] Instance touched_preorder F : PreOrder (touched F).
Proof.
  split; [by intros b; split; [destruct b|..]|].
  intros b1 b2 b3 [E L O R] [E' L' O' R']. split; [by rewrite E', E|congruence| |congruence].
  intros f Hf. by rewrite O', O.
Qed.

Lemma touched_weaken F F' b b' : (∀ f, F f → F' f) → touched F b b' → touched F' b b'.
Proof. intros H [E L O R]. split; auto. Qed.

Lemma touched_set f g b :
  (∀ x, lf_record (g x) = lf_record x) → touched (.= f) b (set_fut f g b).
Proof.
  intros Hg. split; [done|simpl; by rewrite length_alter| |]; intros k; unfold fut; simpl;
    rewrite list_lookup_total_alter; intros; case_decide; naive_solver.
Qed.

Lemma fut_set f g b :
  (f < length (br_future_heap b))%nat → fut (set_fut f g b) f = g (fut b f).
Proof. intros H. unfold fut. simpl. by rewrite list_lookup_total_alter, decide_True. Qed.

(** The change of state of one future. *)
Lemma reflect_state b p p' i f :
  (f < length (br_future_heap b))%nat → agree (fut b f) (future p i) →
  moves (future p i) (future p' i) → pf_state (future p' i) ≠ pf_state (future p i) →
  f ∈ jb_future <$> br_jobs b →
  let e := match pf_state (future p' i) with
           | FutureState.FINISHED => EvFinish f (outcome_of (pf_value (future p' i)))
           | _ => EvPoolCancel f
           end in
  let b' := (server_exec e b).1 in
  server_runs b b' ∧ touched (.= f) b b' ∧ agree (fut b' f) (future p' i).
Proof.
  intros Hf [Ha _] Hm Hne Hj e b'.
  assert (Hen : BrokerStep.enabled e b = true).
  { unfold e. by destruct (pf_state (future p' i)); cbn; apply bool_decide_eq_true. }
  split; [by apply server_runs_one|]. clear Hen. unfold b', e. clear b' e.
  destruct Hm as [[Hs _]|[(Hd & Hfin & _)|[Hp Hc]]]; [done|..].
  - rewrite Hfin. cbn [BrokerStep.exec]. unfold pool_finish. rewrite run_gets, Ha, Hd.
    unfold upd_fut, modify. cbn [fst]. split; [by apply touched_set|]. rewrite fut_set by done.
    by split.
  - rewrite Hc. cbn [BrokerStep.exec]. unfold pool_cancel, mark_cancelled.
    rewrite run_assoc, run_gets. rewrite Hp in Ha. rewrite decide_True by done.
    rewrite run_assoc. unfold upd_fut. rewrite run_modify. cbn [fst].
    match goal with |- context [set_fut f ?g b] =>
      change (touched (.= f) b (set_fut f g b) ∧ agree (fut (set_fut f g b) f) (future p' i)) end.
    split; [by apply touched_set|]. rewrite fut_set by done. split; simpl; [done|]. by rewrite Hc.
Qed.

Lemma reflect_pid b f pid :
  f ∈ jb_future <$> br_jobs b → (f < length (br_future_heap b))%nat →
  let b' := (server_exec (EvPid f pid) b).1 in
  server_runs b b' ∧ touched (.= f) b b' ∧ ∀ y, agree (fut b f) y → agree (fut b' f) y.
Proof.
  intros Hj Hf b'. split_and!.
  - apply server_runs_one. cbn. by apply bool_decide_eq_true.
  - by apply touched_set.
  - intros y Hy. unfold b'. cbn. unfold pool_set_pid, upd_fut, modify. cbn [fst].
    by rewrite fut_set.
Qed.

Lemma play_server_app l1 l2 b : play_server (l1 ++ l2) b = play_server l2 (play_server l1 b).
Proof. apply foldl_app. Qed.

Lemma agree_moves x y y' :
  agree x y → moves y y' → pf_state y' = pf_state y → agree x y'.
Proof.
  intros [H1 H2] Hm Hs. destruct Hm as [[_ Hv]|[(Hd & Hf & _)|[Hp Hc]]].
  - split; [congruence|]. rewrite Hv, Hs. done.
  - by rewrite <- Hs, Hf in Hd.
  - congruence.
Qed.

Definition may_change (b : Broker) (p p' : LocalPool) (i f : nat) : Prop :=
  future p' i = future p i ∨ f ∈ jb_future <$> br_jobs b ∧ moves (future p i) (future p' i).

Lemma reflect_one_spec b p p' i f :
  (f < length (br_future_heap b))%nat → agree (fut b f) (future p i) → may_change b p p' i f →
  let b' := play_server (reflect_one p p' i f) b in
  server_runs b b' ∧ touched (.= f) b b' ∧ agree (fut b' f) (future p' i).
Proof.
  intros Hf Ha Hm. unfold reflect_one. rewrite play_server_app.
  destruct Hm as [Heq|[Hj Hm]].
  { rewrite Heq, !decide_True by done. cbn. by split_and!. }
  set (l1 := if decide (pf_state _ = _) then _ else _). set (b1 := play_server l1 b).
  assert (H1 : server_runs b b1 ∧ touched (.= f) b b1 ∧ agree (fut b1 f) (future p' i)).
  { unfold b1, l1. case_decide as Hs; cbn.
    - split_and!; [reflexivity|reflexivity|by eapply agree_moves].
    - pose proof (reflect_state b p p' i f Hf Ha Hm Hs Hj) as H. cbv zeta in H.
      destruct (pf_state (future p' i)); exact H. }
  destruct H1 as (R & T & A). case_decide; cbn; [by split_and!|].
  destruct (pf_pid (future p' i)) as [pid|]; cbn; [|by split_and!].
  destruct (reflect_pid b1 f pid) as (R2 & T2 & A2).
  - by rewrite (to_rest _ _ _ T).
  - by rewrite (to_length _ _ _ T).
  - split_and!; [by transitivity b1|by transitivity b1|by apply A2].
Qed.

Lemma play_reflect p p' l b :
  NoDup l.*2 →
  (∀ i f, (i, f) ∈ l → (f < length (br_future_heap b))%nat ∧ agree (fut b f) (future p i) ∧
    may_change b p p' i f) →
  let b' := play_server (concat ((λ '(i, f), reflect_one p p' i f) <$> l)) b in
  server_runs b b' ∧ touched (λ f, f ∈ l.*2) b b' ∧
  ∀ i f, (i, f) ∈ l → agree (fut b' f) (future p' i).
Proof.
  revert b. induction l as [|[i f] l IH]; intros b; csimpl.
  { intros _ _. split_and!; [reflexivity|reflexivity|]. by intros i f ?%elem_of_nil. }
  intros [Hn Hnd]%NoDup_cons Hl. rewrite play_server_app.
  destruct (Hl i f) as (Hf & Ha & Hm); [by left|].
  destruct (reflect_one_spec b p p' i f Hf Ha Hm) as (R & T & A).
  set (b1 := play_server (reflect_one p p' i f) b) in *.
  assert (Hl1 : ∀ i' f', (i', f') ∈ l → f' ≠ f).
  { intros i' f' Hin ->. apply Hn. apply list_elem_of_fmap. by exists (i', f). }
  destruct (IH b1 Hnd) as (R2 & T2 & A2).
  { intros i' f' Hin. destruct (Hl i' f') as (Hf' & Ha' & Hm'); [by right|].
    rewrite (to_length _ _ _ T), (to_other _ _ _ T f') by by eapply Hl1.
    split_and!; [done|done|]. unfold may_change. by rewrite (to_rest _ _ _ T). }
  split_and!.
  - by transitivity b1.
  - transitivity b1; (eapply touched_weaken; [|eassumption]); intros k; [by intros ->; left|by right].
  - intros i' f' [[= -> ->]|Hin]%elem_of_cons; [|by apply A2].
    by rewrite (to_other _ _ _ T2).
Qed.

(** ** What a step of the server does to the rest *)
Record server_le (b b' : Broker) : Prop := {
  sl_runs : server_runs b b';
  sl_nfut : (length (br_future_heap b) ≤ length (br_future_heap b'))%nat;
  sl_fut f : (f < length (br_future_heap b))%nat →
    lf_record (fut b' f) = lf_record (fut b f) ∧ lf_outcome (fut b' f) = lf_outcome (fut b f) ∧
    (lf_state (fut b' f) = lf_state (fut b f) ∨
     lf_state (fut b f) = FutureState.PENDING ∧ lf_state (fut b' f) = FutureState.CANCELLED);
  sl_new f : (length (br_future_heap b) ≤ f)%nat → fresh (fut b' f);
  sl_jobs : br_jobs b' = br_jobs b;
  sl_later : later b b' }.

Lemma moved_le b b' :
  BrokerSettle.moved b b' → server_runs b b' → later b b' → server_le b b'.
Proof.
  intros [_ _ Hn Hf Hnew Hj _] Hr Hl. split; [done|done| |done|done|done]. intros f Hlt.
  destruct (Hf f Hlt) as [[R O] S _ _]. done.
Qed.

(** The dispatcher enters [_submit_future] with a new future. *)
Definition enters (b b' : Broker) : Prop :=
  submitting b = false ∧
  ∀ r f, br_dispatcher b' = DSubmitting r f → (length (br_future_heap b) ≤ f)%nat.

Definition is_claim (e : server_event) : bool := match e with EvClaim _ _ _ => true | _ => false end.

Lemma own_step_le b e :
  BrokerStep.reachable sha256_hex repr_exn cfg b → server_own e || is_claim e = true →
  BrokerStep.enabled e b = true → let b' := (server_exec e b).1 in
  server_le b b' ∧ (br_dispatcher b' = br_dispatcher b ∨ enters b b').
Proof.
  intros Hr Hown Hen b'. assert (Hst : server_step b e b') by by split.
  assert (Hl : later b b').
  { eapply reachable_later; [done..|]. econstructor; [exact Hst|constructor]. }
  assert (Hrun : server_runs b b') by by apply server_runs_one.
  destruct (future_event e) eqn:Ee.
  2: { pose proof (calm_exec sha256_hex repr_exn cfg Hlim e Ee b) as Hc. split.
       - apply moved_le; [by apply calm_moved|done|done].
       - left. apply (ca_dispatcher _ _ Hc). }
  clear Hst. unfold b' in *. clear b'.
  destruct e; try discriminate Ee; try discriminate Hown; cbn [BrokerStep.exec] in *; cbn in Hen.
  - assert (Hd : br_dispatcher b = DIdle) by by destruct (br_dispatcher b).
    split; [apply moved_le; [by apply dispatch_moved|done|done]|]. right.
    split; [unfold submitting; by rewrite Hd|]. intros r f. by apply dispatch_fresh.
  - rewrite run_gets in *. destruct (br_dispatcher b) as [|r f|r f|] eqn:Hd; try discriminate Hen.
    unfold dispatch_attach, upd_fut in *. rewrite run_gets, run_modify in *. split.
    + split; [done|simpl; by rewrite length_alter| | |done|done]; intros k Hk; unfold fut; simpl;
        rewrite list_lookup_total_alter; (case_decide as Hd'; [destruct Hd' as [<- ?]|]); simpl;
        [auto|auto|lia|by apply (fut_beyond b)].
    + right. split; [unfold submitting; by rewrite Hd|done].
Qed.

(** ** The invariant *)

(** The server has just cancelled the future. *)
Definition lagging (x : LocalFuture) (y : PoolFuture value) : Prop :=
  agree x y ∨ pf_state y = FutureState.PENDING ∧ lf_state x = FutureState.CANCELLED.

Definition unstarted (st : FutureState.t) : Prop :=
  st = FutureState.PENDING ∨ st = FutureState.CANCELLED.

(** A worker took the request. *)
Definition claimed (b : Broker) (f : nat) : Prop :=
  rq_state (req b (lf_record (fut b f))) ≠ RequestState.ACCEPTED_QUEUED.

(** Where the dispatcher stands in [_submit_future]. *)
Definition offer_ok (b : Broker) (p : LocalPool) (links : list nat) : Prop :=
  match br_dispatcher b, po_putting p with
  | DSubmitting r f, [] => f ∉ links
  | DSubmitting r f, [(i, _, _)] => links !! i = Some f ∧ i ∉ po_refused p
  | _, [] => True
  | _, _ => False
  end.

Record Linked (A : LocalFuture → PoolFuture value → Prop) (n : Node) : Prop := {
  ln_server : BrokerStep.reachable sha256_hex repr_exn cfg (nd_broker n);
  ln_pool : Pool.reachable pcfg (nd_pool n);
  ln_length : length (nd_links n) = length (po_futures (nd_pool n));
  ln_nodup : NoDup (nd_links n);
  ln_bound f : f ∈ nd_links n → (f < length (br_future_heap (nd_broker n)))%nat;
  ln_agree i f : nd_links n !! i = Some f → A (fut (nd_broker n) f) (future (nd_pool n) i);
  ln_fresh f : f ∉ nd_links n → unstarted (lf_state (fut (nd_broker n) f));
  ln_offer : offer_ok (nd_broker n) (nd_pool n) (nd_links n);
  ln_known i : knows (nd_pool n) i →
    ∃ f, nd_links n !! i = Some f ∧ f ∈ jb_future <$> br_jobs (nd_broker n);
  ln_jobs f : f ∈ jb_future <$> br_jobs (nd_broker n) →
    ∃ i, nd_links n !! i = Some f ∧ i ∉ po_refused (nd_pool n);
  ln_sending t : sending (pc_of (nd_pool n) t) = true →
    ∃ f, nd_links n !! job_of (nd_pool n) t = Some f ∧ claimed (nd_broker n) f }.

Definition NodeInv : Node → Prop := Linked agree.

(** The cancellations reach the pool. *)
Lemma linked_shared b n :
  Linked lagging (mkNode b (nd_pool n) (nd_links n)) → NodeInv (after_server b n).
Proof.
  intros [Hs Hp Hlen Hnd Hb Ha Hf Ho Hk Hj Hsend]. simpl in *.
  destruct (play_cancels (cancelled b (nd_links n)) (nd_pool n)) as (R & [E L] & F).
  unfold after_server, cancels. set (p' := play_pool _ _) in *. clearbody p'.
  assert (Eput : po_putting p' = po_putting (nd_pool n)) by by rewrite E.
  assert (Eref : po_refused p' = po_refused (nd_pool n)) by by rewrite E.
  assert (Eknow : ∀ i, knows p' i ↔ knows (nd_pool n) i) by (intros i; by rewrite E).
  assert (Epc : ∀ t, pc_of p' t = pc_of (nd_pool n) t) by (intros t; by rewrite E).
  assert (Ejob : ∀ t, job_of p' t = job_of (nd_pool n) t) by (intros t; by rewrite E).
  clear E. apply pool_runs_steps in R as [es R]. unfold offer_ok in *. split; simpl; unfold offer_ok; rewrite ?Eput, ?Eref; try done.
  - destruct Hp as (pids & es' & Hpids & Hst). exists pids, (es' ++ es). split; [done|].
    by eapply steps_app.
  - by rewrite L.
  - intros i f Hi. rewrite F. destruct (Ha i f Hi) as [[H1 H2]|[H1 H2]].
    + case_decide as Hc; [|done]. destruct Hc as [Hc Hpend]. split; simpl; [|done].
      apply cancelled_elem in Hc as (f' & Hf' & Hc). congruence.
    + rewrite decide_True; [by split|]. split; [|done]. apply cancelled_elem. eauto.
  - intros i. rewrite Eknow. apply Hk.
  - intros t. rewrite Epc, Ejob. apply Hsend.
Qed.

(** A record that was claimed stays so. *)
Lemma claimed_later n b' f A :
  Linked A n → server_le (nd_broker n) b' → f ∈ jb_future <$> br_jobs (nd_broker n) →
  claimed (nd_broker n) f → claimed b' f.
Proof.
  intros [Hs _ _ _ _ _ _ _ _ _ _] Hle Hj Hc.
  pose proof (reachable_inv _ _ _ Hlim _ Hs) as Hinv.
  destruct (job_future_links _ _ _ _ Hinv Hj) as [Hf Hr].
  destruct (sl_fut _ _ Hle f Hf) as (E & _). unfold claimed in *. rewrite E.
  destruct (la_requests _ _ (sl_later _ _ Hle)) as [_ Hl].
  destruct (Hl _ Hr) as [_ Hend Hrun].
  destruct (rq_state (req (nd_broker n) (lf_record (fut (nd_broker n) f)))) eqn:Es; [done|by apply Hrun|..];
    destruct (Hend eq_refl) as [-> _]; congruence.
Qed.

Lemma thread_knows (p : LocalPool) t :
  (t < length (po_threads p))%nat → knows p (job_of p t).
Proof.
  intros Ht. right; right; left. apply list_elem_of_fmap. exists (po_threads p !!! t).
  split; [done|]. by apply list_elem_of_lookup_total_2.
Qed.

Lemma sending_thread (p : LocalPool) t :
  sending (pc_of p t) = true → (t < length (po_threads p))%nat.
Proof.
  intros Ht. destruct (Nat.lt_ge_cases t (length (po_threads p))) as [|Hl]; [done|].
  unfold pc_of in Ht. by rewrite list_lookup_total_alt, lookup_ge_None_2 in Ht.
Qed.

(** A supervisor that is sending has a job of the server. *)
Lemma sending_job n t :
  NodeInv n → sending (pc_of (nd_pool n) t) = true →
  ∃ f, nd_links n !! job_of (nd_pool n) t = Some f ∧ f ∈ jb_future <$> br_jobs (nd_broker n) ∧
    claimed (nd_broker n) f.
Proof.
  intros HN Ht. destruct (ln_sending _ _ HN t Ht) as (f & Hf & Hc).
  destruct (ln_known _ _ HN (job_of (nd_pool n) t)) as (f' & Hf' & Hj).
  { by apply thread_knows, sending_thread. }
  exists f. split_and!; [done| |done]. congruence.
Qed.

Lemma server_runs_reachable b b' :
  BrokerStep.reachable sha256_hex repr_exn cfg b → server_runs b b' →
  BrokerStep.reachable sha256_hex repr_exn cfg b'.
Proof. intros [es H] [es' H']. exists (es ++ es'). by eapply steps_app. Qed.

(** A step of the server, its futures shared, while the pool only moved the submitter. *)
Lemma linked_step n b' p' :
  NodeInv n → server_le (nd_broker n) b' → Pool.reachable pcfg p' →
  po_futures p' = po_futures (nd_pool n) → po_threads p' = po_threads (nd_pool n) →
  (∀ i, knows p' i → knows (nd_pool n) i) → offer_ok b' p' (nd_links n) →
  (∀ i f, nd_links n !! i = Some f → f ∈ jb_future <$> br_jobs (nd_broker n) →
    i ∈ po_refused p' → i ∈ po_refused (nd_pool n)) →
  NodeInv (after_server b' (mkNode (nd_broker n) p' (nd_links n))).
Proof.
  intros HN Hle Hp' Ef Et Hknow Hoffer Href. apply linked_shared.
  pose proof HN as [Hs Hp Hlen Hnd Hb Ha Hf Ho Hk Hj Hsend].
  split; simpl; rewrite ?(sl_jobs _ _ Hle); try done.
  - by eapply server_runs_reachable, sl_runs.
  - by rewrite Ef.
  - intros f Hin. pose proof (Hb f Hin). pose proof (sl_nfut _ _ Hle). lia.
  - intros i f Hi. destruct (sl_fut _ _ Hle f) as (_ & Eo & Es).
    { eapply Hb, list_elem_of_lookup_2, Hi. }
    destruct (Ha i f Hi) as [H1 H2]. unfold future in *. rewrite Ef. destruct Es as [Es|[Es Ec]].
    + left. split; [congruence|]. rewrite Eo. exact H2.
    + right. split; [congruence|done].
  - intros f Hn. destruct (Nat.lt_ge_cases f (length (br_future_heap (nd_broker n)))) as [Hl|Hl].
    + destruct (sl_fut _ _ Hle f Hl) as (_ & _ & [->|[_ ->]]); [by apply Hf|by right].
    + by apply (sl_new _ _ Hle f Hl).
  - intros i Hi. by apply Hk, Hknow.
  - intros f Hjob. destruct (Hj f Hjob) as (i & Hi & Hni). exists i. split; [done|].
    intros Hr. apply Hni. by eapply Href.
  - intros t. unfold pc_of, job_of. rewrite Et. intros Ht.
    destruct (sending_job n t HN Ht) as (f & Hlk & Hjob & Hc).
    exists f. split; [done|]. by eapply claimed_later.
Qed.

Lemma linked_server n b' :
  NodeInv n → server_le (nd_broker n) b' →
  br_dispatcher b' = br_dispatcher (nd_broker n) ∨ enters (nd_broker n) b' →
  NodeInv (after_server b' n).
Proof.
  intros HN Hle Hd. pose proof HN as [_ Hp _ _ Hb _ _ Ho _ _ _].
  pose proof (linked_step n b' (nd_pool n)) as H. destruct n as [b p links]; simpl in *.
  apply H; try done. unfold offer_ok in *. destruct Hd as [->|[Hsub Hnew]]; [done|].
  unfold submitting in Hsub. destruct (po_putting p) as [|[[i pr] k] l] eqn:Ep.
  - destruct (br_dispatcher b') as [|r f|r f|] eqn:Ed; try done.
    intros Hin. pose proof (Hb f Hin). pose proof (Hnew r f eq_refl). lia.
  - by destruct (br_dispatcher b).
Qed.

(** ** Steps of the pool *)

(** If the step is a hook that agreed, the job was claimed. *)
Definition hook_claimed (e : pool_event) (n : Node) : Prop :=
  match e with
  | EvThread t _ Proceed _ _ _ =>
      ∀ r w, pc_of (nd_pool n) t = SHook r w →
      ∃ f, nd_links n !! job_of (nd_pool n) t = Some f ∧ claimed (nd_broker n) f
  | _ => True
  end.

Lemma linked_pool n e :
  NodeInv n → own_event e = true → Pool.enabled pcfg e (nd_pool n) = true → hook_claimed e n →
  let n' := after_pool (pool_exec e (nd_pool n)).1 n in
  NodeInv n' ∧ server_runs (nd_broker n) (nd_broker n').
Proof.
  intros HN Hown Hen Hhook. pose proof HN as [Hs Hp Hlen Hnd Hb Ha Hf Ho Hk Hj Hsend].
  destruct (own_step_tracks pcfg (nd_pool n) e) as (Hk' & Hsend' & HT); [|done|done|].
  { by apply (pi_heap pcfg), (pool_reachable_inv pcfg Hsize). }
  assert (Hrun : Pool.reachable pcfg (pool_exec e (nd_pool n)).1).
  { destruct Hp as (pids & es & Hpids & Hst). exists pids, (es ++ [e]). split; [done|].
    eapply steps_app; [done|]. econstructor; [by split|constructor]. }
  set (p' := (pool_exec e (nd_pool n)).1) in *. clearbody p'.
  destruct (play_reflect (nd_pool n) p' (shared (nd_links n)) (nd_broker n)) as (R & T & A).
  { by rewrite shared_snd. }
  { intros i f Hin%shared_elem. split_and!.
    - eapply Hb, list_elem_of_lookup_2, Hin.
    - by apply Ha.
    - destruct (tk_future _ _ _ HT i) as [E|[Hkn Hm]]; [by left|right]. split; [|done].
      destruct (Hk i Hkn) as (f' & Hf' & Hjob). congruence. }
  unfold after_pool. fold (reflect (nd_pool n) p' (nd_links n)) in *.
  set (b' := play_server _ _) in *. clearbody b'. split; [|done].
  assert (Ed : br_dispatcher b' = br_dispatcher (nd_broker n)) by by rewrite (to_rest _ _ _ T).
  assert (Ej : br_jobs b' = br_jobs (nd_broker n)) by by rewrite (to_rest _ _ _ T).
  assert (Er : ∀ r, req b' r = req (nd_broker n) r) by (intros r; by rewrite (to_rest _ _ _ T)).
  assert (Ec : ∀ f, claimed b' f ↔ claimed (nd_broker n) f).
  { intros f. unfold claimed. by rewrite Er, (to_record _ _ _ T). }
  unfold offer_ok in Ho.
  split; simpl; unfold offer_ok; rewrite ?Ed, ?Ej, ?(tk_putting _ _ _ HT), ?(tk_refused _ _ _ HT),
    ?(tk_length _ _ _ HT), ?(to_length _ _ _ T); try done.
  - by eapply server_runs_reachable.
  - intros i f Hi. by apply A, shared_elem.
  - intros f Hn. rewrite (to_other _ _ _ T); [by apply Hf|]. by rewrite shared_snd.
  - intros i Hi. by apply Hk, Hk'.
  - intros t Ht. setoid_rewrite Ec. destruct (Hsend' t Ht) as [Hold|Hnew].
    + rewrite (tk_job _ _ _ HT) by by apply sending_thread. by apply Hsend.
    + destruct e; try done. destruct hook; try done. destruct Hnew as [<- (r & w & Hpc)].
      rewrite (tk_job _ _ _ HT); [by eapply Hhook|].
      cbn in Hen. by apply andb_true_iff in Hen as [Hlt%Nat.ltb_lt _].
Qed.

(** The server's side leaves the position of the pool alone. *)
Lemma after_server_pool b n :
  same_but_futures (nd_pool n) (nd_pool (after_server b n)) ∧
  pool_runs (nd_pool n) (nd_pool (after_server b n)).
Proof.
  destruct (play_cancels (cancelled b (nd_links n)) (nd_pool n)) as (R & E & _).
  split; [exact E|exact R].
Qed.

Lemma same_enabled p p' e :
  same_but_futures p p' → Pool.enabled pcfg e p' = Pool.enabled pcfg e p.
Proof. intros [-> _]. by destruct e. Qed.

Lemma claim_exec f pid now b :
  (server_exec (EvClaim f pid now) b).1
  = (claim_dispatch repr_exn cfg (lf_record (fut b f)) pid now b).1.
Proof.
  cbn [BrokerStep.exec]. unfold pool_claim. rewrite run_gets. unfold mbind, ST_bind.
  by destruct (claim_dispatch _ _ _ _ _ _) as [s1 []].
Qed.

(** The hook is called, and it does not raise. *)
Definition answered (n n' : Node) (e e' : pool_event) : Prop :=
  (n' = n ∧ e' = e) ∨
  ∃ t pid hook sent polled mem r w, e' = EvThread t pid hook sent polled mem ∧
    pc_of (nd_pool n') t = SHook r w ∧ (hook = Proceed ∨ hook = Refused).

(** The claim of a supervisor that is about to call the hook. *)
Lemma linked_claim n e now :
  NodeInv n → own_event e = true → Pool.enabled pcfg e (nd_pool n) = true →
  let (n', e') := node_claim repr_exn cfg pcfg e now n in
  NodeInv n' ∧ own_event e' = true ∧ Pool.enabled pcfg e' (nd_pool n') = true ∧
  hook_claimed e' n' ∧ server_runs (nd_broker n) (nd_broker n') ∧
  pool_runs (nd_pool n) (nd_pool n') ∧ answered n n' e e'.
Proof.
  intros HN Hown Hen.
  assert (Hsame : (∀ t pid sent polled mem r w, e = EvThread t pid Proceed sent polled mem →
      pc_of (nd_pool n) t ≠ SHook r w) →
    NodeInv n ∧ own_event e = true ∧ Pool.enabled pcfg e (nd_pool n) = true ∧
    hook_claimed e n ∧ server_runs (nd_broker n) (nd_broker n) ∧
    pool_runs (nd_pool n) (nd_pool n) ∧ answered n n e e).
  { intros Hno. split_and!; try done; [|by left]. destruct e; try done. destruct hook; try done. simpl.
    intros r w Hpc. by destruct (Hno _ _ _ _ _ r w eq_refl). }
  destruct e as [| | | |t pid hook sent polled mem| | | | | |]; try (apply Hsame; congruence).
  cbn [node_claim]. destruct (pc_of (nd_pool n) t) as [| | | | |r w| | | | | | | | | | | | | | ] eqn:Epc;
    try (apply Hsame; congruence).
  assert (Ht : (t < length (po_threads (nd_pool n)))%nat).
  { cbn in Hen. by apply andb_true_iff in Hen as [Hlt%Nat.ltb_lt _]. }
  destruct (ln_known _ _ HN (job_of (nd_pool n) t)) as (f & Hf & Hjob).
  { by apply thread_knows. }
  rewrite (list_lookup_total_correct _ _ _ Hf).
  set (b := nd_broker n) in *. set (pid' := wk_pid _).
  assert (Hen' : BrokerStep.enabled (EvClaim f pid' now) b = true) by by apply bool_decide_eq_true.
  destruct (own_step_le b (EvClaim f pid' now) (ln_server _ _ HN) eq_refl Hen') as [Hle Hd].
  pose proof (ln_server _ _ HN) as Hr. pose proof (reachable_inv _ _ _ Hlim _ Hr) as Hinv.
  destruct (job_future_links _ _ _ _ Hinv Hjob) as [Hfl _].
  assert (Hrec : lf_record (fut b f) ∈ jb_record <$> br_jobs b).
  { apply list_elem_of_fmap in Hjob as (j & -> & Hj).
    destruct (job_links _ _ _ _ Hinv Hj) as (_ & E & _). apply list_elem_of_fmap. exists j.
    split; [exact E|done]. }
  pose proof (claim_arbitrates _ _ _ Hlim b _ pid' now Hr Hrec) as Hspec.
  rewrite claim_exec in Hle, Hd.
  destruct (claim_dispatch repr_exn cfg (lf_record (fut b f)) pid' now b) as [b' answer] eqn:Ec.
  simpl in Hle, Hd. destruct Hspec as [-> Hst].
  destruct (after_server_pool b' n) as [Hsb Hrun].
  split_and!; [by apply linked_server|done| | |by apply sl_runs|exact Hrun|].
  - rewrite (same_enabled _ _ _ Hsb). exact Hen.
  - match type of Hst with if ?m then _ else _ => destruct m end; [|done].
    intros r' w' _. exists f. cbn [nd_links after_server Node.after_server]. split.
    + destruct Hsb as [-> _]. exact Hf.
    + unfold claimed. cbn. destruct (sl_fut _ _ Hle f Hfl) as (-> & _). congruence.
  - right. do 6 eexists. exists r, w. split_and!; [reflexivity|by destruct Hsb as [-> _]|].
    match type of Hst with if ?m then _ else _ => destruct m end; auto.
Qed.

(** ** The submission of a job *)

Lemma reachable_priorities b :
  BrokerStep.reachable sha256_hex repr_exn cfg b → priorities b.
Proof.
  intros [es Hst]. assert (H : rtc (micro sha256_hex cfg) broker_init b).
  { eapply steps_micro; [exact Hlim|by apply Inv_init|exact Hst]. }
  assert (H0 : priorities broker_init) by (intros r Hr; simpl in Hr; lia).
  clear Hst. induction H as [|b1 b2 b3 Hm _ IH]; [done|]. by eapply IH, priorities_micro.
Qed.

Lemma dispatcher_links b r f :
  BrokerStep.reachable sha256_hex repr_exn cfg b → br_dispatcher b = DSubmitting r f →
  (r < length (br_request_heap b))%nat ∧ (f < length (br_future_heap b))%nat ∧
  lf_record (fut b f) = r ∧ f ∉ jb_future <$> br_jobs b.
Proof.
  intros Hr Hd. pose proof (reachable_inv _ _ _ Hlim b Hr) as Hinv.
  destruct (inv_jobs _ _ _ Hinv) as [Hl _ Hdisp Hsub _ _ _].
  destruct (Hdisp r f (or_introl Hd)) as [Hlt Hlf]. destruct (Hl r f Hlt Hlf).
  destruct (Hsub r f Hd). done.
Qed.

(** The end of a submission that did not succeed. *)
Lemma refused_le b res :
  BrokerStep.reachable sha256_hex repr_exn cfg b → submitting b = true → res ≠ Submitted →
  let b' := (server_exec (BrokerStep.EvSubmit res) b).1 in
  server_le b b' ∧
  (br_dispatcher b' = DIdle ∨ res ≠ SubmitFull ∧ br_dispatcher b' = br_dispatcher b).
Proof.
  intros Hr Hsub Hres b'. unfold submitting in Hsub.
  destruct (br_dispatcher b) as [|r f|r f|] eqn:Hd; try done.
  assert (Hen : BrokerStep.enabled (BrokerStep.EvSubmit res) b = true) by (cbn; by rewrite Hd).
  assert (Hl : later b b').
  { eapply reachable_later; [done..|]. econstructor; [by split|constructor]. }
  assert (Hrun : server_runs b b') by by apply server_runs_one.
  assert (Eb : b' = (dispatch_submit repr_exn cfg r f res b).1).
  { unfold b'. cbn [BrokerStep.exec]. by rewrite run_gets, Hd. }
  clearbody b'. subst b'. split; [by apply moved_le; [apply submit_moved|..]|].
  destruct res as [| |e]; [done|..]; unfold dispatch_submit in *.
  - left. unfold upd_req. rewrite run_modify, run_modify, run_gets. by case_match.
  - pose proof (calm_complete repr_exn cfg r (OError e) b) as Hc. unfold mbind, ST_bind.
    destruct (complete_local _ _ _ _ b) as [s1 [u|e']]; [by left|right].
    simpl in *. split; [done|]. rewrite (ca_dispatcher _ _ Hc). exact Hd.
Qed.

Lemma pool_reachable_step p e :
  Pool.reachable pcfg p → Pool.enabled pcfg e p = true → Pool.reachable pcfg (pool_exec e p).1.
Proof.
  intros (pids & es & Hp & Hst) He. exists pids, (es ++ [e]). split; [done|].
  eapply steps_app; [done|]. econstructor; [by split|constructor].
Qed.

Lemma linked_full n :
  NodeInv n → node_enabled pcfg NFull n = true →
  NodeInv (node_exec NFull n) ∧ server_runs (nd_broker n) (nd_broker (node_exec NFull n)).
Proof.
  intros HN [Hsub Hen]%andb_true_iff. pose proof HN as [Hs Hp _ _ _ _ _ Ho _ _ _].
  destruct (refused_le (nd_broker n) SubmitFull Hs Hsub) as [Hle Hd]; [done|].
  cbn [Node.node_exec]. unfold node_full. split; [|by apply sl_runs].
  assert (Hr : Pool.reachable pcfg (pool_exec (EvPutFull 0) (nd_pool n)).1)
    by by apply pool_reachable_step.
  revert Hr. cbn [Pool.exec]. unfold submit_full. rewrite run_gets. unfold id.
  unfold submitting, offer_ok in *.
  destruct (br_dispatcher (nd_broker n)) as [|r f|r f|] eqn:Ed; try done.
  destruct (dispatcher_links _ r f Hs Ed) as (_ & _ & _ & Hnj).
  cbn in Hen. destruct (po_putting (nd_pool n)) as [|[[i pr] k] [|]] eqn:Ep; try done.
  destruct Ho as [Hi Hni]. cbn [lookup list_lookup]. rewrite run_modify, run_modify. cbn [raise fst].
  intros Hr. apply linked_step; try done.
  - unfold offer_ok. destruct Hd as [->|[? _]]; [|done]. simpl. by rewrite Ep.
  - simpl. intros i' f' Hi' Hj' [Hin|Hin%list_elem_of_singleton]%elem_of_app; [done|].
    subst. congruence.
Qed.

(** The job is the pool's from the put on. *)
Lemma linked_put n :
  NodeInv n → node_enabled pcfg NPut n = true →
  NodeInv (node_exec NPut n) ∧ server_runs (nd_broker n) (nd_broker (node_exec NPut n)).
Proof.
  intros HN [Hsub Hen]%andb_true_iff. pose proof HN as [Hs Hp Hlen Hnd Hb Ha Hf Ho Hk Hj Hsend].
  cbn [Node.node_exec]. unfold node_put. unfold submitting, offer_ok in *.
  destruct (br_dispatcher (nd_broker n)) as [|r f|r f|] eqn:Ed; try done.
  assert (Hrun : server_runs (nd_broker n)
    (server_exec (BrokerStep.EvSubmit Submitted) (nd_broker n)).1).
  { apply server_runs_one. cbn. by rewrite Ed. }
  assert (Hr : Pool.reachable pcfg (pool_exec (EvPut 0) (nd_pool n)).1)
    by by apply pool_reachable_step.
  split; [|exact Hrun]. apply linked_shared. cbn [nd_pool nd_links].
  pose proof (server_runs_reachable _ _ Hs Hrun) as Hs'. revert Hs' Hr.
  cbn [BrokerStep.exec Pool.exec]. rewrite run_gets, Ed. unfold dispatch_submit, upd_req, submit_put, push.
  rewrite run_gets, run_modify, run_modify, run_gets. unfold id.
  cbn in Hen. destruct (po_putting (nd_pool n)) as [|[[i pr] k] [|]] eqn:Ep; try done.
  destruct Ho as [Hi Hni]. cbn [lookup list_lookup].
  rewrite run_modify, run_assoc, run_modify, run_assoc, run_gets, run_modify. cbn [modify fst].
  set (x := mkItem _ _ _). intros Hs' Hr.
  assert (Hheap : is_heap (po_queue (nd_pool n)))
    by by apply (pi_heap pcfg), (pool_reachable_inv pcfg Hsize).
  split; try done.
  - intros i' f' Hi'. left. by apply Ha.
  - unfold offer_ok. simpl. by rewrite Ep.
  - simpl. intros i' Hi'. rewrite fmap_app. setoid_rewrite elem_of_app.
    unfold knows in Hi'. simpl in Hi'. rewrite (heappush_perm _ x Hheap) in Hi'.
    destruct Hi' as [Hi'|Hi'].
    + apply elem_of_cons in Hi' as [[= ->]|Hi']; [exists f; split; [done|by right; left]|].
      destruct (Hk i') as (f' & ? & ?); [by left|]. eauto.
    + destruct (Hk i') as (f' & ? & ?); [by right|]. eauto.
  - simpl. intros f'. rewrite fmap_app, elem_of_app. intros [Hf'|Hf'%list_elem_of_singleton].
    + by apply Hj.
    + subst f'. by exists i.
  - intros t Ht. destruct (Hsend t Ht) as (f' & Hf' & Hc). exists f'. split; [done|].
    unfold claimed, fut, req in *. simpl. rewrite list_lookup_total_alter.
    case_decide as Hd; [|exact Hc]. destruct Hd as [Hd _]. simpl. by rewrite Hd.
Qed.

(** The pool is closed: the exception of [_submit_future] ends the record. *)
Lemma linked_closed n r f e :
  NodeInv n → br_dispatcher (nd_broker n) = DSubmitting r f → po_putting (nd_pool n) = [] →
  let n' := after_server (server_exec (BrokerStep.EvSubmit (SubmitError e)) (nd_broker n)).1
              (mkNode (nd_broker n) (nd_pool n) (nd_links n)) in
  NodeInv n' ∧ server_runs (nd_broker n) (nd_broker n') ∧ pool_runs (nd_pool n) (nd_pool n').
Proof.
  intros HN Ed Ep. pose proof HN as [Hs Hp _ _ _ _ _ Ho _ _ _]. unfold offer_ok in Ho.
  destruct (refused_le (nd_broker n) (SubmitError e) Hs) as [Hle Hd];
    [unfold submitting; by rewrite Ed|done|].
  split_and!; [|by apply sl_runs|by apply (after_server_pool _ (mkNode _ (nd_pool n) _))].
  apply linked_step; try done. unfold offer_ok. rewrite Ep.
  destruct Hd as [->|[_ ->]]; [done|]. rewrite Ed in Ho |- *. by rewrite Ep in Ho.
Qed.

(** The pool is open: the future is now the pool's too, with a number of its own. *)
Definition numbered (p : LocalPool) (pr : Z) : LocalPool :=
  {| p with
    po_futures := po_futures p ++ [mkPoolFuture FutureState.PENDING None None];
    po_putting := po_putting p ++ [(length (po_futures p), pr, po_sequence p)];
    po_sequence := po_sequence p + 1 |}.

Lemma submit_begin_run pr p :
  0 ≤ pr → submit_begin pr p =
    if po_closed p then (p, Err (Raise PoolClosed "the pool is closed")) else (numbered p pr, Ok tt).
Proof.
  intros Hpr. unfold submit_begin. rewrite (proj2 (Z.ltb_ge _ _)) by done. rewrite run_gets. unfold id.
  by destruct (po_closed p).
Qed.

Lemma linked_numbered n r f pr :
  NodeInv n → br_dispatcher (nd_broker n) = DSubmitting r f → po_putting (nd_pool n) = [] →
  Pool.reachable pcfg (numbered (nd_pool n) pr) →
  NodeInv (after_server (nd_broker n) (mkNode (nd_broker n) (numbered (nd_pool n) pr) (nd_links n ++ [f]))).
Proof.
  intros HN Ed Ep Hpool. pose proof HN as [Hs Hp Hlen Hnd Hb Ha Hf Ho Hk Hj Hsend].
  destruct (dispatcher_links _ r f Hs Ed) as (_ & Hfl & _ & _).
  unfold offer_ok in Ho. rewrite Ed, Ep in Ho. apply linked_shared. cbn [nd_pool nd_links].
  split; simpl; try done.
  - rewrite !length_app. simpl. lia.
  - apply NoDup_app. split_and!; [done| |apply NoDup_singleton].
    intros f' Hf' E%list_elem_of_singleton. by subst.
  - intros f' [?|E%list_elem_of_singleton]%elem_of_app; [auto|by subst].
  - intros i f' Hi. unfold future. simpl. apply lookup_app_Some in Hi as [Hi|[Hge Hi]].
    + pose proof (lookup_lt_Some _ _ _ Hi) as Hlt. rewrite lookup_total_app_l by lia.
      left. by apply Ha.
    + apply list_lookup_singleton_Some in Hi as [Hi ->].
      rewrite lookup_total_app_r by lia. rewrite <- Hlen, Hi. unfold lagging, agree. simpl.
      destruct (Hf f') as [E|E]; [done|left|by right]. by split.
  - intros f' Hn. apply Hf. intros Hin. apply Hn, elem_of_app. by left.
  - unfold offer_ok. simpl. rewrite Ed, Ep. simpl. split.
    + rewrite lookup_app_r, <- Hlen, Nat.sub_diag by lia. done.
    + intros Hin. enough (length (po_futures (nd_pool n)) < length (po_futures (nd_pool n)))%nat by lia.
      apply (pi_known pcfg); [by apply (pool_reachable_inv pcfg Hsize)|by right; left].
  - intros i Hi. destruct (Hk i Hi) as (f' & Hf' & ?). eauto using lookup_app_l_Some.
  - intros f' Hf'. destruct (Hj f' Hf') as (i & ? & ?). eauto using lookup_app_l_Some.
  - intros t Ht. destruct (Hsend t Ht) as (f' & Hf' & ?). eauto using lookup_app_l_Some.
Qed.

(** The dispatcher enters [_submit_future]. *)
Lemma linked_offer n :
  NodeInv n → node_enabled pcfg NOffer n = true →
  NodeInv (node_exec NOffer n) ∧ server_runs (nd_broker n) (nd_broker (node_exec NOffer n)) ∧
  pool_runs (nd_pool n) (nd_pool (node_exec NOffer n)).
Proof.
  intros HN [Hsub Hno]%andb_true_iff. pose proof HN as [Hs Hp _ _ _ _ _ _ _ _ _].
  cbn [Node.node_exec]. unfold node_offer, submitting, offered in *.
  destruct (br_dispatcher (nd_broker n)) as [|r f|r f|] eqn:Ed; try done.
  destruct (dispatcher_links _ r f Hs Ed) as (Hr & _ & _ & _).
  destruct (po_putting (nd_pool n)) as [|? ?] eqn:Ep; [|done].
  set (pr := rq_priority _). assert (Hpr : 0 ≤ pr) by by apply reachable_priorities.
  pose proof (pool_reachable_step _ (EvSubmit pr) Hp eq_refl) as Hpool.
  pose proof (pool_runs_one (EvSubmit pr) (nd_pool n) eq_refl (Qfree _ (EvSubmit pr))) as Hrun.
  cbn [Pool.exec] in Hpool, Hrun. rewrite submit_begin_run in * by done.
  destruct (po_closed (nd_pool n)); [by eapply linked_closed|].
  split_and!; [by eapply linked_numbered|reflexivity|].
  etransitivity; [exact Hrun|]. by apply (after_server_pool _ (mkNode _ (numbered _ _) _)).
Qed.

(** ** Every step *)

(** What the thread of the pool does, once the hook has answered, is in [Q]. *)
Definition pool_event_in (n : Node) (e : node_event) : Prop :=
  match e with
  | NPool e now =>
      let (n1, e1) := node_claim repr_exn cfg pcfg e now n in Q (nd_pool n1) e1
  | _ => True
  end.

(** A step of the two together is a run of each. *)
Lemma node_step_runs n e n' :
  NodeInv n → node_step n e n' → pool_event_in n e →
  NodeInv n' ∧ server_runs (nd_broker n) (nd_broker n') ∧ pool_runs (nd_pool n) (nd_pool n').
Proof.
  intros HN [Hen <-] HQe. destruct e as [e| | | |e now].
  - apply andb_true_iff in Hen as [[Hown He]%andb_true_iff _].
    destruct (own_step_le (nd_broker n) e (ln_server _ _ HN)) as [Hle Hd]; [by rewrite Hown|done|].
    split_and!; [by apply linked_server|by apply sl_runs|apply after_server_pool].
  - by apply linked_offer.
  - destruct (linked_put n HN Hen) as [H1 H2]. split_and!; [done|done|].
    apply andb_true_iff in Hen as [_ Hen].
    transitivity (pool_exec (EvPut 0) (nd_pool n)).1;
      [by apply pool_runs_one, (Qfree _ (EvPut 0))|].
    apply (after_server_pool _ (mkNode (nd_broker n) _ (nd_links n))).
  - destruct (linked_full n HN Hen) as [H1 H2]. split_and!; [done|done|].
    apply andb_true_iff in Hen as [_ Hen].
    transitivity (pool_exec (EvPutFull 0) (nd_pool n)).1;
      [by apply pool_runs_one, (Qfree _ (EvPutFull 0))|].
    apply (after_server_pool _ (mkNode (nd_broker n) _ (nd_links n))).
  - apply andb_true_iff in Hen as [[Hown He]%andb_true_iff _].
    cbn [Node.node_exec pool_event_in] in *. unfold node_pool.
    pose proof (linked_claim n e now HN Hown He) as H.
    destruct (node_claim repr_exn cfg pcfg e now n) as [n1 e1].
    destruct H as (HN1 & Hown1 & He1 & Hh1 & R1 & P1 & _).
    destruct (linked_pool n1 e1 HN1 Hown1 He1 Hh1) as [HN2 R2].
    split_and!; [done|by transitivity (nd_broker n1)|].
    transitivity (nd_pool n1); [done|by apply pool_runs_one].
Qed.

Lemma node_init_inv pids : Z.of_nat (length pids) = pool_size pcfg → NodeInv (node_init pids).
Proof.
  intros Hp. split; simpl; try done.
  - exists []. constructor.
  - exists pids, []. split; [done|constructor].
  - apply NoDup_nil_2.
  - intros f Hf. by apply elem_of_nil in Hf.
  - intros f _. by right.
  - intros i [Hi|[Hi|[Hi|[Hi|(l & Hl & _)]]]]; simpl in *; [by apply elem_of_nil in Hi|done|..];
      by apply elem_of_nil in Hi || by apply elem_of_nil in Hl.
  - intros f Hf. by apply elem_of_nil in Hf.
Qed.
End NodeInv.
