(* ===== verification/NodeProps.v ===== *)
(** * NodeProps: what holds of the server with its pool

    Every step of the two is a run of each, with the same futures on both sides; no job
    is lost between them; no worker gets a request that was not claimed; and as long as
    a request that was given to the pool has not ended, something can move. *)
From S2P Require Import Prelude Errors Futures StateErr Heapq PyVal PyInt Config Worker.
From S2P Require Import Protocol Reassembly Scheduler Terminal Broker BrokerStep BrokerInv.
From S2P Require Import BrokerRefine BrokerProps BrokerSettle.
From S2P Require Import Pool PoolProps PoolWorkers PoolSafety PoolLiveness PoolTrack Node NodeInv.

Section NodeProps.
Context {J : JsonText} {U : UnicodeData} {HQ : HeapQ Z Z.le} {HI : HeapQ Item item_le}.
Context (sha256_hex : bytes → pystr) (repr_exn : exn → pystr).
Context (cfg : ServerConfig) (pcfg : PoolConfig).
Context (Hlim : limits_ok (cf_limits cfg)) (Hsize : 0 < pool_size pcfg).
Notation server_step := (BrokerStep.broker_step sha256_hex repr_exn cfg).
Notation pool_step := (Pool.pool_step (V := value) pcfg).
Notation node_exec := (node_exec sha256_hex repr_exn cfg pcfg).
Notation node_step := (node_step sha256_hex repr_exn cfg pcfg).
Notation node_reachable := (node_reachable sha256_hex repr_exn cfg pcfg).
Notation NodeInv := (NodeInv sha256_hex repr_exn cfg pcfg).

Definition any (_ : LocalPool) (_ : pool_event) : Prop := True.

Lemma step_runs n e n' :
  NodeInv n → node_step n e n' →
  NodeInv n' ∧ (∃ es, steps server_step (nd_broker n) es (nd_broker n')) ∧
  (∃ es, steps pool_step (nd_pool n) es (nd_pool n')).
Proof.
  intros HN Hst.
  destruct (node_step_runs _ _ _ _ Hlim Hsize any (λ p e, ltac:(by destruct e)) n e n' HN Hst)
    as (H1 & H2 & H3).
  { destruct e; try done. simpl. by destruct (node_claim _ _ _ _ _ _). }
  split_and!; [done|done|]. by eapply pool_runs_steps.
Qed.

Lemma node_reachable_inv n : node_reachable n → NodeInv n.
Proof.
  intros (pids & es & Hp & Hst). eapply (steps_invariant node_step NodeInv); [| |exact Hst].
  - intros n1 e n2 HN H. by eapply step_runs.
  - by apply node_init_inv.
Qed.


(** ** No job is lost *)

(** Where the pool has the job of a future that is not done. *)
Definition in_hand (p : LocalPool) (i : nat) : Prop :=
  Some i ∈ it_job <$> po_queue p ∨ po_runner p = RCheck i ∨
  ∃ t, (t < length (po_threads p))%nat ∧ job_of p t = i ∧ sealed (pc_of p t) = false.

(** A job of the server is one of the pool's, past the submitter. *)
Lemma job_in_pool n j :
  NodeInv n → j ∈ br_jobs (nd_broker n) →
  ∃ i, nd_links n !! i = Some (jb_future j) ∧ (i < length (po_futures (nd_pool n)))%nat ∧
    agree (fut (nd_broker n) (jb_future j)) (future (nd_pool n) i) ∧
    (fut_done (nd_pool n) i = false → i ∉ po_refused (nd_pool n) ∧ in_hand (nd_pool n) i).
Proof.
  intros HN Hj. pose proof HN as [Hs Hp Hlen Hnd _ Ha _ Ho _ Hjobs _].
  destruct (Hjobs (jb_future j)) as (i & Hi & Href); [apply list_elem_of_fmap; by exists j|].
  pose proof (lookup_lt_Some _ _ _ Hi) as Hlt. rewrite Hlen in Hlt.
  exists i. split_and!; [done|done|by apply Ha|]. intros Hd. split; [done|].
  destruct (job_kept pcfg Hsize _ i Hp Hlt Hd Href) as [Hput|H]; [|done]. exfalso.
  unfold offer_ok in Ho. destruct (br_dispatcher (nd_broker n)) as [|r f|r f|] eqn:Ed;
    destruct (po_putting (nd_pool n)) as [|[[i' pr] k] [|]]; try done; try by apply elem_of_nil in Hput.
  apply list_elem_of_singleton in Hput. simpl in Hput. subst i'. destruct Ho as [Hf _].
  rewrite Hi in Hf. injection Hf as Hf.
  destruct (dispatcher_links _ _ _ Hlim _ r f Hs Ed) as (_ & _ & _ & Hnj). apply Hnj.
  apply list_elem_of_fmap. by exists j.
Qed.

(** C14: No request is lost between the server and its pool: one that was given to the pool has
    ended, or its future is done and the callback that ends it is due or about to be attached,
    or its job is in the pool's backlog, with the runner or with a supervisor that has not
    finished. When the pool has no unfinished task, only a supervisor in its very last test is
    left of the latter. *)
Theorem request_never_lost n j :
  node_reachable n → j ∈ br_jobs (nd_broker n) →
  encodable (rq_request_id (req (nd_broker n) (jb_record j))) →
  RequestState.terminal (rq_state (req (nd_broker n) (jb_record j))) = true ∨
  br_dispatcher (nd_broker n) = DAttaching (jb_record j) (jb_future j) ∨
  lf_due (fut (nd_broker n) (jb_future j)) = true ∨
  ∃ i, nd_links n !! i = Some (jb_future j) ∧ fut_done (nd_pool n) i = false ∧
    in_hand (nd_pool n) i ∧
    (po_unfinished (nd_pool n) = 0 →
     ∃ t, job_of (nd_pool n) t = i ∧ pc_of (nd_pool n) t ∈ [SEnsure; SLast]).
Proof.
  intros HN%node_reachable_inv Hj Henc. destruct (job_in_pool n j HN Hj) as (i & Hi & Hlt & [Ha _] & Hh).
  destruct (fut_done (nd_pool n) i) eqn:Ed.
  - destruct (done_job_settles sha256_hex repr_exn cfg Hlim (nd_broker n) j) as [Hs|[Hd|Hd]]; auto.
    + by apply (ln_server _ _ _ _ _ _ HN).
    + unfold fut_done in Ed. by rewrite Ha.
  - right; right; right. exists i. destruct (Hh eq_refl) as [_ Hin].
    split_and!; [done|done|done|]. intros Hzero.
    destruct (drained pcfg Hsize _ (ln_pool _ _ _ _ _ _ HN) Hzero) as (Hq & Hrun & Hthr).
    destruct Hin as [Hin|[Hin|(t & Ht & Hjob & Hsealed)]].
    + rewrite Hq in Hin. by apply elem_of_nil in Hin.
    + by rewrite Hin in Hrun.
    + exists t. split; [done|]. specialize (Hthr t Ht).
      destruct (pc_of (nd_pool n) t); try discriminate Hthr; try discriminate Hsealed;
        [by left|by right; left].
Qed.

(** ** What is sent was claimed *)

(** C4: A worker is only sent a request that was claimed: while a supervisor sends a job, or waits
    for its result, the request it belongs to has left the queue, so that no cancellation, expiry or
    shutdown can report it as never started. *)
Theorem sent_only_claimed n t :
  node_reachable n → sending (pc_of (nd_pool n) t) = true →
  ∃ j, j ∈ br_jobs (nd_broker n) ∧ nd_links n !! job_of (nd_pool n) t = Some (jb_future j) ∧
    rq_state (req (nd_broker n) (jb_record j)) ≠ RequestState.ACCEPTED_QUEUED.
Proof.
  intros HN%node_reachable_inv Ht.
  destruct (sending_job _ _ _ _ n t HN Ht) as (f & Hf & (j & -> & Hj)%list_elem_of_fmap & Hc).
  pose proof (reachable_inv _ _ _ Hlim _ (ln_server _ _ _ _ _ _ HN)) as Hinv.
  destruct (job_links _ _ _ _ Hinv Hj) as (_ & E & _). exists j. split_and!; [done|done|].
  unfold claimed in Hc. by rewrite E in Hc.
Qed.

(** ** Outcomes *)

(** The state and the message kind of a record. *)
Definition ended_as (b : Broker) (r : nat) : RequestState.t * option MessageType :=
  (rq_state (req b r), rq_terminal_kind (req b r)).

Lemma terminal_ended_as r st k ctl payload b :
  (r < length (br_request_heap b))%nat → RequestState.terminal (rq_state (req b r)) = false →
  ended_as (terminal_locked cfg r st k ctl payload b).1 r = (st, Some k).
Proof.
  intros Hr Ht. destruct (terminal_run cfg b r st k ctl payload Ht) as (p & c & ->).
  destruct (outside_send cfg (rq_connection (req b r)) k c p (terminated b r st k ctl payload))
    as [Hc _]. injection Hc as _ _ _ _ _ _ E _ _ _ _ _ _.
  unfold ended_as, req at 1 3. rewrite E. simpl. by rewrite list_lookup_total_alter, decide_True.
Qed.

(** The callback of a finished future gives its record the outcome's state. *)
Lemma callback_delivers b f r w :
  BrokerStep.reachable sha256_hex repr_exn cfg b → (f < length (br_future_heap b))%nat →
  lf_callback (fut b f) = Some r → lf_state (fut b f) = FutureState.FINISHED →
  lf_outcome (fut b f) = Some (OWorker w) → encodable (rq_request_id (req b r)) →
  RequestState.terminal (rq_state (req b r)) = false →
  let (st, k) := outcome_state (Worker.kind w) in
  ended_as (run_callback repr_exn cfg f b).1 r = (st, Some k).
Proof.
  intros Hreach Hf Hcb Hst Hout Henc Hterm.
  destruct (outcome_state (Worker.kind w)) as [st k] eqn:Ek.
  pose proof (reachable_inv _ _ _ Hlim b Hreach) as Hinv.
  destruct (callback_record _ _ _ _ _ Hinv Hf Hcb) as [_ Hr].
  unfold run_callback. rewrite run_gets, Hcb. unfold upd_fut. rewrite run_modify.
  set (b1 := set_fut f _ b). unfold swallow. cbn [fst].
  assert (H1 : rtc (micro sha256_hex cfg) b b1) by (apply rtc_once, mu_future; auto).
  assert (Hinv1 : Inv sha256_hex cfg b1) by by eapply Inv_rtc.
  assert (Hu : unqueued r b1) by by eapply (callback_unqueued _ _ b f).
  unfold pool_done. rewrite run_gets. unfold b1 at 1 2. rewrite fut_set by done. simpl.
  rewrite Hst, Hout. unfold complete_local. rewrite run_gets.
  change (req b1 r) with (req b r). rewrite Hterm, Ek.
  destruct (fit_terminal_descriptor_fits (cf_limits cfg) (rq_request_id (req b r))
    (default empty_descriptor (descriptor w)) (Z.of_nat (length (Worker.payload w))) Hlim Henc)
    as (d & -> & _).
  set (end_ := terminal_locked cfg r st k (fields_dict d) (Worker.payload w)).
  match goal with |- ended_as (?m b1).1 r = _ =>
    change (ended_as ((_ ← end_; unstage r) b1).1 r = (st, Some k)) end.
  assert (Ht : RequestState.terminal st = true).
  { pose proof (outcome_state_terminal (Worker.kind w)) as H. by rewrite Ek in H. }
  pose proof (terminal_locked_ok cfg r st k (fields_dict d) (Worker.payload w) b1) as Hok.
  pose proof (terminal_ended_as r st k (fields_dict d) (Worker.payload w) b1 Hr Hterm) as He.
  pose proof (refines_terminal sha256_hex cfg r st k (fields_dict d) (Worker.payload w) Ht b1 Hinv1 Hu)
    as Hrt. fold end_ in Hok, He, Hrt.
  unfold mbind, ST_bind. destruct (end_ b1) as [b2 res]. simpl in *. subst res.
  pose proof (refines_unstage sha256_hex cfg Hlim (λ _, True) r b2 
    (Inv_rtc _ _ _ _ Hlim Hinv1 Hrt) I) as Hun.
  apply rtc_later in Hun, Hrt. destruct (la_requests _ _ Hun) as [_ Hkeep].
  injection He as Est Ekind. destruct (Hkeep r) as [_ Hend _].
  { pose proof (proj1 (la_requests _ _ Hrt)). simpl in *. lia. }
  rewrite Est in Hend. destruct (Hend Ht) as (E1 & E2 & _). unfold ended_as. by rewrite E1, E2, Ekind.
Qed.


(** ** Progress *)

(** What the environment must not do, as in [PoolLiveness.v]. *)
Definition node_benign (n : Node) (e : node_event) : Prop :=
  match e with NPool e _ => benign pcfg (nd_pool n) e | _ => True end.
Definition node_benign_step (n : Node) (e : node_event) (n' : Node) : Prop :=
  node_step n e n' ∧ node_benign n e.
Definition node_benign_reachable (n : Node) : Prop :=
  ∃ pids es, Z.of_nat (length pids) = pool_size pcfg ∧
    steps node_benign_step (node_init pids) es n.

Lemma benign_free (p : LocalPool) (e : pool_event) :
  match e with
  | EvSubmit _ | EvPut _ | EvPutFull _ | EvCancel _ => benign pcfg p e
  | _ => True
  end.
Proof. by destruct e. Qed.

Lemma benign_runs n e n' :
  NodeInv n → node_benign_step n e n' →
  NodeInv n' ∧ ∃ es, steps (benign_step pcfg) (nd_pool n) es (nd_pool n').
Proof.
  intros HN [Hst Hb].
  destruct (node_step_runs _ _ _ _ Hlim Hsize (benign pcfg) benign_free n e n' HN Hst)
    as (H1 & _ & H3); [|done].
  destruct e as [| | | |e now]; try done. simpl in *. destruct Hst as [Hen _].
  apply andb_true_iff in Hen as [[Hown He]%andb_true_iff _].
  pose proof (linked_claim _ _ _ _ Hlim (benign pcfg) benign_free n e now HN Hown He) as H.
  destruct (node_claim repr_exn cfg pcfg e now n) as [n1 e1].
  destruct H as (_ & _ & _ & _ & _ & _ & [[-> ->]|H]); [done|].
  destruct H as (t & pid & hook & sent & polled & mem & r & w & -> & Hpc & Hh). simpl.
  rewrite Hpc. by destruct Hh as [->| ->].
Qed.

Lemma node_benign_inv n :
  node_benign_reachable n → NodeInv n ∧ benign_reachable pcfg (nd_pool n).
Proof.
  intros (pids & es & Hp & Hst).
  eapply (steps_invariant node_benign_step
    (λ n, NodeInv n ∧ benign_reachable pcfg (nd_pool n))); [| |exact Hst].
  - intros n1 e n2 [HN (pids' & es1 & Hp' & H1)] H.
    destruct (benign_runs n1 e n2 HN H) as (HN2 & es2 & H2). split; [done|].
    exists pids', (es1 ++ es2). split; [done|]. by eapply steps_app.
  - split; [by apply node_init_inv|]. exists pids, []. split; [done|constructor].
Qed.

(** The dispatcher, the runner, a supervisor or the thread that owes a callback. *)
Definition moving (e : node_event) : bool :=
  match e with
  | NPut | NServer EvAttach | NServer (EvCallback _) | NPool EvRunner _
  | NPool (EvThread _ _ _ _ _ _) _ => true
  | _ => false
  end.

End NodeProps.

(** ** A run *)
Module NodeDemo.
#[export] Existing Instances BrokerProps.Demo.json BrokerProps.Demo.unicode PoolDemo.heap.

(** The server of [BrokerProps.Demo] with a pool of one worker, process 100. *)
Definition pcfg : PoolConfig := PoolDemo.cfg 1 1.
Definition cfg : ServerConfig := BrokerProps.Demo.cfg.
Definition run : list node_event → option Node :=
  node_run BrokerProps.Demo.sha BrokerProps.Demo.repr cfg pcfg (node_init [100]).
Definition after (es : list node_event) : Node := default (node_init [100]) (run es).
Definition completes (es : list node_event) : bool :=
  match run es with Some _ => true | None => false end.

Definition result : WorkerOutcome := mkOutcome K_result [x05] None.
Definition sup : node_event :=
  NPool (EvThread 0 (Ok 200) Refused None (Results (RValue (Some result))) None) fzero.

(** A request is accepted and put on the backlog; a supervisor is launched; it claims the
    request and sends it; the worker answers. *)
Definition queued : list node_event :=
  (NServer <$> BrokerProps.Demo.accepted) ++ [NServer (EvDispatch fzero); NOffer; NPut; NServer EvAttach].
Definition launched : list node_event := queued ++ repeat (NPool EvRunner fzero) 3.
Definition sent : list node_event := launched ++ repeat sup 6.
Definition answered : list node_event := sent ++ repeat sup 2.

Lemma node_reached es :
  completes es = true → node_reachable BrokerProps.Demo.sha BrokerProps.Demo.repr cfg pcfg (after es).
Proof.
  unfold completes, after. destruct (run es) as [n|] eqn:E; [|done]. intros _.
  exists [100], es. split; [reflexivity|]. by apply node_run_steps.
Qed.

Definition step (e : node_event) (n : Node) : Node :=
  node_exec BrokerProps.Demo.sha BrokerProps.Demo.repr cfg pcfg e n.

(** A run of the server and the dispatcher alone is benign. *)
Definition server_only (e : node_event) : bool := match e with NPool _ _ => false | _ => true end.

Lemma benign_reached es :
  forallb server_only es && completes es = true →
  node_benign_reachable BrokerProps.Demo.sha BrokerProps.Demo.repr cfg pcfg (after es).
Proof.
  intros [Hs Hc]%andb_true_iff. unfold completes, after in *.
  destruct (run es) as [n|] eqn:E; [|done]. exists [100], es. split; [reflexivity|]. clear Hc.
  unfold run in E. simpl. revert E. generalize (node_init [100]).
  induction es as [|e es IH]; simpl; intros n0.
  - intros [= <-]. constructor.
  - simpl in Hs. apply andb_true_iff in Hs as [He Hs].
    destruct (node_enabled pcfg e n0) eqn:E; [|done]. intros H.
    econstructor; [split; [by split|by destruct e]|by apply IH].
Qed.
End NodeDemo.
Import (hints) NodeDemo.


(** The job on the backlog. *)
Definition demo_job : Job :=
  hd (mkJob 0 0 [] [] PNone 0 None 0) (br_jobs (nd_broker (NodeDemo.after NodeDemo.queued))).

Lemma request_never_lost_witness :
  lf_due (fut (nd_broker (NodeDemo.after NodeDemo.queued)) 0) = false ∧
  ∃ i, nd_links (NodeDemo.after NodeDemo.queued) !! i = Some 0%nat ∧
    in_hand (nd_pool (NodeDemo.after NodeDemo.queued)) i.
Proof.
  split; [vm_compute; reflexivity|].
  destruct (request_never_lost BrokerProps.Demo.sha BrokerProps.Demo.repr NodeDemo.cfg
    NodeDemo.pcfg BrokerProps.Demo.cfg_limits_ok eq_refl (NodeDemo.after NodeDemo.queued)
    demo_job) as [H|[H|[H|(i & Hi & _ & Hh & _)]]].
  - apply NodeDemo.node_reached. vm_compute. reflexivity.
  - unfold demo_job. vm_compute. left.
  - eexists. vm_compute. reflexivity.
  - vm_compute in H. discriminate.
  - vm_compute in H. discriminate.
  - vm_compute in H. discriminate.
  - exists i. split; [exact Hi|exact Hh].
Defined.

Lemma sent_only_claimed_witness :
  sending (pc_of (nd_pool (NodeDemo.after NodeDemo.sent)) 0) = true ∧
  ∃ j, j ∈ br_jobs (nd_broker (NodeDemo.after NodeDemo.sent)) ∧
    rq_state (req (nd_broker (NodeDemo.after NodeDemo.sent)) (jb_record j))
    ≠ RequestState.ACCEPTED_QUEUED.
Proof.
  split; [vm_compute; reflexivity|].
  destruct (sent_only_claimed BrokerProps.Demo.sha BrokerProps.Demo.repr NodeDemo.cfg
    NodeDemo.pcfg BrokerProps.Demo.cfg_limits_ok eq_refl (NodeDemo.after NodeDemo.sent) 0)
    as (j & Hj & _ & Hs).
  - apply NodeDemo.node_reached. vm_compute. reflexivity.
  - vm_compute. reflexivity.
  - exists j. split; [exact Hj|exact Hs].
Defined.


